(* ===== verification/_CoqProject ===== *)
-Q . S2P
Prelude.v
Types.v
OrderBook.v
StateAccess.v
Ledger.v
Amm.v
Wire.v
Codec.v
Matching.v
ExecBase.v
ExecAccounts.v
ExecAmm.v
BlockOrders.v
ExecOrders.v
ExecNft.v
Executor.v
Rotation.v
Rewards.v
Consensus.v
Block.v
Smt.v
SmtTree.v
SmtRefinement.v
SmtTheorems.v
SmtProof.v
SmtProofTheorems.v
Meta.v
EpochRewards.v
BlockProcessor.v
Invariants.v
ExecValue.v
MatchValue.v
Market.v
Conservation.v
Liquidity.v
Atomicity.v
Chain.v
MatchSpec.v
Samples.v
ExecutorTheorems.v
MarketTheorems.v
StateTheorems.v
RewardTheorems.v
BlockTheorems.v
Bft.v
BftLog.v
BftSteps.v
BftSafety.v
BftCommit.v
BftTermination.v
BftNetwork.v
Mempool.v
MempoolInvariant.v
MempoolRuns.v
MempoolSelection.v
MempoolTheorems.v
Bech32.v
Bech32Theorems.v
Genesis.v
GenesisTheorems.v
