(* ===== verification/Prelude.v ===== *)
(** * Clarity: a verification library of the chain's state machine

    Clarity is a BFT blockchain node in C++ (src/src).  Its consensus-critical
    part is a deterministic state machine: a block is checked, its transactions
    are executed against the state store, and block-level steps (order expiry
    and conditions, rewards, epoch boundary, validator rotation) follow.  Every
    node has to compute the same state.  That machine is what this library
    models and verifies.

    ** How the program is put together

    - State/StateAccess.cpp is the store: typed records (accounts, token
      balances, tokens, validators, NFTs, orders, pools, positions), named
      globals, indexes, over a key-value tree.
    - Core/TransactionExecutor.cpp executes one transaction: prechecks, fee, one
      handler per type, nonce.  Handlers call Core/MatchingEngine.cpp for passive
      orders and the router (Core/ActiveRouter.cpp) for active ones; both use
      Core/OrderBook.cpp for prices and keys.
    - Core/BlockProcessor.cpp applies a block: header, root, quorum and
      certificate checks (Core/Block.cpp, Consensus/Types.cpp), the transaction
      loop, slashing (Core/EquivocationProof.cpp), the order steps, rewards
      (Core/RewardCalculator.cpp), rotation (Core/ValidatorRotation.cpp).
    - State/SparseMerkleTree.cpp commits to the store: a compressed binary tree
      over 256-bit keys whose root a header carries, with history by version;
      State/SmtProof.cpp makes and verifies proofs against such roots.
    - Consensus/BftConsensus.cpp decides which block comes next: rounds of
      propose, prevote and precommit among the active validators, with locks, a
      write-ahead log (Node/Node.cpp) and a hand-over of decided blocks to the
      processor.
    - Core/Mempool.cpp holds pending transactions: it checks them against the
      state, replaces and evicts by fee rate, writes through to a table of the
      database and selects what a proposal carries.
    - Core/Genesis.cpp writes the state of height 0 from the constants of a network,
      whose addresses are Bech32m texts (Crypto/Bech32.cpp, Wallet/AddressCodec.cpp).
    - Common/Wire.h and the serializeState and deserialize functions of Core/
      are the byte formats.

    ** Files

    Data and store
    - Prelude: machine words with explicit wrap-around, byte strings, sums over
      maps, the execution monad [Exec] (success, rejection, crash, each with the
      state) with its weakest preconditions and tactics, record updates.
    - Types: the structs, enumerations and constants of Core/*.h and
      GlobalConfig.h; the class [Crypto] (BLAKE2b and Ed25519, third-party code).
    - OrderBook: pair keys, sides, canonical prices, crossing, book keys.
    - StateAccess: the store and its operations.  One map per key domain.
    - Ledger: the total of a token in a store, and its change under every write.
    - Wire, Codec: the reader and writer, every record's stored format, the
      transaction's wire format.

    Execution
    - Amm: integer square root, swap arithmetic, volume windows, the router.
    - Matching: the matching engine.
    - ExecBase, ExecAccounts, ExecAmm, ExecOrders, ExecNft: the handlers.
    - Executor: prechecks, dispatch, [execute], the system slash.
    - BlockOrders: routing, expiry, conditions, unbonding.

    Blocks
    - Rotation: the validator registry, rotation and offline plans, the
      emergency set.  [std::sort] is the class [StdSort].
    - Rewards: reward split, APY, pot mechanics.
    - Consensus: votes, timeout certificates, slash payloads.
    - Block: headers, blocks, wire formats, Merkle roots.
    - Meta: the tables outside the state root: counters, fee window, indexes.
    - EpochRewards: reward distribution and the epoch boundary.
    - BlockProcessor: the checks, the transaction loop, [applyBlock].

    State tree
    - Smt: the rows of the tree, its reads, updates, removals, batches,
      historical reads, height and pruning, over explicit tables.
    - SmtTree: the abstract compressed tree, its canonical form for every finite
      map, insertion and removal on it.
    - SmtRefinement: when tables store a tree, and that the walks of Smt do on
      the tables what the abstract operations do.
    - SmtProof: proof generation, verification and wire format.

    Consensus
    - Bft: the engine, one definition per method, over the answers of the node
      (class [World]), its log (class [WriteAheadLog]) and the order in which
      hash maps are walked (class [MapOrder]).  What leaves the engine is a list
      of events.
    - BftLog: the contract of the log (class [DurableLog]), a log that keeps it,
      and the log of Node.cpp.
    - BftSteps: the engine as a transition system of guarded elementary steps,
      and that every method is a sequence of them.
    - BftSafety: runs of one engine under calls, crashes and restarts; no vote is
      signed twice.
    - BftCommit: what a decided block carries, and that the processor takes it.
    - BftTermination: the rounds an engine can see bound its recursion.
    - BftNetwork: networks of engines on explicit schedules.

    Mempool
    - Mempool: the pool with its operations, its rows, block selection, and the
      node's calls.  What it reads of the chain is the record [StateView.t] over a
      store.
    - MempoolInvariant: when a pool is consistent, and that every operation keeps
      it so.
    - MempoolRuns: the calls as a transition system with restarts.
    - MempoolSelection: the two passes of block selection.

    Start of a chain
    - Bech32: the checksum, regrouping of bits, encoding and decoding of texts, and
      the address format over them.
    - Genesis: the three configurations, the state they describe, the genesis block.

    Proof libraries
    - Invariants: the class [Stable] of invariants that survive every kind of
      account write, and that every handler keeps each of them.  Instances: the
      nonce table, the staking totals.
    - ExecValue, MatchValue, Market, Conservation, Liquidity, Atomicity,
      MatchSpec: no handler creates tokens; the order book is the set of live
      orders; liquidity shares are backed; which rejections are clean; what a
      match is.
    - Chain: steps and runs of the state machine.

    Theorems (with concrete stores in Samples)
    - ExecutorTheorems: no inflation, replay protection, clean rejections,
      authorisation, market and staking invariants.
    - MarketTheorems: price-time priority with every level accounted for,
      settlement, expiry, conditions, swaps, what a routed order leaves behind,
      liquidity.
    - StateTheorems: key rotation, slashing, transfers, minting, unregistration,
      cancellation, NFT transfer.
    - RewardTheorems: the reward step of a block issues exactly the block reward;
      the epoch boundary pays at most what the pot mechanics distribute.
    - BlockTheorems: accepted blocks refine runs of the chain; two conflicting
      quorums convict more than a third of the set; acceptance means commitment,
      except that a null receipts root passes; slash payloads, certificates and
      transaction roots are sound.
    - SmtTheorems: the tree is a finite map with a history-independent root that
      binds its content; every operation and read in the life of a tree returns;
      batches, saving and loading.
    - SmtProofTheorems: proofs are sound, complete and survive the wire; two
      inputs on which the code misbehaves.
    - BftSafety: an engine never signs two votes of one type in a round.
      BftCommit: a block it hands over carries a certificate of a quorum of its
      set, however the world changes under the engine, and passes the quorum check
      of the processor when the validators of its height did not change.
      BftTermination: every call returns.
      BftNetwork: one faulty validator of four forks the chain, because an old
      lock is precommitted without a polka; the log the node keeps loses votes.
    - MempoolRuns: the pool is consistent along every run, restarts included, and a
      restart keeps exactly what is still valid.  MempoolSelection: a selection is
      executable in order and passes over no ready transaction.  MempoolTheorems:
      an admitted transaction executes; the order checks of pool and executor
      agree; a sum that wraps is let in.
    - Bech32Theorems: addresses and texts correspond exactly; one wrong character is
      always noticed.
    - GenesisTheorems: genesis establishes the invariants of the other theorems; the
      shipped configurations split the supply exactly; chains that start there keep
      staking totals and nonces; a second application breaks the totals of every
      configuration that stakes.
    - OrderBook, Amm, Codec, Block, Rotation, Rewards and Meta end with the
      theorems of their own component.

    ** How state and effects are modelled

    The store is a record of finite maps, passed explicitly.  A handler is an
    [Exec State]: a C++ early return of failure is [Fail] with the state as it is
    at that point, because the executor has no rollback; a division by zero is
    [Crash].  A block that is refused returns a [BlockError] and the store as it
    is; the callers abort the surrounding database transaction.  An engine is an
    [Exec] over a [Node]: the engine's fields, the world, the log, the events.  An
    operation of the mempool is a function from pool to pool with its result; the
    clock it reads is an argument.

    A word is an [N] with its wrap-around written out: [+64], [-64], [*64],
    [u8] ... [u128].  [int64_t] (the pot at an epoch boundary) is a [Z] with its
    wrap.  Bytes are lists of [N], hashes, keys and addresses the number their 32
    bytes spell.  A round has 32 bits; the signing hashes shift it further than
    that, which C++ leaves undefined: those bytes are the parameter [overshift].

    The separation of the store into maps assumes that the hashes of the keys do
    not collide.  Theorems on the order book take the part of it they need as the
    hypothesis [CollisionFree]; theorems on roots name the strings that must not
    collide ([collisionFreeOn]).

    ** Fuel

    A walk of the state tree takes [walkFuel] = 257 steps, one more than the bits
    of a key: every step consumes at least one bit.  An index past the end of a
    buffer is [Crash].  On the tables that any sequence of operations leaves, no
    walk runs out of steps or indexes out of range ([walks_terminate]); on others
    one can ([self_reference_crashes]).

    Two more loops are not structural.  [isqrt128] bisects 128 bits in a fixed 64
    steps, and is shown equal to [N.sqrt] on every input.  The Merkle loop halves
    its level; the number of leaves is enough fuel ([merkleLoop_ends]).  The
    decoders recurse on counts they have read and bounded.

    Entering a round and entering its precommit step call each other through the
    votes they replay: the fuel of [machine] is the depth of that nesting, and its
    end is [Fail].  More than [2 * M + 1] nested entries suffice when [M] bounds
    the rounds in sight ([calls_return]).  The theorems of BftSafety and BftCommit
    hold for every fuel and every outcome.

    The inner loop of the bit conversion of Bech32 takes a group off the pending
    bits at every step: their number is enough fuel ([emit_spec]).

    A round of block selection that goes on has selected an item of the heap: one
    round more than the heap has items is enough ([selection_sound]).

    ** Not modelled

    - The state root stays a parameter of [applyBlock]: the store is kept as typed
      maps and not as the rows of the tree.  The counters of the tree's [Stats].
      The database engine (MDBX, vendored), chain persistence.
    - The engine's mutex, its logging and status snapshot.  Hooks of the engine
      that may be left unset are taken as set.
    - The mempool's mutex, and the release of a read transaction before a write:
      calls are atomic and writes succeed.
    - The temporary database in which the genesis root is computed: it is a fresh
      store.  The node's start-up check of the pinned hash.
    - P2P, RPC, logging, JSON serialization, the wallet except address texts, the
      node except the log it gives the engine and its calls on the mempool: input,
      output and presentation.
    - BLAKE2b and Ed25519: vendored code, the class [Crypto].
    - Display indexes of orders and pools, which the state machine never reads.
*)

From stdpp Require Export base tactics numbers option list gmap strings pretty sorting.
From Stdlib Require Export Lia NArith.

#[global] Set Default Goal Selector "!".
#[global] Open Scope N_scope.

(** ** Machine integers

    The code computes on [uint8_t] ... [uint64_t] and on [__uint128_t].  A
    machine word is an [N]; an operation of the code that can leave the word's
    range carries its wrap-around explicitly. *)

Abbreviation w8 := 256%N (only parsing).
Abbreviation w16 := 65536%N (only parsing).
Abbreviation w32 := 4294967296%N (only parsing).
Abbreviation w64 := 18446744073709551616%N (only parsing).
Abbreviation w128 := 340282366920938463463374607431768211456%N (only parsing).

Definition u8 (x : N) : N := x mod w8.
Definition u16 (x : N) : N := x mod w16.
Definition u32 (x : N) : N := x mod w32.
Definition u64 (x : N) : N := x mod w64.
Definition u128 (x : N) : N := x mod w128.

Definition add64 (a b : N) : N := u64 (a + b).
Definition sub64 (a b : N) : N := u64 (a + w64 - b).
Definition mul64 (a b : N) : N := u64 (a * b).
Definition not64 (a : N) : N := w64 - 1 - u64 a.

Declare Scope word_scope.
Delimit Scope word_scope with word.
Infix "+64" := add64 (at level 50, left associativity) : word_scope.
Infix "-64" := sub64 (at level 50, left associativity) : word_scope.
Infix "*64" := mul64 (at level 40, left associativity) : word_scope.
#[global] Open Scope word_scope.

Create HintDb words.

Lemma u64_le x : u64 x <= x.
Proof. unfold u64. apply N.Div0.mod_le. Qed.

Lemma u64_lt x : u64 x < w64.
Proof. unfold u64. apply N.mod_lt. lia. Qed.

Lemma u64_id x : x < w64 -> u64 x = x.
Proof. intros. unfold u64. by apply N.mod_small. Qed.

Lemma u32_lt x : u32 x < w32.
Proof. unfold u32. apply N.mod_lt. lia. Qed.

Lemma u32_id x : x < w32 -> u32 x = x.
Proof. intros. unfold u32. by apply N.mod_small. Qed.

Lemma u32_u32 x : u32 (u32 x) = u32 x.
Proof. apply u32_id, u32_lt. Qed.

Lemma u128_le x : u128 x <= x.
Proof. unfold u128. apply N.Div0.mod_le. Qed.

Lemma u128_id x : x < w128 -> u128 x = x.
Proof. intros. unfold u128. by apply N.mod_small. Qed.

Lemma mul_lt_w128 a b : a < w64 -> b < w64 -> a * b < w128.
Proof.
  intros Ha Hb. change w128 with (w64 * w64)%N.
  apply N.mul_lt_mono; done.
Qed.

Lemma add64_le a b : a +64 b <= a + b.
Proof. apply u64_le. Qed.

Lemma add64_lt a b : a +64 b < w64.
Proof. apply u64_lt. Qed.

Lemma add64_id a b : a + b < w64 -> a +64 b = a + b.
Proof. apply u64_id. Qed.

Lemma sub64_mod a b : b <= a -> a -64 b = u64 (a - b).
Proof.
  intros H. unfold sub64, u64.
  replace (a + w64 - b) with (a - b + 1 * w64) by lia.
  apply N.Div0.mod_add.
Qed.

Lemma sub64_le a b : b <= a -> a -64 b <= a - b.
Proof. intros. rewrite sub64_mod by done. apply u64_le. Qed.

Lemma sub64_id a b : b <= a -> a < w64 -> a -64 b = a - b.
Proof. intros. rewrite sub64_mod by done. apply u64_id. lia. Qed.

Lemma sub64_lt a b : a -64 b < w64.
Proof. apply u64_lt. Qed.

(** Addition and subtraction of the same amount cancel in the word ring; this
    is what makes the running totals of the code exact modulo [2^64]. *)
Lemma u64_add_l a b : u64 (u64 a + b) = u64 (a + b).
Proof. unfold u64. by rewrite N.Div0.add_mod_idemp_l. Qed.

Lemma u64_add_r a b : u64 (a + u64 b) = u64 (a + b).
Proof. unfold u64. by rewrite N.Div0.add_mod_idemp_r. Qed.

Lemma u64_shift a k : u64 (a + k * w64) = u64 a.
Proof. apply N.Div0.mod_add. Qed.

Lemma sub64_u64_l a b : b <= a -> b < w64 -> u64 a -64 b = u64 (a - b).
Proof.
  intros Hb Hb'. unfold sub64. pose proof (u64_lt a).
  pose proof (N.div_mod a w64 ltac:(lia)) as Ha. fold (u64 a) in Ha.
  rewrite <-(u64_shift (u64 a + w64 - b) (a / w64)), <-(u64_shift (a - b) 1).
  f_equal. lia.
Qed.

#[export] Hint Resolve u64_lt add64_lt sub64_lt u64_le add64_le u32_lt : words.

(** Division facts that [lia] does not find alone. *)
Lemma div_le_of_mul a b c : b <> 0 -> a <= b * c -> a / b <= c.
Proof. intros Hb H. by apply N.Div0.div_le_upper_bound. Qed.

Lemma div_bracket x d : d <> 0 -> x / d * d <= x < (x / d + 1) * d.
Proof.
  intros Hd. pose proof (N.div_mod x d Hd) as E. pose proof (N.mod_lt x d Hd) as Hr.
  revert E Hr. generalize (x / d), (x mod d). intros q r E Hr. rewrite N.mul_add_distr_r. lia.
Qed.

Lemma mul_div_le_l a b c : b <= c -> a * b / c <= a.
Proof.
  intros H. destruct (decide (c = 0)) as [->|Hc].
  { assert (b = 0) as -> by lia. rewrite N.mul_0_r. apply N.le_0_l. }
  apply div_le_of_mul; [done|]. nia.
Qed.

(** ** Bytes

    A byte string is a list of byte values.  A [ByteArray<32>] of the code (a
    hash, a key, an address) is the number its bytes spell big-endian, so
    comparison and [isNull] are those of numbers. *)

Definition bytes := list N.
Definition Hash := N.
Definition Address := N.
Definition PublicKey := N.

Definition isNull (a : N) : bool := a =? 0.

Definition wf_byte (b : N) : Prop := b < w8.
Definition wf_hash (h : N) : Prop := h < 2 ^ 256.

(** [v >> (8*i)] for [i = 0 .. n-1], low byte first. *)
Fixpoint le_split (n : nat) (v : N) : bytes :=
  match n with
  | O => []
  | S n => u8 v :: le_split n (N.shiftr v 8)
  end.

(** [v |= uint64_t(p[i]) << (8*i)]. *)
Fixpoint le_combine (l : bytes) : N :=
  match l with
  | [] => 0
  | b :: l => N.lor b (N.shiftl (le_combine l) 8)
  end.

Definition be_split (n : nat) (v : N) : bytes := reverse (le_split n v).
Definition be_combine (l : bytes) : N := le_combine (reverse l).

Lemma length_le_split n v : length (le_split n v) = n.
Proof. revert v. induction n; intros; cbn; auto. Qed.

Lemma length_be_split n v : length (be_split n v) = n.
Proof. unfold be_split. by rewrite length_reverse, length_le_split. Qed.

Lemma lor_shiftl_add b v : b < w8 -> N.lor b (N.shiftl v 8) = b + w8 * v.
Proof.
  intros Hb. rewrite N.shiftl_mul_pow2. change (2 ^ 8) with w8.
  rewrite (N.mul_comm v).
  assert (Hl : N.land b (w8 * v) = 0).
  { apply N.bits_inj. intros i. rewrite N.land_spec, N.bits_0.
    destruct (decide (i < 8)).
    - change w8 with (2 ^ 8). rewrite N.mul_comm, N.mul_pow2_bits_low by done.
      apply andb_false_r.
    - rewrite (N.bits_above_log2 b i); [done|].
      destruct (decide (b = 0)) as [->|]; [cbn; lia|].
      apply N.log2_lt_pow2; [lia|]. apply N.lt_le_trans with (2 ^ 8); [done|].
      apply N.pow_le_mono_r; lia. }
  rewrite <-N.lxor_lor by done. by rewrite <-N.add_nocarry_lxor.
Qed.

Lemma le_split_wf n v : Forall wf_byte (le_split n v).
Proof.
  revert v. induction n; intros; cbn; constructor; auto.
  unfold wf_byte, u8. apply N.mod_lt. lia.
Qed.

Lemma le_combine_cons b l : wf_byte b -> le_combine (b :: l) = b + w8 * le_combine l.
Proof. intros. cbn. by apply lor_shiftl_add. Qed.

Lemma le_combine_split n v : le_combine (le_split n v) = v mod w8 ^ N.of_nat n.
Proof.
  revert v. induction n as [|n IH]; intros v; cbn [le_split].
  { cbn. by rewrite N.mod_1_r. }
  rewrite le_combine_cons by (unfold wf_byte, u8; apply N.mod_lt; lia).
  rewrite IH, N.shiftr_div_pow2. change (2 ^ 8) with w8. unfold u8.
  rewrite Nat2N.inj_succ, N.pow_succ_r', N.Div0.mod_mul_r. lia.
Qed.

Lemma le_combine_lt l : Forall wf_byte l -> le_combine l < w8 ^ N.of_nat (length l).
Proof.
  induction 1 as [|b l Hb Hl IH]; [cbn; lia|].
  rewrite le_combine_cons by done. cbn [length].
  rewrite Nat2N.inj_succ, N.pow_succ_r'. unfold wf_byte in Hb. nia.
Qed.

(** A short number fills the rest with zeros. *)
Lemma le_split_pad n m v : v < w8 ^ N.of_nat n -> le_split (n + m) v = le_split n v ++ replicate m 0.
Proof.
  revert v. induction n as [|n IH]; intros v Hv; cbn [le_split plus].
  - cbn in Hv. assert (v = 0) as -> by lia. clear. induction m as [|m IH]; [done|]. cbn [le_split replicate app] in *.
    by rewrite N.shiftr_0_l, IH.
  - cbn [app]. f_equal. apply IH. rewrite N.shiftr_div_pow2. apply N.Div0.div_lt_upper_bound.
    rewrite Nat2N.inj_succ, N.pow_succ_r' in Hv. exact Hv.
Qed.

Lemma le_split_combine l : Forall wf_byte l -> le_split (length l) (le_combine l) = l.
Proof.
  induction 1 as [|b l Hb Hl IH]; [done|].
  rewrite le_combine_cons by done. cbn [length le_split].
  unfold wf_byte in Hb. f_equal.
  - unfold u8. rewrite (N.mul_comm w8), N.Div0.mod_add. by apply N.mod_small.
  - rewrite N.shiftr_div_pow2. change (2 ^ 8) with w8.
    rewrite N.mul_comm, N.div_add by lia. rewrite N.div_small by done.
    by rewrite N.add_0_l, IH.
Qed.

Lemma be_combine_split n v : be_combine (be_split n v) = v mod w8 ^ N.of_nat n.
Proof. unfold be_combine, be_split. by rewrite reverse_involutive, le_combine_split. Qed.

(** Lexicographic order of byte strings, the order of the storage engine's
    keys ([memcmp], shorter first). *)
Fixpoint bytes_leb (a b : bytes) : bool :=
  match a, b with
  | [], _ => true
  | _ :: _, [] => false
  | x :: a, y :: b => (x <? y) || ((x =? y) && bytes_leb a b)
  end.

Definition bytes_le (a b : bytes) : Prop := bytes_leb a b = true.

#[export] Instance bytes_le_dec : RelDecision bytes_le.
Proof. intros a b. apply bool_eq_dec. Defined.

#[export] Instance bytes_le_total : Total bytes_le.
Proof.
  intros a. unfold bytes_le. induction a as [|x a IH]; intros [|y b]; cbn; auto.
  destruct (N.lt_trichotomy x y) as [?|[->|?]].
  - left. by apply orb_true_iff; left; apply N.ltb_lt.
  - rewrite N.eqb_refl, N.ltb_irrefl. cbn. apply IH.
  - right. by apply orb_true_iff; left; apply N.ltb_lt.
Qed.

#[export] Instance bytes_le_trans : Transitive bytes_le.
Proof.
  intros a. unfold bytes_le. induction a as [|x a IH]; intros [|y b] [|z c]; cbn; try done.
  rewrite !orb_true_iff, !andb_true_iff, !N.ltb_lt, !N.eqb_eq.
  intros [?|[-> ?]] [?|[-> ?]]; [left; lia|left; lia|left; lia|right; eauto].
Qed.

(** ** Sums over finite maps

    A ledger's totals are sums over its maps.  The laws are stated additively,
    without subtraction, which is the form [lia] uses directly. *)

Section msum.
Context `{Countable K} {A : Type}.
Implicit Types (f g : K -> A -> N) (m : gmap K A).

Definition msum (f : K -> A -> N) (m : gmap K A) : N :=
  map_fold (fun k x acc => f k x + acc) 0 m.

Lemma msum_empty f : msum f ∅ = 0.
Proof. apply map_fold_empty. Qed.

Lemma msum_insert_new f m k x :
  m !! k = None -> msum f (<[k:=x]> m) = f k x + msum f m.
Proof.
  intros. unfold msum.
  rewrite (map_fold_insert_L (fun k x acc => f k x + acc)); [done|intros; lia|done].
Qed.

Lemma msum_delete_Some f m k x :
  m !! k = Some x -> msum f m = f k x + msum f (delete k m).
Proof.
  intros. unfold msum.
  rewrite (map_fold_delete_L (fun k x acc => f k x + acc) _ k x); [done|intros; lia|done].
Qed.

Lemma msum_delete f m k :
  msum f (delete k m) + from_option (f k) 0 (m !! k) = msum f m.
Proof.
  destruct (m !! k) as [x|] eqn:E; cbn.
  - rewrite (msum_delete_Some f m k x) by done. lia.
  - rewrite delete_id by done. lia.
Qed.

Lemma msum_insert f m k x :
  msum f (<[k:=x]> m) + from_option (f k) 0 (m !! k) = msum f m + f k x.
Proof.
  rewrite <-insert_delete_eq, msum_insert_new by apply lookup_delete_eq.
  pose proof (msum_delete f m k). lia.
Qed.

Lemma msum_lookup_le f m k x : m !! k = Some x -> f k x <= msum f m.
Proof. intros. rewrite (msum_delete_Some f m k x) by done. lia. Qed.

Lemma msum_lookup_default f m k : from_option (f k) 0 (m !! k) <= msum f m.
Proof. destruct (m !! k) eqn:E; cbn; [by eapply msum_lookup_le|lia]. Qed.

Lemma msum_le f g m :
  (forall k x, m !! k = Some x -> f k x <= g k x) -> msum f m <= msum g m.
Proof.
  induction m as [|k x m Hk IH] using map_ind; intros Hfg.
  { rewrite !msum_empty. lia. }
  rewrite !msum_insert_new by done.
  specialize (Hfg k x) as Hx. rewrite lookup_insert_eq in Hx. specialize (Hx eq_refl).
  enough (msum f m <= msum g m) by lia. apply IH. intros j y Hj. apply Hfg.
  rewrite lookup_insert_ne; [done|congruence].
Qed.

Lemma msum_zero f m : (forall k x, m !! k = Some x -> f k x = 0) -> msum f m = 0.
Proof.
  induction m as [|k x m Hk IH] using map_ind; intros Hf; [apply msum_empty|].
  rewrite msum_insert_new, (Hf k x), IH; [done| |by rewrite lookup_insert_eq|done].
  intros j y Hj. apply Hf. rewrite lookup_insert_ne; [done|congruence].
Qed.
End msum.

(** ** Lists *)

Lemma map_sublist {A B} (f : A -> B) (k l : list A) : sublist k l -> sublist (map f k) (map f l).
Proof. induction 1; cbn; by constructor. Qed.

Lemma filter_NoDup_map {A B} (f : A -> B) (P : A -> Prop) `{!forall x, Decision (P x)} (l : list A) :
  NoDup (map f l) -> NoDup (map f (filter P l)).
Proof. intros Hnd. eapply sublist_NoDup; [exact Hnd|]. apply map_sublist, sublist_filter. Qed.

(** ** Effects of the execution layer

    A handler of the code reads and writes the state store, and ends in one of
    three ways: it returns a value, it rejects the transaction by an early
    [return failure], or it divides by zero, which ends the process.  A
    rejection does NOT undo the writes made before it: the executor has no
    rollback, so the monad keeps the state reached. *)

Inductive outcome (A : Type) : Type :=
  | Ok (a : A)
  | Fail
  | Crash.
Arguments Ok {A} a.
Arguments Fail {A}.
Arguments Crash {A}.

Definition Exec (S A : Type) : Type := S -> outcome A * S.

#[export] Instance Exec_ret {S} : MRet (Exec S) := fun A a st => (Ok a, st).

#[export] Instance Exec_bind {S} : MBind (Exec S) := fun A B k m st =>
  match m st with
  | (Ok a, st') => k a st'
  | (Fail, st') => (Fail, st')
  | (Crash, st') => (Crash, st')
  end.

Section effects.
Context {S : Type}.

Definition fail {A} : Exec S A := fun st => (Fail, st).
(** [if (!b) return failure;] *)
Definition require (b : bool) : Exec S unit := fun st => (if b then Ok () else Fail, st).
Definition gets {A} (f : S -> A) : Exec S A := fun st => (Ok (f st), st).
(** [if (!state.getX(key, x)) return failure;] *)
Definition fetch {A} (f : S -> option A) : Exec S A := fun st =>
  (match f st with Some a => Ok a | None => Fail end, st).
Definition modify (f : S -> S) : Exec S unit := fun st => (Ok (), f st).
(** A call that reads, writes and returns, and cannot reject. *)
Definition perform {A} (f : S -> A * S) : Exec S A := fun st =>
  (Ok (fst (f st)), snd (f st)).
(** An integer division: a zero divisor raises SIGFPE. *)
Definition divide (a b : N) : Exec S N := fun st =>
  (if b =? 0 then Crash else Ok (a / b), st).
Definition whenM (b : bool) (m : Exec S unit) : Exec S unit := if b then m else mret ().

(** The state reached and the outcome. *)
Definition run_state {A} (m : Exec S A) (st : S) : S := snd (m st).
Definition run_out {A} (m : Exec S A) (st : S) : outcome A := fst (m st).
End effects.

(** Weakest precondition: [Q] holds of the outcome and of the state reached. *)
Definition wp {S A} (m : Exec S A) (Q : outcome A -> S -> Prop) (st : S) : Prop :=
  Q (fst (m st)) (snd (m st)).

Section rules.
Context {S : Type}.
Implicit Types (st : S) (I : S -> Prop).

Lemma wp_bind {A B} (m : Exec S A) (k : A -> Exec S B) Q st :
  wp m (fun o st' => match o with
                     | Ok a => wp (k a) Q st'
                     | Fail => Q Fail st'
                     | Crash => Q Crash st'
                     end) st -> wp (m ≫= k) Q st.
Proof. unfold wp, mbind, Exec_bind. destruct (m st) as [[a| |] st']; done. Qed.

Lemma wp_ret {A} (a : A) (Q : outcome A -> S -> Prop) st :
  Q (Ok a) st -> wp (mret a) Q st.
Proof. done. Qed.

Lemma wp_fail {A} (Q : outcome A -> S -> Prop) st : Q Fail st -> wp fail Q st.
Proof. done. Qed.

Lemma wp_require b (Q : outcome unit -> S -> Prop) st :
  (b = true -> Q (Ok ()) st) -> (b = false -> Q Fail st) -> wp (require b) Q st.
Proof. unfold wp. destruct b; cbn; auto. Qed.

Lemma wp_gets {A} (f : S -> A) (Q : outcome A -> S -> Prop) st :
  Q (Ok (f st)) st -> wp (gets f) Q st.
Proof. done. Qed.

Lemma wp_fetch {A} (f : S -> option A) (Q : outcome A -> S -> Prop) st :
  (forall a, f st = Some a -> Q (Ok a) st) -> (f st = None -> Q Fail st) ->
  wp (fetch f) Q st.
Proof. unfold wp, fetch; cbn. destruct (f st); auto. Qed.

Lemma wp_modify f (Q : outcome unit -> S -> Prop) st : Q (Ok ()) (f st) -> wp (modify f) Q st.
Proof. done. Qed.

Lemma wp_perform {A} (f : S -> A * S) (Q : outcome A -> S -> Prop) st :
  Q (Ok (fst (f st))) (snd (f st)) -> wp (perform f) Q st.
Proof. done. Qed.

Lemma wp_divide a b (Q : outcome N -> S -> Prop) st :
  (b <> 0 -> Q (Ok (a / b)) st) -> (b = 0 -> Q Crash st) -> wp (divide a b) Q st.
Proof. unfold wp, divide; cbn. destruct (N.eqb_spec b 0); auto. Qed.

Lemma wp_mono {A} (m : Exec S A) (P Q : outcome A -> S -> Prop) st :
  wp m P st -> (forall o st', P o st' -> Q o st') -> wp m Q st.
Proof. unfold wp. auto. Qed.

(** *** Syntactic analyses of handlers

    [readonly]: writes nothing.  [total]: cannot reject or crash.  [atomic]:
    a rejection leaves the state it started from.  [preserves I]: keeps the
    invariant [I], whatever the outcome. *)
Definition readonly {A} (m : Exec S A) : Prop := forall st, snd (m st) = st.
Definition total {A} (m : Exec S A) : Prop := forall st, exists a, fst (m st) = Ok a.
Definition atomic {A} (m : Exec S A) : Prop :=
  forall st, fst (m st) = Fail -> snd (m st) = st.
Definition preserves I {A} (m : Exec S A) : Prop := forall st, I st -> I (snd (m st)).

Lemma readonly_ret {A} (a : A) : readonly (mret a).
Proof. done. Qed.
Lemma readonly_fail {A} : readonly (@fail S A).
Proof. done. Qed.
Lemma readonly_require b : readonly (@require S b).
Proof. done. Qed.
Lemma readonly_gets {A} (f : S -> A) : readonly (gets f).
Proof. done. Qed.
Lemma readonly_fetch {A} (f : S -> option A) : readonly (fetch f).
Proof. done. Qed.
Lemma readonly_divide a b : readonly (@divide S a b).
Proof. done. Qed.
Lemma readonly_bind {A B} (m : Exec S A) (k : A -> Exec S B) :
  readonly m -> (forall a, readonly (k a)) -> readonly (m ≫= k).
Proof.
  intros Hm Hk st. unfold mbind, Exec_bind. specialize (Hm st).
  destruct (m st) as [[a| |] st']; cbn in *; subst; auto. apply Hk.
Qed.

Lemma total_ret {A} (a : A) : total (mret a).
Proof. intros st. by exists a. Qed.
Lemma total_gets {A} (f : S -> A) : total (gets f).
Proof. intros st. by exists (f st). Qed.
Lemma total_modify f : total (@modify S f).
Proof. intros st. by exists (). Qed.
Lemma total_perform {A} (f : S -> A * S) : total (perform f).
Proof. intros st. by eexists. Qed.
Lemma total_bind {A B} (m : Exec S A) (k : A -> Exec S B) :
  total m -> (forall a, total (k a)) -> total (m ≫= k).
Proof.
  intros Hm Hk st. unfold mbind, Exec_bind. destruct (Hm st) as [a Ha].
  destruct (m st) as [o st']; cbn in *; subst. apply Hk.
Qed.

Lemma atomic_readonly {A} (m : Exec S A) : readonly m -> atomic m.
Proof. intros Hm st _. apply Hm. Qed.
Lemma atomic_total {A} (m : Exec S A) : total m -> atomic m.
Proof. intros Hm st Hf. destruct (Hm st) as [a Ha]. congruence. Qed.
Lemma atomic_bind_readonly {A B} (m : Exec S A) (k : A -> Exec S B) :
  readonly m -> (forall a, atomic (k a)) -> atomic (m ≫= k).
Proof.
  intros Hm Hk st. unfold mbind, Exec_bind. specialize (Hm st).
  destruct (m st) as [[a| |] st']; cbn in *; subst; [apply Hk|auto|done].
Qed.
Lemma atomic_bind_total {A B} (m : Exec S A) (k : A -> Exec S B) :
  atomic m -> (forall a, total (k a)) -> atomic (m ≫= k).
Proof.
  intros Hm Hk st. unfold mbind, Exec_bind. specialize (Hm st).
  destruct (m st) as [[a| |] st']; cbn in *; [|auto|done].
  intros Hf. destruct (Hk a st') as [b Hb]. congruence.
Qed.

Lemma preserves_readonly I {A} (m : Exec S A) : readonly m -> preserves I m.
Proof. intros Hm st HI. by rewrite Hm. Qed.
Lemma preserves_modify I f : (forall st, I st -> I (f st)) -> preserves I (modify f).
Proof. intros Hf st HI. by apply Hf. Qed.
Lemma preserves_perform I {A} (f : S -> A * S) :
  (forall st, I st -> I (snd (f st))) -> preserves I (perform f).
Proof. intros Hf st HI. by apply Hf. Qed.
Lemma preserves_bind I {A B} (m : Exec S A) (k : A -> Exec S B) :
  preserves I m -> (forall a, preserves I (k a)) -> preserves I (m ≫= k).
Proof.
  intros Hm Hk st HI. unfold mbind, Exec_bind. specialize (Hm st HI).
  destruct (m st) as [[a| |] st']; cbn in *; [by apply Hk|auto|done].
Qed.
End rules.

Create HintDb exec.
#[export] Hint Resolve readonly_ret readonly_fail readonly_require readonly_gets
  readonly_fetch readonly_divide total_ret total_gets total_modify
  total_perform : exec.

(** Case analysis on what a handler branches on: the tests, options and pairs
    its body matches. *)
Ltac exec_case :=
  match goal with
  | |- context [match ?x with _ => _ end] => destruct x eqn:?
  end.

Ltac solve_readonly :=
  repeat first
    [ solve [auto with exec]
    | apply readonly_bind; [|intros ?]
    | progress cbn beta iota zeta
    | match goal with
      | |- readonly (match ?x with _ => _ end) => destruct x
      | |- readonly (whenM _ _) => unfold whenM
      end ].

Ltac solve_total :=
  repeat first
    [ solve [auto with exec]
    | apply total_bind; [|intros ?]
    | progress cbn beta iota zeta
    | match goal with
      | |- total (match ?x with _ => _ end) => destruct x
      | |- total (whenM _ _) => unfold whenM
      end ].

(** Walk down a handler: read-only prefix, then a suffix that cannot reject. *)
Ltac solve_atomic :=
  repeat first
    [ solve [apply atomic_readonly; solve_readonly]
    | solve [apply atomic_total; solve_total]
    | apply atomic_bind_readonly; [solve [solve_readonly]|intros ?]
    | apply atomic_bind_total; [|intros ?; solve [solve_total]]
    | progress cbn beta iota zeta
    | match goal with
      | |- atomic (match ?x with _ => _ end) => destruct x
      | |- atomic (whenM _ _) => unfold whenM
      end ].

(** Symbolic execution: run a handler from a named state, one operation at a
    time, splitting on its guards and branches.  The goals left are the
    postcondition at each exit. *)
Ltac wp_step :=
  lazymatch goal with
  | |- wp (_ ≫= _) _ _ => apply wp_bind
  | |- wp (mret _) _ _ => apply wp_ret
  | |- wp fail _ _ => apply wp_fail
  | |- wp (require _) _ _ => apply wp_require; intros ?
  | |- wp (gets _) _ _ => apply wp_gets
  | |- wp (fetch _) _ _ => apply wp_fetch; [intros ? ?|intros ?]
  | |- wp (modify _) _ _ => apply wp_modify
  | |- wp (perform _) _ _ => apply wp_perform
  | |- wp (divide _ _) _ _ => apply wp_divide; intros ?
  | |- wp (match ?x with _ => _ end) _ _ => destruct x eqn:?
  | |- wp _ _ _ => progress autounfold with exec
  end; cbv beta iota zeta.

Ltac wp_run := cbv beta iota zeta; repeat wp_step.

Lemma preserves_wp {S A} (I : S -> Prop) (m : Exec S A) :
  (forall st, I st -> wp m (fun _ st' => I st') st) -> preserves I m.
Proof. done. Qed.

Lemma wp_preserves {S A} (I : S -> Prop) (m : Exec S A) st :
  preserves I m -> I st -> wp m (fun _ st' => I st') st.
Proof. intros Hm HI. by apply Hm. Qed.

(** ** Record update

    [r <| fld := v |>] is [r] with one field replaced, as an assignment to a
    struct's member.  A record type is made updatable by its eta expansion. *)

Class Eta (R : Type) := eta : R -> R.

Class Setter {R T : Type} (proj : R -> T) := setter : (T -> T) -> R -> R.

Definition update {R T} (proj : R -> T) {s : Setter proj} (f : T -> T) (r : R) : R := s f r.
Arguments update {R T} proj {s} f r /.

Ltac solve_setter :=
  lazymatch goal with
  | |- @Setter ?R ?T ?proj =>
    let e := constr:(_ : Eta R) in
    let e := eval red in e in
    exact (fun (f : T -> T) (r : R) => ltac:(
      let body := eval cbv beta in (e r) in
      match body with
      | context C [proj r] => let b := context C [f (proj r)] in exact b
      end))
  end.

#[export] Hint Extern 1 (Setter _) => solve_setter : typeclass_instances.

Declare Scope record_scope.
Delimit Scope record_scope with record.
Notation "r <| p := v |>" := (update p (fun _ => v) r)
  (at level 1, left associativity, p at level 1, v at level 99,
   format "r  <|  p  :=  v  |>") : record_scope.
Notation "r <| p ::= f |>" := (update p f r)
  (at level 1, left associativity, p at level 1, f at level 99,
   format "r  <|  p  ::=  f  |>") : record_scope.
#[global] Open Scope record_scope.

(** ** Lexicographic order and big-endian numbers *)

Lemma bytes_leb_refl a : bytes_leb a a = true.
Proof.
  induction a as [|x a IH]; [done|]. cbn. by rewrite N.eqb_refl, IH, orb_true_r.
Qed.

Lemma bytes_leb_app x1 x2 y1 y2 :
  length x1 = length y1 ->
  bytes_leb (x1 ++ x2) (y1 ++ y2) =
    if decide (x1 = y1) then bytes_leb x2 y2 else bytes_leb x1 y1.
Proof.
  revert y1. induction x1 as [|a x1 IH]; intros [|b y1] Hl; cbn in Hl; try lia; [done|].
  cbn. rewrite IH by lia. destruct (N.eqb_spec a b) as [->|Hne].
  - rewrite N.ltb_irrefl. cbn. repeat case_decide; congruence.
  - rewrite andb_false_l. case_decide; [congruence|done].
Qed.

Lemma be_split_S n v : be_split (S n) v = be_split n (N.shiftr v 8) ++ [u8 v].
Proof. unfold be_split. cbn [le_split]. by rewrite reverse_cons. Qed.

Lemma be_split_inj n a b :
  a < w8 ^ N.of_nat n -> b < w8 ^ N.of_nat n -> be_split n a = be_split n b -> a = b.
Proof.
  intros Ha Hb H. apply (f_equal be_combine) in H.
  rewrite !be_combine_split, !N.mod_small in H by done. done.
Qed.

(** Big-endian keys sort as the numbers they encode. *)
Lemma be_split_order n a b :
  a < w8 ^ N.of_nat n -> b < w8 ^ N.of_nat n ->
  bytes_leb (be_split n a) (be_split n b) = (a <=? b).
Proof.
  revert a b. induction n as [|n IH]; intros a b.
  { cbn. intros ??. assert (a = 0) as -> by lia. by assert (b = 0) as -> by lia. }
  rewrite Nat2N.inj_succ, N.pow_succ_r'. intros Ha Hb.
  rewrite !be_split_S, bytes_leb_app by (by rewrite !length_be_split).
  rewrite !N.shiftr_div_pow2. change (2 ^ 8) with w8.
  pose proof (N.div_mod a w8 ltac:(lia)) as Ea. pose proof (N.div_mod b w8 ltac:(lia)) as Eb.
  pose proof (N.mod_lt a w8 ltac:(lia)). pose proof (N.mod_lt b w8 ltac:(lia)).
  assert (a / w8 < w8 ^ N.of_nat n) by (apply N.Div0.div_lt_upper_bound; lia).
  assert (b / w8 < w8 ^ N.of_nat n) by (apply N.Div0.div_lt_upper_bound; lia).
  case_decide as Heq.
  - apply be_split_inj in Heq; [|done|done]. cbn. unfold u8.
    destruct (N.ltb_spec (a mod w8) (b mod w8)), (N.eqb_spec (a mod w8) (b mod w8)),
      (N.leb_spec a b); cbn; try done; lia.
  - rewrite IH by done.
    assert (a / w8 <> b / w8) by congruence.
    clear IH Ha Hb Heq. set (qa := a / w8) in *. set (qb := b / w8) in *.
    set (ra := a mod w8) in *. set (rb := b mod w8) in *. clearbody qa qb ra rb.
    destruct (N.leb_spec qa qb), (N.leb_spec a b); try done; lia.
Qed.

(** ** Hash maps

    The order in which an [unordered_map] with 32-byte or integer keys is walked is
    unspecified: a parameter of the code that walks one. *)

Class MapOrder := {
  entries : forall {V : Type}, gmap N V -> list (N * V);
  entries_perm {V} (m : gmap N V) : entries m ≡ₚ map_to_list m;
}.
