(* ===== verification/Types.v ===== *)
(** * Data model

    The structs of src/src/Core: accounts, tokens, validators, key history,
    AMM pools and positions, orders and their conditions, fills, receipts,
    NFTs, collections, and transactions, with the predicates the structs
    declare.  One module per struct, so a field keeps the source's name. *)

From S2P Require Import Prelude.

(** ** Constants of include/GlobalConfig.h and of the Core headers *)

Definition INVALID_ID : N := 0.
Definition NATIVE_TOKEN_ID : N := 0.
Definition ATOMIC_UNITS_PER_COIN : N := 100000.
Definition BLOCK_REWARD : N := ATOMIC_UNITS_PER_COIN * 1.
Definition VALIDATOR_MIN_STAKE : N := 10 * ATOMIC_UNITS_PER_COIN.
Definition ACTIVE_SET_MIN : N := 2.
Definition AUTO_STAKE_THRESHOLD : N := 1 * ATOMIC_UNITS_PER_COIN.
Definition CURRENT_TRANSACTION_VERSION : N := 1.
Definition ROTATION_INTERVAL : N := 60.
Definition UNBONDING_PERIOD : N := 2 * ROTATION_INTERVAL.
Definition UPTIME_REMOVAL_THRESHOLD_BPS : N := 2500.
Definition UPTIME_ACTIVE_MIN_BPS : N := 9000.
Definition REWARD_MULTIPLIER_START : N := 10000.
Definition REWARD_MULTIPLIER_FLOOR : N := 2000.
Definition REWARD_MULTIPLIER_PENALTY : N := 2000.
Definition SLASH_AMOUNT_BPS : N := 500.
Definition SEED_SLASH_EXEMPT : bool := true.
Definition OFFLINE_KICK_BLOCKS : N := 20.
Definition AMM_DEFAULT_FEE_BPS : N := 30.
Definition AMM_MAX_FEE_BPS : N := 1000.
Definition MIN_POOL_LIQUIDITY : N := 1 * ATOMIC_UNITS_PER_COIN.
Definition PRICE_SCALE : N := 10000000000.
Definition ORDER_CANCEL_FEE_ATOMIC : N := 1.
Definition ORDER_MAX_CONDITIONS : nat := 8.
Definition TX_MAX_PAYLOAD_SIZE : nat := 64 * 1024.
Definition TOKEN_NAME_MAX : nat := 64.
Definition TOKEN_SYMBOL_MIN : nat := 3.
Definition TOKEN_SYMBOL_MAX : nat := 8.
Definition NFT_URI_MAX : nat := 512.
Definition NFT_COLLECTION_NAME_MAX : nat := TOKEN_NAME_MAX.
Definition NFT_COLLECTION_SYMBOL_MAX : nat := TOKEN_SYMBOL_MAX.
Definition MAX_KEY_ROTATIONS : nat := 1024.

(** [applyBps]: [bps]/10000 of [value], through a 128-bit product. *)
Definition applyBps (value bps : N) : N := u64 (u128 (value * bps) / 10000).

(** ** Account (Core/Account.h) *)
Module Account.
Record t := mk {
  nonce : N;
  balance : N;
  staked : N;
  pending_rewards : N;
  last_reward_epoch : N;
  staker_since_height : N;
  created_at_height : N;
  staking_opted_out : bool;
}.

#[global] Instance eta_t : Eta t := fun x =>
  mk (nonce x) (balance x) (staked x) (pending_rewards x) (last_reward_epoch x)
     (staker_since_height x) (created_at_height x) (staking_opted_out x).

Definition empty : t := mk 0 0 0 0 0 0 0 false.

Definition isEmpty (a : t) : bool :=
  (nonce a =? 0) && (balance a =? 0) && (staked a =? 0) &&
  (pending_rewards a =? 0) && negb (staking_opted_out a).

Definition totalValue (a : t) : N := balance a +64 pending_rewards a.

Definition recalculateStaked (auto_stake_threshold : N) (a : t) : t :=
  if staking_opted_out a || (balance a <? auto_stake_threshold)
  then a <| staked := 0 |>
  else a <| staked := balance a |>.
End Account.

(** ** TokenInfo (Core/TokenTypes.h); names and symbols are byte strings. *)
Module BackingModel.
Inductive t : Set :=
| Unbacked
| Backed
| Hybrid
| UnknownBacking (b : N).

#[global] Instance eq_dec : EqDecision t.
Proof. solve_decision. Defined.

(** [static_cast<uint8_t>]. *)
Definition to_byte (x : t) : N :=
  match x with
  | Unbacked => 0x00
  | Backed => 0x01
  | Hybrid => 0x02
  | UnknownBacking b => b
  end.

(** The cast from a byte. *)
Definition of_byte (b : N) : t :=
  match b with
  | 0x00 => Unbacked
  | 0x01 => Backed
  | 0x02 => Hybrid
  | _ => UnknownBacking b
  end.

Lemma BackingModel_to_of_byte b : to_byte (of_byte b) = b.
Proof. destruct b as [|p]; [done|]. do 8 (try done; destruct p as [p|p|]; try done). Qed.
End BackingModel.

Module TokenInfo.
Record t := mk {
  id : N;
  name : bytes;
  symbol : bytes;
  decimals : N;
  creator : Address;
  backing : BackingModel.t;
  maxSupply : N;
  royaltyBps : N;
  fingerprint : option Hash;
}.

#[global] Instance eta_t : Eta t := fun x =>
  mk (id x) (name x) (symbol x) (decimals x) (creator x) (backing x) (maxSupply x)
     (royaltyBps x) (fingerprint x).

Definition isValid (x : t) : bool :=
  negb (length (symbol x) <? TOKEN_SYMBOL_MIN)%nat &&
  negb (TOKEN_SYMBOL_MAX <? length (symbol x))%nat &&
  negb ((length (name x) =? 0)%nat || (TOKEN_NAME_MAX <? length (name x))%nat) &&
  negb (18 <? decimals x) &&
  negb (10000 <? royaltyBps x).
End TokenInfo.

(** ** ValidatorInfo (Core/ValidatorTypes.h) *)
Module ValidatorInfo.
Record t := mk {
  id : N;
  reward_address : Address;
  consensus_key : PublicKey;
  node_key : PublicKey;
  owner : Address;
  registered_at_height : N;
  stake : N;
  uptime_score : N;
  last_ping_height : N;
  pings_responded_this_epoch : N;
  pings_sent_this_epoch : N;
  last_seen_height : N;
  reward_multiplier : N;
  infraction_count : N;
  last_infraction_height : N;
  total_blocks_produced : N;
  total_rewards_earned : N;
  epochs_active : N;
  is_seed : bool;
  is_active : bool;
  became_active_at : N;
  last_active_at : N;
  pending_unbond_height : N;
}.

#[global] Instance eta_t : Eta t := fun x =>
  mk (id x) (reward_address x) (consensus_key x) (node_key x) (owner x)
     (registered_at_height x) (stake x) (uptime_score x) (last_ping_height x)
     (pings_responded_this_epoch x) (pings_sent_this_epoch x) (last_seen_height x)
     (reward_multiplier x) (infraction_count x) (last_infraction_height x)
     (total_blocks_produced x) (total_rewards_earned x) (epochs_active x)
     (is_seed x) (is_active x) (became_active_at x) (last_active_at x)
     (pending_unbond_height x).

(** A default-constructed [ValidatorInfo{}]. *)
Definition fresh : t :=
  mk INVALID_ID 0 0 0 0 0 0 10000 0 0 0 0 REWARD_MULTIPLIER_START 0 0 0 0 0
     false false 0 0 0.

Definition isOffline (current_height : N) (v : t) : bool :=
  if current_height <? last_seen_height v then false
  else OFFLINE_KICK_BLOCKS <=? current_height -64 last_seen_height v.

Definition isHealthy (v : t) : bool := UPTIME_REMOVAL_THRESHOLD_BPS <=? uptime_score v.

Definition meetsStakeRequirement (v : t) : bool := VALIDATOR_MIN_STAKE <=? stake v.

Definition canBeActive (v : t) : bool :=
  (pending_unbond_height v =? 0) && isHealthy v &&
  (UPTIME_ACTIVE_MIN_BPS <=? uptime_score v) && meetsStakeRequirement v.

(** The subtraction is on [uint32_t], the result is stored as [uint16_t]. *)
Definition applyInfractionPenalty (height : N) (v : t) : t :=
  let penalized := u32 (reward_multiplier v + w32 - REWARD_MULTIPLIER_PENALTY) in
  v <| infraction_count := u16 (infraction_count v + 1) |>
    <| reward_multiplier :=
         u16 (if penalized <? REWARD_MULTIPLIER_FLOOR then REWARD_MULTIPLIER_FLOOR
              else penalized) |>
    <| last_infraction_height := height |>.

Definition effectiveConsensusKey (v : t) : PublicKey :=
  if isNull (consensus_key v) then reward_address v else consensus_key v.

Definition isUnbonding (current_height : N) (v : t) : bool :=
  if pending_unbond_height v =? 0 then false
  else current_height <? pending_unbond_height v.

Definition isUnbondExpired (current_height : N) (v : t) : bool :=
  negb (pending_unbond_height v =? 0) && (pending_unbond_height v <=? current_height).
End ValidatorInfo.

(** ** KeyRotation (Core/KeyRotation.h) *)
Module KeyRotation.
Record t := mk {
  key : PublicKey;
  valid_from_height : N;
  valid_until_height : N;    (* 0 = current *)
}.
#[global] Instance eta_t : Eta t := fun x =>
  mk (key x) (valid_from_height x) (valid_until_height x).
End KeyRotation.

(** ** AmmPool (Core/AmmPool.h) *)
Module AmmPool.
Record t := mk {
  id : N;
  creator : Address;
  token_a : N;
  token_b : N;
  reserve_a : N;
  reserve_b : N;
  total_liquidity : N;
  fee_bps : N;
  created_at_height : N;
  active : bool;
  volume_window_height : N;
  volume_current : N;
  volume_last : N;
}.

#[global] Instance eta_t : Eta t := fun x =>
  mk (id x) (creator x) (token_a x) (token_b x) (reserve_a x) (reserve_b x)
     (total_liquidity x) (fee_bps x) (created_at_height x) (active x)
     (volume_window_height x) (volume_current x) (volume_last x).

Definition isValid (p : t) : bool :=
  if id p =? INVALID_ID then false
  else if token_a p =? token_b p then false
  else if token_b p <? token_a p then false
  else if AMM_MAX_FEE_BPS <? fee_bps p then false
  else if (reserve_a p =? 0) && (reserve_b p =? 0) then true
  else (0 <? reserve_a p) && (0 <? reserve_b p).

Definition isClosed (p : t) : bool :=
  (total_liquidity p =? 0) && (reserve_a p =? 0) && (reserve_b p =? 0).

Definition k (p : t) : N := u128 (reserve_a p * reserve_b p).

Definition reportedVolume (current_height : N) (p : t) : N :=
  if volume_window_height p =? 0 then 0
  else if volume_window_height p +64 ROTATION_INTERVAL <=? current_height
  then volume_current p
  else volume_last p.
End AmmPool.

(** ** AmmPosition (Core/AmmPosition.h) *)
Module AmmPosition.
Record t := mk {
  id : N;
  owner : Address;
  pool_id : N;
  liquidity : N;
  created_at_height : N;
}.
#[global] Instance eta_t : Eta t := fun x =>
  mk (id x) (owner x) (pool_id x) (liquidity x) (created_at_height x).

Definition isValid (p : t) : bool :=
  negb (id p =? INVALID_ID) && negb (pool_id p =? INVALID_ID) && negb (isNull (owner p)).
End AmmPosition.

(** ** Order conditions and orders (Core/Order.h)

    An enum that the code casts from a byte has one more constructor, for the
    bytes outside the enumeration: the code can hold such a value and tests for
    it. *)
Module OrderConditionType.
Inductive t : Set :=
| Invalid
| ExpiresAtHeight
| PriceAbove
| PriceBelow
| VolumeBelow
| BalanceBelow
| UnknownCondition (b : N).

#[global] Instance eq_dec : EqDecision t.
Proof. solve_decision. Defined.

(** [static_cast<uint8_t>]. *)
Definition to_byte (x : t) : N :=
  match x with
  | Invalid => 0x00
  | ExpiresAtHeight => 0x01
  | PriceAbove => 0x02
  | PriceBelow => 0x03
  | VolumeBelow => 0x04
  | BalanceBelow => 0x05
  | UnknownCondition b => b
  end.

(** The cast from a byte. *)
Definition of_byte (b : N) : t :=
  match b with
  | 0x00 => Invalid
  | 0x01 => ExpiresAtHeight
  | 0x02 => PriceAbove
  | 0x03 => PriceBelow
  | 0x04 => VolumeBelow
  | 0x05 => BalanceBelow
  | _ => UnknownCondition b
  end.

Lemma OrderConditionType_to_of_byte b : to_byte (of_byte b) = b.
Proof. destruct b as [|p]; [done|]. do 8 (try done; destruct p as [p|p|]; try done). Qed.
End OrderConditionType.

Module OrderCondition.
Import OrderConditionType.

Record t := mk { type : OrderConditionType.t; param1 : N; param2 : N }.

(** Conditions that name a pool in [param2]. *)
Definition names_pool (c : t) : bool :=
  match type c with PriceAbove | PriceBelow | VolumeBelow => true | _ => false end.

Definition isValid (c : t) : bool :=
  if bool_decide (type c = Invalid) then false
  else if names_pool c && (param2 c =? 0) then false
  else if match type c with ExpiresAtHeight | BalanceBelow => true | _ => false end &&
          negb (param2 c =? 0) then false
  else if match type c with PriceAbove | PriceBelow | BalanceBelow => true | _ => false end &&
          (param1 c =? 0) then false
  else true.
End OrderCondition.

Module OrderExecutionMode.
Inductive t : Set :=
| Passive
| Active
| UnknownMode (b : N).

#[global] Instance eq_dec : EqDecision t.
Proof. solve_decision. Defined.

(** [static_cast<uint8_t>]. *)
Definition to_byte (x : t) : N :=
  match x with
  | Passive => 0x00
  | Active => 0x01
  | UnknownMode b => b
  end.

(** The cast from a byte. *)
Definition of_byte (b : N) : t :=
  match b with
  | 0x00 => Passive
  | 0x01 => Active
  | _ => UnknownMode b
  end.

Lemma OrderExecutionMode_to_of_byte b : to_byte (of_byte b) = b.
Proof. destruct b as [|p]; [done|]. do 8 (try done; destruct p as [p|p|]; try done). Qed.
End OrderExecutionMode.

Module Order.
Import OrderExecutionMode.

Record t := mk {
  id : N;
  owner : Address;
  mode : OrderExecutionMode.t;
  pool_id : N;
  sell_token : N;
  buy_token : N;
  sell_amount : N;
  min_buy_amount : N;
  created_at_height : N;
  order_expires_at_height : N;
  filled_amount : N;
  conditions : list OrderCondition.t;   (* the first [condition_count] slots *)
}.

#[global] Instance eta_t : Eta t := fun x =>
  mk (id x) (owner x) (mode x) (pool_id x) (sell_token x) (buy_token x) (sell_amount x)
     (min_buy_amount x) (created_at_height x) (order_expires_at_height x)
     (filled_amount x) (conditions x).

Definition condition_count (o : t) : nat := length (conditions o).

Definition isValid (o : t) : bool :=
  negb (id o =? INVALID_ID) &&
  negb (isNull (owner o)) &&
  negb (sell_token o =? buy_token o) &&
  negb (sell_amount o =? 0) &&
  negb (min_buy_amount o =? 0) &&
  negb (sell_amount o <? filled_amount o) &&
  negb (ORDER_MAX_CONDITIONS <? condition_count o)%nat &&
  match mode o with
  | Active => negb (pool_id o =? 0)
  | Passive => pool_id o =? 0
  | UnknownMode _ => false
  end &&
  forallb OrderCondition.isValid (conditions o).

Definition remainingAmount (o : t) : N := sell_amount o -64 filled_amount o.

Definition isFullyFilled (o : t) : bool := sell_amount o <=? filled_amount o.
End Order.

(** ** Fill and Receipt (Core/Fill.h, Core/Receipt.h) *)
Module FillSource.
Inductive t : Set :=
| Limit
| Amm
| UnknownSource (b : N).

#[global] Instance eq_dec : EqDecision t.
Proof. solve_decision. Defined.

(** [static_cast<uint8_t>]. *)
Definition to_byte (x : t) : N :=
  match x with
  | Limit => 0x00
  | Amm => 0x01
  | UnknownSource b => b
  end.

(** The cast from a byte. *)
Definition of_byte (b : N) : t :=
  match b with
  | 0x00 => Limit
  | 0x01 => Amm
  | _ => UnknownSource b
  end.

Lemma FillSource_to_of_byte b : to_byte (of_byte b) = b.
Proof. destruct b as [|p]; [done|]. do 8 (try done; destruct p as [p|p|]; try done). Qed.
End FillSource.

Module Fill.
Import FillSource.

Record t := mk {
  source : FillSource.t;
  maker_order_id : N;
  taker_order_id : N;
  pool_id : N;
  qty_base : N;
  qty_quote : N;
  price : N;
  base_token : N;
  quote_token : N;
}.

Definition isValid (f : t) : bool :=
  if taker_order_id f =? 0 then false
  else if qty_base f =? 0 then false
  else if base_token f =? quote_token f then false
  else match source f with
       | Limit => negb (maker_order_id f =? 0) &&
                  negb (maker_order_id f =? taker_order_id f) && (pool_id f =? 0)
       | Amm => (maker_order_id f =? 0) && negb (pool_id f =? 0)
       | UnknownSource _ => true
       end.
End Fill.

Module ReceiptStatus.
Inductive t : Set :=
| Success
| Failure
| UnknownStatus (b : N).

#[global] Instance eq_dec : EqDecision t.
Proof. solve_decision. Defined.

(** [static_cast<uint8_t>]. *)
Definition to_byte (x : t) : N :=
  match x with
  | Success => 0x00
  | Failure => 0x01
  | UnknownStatus b => b
  end.

(** The cast from a byte. *)
Definition of_byte (b : N) : t :=
  match b with
  | 0x00 => Success
  | 0x01 => Failure
  | _ => UnknownStatus b
  end.

Lemma ReceiptStatus_to_of_byte b : to_byte (of_byte b) = b.
Proof. destruct b as [|p]; [done|]. do 8 (try done; destruct p as [p|p|]; try done). Qed.
End ReceiptStatus.

Module Receipt.
Import ReceiptStatus.

Record t := mk { status : ReceiptStatus.t; fee_paid : N; fills : list Fill.t }.

Definition isValid (r : t) : bool :=
  match status r with Success | Failure => true | UnknownStatus _ => false end.
End Receipt.

(** ** NFTs and collections (Core/NftTypes.h) *)
Module NftInfo.
Record t := mk {
  id : N;
  owner : Address;
  creator : Address;
  shadow_token_id : N;
  underlying_token_id : N;
  wrapped_amount : N;
  collection_id : N;
  metadata_hash : Hash;
  metadata_uri : bytes;
  frozen : bool;
  last_accrual_height : N;
  accrued_owed : N;
  created_at_height : N;
}.

#[global] Instance eta_t : Eta t := fun x =>
  mk (id x) (owner x) (creator x) (shadow_token_id x) (underlying_token_id x)
     (wrapped_amount x) (collection_id x) (metadata_hash x) (metadata_uri x) (frozen x)
     (last_accrual_height x) (accrued_owed x) (created_at_height x).

Definition isWrapped (n : t) : bool := negb (underlying_token_id n =? 0).

Definition isValid (n : t) : bool :=
  negb (id n =? INVALID_ID) &&
  negb (isNull (owner n)) &&
  negb (isNull (creator n)) &&
  negb (shadow_token_id n =? 0) &&
  negb ((underlying_token_id n =? 0) && negb (wrapped_amount n =? 0)) &&
  negb (negb (underlying_token_id n =? 0) && (wrapped_amount n =? 0)) &&
  negb (underlying_token_id n =? shadow_token_id n) &&
  negb (NFT_URI_MAX <? length (metadata_uri n))%nat.
End NftInfo.

Module NftCollection.
Record t := mk {
  id : N;
  creator : Address;
  name : bytes;
  symbol : bytes;
  base_uri : bytes;
  reward_token_id : N;
  reward_rate_per_epoch : N;
  reward_escrow_remaining : N;
  reward_paused : bool;
  created_at_height : N;
  minted_count : N;
}.

#[global] Instance eta_t : Eta t := fun x =>
  mk (id x) (creator x) (name x) (symbol x) (base_uri x) (reward_token_id x)
     (reward_rate_per_epoch x) (reward_escrow_remaining x) (reward_paused x)
     (created_at_height x) (minted_count x).

Definition hasReward (c : t) : bool :=
  negb (reward_token_id c =? 0) && (0 <? reward_rate_per_epoch c).

Definition isValid (c : t) : bool :=
  negb (id c =? INVALID_ID) &&
  negb (isNull (creator c)) &&
  negb ((length (name c) =? 0)%nat || (NFT_COLLECTION_NAME_MAX <? length (name c))%nat) &&
  negb ((length (symbol c) <? TOKEN_SYMBOL_MIN)%nat ||
        (NFT_COLLECTION_SYMBOL_MAX <? length (symbol c))%nat) &&
  negb (NFT_URI_MAX <? length (base_uri c))%nat &&
  (if reward_token_id c =? 0
   then (reward_rate_per_epoch c =? 0) && (reward_escrow_remaining c =? 0)
   else negb (reward_rate_per_epoch c =? 0)).
End NftCollection.

(** ** Transactions (Core/TransactionTypes.h, Core/Transaction.h) *)
Module TxType.
Inductive t : Set :=
| Transfer
| OptInStaking
| OptOutStaking
| ClaimRewards
| RegisterValidator
| UnregisterValidator
| UpdateRewardAddress
| RotateConsensusKey
| CreatePool
| AddLiquidity
| RemoveLiquidity
| Swap
| CreateOrder
| CancelOrder
| CreateNftCollection
| MintNft
| WrapNft
| TransferNft
| BurnNft
| UpdateNftMetadata
| TopUpNft
| ClaimNftReward
| RefillCollectionReward
| CreateToken
| MintToken
| BurnToken
| UpdateTokenMeta
| BlockReward
| OrderExpired
| Slash
| Invalid
| Unknown (b : N).

#[global] Instance eq_dec : EqDecision t.
Proof. solve_decision. Defined.

(** [static_cast<uint8_t>]. *)
Definition to_byte (x : t) : N :=
  match x with
  | Transfer => 0x00
  | OptInStaking => 0x10
  | OptOutStaking => 0x11
  | ClaimRewards => 0x12
  | RegisterValidator => 0x20
  | UnregisterValidator => 0x21
  | UpdateRewardAddress => 0x22
  | RotateConsensusKey => 0x23
  | CreatePool => 0x30
  | AddLiquidity => 0x31
  | RemoveLiquidity => 0x32
  | Swap => 0x33
  | CreateOrder => 0x40
  | CancelOrder => 0x41
  | CreateNftCollection => 0x42
  | MintNft => 0x43
  | WrapNft => 0x44
  | TransferNft => 0x45
  | BurnNft => 0x46
  | UpdateNftMetadata => 0x47
  | TopUpNft => 0x48
  | ClaimNftReward => 0x49
  | RefillCollectionReward => 0x4a
  | CreateToken => 0x50
  | MintToken => 0x51
  | BurnToken => 0x52
  | UpdateTokenMeta => 0x53
  | BlockReward => 0xf0
  | OrderExpired => 0xf1
  | Slash => 0xf2
  | Invalid => 0xff
  | Unknown b => b
  end.

(** The cast from a byte. *)
Definition of_byte (b : N) : t :=
  match b with
  | 0x00 => Transfer
  | 0x10 => OptInStaking
  | 0x11 => OptOutStaking
  | 0x12 => ClaimRewards
  | 0x20 => RegisterValidator
  | 0x21 => UnregisterValidator
  | 0x22 => UpdateRewardAddress
  | 0x23 => RotateConsensusKey
  | 0x30 => CreatePool
  | 0x31 => AddLiquidity
  | 0x32 => RemoveLiquidity
  | 0x33 => Swap
  | 0x40 => CreateOrder
  | 0x41 => CancelOrder
  | 0x42 => CreateNftCollection
  | 0x43 => MintNft
  | 0x44 => WrapNft
  | 0x45 => TransferNft
  | 0x46 => BurnNft
  | 0x47 => UpdateNftMetadata
  | 0x48 => TopUpNft
  | 0x49 => ClaimNftReward
  | 0x4a => RefillCollectionReward
  | 0x50 => CreateToken
  | 0x51 => MintToken
  | 0x52 => BurnToken
  | 0x53 => UpdateTokenMeta
  | 0xf0 => BlockReward
  | 0xf1 => OrderExpired
  | 0xf2 => Slash
  | 0xff => Invalid
  | _ => Unknown b
  end.

Lemma TxType_to_of_byte b : to_byte (of_byte b) = b.
Proof. destruct b as [|p]; [done|]. do 8 (try done; destruct p as [p|p|]; try done). Qed.

Definition isUserSubmitted (x : t) : bool := to_byte x <? 0xf0.
Definition isSystemTx (x : t) : bool := (0xf0 <=? to_byte x) && negb (bool_decide (x = Invalid)).
End TxType.

Module Transaction.
Record t := mk {
  version : N;
  chain_id : N;
  tx_type : TxType.t;
  nonce : N;
  valid_until_height : N;
  from : Address;
  to : Address;
  token_id : N;
  amount : N;
  fee : N;
  payload : bytes;
  signature : bytes;
}.

Definition isWellFormed (tx : t) : bool :=
  if negb (version tx =? CURRENT_TRANSACTION_VERSION) then false
  else if chain_id tx =? 0 then false
  else if bool_decide (tx_type tx = TxType.Invalid) then false
  else if (TX_MAX_PAYLOAD_SIZE <? length (payload tx))%nat then false
  else if TxType.isSystemTx (tx_type tx) then negb (length (payload tx) =? 0)%nat
  else if isNull (from tx) then false
  else if (amount tx =? 0) && (fee tx =? 0) && (length (payload tx) =? 0)%nat then false
  else true.
End Transaction.

(** [TxExecutionContext] (Core/TransactionExecutor.h). *)
Module Ctx.
Record t := mk { current_height : N; chain_id : N; tx_index_in_block : N }.
End Ctx.

(** ** Facts about the structs the components share *)

Lemma applyBps_le value bps : bps <= 10000 -> applyBps value bps <= value.
Proof.
  intros Hb. unfold applyBps.
  etrans; [apply u64_le|]. etrans.
  { apply N.Div0.div_le_mono, u128_le. }
  by apply mul_div_le_l.
Qed.

Lemma remaining_le (o : Order.t) :
  Order.filled_amount o <= Order.sell_amount o ->
  Order.remainingAmount o <= Order.sell_amount o - Order.filled_amount o.
Proof. apply sub64_le. Qed.

(** ** Cryptographic primitives

    Blake2b and Ed25519 are third-party code (Monocypher and the BLAKE2
    reference): parameters of every definition that calls them.  [blake2b]
    returns the 32-byte digest, [verify hash key signature] is Ed25519
    verification.

    [overshift r i] is the low byte of a 32-bit word [r] shifted right by [8 * i]
    bits for [i >= 4], a shift past the width that C++ leaves undefined: whatever
    the compiled code yields. *)
Class Crypto := {
  blake2b : bytes -> Hash;
  ed25519_verify : Hash -> PublicKey -> bytes -> bool;
  overshift : N -> N -> N;
}.

(** The bytes of an ASCII literal. *)
Definition ascii_bytes (s : string) : bytes :=
  map Ascii.N_of_ascii (String.list_ascii_of_string s).
