(* ===== verification/OrderBook.v ===== *)
(** * Order book frame and keys

    src/src/Core/OrderBook.cpp (pair key, side, canonical price, crossing) and
    the book-key and fill-key encoders of src/src/State/StateAccess.cpp.

    Shown: the canonical price brackets the order's rational limit within one
    unit of scale, on the side each direction rounds to; a book key decodes to
    the price and sequence it was made of; and the storage engine's byte order
    on the keys of one side of one pair is price-time priority. *)

From S2P Require Import Prelude Types.

Module OrderBook.
Definition BOOK_PRICE_SCALE : N := 10000000000.
Definition MAX_BOOK_LEVELS_PER_TAKER : nat := 256.

(** [mulFitsU64]: the product if it fits 64 bits. *)
Definition mulFitsU64 (a b : N) : option N :=
  if (a =? 0) || (b =? 0) then Some 0
  else let prod := u128 (a * b) in
       if w64 - 1 <? prod then None else Some (u64 prod).

Definition pairKey `{Crypto} (sell_token buy_token : N) : Hash :=
  let lo := N.min sell_token buy_token in
  let hi := N.max sell_token buy_token in
  blake2b (ascii_bytes "obok" ++ le_split 4 lo ++ le_split 4 hi).

Definition sideOf (o : Order.t) : N :=
  if Order.sell_token o <? Order.buy_token o then 0 else 1.

Definition canonicalPrice (o : Order.t) : option N :=
  if (Order.sell_amount o =? 0) || (Order.min_buy_amount o =? 0) then None
  else
    let sells_base := Order.sell_token o <? Order.buy_token o in
    if sells_base then
      num ← mulFitsU64 (Order.min_buy_amount o) BOOK_PRICE_SCALE;
      Some (num / Order.sell_amount o)
    else
      num ← mulFitsU64 (Order.sell_amount o) BOOK_PRICE_SCALE;
      let den := Order.min_buy_amount o in
      Some (num / den +64 (if negb (num mod den =? 0) then 1 else 0)).

Definition crosses (taker_canonical_limit maker_canonical_price taker_side : N) : bool :=
  if taker_side =? 0 then taker_canonical_limit <=? maker_canonical_price
  else maker_canonical_price <=? taker_canonical_limit.

Definition isBetterPrice (candidate incumbent side : N) : bool :=
  if side =? 0 then incumbent <? candidate else candidate <? incumbent.

(** ** Index keys (State/StateAccess.cpp) *)

(** [encodeBookKey]: pair key, side, price (complemented on side 1) and
    sequence, 49 bytes. *)
Definition encodeBookKey (pair_key : Hash) (side canonical_price sequence : N) : bytes :=
  let key_price := if side =? 0 then canonical_price else not64 canonical_price in
  be_split 32 pair_key ++ [u8 side] ++ be_split 8 key_price ++ be_split 8 sequence.

Definition decodeBookKey (key : bytes) : N * N :=
  let side := nth 32 key 0 in
  let stored := be_combine (take 8 (drop 33 key)) in
  let canonical_price := if side =? 0 then stored else not64 stored in
  (canonical_price, be_combine (take 8 (drop 41 key))).

Definition encodePairFillKey (pair_key : Hash) (height tx_index fill_index : N) : bytes :=
  [1] ++ be_split 32 pair_key ++ be_split 8 height ++ be_split 4 tx_index ++
  be_split 2 fill_index.

Definition encodeOrderFillKey (order_id height tx_index fill_index : N) : bytes :=
  [2] ++ be_split 8 order_id ++ be_split 8 height ++ be_split 4 tx_index ++
  be_split 2 fill_index.

(** The scan prefix of one side of one pair ([forEachBookLevel]). *)
Definition bookPrefix (pair_key : Hash) (side : N) : bytes := be_split 32 pair_key ++ [u8 side].

(** ** Canonical prices *)

Lemma mulFitsU64_exact a b n :
  a < w64 -> b < w64 -> mulFitsU64 a b = Some n -> n = a * b /\ a * b < w64.
Proof.
  intros Ha Hb. unfold mulFitsU64. destruct ((a =? 0) || (b =? 0)) eqn:E.
  - intros [= <-]. apply orb_true_iff in E as [E|E]; apply N.eqb_eq in E; subst; lia.
  - rewrite u128_id by (by apply mul_lt_w128).
    destruct (N.ltb_spec (w64 - 1) (a * b)); [done|]. intros [= <-].
    rewrite u64_id by lia. lia.
Qed.

Lemma ceil_bracket x d :
  d <> 0 -> x < w64 ->
  x <= (x / d +64 (if negb (x mod d =? 0) then 1 else 0)) * d < x + d.
Proof.
  intros Hd Hx. pose proof (N.div_mod x d Hd) as E. pose proof (N.mod_lt x d Hd) as Hr.
  assert (Hq : x / d <= x) by (apply div_le_of_mul; [done|nia]).
  destruct (N.eqb_spec (x mod d) 0) as [E0|E0]; cbn [negb].
  - rewrite add64_id by lia. rewrite N.add_0_r. rewrite E0 in E.
    revert E. generalize (x / d). intros q E. rewrite (N.mul_comm q). lia.
  - assert (1 < d) by (destruct (decide (d = 1)) as [->|]; [by rewrite N.mod_1_r in E0|lia]).
    revert E Hr E0 Hq. generalize (x / d), (x mod d). intros q r E Hr E0 Hq.
    assert (q + 1 < w64) by nia. rewrite add64_id by done. rewrite N.mul_add_distr_r. lia.
Qed.

(** The scaled price of a side-0 order brackets its limit from below, that of a
    side-1 order from above; both within one unit of scale. *)
Definition price_brackets (o : Order.t) (p : N) : Prop :=
  if Order.sell_token o <? Order.buy_token o then
    p * Order.sell_amount o <= Order.min_buy_amount o * BOOK_PRICE_SCALE <
      (p + 1) * Order.sell_amount o
  else
    Order.sell_amount o * BOOK_PRICE_SCALE <= p * Order.min_buy_amount o <
      Order.sell_amount o * BOOK_PRICE_SCALE + Order.min_buy_amount o.

(** Book prices.  The price an order is filed under brackets its limit
    [min_buy / sell]: from below for a seller of the base token, from above for a
    seller of the quote token, within one unit of the 10^10 scale, whenever the
    scaled product fits 64 bits; otherwise the order has no price. *)
Theorem canonicalPrice_brackets (o : Order.t) (p : N) :
  Order.sell_amount o < w64 -> Order.min_buy_amount o < w64 ->
  canonicalPrice o = Some p -> price_brackets o p.
Proof.
  intros Hs Hm. unfold canonicalPrice, price_brackets.
  destruct (N.eqb_spec (Order.sell_amount o) 0); [done|].
  destruct (N.eqb_spec (Order.min_buy_amount o) 0); [done|]. cbn [orb].
  destruct (Order.sell_token o <? Order.buy_token o).
  - destruct (mulFitsU64 _ _) as [num|] eqn:E; cbn; [|done]. intros [= <-].
    apply mulFitsU64_exact in E as [-> _]; [|done|done].
    by apply div_bracket.
  - destruct (mulFitsU64 _ _) as [num|] eqn:E; cbn; [|done]. intros [= <-].
    apply mulFitsU64_exact in E as [-> Hlt]; [|done|done].
    by apply ceil_bracket.
Qed.

Lemma canonicalPrice_brackets_witness :
  let o := Order.mk 1 1 OrderExecutionMode.Passive 0 5 0 2600 650 100 0 0 [] in
  canonicalPrice o = Some 40000000000 /\ price_brackets o 40000000000.
Proof.
  split; [reflexivity|]. apply canonicalPrice_brackets; reflexivity.
Defined.

(** ** Book keys *)

Lemma not64_involutive x : x < w64 -> not64 (not64 x) = x.
Proof.
  intros Hx. unfold not64. rewrite (u64_id x) by done.
  rewrite u64_id by lia. lia.
Qed.

Lemma not64_lt x : not64 x < w64.
Proof. unfold not64. lia. Qed.

Lemma decode_encodeBookKey (pk : Hash) (side price seq : N) :
  side < 2 -> price < w64 -> seq < w64 ->
  decodeBookKey (encodeBookKey pk side price seq) = (price, seq).
Proof.
  intros Hside Hp Hs. unfold decodeBookKey, encodeBookKey.
  assert (Hnth : forall l, nth 32 (be_split 32 pk ++ u8 side :: l) 0 = side).
  { intros l. rewrite app_nth2 by (rewrite length_be_split; lia).
    rewrite length_be_split. cbn. unfold u8. by apply N.mod_small; lia. }
  cbn [app]. rewrite Hnth.
  set (kp := if side =? 0 then price else not64 price).
  assert (Hkp : kp < w64) by (unfold kp; destruct (side =? 0); [done|apply not64_lt]).
  rewrite (drop_app_ge (be_split 32 pk)) by (rewrite length_be_split; lia).
  rewrite (drop_app_ge (be_split 32 pk)) by (rewrite length_be_split; lia).
  rewrite length_be_split. cbn [Nat.sub drop].
  rewrite drop_0, drop_app_length' by (by rewrite length_be_split).
  rewrite take_app_length' by (by rewrite length_be_split).
  rewrite take_ge by (rewrite length_be_split; lia).
  rewrite !be_combine_split. change (w8 ^ N.of_nat 8) with w64.
  rewrite !N.mod_small by done. f_equal. unfold kp.
  destruct (side =? 0); [done|by apply not64_involutive].
Qed.

(** Price-time priority of two resting entries of one side: sellers (side 0)
    lowest price first, buyers (side 1) highest price first, ties by age. *)
Definition has_priority (side : N) (e1 e2 : N * N) : Prop :=
  let '(p1, s1) := e1 in let '(p2, s2) := e2 in
  (if side =? 0 then p1 < p2 else p2 < p1) \/ (p1 = p2 /\ s1 <= s2).

Lemma bookKey_order (pk : Hash) (side p1 s1 p2 s2 : N) :
  p1 < w64 -> s1 < w64 -> p2 < w64 -> s2 < w64 ->
  bytes_le (encodeBookKey pk side p1 s1) (encodeBookKey pk side p2 s2) <->
  has_priority side (p1, s1) (p2, s2).
Proof.
  intros Hp1 Hs1 Hp2 Hs2. unfold bytes_le, encodeBookKey, has_priority.
  rewrite bytes_leb_app by done. rewrite decide_True by done.
  rewrite bytes_leb_app by done. rewrite decide_True by done.
  assert (Hk : forall q, (q = p1 \/ q = p2) -> (if side =? 0 then q else not64 q) < w64).
  { intros q [-> | ->]; destruct (side =? 0); auto using not64_lt. }
  set (k1 := if side =? 0 then p1 else not64 p1). set (k2 := if side =? 0 then p2 else not64 p2).
  pose proof (Hk p1 (or_introl eq_refl)) as Hk1. pose proof (Hk p2 (or_intror eq_refl)) as Hk2.
  fold k1 in Hk1. fold k2 in Hk2.
  rewrite bytes_leb_app by (by rewrite !length_be_split).
  assert (Hiff : k1 < k2 <-> (if side =? 0 then p1 < p2 else p2 < p1)).
  { unfold k1, k2. destruct (side =? 0); [done|]. unfold not64. rewrite !u64_id by done. lia. }
  assert (Heq : k1 = k2 <-> p1 = p2).
  { unfold k1, k2. destruct (side =? 0); [done|]. unfold not64. rewrite !u64_id by done. lia. }
  rewrite <-Hiff, <-Heq.
  case_decide as Hd.
  - apply be_split_inj in Hd; [|done|done]. rewrite be_split_order by done.
    rewrite N.leb_le. lia.
  - rewrite be_split_order by done. rewrite N.leb_le.
    assert (k1 <> k2) by congruence. lia.
Qed.
End OrderBook.
