(* ===== verification/StateAccess.v ===== *)
(** * State store

    src/src/State/StateAccess.cpp over the key layout of src/src/State/Keys.h.

    The store is the sparse Merkle tree's key-value content plus the index
    tables the core reads back.  Keys.h hashes a four-letter domain tag and the
    entity's identifier; a field of [State] below is one domain, keyed by the
    identifier at the width Keys.h encodes it (a token id is cut to 32 bits).
    Two identifiers of one domain, or two domains, meet only if the hash
    collides: the separation into maps is that assumption.

    A record is held decoded.  Codec.v shows that the bytes written decode to
    the record written; the readers below apply the validity test the decoder
    ends with, so a record that would not decode is not found. *)

From S2P Require Import Prelude Types OrderBook.

Record State := mkState {
  version : N;                                   (* version_ *)
  accounts : gmap Address Account.t;             (* "acct" *)
  token_balances : gmap (Address * N) N;         (* "bal " *)
  tokens : gmap N TokenInfo.t;                   (* "tok " *)
  token_supplies : gmap N N;                     (* "tsup" *)
  validators : gmap N ValidatorInfo.t;           (* "val " *)
  validators_by_address : gmap Address N;        (* "vadr" *)
  key_histories : gmap N (list KeyRotation.t);   (* "vkey" *)
  nfts : gmap N NftInfo.t;                       (* "nft " *)
  nft_collections : gmap N NftCollection.t;      (* "ncol" *)
  orders : gmap N Order.t;                       (* "ord " *)
  order_sequences : gmap N N;                    (* "oseq" *)
  order_expiries : gmap N (list N);              (* "oexh" *)
  pools : gmap N AmmPool.t;                      (* "pool" *)
  positions : gmap N AmmPosition.t;              (* "pos " *)
  position_index : gmap (Address * N) N;         (* "pidx" *)
  globals : gmap string bytes;                   (* "glob" *)
  idx_stakers : gset Address;                    (* TBL_INDEX_STAKERS *)
  idx_balances : gmap (Address * N) N;           (* TBL_TOKEN_BALANCES *)
  idx_by_token : gmap (N * Address) N;           (* TBL_INDEX_BALANCES_BY_TOKEN *)
  idx_nfts_by_owner : gset (Address * N);        (* TBL_INDEX_NFTS_BY_OWNER *)
  idx_nfts_by_coll : gset (N * N);               (* TBL_INDEX_NFTS_BY_COLLECTION *)
  idx_book : gmap bytes N;                       (* TBL_INDEX_ORDER_BOOK *)
  idx_fills : gmap bytes Fill.t;                 (* TBL_FILL_HISTORY *)
}.

#[global] Instance eta_State : Eta State := fun x =>
  mkState (version x) (accounts x) (token_balances x) (tokens x) (token_supplies x)
    (validators x) (validators_by_address x) (key_histories x) (nfts x)
    (nft_collections x) (orders x) (order_sequences x) (order_expiries x) (pools x)
    (positions x) (position_index x) (globals x) (idx_stakers x) (idx_balances x)
    (idx_by_token x) (idx_nfts_by_owner x) (idx_nfts_by_coll x) (idx_book x) (idx_fills x).

(** A fresh store at a version. *)
Definition emptyState (v : N) : State :=
  mkState v ∅ ∅ ∅ ∅ ∅ ∅ ∅ ∅ ∅ ∅ ∅ ∅ ∅ ∅ ∅ ∅ ∅ ∅ ∅ ∅ ∅ ∅ ∅.

(** ** Global state entries *)

Definition getGlobal (name : string) (st : State) : option bytes := globals st !! name.

Definition putGlobal (name : string) (value : bytes) (st : State) : State :=
  st <| globals ::= <[name := value]> |>.

Definition getGlobalU64 (name : string) (st : State) : N :=
  match getGlobal name st with
  | Some b => if (length b =? 8)%nat then le_combine b else 0
  | None => 0
  end.

Definition putGlobalU64 (name : string) (value : N) (st : State) : State :=
  putGlobal name (le_split 8 value) st.

(** ** Balance index rows *)

Definition indexTokenBalanceRow (address : Address) (token_id balance : N) (st : State) : State :=
  st <| idx_balances ::= <[(address, u32 token_id) := u64 balance]> |>
     <| idx_by_token ::= <[(u32 token_id, address) := u64 balance]> |>.

Definition unindexTokenBalanceRow (address : Address) (token_id : N) (st : State) : State :=
  st <| idx_balances ::= delete (address, u32 token_id) |>
     <| idx_by_token ::= delete (u32 token_id, address) |>.

(** ** Accounts *)

Definition getAccount (address : Address) (st : State) : Account.t :=
  default Account.empty (accounts st !! address).

Definition accountExists (address : Address) (st : State) : bool :=
  match accounts st !! address with
  | Some a => negb (Account.isEmpty a)
  | None => false
  end.

Definition indexStaker (address : Address) (st : State) : State :=
  st <| idx_stakers ::= union {[address]} |>.

Definition unindexStaker (address : Address) (st : State) : State :=
  st <| idx_stakers ::= fun s => s ∖ {[address]} |>.

(** The record [putAccount] stores: stake recomputed, transition height kept. *)
Definition accountToStore (v : N) (old account : Account.t) : Account.t :=
  let copy := Account.recalculateStaked AUTO_STAKE_THRESHOLD account in
  let was_staker := 0 <? Account.staked old in
  let is_staker := 0 <? Account.staked copy in
  copy <| Account.staker_since_height :=
    if is_staker && negb was_staker then v
    else if negb is_staker && was_staker then 0
    else if is_staker && was_staker then Account.staker_since_height old
    else 0 |>.

Definition indexNativeBalance (address : Address) (old copy : Account.t) (st : State) : State :=
  if Account.balance copy =? Account.balance old then st
  else if Account.balance copy =? 0 then unindexTokenBalanceRow address NATIVE_TOKEN_ID st
  else indexTokenBalanceRow address NATIVE_TOKEN_ID (Account.balance copy) st.

Definition maintainTotalStaked (old copy : Account.t) (st : State) : State :=
  if Account.staked copy =? Account.staked old then st
  else
    let total := getGlobalU64 "total_staked" st in
    let total :=
      if Account.staked old <=? Account.staked copy
      then total +64 (Account.staked copy -64 Account.staked old)
      else total -64 (Account.staked old -64 Account.staked copy) in
    putGlobalU64 "total_staked" total st.

Definition maintainStakerCount (address : Address) (old copy : Account.t) (st : State) : State :=
  let was_staker := 0 <? Account.staked old in
  let is_staker := 0 <? Account.staked copy in
  if is_staker && negb was_staker then
    let st := indexStaker address st in
    putGlobalU64 "staker_count" (getGlobalU64 "staker_count" st +64 1) st
  else if negb is_staker && was_staker then
    let st := unindexStaker address st in
    let count := getGlobalU64 "staker_count" st in
    putGlobalU64 "staker_count" (if 0 <? count then count - 1 else count) st
  else st.

Definition putAccount (address : Address) (account : Account.t) (st : State) : State :=
  let old := getAccount address st in
  let copy := accountToStore (version st) old account in
  maintainStakerCount address old copy
    (maintainTotalStaked old copy
      (indexNativeBalance address old copy
        (st <| accounts ::= <[address := copy]> |>))).

(** ** Token balances, metadata, supply *)

Definition getTokenBalance (address : Address) (token_id : N) (st : State) : N :=
  default 0 (token_balances st !! (address, u32 token_id)).

Definition putTokenBalance (address : Address) (token_id balance : N) (st : State) : State :=
  if balance =? 0 then
    unindexTokenBalanceRow address token_id
      (st <| token_balances ::= delete (address, u32 token_id) |>)
  else
    indexTokenBalanceRow address token_id balance
      (st <| token_balances ::= <[(address, u32 token_id) := u64 balance]> |>).

Definition getToken (token_id : N) (st : State) : option TokenInfo.t :=
  tokens st !! u32 token_id.

(** The record's id field is written as 32 bits. *)
Definition putToken (token : TokenInfo.t) (st : State) : State :=
  st <| tokens ::=
    <[u32 (TokenInfo.id token) := token <| TokenInfo.id := u32 (TokenInfo.id token) |>]> |>.

Definition getTokenSupply (token_id : N) (st : State) : N :=
  default 0 (token_supplies st !! u32 token_id).

Definition putTokenSupply (token_id supply : N) (st : State) : State :=
  if supply =? 0 then st <| token_supplies ::= delete (u32 token_id) |>
  else st <| token_supplies ::= <[u32 token_id := u64 supply]> |>.

(** The branch on the native token that every balance movement of the code
    repeats: test, debit and credit an address's holding of a token. *)
Definition hasTokens (address : Address) (token_id amount : N) (st : State) : bool :=
  if token_id =? NATIVE_TOKEN_ID then amount <=? Account.balance (getAccount address st)
  else amount <=? getTokenBalance address token_id st.

Definition subTokens (address : Address) (token_id amount : N) (st : State) : State :=
  if token_id =? NATIVE_TOKEN_ID then
    let acct := getAccount address st in
    putAccount address (acct <| Account.balance := Account.balance acct -64 amount |>) st
  else
    putTokenBalance address token_id (getTokenBalance address token_id st -64 amount) st.

Definition addTokens (address : Address) (token_id amount : N) (st : State) : State :=
  if token_id =? NATIVE_TOKEN_ID then
    let acct := getAccount address st in
    putAccount address (acct <| Account.balance := Account.balance acct +64 amount |>) st
  else
    putTokenBalance address token_id (getTokenBalance address token_id st +64 amount) st.

(** ** Validators *)

Definition getValidator (validator_id : N) (st : State) : option ValidatorInfo.t :=
  validators st !! validator_id.

Definition putValidator (v : ValidatorInfo.t) (st : State) : State :=
  st <| validators ::= <[ValidatorInfo.id v := v]> |>.

Definition deleteValidator (validator_id : N) (st : State) : State :=
  st <| validators ::= delete validator_id |>.

Definition getValidatorByAddress (address : Address) (st : State) : option N :=
  validators_by_address st !! address.

Definition putValidatorByAddress (address : Address) (validator_id : N) (st : State) : State :=
  st <| validators_by_address ::= <[address := validator_id]> |>.

Definition deleteValidatorByAddress (address : Address) (st : State) : State :=
  st <| validators_by_address ::= delete address |>.

(** [decodeKeyHistory] refuses a list of more than [MAX_KEY_ROTATIONS] entries. *)
Definition getValidatorKeyHistory (validator_id : N) (st : State) : option (list KeyRotation.t) :=
  history ← key_histories st !! validator_id;
  if (MAX_KEY_ROTATIONS <? length history)%nat then None else Some history.

Definition putValidatorKeyHistory (validator_id : N) (history : list KeyRotation.t)
    (st : State) : State :=
  match history with
  | [] => st <| key_histories ::= delete validator_id |>
  | _ => st <| key_histories ::= <[validator_id := history]> |>
  end.

(** The loop of [validatorKeyAtHeight]: the first entry whose range holds
    [height]. *)
Fixpoint keyAtHeight (history : list KeyRotation.t) (height : N) : option PublicKey :=
  match history with
  | [] => None
  | e :: rest =>
    if height <? KeyRotation.valid_from_height e then keyAtHeight rest height
    else if negb (KeyRotation.valid_until_height e =? 0) &&
            (KeyRotation.valid_until_height e <=? height) then keyAtHeight rest height
    else Some (KeyRotation.key e)
  end.

Definition validatorKeyAtHeight (validator_id height : N) (st : State) : option PublicKey :=
  match getValidatorKeyHistory validator_id st with
  | None => ValidatorInfo.effectiveConsensusKey <$> getValidator validator_id st
  | Some history =>
    match history with
    | [e] =>
      if (KeyRotation.valid_until_height e =? 0) && (KeyRotation.valid_from_height e <=? height)
      then Some (KeyRotation.key e)
      else keyAtHeight history height
    | _ => keyAtHeight history height
    end
  end.

(** ** NFTs *)

Definition getNft (nft_id : N) (st : State) : option NftInfo.t :=
  n ← nfts st !! nft_id; if NftInfo.isValid n then Some n else None.

Definition putNft (nft : NftInfo.t) (st : State) : State :=
  let stored := nft <| NftInfo.shadow_token_id := u32 (NftInfo.shadow_token_id nft) |>
                    <| NftInfo.underlying_token_id := u32 (NftInfo.underlying_token_id nft) |> in
  st <| nfts ::= <[NftInfo.id nft := stored]> |>
     <| idx_nfts_by_owner ::= union {[(NftInfo.owner nft, NftInfo.id nft)]} |>
     <| idx_nfts_by_coll ::= fun s =>
          if NftInfo.collection_id nft =? 0 then s
          else {[(NftInfo.collection_id nft, NftInfo.id nft)]} ∪ s |>.

Definition unindexNft (old : NftInfo.t) (st : State) : State :=
  st <| idx_nfts_by_owner ::= fun s =>
          if isNull (NftInfo.owner old) then s
          else s ∖ {[(NftInfo.owner old, NftInfo.id old)]} |>
     <| idx_nfts_by_coll ::= fun s =>
          if NftInfo.collection_id old =? 0 then s
          else s ∖ {[(NftInfo.collection_id old, NftInfo.id old)]} |>.

Definition deleteNft (nft_id : N) (st : State) : State :=
  let nft := getNft nft_id st in
  let st := st <| nfts ::= delete nft_id |> in
  match nft with
  | None => st
  | Some nft =>
    st <| idx_nfts_by_owner ::= fun s =>
            if isNull (NftInfo.owner nft) then s else s ∖ {[(NftInfo.owner nft, nft_id)]} |>
       <| idx_nfts_by_coll ::= fun s =>
            if NftInfo.collection_id nft =? 0 then s
            else s ∖ {[(NftInfo.collection_id nft, nft_id)]} |>
  end.

Definition getNftCollection (collection_id : N) (st : State) : option NftCollection.t :=
  c ← nft_collections st !! collection_id; if NftCollection.isValid c then Some c else None.

Definition putNftCollection (c : NftCollection.t) (st : State) : State :=
  st <| nft_collections ::= <[NftCollection.id c := c]> |>.

(** Identifiers in the order of their little-endian key bytes, which is the
    order a table scan visits them in. *)
Definition le_key_order (a b : N) : Prop := bytes_le (le_split 8 a) (le_split 8 b).

#[export] Instance le_key_order_dec : RelDecision le_key_order.
Proof. intros a b. unfold le_key_order. apply _. Defined.

Definition scan_ids (ids : list N) : list N := merge_sort le_key_order ids.

(** The NFTs [forEachNftForOwner] visits. *)
Definition nftsForOwner (owner : Address) (st : State) : list NftInfo.t :=
  omap (fun nft_id => getNft nft_id st)
    (scan_ids (omap (fun '(o, i) => if o =? owner then Some i else None)
      (elements (idx_nfts_by_owner st)))).

(** ** Orders *)

Definition getOrder (order_id : N) (st : State) : option Order.t :=
  o ← orders st !! order_id; if Order.isValid o then Some o else None.

Definition putOrder (o : Order.t) (st : State) : State :=
  st <| orders ::= <[Order.id o := o]> |>.

Definition deleteOrder (order_id : N) (st : State) : State :=
  st <| orders ::= delete order_id |>.

(** The orders [forEachOrder] visits. *)
Definition allOrders (st : State) : list Order.t :=
  omap (fun order_id => getOrder order_id st) (scan_ids (elements (dom (orders st)))).

(** The validators [forEachValidator] visits. *)
Definition allValidators (st : State) : list ValidatorInfo.t :=
  omap (fun i => getValidator i st) (scan_ids (elements (dom (validators st)))).

(** ** AMM pools and positions *)

Definition getAmmPool (pool_id : N) (st : State) : option AmmPool.t :=
  p ← pools st !! pool_id; if AmmPool.isValid p then Some p else None.

Definition putAmmPool (p : AmmPool.t) (st : State) : State :=
  st <| pools ::= <[AmmPool.id p := p]> |>.

Definition deleteAmmPool (pool_id : N) (st : State) : State :=
  st <| pools ::= delete pool_id |>.

Definition getAmmPosition (pos_id : N) (st : State) : option AmmPosition.t :=
  p ← positions st !! pos_id; if AmmPosition.isValid p then Some p else None.

Definition putAmmPosition (p : AmmPosition.t) (st : State) : State :=
  st <| positions ::= <[AmmPosition.id p := p]> |>.

Definition getPositionIndex (owner : Address) (pool_id : N) (st : State) : option N :=
  position_index st !! (owner, pool_id).

Definition putPositionIndex (owner : Address) (pool_id position_id : N) (st : State) : State :=
  st <| position_index ::= <[(owner, pool_id) := position_id]> |>.

Definition deletePositionIndex (owner : Address) (pool_id : N) (st : State) : State :=
  st <| position_index ::= delete (owner, pool_id) |>.

(** ** Order expiry index *)

Definition getOrdersExpiringAt (height : N) (st : State) : list N :=
  default [] (order_expiries st !! height).

Definition addOrderExpiry (height order_id : N) (st : State) : State :=
  let ids := getOrdersExpiringAt height st in
  if bool_decide (order_id ∈ ids) then st
  else st <| order_expiries ::= <[height := ids ++ [order_id]]> |>.

(** [ids.erase(std::find(...))]: the first occurrence. *)
Fixpoint erase_first (x : N) (l : list N) : list N :=
  match l with
  | [] => []
  | y :: l => if y =? x then l else y :: erase_first x l
  end.

Definition removeOrderExpiry (height order_id : N) (st : State) : State :=
  let ids := getOrdersExpiringAt height st in
  if bool_decide (order_id ∈ ids) then
    match erase_first order_id ids with
    | [] => st <| order_expiries ::= delete height |>
    | ids => st <| order_expiries ::= <[height := ids]> |>
    end
  else st.

Definition clearOrderExpiry (height : N) (st : State) : State :=
  st <| order_expiries ::= delete height |>.

(** ** Order book rows *)

Definition row_le (a b : bytes * N) : Prop := bytes_le a.1 b.1.

#[export] Instance row_le_dec : RelDecision row_le.
Proof. intros a b. unfold row_le. apply _. Defined.

#[export] Instance row_le_total : Total row_le.
Proof. intros a b. apply bytes_le_total. Qed.

#[export] Instance row_le_trans : Transitive row_le.
Proof. intros a b c. apply bytes_le_trans. Qed.

Section book.
Context `{Crypto}.

Definition addToOrderBook (o : Order.t) (sequence : N) (st : State) : State :=
  if Order.id o =? INVALID_ID then st
  else if Order.isFullyFilled o then st
  else
    let pair_key := OrderBook.pairKey (Order.sell_token o) (Order.buy_token o) in
    let side := OrderBook.sideOf o in
    match OrderBook.canonicalPrice o with
    | None => st
    | Some canonical_price =>
      let key := OrderBook.encodeBookKey pair_key side canonical_price sequence in
      st <| idx_book ::= <[key := Order.id o]> |>
         <| order_sequences ::= <[Order.id o := sequence]> |>
    end.

Definition removeFromOrderBook (o : Order.t) (st : State) : State :=
  if Order.id o =? INVALID_ID then st
  else match order_sequences st !! Order.id o with
  | None => st
  | Some sequence =>
    let pair_key := OrderBook.pairKey (Order.sell_token o) (Order.buy_token o) in
    let side := OrderBook.sideOf o in
    match OrderBook.canonicalPrice o with
    | None => st
    | Some canonical_price =>
      let key := OrderBook.encodeBookKey pair_key side canonical_price sequence in
      st <| idx_book ::= delete key |>
         <| order_sequences ::= delete (Order.id o) |>
    end
  end.

(** A prefix scan of the book table, in the engine's key order. *)
Definition bookRows (prefix : bytes) (st : State) : list (bytes * N) :=
  merge_sort row_le
    (filter (fun r : bytes * N => take (length prefix) r.1 = prefix)
      (map_to_list (idx_book st))).

(** The (order id, price, sequence) triples [forEachBookLevel] visits. *)
Definition bookLevels (sell_token buy_token side : N) (st : State) : list (N * N * N) :=
  omap (fun '(key, order_id) =>
          if (length key =? 49)%nat then
            let '(price, seq) := OrderBook.decodeBookKey key in Some (order_id, price, seq)
          else None)
    (bookRows (OrderBook.bookPrefix (OrderBook.pairKey sell_token buy_token) side) st).

Definition nextOrderSequence (st : State) : N * State :=
  let n := getGlobalU64 "order:next_sequence" st +64 1 in
  (n, putGlobalU64 "order:next_sequence" n st).

Definition refundOrder (o : Order.t) (charge_fee : bool) (st : State) : State :=
  if Order.id o =? INVALID_ID then st
  else if isNull (Order.owner o) then st
  else
    let remaining := Order.remainingAmount o in
    if remaining =? 0 then st
    else
      let refund :=
        if charge_fee then
          if ORDER_CANCEL_FEE_ATOMIC <? remaining then remaining - ORDER_CANCEL_FEE_ATOMIC else 0
        else remaining in
      let st := addTokens (Order.owner o) (Order.sell_token o) refund st in
      let st :=
        if Order.order_expires_at_height o =? 0 then st
        else removeOrderExpiry (Order.order_expires_at_height o) (Order.id o) st in
      deleteOrder (Order.id o) (removeFromOrderBook o st).

Definition deleteRestingOrder (o : Order.t) (st : State) : State :=
  if Order.id o =? INVALID_ID then st
  else
    let st := removeFromOrderBook o st in
    let st :=
      if Order.order_expires_at_height o =? 0 then st
      else removeOrderExpiry (Order.order_expires_at_height o) (Order.id o) st in
    deleteOrder (Order.id o) st.

Definition indexFill (f : Fill.t) (height tx_index_in_block fill_index : N) (st : State) : State :=
  let pair_key := OrderBook.pairKey (Fill.base_token f) (Fill.quote_token f) in
  st <| idx_fills ::= fun m =>
    <[OrderBook.encodeOrderFillKey (Fill.taker_order_id f) height tx_index_in_block fill_index := f]>
    (<[OrderBook.encodeOrderFillKey (Fill.maker_order_id f) height tx_index_in_block fill_index := f]>
    (<[OrderBook.encodePairFillKey pair_key height tx_index_in_block fill_index := f]> m)) |>.
End book.

(** The custody address of an NFT and the escrow address of a collection
    (State/Keys.h). *)
Definition nftAddress `{Crypto} (nft_id : N) : Address :=
  blake2b (ascii_bytes "nfa " ++ le_split 8 nft_id).

Definition nftCollectionAddress `{Crypto} (collection_id : N) : Address :=
  blake2b (ascii_bytes "nca " ++ le_split 8 collection_id).
