(* ===== verification/Ledger.v ===== *)
(** * The ledger

    The total of a token the store holds: spendable balances and pending
    rewards, pool reserves, and the sell-token locks of resting orders.  Every
    primitive write of StateAccess.v changes it by a stated amount, so the
    effect of a handler is a linear fact.

    [WellTyped] is the store's well-formedness. *)

From S2P Require Import Prelude Types OrderBook StateAccess.

Definition at_token (t k x : N) : N := if k =? t then x else 0.

Definition worth (a : Account.t) : N := Account.balance a + Account.pending_rewards a.

Definition pool_worth (t : N) (p : AmmPool.t) : N :=
  at_token t (AmmPool.token_a p) (AmmPool.reserve_a p) +
  at_token t (AmmPool.token_b p) (AmmPool.reserve_b p).

(** The part of an order's lock not yet paid out. *)
Definition order_worth (t : N) (o : Order.t) : N :=
  at_token t (Order.sell_token o) (Order.sell_amount o - Order.filled_amount o).

Definition account_value (t : N) (st : State) : N :=
  at_token t NATIVE_TOKEN_ID (msum (fun _ a => worth a) (accounts st)).
Definition token_value (t : N) (st : State) : N :=
  msum (fun k b => at_token t (snd k) b) (token_balances st).
Definition pool_value (t : N) (st : State) : N := msum (fun _ p => pool_worth t p) (pools st).
Definition order_value (t : N) (st : State) : N := msum (fun _ o => order_worth t o) (orders st).

Definition value (t : N) (st : State) : N :=
  account_value t st + token_value t st + pool_value t st + order_value t st.

(** A record sits under its own id and its fields fit their C++ types. *)
Record pool_wf (i : N) (p : AmmPool.t) : Prop := {
  pool_wf_id : AmmPool.id p = i;
  pool_wf_a : AmmPool.token_a p < w32;
  pool_wf_b : AmmPool.token_b p < w32;
  pool_wf_ra : AmmPool.reserve_a p < w64;
  pool_wf_rb : AmmPool.reserve_b p < w64;
}.

Record order_wf (i : N) (o : Order.t) : Prop := {
  order_wf_id : Order.id o = i;
  order_wf_sell : Order.sell_token o < w32;
  order_wf_buy : Order.buy_token o < w32;
  order_wf_amount : Order.sell_amount o < w64;
}.

Record WellTyped (st : State) : Prop := {
  wt_pools : forall i p, pools st !! i = Some p -> pool_wf i p;
  wt_orders : forall i o, orders st !! i = Some o -> order_wf i o;
  wt_positions : forall i p, positions st !! i = Some p -> AmmPosition.id p = i;
}.

Lemma at_token_add t k x y : at_token t k (x + y) = at_token t k x + at_token t k y.
Proof. unfold at_token. destruct (k =? t); lia. Qed.

Lemma at_token_le t k x y : x <= y -> at_token t k x <= at_token t k y.
Proof. unfold at_token. destruct (k =? t); lia. Qed.

Lemma at_token_same t x : at_token t t x = x.
Proof. unfold at_token. by rewrite N.eqb_refl. Qed.

(** Only four tables carry value. *)
Lemma value_frame t st st' :
  accounts st' = accounts st -> token_balances st' = token_balances st ->
  pools st' = pools st -> orders st' = orders st -> value t st' = value t st.
Proof.
  intros Ha Hb Hp Ho.
  unfold value, account_value, token_value, pool_value, order_value. by rewrite Ha, Hb, Hp, Ho.
Qed.

(** ** Accounts *)

(** The bookkeeping tables [putAccount] maintains beside the record. *)
Lemma putAccount_tables a acct st :
  accounts (putAccount a acct st) =
    <[a := accountToStore (version st) (getAccount a st) acct]> (accounts st) /\
  token_balances (putAccount a acct st) = token_balances st /\
  pools (putAccount a acct st) = pools st /\ orders (putAccount a acct st) = orders st /\
  positions (putAccount a acct st) = positions st /\ version (putAccount a acct st) = version st.
Proof.
  unfold putAccount, maintainStakerCount, maintainTotalStaked, indexNativeBalance.
  repeat case_match; done.
Qed.

Lemma worth_accountToStore v old acct : worth (accountToStore v old acct) = worth acct.
Proof. unfold accountToStore, Account.recalculateStaked, worth. by repeat case_match. Qed.

Lemma worth_getAccount a st :
  worth (getAccount a st) = from_option worth 0 (accounts st !! a).
Proof. unfold getAccount. by destruct (accounts st !! a). Qed.

Lemma value_putAccount t a acct st :
  value t (putAccount a acct st) + at_token t 0 (worth (getAccount a st)) =
  value t st + at_token t 0 (worth acct).
Proof.
  destruct (putAccount_tables a acct st) as (Ha & Hb & Hp & Ho & _).
  unfold value, account_value, token_value, pool_value, order_value. rewrite Ha, Hb, Hp, Ho.
  pose proof (msum_insert (fun _ x => worth x) (accounts st) a
    (accountToStore (version st) (getAccount a st) acct)) as Hm.
  rewrite worth_accountToStore, <-worth_getAccount in Hm.
  change NATIVE_TOKEN_ID with 0. unfold at_token. destruct (0 =? t); lia.
Qed.

Lemma getAccount_putAccount a b acct st :
  getAccount a (putAccount b acct st) =
  if a =? b then accountToStore (version st) (getAccount b st) acct else getAccount a st.
Proof.
  unfold getAccount at 1. destruct (putAccount_tables b acct st) as [-> _].
  destruct (N.eqb_spec a b) as [->|Hne].
  - by rewrite lookup_insert_eq.
  - by rewrite lookup_insert_ne.
Qed.

Lemma worth_le_value a st : worth (getAccount a st) <= value 0 st.
Proof.
  pose proof (msum_lookup_default (fun _ x => worth x) (accounts st) a) as Hm.
  rewrite <-worth_getAccount in Hm. unfold value, account_value. rewrite at_token_same. lia.
Qed.

(** ** Token balances *)

Lemma value_putTokenBalance t a k b st :
  value t (putTokenBalance a k b st) + at_token t (u32 k) (getTokenBalance a k st) =
  value t st + at_token t (u32 k) (u64 b).
Proof.
  unfold getTokenBalance.
  assert (Hd : at_token t (u32 k) (default 0 (token_balances st !! (a, u32 k))) =
    from_option (fun x => at_token t (u32 k) x) 0 (token_balances st !! (a, u32 k))).
  { destruct (token_balances st !! (a, u32 k)); [done|]. unfold at_token. by case_match. }
  rewrite Hd. clear Hd.
  set (f := fun (key : Address * N) (x : N) => at_token t (snd key) x).
  unfold putTokenBalance. destruct (N.eqb_spec b 0) as [->|_].
  - pose proof (msum_delete f (token_balances st) (a, u32 k)) as Hm.
    unfold value, account_value, token_value, pool_value, order_value; cbn.
    assert (H0 : at_token t (u32 k) (u64 0) = 0) by (unfold at_token; by case_match).
    unfold f in *. cbn in Hm. lia.
  - pose proof (msum_insert f (token_balances st) (a, u32 k) (u64 b)) as Hm.
    unfold value, account_value, token_value, pool_value, order_value; cbn.
    unfold f in *. cbn in Hm. lia.
Qed.

Lemma getTokenBalance_le_value a k st : getTokenBalance a k st <= value (u32 k) st.
Proof.
  unfold getTokenBalance, value, token_value.
  pose proof (msum_lookup_default (fun key b => at_token (u32 k) (snd key) b)
    (token_balances st) (a, u32 k)) as Hm.
  destruct (token_balances st !! (a, u32 k)); cbn in *; [|lia].
  rewrite at_token_same in Hm. lia.
Qed.

(** ** Holdings: the native / custom branch *)

Lemma value_subTokens t a k x st :
  hasTokens a k x st = true ->
  value t (subTokens a k x st) + at_token t (u32 k) x <= value t st.
Proof.
  unfold hasTokens, subTokens. destruct (N.eqb_spec k NATIVE_TOKEN_ID) as [->|Hk];
    intros Hx%N.leb_le.
  - set (acct := getAccount a st) in *.
    set (acct' := acct <| Account.balance := Account.balance acct -64 x |>).
    pose proof (value_putAccount t a acct' st) as Hv. fold acct in Hv.
    pose proof (sub64_le _ _ Hx). change (u32 NATIVE_TOKEN_ID) with 0.
    assert (Hw : worth acct' + x <= worth acct) by (unfold worth; cbn; lia).
    apply (at_token_le t 0) in Hw. rewrite at_token_add in Hw. lia.
  - pose proof (value_putTokenBalance t a k (getTokenBalance a k st -64 x) st) as Hv.
    pose proof (sub64_le _ _ Hx). pose proof (u64_le (getTokenBalance a k st -64 x)).
    assert (Hw : u64 (getTokenBalance a k st -64 x) + x <= getTokenBalance a k st) by lia.
    apply (at_token_le t (u32 k)) in Hw. rewrite at_token_add in Hw. lia.
Qed.

Lemma value_addTokens t a k x st :
  value t (addTokens a k x st) <= value t st + at_token t (u32 k) x.
Proof.
  unfold addTokens. destruct (N.eqb_spec k NATIVE_TOKEN_ID) as [->|Hk].
  - set (acct := getAccount a st).
    set (acct' := acct <| Account.balance := Account.balance acct +64 x |>).
    pose proof (value_putAccount t a acct' st) as Hv. fold acct in Hv.
    pose proof (add64_le (Account.balance acct) x). change (u32 NATIVE_TOKEN_ID) with 0.
    assert (Hw : worth acct' <= worth acct + x) by (unfold worth; cbn; lia).
    apply (at_token_le t 0) in Hw. rewrite at_token_add in Hw. lia.
  - pose proof (value_putTokenBalance t a k (getTokenBalance a k st +64 x) st) as Hv.
    pose proof (add64_le (getTokenBalance a k st) x).
    pose proof (u64_le (getTokenBalance a k st +64 x)).
    assert (Hw : u64 (getTokenBalance a k st +64 x) <= getTokenBalance a k st + x) by lia.
    apply (at_token_le t (u32 k)) in Hw. rewrite at_token_add in Hw. lia.
Qed.

(** Crediting loses nothing while the token's total fits 64 bits. *)
Lemma value_addTokens_exact t a k x st :
  value (u32 k) st + x < w64 ->
  value t (addTokens a k x st) = value t st + at_token t (u32 k) x.
Proof.
  intros Hfit. unfold addTokens. destruct (N.eqb_spec k NATIVE_TOKEN_ID) as [->|Hk].
  - change (u32 NATIVE_TOKEN_ID) with 0 in *. set (acct := getAccount a st).
    set (acct' := acct <| Account.balance := Account.balance acct +64 x |>).
    pose proof (value_putAccount t a acct' st) as Hv. fold acct in Hv.
    pose proof (worth_le_value a st) as Hle. fold acct in Hle. unfold worth in Hle.
    assert (Hw : worth acct' = worth acct + x).
    { unfold worth; cbn. rewrite add64_id by lia. lia. }
    rewrite Hw, at_token_add in Hv. lia.
  - pose proof (value_putTokenBalance t a k (getTokenBalance a k st +64 x) st) as Hv.
    pose proof (getTokenBalance_le_value a k st).
    rewrite add64_id, u64_id, at_token_add in Hv by lia. rewrite add64_id by lia. lia.
Qed.

Lemma value_subTokens_exact t a k x st :
  hasTokens a k x st = true -> value (u32 k) st < w64 ->
  value t (subTokens a k x st) + at_token t (u32 k) x = value t st.
Proof.
  unfold hasTokens, subTokens. destruct (N.eqb_spec k NATIVE_TOKEN_ID) as [->|Hk];
    intros Hx%N.leb_le Hfit.
  - change (u32 NATIVE_TOKEN_ID) with 0 in *. set (acct := getAccount a st) in *.
    set (acct' := acct <| Account.balance := Account.balance acct -64 x |>).
    pose proof (value_putAccount t a acct' st) as Hv. fold acct in Hv.
    pose proof (worth_le_value a st) as Hle. fold acct in Hle. unfold worth in Hle.
    assert (Hw : worth acct' + x = worth acct).
    { unfold worth; cbn. rewrite sub64_id by lia. lia. }
    rewrite <-Hw, at_token_add in Hv. lia.
  - pose proof (value_putTokenBalance t a k (getTokenBalance a k st -64 x) st) as Hv.
    pose proof (getTokenBalance_le_value a k st).
    rewrite sub64_id, u64_id in Hv by lia. rewrite sub64_id by lia.
    replace (getTokenBalance a k st) with (getTokenBalance a k st - x + x) in Hv at 2 by lia.
    rewrite at_token_add in Hv. lia.
Qed.

(** ** Pools and orders *)

Lemma value_putAmmPool t p st :
  value t (putAmmPool p st) + from_option (fun x => pool_worth t x) 0 (pools st !! AmmPool.id p) =
  value t st + pool_worth t p.
Proof.
  pose proof (msum_insert (fun _ x => pool_worth t x) (pools st) (AmmPool.id p) p) as Hm.
  unfold value, pool_value, account_value, token_value, order_value; cbn in *. lia.
Qed.

Lemma value_deleteAmmPool t i st :
  value t (deleteAmmPool i st) + from_option (fun x => pool_worth t x) 0 (pools st !! i) = value t st.
Proof.
  pose proof (msum_delete (fun _ x => pool_worth t x) (pools st) i) as Hm.
  unfold value, pool_value, account_value, token_value, order_value; cbn in *. lia.
Qed.

Lemma value_putOrder t o st :
  value t (putOrder o st) + from_option (fun x => order_worth t x) 0 (orders st !! Order.id o) =
  value t st + order_worth t o.
Proof.
  pose proof (msum_insert (fun _ x => order_worth t x) (orders st) (Order.id o) o) as Hm.
  unfold value, pool_value, account_value, token_value, order_value; cbn in *. lia.
Qed.

Lemma value_deleteOrder t i st :
  value t (deleteOrder i st) + from_option (fun x => order_worth t x) 0 (orders st !! i) = value t st.
Proof.
  pose proof (msum_delete (fun _ x => order_worth t x) (orders st) i) as Hm.
  unfold value, pool_value, account_value, token_value, order_value; cbn in *. lia.
Qed.

(** ** Reads through the store *)

Lemma getOrder_lookup i st o : getOrder i st = Some o -> orders st !! i = Some o.
Proof.
  unfold getOrder. destruct (orders st !! i) as [x|]; cbn; [|done].
  destruct (Order.isValid x); [|done]. by intros [= ->].
Qed.

Lemma getOrder_valid i st o : getOrder i st = Some o -> Order.isValid o = true.
Proof.
  unfold getOrder. destruct (orders st !! i) as [x|]; cbn; [|done].
  destruct (Order.isValid x) eqn:E; [|done]. by intros [= <-].
Qed.

Lemma getAmmPool_lookup i st p : getAmmPool i st = Some p -> pools st !! i = Some p.
Proof.
  unfold getAmmPool. destruct (pools st !! i) as [x|]; cbn; [|done].
  destruct (AmmPool.isValid x); [|done]. by intros [= ->].
Qed.

Lemma getAmmPool_valid i st p : getAmmPool i st = Some p -> AmmPool.isValid p = true.
Proof.
  unfold getAmmPool. destruct (pools st !! i) as [x|]; cbn; [|done].
  destruct (AmmPool.isValid x) eqn:E; [|done]. by intros [= <-].
Qed.

Lemma getAmmPosition_lookup i st p : getAmmPosition i st = Some p -> positions st !! i = Some p.
Proof.
  unfold getAmmPosition. destruct (positions st !! i) as [x|]; cbn; [|done].
  destruct (AmmPosition.isValid x); [|done]. by intros [= ->].
Qed.

Lemma isValid_filled o :
  Order.isValid o = true ->
  Order.filled_amount o <= Order.sell_amount o /\ Order.sell_token o <> Order.buy_token o /\
  Order.id o <> 0 /\ Order.owner o <> 0.
Proof.
  unfold Order.isValid, isNull, INVALID_ID.
  rewrite !andb_true_iff, !negb_true_iff, N.ltb_ge, !N.eqb_neq. tauto.
Qed.

Lemma pool_valid_tokens p : AmmPool.isValid p = true -> AmmPool.token_a p < AmmPool.token_b p.
Proof.
  unfold AmmPool.isValid. destruct (AmmPool.id p =? INVALID_ID); [done|].
  destruct (N.eqb_spec (AmmPool.token_a p) (AmmPool.token_b p)); [done|].
  destruct (N.ltb_spec (AmmPool.token_b p) (AmmPool.token_a p)); [done|]. lia.
Qed.

Lemma remaining_exact o :
  Order.filled_amount o <= Order.sell_amount o -> Order.sell_amount o < w64 ->
  Order.remainingAmount o = Order.sell_amount o - Order.filled_amount o.
Proof. intros. by apply sub64_id. Qed.

Lemma remaining_le_worth o :
  Order.isValid o = true ->
  Order.remainingAmount o <= order_worth (Order.sell_token o) o.
Proof.
  intros [Hf _]%isValid_filled. unfold order_worth. rewrite at_token_same.
  by apply remaining_le.
Qed.

(** ** Independence of holdings of different tokens *)

Lemma getAccount_putTokenBalance a b k x st :
  getAccount a (putTokenBalance b k x st) = getAccount a st.
Proof. unfold putTokenBalance. by case_match. Qed.

Lemma getTokenBalance_putAccount a k b acct st :
  getTokenBalance a k (putAccount b acct st) = getTokenBalance a k st.
Proof. unfold getTokenBalance. by destruct (putAccount_tables b acct st) as (_ & -> & _). Qed.

Lemma getTokenBalance_put a k b k' x st :
  getTokenBalance a k (putTokenBalance b k' x st) =
  if bool_decide ((a, u32 k) = (b, u32 k')) then u64 x else getTokenBalance a k st.
Proof.
  unfold getTokenBalance, putTokenBalance. case_bool_decide as Hd.
  - rewrite Hd. destruct (N.eqb_spec x 0) as [->|]; cbn.
    + by rewrite lookup_delete_eq.
    + by rewrite lookup_insert_eq.
  - destruct (N.eqb_spec x 0) as [->|]; cbn.
    + by rewrite lookup_delete_ne.
    + by rewrite lookup_insert_ne.
Qed.

Lemma hasTokens_subTokens a k x k' x' st :
  u32 k <> u32 k' -> hasTokens a k' x' (subTokens a k x st) = hasTokens a k' x' st.
Proof.
  intros Hk. unfold hasTokens, subTokens.
  destruct (N.eqb_spec k NATIVE_TOKEN_ID) as [->|], (N.eqb_spec k' NATIVE_TOKEN_ID) as [->|];
    [done| | |].
  - by rewrite getTokenBalance_putAccount.
  - by rewrite getAccount_putTokenBalance.
  - rewrite getTokenBalance_put, bool_decide_eq_false_2; [done|]. intros [=]. congruence.
Qed.
