(* ===== verification/Amm.v ===== *)
(** * AMM arithmetic

    The integer square root and the swap formula of
    src/src/Core/TransactionExecutor.cpp, and src/src/Core/ActiveRouter.cpp.

    Shown: [isqrt128] is the floor of the square root on the whole 128-bit
    range; a swap pays out less than the reserve and never lowers the product
    of the reserves; [maxInputWithinLimit] is within one atomic unit of the
    exact maximum in both directions. *)

From S2P Require Import Prelude Types OrderBook.

(** ** Integer square root *)

(** The binary search [while (hi - lo > 1)]; 64 halvings of [2^64] end it. *)
Fixpoint isqrt_loop (fuel : nat) (n lo hi : N) : N :=
  match fuel with
  | O => lo
  | S fuel =>
    if 1 <? hi - lo then
      let mid := lo + (hi - lo) / 2 in
      if u128 (mid * mid) <=? n then isqrt_loop fuel n mid hi else isqrt_loop fuel n lo mid
    else lo
  end.

Definition isqrt128 (n : N) : N :=
  if n =? 0 then 0 else u64 (isqrt_loop 64 n 0 w64).

(** ** Swap formula of [executeSwap]

    The pool's fee is at most [AMM_MAX_FEE_BPS] for every pool the decoder
    accepts, so [10'000 - fee_bps] does not go below zero. *)
Definition amountInWithFee (fee_bps amount_in : N) : N :=
  u64 (u128 (amount_in * (10000 - fee_bps)) / 10000).

Definition swapNumerator (fee_bps reserve_out amount_in : N) : N :=
  u128 (reserve_out * amountInWithFee fee_bps amount_in).

Definition swapDenominator (fee_bps reserve_in amount_in : N) : N :=
  reserve_in +64 amountInWithFee fee_bps amount_in.

(** [clrty_volume]: the native-denominated size of a trade at the pool's
    price before it. *)
Definition clrtyVolume (p : AmmPool.t) (token_in amount_in : N) : N :=
  if token_in =? NATIVE_TOKEN_ID then amount_in
  else if (AmmPool.token_a p =? NATIVE_TOKEN_ID) && (0 <? AmmPool.reserve_b p) then
    u64 (u128 (amount_in * AmmPool.reserve_a p) / AmmPool.reserve_b p)
  else if (AmmPool.token_b p =? NATIVE_TOKEN_ID) && (0 <? AmmPool.reserve_a p) then
    u64 (u128 (amount_in * AmmPool.reserve_b p) / AmmPool.reserve_a p)
  else 0.

(** The tumbling volume window. *)
Definition recordVolume (height clrty_volume : N) (p : AmmPool.t) : AmmPool.t :=
  if AmmPool.volume_window_height p =? 0 then
    p <| AmmPool.volume_window_height := height |>
      <| AmmPool.volume_current := clrty_volume |>
      <| AmmPool.volume_last := 0 |>
  else if AmmPool.volume_window_height p +64 ROTATION_INTERVAL <=? height then
    p <| AmmPool.volume_last := AmmPool.volume_current p |>
      <| AmmPool.volume_current := clrty_volume |>
      <| AmmPool.volume_window_height := height |>
  else p <| AmmPool.volume_current := AmmPool.volume_current p +64 clrty_volume |>.

(** The reserve update of a trade that sells [token_in]. *)
Definition tradeReserves (token_in amount_in amount_out : N) (p : AmmPool.t) : AmmPool.t :=
  if token_in =? AmmPool.token_a p then
    p <| AmmPool.reserve_a := AmmPool.reserve_a p +64 amount_in |>
      <| AmmPool.reserve_b := AmmPool.reserve_b p -64 amount_out |>
  else
    p <| AmmPool.reserve_b := AmmPool.reserve_b p +64 amount_in |>
      <| AmmPool.reserve_a := AmmPool.reserve_a p -64 amount_out |>.

(** ** ActiveRouter *)
Module ActiveRouter.
Definition maxInputWithinLimit
    (reserve_in reserve_out fee_bps limit_price_scaled : N) : option N :=
  if (reserve_in =? 0) || (reserve_out =? 0) then None
  else if 10000 <=? fee_bps then None
  else if limit_price_scaled =? 0 then None
  else
    let spot_num := u128 (reserve_out * OrderBook.BOOK_PRICE_SCALE) in
    let limit_den := u128 (limit_price_scaled * reserve_in) in
    if spot_num <=? limit_den then None
    else
      let b_scaled := u128 (reserve_out * OrderBook.BOOK_PRICE_SCALE) / limit_price_scaled in
      let a_adj := u128 (reserve_in * 10000) / (10000 - fee_bps) in
      if b_scaled <=? a_adj then None
      else
        let y_full := b_scaled - a_adj in
        if y_full =? 0 then None
        else if w64 - 1 <? y_full then None
        else Some (u64 y_full).

Definition computeOutput (reserve_in reserve_out fee_bps amount_in : N) : N :=
  if (reserve_in =? 0) || (reserve_out =? 0) || (amount_in =? 0) then 0
  else
    let amount_in_with_fee := u128 (amount_in * (10000 - fee_bps)) / 10000 in
    let numerator := u128 (reserve_out * amount_in_with_fee) in
    let denominator := u128 (reserve_in + amount_in_with_fee) in
    if denominator =? 0 then 0 else u64 (numerator / denominator).

Definition computeEffectivePrice (reserve_in reserve_out fee_bps amount_in : N) : N :=
  if amount_in =? 0 then 0
  else
    let out := computeOutput reserve_in reserve_out fee_bps amount_in in
    if out =? 0 then 0
    else
      let price := u128 (out * OrderBook.BOOK_PRICE_SCALE) in
      let q := price / amount_in in
      if w64 - 1 <? q then 0 else u64 q.
End ActiveRouter.

(** ** Square root: the search keeps [lo^2 <= n < hi^2] and halves the gap *)

Lemma isqrt_loop_spec fuel n lo hi :
  n < w128 -> lo * lo <= n -> n < hi * hi -> hi <= w64 ->
  lo < hi -> hi - lo <= 2 ^ N.of_nat fuel ->
  let r := isqrt_loop fuel n lo hi in r * r <= n < (r + 1) * (r + 1).
Proof.
  revert lo hi. induction fuel as [|fuel IH]; intros lo hi Hn Hlo Hhi Hw Hlt Hgap.
  { cbn in Hgap. cbn. assert (hi = lo + 1) as -> by lia. done. }
  cbn [isqrt_loop]. rewrite Nat2N.inj_succ, N.pow_succ_r' in Hgap.
  destruct (N.ltb_spec 1 (hi - lo)) as [Hg|Hg].
  2: { assert (hi = lo + 1) as -> by lia. done. }
  assert (Hd : (hi - lo) / 2 * 2 <= hi - lo < ((hi - lo) / 2 + 1) * 2)
    by (apply div_bracket; lia).
  revert Hd. generalize ((hi - lo) / 2). intros d Hd. cbn zeta.
  rewrite u128_id by (apply mul_lt_w128; lia).
  destruct (N.leb_spec ((lo + d) * (lo + d)) n).
  - apply IH; try done; lia.
  - apply IH; try done; lia.
Qed.

Lemma isqrt_loop_lt fuel n lo hi : lo < hi -> isqrt_loop fuel n lo hi < hi.
Proof.
  revert lo hi. induction fuel as [|fuel IH]; intros lo hi Hlt; [done|].
  cbn [isqrt_loop]. destruct (N.ltb_spec 1 (hi - lo)); [|done].
  assert (Hd : (hi - lo) / 2 * 2 <= hi - lo < ((hi - lo) / 2 + 1) * 2)
    by (apply div_bracket; lia).
  revert Hd. generalize ((hi - lo) / 2). intros d Hd. cbn zeta.
  destruct (u128 _ <=? n); [apply IH; lia|].
  apply N.lt_trans with (lo + d); [apply IH|]; lia.
Qed.

(** Integer square root.  The 64-step bisection that prices the first
    deposit of a pool returns the floor of the square root of any 128-bit
    product. *)
Theorem isqrt128_sqrt (n : N) : n < w128 -> isqrt128 n = N.sqrt n.
Proof.
  intros Hn. symmetry. apply N.sqrt_unique.
  rewrite <- N.add_1_r. unfold isqrt128. destruct (N.eqb_spec n 0) as [->|Hz]; [cbn; lia|].
  rewrite u64_id by (apply isqrt_loop_lt; lia).
  apply isqrt_loop_spec; try done; try lia.
Qed.

Lemma isqrt128_sqrt_witness : isqrt128 (1000000 * 2000000) = N.sqrt 2000000000000.
Proof. apply isqrt128_sqrt. reflexivity. Defined.

Lemma isqrt128_lt n : isqrt128 n < w64.
Proof. unfold isqrt128. destruct (n =? 0); [lia|apply u64_lt]. Qed.

(** ** Constant product *)

Lemma fee_div_le x fee : x * (10000 - fee) / 10000 <= x.
Proof. apply mul_div_le_l. lia. Qed.

(** The amount paid out for a net input [y] by reserves [a], [b]: at most the
    reserve, and the product of the reserves does not fall, whatever gross
    input [x >= y] is added. *)
Lemma product_nondecreasing a b x y out :
  0 < a -> y <= x -> out = b * y / (a + y) ->
  out <= b /\ a * b <= (a + x) * (b - out).
Proof.
  intros Ha Hxy ->.
  assert (Hb : b * y / (a + y) * (a + y) <= b * y) by (apply div_bracket; lia).
  revert Hb. generalize (b * y / (a + y)). intros out Hb.
  assert (Hout : out <= b) by nia. split; [done|].
  assert (Hk : a * b <= (a + y) * (b - out)).
  { rewrite N.mul_sub_distr_l. rewrite (N.mul_comm (a + y) out), !N.mul_add_distr_r in *. lia. }
  etrans; [exact Hk|]. apply N.mul_le_mono_r. lia.
Qed.

Lemma amountInWithFee_exact fee amount_in :
  amount_in < w64 ->
  amountInWithFee fee amount_in = amount_in * (10000 - fee) / 10000.
Proof.
  intros Ha. unfold amountInWithFee. rewrite u128_id by (apply mul_lt_w128; lia).
  apply u64_id. pose proof (fee_div_le amount_in fee). lia.
Qed.

Lemma amountInWithFee_le fee amount_in : amountInWithFee fee amount_in <= amount_in.
Proof.
  unfold amountInWithFee. etrans; [apply u64_le|].
  etrans; [apply N.Div0.div_le_mono, u128_le|]. apply fee_div_le.
Qed.

(** The quotient [executeSwap] pays, when the pool's input side and the input
    together fit 64 bits. *)
Lemma swap_out_exact fee reserve_in reserve_out amount_in :
  reserve_out < w64 -> reserve_in + amount_in < w64 ->
  swapNumerator fee reserve_out amount_in / swapDenominator fee reserve_in amount_in =
  reserve_out * amountInWithFee fee amount_in / (reserve_in + amountInWithFee fee amount_in).
Proof.
  intros Hro Hin. unfold swapNumerator, swapDenominator.
  pose proof (amountInWithFee_le fee amount_in).
  rewrite u128_id by (apply mul_lt_w128; lia). by rewrite add64_id by lia.
Qed.

Lemma swap_product fee reserve_in reserve_out amount_in :
  0 < reserve_in -> reserve_out < w64 -> reserve_in + amount_in < w64 ->
  let out := swapNumerator fee reserve_out amount_in /
             swapDenominator fee reserve_in amount_in in
  out <= reserve_out /\
  reserve_in * reserve_out <= (reserve_in + amount_in) * (reserve_out - out).
Proof.
  intros Hri Hro Hin. cbn zeta. rewrite swap_out_exact by done.
  apply product_nondecreasing with (y := amountInWithFee fee amount_in);
    auto using amountInWithFee_le.
Qed.

Lemma computeOutput_exact reserve_in reserve_out fee amount_in :
  0 < reserve_in -> reserve_in < w64 -> reserve_out < w64 -> amount_in < w64 ->
  let y := amount_in * (10000 - fee) / 10000 in
  ActiveRouter.computeOutput reserve_in reserve_out fee amount_in =
  reserve_out * y / (reserve_in + y).
Proof.
  intros Hri Hri' Hro Hin. cbn zeta. unfold ActiveRouter.computeOutput.
  rewrite (u128_id (amount_in * _)) by (apply mul_lt_w128; lia).
  pose proof (fee_div_le amount_in fee) as Hy. revert Hy.
  destruct (decide (amount_in = 0)) as [->|Hz].
  { intros _. cbn. rewrite orb_true_r, N.mul_0_r, N.add_0_r. symmetry. by apply N.Div0.div_0_l. }
  generalize (amount_in * (10000 - fee) / 10000). intros y Hy.
  destruct (N.eqb_spec reserve_in 0); [lia|]. destruct (N.eqb_spec reserve_out 0) as [->|].
  { cbn. symmetry. by apply N.Div0.div_0_l. }
  destruct (N.eqb_spec amount_in 0); [done|]. cbn [orb].
  rewrite (u128_id (reserve_in + y)) by lia. destruct (N.eqb_spec (reserve_in + y) 0); [lia|].
  rewrite u128_id by (apply mul_lt_w128; lia). apply u64_id.
  apply N.le_lt_trans with reserve_out; [|done]. apply mul_div_le_l. lia.
Qed.

Lemma computeOutput_product reserve_in reserve_out fee amount_in :
  0 < reserve_in -> reserve_in < w64 -> reserve_out < w64 -> amount_in < w64 ->
  let out := ActiveRouter.computeOutput reserve_in reserve_out fee amount_in in
  out <= reserve_out /\
  reserve_in * reserve_out <= (reserve_in + amount_in) * (reserve_out - out).
Proof.
  intros ? ? ? ?. cbn zeta. rewrite computeOutput_exact by done.
  eapply product_nondecreasing; [done| |reflexivity]. apply fee_div_le.
Qed.

(** ** Router limit *)

(** [y] respects the limit: the exact (unfloored) execution price
    [b (1-f) / (a + y (1-f))], in scaled units, is at least [limit]. *)
Definition respectsLimit (a b fee limit y : N) : Prop :=
  limit * (a * 10000 + y * (10000 - fee)) <= b * OrderBook.BOOK_PRICE_SCALE * (10000 - fee).

(** Router limit.  The input the router allows for a limit is within one
    unit of the largest input whose execution price still respects it: one less
    respects the limit, one more does not. *)
Theorem maxInput_within_one (a b fee limit y : N) :
  a < w64 -> b < w64 ->
  ActiveRouter.maxInputWithinLimit a b fee limit = Some y ->
  0 < y < w64 /\ respectsLimit a b fee limit (y - 1) /\ ~ respectsLimit a b fee limit (y + 1).
Proof.
  intros Ha Hb. unfold ActiveRouter.maxInputWithinLimit, respectsLimit.
  destruct ((a =? 0) || (b =? 0)); [done|].
  destruct (N.leb_spec 10000 fee); [done|].
  destruct (N.eqb_spec limit 0); [done|].
  rewrite !(u128_id (b * OrderBook.BOOK_PRICE_SCALE)) by (apply mul_lt_w128; [done|unfold OrderBook.BOOK_PRICE_SCALE; lia]).
  destruct (_ <=? u128 _); [done|].
  rewrite (u128_id (a * 10000)) by (apply mul_lt_w128; lia).
  set (c := 10000 - fee). assert (Hc : c <> 0) by lia. clearbody c.
  pose proof (div_bracket (b * OrderBook.BOOK_PRICE_SCALE) limit ltac:(done)) as HB.
  pose proof (div_bracket (a * 10000) c Hc) as HA. revert HB HA.
  generalize (b * OrderBook.BOOK_PRICE_SCALE). intros bS.
  generalize (bS / limit), (a * 10000 / c). intros B A HB HA.
  destruct (N.leb_spec B A); [done|]. destruct (N.eqb_spec (B - A) 0); [done|].
  destruct (N.ltb_spec (w64 - 1) (B - A)); [done|]. intros [= <-].
  rewrite u64_id by lia. split; [lia|].
  assert (Hge : (B + 1) * c <= a * 10000 + (B - A + 1) * c).
  { replace ((B + 1) * c) with (A * c + (B - A + 1) * c) by nia. lia. }
  assert (Hle : a * 10000 + (B - A - 1) * c <= B * c).
  { replace (B * c) with ((A + 1) * c + (B - A - 1) * c) by nia. lia. }
  split; [|intros Hbad]; nia.
Qed.

Lemma maxInput_within_one_witness :
  exists y, ActiveRouter.maxInputWithinLimit 1000000 2000000 30 15000000000 = Some y /\
    respectsLimit 1000000 2000000 30 15000000000 (y - 1) /\
    ~ respectsLimit 1000000 2000000 30 15000000000 (y + 1).
Proof.
  eexists. split; [vm_compute; reflexivity|].
  eapply maxInput_within_one; [..|vm_compute]; reflexivity.
Defined.
