(* ===== verification/Wire.v ===== *)
(** * Wire format

    src/src/Common/Wire.h: the little-endian writers, and the bounds-checked
    [Reader].  A read past the end sets a sticky error flag, returns zero and
    does not advance; decoders test the flag after a batch of reads.  A decoder
    is an [Exec] over the reader, [return false] is a rejection.

    The writers and readers are mutually inverse: a read of what a writer put
    gives the value and the rest of the input, and a read that leaves the flag
    clear consumed exactly the bytes the writer puts for its result. *)

From S2P Require Import Prelude.

Definition putU8 (v : N) : bytes := [u8 v].
Definition putU16 (v : N) : bytes := le_split 2 v.
Definition putU32 (v : N) : bytes := le_split 4 v.
Definition putU64 (v : N) : bytes := le_split 8 v.
(** A [ByteArray<32>], as [putBytes] copies it. *)
Definition putHash (h : N) : bytes := be_split 32 h.
Definition putBool (b : bool) : bytes := putU8 (if b then 1 else 0).

Record Reader := mkReader { rest : bytes; error : bool }.

Abbreviation Rd := (Exec Reader).

Definition ok : Rd bool := gets (fun r => negb (error r)).
Definition remaining : Rd nat := gets (fun r => length (rest r)).
(** [if (!r.ok()) return false;] *)
Definition checkOk : Rd unit := b ← ok; require b.

(** The cursor move every read shares: [n] bytes, or the error flag. *)
Definition readSlice (n : nat) : Rd (option bytes) :=
  perform (fun r =>
    if (length (rest r) <? n)%nat then (None, mkReader (rest r) true)
    else (Some (take n (rest r)), mkReader (drop n (rest r)) (error r))).

Definition readLE (n : nat) : Rd N :=
  o ← readSlice n; mret (match o with Some b => le_combine b | None => 0 end).

Definition readU8 : Rd N := readLE 1.
Definition readU16 : Rd N := readLE 2.
Definition readU32 : Rd N := readLE 4.
Definition readU64 : Rd N := readLE 8.
Definition readVector (n : nat) : Rd bytes :=
  o ← readSlice n; mret (default [] o).
Definition readString : nat -> Rd bytes := readVector.
(** [readBytes] into a zero-initialised [ByteArray<32>]. *)
Definition readHash : Rd N :=
  o ← readSlice 32; mret (match o with Some b => be_combine b | None => 0 end).

Definition decode {A} (m : Rd A) (data : bytes) : option A :=
  match fst (m (mkReader data false)) with Ok a => Some a | _ => None end.

(** ** Reading what was written *)

Lemma bind_ok {S A B} (m : Exec S A) (k : A -> Exec S B) st a st' :
  m st = (Ok a, st') -> (m ≫= k) st = k a st'.
Proof. intros E. unfold mbind, Exec_bind. by rewrite E. Qed.

Lemma readSlice_app n b rest' e :
  length b = n -> readSlice n (mkReader (b ++ rest') e) = (Ok (Some b), mkReader rest' e).
Proof.
  intros <-. unfold readSlice, perform. cbn [rest error].
  destruct (Nat.ltb_spec (length (b ++ rest')) (length b)) as [Hl|_].
  { rewrite length_app in Hl. lia. }
  cbn. by rewrite take_app_length, drop_app_length.
Qed.

Lemma readLE_app n v rest' :
  v < w8 ^ N.of_nat n -> readLE n (mkReader (le_split n v ++ rest') false) = (Ok v, mkReader rest' false).
Proof.
  intros Hv. unfold readLE. erewrite bind_ok by (apply readSlice_app, length_le_split).
  cbn. unfold mret, Exec_ret. by rewrite le_combine_split, N.mod_small.
Qed.

Lemma readU8_put v rest' :
  v < w8 -> readU8 (mkReader (putU8 v ++ rest') false) = (Ok v, mkReader rest' false).
Proof. apply (readLE_app 1). Qed.
Lemma readU16_put v rest' :
  v < w16 -> readU16 (mkReader (putU16 v ++ rest') false) = (Ok v, mkReader rest' false).
Proof. apply (readLE_app 2). Qed.
Lemma readU32_put v rest' :
  v < w32 -> readU32 (mkReader (putU32 v ++ rest') false) = (Ok v, mkReader rest' false).
Proof. apply (readLE_app 4). Qed.
Lemma readU64_put v rest' :
  v < w64 -> readU64 (mkReader (putU64 v ++ rest') false) = (Ok v, mkReader rest' false).
Proof. apply (readLE_app 8). Qed.

Lemma readVector_put n b rest' :
  length b = n -> readVector n (mkReader (b ++ rest') false) = (Ok b, mkReader rest' false).
Proof. intros. unfold readVector. by erewrite bind_ok by (by apply readSlice_app). Qed.

Lemma readString_put n b rest' :
  length b = n -> readString n (mkReader (b ++ rest') false) = (Ok b, mkReader rest' false).
Proof. apply readVector_put. Qed.

Lemma readHash_put h rest' :
  wf_hash h -> readHash (mkReader (putHash h ++ rest') false) = (Ok h, mkReader rest' false).
Proof.
  intros Hh. unfold readHash. erewrite bind_ok by (apply readSlice_app, length_be_split).
  unfold mret, Exec_ret, putHash. rewrite be_combine_split, N.mod_small; [done|].
  by replace (w8 ^ N.of_nat 32) with (2 ^ 256) by reflexivity.
Qed.

Lemma checkOk_clear r : checkOk (mkReader r false) = (Ok (), mkReader r false).
Proof. done. Qed.

Lemma require_true {S} (b : bool) (st : S) : b = true -> require b st = (Ok (), st).
Proof. by intros ->. Qed.

Lemma remaining_reads r e : remaining (mkReader r e) = (Ok (length r), mkReader r e).
Proof. done. Qed.

(** The last field, with nothing after it. *)
Lemma app_nil_rest (b : bytes) : b = b ++ [].
Proof. by rewrite app_nil_r. Qed.

Lemma length_putU8 v : length (putU8 v) = 1%nat. Proof. done. Qed.
Lemma length_putU16 v : length (putU16 v) = 2%nat. Proof. apply length_le_split. Qed.
Lemma length_putU32 v : length (putU32 v) = 4%nat. Proof. apply length_le_split. Qed.
Lemma length_putU64 v : length (putU64 v) = 8%nat. Proof. apply length_le_split. Qed.
Lemma length_putHash v : length (putHash v) = 32%nat. Proof. apply length_be_split. Qed.
Lemma length_putBool b : length (putBool b) = 1%nat. Proof. done. Qed.

Create HintDb wire.
Create Rewrite HintDb wire.
#[export] Hint Rewrite length_putU8 length_putU16 length_putU32 length_putU64 length_putHash
  length_putBool @length_app : wire.

Lemma putBool_u8 (b : bool) : putBool b = putU8 (if b then 1 else 0).
Proof. done. Qed.

Lemma bool_byte_lt (b : bool) : (if b then 1 else 0) < w8.
Proof. by destruct b. Qed.

Lemma bool_byte_nonzero (b : bool) : negb ((if b then 1 else 0) =? 0) = b.
Proof. by destruct b. Qed.

#[export] Hint Resolve bool_byte_lt : wire.
#[export] Hint Extern 9 (N.lt 0 _) => reflexivity : wire.
#[export] Hint Extern 9 (N.lt 1 _) => reflexivity : wire.

(** One read of a decoder, over the matching write. *)
Ltac read_step :=
  lazymatch goal with
  | |- readU64 _ = _ => apply readU64_put; solve [eauto with wire]
  | |- readHash _ = _ => apply readHash_put; solve [eauto with wire]
  | |- readU32 _ = _ => apply readU32_put; solve [eauto with wire]
  | |- readU16 _ = _ => apply readU16_put; solve [eauto with wire]
  | |- readU8 _ = _ => apply readU8_put; solve [eauto with wire]
  | |- checkOk _ = _ => apply checkOk_clear
  | |- remaining _ = _ => apply remaining_reads
  end.

Ltac read_field := erewrite bind_ok by read_step.

(** ** A clear flag means the input was exactly what the writers put *)

Definition wf_reader (r : Reader) : Prop := Forall wf_byte (rest r).

(** [reads m enc]: from a well-formed input, a run of [m] that ends with the
    flag clear began with it clear and consumed exactly [enc] of its result. *)
Definition reads {A} (m : Rd A) (enc : A -> bytes) : Prop :=
  forall r a r', wf_reader r -> m r = (Ok a, r') ->
    wf_reader r' /\ (error r' = false -> error r = false /\ rest r = enc a ++ rest r').

Lemma reads_slice n r o r' :
  wf_reader r -> readSlice n r = (Ok o, r') ->
  wf_reader r' /\ (error r' = false ->
    exists b, o = Some b /\ length b = n /\ Forall wf_byte b /\
              error r = false /\ rest r = b ++ rest r').
Proof.
  unfold readSlice, perform, wf_reader. intros Hw.
  destruct (Nat.ltb_spec (length (rest r)) n); cbn; intros [= <- <-]; cbn.
  - split; [done|]. done.
  - split; [by apply Forall_drop|]. intros He. exists (take n (rest r)).
    rewrite length_take, take_drop. split_and!; try done; [lia|by apply Forall_take].
Qed.

Lemma reads_LE n : reads (readLE n) (le_split n).
Proof.
  intros r a r' Hw. unfold readLE, mbind, Exec_bind.
  destruct (readSlice n r) as [[o| |] r1] eqn:E; try done.
  apply reads_slice in E as [Hw1 E]; [|done]. intros [= <- <-]. split; [done|].
  intros He. destruct (E He) as (b & -> & Hl & Hb & He' & Hr). split; [done|].
  by rewrite <-Hl, le_split_combine.
Qed.

Lemma reads_U8 : reads readU8 putU8.
Proof. apply (reads_LE 1). Qed.
Lemma reads_U16 : reads readU16 putU16.
Proof. apply (reads_LE 2). Qed.
Lemma reads_U32 : reads readU32 putU32.
Proof. apply (reads_LE 4). Qed.
Lemma reads_U64 : reads readU64 putU64.
Proof. apply (reads_LE 8). Qed.

Lemma reads_hash : reads readHash putHash.
Proof.
  intros r a r' Hw. unfold readHash, mbind, Exec_bind.
  destruct (readSlice 32 r) as [[o| |] r1] eqn:E; try done.
  apply reads_slice in E as [Hw1 E]; [|done]. intros [= <- <-]. split; [done|].
  intros He. destruct (E He) as (b & -> & Hl & Hb & He' & Hr). split; [done|].
  unfold putHash, be_split, be_combine. rewrite <-Hl, <-length_reverse.
  rewrite le_split_combine, reverse_involutive; [done|]. by apply Forall_reverse.
Qed.

Lemma reads_vector n : forall r b r', wf_reader r -> readVector n r = (Ok b, r') ->
  wf_reader r' /\ (error r' = false ->
    error r = false /\ length b = n /\ rest r = b ++ rest r').
Proof.
  intros r b r' Hw. unfold readVector, mbind, Exec_bind.
  destruct (readSlice n r) as [[o| |] r1] eqn:E; try done.
  apply reads_slice in E as [Hw1 E]; [|done]. intros [= <- <-]. split; [done|].
  intros He. destruct (E He) as (c & -> & Hl & Hb & He' & Hr). done.
Qed.

(** Invert the first step of a successful decoder run. *)
Lemma bind_inv {S A B} (m : Exec S A) (k : A -> Exec S B) st b st' :
  (m ≫= k) st = (Ok b, st') -> exists a st1, m st = (Ok a, st1) /\ k a st1 = (Ok b, st').
Proof.
  unfold mbind, Exec_bind. destruct (m st) as [[a| |] st1]; intros E; try done. eauto.
Qed.

Lemma require_inv {S} (b : bool) (st st' : S) u : require b st = (Ok u, st') -> b = true /\ st' = st.
Proof. unfold require. destruct b; intros [=]; done. Qed.

Lemma checkOk_inv r u r' : checkOk r = (Ok u, r') -> error r = false /\ r' = r.
Proof.
  unfold checkOk, ok. intros E. cbn in E. apply require_inv in E as [E ->].
  by apply negb_true_iff in E.
Qed.
