(* ===== verification/Codec.v ===== *)
(** * Record codecs

    The [serializeState]/[deserializeState] pairs of src/src/Core and the
    transaction wire format (src/src/Core/Transaction.cpp), one module per
    struct, over the reader and writers of Wire.v.

    Shown for every struct: the bytes written for a record whose fields fit
    their C++ types (and which satisfies the validity test its decoder ends
    with) decode to that record. *)

From S2P Require Import Prelude Types OrderBook Wire.

(** A string field: the source clamps its length to the field's maximum. *)
Definition clamp (m : nat) (s : bytes) : bytes := take m s.
Definition clampLen (m : nat) (s : bytes) : N :=
  N.of_nat (if (m <? length s)%nat then m else length s).

Module AccountCodec.
Import Account.
Definition STATE_SIZE : nat := 57.

Definition serializeState (a : t) : bytes :=
  putU64 (nonce a) ++ putU64 (balance a) ++ putU64 (staked a) ++ putU64 (pending_rewards a) ++
  putU64 (last_reward_epoch a) ++ putU64 (staker_since_height a) ++
  putU64 (created_at_height a) ++ putBool (staking_opted_out a).

Definition parse : Rd t :=
  nonce ← readU64; balance ← readU64; staked ← readU64; pending_rewards ← readU64;
  last_reward_epoch ← readU64; staker_since_height ← readU64; created_at_height ← readU64;
  opted_out ← readU8;
  checkOk;;
  mret (mk nonce balance staked pending_rewards last_reward_epoch staker_since_height
          created_at_height (negb (opted_out =? 0))).

Definition deserializeState (data : bytes) : option t :=
  if (length data =? STATE_SIZE)%nat then decode parse data else None.

Record wf (a : t) : Prop := {
  wf_nonce : nonce a < w64; wf_balance : balance a < w64; wf_staked : staked a < w64;
  wf_pending : pending_rewards a < w64; wf_epoch : last_reward_epoch a < w64;
  wf_since : staker_since_height a < w64; wf_created : created_at_height a < w64;
}.
End AccountCodec.

Module TokenInfoCodec.
Import TokenInfo.
Definition serializeState (x : t) : bytes :=
  putU32 (id x) ++ putU8 (decimals x) ++ putU8 (BackingModel.to_byte (backing x)) ++
  putU8 (clampLen TOKEN_NAME_MAX (name x)) ++ clamp TOKEN_NAME_MAX (name x) ++
  putU8 (clampLen TOKEN_SYMBOL_MAX (symbol x)) ++ clamp TOKEN_SYMBOL_MAX (symbol x) ++
  putU64 (maxSupply x) ++ putU16 (royaltyBps x) ++ putHash (creator x) ++
  match fingerprint x with
  | Some fp => putU8 1 ++ putHash fp
  | None => putU8 0
  end.

Definition parse : Rd t :=
  id ← readU32; decimals ← readU8; backing ← readU8;
  name_len ← readU8; checkOk;; require (N.to_nat name_len <=? TOKEN_NAME_MAX)%nat;;
  name ← readString (N.to_nat name_len);
  sym_len ← readU8; checkOk;; require (N.to_nat sym_len <=? TOKEN_SYMBOL_MAX)%nat;;
  symbol ← readString (N.to_nat sym_len);
  maxSupply ← readU64; royaltyBps ← readU16; creator ← readHash;
  has_fp ← readU8; checkOk;;
  fingerprint ← (if negb (has_fp =? 0)
                 then fp ← readHash; checkOk;; mret (Some fp)
                 else mret None);
  left ← remaining; require (left =? 0)%nat;;
  mret (mk id name symbol decimals creator (BackingModel.of_byte backing) maxSupply royaltyBps
          fingerprint).

Definition deserializeState (data : bytes) : option t := decode parse data.

Record wf (x : t) : Prop := {
  wf_id : id x < w32; wf_decimals : decimals x < w8;
  wf_name : (length (name x) <= TOKEN_NAME_MAX)%nat;
  wf_symbol : (length (symbol x) <= TOKEN_SYMBOL_MAX)%nat;
  wf_max : maxSupply x < w64; wf_royalty : royaltyBps x < w16; wf_creator : wf_hash (creator x);
  wf_fp : from_option wf_hash True (fingerprint x);
  wf_backing : match backing x with BackingModel.UnknownBacking _ => False | _ => True end;
}.
End TokenInfoCodec.

Module ValidatorCodec.
Import ValidatorInfo.
Definition STATE_SIZE : nat := 8 + 32 + 32 + 32 + 32 + 8 + 8 + 2 + 8 + 4 + 4 + 8 + 2 + 2 + 8 + 8 +
  8 + 8 + 1 + 8 + 8 + 8.

Definition flags (v : t) : N :=
  N.lor (if is_seed v then 0x01 else 0) (if is_active v then 0x02 else 0).

Definition serializeState (v : t) : bytes :=
  putU64 (id v) ++ putHash (reward_address v) ++ putHash (consensus_key v) ++
  putHash (node_key v) ++ putHash (owner v) ++ putU64 (registered_at_height v) ++
  putU64 (stake v) ++ putU16 (uptime_score v) ++ putU64 (last_ping_height v) ++
  putU32 (pings_responded_this_epoch v) ++ putU32 (pings_sent_this_epoch v) ++
  putU64 (last_seen_height v) ++ putU16 (reward_multiplier v) ++ putU16 (infraction_count v) ++
  putU64 (last_infraction_height v) ++ putU64 (total_blocks_produced v) ++
  putU64 (total_rewards_earned v) ++ putU64 (epochs_active v) ++ putU8 (flags v) ++
  putU64 (became_active_at v) ++ putU64 (last_active_at v) ++ putU64 (pending_unbond_height v).

Definition parse : Rd t :=
  id ← readU64; reward_address ← readHash; consensus_key ← readHash; node_key ← readHash;
  owner ← readHash; registered_at_height ← readU64; stake ← readU64; uptime_score ← readU16;
  last_ping_height ← readU64; pings_responded ← readU32; pings_sent ← readU32;
  last_seen_height ← readU64; reward_multiplier ← readU16; infraction_count ← readU16;
  last_infraction_height ← readU64; total_blocks_produced ← readU64;
  total_rewards_earned ← readU64; epochs_active ← readU64;
  flags ← readU8;
  became_active_at ← readU64; last_active_at ← readU64; pending_unbond_height ← readU64;
  checkOk;;
  mret (mk id reward_address consensus_key node_key owner registered_at_height stake
          uptime_score last_ping_height pings_responded pings_sent last_seen_height
          reward_multiplier infraction_count last_infraction_height total_blocks_produced
          total_rewards_earned epochs_active
          (negb (N.land flags 0x01 =? 0)) (negb (N.land flags 0x02 =? 0))
          became_active_at last_active_at pending_unbond_height).

Definition deserializeState (data : bytes) : option t :=
  if (length data =? STATE_SIZE)%nat then decode parse data else None.

Record wf (v : t) : Prop := {
  wf_id : id v < w64; wf_reward_address : wf_hash (reward_address v);
  wf_consensus_key : wf_hash (consensus_key v); wf_node_key : wf_hash (node_key v);
  wf_owner : wf_hash (owner v); wf_registered : registered_at_height v < w64;
  wf_stake : stake v < w64; wf_uptime : uptime_score v < w16;
  wf_last_ping : last_ping_height v < w64; wf_responded : pings_responded_this_epoch v < w32;
  wf_sent : pings_sent_this_epoch v < w32; wf_last_seen : last_seen_height v < w64;
  wf_multiplier : reward_multiplier v < w16; wf_infractions : infraction_count v < w16;
  wf_last_infraction : last_infraction_height v < w64;
  wf_blocks : total_blocks_produced v < w64; wf_rewards : total_rewards_earned v < w64;
  wf_epochs : epochs_active v < w64; wf_became : became_active_at v < w64;
  wf_last_active : last_active_at v < w64; wf_unbond : pending_unbond_height v < w64;
}.
End ValidatorCodec.

Module KeyHistoryCodec.
Import KeyRotation.
Definition KEY_ROTATION_WIRE_SIZE : nat := 32 + 8 + 8.

Definition encodeEntry (e : t) : bytes :=
  putHash (key e) ++ putU64 (valid_from_height e) ++ putU64 (valid_until_height e).

Definition encodeKeyHistory (history : list t) : bytes :=
  putU32 (N.of_nat (length history)) ++ concat (map encodeEntry history).

Fixpoint parseEntries (count : nat) : Rd (list t) :=
  match count with
  | O => mret []
  | S count =>
    key ← readHash; from ← readU64; until ← readU64; checkOk;;
    rest ← parseEntries count;
    mret (mk key from until :: rest)
  end.

Definition parse (len : nat) : Rd (list t) :=
  count ← readU32; checkOk;;
  require (N.to_nat count <=? MAX_KEY_ROTATIONS)%nat;;
  require (len =? 4 + N.to_nat count * KEY_ROTATION_WIRE_SIZE)%nat;;
  parseEntries (N.to_nat count).

Definition decodeKeyHistory (data : bytes) : option (list t) :=
  if (length data <? 4)%nat then None else decode (parse (length data)) data.

Record wf (e : t) : Prop := {
  wf_key : wf_hash (key e); wf_from : valid_from_height e < w64;
  wf_until : valid_until_height e < w64;
}.
End KeyHistoryCodec.

Module AmmPoolCodec.
Import AmmPool.
Definition STATE_SIZE : nat := 8 + 32 + 4 + 4 + 8 + 8 + 8 + 2 + 8 + 1 + 8 + 8 + 8.

Definition serializeState (p : t) : bytes :=
  putU64 (id p) ++ putHash (creator p) ++ putU32 (token_a p) ++ putU32 (token_b p) ++
  putU64 (reserve_a p) ++ putU64 (reserve_b p) ++ putU64 (total_liquidity p) ++
  putU16 (fee_bps p) ++ putU64 (created_at_height p) ++ putBool (active p) ++
  putU64 (volume_window_height p) ++ putU64 (volume_current p) ++ putU64 (volume_last p).

Definition parse : Rd t :=
  id ← readU64; creator ← readHash; token_a ← readU32; token_b ← readU32;
  reserve_a ← readU64; reserve_b ← readU64; total_liquidity ← readU64; fee_bps ← readU16;
  created_at_height ← readU64; active ← readU8; window ← readU64; current ← readU64;
  last ← readU64;
  checkOk;;
  let out := mk id creator token_a token_b reserve_a reserve_b total_liquidity fee_bps
               created_at_height (negb (active =? 0)) window current last in
  require (isValid out);;
  mret out.

Definition deserializeState (data : bytes) : option t :=
  if (length data =? STATE_SIZE)%nat then decode parse data else None.

Record wf (p : t) : Prop := {
  wf_id : id p < w64; wf_creator : wf_hash (creator p); wf_a : token_a p < w32;
  wf_b : token_b p < w32; wf_ra : reserve_a p < w64; wf_rb : reserve_b p < w64;
  wf_liq : total_liquidity p < w64; wf_fee : fee_bps p < w16; wf_created : created_at_height p < w64;
  wf_win : volume_window_height p < w64; wf_cur : volume_current p < w64;
  wf_last : volume_last p < w64;
}.
End AmmPoolCodec.

Module AmmPositionCodec.
Import AmmPosition.
Definition STATE_SIZE : nat := 8 + 32 + 8 + 8 + 8.

Definition serializeState (p : t) : bytes :=
  putU64 (id p) ++ putHash (owner p) ++ putU64 (pool_id p) ++ putU64 (liquidity p) ++
  putU64 (created_at_height p).

Definition parse : Rd t :=
  id ← readU64; owner ← readHash; pool_id ← readU64; liquidity ← readU64;
  created_at_height ← readU64;
  checkOk;;
  let out := mk id owner pool_id liquidity created_at_height in
  require (isValid out);;
  mret out.

Definition deserializeState (data : bytes) : option t :=
  if (length data =? STATE_SIZE)%nat then decode parse data else None.

Record wf (p : t) : Prop := {
  wf_id : id p < w64; wf_owner : wf_hash (owner p); wf_pool : pool_id p < w64;
  wf_liq : liquidity p < w64; wf_created : created_at_height p < w64;
}.
End AmmPositionCodec.

Module OrderCodec.
Import Order.
Definition CONDITION_SIZE : nat := 1 + 8 + 4.
Definition STATE_SIZE_FIXED : nat := 8 + 32 + 1 + 4 + 4 + 4 + 8 + 8 + 8 + 8 + 8 + 1.

Definition serializeCondition (c : OrderCondition.t) : bytes :=
  putU8 (OrderConditionType.to_byte (OrderCondition.type c)) ++
  putU64 (OrderCondition.param1 c) ++ putU32 (OrderCondition.param2 c).

(** Reads at an offset and returns the next offset. *)
Definition deserializeCondition (data : bytes) (offset : nat) : option (OrderCondition.t * nat) :=
  if (length data <? offset + CONDITION_SIZE)%nat then None
  else
    let p := drop offset data in
    let out := OrderCondition.mk (OrderConditionType.of_byte (nth 0 p 0))
                 (le_combine (take 8 (drop 1 p))) (le_combine (take 4 (drop 9 p))) in
    if OrderCondition.isValid out then Some (out, (offset + CONDITION_SIZE)%nat) else None.

Definition serializeState (o : t) : bytes :=
  putU64 (id o) ++ putHash (owner o) ++ putU8 (OrderExecutionMode.to_byte (mode o)) ++
  putU32 (pool_id o) ++ putU32 (sell_token o) ++ putU32 (buy_token o) ++
  putU64 (sell_amount o) ++ putU64 (min_buy_amount o) ++ putU64 (created_at_height o) ++
  putU64 (order_expires_at_height o) ++ putU64 (filled_amount o) ++
  putU8 (N.of_nat (condition_count o)) ++
  concat (map serializeCondition (take ORDER_MAX_CONDITIONS (conditions o))).

Fixpoint conditionsFrom (data : bytes) (count offset : nat)
    : option (list OrderCondition.t * nat) :=
  match count with
  | O => Some ([], offset)
  | S count =>
    '(c, offset) ← deserializeCondition data offset;
    '(cs, offset) ← conditionsFrom data count offset;
    Some (c :: cs, offset)
  end.

Definition parse (data : bytes) : Rd t :=
  id ← readU64; owner ← readHash; mode ← readU8; pool_id ← readU32; sell_token ← readU32;
  buy_token ← readU32; sell_amount ← readU64; min_buy_amount ← readU64;
  created_at_height ← readU64; order_expires_at_height ← readU64; filled_amount ← readU64;
  condition_count ← readU8;
  checkOk;;
  let count := N.to_nat condition_count in
  require (count <=? ORDER_MAX_CONDITIONS)%nat;;
  require (length data =? STATE_SIZE_FIXED + count * CONDITION_SIZE)%nat;;
  '(conditions, off) ← fetch (fun _ => conditionsFrom data count STATE_SIZE_FIXED);
  require (off =? length data)%nat;;
  let out := mk id owner (OrderExecutionMode.of_byte mode) pool_id sell_token buy_token
               sell_amount min_buy_amount created_at_height order_expires_at_height
               filled_amount conditions in
  require (isValid out);;
  mret out.

Definition deserializeState (data : bytes) : option t :=
  if (length data <? STATE_SIZE_FIXED)%nat then None else decode (parse data) data.

Record wf_condition (c : OrderCondition.t) : Prop := {
  wf_type : match OrderCondition.type c with
            | OrderConditionType.UnknownCondition _ => False | _ => True end;
  wf_p1 : OrderCondition.param1 c < w64; wf_p2 : OrderCondition.param2 c < w32;
}.

Record wf (o : t) : Prop := {
  wf_id : id o < w64; wf_owner : wf_hash (owner o); wf_pool : pool_id o < w32;
  wf_sell : sell_token o < w32; wf_buy : buy_token o < w32; wf_amount : sell_amount o < w64;
  wf_min : min_buy_amount o < w64; wf_created : created_at_height o < w64;
  wf_expires : order_expires_at_height o < w64; wf_filled : filled_amount o < w64;
  wf_conditions : Forall wf_condition (conditions o);
}.
End OrderCodec.

Module FillCodec.
Import Fill.
Definition STATE_SIZE : nat := 1 + 8 + 8 + 4 + 8 + 8 + 8 + 4 + 4.

Definition serializeState (f : t) : bytes :=
  putU8 (FillSource.to_byte (source f)) ++ putU64 (maker_order_id f) ++
  putU64 (taker_order_id f) ++ putU32 (pool_id f) ++ putU64 (qty_base f) ++
  putU64 (qty_quote f) ++ putU64 (price f) ++ putU32 (base_token f) ++ putU32 (quote_token f).

Definition parse : Rd t :=
  source ← readU8; maker ← readU64; taker ← readU64; pool_id ← readU32; qty_base ← readU64;
  qty_quote ← readU64; price ← readU64; base_token ← readU32; quote_token ← readU32;
  checkOk;;
  let out := mk (FillSource.of_byte source) maker taker pool_id qty_base qty_quote price
               base_token quote_token in
  require (isValid out);;
  mret out.

Definition deserializeState (data : bytes) : option t :=
  if (length data =? STATE_SIZE)%nat then decode parse data else None.

Record wf (f : t) : Prop := {
  wf_source : match source f with FillSource.UnknownSource _ => False | _ => True end;
  wf_maker : maker_order_id f < w64; wf_taker : taker_order_id f < w64; wf_pool : pool_id f < w32;
  wf_base : qty_base f < w64; wf_quote : qty_quote f < w64; wf_price : price f < w64;
  wf_bt : base_token f < w32; wf_qt : quote_token f < w32;
}.
End FillCodec.

Module ReceiptCodec.
Import Receipt.
Definition STATE_SIZE : nat := 1 + 8.
Definition MAX_FILLS_PER_RECEIPT : nat := OrderBook.MAX_BOOK_LEVELS_PER_TAKER.

Definition serializeState (r : t) : bytes :=
  putU8 (ReceiptStatus.to_byte (status r)) ++ putU64 (fee_paid r) ++
  putU32 (N.of_nat (length (fills r))) ++ concat (map FillCodec.serializeState (fills r)).

Fixpoint fillsFrom (data : bytes) (count off : nat) : option (list Fill.t) :=
  match count with
  | O => Some []
  | S count =>
    f ← FillCodec.deserializeState (take FillCodec.STATE_SIZE (drop off data));
    fs ← fillsFrom data count (off + FillCodec.STATE_SIZE);
    Some (f :: fs)
  end.

Definition deserializeState (data : bytes) : option t :=
  let status := ReceiptStatus.of_byte (nth 0 data 0) in
  let fee := le_combine (take 8 (drop 1 data)) in
  if (length data =? STATE_SIZE)%nat then
    let out := mk status fee [] in
    if isValid out then Some out else None
  else if (length data <? STATE_SIZE + 4)%nat then None
  else
    let count := N.to_nat (le_combine (take 4 (drop 9 data))) in
    if (MAX_FILLS_PER_RECEIPT <? count)%nat then None
    else if negb (length data =? STATE_SIZE + 4 + count * FillCodec.STATE_SIZE)%nat then None
    else
      fills ← fillsFrom data count (STATE_SIZE + 4);
      let out := mk status fee fills in
      if isValid out then Some out else None.

Record wf (r : t) : Prop := {
  wf_fee : fee_paid r < w64;
  wf_count : (length (fills r) <= MAX_FILLS_PER_RECEIPT)%nat;
  wf_fills : Forall (fun f => FillCodec.wf f /\ Fill.isValid f = true) (fills r);
}.
End ReceiptCodec.

Module NftCodec.
Import NftInfo.
Definition serializeState (n : t) : bytes :=
  putU64 (id n) ++ putHash (owner n) ++ putHash (creator n) ++ putU32 (shadow_token_id n) ++
  putU32 (underlying_token_id n) ++ putU64 (wrapped_amount n) ++ putU64 (collection_id n) ++
  putHash (metadata_hash n) ++ putBool (negb (isNull (metadata_hash n))) ++
  putU16 (clampLen NFT_URI_MAX (metadata_uri n)) ++ clamp NFT_URI_MAX (metadata_uri n) ++
  putBool (frozen n) ++ putU64 (last_accrual_height n) ++ putU64 (accrued_owed n) ++
  putU64 (created_at_height n).

Definition parse : Rd t :=
  id ← readU64; owner ← readHash; creator ← readHash; shadow ← readU32; underlying ← readU32;
  wrapped_amount ← readU64; collection_id ← readU64;
  metadata_hash ← readHash; has_hash ← readU8;
  checkOk;;
  require (if has_hash =? 0 then isNull metadata_hash else has_hash =? 1);;
  uri_len ← readU16; checkOk;; require (N.to_nat uri_len <=? NFT_URI_MAX)%nat;;
  metadata_uri ← readString (N.to_nat uri_len);
  frozen_byte ← readU8; checkOk;; require (frozen_byte <=? 1);;
  last_accrual_height ← readU64; accrued_owed ← readU64; created_at_height ← readU64;
  checkOk;;
  left ← remaining; require (left =? 0)%nat;;
  let out := mk id owner creator shadow underlying wrapped_amount collection_id metadata_hash
               metadata_uri (frozen_byte =? 1) last_accrual_height accrued_owed
               created_at_height in
  require (isValid out);;
  mret out.

Definition deserializeState (data : bytes) : option t := decode parse data.

Record wf (n : t) : Prop := {
  wf_id : id n < w64; wf_owner : wf_hash (owner n); wf_creator : wf_hash (creator n);
  wf_shadow : shadow_token_id n < w32; wf_underlying : underlying_token_id n < w32;
  wf_wrapped : wrapped_amount n < w64; wf_collection : collection_id n < w64;
  wf_metadata : wf_hash (metadata_hash n); wf_accrual : last_accrual_height n < w64;
  wf_owed : accrued_owed n < w64; wf_created : created_at_height n < w64;
}.
End NftCodec.

Module NftCollectionCodec.
Import NftCollection.
Definition serializeState (c : t) : bytes :=
  putU64 (id c) ++ putHash (creator c) ++
  putU8 (clampLen NFT_COLLECTION_NAME_MAX (name c)) ++ clamp NFT_COLLECTION_NAME_MAX (name c) ++
  putU8 (clampLen NFT_COLLECTION_SYMBOL_MAX (symbol c)) ++
  clamp NFT_COLLECTION_SYMBOL_MAX (symbol c) ++
  putU16 (clampLen NFT_URI_MAX (base_uri c)) ++ clamp NFT_URI_MAX (base_uri c) ++
  putU32 (reward_token_id c) ++ putU64 (reward_rate_per_epoch c) ++
  putU64 (reward_escrow_remaining c) ++ putBool (reward_paused c) ++
  putU64 (created_at_height c) ++ putU64 (minted_count c).

Definition parse : Rd t :=
  id ← readU64; creator ← readHash;
  name_len ← readU8; checkOk;; require (N.to_nat name_len <=? NFT_COLLECTION_NAME_MAX)%nat;;
  name ← readString (N.to_nat name_len);
  sym_len ← readU8; checkOk;; require (N.to_nat sym_len <=? NFT_COLLECTION_SYMBOL_MAX)%nat;;
  symbol ← readString (N.to_nat sym_len);
  uri_len ← readU16; checkOk;; require (N.to_nat uri_len <=? NFT_URI_MAX)%nat;;
  base_uri ← readString (N.to_nat uri_len);
  reward_token_id ← readU32; rate ← readU64; escrow ← readU64;
  paused_byte ← readU8; checkOk;; require (paused_byte <=? 1);;
  created_at_height ← readU64; minted_count ← readU64;
  checkOk;;
  left ← remaining; require (left =? 0)%nat;;
  let out := mk id creator name symbol base_uri reward_token_id rate escrow (paused_byte =? 1)
               created_at_height minted_count in
  require (isValid out);;
  mret out.

Definition deserializeState (data : bytes) : option t := decode parse data.

Record wf (c : t) : Prop := {
  wf_id : id c < w64; wf_creator : wf_hash (creator c); wf_token : reward_token_id c < w32;
  wf_rate : reward_rate_per_epoch c < w64; wf_escrow : reward_escrow_remaining c < w64;
  wf_created : created_at_height c < w64; wf_minted : minted_count c < w64;
}.
End NftCollectionCodec.

Module TransactionCodec.
Import Transaction.
Definition TX_DOMAIN : string := "CLRTY_TX_V1".

Definition serializeForSigning (tx : t) : bytes :=
  putU16 (version tx) ++ putU64 (chain_id tx) ++ putU8 (TxType.to_byte (tx_type tx)) ++
  putU64 (nonce tx) ++ putU64 (valid_until_height tx) ++ putHash (from tx) ++ putHash (to tx) ++
  putU32 (token_id tx) ++ putU64 (amount tx) ++ putU64 (fee tx) ++
  putU32 (N.of_nat (length (payload tx))) ++ payload tx.

Definition serialize (tx : t) : bytes := serializeForSigning tx ++ signature tx.

Definition signingHash `{Crypto} (tx : t) : Hash :=
  blake2b (ascii_bytes TX_DOMAIN ++ serializeForSigning tx).

Definition parse : Rd t :=
  version ← readU16; chain_id ← readU64; tx_type ← readU8; nonce ← readU64;
  valid_until_height ← readU64; from ← readHash; to ← readHash; token_id ← readU32;
  amount ← readU64; fee ← readU64;
  checkOk;;
  payload_size ← readU32; checkOk;; require (N.to_nat payload_size <=? TX_MAX_PAYLOAD_SIZE)%nat;;
  payload ← readVector (N.to_nat payload_size);
  signature ← readVector 64;
  checkOk;;
  left ← remaining; require (left =? 0)%nat;;
  let out := mk version chain_id (TxType.of_byte tx_type) nonce valid_until_height from to
               token_id amount fee payload signature in
  require (isWellFormed out);;
  mret out.

Definition deserialize (data : bytes) : option t := decode parse data.

Record wf (tx : t) : Prop := {
  wf_version : version tx < w16; wf_chain : chain_id tx < w64;
  wf_type : match tx_type tx with TxType.Unknown _ => False | _ => True end;
  wf_nonce : nonce tx < w64; wf_until : valid_until_height tx < w64; wf_from : wf_hash (from tx);
  wf_to : wf_hash (to tx); wf_token : token_id tx < w32; wf_amount : amount tx < w64;
  wf_fee : fee tx < w64; wf_signature : length (signature tx) = 64%nat;
}.
End TransactionCodec.

(** ** Round trips *)

(** Put a decoder's input in right-nested form ending in [rest]. *)
Lemma decode_ok {A} (m : Rd A) data a r :
  m (mkReader data false) = (Ok a, r) -> decode m data = Some a.
Proof. intros E. unfold decode. by rewrite E. Qed.

Lemma clampLen_lt m s : N.of_nat m < w16 -> clampLen m s < w16.
Proof. intros Hm. unfold clampLen. destruct (Nat.ltb_spec m (length s)); lia. Qed.

Lemma clampLen_lt8 m s : N.of_nat m < w8 -> clampLen m s < w8.
Proof. intros Hm. unfold clampLen. destruct (Nat.ltb_spec m (length s)); lia. Qed.

Lemma clampLen_le m s : (N.to_nat (clampLen m s) <=? m)%nat = true.
Proof. unfold clampLen. apply Nat.leb_le. destruct (Nat.ltb_spec m (length s)); lia. Qed.

Lemma length_clamp m s : length (clamp m s) = N.to_nat (clampLen m s).
Proof.
  unfold clamp, clampLen. rewrite length_take. destruct (Nat.ltb_spec m (length s)); lia.
Qed.

Lemma clamp_id m s : (length s <= m)%nat -> clamp m s = s.
Proof. apply take_ge. Qed.

#[export] Hint Resolve clampLen_lt clampLen_lt8 : wire.
#[export] Hint Extern 5 (N.of_nat _ < _) => reflexivity : wire.

(** Steps of a decoder over its encoder's output. *)
Ltac read_string :=
  erewrite bind_ok by
    lazymatch goal with |- readString _ _ = _ => apply readString_put, length_clamp end.

Ltac read_require :=
  erewrite bind_ok by
    lazymatch goal with
    | |- require _ _ = _ => apply require_true; solve [apply clampLen_le | assumption | reflexivity]
    end.

(** The last field has no rest: give it the empty one. *)
Ltac open_input :=
  match goal with
  | |- context [mkReader ?d false] => rewrite (app_nil_rest d)
  end; rewrite <-?app_assoc.

Ltac read_all := repeat first [read_field | read_string | read_require].

Lemma Account_roundtrip a :
  AccountCodec.wf a ->
  AccountCodec.deserializeState (AccountCodec.serializeState a) = Some a.
Proof.
  intros []. unfold AccountCodec.deserializeState, AccountCodec.serializeState.
  autorewrite with wire. cbn [Nat.add Nat.eqb AccountCodec.STATE_SIZE].
  eapply decode_ok. unfold AccountCodec.parse. open_input. rewrite putBool_u8. read_all.
  by destruct a as [??????? []].
Qed.

(** An enumeration's byte names it, for the values of the enumeration. *)
Lemma backing_byte x :
  match x with BackingModel.UnknownBacking _ => False | _ => True end ->
  BackingModel.to_byte x < w8 /\ BackingModel.of_byte (BackingModel.to_byte x) = x.
Proof. by destruct x. Qed.
Lemma condition_byte x :
  match x with OrderConditionType.UnknownCondition _ => False | _ => True end ->
  OrderConditionType.to_byte x < w8 /\
  OrderConditionType.of_byte (OrderConditionType.to_byte x) = x.
Proof. by destruct x. Qed.
Lemma source_byte x :
  match x with FillSource.UnknownSource _ => False | _ => True end ->
  FillSource.to_byte x < w8 /\ FillSource.of_byte (FillSource.to_byte x) = x.
Proof. by destruct x. Qed.
Lemma tx_type_byte x :
  match x with TxType.Unknown _ => False | _ => True end ->
  TxType.to_byte x < w8 /\ TxType.of_byte (TxType.to_byte x) = x.
Proof. by destruct x. Qed.
Lemma mode_byte o :
  Order.isValid o = true ->
  OrderExecutionMode.to_byte (Order.mode o) < w8 /\
  OrderExecutionMode.of_byte (OrderExecutionMode.to_byte (Order.mode o)) = Order.mode o.
Proof.
  unfold Order.isValid. destruct (Order.mode o); try done. by rewrite andb_false_r.
Qed.

Lemma TokenInfo_roundtrip x :
  TokenInfoCodec.wf x ->
  TokenInfoCodec.deserializeState (TokenInfoCodec.serializeState x) = Some x.
Proof.
  intros [? ? ? ? ? ? ? Hfp [Hb Hb']%backing_byte].
  unfold TokenInfoCodec.deserializeState, TokenInfoCodec.serializeState.
  eapply decode_ok. unfold TokenInfoCodec.parse. open_input. read_all.
  rewrite Hb', !clamp_id by done. destruct (TokenInfo.fingerprint x) eqn:E; rewrite <-?app_assoc.
  - read_field. read_field. cbn [negb N.eqb].
    erewrite bind_ok by (read_field; read_field; reflexivity). read_all. destruct x; cbn in E |- *; by subst.
  - read_field. read_field. cbn [negb N.eqb]. erewrite bind_ok by reflexivity.
    read_all. destruct x; cbn in E |- *; by subst.
Qed.

Lemma Validator_roundtrip v :
  ValidatorCodec.wf v ->
  ValidatorCodec.deserializeState (ValidatorCodec.serializeState v) = Some v.
Proof.
  intros []. unfold ValidatorCodec.deserializeState, ValidatorCodec.serializeState.
  autorewrite with wire. cbn [Nat.add Nat.eqb ValidatorCodec.STATE_SIZE].
  assert (ValidatorCodec.flags v < w8).
  { unfold ValidatorCodec.flags. by destruct (ValidatorInfo.is_seed v), (ValidatorInfo.is_active v). }
  eapply decode_ok. unfold ValidatorCodec.parse. open_input. read_all.
  unfold ValidatorCodec.flags. destruct v as [? ? ? ? ? ? ? ? ? ? ? ? ? ? ? ? ? ? [] [] ? ? ?]; done.
Qed.

Lemma parseEntries_put history :
  Forall KeyHistoryCodec.wf history ->
  KeyHistoryCodec.parseEntries (length history)
    (mkReader (concat (map KeyHistoryCodec.encodeEntry history)) false) =
  (Ok history, mkReader [] false).
Proof.
  induction 1 as [|e l [] Hl IH]; [done|]. cbn [length map concat KeyHistoryCodec.parseEntries].
  unfold KeyHistoryCodec.encodeEntry at 1. rewrite <-!app_assoc. read_all.
  erewrite bind_ok by exact IH. by destruct e.
Qed.

Lemma length_entries history :
  length (concat (map KeyHistoryCodec.encodeEntry history)) =
  (length history * KeyHistoryCodec.KEY_ROTATION_WIRE_SIZE)%nat.
Proof.
  induction history as [|e l IH]; [done|]. cbn [map concat length].
  unfold KeyHistoryCodec.encodeEntry at 1. autorewrite with wire. rewrite IH.
  unfold KeyHistoryCodec.KEY_ROTATION_WIRE_SIZE. lia.
Qed.

Lemma KeyHistory_roundtrip history :
  Forall KeyHistoryCodec.wf history -> (length history <= MAX_KEY_ROTATIONS)%nat ->
  KeyHistoryCodec.decodeKeyHistory (KeyHistoryCodec.encodeKeyHistory history) = Some history.
Proof.
  intros Hwf Hlen. unfold KeyHistoryCodec.decodeKeyHistory, KeyHistoryCodec.encodeKeyHistory.
  autorewrite with wire. rewrite length_entries. cbn [Nat.add Nat.ltb Nat.leb].
  assert (N.of_nat (length history) < w32) by (unfold MAX_KEY_ROTATIONS in Hlen; lia).
  eapply decode_ok. unfold KeyHistoryCodec.parse. read_field. read_field. rewrite Nat2N.id.
  erewrite bind_ok by (apply require_true; by apply Nat.leb_le).
  erewrite bind_ok by (apply require_true; by apply Nat.eqb_eq).
  by apply parseEntries_put.
Qed.

Lemma AmmPool_roundtrip p :
  AmmPoolCodec.wf p -> AmmPool.isValid p = true ->
  AmmPoolCodec.deserializeState (AmmPoolCodec.serializeState p) = Some p.
Proof.
  intros [] Hv. unfold AmmPoolCodec.deserializeState, AmmPoolCodec.serializeState.
  autorewrite with wire. cbn [Nat.add Nat.eqb AmmPoolCodec.STATE_SIZE].
  eapply decode_ok. unfold AmmPoolCodec.parse. open_input. rewrite putBool_u8. read_all.
  rewrite bool_byte_nonzero. by destruct p.
Qed.

Lemma AmmPosition_roundtrip p :
  AmmPositionCodec.wf p -> AmmPosition.isValid p = true ->
  AmmPositionCodec.deserializeState (AmmPositionCodec.serializeState p) = Some p.
Proof.
  intros [] Hv. unfold AmmPositionCodec.deserializeState, AmmPositionCodec.serializeState.
  autorewrite with wire. cbn [Nat.add Nat.eqb AmmPositionCodec.STATE_SIZE].
  eapply decode_ok. unfold AmmPositionCodec.parse. open_input. read_all. by destruct p.
Qed.

Lemma Fill_roundtrip f :
  FillCodec.wf f -> Fill.isValid f = true ->
  FillCodec.deserializeState (FillCodec.serializeState f) = Some f.
Proof.
  intros [[? Hs]%source_byte ? ? ? ? ? ? ? ?] Hv.
  unfold FillCodec.deserializeState, FillCodec.serializeState.
  autorewrite with wire. cbn [Nat.add Nat.eqb FillCodec.STATE_SIZE].
  eapply decode_ok. unfold FillCodec.parse. open_input. read_all. cbn zeta. rewrite Hs.
  destruct f. by erewrite bind_ok by (by apply require_true).
Qed.

(** *** Lists of fixed-size records at offsets *)

Lemma length_serializeCondition c :
  length (OrderCodec.serializeCondition c) = OrderCodec.CONDITION_SIZE.
Proof. unfold OrderCodec.serializeCondition. by autorewrite with wire. Qed.

Lemma deserializeCondition_at pre c post :
  OrderCodec.wf_condition c -> OrderCondition.isValid c = true ->
  OrderCodec.deserializeCondition (pre ++ OrderCodec.serializeCondition c ++ post) (length pre) =
  Some (c, (length pre + OrderCodec.CONDITION_SIZE)%nat).
Proof.
  intros [[? Ht]%condition_byte ? ?] Hv. unfold OrderCodec.deserializeCondition.
  destruct (Nat.ltb_spec (length (pre ++ OrderCodec.serializeCondition c ++ post))
              (length pre + OrderCodec.CONDITION_SIZE)) as [Hl|_].
  { rewrite !length_app, length_serializeCondition in Hl. lia. }
  rewrite drop_app_length. unfold OrderCodec.serializeCondition. rewrite <-!app_assoc.
  change (putU8 ?x ++ ?l) with (u8 x :: l). cbn [nth drop]. unfold u8. rewrite N.mod_small by done.
  rewrite drop_0, (take_app_length' (putU64 _) _ 8) by (by rewrite length_putU64).
  rewrite (drop_app_length' (putU64 _) _ 8) by (by rewrite length_putU64).
  rewrite (take_app_length' (putU32 _) _ 4) by (by rewrite length_putU32). unfold putU64, putU32.
  rewrite !le_combine_split, Ht, !N.mod_small by done. destruct c; cbn in *. by rewrite Hv.
Qed.

Lemma conditionsFrom_put cs : forall pre,
  Forall OrderCodec.wf_condition cs -> forallb OrderCondition.isValid cs = true ->
  OrderCodec.conditionsFrom (pre ++ concat (map OrderCodec.serializeCondition cs))
    (length cs) (length pre) =
  Some (cs, length (pre ++ concat (map OrderCodec.serializeCondition cs))).
Proof.
  induction cs as [|c cs IH]; intros pre Hwf Hv.
  { cbn. by rewrite app_nil_r. }
  apply Forall_cons in Hwf as [Hc Hwf]. cbn in Hv. apply andb_true_iff in Hv as [Hvc Hv].
  cbn [length map concat OrderCodec.conditionsFrom].
  rewrite deserializeCondition_at by done. cbn [mbind option_bind].
  specialize (IH (pre ++ OrderCodec.serializeCondition c) Hwf Hv).
  rewrite length_app, length_serializeCondition, <-app_assoc in IH. by rewrite IH.
Qed.

Lemma length_conditions cs :
  length (concat (map OrderCodec.serializeCondition cs)) =
  (length cs * OrderCodec.CONDITION_SIZE)%nat.
Proof.
  induction cs as [|c cs IH]; [done|]. cbn [map concat length].
  rewrite length_app, length_serializeCondition, IH. lia.
Qed.

Lemma Order_isValid_conditions o :
  Order.isValid o = true ->
  (length (Order.conditions o) <= ORDER_MAX_CONDITIONS)%nat /\
  forallb OrderCondition.isValid (Order.conditions o) = true.
Proof.
  unfold Order.isValid, Order.condition_count. rewrite !andb_true_iff, !negb_true_iff, Nat.ltb_ge.
  tauto.
Qed.

Lemma Order_roundtrip o :
  OrderCodec.wf o -> Order.isValid o = true ->
  OrderCodec.deserializeState (OrderCodec.serializeState o) = Some o.
Proof.
  intros [] Hv. destruct (mode_byte o Hv) as [Hm Hm'].
  destruct (Order_isValid_conditions o Hv) as [Hlen Hcs].
  unfold OrderCodec.deserializeState, OrderCodec.serializeState. rewrite take_ge by done.
  set (fixed := putU64 (Order.id o) ++ putHash (Order.owner o) ++
    putU8 (OrderExecutionMode.to_byte (Order.mode o)) ++ putU32 (Order.pool_id o) ++
    putU32 (Order.sell_token o) ++ putU32 (Order.buy_token o) ++ putU64 (Order.sell_amount o) ++
    putU64 (Order.min_buy_amount o) ++ putU64 (Order.created_at_height o) ++
    putU64 (Order.order_expires_at_height o) ++ putU64 (Order.filled_amount o) ++
    putU8 (N.of_nat (Order.condition_count o))).
  assert (Hf : length fixed = OrderCodec.STATE_SIZE_FIXED) by (unfold fixed; by autorewrite with wire).
  set (data := _ ++ _).
  assert (Hd : data = fixed ++ concat (map OrderCodec.serializeCondition (Order.conditions o))).
  { unfold data, fixed. by rewrite <-!app_assoc. }
  assert (Hl : length data = (OrderCodec.STATE_SIZE_FIXED +
            length (Order.conditions o) * OrderCodec.CONDITION_SIZE)%nat).
  { by rewrite Hd, length_app, length_conditions, Hf. }
  destruct (Nat.ltb_spec (length data) OrderCodec.STATE_SIZE_FIXED); [lia|].
  assert (N.of_nat (Order.condition_count o) < w8).
  { unfold Order.condition_count. unfold ORDER_MAX_CONDITIONS in Hlen. lia. }
  eapply decode_ok. unfold OrderCodec.parse. unfold data at 3. read_all.
  cbn zeta. rewrite Nat2N.id. unfold Order.condition_count.
  erewrite bind_ok by (apply require_true; by apply Nat.leb_le).
  erewrite bind_ok by (apply require_true; by apply Nat.eqb_eq).
  erewrite bind_ok by (unfold fetch; rewrite Hd, <-Hf, conditionsFrom_put by done; reflexivity). cbv beta iota.
  erewrite bind_ok by (apply require_true; rewrite Hd; by apply Nat.eqb_eq).
  rewrite Hm'. destruct o. by erewrite bind_ok by (by apply require_true).
Qed.

Lemma length_serializeFill f : length (FillCodec.serializeState f) = FillCodec.STATE_SIZE.
Proof. unfold FillCodec.serializeState. by autorewrite with wire. Qed.

Lemma fillsFrom_put fs : forall pre,
  Forall (fun f => FillCodec.wf f /\ Fill.isValid f = true) fs ->
  ReceiptCodec.fillsFrom (pre ++ concat (map FillCodec.serializeState fs)) (length fs) (length pre) =
  Some fs.
Proof.
  induction fs as [|f fs IH]; intros pre Hwf; [done|].
  apply Forall_cons in Hwf as [[Hf Hv] Hwf]. cbn [length map concat ReceiptCodec.fillsFrom].
  rewrite drop_app_length, take_app_length' by (by rewrite length_serializeFill).
  rewrite Fill_roundtrip by done. cbn [mbind option_bind].
  specialize (IH (pre ++ FillCodec.serializeState f) Hwf).
  rewrite length_app, length_serializeFill, <-app_assoc in IH. by rewrite IH.
Qed.

Lemma length_fills fs :
  length (concat (map FillCodec.serializeState fs)) = (length fs * FillCodec.STATE_SIZE)%nat.
Proof.
  induction fs as [|f fs IH]; [done|]. cbn [map concat length].
  rewrite length_app, length_serializeFill, IH. lia.
Qed.

Lemma status_byte r :
  Receipt.isValid r = true ->
  ReceiptStatus.of_byte (u8 (ReceiptStatus.to_byte (Receipt.status r))) = Receipt.status r.
Proof. unfold Receipt.isValid. by destruct (Receipt.status r). Qed.

(** Receipts survive storage.  A receipt of at most 256 valid fills decodes
    from its stored bytes to itself, fills in order. *)
Theorem Receipt_roundtrip (r : Receipt.t) :
  ReceiptCodec.wf r -> Receipt.isValid r = true ->
  ReceiptCodec.deserializeState (ReceiptCodec.serializeState r) = Some r.
Proof.
  intros [Hfee Hcount Hfills] Hv. pose proof (status_byte r Hv) as Hs.
  set (header := putU8 (ReceiptStatus.to_byte (Receipt.status r)) ++ putU64 (Receipt.fee_paid r) ++
    putU32 (N.of_nat (length (Receipt.fills r)))).
  assert (Hh : length header = (ReceiptCodec.STATE_SIZE + 4)%nat)
    by (unfold header; by autorewrite with wire).
  assert (Hd : ReceiptCodec.serializeState r =
               header ++ concat (map FillCodec.serializeState (Receipt.fills r))).
  { unfold ReceiptCodec.serializeState, header. by rewrite <-!app_assoc. }
  assert (Hl : length (ReceiptCodec.serializeState r) =
    (ReceiptCodec.STATE_SIZE + 4 + length (Receipt.fills r) * FillCodec.STATE_SIZE)%nat).
  { by rewrite Hd, length_app, length_fills, Hh. }
  unfold ReceiptCodec.deserializeState. rewrite Hl.
  destruct (Nat.eqb_spec (ReceiptCodec.STATE_SIZE + 4 + length (Receipt.fills r) *
    FillCodec.STATE_SIZE) ReceiptCodec.STATE_SIZE); [lia|].
  destruct (Nat.ltb_spec (ReceiptCodec.STATE_SIZE + 4 + length (Receipt.fills r) *
    FillCodec.STATE_SIZE) (ReceiptCodec.STATE_SIZE + 4)); [lia|].
  assert (H9 : le_combine (take 4 (drop 9 (ReceiptCodec.serializeState r))) =
               N.of_nat (length (Receipt.fills r))).
  { unfold ReceiptCodec.serializeState. rewrite app_assoc.
    rewrite drop_app_length' by (by autorewrite with wire).
    rewrite (take_app_length' (putU32 _)) by (by rewrite length_putU32). unfold putU32.
    rewrite le_combine_split, N.mod_small; [done|].
    unfold ReceiptCodec.MAX_FILLS_PER_RECEIPT, OrderBook.MAX_BOOK_LEVELS_PER_TAKER in Hcount.
    change (w8 ^ N.of_nat 4) with w32. lia. }
  assert (H1 : le_combine (take 8 (drop 1 (ReceiptCodec.serializeState r))) = Receipt.fee_paid r).
  { unfold ReceiptCodec.serializeState.
    rewrite (drop_app_length' (putU8 _)) by done.
    rewrite (take_app_length' (putU64 _)) by (by rewrite length_putU64). unfold putU64.
    by rewrite le_combine_split, N.mod_small. }
  rewrite H9, H1, Nat2N.id. cbv zeta. rewrite Nat.eqb_refl. cbn [negb].
  destruct (Nat.ltb_spec ReceiptCodec.MAX_FILLS_PER_RECEIPT (length (Receipt.fills r))); [lia|].
  rewrite Hd, <-Hh, fillsFrom_put by done. cbn [mbind option_bind].
  rewrite <-Hd. change (nth 0 (ReceiptCodec.serializeState r) 0) with
    (u8 (ReceiptStatus.to_byte (Receipt.status r))).
  rewrite Hs. destruct r; cbn in Hv |- *. by rewrite Hv.
Qed.

Lemma Receipt_roundtrip_witness :
  let f := Fill.mk FillSource.Limit 1 2 0 1000 2000 20000000000 0 5 in
  let r := Receipt.mk ReceiptStatus.Success 10 [f; f] in
  ReceiptCodec.deserializeState (ReceiptCodec.serializeState r) = Some r.
Proof.
  apply Receipt_roundtrip; [|reflexivity].
  split; [reflexivity|cbn; unfold ReceiptCodec.MAX_FILLS_PER_RECEIPT, OrderBook.MAX_BOOK_LEVELS_PER_TAKER; lia|].
  repeat constructor.
Defined.

Lemma Nft_isValid_uri n :
  NftInfo.isValid n = true -> (length (NftInfo.metadata_uri n) <= NFT_URI_MAX)%nat.
Proof. unfold NftInfo.isValid. rewrite !andb_true_iff, !negb_true_iff, Nat.ltb_ge. tauto. Qed.

Lemma bool_byte_le1 (b : bool) : ((if b then 1 else 0) <=? 1) = true.
Proof. by destruct b. Qed.

Lemma bool_byte_eq1 (b : bool) : ((if b then 1 else 0) =? 1) = b.
Proof. by destruct b. Qed.

Lemma Nft_roundtrip n :
  NftCodec.wf n -> NftInfo.isValid n = true ->
  NftCodec.deserializeState (NftCodec.serializeState n) = Some n.
Proof.
  intros [] Hv. pose proof (Nft_isValid_uri n Hv).
  unfold NftCodec.deserializeState, NftCodec.serializeState.
  eapply decode_ok. unfold NftCodec.parse. open_input. rewrite !putBool_u8. read_all.
  erewrite bind_ok by (apply require_true; by destruct (isNull (NftInfo.metadata_hash n))).
  read_all. erewrite bind_ok by (apply require_true, bool_byte_le1). read_all.
  rewrite bool_byte_eq1, clamp_id by done. destruct n. by erewrite bind_ok by (by apply require_true).
Qed.

Lemma NftCollection_isValid_strings c :
  NftCollection.isValid c = true ->
  (length (NftCollection.name c) <= NFT_COLLECTION_NAME_MAX)%nat /\
  (length (NftCollection.symbol c) <= NFT_COLLECTION_SYMBOL_MAX)%nat /\
  (length (NftCollection.base_uri c) <= NFT_URI_MAX)%nat.
Proof.
  unfold NftCollection.isValid.
  rewrite !andb_true_iff, !negb_true_iff, !orb_false_iff, !Nat.ltb_ge. tauto.
Qed.

Lemma NftCollection_roundtrip c :
  NftCollectionCodec.wf c -> NftCollection.isValid c = true ->
  NftCollectionCodec.deserializeState (NftCollectionCodec.serializeState c) = Some c.
Proof.
  intros [] Hv. destruct (NftCollection_isValid_strings c Hv) as (? & ? & ?).
  unfold NftCollectionCodec.deserializeState, NftCollectionCodec.serializeState.
  eapply decode_ok. unfold NftCollectionCodec.parse. open_input. rewrite !putBool_u8. read_all.
  erewrite bind_ok by (apply require_true, bool_byte_le1). read_all.
  rewrite bool_byte_eq1, !clamp_id by done.
  destruct c. by erewrite bind_ok by (by apply require_true).
Qed.

(** *** Transactions *)

Lemma isWellFormed_payload tx :
  Transaction.isWellFormed tx = true ->
  (length (Transaction.payload tx) <= TX_MAX_PAYLOAD_SIZE)%nat.
Proof.
  unfold Transaction.isWellFormed. intros Hw. apply Nat.ltb_ge.
  destruct (TX_MAX_PAYLOAD_SIZE <? length (Transaction.payload tx))%nat; [|done].
  by repeat case_match.
Qed.

Lemma Transaction_roundtrip (tx : Transaction.t) :
  TransactionCodec.wf tx -> Transaction.isWellFormed tx = true ->
  TransactionCodec.deserialize (TransactionCodec.serialize tx) = Some tx.
Proof.
  intros [? ? [? Ht]%tx_type_byte ? ? ? ? ? ? ? Hsig] Hv.
  pose proof (isWellFormed_payload tx Hv) as Hp.
  assert (N.of_nat (length (Transaction.payload tx)) < w32).
  { assert (N.of_nat TX_MAX_PAYLOAD_SIZE < w32) by reflexivity. lia. }
  unfold TransactionCodec.deserialize, TransactionCodec.serialize,
    TransactionCodec.serializeForSigning.
  eapply decode_ok. unfold TransactionCodec.parse. open_input. read_all. rewrite Nat2N.id.
  erewrite bind_ok by (apply require_true; by apply Nat.leb_le).
  erewrite bind_ok by (by apply readVector_put). erewrite bind_ok by (by apply readVector_put).
  read_all. rewrite Ht. destruct tx. by erewrite bind_ok by (by apply require_true).
Qed.

Definition wireTx : Transaction.t :=
  Transaction.mk CURRENT_TRANSACTION_VERSION 7 TxType.Swap 3 0 11 12 5 900 10 [1; 2; 3] (replicate 64 9).

(** Invert one read of a successful run: [E] says what it consumed if the flag
    is clear afterwards. *)
Ltac invert_read H :=
  let v := fresh "v" in let r := fresh "r" in let E := fresh "E" in let W := fresh "W" in
  apply bind_inv in H as (v & r & E & H);
  lazymatch type of E with
  | readU64 _ = _ => apply reads_U64 in E as [W E]; [|assumption]
  | readU32 _ = _ => apply reads_U32 in E as [W E]; [|assumption]
  | readU16 _ = _ => apply reads_U16 in E as [W E]; [|assumption]
  | readU8 _ = _ => apply reads_U8 in E as [W E]; [|assumption]
  | readHash _ = _ => apply reads_hash in E as [W E]; [|assumption]
  | readVector _ _ = _ => apply reads_vector in E as [W E]; [|assumption]
  | checkOk _ = _ => apply checkOk_inv in E as [E ->]
  | require _ _ = _ => apply require_inv in E as [E ->]
  | remaining _ = _ => injection E as <- <-
  end.

(** Walk the facts backwards from a clear flag. *)
Ltac clear_flags :=
  repeat match goal with
  | E : error ?r = false -> _, F : error ?r = false |- _ =>
    specialize (E F); destruct_and! E
  end.

(** The kernel unfolds the decoder before the monad's operators. *)
#[local] Strategy expand [TransactionCodec.parse].

Lemma Transaction_parse_inv r0 tx rf :
  wf_reader r0 -> TransactionCodec.parse r0 = (Ok tx, rf) -> TransactionCodec.serialize tx = rest r0.
Proof.
  intros W H. unfold TransactionCodec.parse in H. do 20 invert_read H.
  injection H as <- <-. clear_flags. apply Nat.eqb_eq, length_zero_iff_nil in E16.
  unfold TransactionCodec.serialize, TransactionCodec.serializeForSigning.
  cbn [Transaction.version Transaction.chain_id Transaction.tx_type Transaction.nonce
    Transaction.valid_until_height Transaction.from Transaction.to Transaction.token_id
    Transaction.amount Transaction.fee Transaction.payload Transaction.signature].
  rewrite TxType.TxType_to_of_byte, H4, N2Nat.id, <-!app_assoc.
  rewrite E16, app_nil_r in H2. by repeat match goal with E : rest _ = _ |- _ => rewrite E; clear E end.
Qed.

(** One encoding per transaction.  Whatever bytes the decoder accepts are
    exactly the bytes the encoder writes for the transaction it returns, so a
    transaction (and its signing hash) has a single wire form. *)
Theorem Transaction_canonical (data : bytes) (tx : Transaction.t) :
  Forall wf_byte data -> TransactionCodec.deserialize data = Some tx ->
  TransactionCodec.serialize tx = data.
Proof.
  intros Hw. unfold TransactionCodec.deserialize, decode.
  destruct (TransactionCodec.parse _) as [[out| |] rf] eqn:H; cbn [fst]; try done. intros [= ->].
  by apply Transaction_parse_inv in H.
Qed.

Lemma Transaction_canonical_witness :
  exists tx, TransactionCodec.serialize tx = TransactionCodec.serialize wireTx /\ Transaction.fee tx = 10.
Proof.
  exists wireTx. split; [|reflexivity].
  apply (Transaction_canonical (TransactionCodec.serialize wireTx) wireTx); [|vm_compute; reflexivity].
  apply (bool_decide_unpack _). vm_compute. exact I.
Defined.

(** ** What the store asks of a record's codec *)

(** An encoder and a decoder of a record type, and the records they are for. *)
Class RecordCodec (A : Type) := {
  encodeRecord : A -> bytes;
  decodeRecord : bytes -> option A;
  storable : A -> Prop;
  decode_encodeRecord a : storable a -> decodeRecord (encodeRecord a) = Some a;
}.

#[export] Program Instance Account_codec : RecordCodec Account.t := {
  encodeRecord := AccountCodec.serializeState; decodeRecord := AccountCodec.deserializeState;
  storable := AccountCodec.wf; decode_encodeRecord := Account_roundtrip }.
#[export] Program Instance TokenInfo_codec : RecordCodec TokenInfo.t := {
  encodeRecord := TokenInfoCodec.serializeState; decodeRecord := TokenInfoCodec.deserializeState;
  storable := TokenInfoCodec.wf; decode_encodeRecord := TokenInfo_roundtrip }.
#[export] Program Instance Validator_codec : RecordCodec ValidatorInfo.t := {
  encodeRecord := ValidatorCodec.serializeState; decodeRecord := ValidatorCodec.deserializeState;
  storable := ValidatorCodec.wf; decode_encodeRecord := Validator_roundtrip }.
#[export] Program Instance KeyHistory_codec : RecordCodec (list KeyRotation.t) := {
  encodeRecord := KeyHistoryCodec.encodeKeyHistory; decodeRecord := KeyHistoryCodec.decodeKeyHistory;
  storable h := Forall KeyHistoryCodec.wf h /\ (length h <= MAX_KEY_ROTATIONS)%nat }.
Next Obligation. intros h [? ?]. by apply KeyHistory_roundtrip. Qed.
#[export] Program Instance AmmPool_codec : RecordCodec AmmPool.t := {
  encodeRecord := AmmPoolCodec.serializeState; decodeRecord := AmmPoolCodec.deserializeState;
  storable p := AmmPoolCodec.wf p /\ AmmPool.isValid p = true }.
Next Obligation. intros p [? ?]. by apply AmmPool_roundtrip. Qed.
#[export] Program Instance AmmPosition_codec : RecordCodec AmmPosition.t := {
  encodeRecord := AmmPositionCodec.serializeState; decodeRecord := AmmPositionCodec.deserializeState;
  storable p := AmmPositionCodec.wf p /\ AmmPosition.isValid p = true }.
Next Obligation. intros p [? ?]. by apply AmmPosition_roundtrip. Qed.
#[export] Program Instance Order_codec : RecordCodec Order.t := {
  encodeRecord := OrderCodec.serializeState; decodeRecord := OrderCodec.deserializeState;
  storable o := OrderCodec.wf o /\ Order.isValid o = true }.
Next Obligation. intros o [? ?]. by apply Order_roundtrip. Qed.
#[export] Program Instance Nft_codec : RecordCodec NftInfo.t := {
  encodeRecord := NftCodec.serializeState; decodeRecord := NftCodec.deserializeState;
  storable n := NftCodec.wf n /\ NftInfo.isValid n = true }.
Next Obligation. intros n [? ?]. by apply Nft_roundtrip. Qed.
#[export] Program Instance NftCollection_codec : RecordCodec NftCollection.t := {
  encodeRecord := NftCollectionCodec.serializeState; decodeRecord := NftCollectionCodec.deserializeState;
  storable c := NftCollectionCodec.wf c /\ NftCollection.isValid c = true }.
Next Obligation. intros c [? ?]. by apply NftCollection_roundtrip. Qed.
