(* ===== verification/Matching.v ===== *)
(** * Passive matching

    src/src/Core/MatchingEngine.cpp: a passive taker walks the opposite side of
    its pair's book, best price first, at most [MAX_BOOK_LEVELS_PER_TAKER]
    rows, and fills each crossing maker at the maker's price.  The loop is a
    fold over the collected candidates; [break] is [None]. *)

From S2P Require Import Prelude Types OrderBook StateAccess.

(** [PairFrame] and [frameOf]. *)
Record PairFrame := mkPairFrame { base_token : N; quote_token : N }.

Definition frameOf (o : Order.t) : PairFrame :=
  mkPairFrame (N.min (Order.sell_token o) (Order.buy_token o))
              (N.max (Order.sell_token o) (Order.buy_token o)).

Definition sellsBase (o : Order.t) : bool := Order.sell_token o <? Order.buy_token o.

Definition sellAmountToBase (sell_amount : N) (order_sells_base : bool) (price : N) : N :=
  if order_sells_base then sell_amount
  else if price =? 0 then 0
  else
    let prod := u128 (sell_amount * OrderBook.BOOK_PRICE_SCALE) in
    let q := prod / price in
    if w64 - 1 <? q then 0 else u64 q.

Definition baseToSellAmount (base_amount : N) (order_sells_base : bool) (price : N) : N :=
  if order_sells_base then base_amount
  else
    let prod := u128 (base_amount * price) in
    let q := prod / OrderBook.BOOK_PRICE_SCALE in
    if w64 - 1 <? q then 0 else u64 q.

Definition credit (owner : Address) (token_id amount : N) (st : State) : State :=
  if amount =? 0 then st
  else if isNull owner then st
  else addTokens owner token_id amount st.

Definition recordFill (sell_token_amount : N) (o : Order.t) : Order.t :=
  o <| Order.filled_amount := Order.filled_amount o +64 sell_token_amount |>.

(** [MatchOutcome] (Core/MatchingEngine.h). *)
Record MatchOutcome := mkMatchOutcome {
  mo_fills : list Fill.t;
  mo_total_base : N;
  mo_total_quote : N;
  mo_taker_rests : bool;
}.

(** The variables the loop updates. *)
Record MatchAcc := mkMatchAcc {
  ma_state : State;
  ma_taker : Order.t;
  ma_fills : list Fill.t;
  ma_total_base : N;
  ma_total_quote : N;
}.
#[global] Instance eta_MatchAcc : Eta MatchAcc := fun x =>
  mkMatchAcc (ma_state x) (ma_taker x) (ma_fills x) (ma_total_base x) (ma_total_quote x).

Section matching.
Context `{Crypto}.

Definition cancelSelfTrade (maker : Order.t) (st : State) : State := refundOrder maker true st.

(** The quantities of one fill: base units, and each side's sell token.  [None]
    is a [break]. *)
Definition fillQuantities (taker maker : Order.t) (price : N) : option (N * N * N) :=
  let taker_remaining_base :=
    sellAmountToBase (Order.remainingAmount taker) (sellsBase taker) price in
  let maker_remaining_base :=
    sellAmountToBase (Order.remainingAmount maker) (sellsBase maker) price in
  let qty_base := N.min taker_remaining_base maker_remaining_base in
  if qty_base =? 0 then None
  else
    let qty_taker_sell := baseToSellAmount qty_base (sellsBase taker) price in
    let qty_maker_sell := baseToSellAmount qty_base (sellsBase maker) price in
    if (qty_taker_sell =? 0) || (qty_maker_sell =? 0) then None
    else Some (qty_base, qty_taker_sell, qty_maker_sell).

(** Both sides' lock and balance movements, and the maker's record. *)
Definition settleFill (taker maker : Order.t) (qty_taker_sell qty_maker_sell : N)
    (st : State) : State :=
  let maker := recordFill qty_maker_sell maker in
  let st := credit (Order.owner taker) (Order.buy_token taker) qty_maker_sell st in
  let st := credit (Order.owner maker) (Order.buy_token maker) qty_taker_sell st in
  if Order.isFullyFilled maker then deleteOrder (Order.id maker) (removeFromOrderBook maker st)
  else putOrder maker st.

(** Execute the fill, push the record and index it. *)
Definition executeFill (frame : PairFrame) (height tx_index : N) (maker : Order.t)
    (price : N) (q : N * N * N) (acc : MatchAcc) : MatchAcc :=
  let '(qty_base, qty_taker_sell, qty_maker_sell) := q in
  let taker := ma_taker acc in
  let qty_quote := if sellsBase taker then qty_maker_sell else qty_taker_sell in
  let st := settleFill taker maker qty_taker_sell qty_maker_sell (ma_state acc) in
  let f := Fill.mk FillSource.Limit (Order.id maker) (Order.id taker) 0 qty_base qty_quote
             price (base_token frame) (quote_token frame) in
  let fill_index := u16 (N.of_nat (length (ma_fills acc))) in
  mkMatchAcc (indexFill f height tx_index fill_index st)
             (recordFill qty_taker_sell taker)
             (ma_fills acc ++ [f])
             (ma_total_base acc +64 qty_base)
             (ma_total_quote acc +64 qty_quote).

(** One iteration of the candidate loop. *)
Definition matchStep (frame : PairFrame) (height tx_index taker_limit taker_side : N)
    (acc : MatchAcc) (candidate : N * N) : option MatchAcc :=
  let '(maker_id, maker_price) := candidate in
  let taker := ma_taker acc in
  let st := ma_state acc in
  if Order.isFullyFilled taker then None
  else if negb (OrderBook.crosses taker_limit maker_price taker_side) then None
  else match getOrder maker_id st with
  | None => Some acc
  | Some maker =>
    if isNull (Order.owner maker) then
      Some (acc <| ma_state := deleteOrder (Order.id maker) (removeFromOrderBook maker st) |>)
    else if Order.owner maker =? Order.owner taker then
      Some (acc <| ma_state := cancelSelfTrade maker st |>)
    else match OrderBook.canonicalPrice maker with
    | None => Some acc
    | Some true_maker_price =>
      if negb (OrderBook.crosses taker_limit true_maker_price taker_side) then None
      else match fillQuantities taker maker true_maker_price with
      | None => None
      | Some q => Some (executeFill frame height tx_index maker true_maker_price q acc)
      end
    end
  end.

Fixpoint matchLoop (frame : PairFrame) (height tx_index taker_limit taker_side : N)
    (acc : MatchAcc) (candidates : list (N * N)) : MatchAcc :=
  match candidates with
  | [] => acc
  | c :: rest =>
    match matchStep frame height tx_index taker_limit taker_side acc c with
    | None => acc
    | Some acc => matchLoop frame height tx_index taker_limit taker_side acc rest
    end
  end.

(** The (order id, price) pairs the book visitor collects before the loop. *)
Definition collectCandidates (taker : Order.t) (st : State) : list (N * N) :=
  let frame := frameOf taker in
  let maker_side := if sellsBase taker then 1 else 0 in
  take OrderBook.MAX_BOOK_LEVELS_PER_TAKER
    (map (fun '(order_id, price, _) => (order_id, price))
      (bookLevels (base_token frame) (quote_token frame) maker_side st)).

(** Persist the taker: delete it if filled, else store it and enter the book. *)
Definition restTaker (taker : Order.t) (st : State) : bool * State :=
  if Order.isFullyFilled taker then (false, deleteOrder (Order.id taker) st)
  else
    let st := putOrder taker st in
    let '(sequence, st) := nextOrderSequence st in
    (true, addToOrderBook taker sequence st).

(** Returns the outcome, the taker as updated through the reference, and the
    state. *)
Definition matchPassiveOrder (taker : Order.t) (height tx_index : N) (st : State)
    : MatchOutcome * Order.t * State :=
  let nothing := (mkMatchOutcome [] 0 0 false, taker, st) in
  if (Order.id taker =? INVALID_ID) || isNull (Order.owner taker) ||
     Order.isFullyFilled taker ||
     negb (bool_decide (Order.mode taker = OrderExecutionMode.Passive))
  then nothing
  else match OrderBook.canonicalPrice taker with
  | None => nothing
  | Some taker_limit =>
    let taker_side := if sellsBase taker then 0 else 1 in
    let acc := matchLoop (frameOf taker) height tx_index taker_limit taker_side
                 (mkMatchAcc st taker [] 0 0) (collectCandidates taker st) in
    let '(rests, st) := restTaker (ma_taker acc) (ma_state acc) in
    (mkMatchOutcome (ma_fills acc) (ma_total_base acc) (ma_total_quote acc) rests,
     ma_taker acc, st)
  end.
End matching.
