(* ===== verification/ExecBase.v ===== *)
(** * Transaction executor: helpers

    The anonymous-namespace helpers and the member helpers of
    src/src/Core/TransactionExecutor.cpp.

    A handler returns the fills its receipt carries; a rejection is the early
    [return failure].  The state reached by a rejected handler is kept: the
    executor does not roll back. *)

From S2P Require Import Prelude Types OrderBook StateAccess Codec.

Abbreviation Handler := (Exec State (list Fill.t)).

(** [return {ReceiptStatus::Success, tx.fee};] *)
Definition success : Handler := mret [].

Definition readU64GlobalInternal (name : string) (st : State) : N := getGlobalU64 name st.
Definition writeU64GlobalInternal (name : string) (v : N) (st : State) : State :=
  putGlobalU64 name v st.

(** [if (!debitToken(...)) return failure;] *)
Definition debitToken (addr : Address) (token_id amount : N) : Exec State unit :=
  enough ← gets (hasTokens addr token_id amount);
  require enough;;
  modify (subTokens addr token_id amount).

Definition creditToken (addr : Address) (token_id amount : N) (st : State) : State :=
  if amount =? 0 then st else addTokens addr token_id amount st.

(** Payload reads; the callers have checked the size. *)
Definition byteAt (p : bytes) (off : nat) : N := u8 (nth off p 0).
Definition slice (p : bytes) (off n : nat) : bytes := take n (drop off p).
Definition readU16At (p : bytes) (off : nat) : N := u16 (le_combine (slice p off 2)).
Definition readU32At (p : bytes) (off : nat) : N := u32 (le_combine (slice p off 4)).
Definition readU64At (p : bytes) (off : nat) : N := u64 (le_combine (slice p off 8)).
(** [memcpy] of 32 bytes into a [ByteArray<32>]. *)
Definition readHashAt (p : bytes) (off : nat) : N := be_combine (slice p off 32).

(** ** Validation, fee and nonce *)

Definition verifySignature `{Crypto} (tx : Transaction.t) : bool :=
  ed25519_verify (TransactionCodec.signingHash tx) (Transaction.from tx) (Transaction.signature tx).

Definition verifyNonce (tx : Transaction.t) (st : State) : bool :=
  Account.nonce (getAccount (Transaction.from tx) st) =? Transaction.nonce tx.

Definition checkExpiry (tx : Transaction.t) (ctx : Ctx.t) : bool :=
  if Transaction.valid_until_height tx =? 0 then true
  else Ctx.current_height ctx <=? Transaction.valid_until_height tx.

(** [if (!chargeFee(state, tx)) return failure;] *)
Definition chargeFee (tx : Transaction.t) : Exec State unit :=
  sender ← gets (getAccount (Transaction.from tx));
  require (Transaction.fee tx <=? Account.balance sender);;
  modify (putAccount (Transaction.from tx)
    (sender <| Account.balance := Account.balance sender -64 Transaction.fee tx |>)).

Definition refundFee (tx : Transaction.t) (st : State) : State :=
  let sender := getAccount (Transaction.from tx) st in
  putAccount (Transaction.from tx)
    (sender <| Account.balance := Account.balance sender +64 Transaction.fee tx |>) st.

Definition bumpNonce (tx : Transaction.t) (st : State) : State :=
  let sender := getAccount (Transaction.from tx) st in
  putAccount (Transaction.from tx) (sender <| Account.nonce := Account.nonce sender +64 1 |>) st.

(** ** Active set (8 bytes per id) *)

Fixpoint decodeIds (n : nat) (b : bytes) : list N :=
  match n with
  | O => []
  | S n => le_combine (take 8 b) :: decodeIds n (drop 8 b)
  end.

Definition loadActiveSet (st : State) : list N :=
  match getGlobal "active_set" st with
  | None => []
  | Some set_bytes => decodeIds (length set_bytes / 8) set_bytes
  end.

Definition encodeIds (ids : list N) : bytes := concat (map (le_split 8) ids).

Definition saveActiveSet (active_set : list N) (st : State) : State :=
  putGlobal "active_set" (encodeIds active_set) st.

(** The counter idiom [next_id = 1; next_id |= bytes...] of token, pool,
    position, NFT and collection creation: the stored counter with bit 0 set. *)
Definition orCounter (name : string) (st : State) : N :=
  match getGlobal name st with
  | None => 1
  | Some b => N.lor 1 (le_combine (take 8 b))
  end.

#[export] Hint Unfold success : exec.

Lemma atomic_debitToken addr token_id amount : atomic (debitToken addr token_id amount).
Proof. unfold debitToken. solve_atomic. Qed.

Lemma atomic_chargeFee tx : atomic (chargeFee tx).
Proof. unfold chargeFee. solve_atomic. Qed.

(** The active set round-trips through its encoding. *)
Lemma decode_encodeIds ids :
  Forall (fun i => i < w64) ids -> decodeIds (length (encodeIds ids) / 8) (encodeIds ids) = ids.
Proof.
  intros Hids. assert (Hl : length (encodeIds ids) = (length ids * 8)%nat).
  { unfold encodeIds. clear. induction ids as [|i ids IH]; [done|]. cbn [map concat length].
    rewrite length_app, length_le_split, IH. lia. }
  rewrite Hl, Nat.div_mul by lia. clear Hl. unfold encodeIds.
  induction Hids as [|i ids Hi Hids IH]; [done|]. cbn [length decodeIds map concat].
  rewrite take_app_length', drop_app_length' by (by rewrite length_le_split).
  rewrite IH, le_combine_split, N.mod_small by done. done.
Qed.

Lemma loadActiveSet_save ids st :
  Forall (fun i => i < w64) ids -> loadActiveSet (saveActiveSet ids st) = ids.
Proof.
  intros. unfold loadActiveSet, saveActiveSet, getGlobal, putGlobal. cbn.
  rewrite lookup_insert_eq. by apply decode_encodeIds.
Qed.
