(* ===== verification/ExecAccounts.v ===== *)
(** * Transaction executor: accounts, validators, tokens

    Handlers of src/src/Core/TransactionExecutor.cpp for transfers, staking,
    validator registration and key rotation, and custom tokens. *)

From S2P Require Import Prelude Types OrderBook StateAccess Codec ExecBase.

(** ** Transfers and staking *)

Definition executeTransfer (tx : Transaction.t) (ctx : Ctx.t) : Handler :=
  require (negb (Transaction.amount tx =? 0));;
  require (negb (isNull (Transaction.to tx)));;
  if Transaction.token_id tx =? NATIVE_TOKEN_ID then
    sender ← gets (getAccount (Transaction.from tx));
    require (Transaction.amount tx <=? Account.balance sender);;
    modify (putAccount (Transaction.from tx)
      (sender <| Account.balance := Account.balance sender -64 Transaction.amount tx |>));;
    receiver ← gets (getAccount (Transaction.to tx));
    let receiver := receiver
      <| Account.balance := Account.balance receiver +64 Transaction.amount tx |>
      <| Account.created_at_height :=
           if Account.created_at_height receiver =? 0 then Ctx.current_height ctx
           else Account.created_at_height receiver |> in
    modify (putAccount (Transaction.to tx) receiver);;
    success
  else
    sender_balance ← gets (getTokenBalance (Transaction.from tx) (Transaction.token_id tx));
    require (Transaction.amount tx <=? sender_balance);;
    modify (putTokenBalance (Transaction.from tx) (Transaction.token_id tx)
      (sender_balance -64 Transaction.amount tx));;
    receiver_balance ← gets (getTokenBalance (Transaction.to tx) (Transaction.token_id tx));
    modify (putTokenBalance (Transaction.to tx) (Transaction.token_id tx)
      (receiver_balance +64 Transaction.amount tx));;
    success.

Definition executeOptInStaking (tx : Transaction.t) (_ : Ctx.t) : Handler :=
  acct ← gets (getAccount (Transaction.from tx));
  let acct := acct <| Account.staking_opted_out := false |> in
  let acct := Account.recalculateStaked AUTO_STAKE_THRESHOLD acct in
  modify (putAccount (Transaction.from tx) acct);;
  success.

Definition executeOptOutStaking (tx : Transaction.t) (_ : Ctx.t) : Handler :=
  acct ← gets (getAccount (Transaction.from tx));
  let acct := acct <| Account.staking_opted_out := true |> in
  let acct := Account.recalculateStaked AUTO_STAKE_THRESHOLD acct in
  modify (putAccount (Transaction.from tx) acct);;
  success.

Definition executeClaimRewards (tx : Transaction.t) (_ : Ctx.t) : Handler :=
  acct ← gets (getAccount (Transaction.from tx));
  let acct := acct <| Account.balance := Account.balance acct +64 Account.pending_rewards acct |>
                   <| Account.pending_rewards := 0 |> in
  let acct := Account.recalculateStaked AUTO_STAKE_THRESHOLD acct in
  modify (putAccount (Transaction.from tx) acct);;
  success.

(** ** Validators *)

(** [next_validator_id]: absent means 1; at most eight bytes are read. *)
Definition nextValidatorId (st : State) : N :=
  le_combine (take 8 (default [1; 0; 0; 0; 0; 0; 0; 0] (getGlobal "next_validator_id" st))).

Definition newValidator (next_id : N) (acct : Account.t) (tx : Transaction.t) (ctx : Ctx.t)
    : ValidatorInfo.t :=
  ValidatorInfo.fresh
    <| ValidatorInfo.id := next_id |>
    <| ValidatorInfo.reward_address := Transaction.from tx |>
    <| ValidatorInfo.owner := Transaction.from tx |>
    <| ValidatorInfo.stake := Account.balance acct |>
    <| ValidatorInfo.registered_at_height := Ctx.current_height ctx |>
    <| ValidatorInfo.uptime_score := 10000 |>
    <| ValidatorInfo.is_seed := false |>
    <| ValidatorInfo.is_active := false |>
    <| ValidatorInfo.consensus_key := readHashAt (Transaction.payload tx) 0 |>.

Definition executeRegisterValidator (tx : Transaction.t) (ctx : Ctx.t) : Handler :=
  acct ← gets (getAccount (Transaction.from tx));
  require (VALIDATOR_MIN_STAKE <=? Account.balance acct);;
  require (length (Transaction.payload tx) =? 32)%nat;;
  existing ← gets (getValidatorByAddress (Transaction.from tx));
  require (negb (bool_decide (is_Some existing)));;
  next_id ← gets nextValidatorId;
  let validator := newValidator next_id acct tx ctx in
  modify (putValidator validator);;
  modify (putValidatorByAddress (ValidatorInfo.reward_address validator)
    (ValidatorInfo.id validator));;
  modify (putValidatorKeyHistory (ValidatorInfo.id validator)
    [KeyRotation.mk (ValidatorInfo.effectiveConsensusKey validator) (Ctx.current_height ctx) 0]);;
  modify (putGlobal "next_validator_id" (le_split 8 (next_id +64 1)));;
  success.

Definition executeUnregisterValidator (tx : Transaction.t) (ctx : Ctx.t) : Handler :=
  validator_id ← fetch (getValidatorByAddress (Transaction.from tx));
  validator ← fetch (getValidator validator_id);
  require (negb (ValidatorInfo.is_seed validator));;
  active_set ← gets loadActiveSet;
  (if bool_decide (validator_id ∈ active_set) then
     let new_set := filter (fun vid => vid <> validator_id) active_set in
     require (ACTIVE_SET_MIN <=? N.of_nat (length new_set));;
     modify (saveActiveSet new_set)
   else mret ());;
  require (ValidatorInfo.pending_unbond_height validator =? 0);;
  modify (putValidator (validator
    <| ValidatorInfo.is_active := false |>
    <| ValidatorInfo.last_active_at := Ctx.current_height ctx |>
    <| ValidatorInfo.pending_unbond_height := Ctx.current_height ctx +64 UNBONDING_PERIOD |>));;
  success.

Definition executeUpdateRewardAddress (tx : Transaction.t) (_ : Ctx.t) : Handler :=
  require (length (Transaction.payload tx) =? 32)%nat;;
  let new_address := readHashAt (Transaction.payload tx) 0 in
  require (negb (isNull new_address));;
  validator_id ← fetch (getValidatorByAddress (Transaction.from tx));
  validator ← fetch (getValidator validator_id);
  (if negb (new_address =? Transaction.from tx) then
     collision ← gets (getValidatorByAddress new_address);
     require (negb (bool_decide (is_Some collision)))
   else mret ());;
  let validator :=
    if isNull (ValidatorInfo.consensus_key validator)
    then validator <| ValidatorInfo.consensus_key := ValidatorInfo.effectiveConsensusKey validator |>
    else validator in
  modify (deleteValidatorByAddress (ValidatorInfo.reward_address validator));;
  modify (putValidatorByAddress new_address (ValidatorInfo.id validator));;
  modify (putValidator (validator <| ValidatorInfo.reward_address := new_address |>
                                  <| ValidatorInfo.owner := new_address |>));;
  success.

(** [history.back().valid_until_height = height]. *)
Fixpoint sealLast (height : N) (history : list KeyRotation.t) : list KeyRotation.t :=
  match history with
  | [] => []
  | [e] => [e <| KeyRotation.valid_until_height := height |>]
  | e :: rest => e :: sealLast height rest
  end.

(** The stored history, or the one-entry history of the record's key. *)
Definition loadOrSynthesizeHistory (validator_id : N) (validator : ValidatorInfo.t) (st : State)
    : list KeyRotation.t :=
  let initial := [KeyRotation.mk (ValidatorInfo.effectiveConsensusKey validator)
                    (ValidatorInfo.registered_at_height validator) 0] in
  match getValidatorKeyHistory validator_id st with
  | None | Some [] => initial
  | Some history => history
  end.

Definition executeRotateConsensusKey (tx : Transaction.t) (ctx : Ctx.t) : Handler :=
  require (length (Transaction.payload tx) =? 32)%nat;;
  let new_key := readHashAt (Transaction.payload tx) 0 in
  require (negb (isNull new_key));;
  validator_id ← fetch (getValidatorByAddress (Transaction.from tx));
  validator ← fetch (getValidator validator_id);
  require (ValidatorInfo.owner validator =? Transaction.from tx);;
  require (negb (ValidatorInfo.effectiveConsensusKey validator =? new_key));;
  require (ValidatorInfo.pending_unbond_height validator =? 0);;
  history ← gets (loadOrSynthesizeHistory validator_id validator);
  let history := sealLast (Ctx.current_height ctx) history ++
                 [KeyRotation.mk new_key (Ctx.current_height ctx) 0] in
  modify (putValidatorKeyHistory validator_id history);;
  modify (putValidator (validator <| ValidatorInfo.consensus_key := new_key |>));;
  success.

(** ** Custom tokens *)

(** The [CreateToken] payload: decimals, backing, name, symbol, maximum supply,
    royalty, optional fingerprint.  Trailing bytes are ignored. *)
Definition parseTokenPayload (p : bytes) : Exec State TokenInfo.t :=
  require (3 <=? length p)%nat;;
  let decimals := byteAt p 0 in
  let backing := byteAt p 1 in
  let name_len := N.to_nat (byteAt p 2) in
  let off := 3%nat in
  require (off + name_len + 1 <=? length p)%nat;;
  let name := slice p off name_len in
  let off := (off + name_len)%nat in
  let sym_len := N.to_nat (byteAt p off) in
  let off := (off + 1)%nat in
  require (off + sym_len + 8 + 2 + 1 <=? length p)%nat;;
  let symbol := slice p off sym_len in
  let off := (off + sym_len)%nat in
  let max_supply := readU64At p off in
  let off := (off + 8)%nat in
  let royalty_bps := readU16At p off in
  let off := (off + 2)%nat in
  let has_fp := byteAt p off in
  let off := (off + 1)%nat in
  fingerprint ← (if negb (has_fp =? 0) then
                   require (off + 32 <=? length p)%nat;;
                   mret (Some (readHashAt p off))
                 else mret None);
  mret (TokenInfo.mk INVALID_ID name symbol decimals 0 (BackingModel.of_byte backing)
          max_supply royalty_bps fingerprint).

Definition executeCreateToken (tx : Transaction.t) (_ : Ctx.t) : Handler :=
  token ← parseTokenPayload (Transaction.payload tx);
  next_id ← gets (orCounter "next_token_id");
  let token := token <| TokenInfo.id := next_id |>
                     <| TokenInfo.creator := Transaction.from tx |> in
  require (TokenInfo.isValid token);;
  modify (putToken token);;
  modify (putTokenSupply (TokenInfo.id token) 0);;
  modify (putGlobal "next_token_id" (le_split 8 (next_id +64 1)));;
  success.

Definition executeMintToken (tx : Transaction.t) (_ : Ctx.t) : Handler :=
  require (negb (Transaction.amount tx =? 0));;
  require (negb (Transaction.token_id tx =? NATIVE_TOKEN_ID));;
  token ← fetch (getToken (Transaction.token_id tx));
  require (TokenInfo.creator token =? Transaction.from tx);;
  current_supply ← gets (getTokenSupply (Transaction.token_id tx));
  require (negb ((0 <? TokenInfo.maxSupply token) &&
                 (TokenInfo.maxSupply token <? current_supply +64 Transaction.amount tx)));;
  recipient_balance ← gets (getTokenBalance (Transaction.to tx) (Transaction.token_id tx));
  modify (putTokenBalance (Transaction.to tx) (Transaction.token_id tx)
    (recipient_balance +64 Transaction.amount tx));;
  modify (putTokenSupply (Transaction.token_id tx) (current_supply +64 Transaction.amount tx));;
  success.

Definition executeBurnToken (tx : Transaction.t) (_ : Ctx.t) : Handler :=
  require (negb (Transaction.amount tx =? 0));;
  require (negb (Transaction.token_id tx =? NATIVE_TOKEN_ID));;
  sender_balance ← gets (getTokenBalance (Transaction.from tx) (Transaction.token_id tx));
  require (Transaction.amount tx <=? sender_balance);;
  modify (putTokenBalance (Transaction.from tx) (Transaction.token_id tx)
    (sender_balance -64 Transaction.amount tx));;
  current_supply ← gets (getTokenSupply (Transaction.token_id tx));
  modify (putTokenSupply (Transaction.token_id tx)
    (if Transaction.amount tx <=? current_supply then current_supply - Transaction.amount tx
     else 0));;
  success.

Definition executeUpdateTokenMeta (tx : Transaction.t) (_ : Ctx.t) : Handler :=
  let p := Transaction.payload tx in
  require (4 <=? length p)%nat;;
  require (negb (Transaction.token_id tx =? NATIVE_TOKEN_ID));;
  token ← fetch (getToken (Transaction.token_id tx));
  require (TokenInfo.creator token =? Transaction.from tx);;
  let name_len := N.to_nat (byteAt p 0) in
  let off := 1%nat in
  require (off + name_len + 1 <=? length p)%nat;;
  let new_name := slice p off name_len in
  let off := (off + name_len)%nat in
  let sym_len := N.to_nat (byteAt p off) in
  let off := (off + 1)%nat in
  require (off + sym_len + 2 <=? length p)%nat;;
  let new_symbol := slice p off sym_len in
  let new_royalty := readU16At p (off + sym_len) in
  let updated := token
    <| TokenInfo.name := if (0 <? name_len)%nat then new_name else TokenInfo.name token |>
    <| TokenInfo.symbol := if (0 <? sym_len)%nat then new_symbol else TokenInfo.symbol token |>
    <| TokenInfo.royaltyBps :=
         if negb (new_royalty =? 0) then new_royalty else TokenInfo.royaltyBps token |> in
  require (TokenInfo.isValid updated);;
  modify (putToken updated);;
  success.
