(* ===== verification/ExecAmm.v ===== *)
(** * Transaction executor: AMM pools

    [executeCreatePool], [executeAddLiquidity], [executeRemoveLiquidity] and
    [executeSwap] of src/src/Core/TransactionExecutor.cpp.  A long handler is
    the composition of its stages, in source order. *)

From S2P Require Import Prelude Types OrderBook StateAccess Amm Codec ExecBase.

(** The payload and the transaction's own token, ordered by token id. *)
Definition parsePool (tx : Transaction.t) (ctx : Ctx.t) (next_id : N) : AmmPool.t :=
  let p := Transaction.payload tx in
  let token_b := readU32At p 0 in
  let amount_b := readU64At p 4 in
  let fee_bps := readU16At p 12 in
  let token_a := u32 (Transaction.token_id tx) in
  let amount_a := Transaction.amount tx in
  let '(token_a, token_b, amount_a, amount_b) :=
    if token_b <? token_a then (token_b, token_a, amount_b, amount_a)
    else (token_a, token_b, amount_a, amount_b) in
  AmmPool.mk next_id (Transaction.from tx) token_a token_b amount_a amount_b
    (isqrt128 (u128 (amount_a * amount_b))) fee_bps (Ctx.current_height ctx) true 0 0 0.

(** The checks on the payload, before any state is read. *)
Definition checkPoolPayload (tx : Transaction.t) : Exec State unit :=
  let p := Transaction.payload tx in
  require (14 <=? length p)%nat;;
  let token_b := readU32At p 0 in
  let amount_b := readU64At p 4 in
  let fee_bps := readU16At p 12 in
  let token_a := u32 (Transaction.token_id tx) in
  let amount_a := Transaction.amount tx in
  require (negb (token_a =? token_b));;
  require (negb ((amount_a =? 0) || (amount_b =? 0)));;
  require (fee_bps <=? AMM_MAX_FEE_BPS);;
  require (negb ((token_a =? NATIVE_TOKEN_ID) && (amount_a <? MIN_POOL_LIQUIDITY)));;
  require (negb ((token_b =? NATIVE_TOKEN_ID) && (amount_b <? MIN_POOL_LIQUIDITY))).

(** A fresh position, its index entry and the counter. *)
Definition mintPosition (owner : Address) (pool_id liquidity height : N) : Exec State unit :=
  next_pos_id ← gets (orCounter "next_position_id");
  modify (putAmmPosition (AmmPosition.mk next_pos_id owner pool_id liquidity height));;
  modify (putPositionIndex owner pool_id next_pos_id);;
  modify (putGlobal "next_position_id" (le_split 8 (next_pos_id +64 1))).

Definition executeCreatePool (tx : Transaction.t) (ctx : Ctx.t) : Handler :=
  checkPoolPayload tx;;
  next_id ← gets (orCounter "next_pool_id");
  let pool := parsePool tx ctx next_id in
  require (AmmPool.isValid pool);;
  enough_a ← gets (hasTokens (Transaction.from tx) (AmmPool.token_a pool) (AmmPool.reserve_a pool));
  require enough_a;;
  enough_b ← gets (hasTokens (Transaction.from tx) (AmmPool.token_b pool) (AmmPool.reserve_b pool));
  require enough_b;;
  modify (subTokens (Transaction.from tx) (AmmPool.token_a pool) (AmmPool.reserve_a pool));;
  modify (subTokens (Transaction.from tx) (AmmPool.token_b pool) (AmmPool.reserve_b pool));;
  modify (putAmmPool pool);;
  modify (putGlobal "next_pool_id" (le_split 8 (next_id +64 1)));;
  mintPosition (Transaction.from tx) (AmmPool.id pool) (AmmPool.total_liquidity pool)
    (Ctx.current_height ctx);;
  success.

(** [liquidity_minted]: 64-bit products, and the input side's amount against
    [reserve_a] whichever token it is. *)
Definition liquidityMinted (pool : AmmPool.t) (amount_in amount_b : N) : N :=
  let share_a := (amount_in *64 AmmPool.total_liquidity pool) / AmmPool.reserve_a pool in
  let share_b := (amount_b *64 AmmPool.total_liquidity pool) / AmmPool.reserve_b pool in
  N.min share_a share_b.

Definition depositReserves (token_in amount_in amount_b minted : N) (pool : AmmPool.t) : AmmPool.t :=
  let pool :=
    if token_in =? AmmPool.token_a pool then
      pool <| AmmPool.reserve_a := AmmPool.reserve_a pool +64 amount_in |>
           <| AmmPool.reserve_b := AmmPool.reserve_b pool +64 amount_b |>
    else
      pool <| AmmPool.reserve_b := AmmPool.reserve_b pool +64 amount_in |>
           <| AmmPool.reserve_a := AmmPool.reserve_a pool +64 amount_b |> in
  pool <| AmmPool.total_liquidity := AmmPool.total_liquidity pool +64 minted |>.

(** The existing position grows, or a fresh one is minted. *)
Definition creditPosition (owner : Address) (pool_id minted height : N) : Exec State unit :=
  existing ← gets (fun st => p ← getPositionIndex owner pool_id st; getAmmPosition p st);
  match existing with
  | Some pos =>
    modify (putAmmPosition
      (pos <| AmmPosition.liquidity := AmmPosition.liquidity pos +64 minted |>))
  | None => mintPosition owner pool_id minted height
  end.

Definition executeAddLiquidity (tx : Transaction.t) (ctx : Ctx.t) : Handler :=
  let p := Transaction.payload tx in
  require (16 <=? length p)%nat;;
  let pool_id := readU64At p 0 in
  let amount_b := readU64At p 8 in
  pool ← fetch (getAmmPool pool_id);
  require (AmmPool.active pool);;
  let token_in := Transaction.token_id tx in
  let token_other :=
    if token_in =? AmmPool.token_a pool then AmmPool.token_b pool else AmmPool.token_a pool in
  require ((token_in =? AmmPool.token_a pool) || (token_in =? AmmPool.token_b pool));;
  let amount_in := Transaction.amount tx in
  require (negb ((AmmPool.reserve_a pool =? 0) || (AmmPool.reserve_b pool =? 0)));;
  enough_in ← gets (hasTokens (Transaction.from tx) token_in amount_in);
  require enough_in;;
  enough_b ← gets (hasTokens (Transaction.from tx) token_other amount_b);
  require enough_b;;
  modify (subTokens (Transaction.from tx) token_in amount_in);;
  modify (subTokens (Transaction.from tx) token_other amount_b);;
  let minted := liquidityMinted pool amount_in amount_b in
  modify (putAmmPool (depositReserves token_in amount_in amount_b minted pool));;
  creditPosition (Transaction.from tx) pool_id minted (Ctx.current_height ctx);;
  success.

(** Both pro-rata shares; the last removal takes the whole reserves. *)
Definition removalShares (pool : AmmPool.t) (amount : N) : Exec State (N * N) :=
  if amount =? AmmPool.total_liquidity pool then
    mret (AmmPool.reserve_a pool, AmmPool.reserve_b pool)
  else
    a ← divide (u128 (amount * AmmPool.reserve_a pool)) (AmmPool.total_liquidity pool);
    b ← divide (u128 (amount * AmmPool.reserve_b pool)) (AmmPool.total_liquidity pool);
    mret (u64 a, u64 b).

Definition executeRemoveLiquidity (tx : Transaction.t) (_ : Ctx.t) : Handler :=
  let p := Transaction.payload tx in
  require (length p =? 16)%nat;;
  let position_id := readU64At p 0 in
  let requested_amount := readU64At p 8 in
  pos ← fetch (getAmmPosition position_id);
  require (AmmPosition.owner pos =? Transaction.from tx);;
  require (negb (AmmPosition.liquidity pos =? 0));;
  let amount := if requested_amount =? 0 then AmmPosition.liquidity pos else requested_amount in
  require (amount <=? AmmPosition.liquidity pos);;
  pool ← fetch (getAmmPool (AmmPosition.pool_id pos));
  let is_last_removal := amount =? AmmPool.total_liquidity pool in
  shares ← removalShares pool amount;
  let '(share_a, share_b) := shares in
  let pool := pool
    <| AmmPool.reserve_a := AmmPool.reserve_a pool -64 share_a |>
    <| AmmPool.reserve_b := AmmPool.reserve_b pool -64 share_b |>
    <| AmmPool.total_liquidity := AmmPool.total_liquidity pool -64 amount |> in
  modify (putAmmPool pool);;
  modify (addTokens (Transaction.from tx) (AmmPool.token_a pool) share_a);;
  modify (addTokens (Transaction.from tx) (AmmPool.token_b pool) share_b);;
  (if is_last_removal then
     modify (putAmmPosition (pos <| AmmPosition.liquidity := 0 |>));;
     modify (deletePositionIndex (AmmPosition.owner pos) (AmmPosition.pool_id pos))
   else
     modify (putAmmPosition
       (pos <| AmmPosition.liquidity := AmmPosition.liquidity pos -64 amount |>)));;
  (if AmmPool.isClosed pool then modify (deleteAmmPool (AmmPool.id pool)) else mret ());;
  success.

(** The pool's side of a swap: (token out, reserve in, reserve out). *)
Definition swapSides (pool : AmmPool.t) (token_in : N) : option (N * N * N) :=
  if token_in =? AmmPool.token_a pool then
    Some (AmmPool.token_b pool, AmmPool.reserve_a pool, AmmPool.reserve_b pool)
  else if token_in =? AmmPool.token_b pool then
    Some (AmmPool.token_a pool, AmmPool.reserve_b pool, AmmPool.reserve_a pool)
  else None.

Definition executeSwap (tx : Transaction.t) (ctx : Ctx.t) : Handler :=
  let p := Transaction.payload tx in
  require (16 <=? length p)%nat;;
  let pool_id := readU64At p 0 in
  let min_amount_out := readU64At p 8 in
  pool ← fetch (getAmmPool pool_id);
  require (AmmPool.active pool);;
  let token_in := Transaction.token_id tx in
  sides ← fetch (fun _ => swapSides pool token_in);
  let '(token_out, reserve_in, reserve_out) := sides in
  let amount_in := Transaction.amount tx in
  enough ← gets (hasTokens (Transaction.from tx) token_in amount_in);
  require enough;;
  q ← divide (swapNumerator (AmmPool.fee_bps pool) reserve_out amount_in)
             (swapDenominator (AmmPool.fee_bps pool) reserve_in amount_in);
  let amount_out := u64 q in
  require (min_amount_out <=? amount_out);;
  modify (subTokens (Transaction.from tx) token_in amount_in);;
  modify (addTokens (Transaction.to tx) token_out amount_out);;
  let pool := recordVolume (Ctx.current_height ctx) (clrtyVolume pool token_in amount_in) pool in
  modify (putAmmPool (tradeReserves token_in amount_in amount_out pool));;
  success.
