(* ===== verification/BlockOrders.v ===== *)
(** * Block processor: orders and unbonding

    The order-related steps of src/src/Core/BlockProcessor.cpp: routing an
    active order through its pool, expiring orders by height, evaluating order
    conditions at an epoch boundary, and releasing unbonded validators. *)

From S2P Require Import Prelude Types OrderBook StateAccess Amm Matching.

Inductive ActiveRouteOutcome : Set := Filled | Rested | Unroutable.

(** A fill the pool can give: input, output and effective price. *)
Record RouteQuote := mkRouteQuote {
  rq_pool : AmmPool.t;
  rq_amount_in : N;
  rq_amount_out : N;
  rq_price : N;
}.

(** (reserve in, reserve out) of the pool for the order's pair. *)
Definition routeReserves (pool : AmmPool.t) (order : Order.t) : option (N * N) :=
  if (Order.sell_token order =? AmmPool.token_a pool) &&
     (Order.buy_token order =? AmmPool.token_b pool)
  then Some (AmmPool.reserve_a pool, AmmPool.reserve_b pool)
  else if (Order.sell_token order =? AmmPool.token_b pool) &&
          (Order.buy_token order =? AmmPool.token_a pool)
  then Some (AmmPool.reserve_b pool, AmmPool.reserve_a pool)
  else None.

(** The checks and the pricing of [executeActiveOrder], before it writes. *)
Definition routeQuote (order : Order.t) (st : State) : ActiveRouteOutcome + RouteQuote :=
  if negb (bool_decide (Order.mode order = OrderExecutionMode.Active)) then inl Unroutable
  else if Order.pool_id order =? 0 then inl Unroutable
  else if isNull (Order.owner order) then inl Unroutable
  else if Order.isFullyFilled order then inl Unroutable
  else match getAmmPool (Order.pool_id order) st with
  | None => inl Unroutable
  | Some pool =>
    if negb (AmmPool.active pool) then inl Unroutable
    else match routeReserves pool order with
    | None => inl Unroutable
    | Some (reserve_in, reserve_out) =>
      if (reserve_in =? 0) || (reserve_out =? 0) then inl Unroutable
      else match OrderBook.canonicalPrice order with
      | None => inl Unroutable
      | Some canonical_limit =>
        match ActiveRouter.maxInputWithinLimit reserve_in reserve_out (AmmPool.fee_bps pool)
                canonical_limit with
        | None => inl Rested
        | Some max_in =>
          if max_in =? 0 then inl Rested
          else
            let amount_in := N.min max_in (Order.remainingAmount order) in
            if amount_in =? 0 then inl Rested
            else
              let amount_out := ActiveRouter.computeOutput reserve_in reserve_out
                                  (AmmPool.fee_bps pool) amount_in in
              if amount_out =? 0 then inl Rested
              else
                inr (mkRouteQuote pool amount_in amount_out
                  (ActiveRouter.computeEffectivePrice reserve_in reserve_out
                     (AmmPool.fee_bps pool) amount_in))
        end
      end
    end
  end.

(** The fill record of a routed order, in the canonical frame. *)
Definition routeFill (order : Order.t) (q : RouteQuote) : Fill.t :=
  let sells_base := Order.sell_token order <? Order.buy_token order in
  Fill.mk FillSource.Amm 0 (Order.id order) (Order.pool_id order)
    (if sells_base then rq_amount_in q else rq_amount_out q)
    (if sells_base then rq_amount_out q else rq_amount_in q)
    (rq_price q)
    (if sells_base then Order.sell_token order else Order.buy_token order)
    (if sells_base then Order.buy_token order else Order.sell_token order).

Section routing.
Context `{Crypto}.

(** The writes of [executeActiveOrder]: pool, credit, order record, history. *)
Definition applyRoute (order : Order.t) (q : RouteQuote) (height tx_index fill_index : N)
    (st : State) : Order.t * State :=
  let pool := rq_pool q in
  let clrty_volume := clrtyVolume pool (Order.sell_token order) (rq_amount_in q) in
  let pool := tradeReserves (Order.sell_token order) (rq_amount_in q) (rq_amount_out q) pool in
  let pool := recordVolume height clrty_volume pool in
  let st := putAmmPool pool st in
  let st := addTokens (Order.owner order) (Order.buy_token order) (rq_amount_out q) st in
  let order' := order
    <| Order.filled_amount := Order.filled_amount order +64 rq_amount_in q |> in
  let st := if Order.isFullyFilled order' then deleteOrder (Order.id order') st
            else putOrder order' st in
  (order', indexFill (routeFill order q) height tx_index fill_index st).

(** Returns the outcome, the order through the reference, and the fills. *)
Definition executeActiveOrder (order : Order.t) (height tx_index : N) (fills_out : list Fill.t)
    (st : State) : ActiveRouteOutcome * Order.t * list Fill.t * State :=
  match routeQuote order st with
  | inl outcome => (outcome, order, fills_out, st)
  | inr q =>
    let '(order', st') :=
      applyRoute order q height tx_index (u16 (N.of_nat (length fills_out))) st in
    (Filled, order', fills_out ++ [routeFill order q], st')
  end.

(** ** Expiries *)

Definition expireOrder (order_id : N) (st : State) : State :=
  match getOrder order_id st with
  | None => st
  | Some order =>
    let refund := Order.remainingAmount order in
    let st := if 0 <? refund then addTokens (Order.owner order) (Order.sell_token order) refund st
              else st in
    deleteRestingOrder order st
  end.

Definition processOrderExpiries (current_height : N) (st : State) : State :=
  match getOrdersExpiringAt current_height st with
  | [] => st
  | expiring =>
    clearOrderExpiry current_height (foldl (fun st order_id => expireOrder order_id st) st expiring)
  end.

(** ** Conditions *)

Definition poolSpotPrice (pool_id sell_token buy_token : N) (st : State) : option N :=
  pool ← getAmmPool pool_id st;
  sell_is_a ← (if (AmmPool.token_a pool =? sell_token) && (AmmPool.token_b pool =? buy_token)
               then Some true
               else if (AmmPool.token_b pool =? sell_token) && (AmmPool.token_a pool =? buy_token)
               then Some false
               else None);
  if (AmmPool.reserve_a pool =? 0) || (AmmPool.reserve_b pool =? 0) then None
  else
    let '(num, den) :=
      if sell_is_a : bool then (u128 (AmmPool.reserve_b pool * PRICE_SCALE), AmmPool.reserve_a pool)
      else (u128 (AmmPool.reserve_a pool * PRICE_SCALE), AmmPool.reserve_b pool) in
    if den =? 0 then None else Some (u64 (num / den)).

Definition conditionHolds (order : Order.t) (current_height : N) (st : State)
    (c : OrderCondition.t) : bool :=
  let spot := poolSpotPrice (OrderCondition.param2 c) (Order.sell_token order)
                (Order.buy_token order) st in
  match OrderCondition.type c with
  | OrderConditionType.Invalid => false
  | OrderConditionType.ExpiresAtHeight => negb (OrderCondition.param1 c <=? current_height)
  | OrderConditionType.PriceAbove =>
    match spot with Some price => negb (OrderCondition.param1 c <? price) | None => true end
  | OrderConditionType.PriceBelow =>
    match spot with Some price => negb (price <? OrderCondition.param1 c) | None => true end
  | OrderConditionType.VolumeBelow =>
    match getAmmPool (OrderCondition.param2 c) st with
    | Some pool => negb (AmmPool.reportedVolume current_height pool <? OrderCondition.param1 c)
    | None => true
    end
  | OrderConditionType.BalanceBelow =>
    negb (Account.balance (getAccount (Order.owner order) st) <? OrderCondition.param1 c)
  | OrderConditionType.UnknownCondition _ => true
  end.

Definition conditionsAllHold (order : Order.t) (current_height : N) (st : State) : bool :=
  forallb (conditionHolds order current_height st) (Order.conditions order).

Definition cancelOrderByCondition (order_id : N) (st : State) : State :=
  match getOrder order_id st with
  | None => st
  | Some order =>
    let remaining := Order.remainingAmount order in
    let fee := N.min remaining ORDER_CANCEL_FEE_ATOMIC in
    let refund := remaining -64 fee in
    let st := if 0 <? refund then addTokens (Order.owner order) (Order.sell_token order) refund st
              else st in
    deleteRestingOrder order st
  end.

(** The two id lists the visitor of [evaluateOrderConditions] fills. *)
Definition isActive (order : Order.t) : bool :=
  bool_decide (Order.mode order = OrderExecutionMode.Active).

Definition ordersToCancel (current_height : N) (st : State) : list N :=
  omap (fun order =>
    if isActive order || (0 <? Order.condition_count order)%nat then
      if conditionsAllHold order current_height st then None else Some (Order.id order)
    else None) (allOrders st).

Definition ordersToRoute (current_height : N) (st : State) : list N :=
  omap (fun order =>
    if isActive order && conditionsAllHold order current_height st then Some (Order.id order)
    else None) (allOrders st).

Definition routeOrder (current_height : N) (acc : list Fill.t * State) (order_id : N)
    : list Fill.t * State :=
  let '(fills, st) := acc in
  match getOrder order_id st with
  | None => (fills, st)
  | Some order =>
    let '(outcome, _, fills, st) :=
      executeActiveOrder order current_height (u32 order_id) fills st in
    match outcome with
    | Unroutable => (fills, cancelOrderByCondition order_id st)
    | _ => (fills, st)
    end
  end.

Definition evaluateOrderConditions (current_height : N) (epoch_fills : list Fill.t) (st : State)
    : list Fill.t * State :=
  let to_cancel := ordersToCancel current_height st in
  let to_route := ordersToRoute current_height st in
  let st := foldl (fun st order_id => cancelOrderByCondition order_id st) st to_cancel in
  foldl (routeOrder current_height) (epoch_fills, st) to_route.
End routing.

(** ** Unbonding *)

Definition releaseValidator (vid : N) (st : State) : State :=
  match getValidator vid st with
  | None => st
  | Some v =>
    let acct := getAccount (ValidatorInfo.owner v) st in
    let acct := acct <| Account.balance := Account.balance acct +64 ValidatorInfo.stake v |> in
    let acct := Account.recalculateStaked AUTO_STAKE_THRESHOLD acct in
    let st := putAccount (ValidatorInfo.owner v) acct st in
    let st := deleteValidatorByAddress (ValidatorInfo.reward_address v) st in
    let st := deleteValidator (ValidatorInfo.id v) st in
    putValidatorKeyHistory (ValidatorInfo.id v) [] st
  end.

Definition processUnbondExpiries (current_height : N) (st : State) : State :=
  let expired := map ValidatorInfo.id
    (filter (fun v => ValidatorInfo.isUnbondExpired current_height v = true) (allValidators st)) in
  foldl (fun st vid => releaseValidator vid st) st expired.
