(* ===== verification/ExecOrders.v ===== *)
(** * Transaction executor: orders

    [validateCreateOrderStructure], [executeCreateOrder] and
    [executeCancelOrder] of src/src/Core/TransactionExecutor.cpp. *)

From S2P Require Import Prelude Types OrderBook StateAccess Amm Codec Matching BlockOrders.
From S2P Require Import ExecBase.

(** The [CreateOrder] payload's fixed part: 26 bytes. *)
Record OrderPayload := mkOrderPayload {
  op_buy_token : N;
  op_min_buy_amount : N;
  op_mode : N;
  op_pool_id : N;
  op_expires_at_height : N;
  op_condition_count : nat;
}.

Definition parseOrderPayload (p : bytes) : OrderPayload :=
  mkOrderPayload (readU32At p 0) (readU64At p 4) (byteAt p 12) (readU32At p 13)
    (readU64At p 17) (N.to_nat (byteAt p 25)).

Definition CONDITIONS_OFFSET : nat := 26.

(** The probe order of the overflow guard. *)
Definition probeOrder (sell_token buy_token sell_amount min_buy_amount : N) : Order.t :=
  Order.mk INVALID_ID 0 OrderExecutionMode.Passive 0 (u32 sell_token) buy_token sell_amount
    min_buy_amount 0 0 0 [].

Definition validateCreateOrderStructure (tx : Transaction.t) : bool :=
  let p := Transaction.payload tx in
  if (length p <? CONDITIONS_OFFSET)%nat then false
  else
    let op := parseOrderPayload p in
    let mode := OrderExecutionMode.of_byte (op_mode op) in
    if (ORDER_MAX_CONDITIONS <? op_condition_count op)%nat then false
    else if negb (bool_decide (mode = OrderExecutionMode.Passive)) &&
            negb (bool_decide (mode = OrderExecutionMode.Active)) then false
    else if (if bool_decide (mode = OrderExecutionMode.Active) then op_pool_id op =? 0
             else negb (op_pool_id op =? 0)) then false
    else match OrderCodec.conditionsFrom p (op_condition_count op) CONDITIONS_OFFSET with
    | None => false
    | Some _ =>
      if Transaction.token_id tx =? op_buy_token op then false
      else if Transaction.amount tx =? 0 then false
      else if op_min_buy_amount op =? 0 then false
      else if bool_decide (mode = OrderExecutionMode.Passive) then
        bool_decide (is_Some (OrderBook.canonicalPrice
          (probeOrder (Transaction.token_id tx) (op_buy_token op) (Transaction.amount tx)
             (op_min_buy_amount op))))
      else true
    end.

(** [next_order_id]: absent or empty means 1. *)
Definition nextOrderId (st : State) : N :=
  match getGlobal "next_order_id" st with
  | None | Some [] => 1
  | Some b => le_combine (take 8 b)
  end.

(** The order record, from the re-parsed payload. *)
Definition buildOrder (tx : Transaction.t) (ctx : Ctx.t) (next_id : N) : Order.t :=
  let p := Transaction.payload tx in
  let op := parseOrderPayload p in
  let conditions :=
    match OrderCodec.conditionsFrom p (op_condition_count op) CONDITIONS_OFFSET with
    | Some (cs, _) => cs
    | None => []
    end in
  Order.mk next_id (Transaction.from tx) (OrderExecutionMode.of_byte (op_mode op))
    (op_pool_id op) (u32 (Transaction.token_id tx)) (op_buy_token op) (Transaction.amount tx)
    (op_min_buy_amount op) (Ctx.current_height ctx) (op_expires_at_height op) 0 conditions.

(** Pre-route validation: an unconditional active order needs a usable pool. *)
Definition checkRoutable (order : Order.t) : Exec State unit :=
  if isActive order && (Order.condition_count order =? 0)%nat then
    pool ← fetch (getAmmPool (Order.pool_id order));
    require (AmmPool.active pool);;
    let sells_a := (Order.sell_token order =? AmmPool.token_a pool) &&
                   (Order.buy_token order =? AmmPool.token_b pool) in
    let sells_b := (Order.sell_token order =? AmmPool.token_b pool) &&
                   (Order.buy_token order =? AmmPool.token_a pool) in
    require (sells_a || sells_b);;
    require (negb ((AmmPool.reserve_a pool =? 0) || (AmmPool.reserve_b pool =? 0)))
  else mret ().

Section orders.
Context `{Crypto}.

(** Match a passive order, or route an unconditional active one.  Returns the
    fills; an unroutable order is a rejection. *)
Definition runOrder (order : Order.t) (ctx : Ctx.t) : Handler :=
  if bool_decide (Order.mode order = OrderExecutionMode.Passive) then
    perform (fun st =>
      let '(outcome, _, st) :=
        matchPassiveOrder order (Ctx.current_height ctx) (Ctx.tx_index_in_block ctx) st in
      (mo_fills outcome, st))
  else if (Order.condition_count order =? 0)%nat then
    r ← perform (fun st =>
      let '(outcome, _, fills, st) :=
        executeActiveOrder order (Ctx.current_height ctx) (Ctx.tx_index_in_block ctx) [] st in
      ((outcome, fills), st));
    match fst r with
    | Unroutable => fail
    | _ => mret (snd r)
    end
  else mret [].

(** The order is written under its id with [filled_amount] as the matcher or the
    router left it; the id is what the rest of the handler uses. *)
Definition executeCreateOrder (tx : Transaction.t) (ctx : Ctx.t) : Handler :=
  require (validateCreateOrderStructure tx);;
  next_id ← gets nextOrderId;
  let order := buildOrder tx ctx next_id in
  require (Order.isValid order);;
  enough ← gets (hasTokens (Transaction.from tx) (Transaction.token_id tx) (Transaction.amount tx));
  require enough;;
  checkRoutable order;;
  modify (subTokens (Transaction.from tx) (Transaction.token_id tx) (Transaction.amount tx));;
  modify (putOrder order);;
  fills ← runOrder order ctx;
  still_exists ← gets (getOrder (Order.id order));
  (if bool_decide (is_Some still_exists) && negb (Order.order_expires_at_height order =? 0)
   then modify (addOrderExpiry (Order.order_expires_at_height order) (Order.id order))
   else mret ());;
  modify (putGlobal "next_order_id" (le_split 8 (next_id +64 1)));;
  mret fills.

Definition executeCancelOrder (tx : Transaction.t) (_ : Ctx.t) : Handler :=
  let p := Transaction.payload tx in
  require (8 <=? length p)%nat;;
  let order_id := readU64At p 0 in
  order ← fetch (getOrder order_id);
  require (Order.owner order =? Transaction.from tx);;
  let refund := Order.remainingAmount order in
  (if 0 <? refund then modify (addTokens (Transaction.from tx) (Order.sell_token order) refund)
   else mret ());;
  modify (deleteRestingOrder order);;
  success.
End orders.
