(* ===== verification/ExecNft.v ===== *)
(** * Transaction executor: NFTs and collections

    The NFT handlers of src/src/Core/TransactionExecutor.cpp.  An NFT has a
    shadow token of supply one; a wrapped NFT holds its underlying at the
    custody address [nftAddress]; a collection's reward escrow is a balance at
    [nftCollectionAddress]. *)

From S2P Require Import Prelude Types OrderBook StateAccess Codec ExecBase.

(** [std::to_string]. *)
Definition to_string (n : N) : bytes := ascii_bytes (pretty n).

(** A length-prefixed field at an offset: the field and the next offset. *)
Definition readField8 (p : bytes) (off : nat) : Exec State (bytes * nat) :=
  require (off + 1 <=? length p)%nat;;
  let len := N.to_nat (byteAt p off) in
  require (off + 1 + len <=? length p)%nat;;
  mret (slice p (off + 1) len, (off + 1 + len)%nat).

Definition readField16 (p : bytes) (off : nat) : Exec State (bytes * nat) :=
  require (off + 2 <=? length p)%nat;;
  let len := N.to_nat (readU16At p off) in
  require (off + 2 + len <=? length p)%nat;;
  mret (slice p (off + 2) len, (off + 2 + len)%nat).

(** [next_collection_id]: zero means 1. *)
Definition plainCounter (name : string) (st : State) : N :=
  let n := readU64GlobalInternal name st in if n =? 0 then 1 else n.

Section nft.
Context `{Crypto}.

Definition executeCreateNftCollection (tx : Transaction.t) (ctx : Ctx.t) : Handler :=
  let p := Transaction.payload tx in
  '(name, off) ← readField8 p 0;
  '(symbol, off) ← readField8 p off;
  '(base_uri, off) ← readField16 p off;
  require (off + 4 + 8 + 8 <=? length p)%nat;;
  let reward_token_id := readU32At p off in
  let reward_rate_per_epoch := readU64At p (off + 4) in
  let reward_escrow_amount := readU64At p (off + 4 + 8) in
  next_id ← gets (plainCounter "next_collection_id");
  let c := NftCollection.mk next_id (Transaction.from tx) name symbol base_uri reward_token_id
             reward_rate_per_epoch 0 false (Ctx.current_height ctx) 0 in
  require (NftCollection.isValid c);;
  c ← (if 0 <? reward_escrow_amount then
         debitToken (Transaction.from tx) reward_token_id reward_escrow_amount;;
         modify (creditToken (nftCollectionAddress (NftCollection.id c)) reward_token_id
                   reward_escrow_amount);;
         mret (c <| NftCollection.reward_escrow_remaining := reward_escrow_amount |>)
       else mret c);
  modify (putNftCollection c);;
  modify (writeU64GlobalInternal "next_collection_id" (NftCollection.id c +64 1));;
  success.

(** Metadata hash, flag and URI at an offset, as minting and wrapping read it. *)
Definition parseMetadata (p : bytes) (off : nat) : Exec State (Hash * bytes) :=
  let metadata_hash := readHashAt p off in
  let has_hash := byteAt p (off + 32) in
  require (has_hash <=? 1);;
  require (negb ((has_hash =? 0) && negb (isNull metadata_hash)));;
  let metadata_hash := if has_hash =? 0 then 0 else metadata_hash in
  let uri_len := N.to_nat (readU16At p (off + 33)) in
  require (off + 35 + uri_len <=? length p)%nat;;
  mret (metadata_hash, slice p (off + 35) uri_len).

(** The collection named by the payload; id 0 is none, whose record is a
    default-constructed one. *)
Definition fetchCollection (collection_id : N) : Exec State (option NftCollection.t) :=
  if collection_id =? 0 then mret None
  else c ← fetch (getNftCollection collection_id); mret (Some c).

(** The shadow token of a new NFT. *)
Definition shadowToken (creator : Address) (nft_id : N) (collection : option NftCollection.t)
    : TokenInfo.t :=
  let '(name, symbol) :=
    match collection with
    | Some c => (NftCollection.name c ++ ascii_bytes " #" ++ to_string nft_id,
                 NftCollection.symbol c)
    | None => (ascii_bytes "NFT #" ++ to_string nft_id, ascii_bytes "NFT")
    end in
  TokenInfo.mk nft_id name symbol 0 creator BackingModel.Unbacked 1 0 None.

(** Shadow token, record, collection count and counter of a new NFT. *)
Definition storeNft (tx : Transaction.t) (nft : NftInfo.t) (shadow : TokenInfo.t)
    (collection : option NftCollection.t) : Exec State unit :=
  modify (putToken shadow);;
  modify (putTokenSupply (TokenInfo.id shadow) 1);;
  modify (putTokenBalance (Transaction.from tx) (TokenInfo.id shadow) 1);;
  require (NftInfo.isValid nft);;
  modify (putNft nft);;
  (match collection with
   | Some c => modify (putNftCollection
       (c <| NftCollection.minted_count := NftCollection.minted_count c +64 1 |>))
   | None => mret ()
   end);;
  modify (writeU64GlobalInternal "next_token_id" (NftInfo.id nft +64 1)).

Definition executeMintNft (tx : Transaction.t) (ctx : Ctx.t) : Handler :=
  let p := Transaction.payload tx in
  require (8 + 32 + 1 + 2 <=? length p)%nat;;
  let collection_id := readU64At p 0 in
  '(metadata_hash, uri) ← parseMetadata p 8;
  require (length uri <=? NFT_URI_MAX)%nat;;
  collection ← fetchCollection collection_id;
  next_nft_id ← gets (plainCounter "next_token_id");
  let shadow := shadowToken (Transaction.from tx) next_nft_id collection in
  require (TokenInfo.isValid shadow);;
  let nft := NftInfo.mk next_nft_id (Transaction.from tx) (Transaction.from tx)
               (TokenInfo.id shadow) 0 0 collection_id metadata_hash uri false
               (Ctx.current_height ctx) 0 (Ctx.current_height ctx) in
  storeNft tx nft shadow collection;;
  success.

Definition executeWrapNft (tx : Transaction.t) (ctx : Ctx.t) : Handler :=
  let p := Transaction.payload tx in
  require (4 + 8 + 8 + 32 + 1 + 2 <=? length p)%nat;;
  let underlying_token_id := readU32At p 0 in
  let wrapped_amount := readU64At p 4 in
  let collection_id := readU64At p 12 in
  '(metadata_hash, uri) ← parseMetadata p 20;
  require (negb (underlying_token_id =? 0));;
  require (negb (wrapped_amount =? 0));;
  require (length uri <=? NFT_URI_MAX)%nat;;
  collection ← fetchCollection collection_id;
  next_nft_id ← gets (plainCounter "next_token_id");
  require (negb (underlying_token_id =? next_nft_id));;
  let shadow := shadowToken (Transaction.from tx) next_nft_id collection in
  require (TokenInfo.isValid shadow);;
  debitToken (Transaction.from tx) underlying_token_id wrapped_amount;;
  modify (creditToken (nftAddress next_nft_id) underlying_token_id wrapped_amount);;
  let nft := NftInfo.mk next_nft_id (Transaction.from tx) (Transaction.from tx)
               (TokenInfo.id shadow) underlying_token_id wrapped_amount collection_id
               metadata_hash uri false (Ctx.current_height ctx) 0 (Ctx.current_height ctx) in
  storeNft tx nft shadow collection;;
  success.

(** Rewards accrued since the last settlement, in whole rotations. *)
Definition accruedReward (height : N) (nft : NftInfo.t) (c : NftCollection.t) : N :=
  ((height -64 NftInfo.last_accrual_height nft) / ROTATION_INTERVAL) *64
    NftCollection.reward_rate_per_epoch c.

(** Settle the accrual to the owner before a transfer or a burn. *)
Definition settleRewards (nft : NftInfo.t) (height : N) : Exec State unit :=
  if NftInfo.collection_id nft =? 0 then mret ()
  else
    c ← gets (getNftCollection (NftInfo.collection_id nft));
    match c with
    | Some c =>
      if NftCollection.hasReward c then
        let accrued := accruedReward height nft c in
        if 0 <? accrued then
          acct ← gets (getAccount (NftInfo.owner nft));
          modify (putAccount (NftInfo.owner nft)
            (acct <| Account.pending_rewards := Account.pending_rewards acct +64 accrued |>))
        else mret ()
      else mret ()
    | None => mret ()
    end.

Definition executeTransferNft (tx : Transaction.t) (ctx : Ctx.t) : Handler :=
  let p := Transaction.payload tx in
  require (length p =? 8 + 32)%nat;;
  let nft_id := readU64At p 0 in
  let new_owner := readHashAt p 8 in
  require (negb (isNull new_owner));;
  nft ← fetch (getNft nft_id);
  require (NftInfo.owner nft =? Transaction.from tx);;
  require (negb (NftInfo.owner nft =? new_owner));;
  settleRewards nft (Ctx.current_height ctx);;
  shadow_balance ← gets (getTokenBalance (NftInfo.owner nft) (NftInfo.shadow_token_id nft));
  require (1 <=? shadow_balance);;
  modify (putTokenBalance (NftInfo.owner nft) (NftInfo.shadow_token_id nft) (shadow_balance -64 1));;
  buyer_balance ← gets (getTokenBalance new_owner (NftInfo.shadow_token_id nft));
  modify (putTokenBalance new_owner (NftInfo.shadow_token_id nft) (buyer_balance +64 1));;
  modify (unindexNft nft);;
  modify (putNft (nft <| NftInfo.owner := new_owner |>
                      <| NftInfo.last_accrual_height := Ctx.current_height ctx |>
                      <| NftInfo.accrued_owed := 0 |>));;
  success.

Definition executeBurnNft (tx : Transaction.t) (ctx : Ctx.t) : Handler :=
  let p := Transaction.payload tx in
  require (length p =? 8)%nat;;
  let nft_id := readU64At p 0 in
  nft ← fetch (getNft nft_id);
  require (NftInfo.owner nft =? Transaction.from tx);;
  settleRewards nft (Ctx.current_height ctx);;
  shadow_balance ← gets (getTokenBalance (NftInfo.owner nft) (NftInfo.shadow_token_id nft));
  require (1 <=? shadow_balance);;
  modify (putTokenBalance (NftInfo.owner nft) (NftInfo.shadow_token_id nft) (shadow_balance -64 1));;
  modify (putTokenSupply (NftInfo.shadow_token_id nft) 0);;
  (if NftInfo.isWrapped nft && (0 <? NftInfo.wrapped_amount nft) then
     debitToken (nftAddress nft_id) (NftInfo.underlying_token_id nft) (NftInfo.wrapped_amount nft);;
     modify (creditToken (NftInfo.owner nft) (NftInfo.underlying_token_id nft)
               (NftInfo.wrapped_amount nft))
   else mret ());;
  modify (deleteNft nft_id);;
  (if NftInfo.collection_id nft =? 0 then mret ()
   else
     c ← gets (getNftCollection (NftInfo.collection_id nft));
     match c with
     | Some c => modify (putNftCollection (c <| NftCollection.minted_count :=
         if 0 <? NftCollection.minted_count c then NftCollection.minted_count c - 1
         else NftCollection.minted_count c |>))
     | None => mret ()
     end);;
  success.

Definition executeUpdateNftMetadata (tx : Transaction.t) (_ : Ctx.t) : Handler :=
  let p := Transaction.payload tx in
  require (8 + 32 + 1 + 2 <=? length p)%nat;;
  let nft_id := readU64At p 0 in
  let has_hash := byteAt p 40 in
  require (has_hash <=? 1);;
  let new_hash := if has_hash =? 0 then 0 else readHashAt p 8 in
  let uri_len := N.to_nat (readU16At p 41) in
  require (43 + uri_len + 1 <=? length p)%nat;;
  let new_uri := slice p 43 uri_len in
  let freeze := byteAt p (43 + uri_len) in
  require (freeze <=? 1);;
  require (length new_uri <=? NFT_URI_MAX)%nat;;
  nft ← fetch (getNft nft_id);
  require (NftInfo.owner nft =? Transaction.from tx);;
  require (negb (NftInfo.frozen nft));;
  let nft := nft <| NftInfo.metadata_hash := new_hash |>
                 <| NftInfo.metadata_uri := new_uri |>
                 <| NftInfo.frozen := if freeze =? 1 then true else NftInfo.frozen nft |> in
  require (NftInfo.isValid nft);;
  modify (putNft nft);;
  success.

Definition executeTopUpNft (tx : Transaction.t) (_ : Ctx.t) : Handler :=
  let p := Transaction.payload tx in
  require (length p =? 8 + 4 + 8)%nat;;
  let nft_id := readU64At p 0 in
  let token_id := readU32At p 8 in
  let amount := readU64At p 12 in
  require (negb (amount =? 0));;
  nft ← fetch (getNft nft_id);
  require (negb (NftInfo.isWrapped nft && negb (token_id =? NftInfo.underlying_token_id nft)));;
  debitToken (Transaction.from tx) token_id amount;;
  modify (creditToken (nftAddress nft_id) token_id amount);;
  (if NftInfo.isWrapped nft && (token_id =? NftInfo.underlying_token_id nft) then
     modify (putNft
       (nft <| NftInfo.wrapped_amount := NftInfo.wrapped_amount nft +64 amount |>))
   else mret ());;
  success.

(** The visitor of [executeClaimNftReward]: (total claimed, state). *)
Definition claimOne (height : N) (acc : N * State) (nft : NftInfo.t) : N * State :=
  let '(total_claimed, st) := acc in
  if NftInfo.collection_id nft =? 0 then acc
  else match getNftCollection (NftInfo.collection_id nft) st with
  | None => acc
  | Some c =>
    if negb (NftCollection.hasReward c) then acc
    else
      let accrued := accruedReward height nft c in
      if accrued =? 0 then acc
      else (total_claimed +64 accrued,
            putNft (nft <| NftInfo.last_accrual_height := height |>
                        <| NftInfo.accrued_owed := 0 |>) st)
  end.

Definition executeClaimNftReward (tx : Transaction.t) (ctx : Ctx.t) : Handler :=
  require (length (Transaction.payload tx) =? 0)%nat;;
  acct ← gets (getAccount (Transaction.from tx));
  total_claimed ← perform (fun st =>
    foldl (claimOne (Ctx.current_height ctx)) (0, st) (nftsForOwner (Transaction.from tx) st));
  (if 0 <? total_claimed then
     modify (putAccount (Transaction.from tx)
       (acct <| Account.pending_rewards := Account.pending_rewards acct +64 total_claimed |>))
   else mret ());;
  success.

Definition executeRefillCollectionReward (tx : Transaction.t) (_ : Ctx.t) : Handler :=
  let p := Transaction.payload tx in
  require (length p =? 16)%nat;;
  let collection_id := readU64At p 0 in
  let amount := readU64At p 8 in
  require (negb (amount =? 0));;
  c ← fetch (getNftCollection collection_id);
  require (NftCollection.hasReward c);;
  require (NftCollection.creator c =? Transaction.from tx);;
  debitToken (Transaction.from tx) (NftCollection.reward_token_id c) amount;;
  modify (creditToken (nftCollectionAddress collection_id) (NftCollection.reward_token_id c) amount);;
  let c := c <| NftCollection.reward_escrow_remaining :=
                  NftCollection.reward_escrow_remaining c +64 amount |> in
  let c := c <| NftCollection.reward_paused :=
                  if NftCollection.reward_paused c && (0 <? NftCollection.reward_escrow_remaining c)
                  then false else NftCollection.reward_paused c |> in
  modify (putNftCollection c);;
  success.
End nft.
