(* ===== verification/Executor.v ===== *)
(** * Transaction executor: dispatch

    [TransactionExecutor::execute] and [executeSystemSlash]
    (src/src/Core/TransactionExecutor.cpp). *)

From S2P Require Import Prelude Types OrderBook StateAccess Codec ExecBase ExecAccounts ExecAmm.
From S2P Require Import ExecOrders ExecNft.

Section executor.
Context `{Crypto}.

(** The switch; [None] is the default case. *)
Definition dispatch (ty : TxType.t) : option (Transaction.t -> Ctx.t -> Handler) :=
  match ty with
  | TxType.Transfer => Some executeTransfer
  | TxType.OptInStaking => Some executeOptInStaking
  | TxType.OptOutStaking => Some executeOptOutStaking
  | TxType.ClaimRewards => Some executeClaimRewards
  | TxType.RegisterValidator => Some executeRegisterValidator
  | TxType.UnregisterValidator => Some executeUnregisterValidator
  | TxType.UpdateRewardAddress => Some executeUpdateRewardAddress
  | TxType.RotateConsensusKey => Some executeRotateConsensusKey
  | TxType.CreateToken => Some executeCreateToken
  | TxType.MintToken => Some executeMintToken
  | TxType.BurnToken => Some executeBurnToken
  | TxType.UpdateTokenMeta => Some executeUpdateTokenMeta
  | TxType.CreatePool => Some executeCreatePool
  | TxType.AddLiquidity => Some executeAddLiquidity
  | TxType.RemoveLiquidity => Some executeRemoveLiquidity
  | TxType.Swap => Some executeSwap
  | TxType.CreateOrder => Some executeCreateOrder
  | TxType.CancelOrder => Some executeCancelOrder
  | TxType.CreateNftCollection => Some executeCreateNftCollection
  | TxType.MintNft => Some executeMintNft
  | TxType.WrapNft => Some executeWrapNft
  | TxType.TransferNft => Some executeTransferNft
  | TxType.BurnNft => Some executeBurnNft
  | TxType.UpdateNftMetadata => Some executeUpdateNftMetadata
  | TxType.TopUpNft => Some executeTopUpNft
  | TxType.ClaimNftReward => Some executeClaimNftReward
  | TxType.RefillCollectionReward => Some executeRefillCollectionReward
  | _ => None
  end.

(** The checks before dispatch, ending with the fee. *)
Definition precheck (tx : Transaction.t) (ctx : Ctx.t) : Exec State unit :=
  require (Transaction.isWellFormed tx);;
  require (Transaction.chain_id tx =? Ctx.chain_id ctx);;
  require (checkExpiry tx ctx);;
  require (verifySignature tx);;
  nonce_ok ← gets (verifyNonce tx);
  require nonce_ok;;
  chargeFee tx.

(** The body of [execute]: a rejection anywhere is [return failure]. *)
Definition executeBody (tx : Transaction.t) (ctx : Ctx.t) : Handler :=
  precheck tx ctx;;
  match dispatch (Transaction.tx_type tx) with
  | None => fail
  | Some handler =>
    fills ← handler tx ctx;
    modify (bumpNonce tx);;
    mret fills
  end.

(** The receipt; both statuses carry the transaction's fee. *)
Definition execute (tx : Transaction.t) (ctx : Ctx.t) : Exec State Receipt.t := fun st =>
  match executeBody tx ctx st with
  | (Ok fills, st') => (Ok (Receipt.mk ReceiptStatus.Success (Transaction.fee tx) fills), st')
  | (Fail, st') => (Ok (Receipt.mk ReceiptStatus.Failure (Transaction.fee tx) []), st')
  | (Crash, st') => (Crash, st')
  end.
End executor.

(** ** System slash *)

Definition slashAmount (v : ValidatorInfo.t) : N :=
  applyBps (ValidatorInfo.stake v) SLASH_AMOUNT_BPS.

Definition executeSystemSlash (validator_id slash_height : N) (st : State) : State :=
  match getValidator validator_id st with
  | None => st
  | Some validator =>
    if SEED_SLASH_EXEMPT && ValidatorInfo.is_seed validator then st
    else
      let slash_amount := slashAmount validator in
      let validator :=
        if slash_amount <=? ValidatorInfo.stake validator
        then validator <| ValidatorInfo.stake := ValidatorInfo.stake validator -64 slash_amount |>
        else validator in
      let validator := ValidatorInfo.applyInfractionPenalty slash_height validator in
      let st := putValidator validator st in
      if 0 <? slash_amount then
        putGlobalU64 "pot" (getGlobalU64 "pot" st +64 slash_amount) st
      else st
  end.
