(* ===== verification/Rotation.v ===== *)
(** * Validator registry and rotation

    src/src/Core/ValidatorRotation.cpp over the [ValidatorRegistry] of
    src/src/Core/ValidatorTypes.h: how many validators rotate, the target size
    of the active set, the plans of a rotation and of an offline removal, their
    application, uptime scoring, and the emergency active set.

    [std::sort] is used with comparators that have ties, and leaves the order of
    equivalent elements open.  It is the class [StdSort]: some permutation of the
    input that is sorted when the comparator is a strict weak order, which is
    what the C++ standard promises.  Every theorem holds for any such sort.

    Shown: a plan of the same size replaces few enough members to leave a quorum,
    seeds stay, and applying a plan keeps the registry consistent (the active set
    is strictly sorted and is exactly the set of records flagged active). *)

From S2P Require Import Prelude Types StateAccess.

(** ** Constants (Core/RewardTypes.h, GlobalConfig.h) *)

Definition TARGET_ROTATION_EPOCHS : N := 21.
Definition TRAFFIC_SATURATION_TX : N := 1000.
Definition UPTIME_EMA_ALPHA_BPS : N := 2000.
Definition ACTIVE_SET_MAX : N := 100.
Definition ACTIVE_SET_DEFAULT : N := 11.
Definition SEED_NODES_COUNT : N := 2.

(** [(n * 2) / 3 + 1] *)
Definition bftQuorum (n : N) : N := (n *64 2) / 3 + 1.

(** ** [std::sort] *)

(** What the standard asks of a comparator, for the comparators of the code. *)
Record strict_weak {A} (lt : A -> A -> bool) : Prop := {
  sw_asym a b : lt a b = true -> lt b a = false;
  sw_ntrans a b c : lt b a = false -> lt c b = false -> lt c a = false;
}.

Class StdSort := {
  std_sort : forall {A : Type}, (A -> A -> bool) -> list A -> list A;
  std_sort_perm {A} (lt : A -> A -> bool) (l : list A) : std_sort lt l ≡ₚ l;
  std_sort_sorted {A} (lt : A -> A -> bool) (l : list A) :
    strict_weak lt -> StronglySorted (fun a b => lt b a = false) (std_sort lt l);
}.

(** ** ValidatorRegistry (Core/ValidatorTypes.h) *)

Record ValidatorRegistry := mkRegistry {
  rg_validators : list ValidatorInfo.t;
  rg_active_set : list N;
  rg_last_rotation_height : N;
  rg_target_size : N;
}.
#[global] Instance eta_ValidatorRegistry : Eta ValidatorRegistry := fun x =>
  mkRegistry (rg_validators x) (rg_active_set x) (rg_last_rotation_height x) (rg_target_size x).

(** The linear scan of [find]. *)
Fixpoint findValidator (id : N) (vs : list ValidatorInfo.t) : option ValidatorInfo.t :=
  match vs with
  | [] => None
  | v :: vs => if ValidatorInfo.id v =? id then Some v else findValidator id vs
  end.

Definition find (id : N) (r : ValidatorRegistry) : option ValidatorInfo.t :=
  if id =? INVALID_ID then None else findValidator id (rg_validators r).

(** A write through the pointer [find] returns: the first record with the id. *)
Fixpoint updateValidator (id : N) (f : ValidatorInfo.t -> ValidatorInfo.t)
    (vs : list ValidatorInfo.t) : list ValidatorInfo.t :=
  match vs with
  | [] => []
  | v :: vs => if ValidatorInfo.id v =? id then f v :: vs else v :: updateValidator id f vs
  end.

(** ** Counts *)

Definition computeRotationCount (active_set_size : N) : N :=
  if active_set_size =? 0 then 0
  else
    let count := (active_set_size +64 TARGET_ROTATION_EPOCHS -64 1) / TARGET_ROTATION_EPOCHS in
    let quorum := bftQuorum active_set_size in
    if active_set_size <=? quorum then 0
    else
      let max_rotate := active_set_size -64 quorum in
      if max_rotate <? count then max_rotate else count.

Definition computeTargetActiveSetSize (avg_tx_per_block : N) : N :=
  if TRAFFIC_SATURATION_TX <=? avg_tx_per_block then ACTIVE_SET_MAX
  else
    let range := ACTIVE_SET_MAX -64 ACTIVE_SET_MIN in
    let scaled := (avg_tx_per_block *64 range) / TRAFFIC_SATURATION_TX in
    let target := ACTIVE_SET_MIN +64 scaled in
    N.min ACTIVE_SET_MAX (N.max ACTIVE_SET_MIN target).

(** The target of a plan: never below the number of seeds. *)
Definition targetSize (avg_tx_per_block : N) : N :=
  let target_size := computeTargetActiveSetSize avg_tx_per_block in
  if target_size <? SEED_NODES_COUNT then SEED_NODES_COUNT else target_size.

(** ** Planning *)

Definition removalOrder (a b : ValidatorInfo.t) : bool :=
  if ValidatorInfo.uptime_score a =? ValidatorInfo.uptime_score b
  then ValidatorInfo.became_active_at a <? ValidatorInfo.became_active_at b
  else ValidatorInfo.uptime_score a <? ValidatorInfo.uptime_score b.

Definition additionOrder (a b : ValidatorInfo.t) : bool :=
  if ValidatorInfo.uptime_score a =? ValidatorInfo.uptime_score b
  then ValidatorInfo.last_active_at a <? ValidatorInfo.last_active_at b
  else ValidatorInfo.uptime_score b <? ValidatorInfo.uptime_score a.

Record RotationPlan := mkPlan { to_remove : list N; to_add : list N; new_target_size : N }.

Record OfflineCheckResult := mkOffline { removed : list N; promoted : list N }.

Section rotation.
Context `{StdSort}.

(** Active members that may leave, the first to go first. *)
Definition removableMembers (r : ValidatorRegistry) : list ValidatorInfo.t :=
  std_sort removalOrder
    (filter (fun v => ValidatorInfo.is_seed v = false) (omap (fun vid => find vid r) (rg_active_set r))).

(** Waiting validators that may join, the first to join first. *)
Definition addable (v : ValidatorInfo.t) : bool :=
  negb (ValidatorInfo.id v =? INVALID_ID) && negb (ValidatorInfo.is_active v) &&
  ValidatorInfo.canBeActive v.

Definition waitingValidators (r : ValidatorRegistry) : list ValidatorInfo.t :=
  std_sort additionOrder (filter (fun v => addable v = true) (rg_validators r)).

Definition planRotation (r : ValidatorRegistry) (avg_tx_per_block : N) : RotationPlan :=
  let target_size := targetSize avg_tx_per_block in
  let current_size := N.of_nat (length (rg_active_set r)) in
  if target_size <? current_size then
    let to_remove_count := N.to_nat (current_size - target_size) in
    mkPlan (map ValidatorInfo.id (take to_remove_count (removableMembers r))) [] target_size
  else if current_size <? target_size then
    let to_add_count := N.to_nat (target_size - current_size) in
    mkPlan [] (map ValidatorInfo.id (take to_add_count (waitingValidators r))) target_size
  else
    let rotate := N.to_nat (computeRotationCount current_size) in
    let remove := map ValidatorInfo.id (take rotate (removableMembers r)) in
    mkPlan remove (map ValidatorInfo.id (take (length remove) (waitingValidators r))) target_size.

(** ** Application *)

Definition retire (current_height : N) (vs : list ValidatorInfo.t) (vid : N)
    : list ValidatorInfo.t :=
  if vid =? INVALID_ID then vs
  else updateValidator vid (fun v => v <| ValidatorInfo.is_active := false |>
                                       <| ValidatorInfo.last_active_at := current_height |>) vs.

Definition promote (current_height : N) (acc : list ValidatorInfo.t * list N) (vid : N)
    : list ValidatorInfo.t * list N :=
  let '(vs, active) := acc in
  if vid =? INVALID_ID then acc
  else match findValidator vid vs with
  | None => acc
  | Some _ =>
    (updateValidator vid (fun v => v <| ValidatorInfo.is_active := true |>
                                     <| ValidatorInfo.became_active_at := current_height |>) vs,
     active ++ [vid])
  end.

(** The member swap [applyRotation] and [applyOfflineRemoval] share: erase,
    retire, promote, sort. *)
Definition swapMembers (removals additions : list N) (current_height : N)
    (vs : list ValidatorInfo.t) (active : list N) : list ValidatorInfo.t * list N :=
  let active := filter (fun vid => vid ∉ removals) active in
  let vs := foldl (retire current_height) vs removals in
  let '(vs, active) := foldl (promote current_height) (vs, active) additions in
  (vs, std_sort N.ltb active).

Definition applyRotation (r : ValidatorRegistry) (plan : RotationPlan) (current_height : N)
    : ValidatorRegistry :=
  let '(vs, active) := swapMembers (to_remove plan) (to_add plan) current_height
                         (rg_validators r) (rg_active_set r) in
  mkRegistry vs active current_height (new_target_size plan).

(** ** Offline members *)

Definition isOfflineMember (r : ValidatorRegistry) (current_height vid : N) : bool :=
  match find vid r with
  | None => false
  | Some v => negb (ValidatorInfo.is_seed v) && ValidatorInfo.isOffline current_height v
  end.

Definition offlineMembers (r : ValidatorRegistry) (current_height : N) : list N :=
  filter (fun vid => isOfflineMember r current_height vid = true) (rg_active_set r).

Definition planOfflineRemoval (r : ValidatorRegistry) (current_height : N) : OfflineCheckResult :=
  let gone := offlineMembers r current_height in
  match gone with
  | [] => mkOffline [] []
  | _ =>
    let candidates := std_sort additionOrder
      (filter (fun v => addable v = true /\ ValidatorInfo.id v ∉ gone) (rg_validators r)) in
    mkOffline gone (map ValidatorInfo.id (take (length gone) candidates))
  end.

Definition applyOfflineRemoval (r : ValidatorRegistry) (plan : OfflineCheckResult)
    (current_height : N) : ValidatorRegistry :=
  let '(vs, active) := swapMembers (removed plan) (promoted plan) current_height
                         (rg_validators r) (rg_active_set r) in
  mkRegistry vs active (rg_last_rotation_height r) (rg_target_size r).

(** ** Uptime and health *)

Definition updateUptimeScore (old_score pings_responded pings_sent : N) : N :=
  if pings_sent =? 0 then old_score
  else
    let epoch_uptime := u32 (u64 (pings_responded * 10000) / pings_sent) in
    let epoch_uptime := if 10000 <? epoch_uptime then 10000 else epoch_uptime in
    let alpha := UPTIME_EMA_ALPHA_BPS in
    let one_minus := 10000 - alpha in
    u16 (u32 (u32 (alpha * epoch_uptime) + u32 (one_minus * old_score)) / 10000).

Definition findUnhealthy (r : ValidatorRegistry) : list N :=
  map ValidatorInfo.id (filter (fun v => ValidatorInfo.id v <> INVALID_ID /\
    ValidatorInfo.is_seed v = false /\ ValidatorInfo.isHealthy v = false) (rg_validators r)).

(** The penalty, and whether it lowered the multiplier. *)
Definition applyInfractionPenalty (validator : ValidatorInfo.t) (current_height : N)
    : bool * ValidatorInfo.t :=
  let before := ValidatorInfo.reward_multiplier validator in
  let validator := ValidatorInfo.applyInfractionPenalty current_height validator in
  (ValidatorInfo.reward_multiplier validator <? before, validator).

(** ** Emergency active set *)

Definition isLive (r : ValidatorRegistry) (current_height vid : N) : bool :=
  match find vid r with
  | None => false
  | Some v => negb (ValidatorInfo.isOffline current_height v)
  end.

Definition computeEmergencyActiveSet (r : ValidatorRegistry) (committed : list N)
    (current_height : N) (force_rotation : bool) : list N :=
  if (length committed <=? 1)%nat then committed
  else if negb force_rotation then committed
  else
    let live := filter (fun vid => isLive r current_height vid = true) committed in
    let offline := filter (fun vid => isLive r current_height vid = false) committed in
    match offline with
    | [] => committed
    | _ =>
      let pool := std_sort additionOrder
        (filter (fun v => addable v = true /\ ValidatorInfo.id v ∉ committed) (rg_validators r)) in
      std_sort N.ltb (live ++ map ValidatorInfo.id (take (length offline) pool))
    end.

Definition resolveActiveSet (st : State) (committed : list N) (current_height : N)
    (emergency : bool) : list N :=
  if negb emergency then committed
  else computeEmergencyActiveSet
         (mkRegistry (allValidators st) committed 0 ACTIVE_SET_DEFAULT) committed current_height true.
End rotation.

(** ** A sort exists *)

(** stdpp's merge sort is one: an instance for the concrete examples. *)
#[global] Instance sorted_by_dec {A} (lt : A -> A -> bool) :
  RelDecision (fun a b => lt b a = false) := fun a b => decide (lt b a = false).

Definition merge_StdSort : StdSort.
Proof.
  refine {| std_sort A lt l := merge_sort (fun a b => lt b a = false) l |}.
  - intros A lt l. apply merge_sort_Permutation.
  - intros A lt l [Hasym Hnt]. apply StronglySorted_merge_sort.
    + intros x y z. apply Hnt.
    + intros x y. destruct (lt y x) eqn:E; [right; by apply Hasym|by left].
Defined.

(** ** Quorums *)

Lemma bftQuorum_exact n : n < 2 ^ 63 -> bftQuorum n = 2 * n / 3 + 1.
Proof. intros Hn. unfold bftQuorum, mul64. rewrite u64_id by lia. f_equal. f_equal. lia. Qed.

(** Two quorums of a set of [n] share more than the [f = (n - 1) / 3] members
    that may be faulty. *)
Lemma quorums_overlap n : 0 < n < 2 ^ 63 -> n + ((n - 1) / 3 + 1) <= bftQuorum n + bftQuorum n.
Proof.
  intros Hn. rewrite bftQuorum_exact by lia.
  pose proof (N.div_mod (2 * n) 3 ltac:(done)) as H1. pose proof (N.mod_lt (2 * n) 3 ltac:(done)) as H2.
  pose proof (N.div_mod (n - 1) 3 ltac:(done)) as H3.
  revert H1 H2 H3. generalize (2 * n / 3), ((2 * n) mod 3), ((n - 1) / 3), ((n - 1) mod 3). lia.
Qed.

Lemma bftQuorum_le n : 0 < n < 2 ^ 63 -> bftQuorum n <= n.
Proof.
  intros Hn. rewrite bftQuorum_exact by lia.
  pose proof (N.div_mod (2 * n) 3 ltac:(done)) as H1. pose proof (N.mod_lt (2 * n) 3 ltac:(done)) as H2.
  revert H1 H2. generalize (2 * n / 3), ((2 * n) mod 3). lia.
Qed.

Lemma computeRotationCount_le n : n < 2 ^ 63 -> 0 < n -> computeRotationCount n + bftQuorum n <= n \/ computeRotationCount n = 0.
Proof.
  intros Hn H0. unfold computeRotationCount. destruct (N.eqb_spec n 0); [lia|].
  pose proof (bftQuorum_exact n Hn) as Hq.
  assert (bftQuorum n < w64) by (rewrite Hq; pose proof (N.Div0.div_le_upper_bound (2 * n) 3 n); lia).
  destruct (N.leb_spec n (bftQuorum n)); [by right|]. left. rewrite sub64_id by lia.
  destruct (N.ltb_spec (n - bftQuorum n) ((n +64 TARGET_ROTATION_EPOCHS -64 1) / TARGET_ROTATION_EPOCHS)); lia.
Qed.

(** ** Records under an update *)

Definition keeps_id (f : ValidatorInfo.t -> ValidatorInfo.t) : Prop :=
  forall v, ValidatorInfo.id (f v) = ValidatorInfo.id v.

Lemma findValidator_id i vs v : findValidator i vs = Some v -> v ∈ vs /\ ValidatorInfo.id v = i.
Proof.
  induction vs as [|w vs IH]; cbn; [done|]. destruct (N.eqb_spec (ValidatorInfo.id w) i).
  - intros [= <-]. split; [left|done].
  - intros [Hin Hid]%IH. split; [by right|done].
Qed.

Lemma findValidator_update i j f vs :
  keeps_id f -> findValidator i (updateValidator j f vs) =
    if i =? j then f <$> findValidator i vs else findValidator i vs.
Proof.
  intros Hf. induction vs as [|v vs IH]; cbn; [by destruct (i =? j)|].
  destruct (N.eqb_spec (ValidatorInfo.id v) j) as [Hj|Hj]; cbn; rewrite ?Hf.
  - destruct (N.eqb_spec (ValidatorInfo.id v) i) as [Hi|Hi].
    + rewrite (proj2 (N.eqb_eq i j)) by congruence. done.
    + rewrite (proj2 (N.eqb_neq i j)) by congruence. done.
  - destruct (N.eqb_spec (ValidatorInfo.id v) i) as [Hi|Hi]; [|exact IH].
    by rewrite (proj2 (N.eqb_neq i j)) by congruence.
Qed.

Lemma map_id_update j f vs :
  keeps_id f -> map ValidatorInfo.id (updateValidator j f vs) = map ValidatorInfo.id vs.
Proof.
  intros Hf. induction vs as [|v vs IH]; cbn; [done|].
  destruct (_ =? j); cbn; by rewrite ?Hf, ?IH.
Qed.

(** The records of all listed ids updated by one function. *)
Fixpoint updateAll (f : ValidatorInfo.t -> ValidatorInfo.t) (ids : list N)
    (vs : list ValidatorInfo.t) : list ValidatorInfo.t :=
  match ids with
  | [] => vs
  | vid :: ids => updateAll f ids (if vid =? INVALID_ID then vs else updateValidator vid f vs)
  end.

Section updateAll.
Context (f : ValidatorInfo.t -> ValidatorInfo.t) (Hf : keeps_id f) (Hidem : forall v, f (f v) = f v).

Lemma map_id_updateAll ids : forall vs,
  map ValidatorInfo.id (updateAll f ids vs) = map ValidatorInfo.id vs.
Proof.
  induction ids as [|i ids IH]; intros vs; [done|]. cbn. rewrite IH.
  destruct (i =? INVALID_ID); [done|]. by apply map_id_update.
Qed.

Lemma findValidator_updateAll i ids : forall vs,
  i <> INVALID_ID -> findValidator i (updateAll f ids vs) =
    if bool_decide (i ∈ ids) then f <$> findValidator i vs else findValidator i vs.
Proof.
  induction ids as [|j ids IH]; intros vs Hi; [done|]. cbn. rewrite IH by done.
  assert (Hj : findValidator i (if j =? INVALID_ID then vs else updateValidator j f vs) =
    if i =? j then f <$> findValidator i vs else findValidator i vs).
  { destruct (N.eqb_spec j INVALID_ID) as [->|_]; [|by apply findValidator_update].
    by rewrite (proj2 (N.eqb_neq i INVALID_ID)). }
  rewrite Hj. destruct (N.eqb_spec i j) as [->|Hne].
  - rewrite (bool_decide_eq_true_2 (j ∈ j :: ids)) by left.
    case_bool_decide; [|done]. destruct (findValidator j vs); cbn; by rewrite ?Hidem.
  - rewrite (bool_decide_ext (i ∈ j :: ids) (i ∈ ids)); [done|]. rewrite elem_of_cons. naive_solver.
Qed.
End updateAll.

(** ** Consistency of a registry *)

Record Consistent (vs : list ValidatorInfo.t) (active : list N) : Prop := {
  cs_ids : NoDup (filter (fun i => i <> INVALID_ID) (map ValidatorInfo.id vs));
  cs_sorted : StronglySorted N.lt active;
  cs_active i : i ∈ active <->
    i <> INVALID_ID /\ exists v, findValidator i vs = Some v /\ ValidatorInfo.is_active v = true;
}.

Lemma findValidator_elem vs v :
  NoDup (filter (fun i => i <> INVALID_ID) (map ValidatorInfo.id vs)) -> v ∈ vs ->
  ValidatorInfo.id v <> INVALID_ID -> findValidator (ValidatorInfo.id v) vs = Some v.
Proof.
  induction vs as [|w vs IH]; [by intros _ ?%elem_of_nil|].
  cbn [map findValidator]. intros Hnd Hin Hv. apply elem_of_cons in Hin as [->|Hin]; [by rewrite N.eqb_refl|].
  assert (Hin' : ValidatorInfo.id v ∈ filter (fun i => i <> INVALID_ID) (map ValidatorInfo.id vs)).
  { apply list_elem_of_filter. split; [done|]. by apply list_elem_of_fmap_2. }
  destruct (N.eqb_spec (ValidatorInfo.id w) (ValidatorInfo.id v)) as [He|Hne].
  - rewrite filter_cons_True in Hnd by congruence. apply NoDup_cons in Hnd as [Hni _]. by rewrite He in Hni.
  - apply IH; [|done|done]. rewrite filter_cons in Hnd. destruct (decide _); [|done].
    by apply NoDup_cons in Hnd as [_ ?].
Qed.

(** ** Swapping members *)

Section swap.
Context `{StdSort} (h : N).

Let retired (v : ValidatorInfo.t) : ValidatorInfo.t :=
  v <| ValidatorInfo.is_active := false |> <| ValidatorInfo.last_active_at := h |>.
Let joined (v : ValidatorInfo.t) : ValidatorInfo.t :=
  v <| ValidatorInfo.is_active := true |> <| ValidatorInfo.became_active_at := h |>.

Lemma foldl_retire ids : forall vs, foldl (retire h) vs ids = updateAll retired ids vs.
Proof. induction ids as [|i ids IH]; intros vs; [done|]. cbn. rewrite IH. done. Qed.

Lemma foldl_promote ids : forall vs active,
  Forall (fun i => i <> INVALID_ID /\ is_Some (findValidator i vs)) ids ->
  foldl (promote h) (vs, active) ids = (updateAll joined ids vs, active ++ ids).
Proof.
  induction ids as [|i ids IH]; intros vs active Hids; cbn; [by rewrite app_nil_r|].
  apply Forall_cons in Hids as [[Hi [v Hv]] Hids].
  rewrite (proj2 (N.eqb_neq i INVALID_ID) Hi), Hv. rewrite IH.
  - by rewrite <- app_assoc.
  - eapply Forall_impl; [exact Hids|]. intros j [Hj Hs]. split; [done|].
    rewrite findValidator_update by done. destruct (j =? i); [|done]. by apply fmap_is_Some.
Qed.

Lemma ltb_strict_weak : strict_weak N.ltb.
Proof. split; intros; rewrite ?N.ltb_lt, ?N.ltb_ge in *; lia. Qed.

(** A sorted duplicate-free list of ids is strictly increasing. *)
Lemma sort_ids l : NoDup l -> StronglySorted N.lt (std_sort N.ltb l).
Proof.
  intros Hnd. pose proof (std_sort_sorted N.ltb l ltb_strict_weak) as Hs.
  assert (Hnd' : NoDup (std_sort N.ltb l)) by (by rewrite std_sort_perm).
  revert Hs Hnd'. generalize (std_sort N.ltb l). clear.
  induction 1 as [|x l Hs IH Hx]; intros Hnd; constructor; apply NoDup_cons in Hnd as [Hni Hnd].
  - by apply IH.
  - apply Forall_forall. intros y Hy. rewrite Forall_forall in Hx. specialize (Hx y Hy).
    rewrite N.ltb_ge in Hx. assert (x <> y) by congruence. lia.
Qed.

Lemma sorted_nodup (l : list N) : StronglySorted N.lt l -> NoDup l.
Proof.
  induction 1 as [|x l Hs IH Hx]; constructor; [|done].
  intros Hin. rewrite Forall_forall in Hx. specialize (Hx x Hin). lia.
Qed.

Lemma length_erase (removals active : list N) :
  NoDup active -> NoDup removals -> removals ⊆ active ->
  (length (filter (fun vid => vid ∉ removals) active) + length removals = length active)%nat.
Proof.
  intros Hnd Hndr Hsub.
  assert (Hp : filter (fun vid => vid ∉ removals) active ++ removals ≡ₚ active).
  { apply NoDup_Permutation; [|done|].
    - apply NoDup_app. split_and!; [by apply NoDup_filter|by intros i [? _]%list_elem_of_filter|done].
    - intros i. rewrite elem_of_app, list_elem_of_filter. split; [naive_solver|].
      intros Hi. destruct (decide (i ∈ removals)); naive_solver. }
  apply Permutation_length in Hp. by rewrite length_app in Hp.
Qed.

(** Erasing members of the active set and adding waiting records keeps the
    registry consistent, and the new set is the old one minus the ones plus the
    others. *)
Lemma swapMembers_ok removals additions vs active vs' active' :
  Consistent vs active -> removals ⊆ active -> NoDup removals -> NoDup additions ->
  (forall i, i ∈ additions -> i <> INVALID_ID /\
     exists v, findValidator i vs = Some v /\ ValidatorInfo.is_active v = false) ->
  swapMembers removals additions h vs active = (vs', active') ->
  Consistent vs' active' /\
  (forall i, i ∈ active' <-> (i ∈ active /\ i ∉ removals) \/ i ∈ additions) /\
  (length active' + length removals = length active + length additions)%nat.
Proof.
  intros [Hids Hsort Hact] Hsub Hndr Hnda Hadd. unfold swapMembers.
  rewrite foldl_retire, foldl_promote.
  2:{ apply Forall_forall. intros i (Hi & v & Hv & _)%Hadd. split; [done|].
      rewrite findValidator_updateAll by done. case_bool_decide; [apply fmap_is_Some|]; by eexists. }
  intros [= <- <-].
  assert (Hdisj : forall i, i ∈ additions -> i ∉ active).
  { intros i (Hi & v & Hv & Ha)%Hadd [_ (w & Hw & Hb)]%Hact. congruence. }
  set (new := filter (fun vid => vid ∉ removals) active ++ additions).
  assert (Hnew : forall i, i ∈ new <-> (i ∈ active /\ i ∉ removals) \/ i ∈ additions).
  { intros i. unfold new. rewrite elem_of_app, list_elem_of_filter. naive_solver. }
  assert (Hnd : NoDup new).
  { apply NoDup_app. split_and!; [|by intros i [_ Hi]%list_elem_of_filter ?%Hdisj|done].
    apply NoDup_filter. by apply sorted_nodup. }
  split_and!.
  - split.
    + by rewrite !map_id_updateAll.
    + by apply sort_ids.
    + intros i. rewrite std_sort_perm, Hnew, Hact.
      destruct (decide (i = INVALID_ID)) as [->|Hi].
      { split; [|by intros [? _]]. intros [[[? _] _]|Hi]; [done|]. by apply Hadd in Hi as [? _]. }
      rewrite !findValidator_updateAll by done. split.
      * intros [[[_ (v & Hv & Ha)] Hr]|Hin]; (split; [done|]).
        -- rewrite (bool_decide_eq_false_2 (i ∈ removals)) by done.
           rewrite (bool_decide_eq_false_2 (i ∈ additions)).
           2:{ intros (_ & w & Hw & Hb)%Hadd. congruence. }
           by exists v.
        -- rewrite (bool_decide_eq_true_2 (i ∈ additions)) by done.
           destruct (Hadd i Hin) as (_ & v & Hv & _). rewrite Hv.
           case_bool_decide; cbn; by eexists.
      * intros [_ (v & Hv & Ha)]. destruct (decide (i ∈ additions)) as [Hin|Hin]; [by right|]. left.
        rewrite (bool_decide_eq_false_2 (i ∈ additions)) in Hv by done.
        case_bool_decide as Hr.
        -- destruct (findValidator i vs); [|done]. by injection Hv as <-.
        -- by eauto.
  - intros i. by rewrite std_sort_perm.
  - rewrite std_sort_perm. unfold new. rewrite length_app.
    pose proof (length_erase removals active (sorted_nodup _ Hsort) Hndr Hsub). lia.
Qed.
End swap.

(** ** What a plan names *)

Section plans.
Context `{StdSort}.

(** The first [k] of a sorted list are among the list, without repetition. *)
Lemma take_sort_ids lt k (l : list ValidatorInfo.t) :
  NoDup (map ValidatorInfo.id l) ->
  NoDup (map ValidatorInfo.id (take k (std_sort lt l))) /\
  forall i, i ∈ map ValidatorInfo.id (take k (std_sort lt l)) -> exists v, v ∈ l /\ ValidatorInfo.id v = i.
Proof.
  intros Hnd. split.
  - eapply sublist_NoDup with (l2 := map ValidatorInfo.id (std_sort lt l)).
    + by rewrite std_sort_perm.
    + rewrite <- (take_drop k (std_sort lt l)) at 2. rewrite map_app. apply sublist_inserts_r. done.
  - intros i (v & -> & Hv)%list_elem_of_fmap. exists v. split; [|done].
    rewrite <- (std_sort_perm lt l). by eapply elem_of_take in Hv as (j & Hj & _); apply list_elem_of_lookup_2 in Hj.
Qed.

Lemma find_member r i v :
  Consistent (rg_validators r) (rg_active_set r) -> i ∈ rg_active_set r -> find i r = Some v ->
  ValidatorInfo.id v = i.
Proof.
  intros _ _. unfold find. destruct (i =? INVALID_ID); [done|]. by intros [_ ?]%findValidator_id.
Qed.

Lemma find_active r i :
  Consistent (rg_validators r) (rg_active_set r) -> i ∈ rg_active_set r ->
  exists v, find i r = Some v /\ ValidatorInfo.id v = i.
Proof.
  intros Hc Hi. destruct (proj1 (cs_active _ _ Hc i) Hi) as (Hn & v & Hv & _). exists v.
  unfold find. rewrite (proj2 (N.eqb_neq i INVALID_ID) Hn), Hv.
  split; [done|]. exact (proj2 (findValidator_id _ _ _ Hv)).
Qed.

(** The ids of the records of the active set are the active set. *)
Lemma map_id_members r l :
  Consistent (rg_validators r) (rg_active_set r) -> l ⊆ rg_active_set r ->
  map ValidatorInfo.id (omap (fun vid => find vid r) l) = l.
Proof.
  intros Hc. induction l as [|i l IH]; intros Hsub; [done|].
  destruct (find_active r i Hc) as (v & Hv & Hid); [apply Hsub; left|]. cbn. rewrite Hv. cbn.
  rewrite Hid, IH; [done|]. intros j Hj. apply Hsub. by right.
Qed.

Lemma removable_ok r k :
  Consistent (rg_validators r) (rg_active_set r) ->
  let out := map ValidatorInfo.id (take k (removableMembers r)) in
  NoDup out /\ out ⊆ rg_active_set r /\
  forall i v, i ∈ out -> find i r = Some v -> ValidatorInfo.is_seed v = false.
Proof.
  intros Hc out.
  pose proof (map_id_members r (rg_active_set r) Hc ltac:(done)) as Hm.
  destruct (take_sort_ids removalOrder k (filter (fun v => ValidatorInfo.is_seed v = false)
    (omap (fun vid => find vid r) (rg_active_set r)))) as [Hnd Hin].
  { apply filter_NoDup_map. rewrite Hm. apply sorted_nodup, Hc. }
  split; [exact Hnd|]. split.
  - intros i Hi. destruct (Hin i Hi) as (v & [_ Hv]%list_elem_of_filter & Hid).
    rewrite <- Hm, <- Hid. by apply list_elem_of_fmap_2.
  - intros i v Hi Hv. destruct (Hin i Hi) as (w & [Hs (j & Hj & Hw)%list_elem_of_omap]%list_elem_of_filter & Hid).
    pose proof (find_member r j w Hc Hj Hw). assert (j = i) as -> by congruence. congruence.
Qed.

Lemma addable_ok vs k (P : ValidatorInfo.t -> Prop) `{!forall v, Decision (P v)} :
  NoDup (filter (fun i => i <> INVALID_ID) (map ValidatorInfo.id vs)) ->
  (forall v, P v -> addable v = true) ->
  let new := map ValidatorInfo.id (take k (std_sort additionOrder (filter P vs))) in
  NoDup new /\ forall i, i ∈ new -> i <> INVALID_ID /\ exists v, findValidator i vs = Some v /\
    ValidatorInfo.is_active v = false /\ ValidatorInfo.canBeActive v = true /\ P v.
Proof.
  intros Hnd HP new.
  assert (Hadd : forall v, P v -> ValidatorInfo.id v <> INVALID_ID /\
    ValidatorInfo.is_active v = false /\ ValidatorInfo.canBeActive v = true).
  { intros v Hv%HP. unfold addable in Hv.
    rewrite !andb_true_iff, !negb_true_iff, N.eqb_neq in Hv. tauto. }
  destruct (take_sort_ids additionOrder k (filter P vs)) as [Hn Hin].
  { clear -Hnd Hadd. induction vs as [|v vs IH]; [constructor|]. cbn [map] in Hnd.
    rewrite filter_cons in Hnd. rewrite filter_cons. destruct (decide (P v)) as [Hp|Hp].
    - destruct (Hadd v Hp) as [Hi _]. rewrite decide_True in Hnd by done.
      apply NoDup_cons in Hnd as [Hni Hnd]. cbn. constructor; [|by apply IH].
      intros (w & Hw & [Hpw Hwin]%list_elem_of_filter)%list_elem_of_fmap. apply Hni.
      apply list_elem_of_filter. split; [done|]. rewrite Hw. by apply list_elem_of_fmap_2.
    - apply IH. destruct (decide _) in Hnd; [|done]. by apply NoDup_cons in Hnd as [_ ?]. }
  split; [exact Hn|]. intros i Hi. destruct (Hin i Hi) as (v & [Hp Hv]%list_elem_of_filter & <-).
  destruct (Hadd v Hp) as (Hne & Hna & Hcb). split; [done|]. exists v.
  split_and!; [by apply findValidator_elem|done|done|done].
Qed.
End plans.

(** ** Rotation is safe *)

Section safety.
Context `{StdSort}.

(** What a plan may name, given a consistent registry. *)
Record plan_ok (r : ValidatorRegistry) (plan : RotationPlan) : Prop := {
  po_nodup_remove : NoDup (to_remove plan);
  po_nodup_add : NoDup (to_add plan);
  po_members : to_remove plan ⊆ rg_active_set r;
  po_not_seed i v : i ∈ to_remove plan -> find i r = Some v -> ValidatorInfo.is_seed v = false;
  po_waiting i : i ∈ to_add plan -> i <> INVALID_ID /\
    exists v, findValidator i (rg_validators r) = Some v /\
      ValidatorInfo.is_active v = false /\ ValidatorInfo.canBeActive v = true;
  po_count : (length (to_add plan) <= length (to_remove plan) \/ to_remove plan = [])%nat;
}.

Lemma planRotation_ok r avg :
  Consistent (rg_validators r) (rg_active_set r) -> plan_ok r (planRotation r avg).
Proof.
  intros Hc. pose proof (fun k => removable_ok r k Hc) as Hr.
  pose proof (fun k => addable_ok (rg_validators r) k (fun v => addable v = true) (cs_ids _ _ Hc)
    ltac:(done)) as Ha. cbv zeta in Hr, Ha.
  assert (Hw : forall k i, i ∈ map ValidatorInfo.id (take k (waitingValidators r)) ->
    i <> INVALID_ID /\ exists v, findValidator i (rg_validators r) = Some v /\
      ValidatorInfo.is_active v = false /\ ValidatorInfo.canBeActive v = true).
  { intros k i Hi. destruct (proj2 (Ha k) i Hi) as (? & v & ? & ? & ? & _). eauto. }
  unfold planRotation. case_match; [|case_match].
  - split; cbn; [apply Hr|constructor|apply Hr|intros i v; apply Hr|by intros i ?%elem_of_nil|lia].
  - split; cbn; [constructor|apply Ha|by intros i ?%elem_of_nil|by intros i v ?%elem_of_nil|apply Hw|by right].
  - split; cbn; [apply Hr|apply Ha|apply Hr|intros i v; apply Hr|apply Hw|].
    left. rewrite length_map, length_take. lia.
Qed.

Lemma plan_removals r avg :
  N.of_nat (length (rg_active_set r)) = new_target_size (planRotation r avg) ->
  (length (to_remove (planRotation r avg)) <=
   N.to_nat (computeRotationCount (N.of_nat (length (rg_active_set r)))))%nat.
Proof.
  unfold planRotation. case_match eqn:E1; cbn; [intros Heq; rewrite <- Heq, N.ltb_irrefl in E1; done|].
  case_match eqn:E2; cbn; [lia|]. intros _. rewrite length_map, length_take. lia.
Qed.

Lemma plan_additions r avg :
  N.of_nat (length (rg_active_set r)) = new_target_size (planRotation r avg) ->
  to_remove (planRotation r avg) = [] -> to_add (planRotation r avg) = [].
Proof.
  unfold planRotation. case_match eqn:E1; cbn; [done|].
  case_match eqn:E2; cbn; [intros Heq; rewrite <- Heq, N.ltb_irrefl in E2; done|].
  intros _ ->. done.
Qed.

(** C39: rotation is safe.  Applying the plan of an epoch to a consistent
    registry gives a consistent registry (the active set is strictly increasing
    and is exactly the set of records flagged active); seeds stay; whoever joins
    was waiting and eligible; and a rotation that keeps the size keeps at least a
    quorum of the previous members. *)
Theorem rotation_safe (r : ValidatorRegistry) (avg_tx_per_block height : N) :
  Consistent (rg_validators r) (rg_active_set r) ->
  0 < N.of_nat (length (rg_active_set r)) < 2 ^ 63 ->
  let plan := planRotation r avg_tx_per_block in
  let r' := applyRotation r plan height in
  Consistent (rg_validators r') (rg_active_set r') /\
  (forall i v, i ∈ rg_active_set r -> find i r = Some v -> ValidatorInfo.is_seed v = true ->
     i ∈ rg_active_set r') /\
  (forall i, i ∈ rg_active_set r' -> i ∉ rg_active_set r ->
     exists v, find i r = Some v /\ ValidatorInfo.canBeActive v = true) /\
  (N.of_nat (length (rg_active_set r)) = new_target_size plan ->
     bftQuorum (N.of_nat (length (rg_active_set r))) <=
       N.of_nat (length (filter (fun i => i ∈ rg_active_set r') (rg_active_set r))) /\
     (length (rg_active_set r') <= length (rg_active_set r))%nat).
Proof.
  intros Hc Hn plan r'. destruct (planRotation_ok r avg_tx_per_block Hc) as [Hnr Hna Hmem Hns Hw Hcnt].
  fold plan in Hnr, Hna, Hmem, Hns, Hw, Hcnt. unfold r', applyRotation.
  destruct (swapMembers _ _ _ _ _) as [vs' active'] eqn:E. cbn.
  destruct (swapMembers_ok height _ _ _ _ _ _ Hc Hmem Hnr Hna
    ltac:(intros i (? & v & ? & ? & _)%Hw; eauto) E) as (Hc' & Hin & Hlen).
  split_and!; [done|..].
  - intros i v Hi Hv Hs. apply Hin. left. split; [done|]. intros Hr. rewrite (Hns i v Hr Hv) in Hs. done.
  - intros i [[Hi _]|Hi]%Hin Hni; [done|]. destruct (Hw i Hi) as (Hi0 & v & Hv & _ & Hcb).
    exists v. unfold find. by rewrite (proj2 (N.eqb_neq i INVALID_ID) Hi0).
  - intros Hsize. pose proof (plan_removals r avg_tx_per_block Hsize) as Hrem. fold plan in Hrem.
    assert (Hkeep : filter (fun i => i ∈ active') (rg_active_set r) =
      filter (fun i => i ∉ to_remove plan) (rg_active_set r)).
    { clear -Hin Hw Hc. assert (Hsub : rg_active_set r ⊆ rg_active_set r) by done. revert Hsub.
      generalize (rg_active_set r) at 1 3 4. intros l. induction l as [|i l IH]; intros Hsub; [done|].
      assert (Hi : i ∈ rg_active_set r) by (apply Hsub; left).
      assert (i ∉ to_add plan).
      { intros (Hi0 & v & Hv & Hna' & _)%Hw. apply (cs_active _ _ Hc) in Hi as (_ & w & Hw' & Ha). congruence. }
      rewrite !filter_cons, IH by (intros j Hj; apply Hsub; by right).
      repeat case_decide; try done; exfalso; naive_solver. }
    rewrite Hkeep.
    pose proof (length_erase _ _ (sorted_nodup _ (cs_sorted _ _ Hc)) Hnr Hmem) as Hl.
    set (n := N.of_nat (length (rg_active_set r))) in *.
    assert (Hq : bftQuorum n + N.of_nat (length (to_remove plan)) <= n).
    { destruct (computeRotationCount_le n) as [Hle|H0]; [lia..|].
      rewrite H0 in Hrem. pose proof (bftQuorum_le n). lia. }
    split; [lia|]. destruct Hcnt as [Hcnt|H0]; [lia|].
    pose proof (plan_additions r avg_tx_per_block Hsize H0) as Hadd0. fold plan in Hadd0.
    rewrite Hadd0 in Hlen. cbn in Hlen. lia.
Qed.
End safety.

(** Two seeds and two members of an active set of four, and one waiting. *)
Definition sampleValidator (id : N) (seed active : bool) (uptime : N) : ValidatorInfo.t :=
  ValidatorInfo.fresh <| ValidatorInfo.id := id |> <| ValidatorInfo.stake := 2000000 |>
    <| ValidatorInfo.is_seed := seed |> <| ValidatorInfo.is_active := active |>
    <| ValidatorInfo.uptime_score := uptime |>.

Definition sampleRegistry : ValidatorRegistry :=
  mkRegistry [ValidatorInfo.fresh; sampleValidator 1 true true 9500; sampleValidator 2 true true 9900;
    sampleValidator 3 false true 9400; sampleValidator 4 false true 9800;
    sampleValidator 5 false false 10000] [1; 2; 3; 4] 0 4.

Lemma sampleRegistry_Consistent :
  Consistent (rg_validators sampleRegistry) (rg_active_set sampleRegistry).
Proof.
  split.
  - apply (bool_decide_unpack _). vm_compute. exact I.
  - repeat constructor.
  - intros i. cbn [rg_active_set sampleRegistry]. rewrite !elem_of_cons, elem_of_nil. split.
    + intros [->|[->|[->|[->|[]]]]]; (split; [done|]); by eexists.
    + intros [_ (v & [Hv <-]%findValidator_id & Ha)]. cbn in Hv.
      rewrite !elem_of_cons, elem_of_nil in Hv.
      destruct Hv as [->|[->|[->|[->|[->|[->|[]]]]]]]; cbn in Ha |- *; by auto.
Qed.

Lemma rotation_safe_witness :
  let r' := @applyRotation merge_StdSort sampleRegistry (@planRotation merge_StdSort sampleRegistry 21) 60 in
  Consistent (rg_validators r') (rg_active_set r') /\ rg_active_set r' = [1; 2; 4; 5].
Proof.
  split; [|vm_compute; reflexivity].
  apply (@rotation_safe merge_StdSort sampleRegistry 21 60); [exact sampleRegistry_Consistent|].
  split; reflexivity.
Defined.

(** ** Emergency rotation *)

Lemma filter_bool_split {A} (p : A -> bool) (l : list A) :
  (length (filter (fun x => p x = true) l) + length (filter (fun x => p x = false) l) = length l)%nat.
Proof.
  induction l as [|x l IH]; [done|]. rewrite !filter_cons. destruct (p x) eqn:E; repeat case_decide; cbn; try done; lia.
Qed.

(** Emergency sets.  The set an emergency rotation derives has no
    duplicates and no more members than the committed one; every live member
    stays; whoever joins is registered, was not a member and is eligible; and if
    any member is offline, only live ones are kept. *)
Theorem emergency_set_safe `{StdSort} (r : ValidatorRegistry) (committed : list N) (height : N) :
  NoDup (filter (fun i => i <> INVALID_ID) (map ValidatorInfo.id (rg_validators r))) ->
  NoDup committed -> (1 < length committed)%nat ->
  let s := computeEmergencyActiveSet r committed height true in
  NoDup s /\ (length s <= length committed)%nat /\
  (forall i, i ∈ committed -> isLive r height i = true -> i ∈ s) /\
  (forall i, i ∈ s -> i ∉ committed ->
     exists v, find i r = Some v /\ ValidatorInfo.canBeActive v = true) /\
  (forall i, i ∈ s -> i ∈ committed -> isLive r height i = true \/
     forall j, j ∈ committed -> isLive r height j = true).
Proof.
  intros Hids Hnd Hlen s. unfold s, computeEmergencyActiveSet.
  destruct (Nat.leb_spec (length committed) 1); [lia|]. cbn [negb].
  pose proof (filter_bool_split (isLive r height) committed) as Hsplit.
  destruct (filter (fun vid => isLive r height vid = false) committed) as [|o os] eqn:Eoff.
  { assert (Hlive : forall j, j ∈ committed -> isLive r height j = true).
    { intros j Hj. destruct (isLive r height j) eqn:E; [done|]. exfalso.
      assert (Hin : j ∈ filter (fun vid => isLive r height vid = false) committed)
        by (by apply list_elem_of_filter). by rewrite Eoff in Hin; apply elem_of_nil in Hin. }
    split_and!; [done|lia|done|by intros i ? ?|by right]. }
  set (live := filter (fun vid => isLive r height vid = true) committed) in *.
  destruct (addable_ok (rg_validators r) (length (o :: os))
    (fun v => addable v = true /\ ValidatorInfo.id v ∉ committed) Hids ltac:(by intros v [? _])) as [Hna Hadd].
  set (new := map ValidatorInfo.id (take _ _)) in *.
  assert (Hnew : forall i, i ∈ new -> i ∉ committed).
  { intros i Hi. destruct (Hadd i Hi) as (_ & v & Hv & _ & _ & _ & Hn). apply findValidator_id in Hv as [_ <-]. done. }
  split_and!.
  - rewrite std_sort_perm. apply NoDup_app.
    split_and!; [by apply NoDup_filter| |done]. intros i [_ Hi]%list_elem_of_filter Hi'. by apply (Hnew i).
  - rewrite std_sort_perm, length_app. unfold new. rewrite length_map, length_take. lia.
  - intros i Hi Hl. rewrite std_sort_perm, elem_of_app. left. by apply list_elem_of_filter.
  - intros i. rewrite std_sort_perm, elem_of_app. intros [[_ Hi]%list_elem_of_filter|Hi] Hni; [done|].
    destruct (Hadd i Hi) as (Hi0 & v & Hv & _ & Hcb & _). exists v.
    unfold find. by rewrite (proj2 (N.eqb_neq i INVALID_ID) Hi0).
  - intros i. rewrite std_sort_perm, elem_of_app. intros [[Hl _]%list_elem_of_filter|Hi] Hc; [by left|].
    by apply Hnew in Hi.
Qed.

Lemma emergency_set_safe_witness :
  let s := @computeEmergencyActiveSet merge_StdSort sampleRegistry [1; 2; 3; 4] 100 true in
  NoDup s /\ s = [5].
Proof.
  split; [|vm_compute; reflexivity].
  apply (@emergency_set_safe merge_StdSort sampleRegistry [1; 2; 3; 4] 100).
  - apply sampleRegistry_Consistent.
  - apply (bool_decide_unpack _). vm_compute. exact I.
  - cbn. lia.
Defined.
