(* ===== verification/Rewards.v ===== *)
(** * Reward arithmetic

    src/src/Core/RewardCalculator.cpp and the constants of
    src/src/Core/RewardTypes.h: the split of a block reward, the effective APY,
    the stakers' target payout and the pot.

    Shown: the validator share of a block is handed out to the last unit, to
    members whose amounts differ by at most one; the pot's bookkeeping balances
    and never pays more than the pool and the pot hold; the APY stays within
    its caps. *)

From S2P Require Import Prelude Types Rotation.

(** ** Constants *)

Definition STAKER_SHARE_BPS : N := 4000.
Definition VALIDATOR_SHARE_BPS : N := 6000.
Definition PRODUCER_BONUS_BPS : N := 2000.
Definition APY_BASE_BPS : N := 300.
Definition APY_ACTIVITY_MAX_BPS : N := 300.
Definition APY_POT_BONUS_MAX_BPS : N := 300.
Definition BALANCE_BONUS_BPS : N := 300.
Definition BALANCE_BONUS_THRESHOLD : N := 1000 * ATOMIC_UNITS_PER_COIN.
Definition NOMINAL_BLOCK_SECONDS : N := 10.
Definition SECONDS_PER_EPOCH : N := ROTATION_INTERVAL * NOMINAL_BLOCK_SECONDS.
Definition SECONDS_PER_YEAR : N := 31556952.
Definition POT_LOW_EPOCHS : N := (7 * 24 * 3600) / SECONDS_PER_EPOCH.
Definition POT_HIGH_EPOCHS : N := (30 * 24 * 3600) / SECONDS_PER_EPOCH.
Definition POT_MAX_EPOCHS : N := (90 * 24 * 3600) / SECONDS_PER_EPOCH.

(** ** Block reward *)

Record BlockRewardResult := mkBlockReward {
  total_issued : N;
  producer_amount : N;
  set_amount : N;
  validator_rewards : list (N * N);   (* validator id, amount *)
}.

(** The loop that gives [per_validator] to each, and one more while the
    remainder lasts. *)
Fixpoint shareOut (per_validator remainder : N) (ids : list N) : list (N * N) :=
  match ids with
  | [] => []
  | vid :: ids =>
    if 0 <? remainder then (vid, per_validator +64 1) :: shareOut per_validator (remainder - 1) ids
    else (vid, per_validator) :: shareOut per_validator remainder ids
  end.

Definition computeBlockReward (block_reward : N) (active_set : list N) : BlockRewardResult :=
  match active_set with
  | [] => mkBlockReward 0 0 0 []
  | _ =>
    let validator_pool := applyBps block_reward VALIDATOR_SHARE_BPS in
    let producer := applyBps validator_pool PRODUCER_BONUS_BPS in
    let set := validator_pool -64 producer in
    let n := N.of_nat (length active_set) in
    mkBlockReward validator_pool producer set (shareOut (set / n) (set mod n) active_set)
  end.

(** ** APY *)

Definition computeEffectiveApy (apy_base_bps apy_activity_bps apy_pot_bonus_bps : N) : N :=
  let apy := u32 (apy_base_bps + N.min apy_activity_bps APY_ACTIVITY_MAX_BPS) in
  let apy := u32 (apy + N.min apy_pot_bonus_bps APY_POT_BONUS_MAX_BPS) in
  u16 (if 65535 <? apy then 65535 else apy).

Definition computeTargetStakerPayout (total_staked effective_apy_bps epoch_seconds : N) : N :=
  if total_staked =? 0 then 0
  else if effective_apy_bps =? 0 then 0
  else
    let step1 := u128 (total_staked * epoch_seconds) in
    let step2 := u128 (step1 * effective_apy_bps) in
    u64 (step2 / 10000 / SECONDS_PER_YEAR).

Definition computeActivityBps (avg_tx_per_block : N) : N :=
  if avg_tx_per_block =? 0 then 0
  else if TRAFFIC_SATURATION_TX <=? avg_tx_per_block then APY_ACTIVITY_MAX_BPS
  else
    let result := u32 (u128 (avg_tx_per_block * APY_ACTIVITY_MAX_BPS) / TRAFFIC_SATURATION_TX) in
    u16 (if APY_ACTIVITY_MAX_BPS <? result then APY_ACTIVITY_MAX_BPS else result).

Definition computePotBonusBps (pot pool_baseline : N) : N :=
  if pool_baseline =? 0 then 0
  else
    let pot_high := pool_baseline *64 POT_HIGH_EPOCHS in
    let pot_max := pool_baseline *64 POT_MAX_EPOCHS in
    if pot <=? pot_high then 0
    else if pot_max <=? pot then APY_POT_BONUS_MAX_BPS
    else
      let span := pot_max -64 pot_high in
      if span =? 0 then 0
      else
        let result := u32 (u128 ((pot -64 pot_high) * APY_POT_BONUS_MAX_BPS) / span) in
        u16 (if APY_POT_BONUS_MAX_BPS <? result then APY_POT_BONUS_MAX_BPS else result).

(** ** The pot *)

Record PotAdjustment := mkPot {
  distributed : N;
  added_to_pot : N;
  drained_from_pot : N;
  burned : N;
}.

Definition applyPotMechanics (staker_pool target_payout current_pot epoch_pool_baseline : N)
    : PotAdjustment :=
  let pool_baseline := if 0 <? epoch_pool_baseline then epoch_pool_baseline else staker_pool in
  let pot_max := pool_baseline *64 POT_MAX_EPOCHS in
  let '(dist, added, drained) :=
    if target_payout <=? staker_pool then (target_payout, staker_pool -64 target_payout, 0)
    else
      let shortfall := target_payout -64 staker_pool in
      if shortfall <=? current_pot then (target_payout, 0, shortfall)
      else (staker_pool +64 current_pot, 0, current_pot) in
  let new_pot := current_pot +64 added -64 drained in
  mkPot dist added drained (if pot_max <? new_pot then new_pot -64 pot_max else 0).

(** ** Theorems *)

Definition sumAmounts (l : list (N * N)) : N := foldr (fun x acc => snd x + acc) 0 l.

Lemma shareOut_sum per rem ids :
  per + 1 < w64 -> rem <= N.of_nat (length ids) ->
  sumAmounts (shareOut per rem ids) = per * N.of_nat (length ids) + rem.
Proof.
  intros Hp. revert rem. induction ids as [|i ids IH]; intros rem Hr; cbn [shareOut length] in *.
  { cbn. lia. }
  destruct (N.ltb_spec 0 rem).
  - cbn. fold (sumAmounts (shareOut per (rem - 1) ids)). rewrite IH by lia. rewrite add64_id by lia. lia.
  - cbn. fold (sumAmounts (shareOut per rem ids)). rewrite IH by lia. lia.
Qed.

Lemma shareOut_ids per rem ids : map fst (shareOut per rem ids) = ids.
Proof.
  revert rem. induction ids as [|i ids IH]; intros rem; cbn; [done|].
  destruct (0 <? rem); cbn; by rewrite IH.
Qed.

Lemma shareOut_fair per rem ids :
  per + 1 < w64 -> Forall (fun x => per <= snd x <= per + 1) (shareOut per rem ids).
Proof.
  intros Hp. revert rem. induction ids as [|i ids IH]; intros rem; cbn; [constructor|].
  destruct (0 <? rem); constructor; cbn; try done; rewrite ?add64_id; lia.
Qed.

Lemma applyBps_eq v bps : v < w64 -> bps <= 10000 -> applyBps v bps = v * bps / 10000 /\ applyBps v bps <= v.
Proof.
  intros Hv Hb. unfold applyBps. rewrite u128_id by nia.
  assert (v * bps / 10000 <= v) by (apply N.Div0.div_le_upper_bound; nia).
  rewrite u64_id by lia. done.
Qed.

(** What a block hands out, and by which shares. *)
Lemma computeBlockReward_shares block_reward active_set :
  block_reward < w64 -> active_set <> [] ->
  let r := computeBlockReward block_reward active_set in
  let n := N.of_nat (length active_set) in
  total_issued r = block_reward * VALIDATOR_SHARE_BPS / 10000 /\
  producer_amount r + set_amount r = total_issued r /\ total_issued r + 1 < w64 /\
  validator_rewards r = shareOut (set_amount r / n) (set_amount r mod n) active_set.
Proof.
  intros Hb Hne. cbn zeta. unfold computeBlockReward. destruct active_set as [|a l] eqn:El; [done|].
  cbn [total_issued producer_amount set_amount validator_rewards].
  destruct (applyBps_eq block_reward VALIDATOR_SHARE_BPS Hb) as [Hv Hvle]; [done|].
  set (pool := applyBps block_reward VALIDATOR_SHARE_BPS) in *.
  destruct (applyBps_eq pool PRODUCER_BONUS_BPS) as [Hp Hple]; [lia|done|].
  rewrite sub64_id by lia. split_and!; [done|lia| |done].
  rewrite Hv. assert (block_reward * VALIDATOR_SHARE_BPS / 10000 <= w64 * 6000 / 10000)
    by (apply N.Div0.div_le_mono; unfold VALIDATOR_SHARE_BPS; lia).
  change (w64 * 6000 / 10000) with 11068046444225730969 in *. lia.
Qed.

(** An amount shared out over a list is paid to the last unit. *)
Lemma shareOut_total amount ids :
  amount + 1 < w64 -> ids <> [] ->
  let n := N.of_nat (length ids) in
  sumAmounts (shareOut (amount / n) (amount mod n) ids) = amount /\ amount / n + 1 < w64.
Proof.
  intros Ha Hne. cbn zeta. set (n := N.of_nat (length ids)).
  assert (Hn : n <> 0) by (unfold n; destruct ids; cbn; [done|lia]).
  pose proof (N.div_mod amount n Hn) as Hdm. pose proof (N.mod_lt amount n Hn) as Hml.
  assert (amount / n <= amount) by (apply N.Div0.div_le_upper_bound; nia).
  rewrite shareOut_sum by (unfold n in *; lia). fold n. lia.
Qed.

(** Block rewards.  The validator share of a block reward (three fifths,
    rounded down) is split without loss: the producer's fifth and the members'
    amounts add up to it exactly, every member of the active set is paid once,
    in order, and no two amounts differ by more than one unit. *)
Theorem blockReward_exact (block_reward : N) (active_set : list N) :
  block_reward < w64 -> active_set <> [] ->
  let r := computeBlockReward block_reward active_set in
  total_issued r = block_reward * VALIDATOR_SHARE_BPS / 10000 /\
  producer_amount r + sumAmounts (validator_rewards r) = total_issued r /\
  map fst (validator_rewards r) = active_set /\
  (forall x y, x ∈ validator_rewards r -> y ∈ validator_rewards r -> snd x <= snd y + 1).
Proof.
  intros Hb Hne. cbn zeta. destruct (computeBlockReward_shares _ _ Hb Hne) as (Hi & Hs & Hlt & ->).
  destruct (shareOut_total (set_amount (computeBlockReward block_reward active_set)) active_set)
    as [Hsum Hper]; [lia|done|].
  split_and!; [done|lia|apply shareOut_ids|].
  pose proof (shareOut_fair _ (set_amount (computeBlockReward block_reward active_set) mod
    N.of_nat (length active_set)) active_set Hper) as Hf.
  rewrite Forall_forall in Hf. intros x y Hx%Hf Hy%Hf. lia.
Qed.

Lemma blockReward_exact_witness :
  producer_amount (computeBlockReward BLOCK_REWARD [1; 2; 7]) +
    sumAmounts (validator_rewards (computeBlockReward BLOCK_REWARD [1; 2; 7])) = 60000.
Proof. apply (blockReward_exact BLOCK_REWARD [1; 2; 7]); [reflexivity|discriminate]. Defined.

Lemma applyPotMechanics_balances staker_pool target pot baseline :
  staker_pool + pot < w64 -> target < w64 ->
  let a := applyPotMechanics staker_pool target pot baseline in
  distributed a = N.min target (staker_pool + pot) /\
  distributed a + added_to_pot a = staker_pool + drained_from_pot a /\
  drained_from_pot a <= pot /\ (staker_pool < target -> added_to_pot a = 0) /\
  (drained_from_pot a = 0 \/ added_to_pot a = 0).
Proof.
  intros Hs Ht. cbn zeta. unfold applyPotMechanics. destruct (N.leb_spec target staker_pool).
  - cbn. rewrite sub64_id by lia. lia.
  - rewrite (sub64_id target) by lia. destruct (N.leb_spec (target - staker_pool) pot); cbn; [lia|].
    rewrite add64_id by lia. lia.
Qed.

(** The pot.  Of an epoch's staker pool and the pot together, the stakers
    are paid the target if the two can cover it and everything otherwise; the
    books balance exactly; the pot is drained only when the pool falls short and
    never below zero; and what is burnt is what exceeds the cap. *)
Theorem pot_balances (staker_pool target pot baseline : N) :
  staker_pool + pot < w64 -> target < w64 -> 0 < baseline -> baseline * POT_MAX_EPOCHS < w64 ->
  let a := applyPotMechanics staker_pool target pot baseline in
  distributed a = N.min target (staker_pool + pot) /\
  distributed a + added_to_pot a = staker_pool + drained_from_pot a /\
  drained_from_pot a <= pot /\ (staker_pool < target -> added_to_pot a = 0) /\
  burned a = pot + added_to_pot a - drained_from_pot a - baseline * POT_MAX_EPOCHS.
Proof.
  intros Hs Ht H0 Hm. destruct (applyPotMechanics_balances staker_pool target pot baseline Hs Ht)
    as (Hd & Hb & Hdr & Ha & _). cbn zeta. split_and!; try done. revert Hd Hb Hdr Ha.
  unfold applyPotMechanics. rewrite (proj2 (N.ltb_lt _ _) H0). unfold mul64. rewrite (u64_id (_ * _)) by done.
  destruct (target <=? staker_pool); [|destruct (_ <=? pot)]; cbn; intros Hd Hb Hdr Ha;
    (rewrite (add64_id pot) by lia; rewrite (sub64_id (pot + _)) by lia;
     case_match eqn:E; [apply N.ltb_lt in E; rewrite sub64_id by lia; done|apply N.ltb_ge in E; lia]).
Qed.

Lemma pot_balances_witness :
  distributed (applyPotMechanics 2400000 3000000 500000 2400000) = 2900000.
Proof. apply (pot_balances 2400000 3000000 500000 2400000); reflexivity. Defined.

(** The APY is within its base plus the two caps. *)
Lemma effectiveApy_capped activity bonus :
  computeEffectiveApy APY_BASE_BPS activity bonus <=
  APY_BASE_BPS + APY_ACTIVITY_MAX_BPS + APY_POT_BONUS_MAX_BPS.
Proof.
  unfold computeEffectiveApy, APY_BASE_BPS, APY_ACTIVITY_MAX_BPS, APY_POT_BONUS_MAX_BPS.
  pose proof (N.le_min_r activity 300). pose proof (N.le_min_r bonus 300).
  rewrite (u32_id (300 + N.min activity 300)) by lia.
  rewrite (u32_id (300 + N.min activity 300 + N.min bonus 300)) by lia.
  destruct (N.ltb_spec 65535 (300 + N.min activity 300 + N.min bonus 300)); [lia|]. unfold u16.
  rewrite N.mod_small; lia.
Qed.
