(* ===== verification/Block.v ===== *)
(** * Blocks

    src/src/Core/Block.cpp: headers and blocks, their wire formats, hashes and
    Merkle roots.

    Shown: a block decodes from its wire bytes to itself, less the ids in its
    timeout votes, which the wire does not carry; the Merkle loop ends;
    and a root over a known number of leaves determines the leaves, unless two
    of the byte strings hashed on the way collide. *)

From S2P Require Import Prelude Types OrderBook StateAccess Wire Codec Rotation Consensus.

Definition CURRENT_BLOCK_VERSION : N := 1.
Definition MAX_HEADER_BYTES : N := 8 * 1024.
Definition MAX_CERT_BYTES : N := 32 * 1024.

Module BlockHeader.
Record t := mk {
  version : N;
  chain_id : N;
  height : N;
  parent_hash : Hash;
  timestamp_ms : N;
  proposer : Address;
  epoch : N;
  rotation_index : N;
  commit_round : N;
  emergency_rotation : N;
  timeout_certificate : list TimeoutVote.t;
  timeout_certificate_hash : Hash;
  state_root : Hash;
  tx_root : Hash;
  receipts_root : Hash;
  epoch_fills_root : Hash;
  validator_set_root : Hash;
  total_fees : N;
  tx_count : N;
  active_validator_count : N;
}.

Definition isWellFormed (h : t) : bool :=
  if negb (version h =? CURRENT_BLOCK_VERSION) then false
  else if chain_id h =? 0 then false
  else if (0 <? height h) && isNull (proposer h) then false
  else if active_validator_count h =? 0 then false
  else if 5000 <? tx_count h then false
  else if (0 <? height h) && isNull (parent_hash h) then false
  else if (0 <? height h) && isNull (state_root h) then false
  else if 0 <? emergency_rotation h then
    negb (bool_decide (timeout_certificate h = [])) && negb (isNull (timeout_certificate_hash h))
  else
    bool_decide (timeout_certificate h = []) && isNull (timeout_certificate_hash h).

Definition serialize (h : t) : bytes :=
  let cert_bytes := serializeCertificate (timeout_certificate h) in
  putU16 (version h) ++ putU64 (chain_id h) ++ putU64 (height h) ++ putHash (parent_hash h) ++
  putU64 (timestamp_ms h) ++ putHash (proposer h) ++ putU64 (epoch h) ++ putU64 (rotation_index h) ++
  putU64 (commit_round h) ++ putU64 (emergency_rotation h) ++ putHash (state_root h) ++
  putHash (tx_root h) ++ putHash (receipts_root h) ++ putHash (epoch_fills_root h) ++
  putHash (validator_set_root h) ++ putU64 (total_fees h) ++ putU32 (tx_count h) ++
  putU32 (active_validator_count h) ++ putHash (timeout_certificate_hash h) ++
  putU32 (N.of_nat (length cert_bytes)) ++ cert_bytes.

(** Neither the commit round nor the certificate's bytes are hashed. *)
Definition serializeForHash (h : t) : bytes :=
  putU16 (version h) ++ putU64 (chain_id h) ++ putU64 (height h) ++ putHash (parent_hash h) ++
  putU64 (timestamp_ms h) ++ putHash (proposer h) ++ putU64 (epoch h) ++ putU64 (rotation_index h) ++
  putU64 (emergency_rotation h) ++ putHash (state_root h) ++
  putHash (tx_root h) ++ putHash (receipts_root h) ++ putHash (epoch_fills_root h) ++
  putHash (validator_set_root h) ++ putU64 (total_fees h) ++ putU32 (tx_count h) ++
  putU32 (active_validator_count h) ++ putHash (timeout_certificate_hash h).

Definition hash `{Crypto} (h : t) : Hash := hashDomain "CLRTY_BLOCKHDR_V1" (serializeForHash h).

Definition parse : Rd t :=
  version ← readU16; chain_id ← readU64; height ← readU64; parent_hash ← readHash;
  timestamp_ms ← readU64; proposer ← readHash; epoch ← readU64; rotation_index ← readU64;
  commit_round ← readU64; emergency_rotation ← readU64; state_root ← readHash; tx_root ← readHash;
  receipts_root ← readHash; epoch_fills_root ← readHash; validator_set_root ← readHash;
  total_fees ← readU64; tx_count ← readU32; active_validator_count ← readU32;
  checkOk;;
  timeout_certificate_hash ← readHash;
  checkOk;;
  cert_len ← readU32; checkOk;; require (cert_len <=? MAX_CERT_BYTES);;
  left ← remaining; require (N.to_nat cert_len <=? left)%nat;;
  cert_bytes ← readVector (N.to_nat cert_len);
  checkOk;;
  timeout_certificate ← fetch (fun _ => deserializeCertificate cert_bytes);
  left ← remaining; require (left =? 0)%nat;;
  mret (mk version chain_id height parent_hash timestamp_ms proposer epoch rotation_index commit_round
    emergency_rotation timeout_certificate timeout_certificate_hash state_root tx_root receipts_root
    epoch_fills_root validator_set_root total_fees tx_count active_validator_count).

Definition deserialize (data : bytes) : option t := decode parse data.

Record wf (h : t) : Prop := {
  wf_version : version h < w16; wf_chain : chain_id h < w64; wf_height : height h < w64;
  wf_parent : wf_hash (parent_hash h); wf_time : timestamp_ms h < w64;
  wf_proposer : wf_hash (proposer h); wf_epoch : epoch h < w64; wf_rotation : rotation_index h < w64;
  wf_round : commit_round h < w64; wf_emergency : emergency_rotation h < w64;
  wf_state : wf_hash (state_root h); wf_tx : wf_hash (tx_root h);
  wf_receipts : wf_hash (receipts_root h); wf_fills : wf_hash (epoch_fills_root h);
  wf_set : wf_hash (validator_set_root h); wf_fees : total_fees h < w64; wf_count : tx_count h < w32;
  wf_active : active_validator_count h < w32; wf_cert_hash : wf_hash (timeout_certificate_hash h);
  wf_cert : Forall TimeoutVote.wf (timeout_certificate h);
  wf_cert_len : (length (timeout_certificate h) <= 95)%nat;
}.

(** The header a receiver has: the certificate's votes come without their
    signers' ids. *)
Definition received (h : t) : t :=
  mk (version h) (chain_id h) (height h) (parent_hash h) (timestamp_ms h) (proposer h) (epoch h)
    (rotation_index h) (commit_round h) (emergency_rotation h)
    (map TimeoutVote.received (timeout_certificate h)) (timeout_certificate_hash h) (state_root h)
    (tx_root h) (receipts_root h) (epoch_fills_root h) (validator_set_root h) (total_fees h)
    (tx_count h) (active_validator_count h).
End BlockHeader.

Module ValidatorSignature.
Record t := mk { signer_index : N; signature : bytes }.
Record wf (v : t) : Prop := {
  wf_index : signer_index v < w16; wf_signature : length (signature v) = 64%nat;
}.
Definition encode (v : t) : bytes := putU16 (signer_index v) ++ signature v.
Definition parse : Rd t :=
  signer_index ← readU16; signature ← readVector 64; checkOk;; mret (mk signer_index signature).
End ValidatorSignature.

Module Block.
Record t := mk {
  header : BlockHeader.t;
  transactions : list Transaction.t;
  quorum_signatures : list ValidatorSignature.t;
  participants : list N;
}.

Definition isWellFormed (b : t) : bool :=
  let h := header b in
  BlockHeader.isWellFormed h &&
  (N.of_nat (length (transactions b)) =? BlockHeader.tx_count h) &&
  forallb Transaction.isWellFormed (transactions b) &&
  ((BlockHeader.height h =? 0) ||
   (bftQuorum (BlockHeader.active_validator_count h) <=? N.of_nat (length (quorum_signatures b)))).

(** A length-prefixed byte string. *)
Definition framed (b : bytes) : bytes := putU32 (N.of_nat (length b)) ++ b.

Definition serialize (b : t) : bytes :=
  framed (BlockHeader.serialize (header b)) ++
  putU32 (N.of_nat (length (transactions b))) ++
  concat (map (fun tx => framed (TransactionCodec.serialize tx)) (transactions b)) ++
  putU32 (N.of_nat (length (quorum_signatures b))) ++
  concat (map ValidatorSignature.encode (quorum_signatures b)) ++
  putU32 (N.of_nat (length (participants b))) ++
  concat (map putU64 (participants b)).

(** [count] elements read one after the other. *)
Fixpoint parseMany {A} (count : nat) (m : Rd A) : Rd (list A) :=
  match count with
  | O => mret []
  | S count => a ← m; l ← parseMany count m; mret (a :: l)
  end.

Definition parseTransaction : Rd Transaction.t :=
  tx_size ← readU32; require (tx_size <=? 1000000);; checkOk;;
  txbytes ← readVector (N.to_nat tx_size); checkOk;;
  fetch (fun _ => TransactionCodec.deserialize txbytes).

Definition parseParticipant : Rd N := vid ← readU64; checkOk;; mret vid.

Definition parse : Rd t :=
  hdr_size ← readU32; require (hdr_size <=? MAX_HEADER_BYTES);; checkOk;;
  hdr ← readVector (N.to_nat hdr_size); checkOk;;
  header ← fetch (fun _ => BlockHeader.deserialize hdr);
  tx_count ← readU32; require (tx_count <=? 100000);; checkOk;;
  transactions ← parseMany (N.to_nat tx_count) parseTransaction;
  sig_count ← readU32; require (sig_count <=? 10000);; checkOk;;
  quorum_signatures ← parseMany (N.to_nat sig_count) ValidatorSignature.parse;
  part_count ← readU32; require (part_count <=? 10000);; checkOk;;
  participants ← parseMany (N.to_nat part_count) parseParticipant;
  left ← remaining; require (left =? 0)%nat;;
  mret (mk header transactions quorum_signatures participants).

Definition deserialize (data : bytes) : option t := decode parse data.

Definition hash `{Crypto} (b : t) : Hash := BlockHeader.hash (header b).
End Block.

(** ** Merkle roots *)

Section merkle.
Context `{Crypto}.

(** The bytes hashed for an inner node. *)
Definition merkleInput (l r : Hash) : bytes :=
  ascii_bytes "CLRTY_MERKLE_V1" ++ be_split 32 l ++ be_split 32 r.

(** One level up; an odd last hash is paired with itself. *)
Fixpoint merkleLevel (level : list Hash) : list Hash :=
  match level with
  | a :: b :: level => blake2b (merkleInput a b) :: merkleLevel level
  | [a] => [blake2b (merkleInput a a)]
  | [] => []
  end.

(** [while (level.size() > 1)]; [None] is out of fuel. *)
Fixpoint merkleLoop (fuel : nat) (level : list Hash) : option Hash :=
  match level with
  | [] => None
  | [h] => Some h
  | _ => match fuel with O => None | S fuel => merkleLoop fuel (merkleLevel level) end
  end.

(** The null hash for no leaves; the loop halves the level, so the number of
    leaves is enough fuel ([merkleLoop_ends]). *)
Definition computeMerkleRoot (leaves : list Hash) : Hash :=
  default 0 (merkleLoop (length leaves) leaves).

Definition txLeafInput (tx : Transaction.t) : bytes :=
  ascii_bytes "CLRTY_TXLEAF_V1" ++ be_split 32 (TransactionCodec.signingHash tx).

Definition computeTxRoot (txs : list Transaction.t) : Hash :=
  computeMerkleRoot (map (fun tx => blake2b (txLeafInput tx)) txs).

Definition validatorLeafInput (vid : N) : bytes := ascii_bytes "CLRTY_VALSETLEAF_V1" ++ le_split 8 vid.

Definition computeValidatorSetRoot `{StdSort} (active_set : list N) : Hash :=
  computeMerkleRoot (map (fun vid => blake2b (validatorLeafInput vid)) (std_sort N.ltb active_set)).

Definition computeTimeoutCertificateHash (votes : list TimeoutVote.t) : Hash :=
  match votes with
  | [] => 0
  | _ => hashDomain "CLRTY_TIMEOUTCERT_V1" (serializeCertificate votes)
  end.
End merkle.

(** ** Wire format *)

#[export] Hint Resolve BlockHeader.wf_version BlockHeader.wf_chain BlockHeader.wf_height
  BlockHeader.wf_parent BlockHeader.wf_time BlockHeader.wf_proposer BlockHeader.wf_epoch
  BlockHeader.wf_rotation BlockHeader.wf_round BlockHeader.wf_emergency BlockHeader.wf_state
  BlockHeader.wf_tx BlockHeader.wf_receipts BlockHeader.wf_fills BlockHeader.wf_set BlockHeader.wf_fees
  BlockHeader.wf_count BlockHeader.wf_active BlockHeader.wf_cert_hash : wire.

Lemma fetch_some {S A} (a : A) (st : S) : fetch (fun _ => Some a) st = (Ok a, st).
Proof. done. Qed.

Lemma cert_bytes_le h :
  BlockHeader.wf h ->
  (length (serializeCertificate (BlockHeader.timeout_certificate h)) <= 4 + 95 * 82)%nat.
Proof.
  intros Hw. rewrite length_certificate by apply Hw. pose proof (BlockHeader.wf_cert_len h Hw).
  unfold TIMEOUT_VOTE_WIRE_SIZE. lia.
Qed.

Lemma length_header h :
  BlockHeader.wf h -> N.of_nat (length (BlockHeader.serialize h)) <= MAX_HEADER_BYTES.
Proof.
  intros Hw. pose proof (cert_bytes_le h Hw). unfold BlockHeader.serialize. autorewrite with wire.
  unfold MAX_HEADER_BYTES. lia.
Qed.

Lemma BlockHeader_roundtrip h :
  BlockHeader.wf h -> BlockHeader.deserialize (BlockHeader.serialize h) = Some (BlockHeader.received h).
Proof.
  intros Hw. pose proof (cert_bytes_le h Hw) as Hc.
  unfold BlockHeader.deserialize, BlockHeader.serialize. cbv zeta.
  assert (Hd := deserialize_certificate _ (BlockHeader.wf_cert h Hw)
    ltac:(pose proof (BlockHeader.wf_cert_len h Hw); unfold MAX_CERT_VOTES; lia)).
  assert (Hl : N.of_nat (length (serializeCertificate (BlockHeader.timeout_certificate h))) < w32) by lia.
  revert Hd Hl Hc. generalize (serializeCertificate (BlockHeader.timeout_certificate h)). intros cert Hd Hl Hc.
  eapply decode_ok. unfold BlockHeader.parse. open_input. read_all. rewrite Nat2N.id.
  erewrite bind_ok by (apply require_true, N.leb_le; unfold MAX_CERT_BYTES; lia).
  read_field. erewrite bind_ok by (apply require_true, Nat.leb_le; rewrite length_app; lia).
  erewrite bind_ok by (by apply readVector_put). read_field.
  erewrite bind_ok by (rewrite Hd; apply fetch_some). read_all. reflexivity.
Qed.

(** A list of records, each read back from its own bytes. *)
Lemma parseMany_put {A} (m : Rd A) (enc : A -> bytes) (l : list A) rest' :
  (forall a r, a ∈ l -> m (mkReader (enc a ++ r) false) = (Ok a, mkReader r false)) ->
  Block.parseMany (length l) m (mkReader (concat (map enc l) ++ rest') false) =
  (Ok l, mkReader rest' false).
Proof.
  intros Hm. induction l as [|a l IH]; [done|]. cbn [length map concat Block.parseMany].
  rewrite <- app_assoc. erewrite bind_ok by (apply Hm; left).
  erewrite bind_ok by (apply IH; intros b r Hb; apply Hm; by right). done.
Qed.

Definition tx_ok (tx : Transaction.t) : Prop :=
  TransactionCodec.wf tx /\ Transaction.isWellFormed tx = true.

Lemma length_transaction tx :
  tx_ok tx -> N.of_nat (length (TransactionCodec.serialize tx)) <= 1000000.
Proof.
  intros [Hw Hv]. pose proof (isWellFormed_payload tx Hv).
  unfold TransactionCodec.serialize, TransactionCodec.serializeForSigning. autorewrite with wire.
  rewrite (TransactionCodec.wf_signature tx Hw).
  assert (N.of_nat TX_MAX_PAYLOAD_SIZE = 65536) by reflexivity. lia.
Qed.

Lemma parseTransaction_put tx rest' :
  tx_ok tx ->
  Block.parseTransaction (mkReader (Block.framed (TransactionCodec.serialize tx) ++ rest') false) =
  (Ok tx, mkReader rest' false).
Proof.
  intros Hok. pose proof (length_transaction tx Hok) as Hl.
  pose proof (Transaction_roundtrip tx (proj1 Hok) (proj2 Hok)) as Hd. unfold Block.parseTransaction, Block.framed.
  revert Hl Hd. generalize (TransactionCodec.serialize tx). intros b Hl Hd. rewrite <- app_assoc.
  assert (N.of_nat (length b) < w32) by lia. read_field. rewrite Nat2N.id.
  erewrite bind_ok by (apply require_true; by apply N.leb_le). read_field.
  erewrite bind_ok by (by apply readVector_put). read_field. by rewrite Hd.
Qed.

Lemma parseSignature_put v rest' :
  ValidatorSignature.wf v ->
  ValidatorSignature.parse (mkReader (ValidatorSignature.encode v ++ rest') false) =
  (Ok v, mkReader rest' false).
Proof.
  intros [Hi Hs]. unfold ValidatorSignature.parse, ValidatorSignature.encode. rewrite <- app_assoc.
  read_field. erewrite bind_ok by (by apply readVector_put). read_field. by destruct v.
Qed.

Record block_wf (b : Block.t) : Prop := {
  bw_header : BlockHeader.wf (Block.header b);
  bw_txs : Forall tx_ok (Block.transactions b);
  bw_tx_count : N.of_nat (length (Block.transactions b)) <= 100000;
  bw_sigs : Forall ValidatorSignature.wf (Block.quorum_signatures b);
  bw_sig_count : N.of_nat (length (Block.quorum_signatures b)) <= 10000;
  bw_participants : Forall (fun i => i < w64) (Block.participants b);
  bw_part_count : N.of_nat (length (Block.participants b)) <= 10000;
}.

(** The block a receiver has. *)
Definition receivedBlock (b : Block.t) : Block.t :=
  Block.mk (BlockHeader.received (Block.header b)) (Block.transactions b) (Block.quorum_signatures b)
    (Block.participants b).

Lemma receivedBlock_same b :
  Forall (fun tv => TimeoutVote.signer_id tv = INVALID_ID)
    (BlockHeader.timeout_certificate (Block.header b)) -> receivedBlock b = b.
Proof.
  intros Hids. unfold receivedBlock, BlockHeader.received.
  replace (map TimeoutVote.received _) with (BlockHeader.timeout_certificate (Block.header b)).
  { destruct b as [[] ? ? ?]. reflexivity. }
  induction Hids as [|tv vs Htv Hvs IH]; [done|]. cbn [map]. by rewrite <- IH, TimeoutVote.received_same.
Qed.

Lemma deserialize_block b :
  block_wf b -> Block.deserialize (Block.serialize b) = Some (receivedBlock b).
Proof.
  intros [Hh Htxs Htc Hsigs Hsc Hps Hpc]. unfold Block.deserialize, Block.serialize, Block.framed at 1.
  pose proof (length_header _ Hh) as Hl. pose proof (BlockHeader_roundtrip _ Hh) as Hd.
  revert Hl Hd. generalize (BlockHeader.serialize (Block.header b)). intros hdr Hl Hd.
  assert (N.of_nat (length hdr) < w32) by (unfold MAX_HEADER_BYTES in Hl; lia).
  assert (N.of_nat (length (Block.transactions b)) < w32) by lia.
  assert (N.of_nat (length (Block.quorum_signatures b)) < w32) by lia.
  assert (N.of_nat (length (Block.participants b)) < w32) by lia.
  eapply decode_ok. unfold Block.parse. open_input. read_field. rewrite Nat2N.id.
  erewrite bind_ok by (apply require_true; by apply N.leb_le). read_field.
  erewrite bind_ok by (by apply readVector_put). read_field.
  erewrite bind_ok by (rewrite Hd; apply fetch_some). read_field. rewrite Nat2N.id.
  erewrite bind_ok by (apply require_true; by apply N.leb_le). read_field.
  rewrite Forall_forall in Htxs. rewrite Forall_forall in Hsigs. rewrite Forall_forall in Hps.
  erewrite bind_ok by (apply parseMany_put; intros tx r Hin; apply parseTransaction_put; auto).
  read_field. rewrite Nat2N.id.
  erewrite bind_ok by (apply require_true; by apply N.leb_le). read_field.
  erewrite bind_ok by (apply parseMany_put; intros v r Hin; apply parseSignature_put; auto).
  read_field. rewrite Nat2N.id.
  erewrite bind_ok by (apply require_true; by apply N.leb_le). read_field.
  erewrite bind_ok.
  2:{ apply parseMany_put. intros v r Hin. specialize (Hps v Hin). unfold Block.parseParticipant.
      read_field. read_field. reflexivity. }
  read_all. reflexivity.
Qed.

(** C40: blocks survive the wire, but for the ids of the timeout certificate's
    signers.  A block whose fields fit their C++ types, whose transactions are
    well formed and whose sections are within the decoder's limits (at most 95
    votes in the certificate) decodes from its bytes to the same header,
    transactions, quorum signatures and participants, with [signer_id] of each
    vote of the certificate replaced by [INVALID_ID]: the wire has no such
    field, and the votes an engine collects have it set.  The received block
    has the hash and the bytes of the one sent, and its certificate verifies
    against any committed set exactly when the one sent does; a block whose
    votes carry no ids decodes to itself. *)
Theorem Block_roundtrip `{Crypto} (b : Block.t) :
  block_wf b ->
  Block.deserialize (Block.serialize b) = Some (receivedBlock b) /\
  Block.hash (receivedBlock b) = Block.hash b /\
  Block.serialize (receivedBlock b) = Block.serialize b /\
  (forall committed_set h r lookup,
     verifyTimeoutCertificate committed_set h r lookup
       (BlockHeader.timeout_certificate (Block.header (receivedBlock b))) =
     verifyTimeoutCertificate committed_set h r lookup
       (BlockHeader.timeout_certificate (Block.header b))) /\
  (Forall (fun tv => TimeoutVote.signer_id tv = INVALID_ID)
     (BlockHeader.timeout_certificate (Block.header b)) ->
   Block.deserialize (Block.serialize b) = Some b).
Proof.
  intros Hw. pose proof (deserialize_block b Hw) as Hd. split_and!; [done|done| | |].
  - unfold Block.serialize, BlockHeader.serialize. cbv zeta. cbn [receivedBlock Block.header BlockHeader.received BlockHeader.timeout_certificate]. by rewrite serialize_received.
  - intros. apply verify_received.
  - intros Hids. by rewrite Hd, receivedBlock_same.
Qed.

(** ** What a Merkle root binds *)

(** No two distinct byte strings of a list have the same hash. *)
Definition collisionFreeOn `{Crypto} (inputs : list bytes) : Prop :=
  forall x y, x ∈ inputs -> y ∈ inputs -> blake2b x = blake2b y -> x = y.

(** Inputs with distinct digests, by evaluation. *)
Fixpoint distinctDigests (seen : list (Hash * bytes)) : bool :=
  match seen with
  | [] => true
  | (h, x) :: seen =>
    forallb (fun '(h', y) => negb (h =? h') || bool_decide (x = y)) seen && distinctDigests seen
  end.

Lemma distinctDigests_ok (C : Crypto) inputs :
  distinctDigests (map (fun x => (blake2b x, x)) inputs) = true -> collisionFreeOn inputs.
Proof.
  intros Hd x y Hx Hy E. revert Hd Hx Hy. induction inputs as [|z inputs IH]; cbn [map distinctDigests].
  { intros _ Hx. by apply elem_of_nil in Hx. }
  rewrite andb_true_iff, forallb_forall. intros [Hz Hd].
  assert (Hsame : forall w, w ∈ inputs -> blake2b z = blake2b w -> z = w).
  { intros w Hw Ew. specialize (Hz (blake2b w, w)). rewrite Ew, N.eqb_refl in Hz. cbn [negb orb] in Hz.
    apply (bool_decide_eq_true_1 (z = w)), Hz, list_elem_of_In.
    by apply (list_elem_of_fmap_2 (fun x => (blake2b x, x))). }
  intros [->|Hx]%elem_of_cons [->|Hy]%elem_of_cons; try done.
  - by apply Hsame.
  - symmetry. by apply Hsame.
  - by apply IH.
Qed.

Section binding.
Context `{Crypto}.

(** The strings hashed for one level, and for the whole tree. *)
Fixpoint levelInputs (level : list Hash) : list bytes :=
  match level with
  | a :: b :: level => merkleInput a b :: levelInputs level
  | [a] => [merkleInput a a]
  | [] => []
  end.

Fixpoint merkleInputs (fuel : nat) (level : list Hash) : list bytes :=
  match level with
  | [] | [_] => []
  | _ => match fuel with
    | O => []
    | S fuel => levelInputs level ++ merkleInputs fuel (merkleLevel level)
    end
  end.

Lemma list_pair_ind (P : list Hash -> Prop) :
  P [] -> (forall a, P [a]) -> (forall a b l, P l -> P (a :: b :: l)) -> forall l, P l.
Proof.
  intros H0 H1 H2. fix IH 1. intros [|a [|b l]]; [exact H0|exact (H1 a)|exact (H2 a b l (IH l))].
Qed.

Lemma length_merkleLevel l : length (merkleLevel l) = ((length l + 1) / 2)%nat.
Proof.
  induction l as [|a|a b l IH] using list_pair_ind; [done|done|]. cbn [merkleLevel length]. rewrite IH.
  replace (S (S (length l)) + 1)%nat with (length l + 1 + 1 * 2)%nat by lia.
  rewrite Nat.div_add by done. lia.
Qed.

(** The loop ends: the level shrinks until one hash is left. *)
Lemma merkleLoop_ends fuel : forall l,
  l <> [] -> (length l <= fuel)%nat -> is_Some (merkleLoop fuel l).
Proof.
  induction fuel as [|fuel IH]; intros [|a [|b l]] Hne Hl; try done; cbn [length] in Hl; try lia.
  cbn [merkleLoop]. apply IH; [done|]. rewrite length_merkleLevel. cbn [length].
  pose proof (Nat.div_mod (S (S (length l)) + 1) 2 ltac:(done)). lia.
Qed.

Lemma merkleInput_inj a b c d :
  wf_hash a -> wf_hash b -> wf_hash c -> wf_hash d ->
  merkleInput a b = merkleInput c d -> a = c /\ b = d.
Proof.
  intros Ha Hb Hc Hd E. unfold merkleInput in E. apply app_inv_head in E.
  apply app_inj_1 in E as [E1 E2]; [|by rewrite !length_be_split].
  split; [by apply (be_split_inj 32) in E1|by apply (be_split_inj 32) in E2].
Qed.

Lemma merkleLevel_inj l1 : forall l2,
  length l1 = length l2 -> Forall wf_hash l1 -> Forall wf_hash l2 ->
  collisionFreeOn (levelInputs l1 ++ levelInputs l2) -> merkleLevel l1 = merkleLevel l2 -> l1 = l2.
Proof.
  induction l1 as [|a|a b l1 IH] using list_pair_ind; intros [|c [|d l2]] Hlen H1 H2 Hcf E; try done.
  - rewrite Forall_singleton in H1. rewrite Forall_singleton in H2. injection E as E.
    apply Hcf in E; [|cbn; set_solver..]. by apply merkleInput_inj in E as [-> _].
  - rewrite !Forall_cons in H1. rewrite !Forall_cons in H2. destruct H1 as (? & ? & ?), H2 as (? & ? & ?).
    cbn [merkleLevel] in E. injection E as E1 E2. cbn [levelInputs] in Hcf.
    apply Hcf in E1; [|set_solver..]. apply merkleInput_inj in E1 as [-> ->]; try done.
    f_equal. f_equal. apply IH; try done; [by injection Hlen|].
    intros x y Hx Hy. apply Hcf; set_solver.
Qed.

Lemma merkleLoop_inj (Hwf : forall x, wf_hash (blake2b x)) fuel : forall l1 l2 r,
  length l1 = length l2 -> Forall wf_hash l1 -> Forall wf_hash l2 ->
  collisionFreeOn (merkleInputs fuel l1 ++ merkleInputs fuel l2) ->
  merkleLoop fuel l1 = Some r -> merkleLoop fuel l2 = Some r -> l1 = l2.
Proof.
  induction fuel as [|fuel IH]; intros [|a [|b l1]] [|c [|d l2]] r Hlen H1 H2 Hcf; try done;
    try (by cbn; intros [= ->] [= ->]); [].
  assert (Hlen' : length (merkleLevel (a :: b :: l1)) = length (merkleLevel (c :: d :: l2)))
    by (rewrite !length_merkleLevel; f_equal; f_equal; exact Hlen).
  cbn [merkleLoop merkleInputs] in *. intros E1 E2.
  apply merkleLevel_inj; try done; [intros x y Hx Hy; apply Hcf; set_solver|].
  assert (Hlw : forall l, Forall wf_hash (merkleLevel l)).
  { intros l. induction l as [|?|??? IHl] using list_pair_ind; cbn; repeat constructor; auto. }
  eapply IH; [exact Hlen'|apply Hlw|apply Hlw| |exact E1|exact E2].
  intros x y Hx Hy. apply Hcf; set_solver.
Qed.

(** Everything hashed for the root of a list of transactions. *)
Definition txRootInputs (txs : list Transaction.t) : list bytes :=
  map (fun tx => ascii_bytes TransactionCodec.TX_DOMAIN ++ TransactionCodec.serializeForSigning tx) txs ++
  map txLeafInput txs ++
  merkleInputs (length txs) (map (fun tx => blake2b (txLeafInput tx)) txs).
End binding.

(** An odd last leaf is paired with itself, so repeating it keeps the root: the
    number of leaves has to be known for the root to bind them. *)
Lemma merkle_odd_tail `{Crypto} (a b c : Hash) : computeMerkleRoot [a; b; c] = computeMerkleRoot [a; b; c; c].
Proof. reflexivity. Qed.
