(* ===== verification/Smt.v ===== *)
(** * The sparse Merkle tree

    src/src/State/SparseMerkleTree.cpp over the tables of
    src/src/State/StateDB.cpp: the compressed radix tree whose root is the state
    root of a block.  Nodes are rows of a table, keyed by their hash; an update
    walks from the root, rewrites the nodes on its path and returns the new root.

    The state is the record [Smt] of the tables and of the cached root.  An
    operation is an [Exec] over it.  [Crash] is an access outside a key, a prefix
    or a hash buffer, which the code does not check (a stored node can claim any
    prefix): it stands for everything that follows such an access in C++, where
    the walk reads on past the key and the depth left wraps.  [Fail] is not a
    result of the code: it is a recursion that ran out of fuel.  SmtTheorems shows
    that neither happens on the tables the operations leave.

    The three bindings of the tree (write transaction, read transaction,
    autocommit) reach the same tables, and are one here.  The diagnostic counters
    ([Stats]) are left out. *)

From S2P Require Import Prelude Types Rotation.

Module SparseMerkleTree.

(** ** Key geometry and tags *)

Definition KEY_BITS : nat := 256.
Definition TAG_LEAF : N := 0.
Definition TAG_BRANCH : N := 1.
Definition TAG_DEFAULT : N := 2.
Definition MAX_PREFIX_BITS : N := 256.

(** ** Bits *)

(** Bit [i] of a 32-byte key, most significant first. *)
Definition bitAt (key : Hash) (i : nat) : option bool :=
  byte ← (be_split 32 key : list N) !! (i / 8)%nat;
  Some (negb (N.land byte (N.shiftr 0x80 (N.of_nat (i mod 8))) =? 0)).

(** [(bits[i / 8] >> (7 - (i % 8))) & 1] *)
Definition prefixBit (bits : bytes) (i : nat) : option bool :=
  byte ← (bits : list N) !! (i / 8)%nat;
  Some (negb (N.land (N.shiftr byte (N.of_nat (7 - i mod 8))) 1 =? 0)).

Definition prefixBytes (prefix_len : nat) : nat := ((prefix_len + 7) / 8)%nat.

(** The loop of [sharesPrefix] from index [i], with [n] indexes to go. *)
Fixpoint sharesFrom (key : Hash) (start_bit : nat) (prefix_bits : bytes) (i n : nat) : option bool :=
  match n with
  | O => Some true
  | S n =>
    key_bit ← bitAt key (start_bit + i);
    pb ← prefixBit prefix_bits i;
    if Bool.eqb key_bit pb then sharesFrom key start_bit prefix_bits (S i) n else Some false
  end.

Definition sharesPrefix (key : Hash) (start_bit prefix_len : nat) (prefix_bits : bytes) : option bool :=
  sharesFrom key start_bit prefix_bits 0 prefix_len.

(** The bits a copying loop reads. *)
Definition keyRange (key : Hash) (from n : nat) : option (list bool) := mapM (bitAt key) (seq from n).
Definition prefixRange (bits : bytes) (from n : nat) : option (list bool) := mapM (prefixBit bits) (seq from n).

(** [out[i / 8] |= uint8_t(0x80 >> (i % 8))] *)
Definition setBit (i : nat) (out : bytes) : bytes :=
  alter (fun b => N.lor b (N.shiftr 0x80 (N.of_nat (i mod 8)))) (i / 8)%nat (out : list N).

(** A zeroed buffer in which the set bits of a prefix are set one by one. *)
Fixpoint packFrom (i : nat) (p : list bool) (out : bytes) : bytes :=
  match p with
  | [] => out
  | b :: p => packFrom (S i) p (if b then setBit i out else out)
  end.

Definition packBits (p : list bool) : bytes := packFrom 0 p (replicate (prefixBytes (length p)) 0).

(** The number of bits from [i] on that two keys share, of at most [n]. *)
Fixpoint sharedFrom (a b : Hash) (i n : nat) : nat :=
  match n with
  | O => 0
  | S n => if decide (bitAt a i = bitAt b i) then S (sharedFrom a b (S i) n) else 0
  end.

Definition sharedPrefix (a b : Hash) (start_bit : nat) : option (nat * bytes) :=
  let shared := sharedFrom a b start_bit (KEY_BITS - start_bit) in
  bits ← keyRange a start_bit shared;
  Some (shared, packBits bits).

(** ** Hashing *)

Section hashing.
Context `{Crypto}.

Definition defaultInput (depth : nat) (children : bytes) : bytes :=
  ascii_bytes "dflt" ++ [TAG_DEFAULT] ++ be_split 2 (N.of_nat depth) ++ children.

(** Row [depth] of the table: the empty subtree with [depth] bits to go. *)
Fixpoint defaultRow (depth : nat) : Hash :=
  match depth with
  | O => blake2b (defaultInput 0 [])
  | S d => let h := be_split 32 (defaultRow d) in blake2b (defaultInput (S d) (h ++ h))
  end.

Definition defaultHash (depth : nat) : Hash := defaultRow (Nat.min depth KEY_BITS).

Definition leafInput (key value_hash : Hash) : bytes :=
  ascii_bytes "leaf" ++ [TAG_LEAF] ++ be_split 32 key ++ be_split 32 value_hash.

Definition hashLeaf (key value_hash : Hash) : Hash := blake2b (leafInput key value_hash).

Definition branchInput (prefix_len : nat) (prefix_bits : bytes) (left right : Hash) : bytes :=
  ascii_bytes "brch" ++ [TAG_BRANCH] ++ be_split 2 (N.of_nat prefix_len) ++
  take (prefixBytes prefix_len) prefix_bits ++ be_split 32 left ++ be_split 32 right.

Definition hashBranch (prefix_len : nat) (prefix_bits : bytes) (left right : Hash) : Hash :=
  blake2b (branchInput prefix_len prefix_bits left right).
End hashing.

(** ** Node formats *)

Record LeafNode := mkLeaf { leaf_key : Hash; leaf_value_hash : Hash }.

Record BranchNode := mkBranch {
  prefix_len : nat;
  prefix_bits : bytes;
  left : Hash;
  right : Hash;
}.

Definition slice (from n : nat) (b : bytes) : bytes := take n (drop from b).

Definition parseLeaf (b : bytes) : option LeafNode :=
  if negb (length b =? 65)%nat then None
  else match b with
  | tag :: _ =>
    if negb (tag =? TAG_LEAF) then None
    else Some (mkLeaf (be_combine (slice 1 32 b)) (be_combine (slice 33 32 b)))
  | [] => None
  end.

Definition parseBranch (b : bytes) : option BranchNode :=
  if (length b <? 67)%nat then None
  else match b with
  | tag :: b1 :: b2 :: _ =>
    if negb (tag =? TAG_BRANCH) then None
    else
      let len := N.lor (N.shiftl b1 8) b2 in
      if MAX_PREFIX_BITS <? len then None
      else
        let len := N.to_nat len in
        let nbytes := prefixBytes len in
        if negb (length b =? 67 + nbytes)%nat then None
        else Some (mkBranch len (slice 3 nbytes b)
                     (be_combine (slice (3 + nbytes) 32 b)) (be_combine (slice (35 + nbytes) 32 b)))
  | _ => None
  end.

Definition leafBytes (key value_hash : Hash) : bytes :=
  TAG_LEAF :: be_split 32 key ++ be_split 32 value_hash.

Definition branchBytes (prefix_len : nat) (prefix_bits : bytes) (left right : Hash) : bytes :=
  TAG_BRANCH :: be_split 2 (N.of_nat prefix_len) ++ take (prefixBytes prefix_len) prefix_bits ++
  be_split 32 left ++ be_split 32 right.

(** [!bytes.empty() && bytes[0] == tag] *)
Definition hasTag (tag : N) (b : bytes) : bool :=
  match b with t :: _ => t =? tag | [] => false end.

(** ** Tables *)

Record Smt := mkSmt {
  smt_nodes : gmap Hash bytes;           (* TBL_SMT_NODES *)
  smt_leaves : gmap Hash bytes;          (* TBL_SMT_LEAVES *)
  smt_nodes_hist : gmap bytes bytes;     (* TBL_SMT_NODES_HIST *)
  smt_leaves_hist : gmap bytes bytes;    (* TBL_SMT_LEAVES_HIST *)
  smt_nodes_by_ver : gmap bytes bytes;   (* TBL_SMT_NODES_BY_VER *)
  smt_leaves_by_ver : gmap bytes bytes;  (* TBL_SMT_LEAVES_BY_VER *)
  smt_meta : gmap string bytes;          (* TBL_META *)
  smt_root : Hash;                       (* root_ *)
  smt_height : nat;                      (* height_ *)
  smt_height_dirty : bool;               (* height_dirty_ *)
}.
#[global] Instance eta_Smt : Eta Smt := fun x =>
  mkSmt (smt_nodes x) (smt_leaves x) (smt_nodes_hist x) (smt_leaves_hist x) (smt_nodes_by_ver x)
    (smt_leaves_by_ver x) (smt_meta x) (smt_root x) (smt_height x) (smt_height_dirty x).

Abbreviation Tree := (Exec Smt).

(** An unchecked index: outside the buffer, anything can happen. *)
Definition access {A} (o : option A) : Tree A := fun st =>
  (match o with Some a => Ok a | None => Crash end, st).

Definition histKey (hash : Hash) (version : N) : bytes := be_split 32 hash ++ be_split 8 version.
Definition byVersionKey (version : N) (hash : Hash) : bytes := be_split 8 version ++ be_split 32 hash.

Definition getNode (hash : Hash) : Tree (option bytes) := gets (fun st => smt_nodes st !! hash).
Definition getLeafData (hash : Hash) : Tree (option bytes) := gets (fun st => smt_leaves st !! hash).
Definition getNodeAtVersion (hash : Hash) (version : N) : Tree (option bytes) :=
  gets (fun st => smt_nodes_hist st !! histKey hash version).
Definition getLeafDataAtVersion (hash : Hash) (version : N) : Tree (option bytes) :=
  gets (fun st => smt_leaves_hist st !! histKey hash version).

Definition putNode (hash : Hash) (b : bytes) (version : N) : Tree unit :=
  modify (fun st => st <| smt_nodes ::= <[hash := b]> |>);;
  whenM (negb (version =? 0)) (modify (fun st =>
    st <| smt_nodes_hist ::= <[histKey hash version := b]> |>
       <| smt_nodes_by_ver ::= <[byVersionKey version hash := []]> |>)).

Definition putLeafData (hash : Hash) (value : bytes) (version : N) : Tree unit :=
  modify (fun st => st <| smt_leaves ::= <[hash := value]> |>);;
  whenM (negb (version =? 0)) (modify (fun st =>
    st <| smt_leaves_hist ::= <[histKey hash version := value]> |>
       <| smt_leaves_by_ver ::= <[byVersionKey version hash := []]> |>)).

Section tree.
Context `{Crypto}.

(** The constructor: empty tables, and the root of the empty tree. *)
Definition init : Smt := mkSmt ∅ ∅ ∅ ∅ ∅ ∅ ∅ (defaultHash KEY_BITS) 0 true.

(** ** Node construction *)

Definition makeLeaf (key value_hash : Hash) (version : N) : Tree Hash :=
  let h := hashLeaf key value_hash in
  putNode h (leafBytes key value_hash) version;;
  mret h.

(** The hash buffer has room for a 32-byte prefix. *)
Definition makeBranch (prefix_len : nat) (prefix_bits : bytes) (left right : Hash) (version : N) : Tree Hash :=
  _ ← access (if (prefixBytes prefix_len <=? 32)%nat then Some () else None);
  let h := hashBranch prefix_len prefix_bits left right in
  putNode h (branchBytes prefix_len prefix_bits left right) version;;
  mret h.

(** The leaf's preimage and its value, both under the leaf's hash. *)
Definition writeLeaf (key : Hash) (value : bytes) (version : N) : Tree Hash :=
  let value_hash := blake2b value in
  leaf_hash ← makeLeaf key value_hash version;
  putLeafData leaf_hash value version;;
  mret leaf_hash.

(** ** Read *)

Fixpoint getRecursive (fuel : nat) (node_hash key : Hash) (remaining_depth : nat) : Tree (option bytes) :=
  match fuel with
  | O => fail
  | S fuel =>
    if node_hash =? defaultHash remaining_depth then mret None
    else
      o ← getNode node_hash;
      match o with
      | None => mret None
      | Some b =>
        if hasTag TAG_LEAF b then
          match parseLeaf b with
          | None => mret None
          | Some leaf => if leaf_key leaf =? key then getLeafData node_hash else mret None
          end
        else
          match parseBranch b with
          | None => mret None
          | Some branch =>
            let start_bit := (KEY_BITS - remaining_depth)%nat in
            shares ← access (sharesPrefix key start_bit (prefix_len branch) (prefix_bits branch));
            if negb shares then mret None
            else
              bit ← access (bitAt key (start_bit + prefix_len branch));
              let child_remaining := (remaining_depth - prefix_len branch - 1)%nat in
              let child := if (bit : bool) then right branch else left branch in
              getRecursive fuel child key child_remaining
          end
      end
  end.

(** Every step down consumes at least one bit. *)
Definition walkFuel : nat := S KEY_BITS.

Definition get (key : Hash) : Tree (option bytes) :=
  root ← gets smt_root;
  getRecursive walkFuel root key KEY_BITS.

(** ** Update *)

(** A leaf with another key stands here: a branch over the two leaves. *)
Definition splitLeaf (leaf : LeafNode) (key : Hash) (value : bytes) (remaining_depth : nat) (version : N)
    : Tree Hash :=
  let start_bit := (KEY_BITS - remaining_depth)%nat in
  '(shared_len, shared_bits) ← access (sharedPrefix (leaf_key leaf) key start_bit);
  if (remaining_depth <=? shared_len)%nat then writeLeaf key value version
  else
    old_leaf_hash ← makeLeaf (leaf_key leaf) (leaf_value_hash leaf) version;
    new_leaf_hash ← writeLeaf key value version;
    bit_of_old ← access (bitAt (leaf_key leaf) (start_bit + shared_len));
    if (bit_of_old : bool) then makeBranch shared_len shared_bits new_leaf_hash old_leaf_hash version
    else makeBranch shared_len shared_bits old_leaf_hash new_leaf_hash version.

(** The index at which a key leaves a branch's prefix. *)
Fixpoint divergeFrom (key : Hash) (prefix_start : nat) (bits : bytes) (i n : nat) : option nat :=
  match n with
  | O => Some i
  | S n =>
    key_bit ← bitAt key (prefix_start + i);
    prefix_bit ← prefixBit bits i;
    if Bool.eqb key_bit prefix_bit then divergeFrom key prefix_start bits (S i) n else Some i
  end.

(** The key leaves the branch's prefix: a new branch at the divergence point,
    over the new leaf and the old branch with a shorter prefix. *)
Definition splitBranch (branch : BranchNode) (key : Hash) (value : bytes) (remaining_depth : nat) (version : N)
    : Tree Hash :=
  let prefix_start := (KEY_BITS - remaining_depth)%nat in
  diverge_at ← access (divergeFrom key prefix_start (prefix_bits branch) 0 (prefix_len branch));
  shared ← access (keyRange key prefix_start diverge_at);
  let remaining_prefix_len := (prefix_len branch - diverge_at - 1)%nat in
  rest ← access (prefixRange (prefix_bits branch) (diverge_at + 1) remaining_prefix_len);
  rewritten_branch ← makeBranch remaining_prefix_len (packBits rest) (left branch) (right branch) version;
  new_leaf ← writeLeaf key value version;
  key_bit ← access (bitAt key (prefix_start + diverge_at));
  if (key_bit : bool) then makeBranch diverge_at (packBits shared) rewritten_branch new_leaf version
  else makeBranch diverge_at (packBits shared) new_leaf rewritten_branch version.

(** One child is left: it takes the branch's place, a branch with the joined
    prefix, a leaf as it is. *)
Definition collapse (branch : BranchNode) (new_left new_right child_default : Hash) (version : N) : Tree Hash :=
  let left_is_default := new_left =? child_default in
  let surviving := if left_is_default then new_right else new_left in
  let keep := makeBranch (prefix_len branch) (prefix_bits branch) new_left new_right version in
  o ← getNode surviving;
  match o with
  | None => keep
  | Some b =>
    if hasTag TAG_LEAF b then mret surviving
    else if hasTag TAG_BRANCH b then
      match parseBranch b with
      | Some sb =>
        upper ← access (prefixRange (prefix_bits branch) 0 (prefix_len branch));
        lower ← access (prefixRange (prefix_bits sb) 0 (prefix_len sb));
        let new_prefix := upper ++ [left_is_default] ++ lower in
        makeBranch (prefix_len branch + 1 + prefix_len sb) (packBits new_prefix) (left sb) (right sb) version
      | None => keep
      end
    else keep
  end.

(** The branch over its updated children. *)
Definition rejoin (branch : BranchNode) (new_left new_right : Hash) (remaining_depth child_remaining : nat)
    (version : N) : Tree Hash :=
  let child_default := defaultHash child_remaining in
  if (new_left =? child_default) && (new_right =? child_default) then mret (defaultHash remaining_depth)
  else if (new_left =? child_default) || (new_right =? child_default) then
    collapse branch new_left new_right child_default version
  else makeBranch (prefix_len branch) (prefix_bits branch) new_left new_right version.

Fixpoint updateRecursive (fuel : nat) (node_hash key : Hash) (value : bytes) (is_delete : bool)
    (remaining_depth : nat) (version : N) : Tree Hash :=
  match fuel with
  | O => fail
  | S fuel =>
    (* an empty, missing or corrupt subtree, or the key's own leaf *)
    let replace :=
      if is_delete then mret (defaultHash remaining_depth) else writeLeaf key value version in
    if node_hash =? defaultHash remaining_depth then replace
    else
      o ← getNode node_hash;
      match o with
      | None => replace
      | Some b =>
        if hasTag TAG_LEAF b then
          match parseLeaf b with
          | None => replace
          | Some leaf =>
            if leaf_key leaf =? key then replace
            else if is_delete then makeLeaf (leaf_key leaf) (leaf_value_hash leaf) version
            else splitLeaf leaf key value remaining_depth version
          end
        else
          match parseBranch b with
          | None => replace
          | Some branch =>
            let start_bit := (KEY_BITS - remaining_depth)%nat in
            shares ← access (sharesPrefix key start_bit (prefix_len branch) (prefix_bits branch));
            if negb shares then
              if is_delete then
                makeBranch (prefix_len branch) (prefix_bits branch) (left branch) (right branch) version
              else splitBranch branch key value remaining_depth version
            else
              bit ← access (bitAt key (start_bit + prefix_len branch));
              let child_remaining := (remaining_depth - prefix_len branch - 1)%nat in
              if (bit : bool) then
                new_right ← updateRecursive fuel (right branch) key value is_delete child_remaining version;
                rejoin branch (left branch) new_right remaining_depth child_remaining version
              else
                new_left ← updateRecursive fuel (left branch) key value is_delete child_remaining version;
                rejoin branch new_left (right branch) remaining_depth child_remaining version
          end
      end
  end.

(** [root_ = updateRecursive(root_, ...)] *)
Definition walkFromRoot (key : Hash) (value : bytes) (is_delete : bool) (version : N) : Tree unit :=
  root ← gets smt_root;
  root' ← updateRecursive walkFuel root key value is_delete KEY_BITS version;
  modify (fun st => st <| smt_root := root' |>).

Definition markDirty : Tree unit := modify (fun st => st <| smt_height_dirty := true |>).

Definition update (key : Hash) (value : bytes) (version : N) : Tree Hash :=
  walkFromRoot key value false version;; markDirty;; gets smt_root.

Definition remove (key : Hash) (version : N) : Tree Hash :=
  walkFromRoot key [] true version;; markDirty;; gets smt_root.

(** ** Batches *)

Record Update := mkUpdate { upd_key : Hash; upd_value : bytes; upd_is_delete : bool }.

(** Of a run of equal keys in the sorted list, the last is kept. *)
Fixpoint dedup (ordered : list Update) : list Update :=
  match ordered with
  | u :: ((u' :: _) as rest) => if upd_key u =? upd_key u' then dedup rest else u :: dedup rest
  | _ => ordered
  end.

Fixpoint applyAll (us : list Update) (version : N) : Tree unit :=
  match us with
  | [] => mret ()
  | u :: us =>
    walkFromRoot (upd_key u) (if upd_is_delete u then [] else upd_value u) (upd_is_delete u) version;;
    applyAll us version
  end.

Definition applyBatch `{StdSort} (updates : list Update) (version : N) : Tree Hash :=
  let ordered := std_sort (fun a b => upd_key a <? upd_key b) updates in
  applyAll (dedup ordered) version;; markDirty;; gets smt_root.

(** ** Historical reads *)

Fixpoint getAtVersionRecursive (fuel : nat) (node_hash key : Hash) (remaining_depth : nat) (version : N)
    : Tree (option bytes) :=
  match fuel with
  | O => fail
  | S fuel =>
    if node_hash =? defaultHash remaining_depth then mret None
    else
      o ← getNodeAtVersion node_hash version;
      match o with
      | None => mret None
      | Some b =>
        if hasTag TAG_LEAF b then
          match parseLeaf b with
          | None => mret None
          | Some leaf => if leaf_key leaf =? key then getLeafDataAtVersion node_hash version else mret None
          end
        else
          match parseBranch b with
          | None => mret None
          | Some branch =>
            let start_bit := (KEY_BITS - remaining_depth)%nat in
            shares ← access (sharesPrefix key start_bit (prefix_len branch) (prefix_bits branch));
            if negb shares then mret None
            else
              bit ← access (bitAt key (start_bit + prefix_len branch));
              let child_remaining := (remaining_depth - prefix_len branch - 1)%nat in
              let child := if (bit : bool) then right branch else left branch in
              getAtVersionRecursive fuel child key child_remaining version
          end
      end
  end.

Definition rootKey (version : N) : string := ("smt_root_at_" +:+ pretty version)%string.

Definition storedRoot (o : option bytes) : option Hash :=
  match o with
  | Some b => if (length b =? 32)%nat then Some (be_combine b) else None
  | None => None
  end.

Definition rootAtVersion (version : N) : Tree (option Hash) :=
  gets (fun st => storedRoot (smt_meta st !! rootKey version)).

Definition getAtVersion (key : Hash) (version : N) : Tree (option bytes) :=
  historic_root ← rootAtVersion version;
  match historic_root with
  | None => mret None
  | Some r =>
    root ← gets smt_root;
    if r =? root then get key else getAtVersionRecursive walkFuel r key KEY_BITS version
  end.

(** ** Lifecycle *)

Definition load : Tree unit :=
  modify (fun st =>
    st <| smt_root := default (defaultHash KEY_BITS) (storedRoot (smt_meta st !! "smt_root")) |>
       <| smt_height_dirty := true |>).

Definition save (version : N) : Tree unit :=
  modify (fun st =>
    let root_bytes := be_split 32 (smt_root st) in
    st <| smt_meta ::= <["smt_root" := root_bytes]> |>
       <| smt_meta ::= <[rootKey version := root_bytes]> |>).

(** The loop of [height]: down the left children. *)
Fixpoint heightLoop (fuel : nat) (current : Hash) (remaining h : nat) (nodes : gmap Hash bytes) : option nat :=
  match fuel with
  | O => None
  | S fuel =>
    if current =? defaultHash remaining then Some h
    else match nodes !! current with
    | None => Some h
    | Some b =>
      if hasTag TAG_LEAF b then Some (S h)
      else match parseBranch b with
      | None => Some h
      | Some branch =>
        if (remaining <? prefix_len branch + 1)%nat then Some h
        else if (KEY_BITS <? S h)%nat then Some (S h)
        else heightLoop fuel (left branch) (remaining - (prefix_len branch + 1)) (S h) nodes
      end
    end
  end.

Definition height : Tree nat :=
  st ← gets id;
  if negb (smt_height_dirty st) then mret (smt_height st)
  else
    let h := if smt_root st =? defaultHash KEY_BITS then Some 0%nat
             else heightLoop walkFuel (smt_root st) KEY_BITS 0 (smt_nodes st) in
    match h with
    | None => fail
    | Some h => modify (fun st => st <| smt_height := h |> <| smt_height_dirty := false |>);; mret h
    end.
End tree.

(** ** Pruning (StateDB.cpp) *)

(** The rows of an index below a version, in key order, up to the first row at
    or above it. *)
Fixpoint prunable (keepFrom : N) (keys : list bytes) : list bytes :=
  match keys with
  | [] => []
  | key :: keys =>
    if negb (length key =? 40)%nat then prunable keepFrom keys
    else if keepFrom <=? be_combine (take 8 key) then []
    else key :: prunable keepFrom keys
  end.

Definition pruneOneTable (keepFrom : N) (index hist : gmap bytes bytes) : gmap bytes bytes * gmap bytes bytes :=
  foldl (fun '(index, hist) k => (delete k index, delete (slice 8 32 k ++ take 8 k) hist))
    (index, hist) (prunable keepFrom (merge_sort bytes_le (map fst (map_to_list index)))).

Definition pruneHistory (keepFrom : N) : Tree unit :=
  modify (fun st =>
    let '(nodes_idx, nodes) := pruneOneTable keepFrom (smt_nodes_by_ver st) (smt_nodes_hist st) in
    let '(leaves_idx, leaves) := pruneOneTable keepFrom (smt_leaves_by_ver st) (smt_leaves_hist st) in
    st <| smt_nodes_by_ver := nodes_idx |> <| smt_nodes_hist := nodes |>
       <| smt_leaves_by_ver := leaves_idx |> <| smt_leaves_hist := leaves |>).
End SparseMerkleTree.
