(* ===== verification/SmtTree.v ===== *)
(** * Radix trees as finite maps

    The abstract side of the sparse Merkle tree: bit strings, trees with
    compressed paths, and the three operations on them.  A well-formed tree
    represents a finite map from keys to values, insertion and deletion are
    those of the map, and the tree is determined by the map: whatever the order
    of the operations, equal contents give equal trees. *)

From S2P Require Import Prelude Types Smt.
Import SparseMerkleTree.

#[local] Arguments Nat.div : simpl never.
#[local] Arguments Nat.modulo : simpl never.

(** ** Bits of bytes *)

Lemma land_pow2 b n : negb (N.land b (2 ^ n) =? 0) = N.testbit b n.
Proof.
  assert (E : N.land b (2 ^ n) = if N.testbit b n then 2 ^ n else 0).
  { apply N.bits_inj. intros i. rewrite N.land_spec, N.pow2_bits_eqb.
    destruct (N.eqb_spec n i) as [->|Hn].
    - rewrite andb_true_r. destruct (N.testbit b i) eqn:Eb; [|by rewrite N.bits_0].
      by rewrite N.pow2_bits_true.
    - rewrite andb_false_r. destruct (N.testbit b n); [|by rewrite N.bits_0].
      by rewrite N.pow2_bits_false. }
  rewrite E. destruct (N.testbit b n); [|done].
  destruct (N.eqb_spec (2 ^ n) 0) as [H|]; [|done]. by apply N.pow_nonzero in H.
Qed.

Lemma mask_pow2 m : m < 8 -> N.shiftr 0x80 m = 2 ^ (7 - m).
Proof.
  intros Hm. change 0x80 with (2 ^ 7). rewrite N.shiftr_div_pow2, <- N.pow_sub_r by lia. done.
Qed.

Lemma land_mask b m : m < 8 -> negb (N.land b (N.shiftr 0x80 m) =? 0) = N.testbit b (7 - m).
Proof. intros Hm. rewrite mask_pow2 by done. apply land_pow2. Qed.

Lemma land_shift b n : negb (N.land (N.shiftr b n) 1 =? 0) = N.testbit b n.
Proof. change 1 with (2 ^ 0). rewrite land_pow2, N.shiftr_spec by lia. f_equal. Qed.

Lemma le_split_lookup n : forall v j, (j < n)%nat ->
  (le_split n v : list N) !! j = Some (u8 (N.shiftr v (8 * N.of_nat j))).
Proof.
  induction n as [|n IH]; intros v j Hj; [lia|]. destruct j as [|j]; [done|].
  etrans; [apply (IH (N.shiftr v 8) j); lia|]. rewrite N.shiftr_shiftr. do 3 f_equal. lia.
Qed.

Lemma be_split_lookup n v j : (j < n)%nat ->
  (be_split n v : list N) !! j = Some (u8 (N.shiftr v (8 * N.of_nat (n - S j)))).
Proof.
  intros Hj. unfold be_split, bytes. rewrite reverse_lookup by (by rewrite length_le_split).
  rewrite length_le_split. apply le_split_lookup. lia.
Qed.

Lemma testbit_u8 v i : i < 8 -> N.testbit (u8 v) i = N.testbit v i.
Proof. intros Hi. unfold u8. change w8 with (2 ^ 8). by rewrite N.mod_pow2_bits_low. Qed.

Lemma div8_mod i : (i = 8 * (i / 8) + i mod 8)%nat /\ (i mod 8 < 8)%nat.
Proof. split; [apply Nat.div_mod; done|by apply Nat.mod_upper_bound]. Qed.

Lemma bitAt_lt key i : (i < KEY_BITS)%nat -> bitAt key i = Some (N.testbit key (255 - N.of_nat i)).
Proof.
  unfold KEY_BITS. intros Hi. destruct (div8_mod i) as [Ei Em]. unfold bitAt.
  rewrite be_split_lookup by lia. cbn. f_equal.
  rewrite land_mask, testbit_u8, N.shiftr_spec; [f_equal|..]; lia.
Qed.

Lemma bitAt_ge key i : (KEY_BITS <= i)%nat -> bitAt key i = None.
Proof.
  unfold KEY_BITS. intros Hi. destruct (div8_mod i) as [Ei Em]. unfold bitAt.
  by rewrite lookup_ge_None_2 by (rewrite length_be_split; lia).
Qed.

(** The bits of a key, in the order the tree reads them. *)
Definition keyBits (key : Hash) : list bool :=
  map (fun i => N.testbit key (255 - N.of_nat i)) (seq 0 KEY_BITS).
#[global] Arguments keyBits : simpl never.
Lemma KEY_BITS_256 : KEY_BITS = 256%nat.
Proof. done. Qed.
Opaque KEY_BITS.

Lemma length_keyBits key : length (keyBits key) = KEY_BITS.
Proof. unfold keyBits. by rewrite length_map, length_seq. Qed.

Lemma bitAt_keyBits key i : bitAt key i = keyBits key !! i.
Proof.
  destruct (decide (i < KEY_BITS)%nat) as [Hi|Hi].
  - rewrite bitAt_lt by done. unfold keyBits. rewrite list_lookup_fmap, lookup_seq_lt by done. done.
  - rewrite bitAt_ge, lookup_ge_None_2; [done| |lia]. rewrite length_keyBits. lia.
Qed.

Lemma keyBits_inj a b : wf_hash a -> wf_hash b -> keyBits a = keyBits b -> a = b.
Proof.
  intros Ha Hb E. apply N.bits_inj. intros i. destruct (decide (i < 256)) as [Hi|Hi].
  - assert (Hk : bitAt a (255 - N.to_nat i) = bitAt b (255 - N.to_nat i)) by (by rewrite !bitAt_keyBits, E).
    rewrite !bitAt_lt in Hk by (rewrite KEY_BITS_256; lia).
    injection Hk as Hk. by replace (255 - N.of_nat (255 - N.to_nat i)) with i in Hk by lia.
  - unfold wf_hash in *. rewrite <- (N.mod_small a (2 ^ 256)), <- (N.mod_small b (2 ^ 256)) by done.
    by rewrite !N.mod_pow2_bits_high by lia.
Qed.

(** ** Packed prefixes *)

Lemma prefixBit_setBit i j out : (i < 8 * length out)%nat ->
  prefixBit (setBit i out) j = if decide (i = j) then Some true else prefixBit out j.
Proof.
  intros Hi. destruct (div8_mod i) as [Ei Em], (div8_mod j) as [Ej Ejm]. unfold prefixBit, setBit.
  destruct (decide (i / 8 = j / 8)%nat) as [Ed|Ed].
  - rewrite Ed, list_lookup_alter_eq. destruct (lookup_lt_is_Some_2 out (j / 8)) as [b Eb]; [lia|].
    rewrite Eb. cbn. rewrite !land_shift, N.lor_spec, mask_pow2, N.pow2_bits_eqb by lia.
    destruct (decide (i = j)) as [<-|Hne].
    + replace (_ =? _) with true; [by rewrite orb_true_r|]. symmetry. apply N.eqb_eq. lia.
    + replace (7 - N.of_nat (i mod 8) =? N.of_nat (7 - j mod 8)) with false; [by rewrite orb_false_r|].
      symmetry. apply N.eqb_neq. lia.
  - rewrite list_lookup_alter_ne by done. by destruct (decide (i = j)) as [->|].
Qed.

Lemma length_setBit i out : length (setBit i out) = length out.
Proof. apply length_alter. Qed.

Lemma length_packFrom p : forall i out, length (packFrom i p out) = length out.
Proof.
  induction p as [|b p IH]; intros i out; [done|]. cbn [packFrom]. rewrite IH.
  destruct b; [apply length_setBit|done].
Qed.

Lemma prefixBit_packFrom p : forall i j out, (i + length p <= 8 * length out)%nat ->
  prefixBit out j = Some false -> (i <= j < i + length p)%nat ->
  prefixBit (packFrom i p out) j = p !! (j - i)%nat.
Proof.
  assert (Hbelow : forall p i j out, (i + length p <= 8 * length out)%nat -> (j < i)%nat ->
    prefixBit (packFrom i p out) j = prefixBit out j).
  { clear p. induction p as [|b p IH]; intros i j out Hl Hj; [done|]. cbn [packFrom length] in *.
    rewrite IH; [|destruct b; rewrite ?length_setBit; lia|lia].
    destruct b; [|done]. rewrite prefixBit_setBit, decide_False by lia. done. }
  induction p as [|b p IH]; intros i j out Hl Hf Hj; cbn [packFrom length] in *; [lia|].
  destruct (decide (j = i)) as [->|Hne].
  - rewrite Hbelow; [|destruct b; rewrite ?length_setBit; lia|lia]. rewrite Nat.sub_diag. cbn.
    destruct b; [|done]. by rewrite prefixBit_setBit, decide_True by lia.
  - replace (j - i)%nat with (S (j - S i)) by lia. cbn.
    apply IH; [destruct b; rewrite ?length_setBit; lia| |lia].
    destruct b; [|done]. by rewrite prefixBit_setBit, decide_False by lia.
Qed.

Lemma prefixBytes_room n : (n <= 8 * prefixBytes n)%nat.
Proof. unfold prefixBytes. pose proof (Nat.div_mod (n + 7) 8 ltac:(done)). pose proof (Nat.mod_upper_bound (n + 7) 8 ltac:(done)). lia. Qed.

Lemma length_packBits p : length (packBits p) = prefixBytes (length p).
Proof. unfold packBits. by rewrite length_packFrom, length_replicate. Qed.

Lemma prefixBit_packBits p i : (i < length p)%nat -> prefixBit (packBits p) i = p !! i.
Proof.
  intros Hi. pose proof (prefixBytes_room (length p)). destruct (div8_mod i). unfold packBits.
  rewrite prefixBit_packFrom.
  - by rewrite Nat.sub_0_r.
  - rewrite length_replicate. lia.
  - unfold prefixBit. rewrite lookup_replicate_2 by lia. cbn. by rewrite N.shiftr_0_l.
  - lia.
Qed.

Lemma packBits_inj p q : length p = length q -> packBits p = packBits q -> p = q.
Proof.
  intros Hl E. apply list_eq. intros i. destruct (decide (i < length p)%nat) as [Hi|Hi].
  - rewrite <- !prefixBit_packBits by lia. by rewrite E.
  - by rewrite !lookup_ge_None_2 by lia.
Qed.

Lemma mapM_seq {A} (f : nat -> option A) (l : list A) from n :
  (forall i, (from <= i < from + n)%nat -> f i = l !! i) -> (from + n <= length l)%nat ->
  mapM f (seq from n) = Some (take n (drop from l)).
Proof.
  revert from. induction n as [|n IH]; intros from Hf Hl; [done|].
  destruct (lookup_lt_is_Some_2 l from) as [x Hx]; [lia|].
  cbn [seq]. cbn. rewrite Hf, Hx by lia. cbn. rewrite IH; [|intros i Hi; apply Hf; lia|lia]. cbn.
  by rewrite (drop_S l x from Hx).
Qed.

Lemma keyRange_ok key from n : (from + n <= KEY_BITS)%nat ->
  keyRange key from n = Some (take n (drop from (keyBits key))).
Proof.
  intros Hn. apply mapM_seq; [intros; apply bitAt_keyBits|by rewrite length_keyBits].
Qed.

Lemma prefixRange_ok p from n : (from + n <= length p)%nat ->
  prefixRange (packBits p) from n = Some (take n (drop from p)).
Proof. intros Hn. apply mapM_seq; [|done]. intros i Hi. apply prefixBit_packBits. lia. Qed.

(** ** The longest common prefix *)

Fixpoint lcp (a b : list bool) : nat :=
  match a, b with
  | x :: a, y :: b => if Bool.eqb x y then S (lcp a b) else 0
  | _, _ => 0
  end.

Lemma lcp_comm a : forall b, lcp a b = lcp b a.
Proof.
  induction a as [|x a IH]; intros [|y b]; try done. cbn. destruct x, y; cbn; try done; by rewrite IH.
Qed.

Lemma lcp_le a : forall b, (lcp a b <= length a)%nat /\ (lcp a b <= length b)%nat.
Proof.
  induction a as [|x a IH]; intros [|y b]; cbn; try lia. destruct (Bool.eqb x y); [|lia].
  specialize (IH b). lia.
Qed.

Lemma lcp_take a : forall b, take (lcp a b) a = take (lcp a b) b.
Proof.
  induction a as [|x a IH]; intros [|y b]; cbn; try done.
  destruct (Bool.eqb x y) eqn:E; [|done]. apply eqb_prop in E as ->. cbn. by rewrite IH.
Qed.

Lemma lcp_full a b : lcp a b = length b <-> b `prefix_of` a.
Proof.
  revert b. induction a as [|x a IH]; intros [|y b]; cbn.
  - split; [intros _; apply prefix_nil|done].
  - split; [done|]. intros H. by apply prefix_nil_inv in H.
  - split; [intros _; apply prefix_nil|done].
  - destruct (Bool.eqb x y) eqn:E.
    + apply eqb_prop in E as ->. split.
      * intros [= H]. by apply prefix_cons, IH.
      * intros H. apply prefix_cons_inv_2, IH in H. by rewrite H.
    + split; [done|]. intros H. apply prefix_cons_inv_1 in H as ->. by rewrite eqb_reflx in E.
Qed.

(** Where two strings part, one has the other bit. *)
Lemma lcp_differ a : forall b x y, a !! lcp a b = Some x -> b !! lcp a b = Some y -> y = negb x.
Proof.
  induction a as [|c a IH]; intros [|d b] x y; cbn; try done.
  destruct (Bool.eqb c d) eqn:E; cbn; [apply IH|]. intros [= ->] [= ->]. by destruct x, y.
Qed.

Lemma lcp_same_length a b : length a = length b -> a <> b -> (lcp a b < length a)%nat.
Proof.
  intros Hl Hne. destruct (lcp_le a b) as [H1 H2]. destruct (decide (lcp a b = length b)) as [E|]; [|lia].
  apply lcp_full in E as [z ->]. rewrite length_app in Hl. destruct z; [by rewrite app_nil_r in Hne|].
  cbn in Hl. lia.
Qed.

Lemma sharesFrom_ok key s p n : forall i, (s + i + n <= KEY_BITS)%nat -> (i + n <= length p)%nat ->
  sharesFrom key s (packBits p) i n =
  Some (bool_decide (take n (drop i p) `prefix_of` drop (s + i) (keyBits key))).
Proof.
  induction n as [|n IH]; intros i Hk Hp; cbn [sharesFrom].
  { by rewrite bool_decide_eq_true_2 by apply prefix_nil. }
  destruct (lookup_lt_is_Some_2 (keyBits key) (s + i)) as [x Hx]; [rewrite length_keyBits; lia|].
  destruct (lookup_lt_is_Some_2 p i) as [y Hy]; [lia|].
  rewrite bitAt_keyBits, prefixBit_packBits, Hx, Hy by lia. cbn.
  rewrite IH by lia. rewrite (drop_S _ _ _ Hx), (drop_S _ _ _ Hy). cbn [take].
  replace (s + S i)%nat with (S (s + i)) by lia. destruct (Bool.eqb x y) eqn:E.
  - apply eqb_prop in E as ->. f_equal. apply bool_decide_ext. split; [apply prefix_cons|apply prefix_cons_inv_2].
  - rewrite bool_decide_eq_false_2; [done|]. intros ->%prefix_cons_inv_1. by rewrite eqb_reflx in E.
Qed.

Lemma sharesPrefix_ok key s p : (s + length p <= KEY_BITS)%nat ->
  sharesPrefix key s (length p) (packBits p) = Some (bool_decide (p `prefix_of` drop s (keyBits key))).
Proof.
  intros Hs. unfold sharesPrefix. rewrite sharesFrom_ok by lia. by rewrite drop_0, take_ge, Nat.add_0_r by lia.
Qed.

Lemma sharedFrom_ok a b n : forall i, (i + n = KEY_BITS)%nat ->
  sharedFrom a b i n = lcp (drop i (keyBits a)) (drop i (keyBits b)).
Proof.
  induction n as [|n IH]; intros i Hi; cbn [sharedFrom].
  { rewrite drop_ge by (rewrite length_keyBits; lia). done. }
  destruct (lookup_lt_is_Some_2 (keyBits a) i) as [x Hx]; [rewrite length_keyBits; lia|].
  destruct (lookup_lt_is_Some_2 (keyBits b) i) as [y Hy]; [rewrite length_keyBits; lia|].
  rewrite !bitAt_keyBits, Hx, Hy, IH, (drop_S _ _ _ Hx), (drop_S _ _ _ Hy) by lia. cbn.
  destruct (decide (Some x = Some y)) as [[= ->]|Hne]; [by rewrite eqb_reflx|].
  destruct (Bool.eqb x y) eqn:E; [|done]. apply eqb_prop in E. congruence.
Qed.

Lemma sharedPrefix_ok a b s : (s <= KEY_BITS)%nat ->
  let n := lcp (drop s (keyBits a)) (drop s (keyBits b)) in
  sharedPrefix a b s = Some (n, packBits (take n (drop s (keyBits b)))).
Proof.
  intros Hs n. unfold sharedPrefix. rewrite sharedFrom_ok by lia. fold n.
  destruct (lcp_le (drop s (keyBits a)) (drop s (keyBits b))) as [_ Hn]. fold n in Hn.
  rewrite length_drop, length_keyBits in Hn. rewrite keyRange_ok by lia. cbn. unfold n. by rewrite lcp_take.
Qed.

Lemma divergeFrom_ok key s p n : forall i, (s + i + n <= KEY_BITS)%nat -> (i + n = length p)%nat ->
  divergeFrom key s (packBits p) i n = Some (i + lcp (drop (s + i) (keyBits key)) (drop i p))%nat.
Proof.
  induction n as [|n IH]; intros i Hk Hp; cbn [divergeFrom].
  { rewrite (drop_ge p) by lia. rewrite lcp_comm. cbn. by rewrite Nat.add_0_r. }
  destruct (lookup_lt_is_Some_2 (keyBits key) (s + i)) as [x Hx]; [rewrite length_keyBits; lia|].
  destruct (lookup_lt_is_Some_2 p i) as [y Hy]; [lia|].
  rewrite bitAt_keyBits, prefixBit_packBits, Hx, Hy by lia. cbn.
  rewrite IH by lia. rewrite (drop_S _ _ _ Hx), (drop_S _ _ _ Hy). cbn.
  replace (s + S i)%nat with (S (s + i)) by lia. destruct (Bool.eqb x y); f_equal; lia.
Qed.

(** ** Trees *)

Inductive tree :=
  | Leaf (key : Hash) (value : bytes)
  | Branch (prefix : list bool) (l r : tree).

(** Every leaf lies on the path its key spells. *)
Fixpoint twf (path : list bool) (t : tree) : Prop :=
  match t with
  | Leaf k _ => wf_hash k /\ path `prefix_of` keyBits k
  | Branch p l r => twf (path ++ p ++ [false]) l /\ twf (path ++ p ++ [true]) r
  end.

(** What a tree stores. *)
Fixpoint tmap (t : tree) : gmap Hash bytes :=
  match t with
  | Leaf k v => {[k := v]}
  | Branch _ l r => tmap l ∪ tmap r
  end.

(** The bits of a key below a position, and the one that picks the child. *)
Definition below (s : nat) (k : Hash) : list bool := drop s (keyBits k).
Definition turn (s : nat) (k : Hash) : bool := default false (keyBits k !! s).

Definition fork (p : list bool) (b : bool) (new old : tree) : tree :=
  if b then Branch p old new else Branch p new old.

Fixpoint tinsert (s : nat) (k : Hash) (v : bytes) (t : tree) : tree :=
  match t with
  | Leaf k' v' =>
    if decide (k' = k) then Leaf k v
    else
      let n := lcp (below s k') (below s k) in
      fork (take n (below s k)) (turn (s + n) k) (Leaf k v) (Leaf k' v')
  | Branch p l r =>
    let n := lcp (below s k) p in
    if decide (p `prefix_of` below s k) then
      let s' := (s + length p + 1)%nat in
      if turn (s + length p) k then Branch p l (tinsert s' k v r) else Branch p (tinsert s' k v l) r
    else fork (take n (below s k)) (turn (s + n) k) (Leaf k v) (Branch (drop (S n) p) l r)
  end.

(** A subtree that takes the place of the branch above it. *)
Definition lift (p : list bool) (t : tree) : tree :=
  match t with
  | Leaf k v => Leaf k v
  | Branch q l r => Branch (p ++ q) l r
  end.

Fixpoint tdelete (s : nat) (k : Hash) (t : tree) : option tree :=
  match t with
  | Leaf k' v' => if decide (k' = k) then None else Some t
  | Branch p l r =>
    if decide (p `prefix_of` below s k) then
      let s' := (s + length p + 1)%nat in
      if turn (s + length p) k then
        Some (match tdelete s' k r with Some r' => Branch p l r' | None => lift (p ++ [false]) l end)
      else
        Some (match tdelete s' k l with Some l' => Branch p l' r | None => lift (p ++ [true]) r end)
    else Some t
  end.

(** *** Paths *)

Lemma tmap_path t : forall path k v, twf path t -> tmap t !! k = Some v -> wf_hash k /\ path `prefix_of` keyBits k.
Proof.
  induction t as [k' v'|p l IHl r IHr]; intros path k v Hwf; cbn in *.
  - rewrite lookup_singleton_Some. intros [<- _]. done.
  - intros [H|[_ H]]%lookup_union_Some_raw.
    + destruct Hwf as [Hl _]. destruct (IHl _ _ _ Hl H) as [? Hp]. split; [done|]. etrans; [|exact Hp].
      by apply prefix_app_r.
    + destruct Hwf as [_ Hr]. destruct (IHr _ _ _ Hr H) as [? Hp]. split; [done|]. etrans; [|exact Hp].
      by apply prefix_app_r.
Qed.

Lemma tmap_inhabited t : exists k v, tmap t !! k = Some v.
Proof.
  induction t as [k v|p l (k & v & H) r _]; cbn.
  - exists k, v. by rewrite lookup_singleton_eq.
  - exists k, v. by apply lookup_union_Some_l.
Qed.

Lemma twf_short t path : twf path t -> (length path <= KEY_BITS)%nat.
Proof.
  intros Hwf. destruct (tmap_inhabited t) as (k & v & H). destruct (tmap_path _ _ _ _ Hwf H) as [_ Hp].
  apply prefix_length in Hp. by rewrite length_keyBits in Hp.
Qed.

(** The prefix of a branch ends before the key does. *)
Lemma twf_branch_short path p l r : twf path (Branch p l r) -> (length path + length p < KEY_BITS)%nat.
Proof. intros [Hl _]. apply twf_short in Hl. rewrite !length_app in Hl. cbn in Hl. lia. Qed.

Lemma bit_paths_differ path p (q : list bool) (b : bool) :
  path ++ p ++ [b] `prefix_of` q -> path ++ p ++ [negb b] `prefix_of` q -> False.
Proof.
  rewrite !app_assoc. intros [z Hz] [y Hy]. rewrite Hz, <- !app_assoc in Hy.
  apply app_inv_head, app_inv_head in Hy. cbn in Hy. injection Hy as Hb _. by destruct b.
Qed.

Lemma tmap_disjoint path p l r : twf path (Branch p l r) -> tmap l ##ₘ tmap r.
Proof.
  intros [Hl Hr]. apply map_disjoint_spec. intros k v w H1 H2.
  apply (tmap_path _ _ _ _ Hl) in H1 as [_ H1]. apply (tmap_path _ _ _ _ Hr) in H2 as [_ H2].
  by eapply (bit_paths_differ path p _ false).
Qed.

Lemma path_split path k : path `prefix_of` keyBits k -> keyBits k = path ++ below (length path) k.
Proof. intros [z Hz]. unfold below. rewrite Hz, drop_app_length. done. Qed.

(** A key that shares a prefix takes the turn after it. *)
Lemma path_turn path p k :
  path `prefix_of` keyBits k -> p `prefix_of` below (length path) k -> (length path + length p < KEY_BITS)%nat ->
  path ++ p ++ [turn (length path + length p) k] `prefix_of` keyBits k.
Proof.
  intros Hp [z Hz] Hlt.
  assert (Hk : keyBits k = (path ++ p) ++ z) by (rewrite <- app_assoc, <- Hz; by apply path_split).
  pose proof (length_keyBits k) as Hl. rewrite Hk, !length_app in Hl. destruct z as [|b z]; [cbn in Hl; lia|].
  assert (Ht : turn (length path + length p) k = b).
  { unfold turn. rewrite Hk, <- length_app. rewrite lookup_app_r, Nat.sub_diag by done. done. }
  rewrite Ht, Hk, app_assoc. apply prefix_app. by apply prefix_cons, prefix_nil.
Qed.

Lemma path_above path p q k : path ++ p ++ q `prefix_of` keyBits k -> p `prefix_of` below (length path) k.
Proof.
  intros [z Hz]. unfold below. rewrite Hz, <- !app_assoc, drop_app_length. by apply prefix_app_r.
Qed.

(** The key is absent from a subtree it does not lead to. *)
Lemma tmap_absent path t k : twf path t -> ~ path `prefix_of` keyBits k -> tmap t !! k = None.
Proof.
  intros Hwf Hp. destruct (tmap t !! k) eqn:E; [|done]. by apply (tmap_path _ _ _ _ Hwf) in E as [_ ?].
Qed.

(** *** Insertion *)

Lemma length_below s k : length (below s k) = (KEY_BITS - s)%nat.
Proof. unfold below. by rewrite length_drop, length_keyBits. Qed.

Lemma turn_below s n k b : below s k !! n = Some b -> turn (s + n) k = b.
Proof. unfold below, turn. rewrite lookup_drop. by intros ->. Qed.

Lemma turn_below_Some s n k : (s + n < KEY_BITS)%nat -> below s k !! n = Some (turn (s + n) k).
Proof.
  intros Hn. destruct (lookup_lt_is_Some_2 (below s k) n) as [b Hb]; [rewrite length_below; lia|].
  by rewrite Hb, (turn_below _ _ _ _ Hb).
Qed.

Lemma below_inj path a b : wf_hash a -> wf_hash b -> path `prefix_of` keyBits a -> path `prefix_of` keyBits b ->
  below (length path) a = below (length path) b -> a = b.
Proof.
  intros Ha Hb Pa Pb E. apply keyBits_inj; [done..|]. by rewrite (path_split _ _ Pa), (path_split _ _ Pb), E.
Qed.

Lemma fork_spec path p b new old :
  twf (path ++ p ++ [b]) new -> twf (path ++ p ++ [negb b]) old ->
  twf path (fork p b new old) /\ tmap (fork p b new old) = tmap new ∪ tmap old.
Proof.
  intros Hn Ho. destruct b; cbn in *; [|done]. split; [done|].
  apply map_union_comm. by eapply (tmap_disjoint path p old new).
Qed.

(** Two different keys on one path part before the path ends. *)
Lemma keys_part path k k' : wf_hash k -> wf_hash k' -> k' <> k ->
  path `prefix_of` keyBits k -> path `prefix_of` keyBits k' ->
  let n := lcp (below (length path) k') (below (length path) k) in
  let p := take n (below (length path) k) in
  (length path + n < KEY_BITS)%nat /\
  path ++ p ++ [turn (length path + n) k] `prefix_of` keyBits k /\
  path ++ p ++ [negb (turn (length path + n) k)] `prefix_of` keyBits k'.
Proof.
  intros Hk Hk' Hne Hp Hp' n p. set (s := length path) in *.
  assert (Hn : (n < KEY_BITS - s)%nat).
  { rewrite <- (length_below s k'). apply lcp_same_length; [by rewrite !length_below|].
    intros E. by apply Hne, (below_inj path). }
  assert (Hpl : length p = n) by (unfold p; rewrite length_take, length_below; lia).
  split; [lia|]. split.
  - rewrite <- Hpl at 1. apply path_turn; [done| |fold s; lia]. apply prefix_take.
  - pose proof (turn_below_Some s n k ltac:(lia)) as B. pose proof (turn_below_Some s n k' ltac:(lia)) as B'.
    rewrite <- (negb_involutive (turn (s + n) k)), (lcp_differ _ _ _ _ B' B), !negb_involutive. 
    rewrite <- Hpl at 1. apply path_turn; [done| |fold s; lia].
    unfold p, n. rewrite <- lcp_take. apply prefix_take.
Qed.

(** A key that leaves a branch's prefix does so at some bit of it. *)
Lemma prefix_part path k p : path `prefix_of` keyBits k -> (length path + length p < KEY_BITS)%nat ->
  ~ p `prefix_of` below (length path) k ->
  let n := lcp (below (length path) k) p in
  let q := take n (below (length path) k) in
  (n < length p)%nat /\ length q = n /\ p = q ++ [negb (turn (length path + n) k)] ++ drop (S n) p /\
  path ++ q ++ [turn (length path + n) k] `prefix_of` keyBits k.
Proof.
  intros Hp Hl Hnp n q. set (s := length path) in *.
  assert (Hn : (n < length p)%nat).
  { destruct (lcp_le (below s k) p) as [_ H]. fold n in H.
    destruct (decide (n = length p)) as [E|]; [|lia]. by apply lcp_full in E. }
  assert (Hql : length q = n) by (unfold q; rewrite length_take, length_below; lia).
  split_and!; try done.
  - destruct (lookup_lt_is_Some_2 p n Hn) as [y Hy].
    pose proof (turn_below_Some s n k ltac:(lia)) as B.
    rewrite <- (lcp_differ _ _ _ _ B Hy). unfold q, n. rewrite lcp_take. fold n.
    cbn. rewrite <- (drop_S _ _ _ Hy). symmetry. apply take_drop.
  - rewrite <- Hql at 1. apply path_turn; [done| |fold s; lia]. apply prefix_take.
Qed.

Lemma twf_shorten path q b p l r :
  twf path (Branch (q ++ [b] ++ p) l r) <-> twf (path ++ q ++ [b]) (Branch p l r).
Proof. cbn. by rewrite <- !app_assoc. Qed.

Lemma tinsert_spec k v t : wf_hash k -> forall path, twf path t -> path `prefix_of` keyBits k ->
  twf path (tinsert (length path) k v t) /\ tmap (tinsert (length path) k v t) = <[k := v]> (tmap t).
Proof.
  intros Hk. induction t as [k' v'|p l IHl r IHr]; intros path Hwf Hp; cbn [tinsert].
  - destruct (decide (k' = k)) as [->|Hne].
    { cbn. split; [done|]. by rewrite insert_singleton_eq. }
    destruct Hwf as [Hk' Hp']. destruct (keys_part path k k') as (_ & H1 & H2); [done..|].
    match goal with |- context [fork ?q ?b ?x ?y] => destruct (fork_spec path q b x y) as [? ->] end; [done..|].
    split; [done|]. cbn. by rewrite insert_union_singleton_l.
  - pose proof (twf_branch_short _ _ _ _ Hwf) as Hs.
    destruct (decide (p `prefix_of` below (length path) k)) as [Hpre|Hpre].
    + pose proof (path_turn _ _ _ Hp Hpre Hs) as Ht. destruct Hwf as [Hl Hr].
      assert (El : forall b, length (path ++ p ++ [b]) = (length path + length p + 1)%nat)
        by (intros; rewrite !length_app; cbn; lia).
      destruct (turn (length path + length p) k) eqn:E.
      * destruct (IHr _ Hr Ht) as [Hr' Em]. rewrite El in Hr', Em. cbn. split; [done|]. rewrite Em.
        symmetry. apply insert_union_r. apply (tmap_absent _ _ _ Hl). intros Hf. by eapply (bit_paths_differ path p _ true).
      * destruct (IHl _ Hl Ht) as [Hl' Em]. rewrite El in Hl', Em. cbn. split; [done|]. rewrite Em.
        by rewrite insert_union_l.
    + destruct (prefix_part _ _ _ Hp Hs Hpre) as (_ & _ & Ep & Ht).
      set (n := lcp (below (length path) k) p) in *. rewrite Ep in Hwf. apply twf_shorten in Hwf.
      match goal with |- context [fork ?q ?b ?x ?y] => destruct (fork_spec path q b x y) as [? ->] end; [done..|].
      split; [done|]. cbn. by rewrite insert_union_singleton_l.
Qed.

(** *** Deletion *)

(** The content of a tree that may be empty. *)
Definition omap (o : option tree) : gmap Hash bytes := from_option tmap ∅ o.
Definition owf (path : list bool) (o : option tree) : Prop := match o with Some t => twf path t | None => True end.

Lemma lift_spec path p t : twf (path ++ p) t -> twf path (lift p t) /\ tmap (lift p t) = tmap t.
Proof.
  destruct t as [k v|q l r]; cbn.
  - intros [? Hp]. split; [|done]. split; [done|]. etrans; [|exact Hp]. by apply prefix_app_r.
  - by rewrite <- !app_assoc.
Qed.

Lemma omap_None_delete (m : gmap Hash bytes) k : ∅ = delete k m -> forall j, j <> k -> m !! j = None.
Proof. intros E j Hj. rewrite <- (lookup_delete_ne m k j) by done. by rewrite <- E. Qed.

Lemma tdelete_spec k t : forall path, twf path t -> path `prefix_of` keyBits k ->
  owf path (tdelete (length path) k t) /\ omap (tdelete (length path) k t) = delete k (tmap t).
Proof.
  induction t as [k' v'|p l IHl r IHr]; intros path Hwf Hp; cbn [tdelete].
  - destruct (decide (k' = k)) as [->|Hne]; cbn.
    + split; [done|]. by rewrite delete_singleton_eq.
    + split; [done|]. by rewrite delete_singleton_ne.
  - pose proof (twf_branch_short _ _ _ _ Hwf) as Hs.
    destruct (decide (p `prefix_of` below (length path) k)) as [Hpre|Hpre].
    + pose proof (path_turn _ _ _ Hp Hpre Hs) as Ht. pose proof Hwf as [Hl Hr].
      assert (El : forall b, length (path ++ p ++ [b]) = (length path + length p + 1)%nat)
        by (intros; rewrite !length_app; cbn; lia).
      assert (Habs : forall b t', twf (path ++ p ++ [negb b]) t' -> path ++ p ++ [b] `prefix_of` keyBits k ->
        tmap t' !! k = None).
      { intros b t' Hw Hb. apply (tmap_absent _ _ _ Hw). intros Hf. exact (bit_paths_differ _ _ _ _ Hb Hf). }
      destruct (turn (length path + length p) k) eqn:E.
      * destruct (IHr _ Hr Ht) as [Hr' Em]. rewrite El in Hr', Em. unfold omap. cbn [from_option].
        assert (Edel : tmap l ∪ delete k (tmap r) = delete k (tmap l ∪ tmap r)).
        { rewrite delete_union, (delete_id (tmap l)); [done|]. exact (Habs true l Hl Ht). }
        destruct (tdelete _ k r) as [r'|]; cbn in *; [by rewrite Em|].
        destruct (lift_spec path (p ++ [false]) l) as [? ->]; [done|]. split; [done|].
        by rewrite <- Edel, <- Em, map_union_empty.
      * destruct (IHl _ Hl Ht) as [Hl' Em]. rewrite El in Hl', Em. unfold omap. cbn [from_option].
        assert (Edel : delete k (tmap l) ∪ tmap r = delete k (tmap l ∪ tmap r)).
        { rewrite delete_union, (delete_id (tmap r)); [done|]. exact (Habs false r Hr Ht). }
        destruct (tdelete _ k l) as [l'|]; cbn in *; [by rewrite Em|].
        destruct (lift_spec path (p ++ [true]) r) as [? ->]; [done|]. split; [done|].
        by rewrite <- Edel, <- Em, map_empty_union.
    + split; [done|]. unfold omap. cbn [from_option]. rewrite delete_id; [done|].
      destruct (tmap (Branch p l r) !! k) eqn:E; [|done]. exfalso. apply Hpre. destruct Hwf as [Hl Hr].
      cbn in E. apply lookup_union_Some_raw in E as [E|[_ E]].
      * apply (tmap_path _ _ _ _ Hl) in E as [_ E]. by apply path_above in E.
      * apply (tmap_path _ _ _ _ Hr) in E as [_ E]. by apply path_above in E.
Qed.

(** *** The content determines the tree *)

Lemma branch_two_keys path p l r : twf path (Branch p l r) ->
  forall b, exists k v, tmap (Branch p l r) !! k = Some v /\ path ++ p ++ [b] `prefix_of` keyBits k.
Proof.
  intros Hwf b. pose proof (tmap_disjoint _ _ _ _ Hwf) as Hd. destruct Hwf as [Hl Hr]. destruct b.
  - destruct (tmap_inhabited r) as (k & v & Hk). exists k, v. split; [by apply lookup_union_Some_r|].
    by apply (tmap_path _ _ _ _ Hr) in Hk as [_ ?].
  - destruct (tmap_inhabited l) as (k & v & Hk). exists k, v. split; [by apply lookup_union_Some_l|].
    by apply (tmap_path _ _ _ _ Hl) in Hk as [_ ?].
Qed.

Lemma branch_path path p l r k v : twf path (Branch p l r) -> tmap (Branch p l r) !! k = Some v ->
  path ++ p `prefix_of` keyBits k.
Proof.
  intros [Hl Hr] [E|[_ E]]%lookup_union_Some_raw.
  - apply (tmap_path _ _ _ _ Hl) in E as [_ E]. etrans; [|exact E]. rewrite app_assoc. by apply prefix_app_r.
  - apply (tmap_path _ _ _ _ Hr) in E as [_ E]. etrans; [|exact E]. rewrite app_assoc. by apply prefix_app_r.
Qed.

(** Prefixes of one string are prefixes of each other. *)
Lemma branch_prefix_le path p q l r l' r' : twf path (Branch p l r) -> twf path (Branch q l' r') ->
  tmap (Branch p l r) = tmap (Branch q l' r') -> p `prefix_of` q -> p = q.
Proof.
  intros Hw Hw' E [[|b z] ->]; [by rewrite app_nil_r|]. exfalso.
  destruct (branch_two_keys _ _ _ _ Hw (negb b)) as (k & v & Hk & Hp). rewrite E in Hk.
  apply (branch_path _ _ _ _ _ _ Hw') in Hk. eapply (bit_paths_differ path p _ b); [|exact Hp].
  etrans; [|exact Hk]. change (b :: z) with ([b] ++ z). rewrite !app_assoc.
  by apply prefix_app_r.
Qed.

Lemma leaf_not_branch path k v p l r : twf path (Branch p l r) -> tmap (Leaf k v) <> tmap (Branch p l r).
Proof.
  intros Hw E. destruct (branch_two_keys _ _ _ _ Hw false) as (k1 & v1 & H1 & P1).
  destruct (branch_two_keys _ _ _ _ Hw true) as (k2 & v2 & H2 & P2).
  rewrite <- E in H1, H2. cbn in H1, H2. rewrite lookup_singleton_Some in H1, H2.
  destruct H1 as [<- _], H2 as [<- _]. by eapply (bit_paths_differ path p _ false).
Qed.

Lemma union_child path p l r k b : twf path (Branch p l r) -> path ++ p ++ [b] `prefix_of` keyBits k ->
  tmap (Branch p l r) !! k = tmap (if b then r else l) !! k.
Proof.
  intros [Hl Hr] Hp. cbn. destruct b.
  - apply lookup_union_r, (tmap_absent _ _ _ Hl). intros Hf. by eapply (bit_paths_differ path p _ true).
  - apply lookup_union_l, (tmap_absent _ _ _ Hr). intros Hf. by eapply (bit_paths_differ path p _ false).
Qed.

Lemma child_maps_eq path p l r l' r' (b : bool) : twf path (Branch p l r) -> twf path (Branch p l' r') ->
  tmap (Branch p l r) = tmap (Branch p l' r') ->
  tmap (if b then r else l) = tmap (if b then r' else l').
Proof.
  intros Hw Hw' E. apply map_eq. intros k.
  destruct (decide (path ++ p ++ [b] `prefix_of` keyBits k)) as [Hp|Hp].
  - by rewrite <- (union_child _ _ _ _ _ _ Hw Hp), <- (union_child _ _ _ _ _ _ Hw' Hp), E.
  - destruct Hw as [Hl Hr], Hw' as [Hl' Hr'].
    destruct b; (etrans; [eapply tmap_absent; eassumption|]); symmetry; eapply tmap_absent; eassumption.
Qed.

Theorem tree_canonical t1 : forall path t2, twf path t1 -> twf path t2 -> tmap t1 = tmap t2 -> t1 = t2.
Proof.
  induction t1 as [k v|p l IHl r IHr]; intros path t2 H1 H2 E.
  - destruct t2 as [k' v'|q l' r']; [|by apply (leaf_not_branch _ _ _ _ _ _ H2) in E].
    cbn in E. apply (f_equal (lookup k)) in E. rewrite lookup_singleton_eq in E.
    symmetry in E. apply lookup_singleton_Some in E as [-> ->]. done.
  - destruct t2 as [k' v'|q l' r']; [by symmetry in E; apply (leaf_not_branch _ _ _ _ _ _ H1) in E|].
    assert (Hpq : p = q).
    { destruct (tmap_inhabited (Branch p l r)) as (k & v & Hk).
      pose proof (branch_path _ _ _ _ _ _ H1 Hk) as P1. rewrite E in Hk.
      pose proof (branch_path _ _ _ _ _ _ H2 Hk) as P2.
      destruct (prefix_weak_total _ _ _ P1 P2) as [P|P]; apply prefix_app_inv in P.
      - by eapply branch_prefix_le.
      - symmetry. by eapply branch_prefix_le. }
    subst q. f_equal.
    + eapply IHl; [apply H1|apply H2|]. apply (child_maps_eq _ _ _ _ _ _ false H1 H2 E).
    + eapply IHr; [apply H1|apply H2|]. apply (child_maps_eq _ _ _ _ _ _ true H1 H2 E).
Qed.

(** *** The tree of a map *)

Definition oinsert (k : Hash) (v : bytes) (o : option tree) : tree :=
  match o with Some t => tinsert 0 k v t | None => Leaf k v end.

Definition odelete (k : Hash) (o : option tree) : option tree := t ← o; tdelete 0 k t.

Definition treeOf (m : gmap Hash bytes) : option tree := map_fold (fun k v o => Some (oinsert k v o)) None m.

Definition wf_keys (m : gmap Hash bytes) : Prop := map_Forall (fun k _ => wf_hash k) m.

Lemma oinsert_spec k v o : wf_hash k -> owf [] o -> twf [] (oinsert k v o) /\ tmap (oinsert k v o) = <[k := v]> (omap o).
Proof.
  intros Hk Ho. destruct o as [t|]; cbn.
  - by apply (tinsert_spec k v t Hk []); [|apply prefix_nil].
  - split; [split; [done|apply prefix_nil]|]. by rewrite insert_empty.
Qed.

Lemma odelete_spec k o : owf [] o -> owf [] (odelete k o) /\ omap (odelete k o) = delete k (omap o).
Proof.
  intros Ho. destruct o as [t|]; cbn.
  - by apply (tdelete_spec k t []); [|apply prefix_nil].
  - split; [done|]. by rewrite delete_empty.
Qed.

Lemma treeOf_spec m : wf_keys m -> owf [] (treeOf m) /\ omap (treeOf m) = m.
Proof.
  unfold treeOf. apply (map_fold_weak_ind (fun o m => wf_keys m -> owf [] o /\ omap o = m)); [done|].
  intros k v m' o Hk IH Hwf. apply map_Forall_insert in Hwf as [Hwk Hwf]; [|done].
  destruct (IH Hwf) as [Ho <-]. by apply oinsert_spec.
Qed.

Lemma treeOf_unique m o : wf_keys m -> owf [] o -> omap o = m -> o = treeOf m.
Proof.
  intros Hk Ho E. destruct (treeOf_spec m Hk) as [Hc Ec]. rewrite <- Ec in E at 1.
  destruct o as [t|], (treeOf m) as [t'|]; cbn in *; try done.
  - f_equal. by eapply tree_canonical.
  - exfalso. destruct (tmap_inhabited t) as (k & v & H). by rewrite E, lookup_empty in H.
  - exfalso. destruct (tmap_inhabited t') as (k & v & H). by rewrite <- E, lookup_empty in H.
Qed.

Lemma treeOf_insert m k v : wf_keys m -> wf_hash k -> treeOf (<[k := v]> m) = Some (oinsert k v (treeOf m)).
Proof.
  intros Hm Hk. destruct (treeOf_spec m Hm) as [Ho Eo]. destruct (oinsert_spec k v (treeOf m) Hk Ho) as [Hi Ei].
  symmetry. apply treeOf_unique; [by apply map_Forall_insert_2|done|]. cbn. by rewrite Ei, Eo.
Qed.

Lemma treeOf_delete m k : wf_keys m -> treeOf (delete k m) = odelete k (treeOf m).
Proof.
  intros Hm. destruct (treeOf_spec m Hm) as [Ho Eo]. destruct (odelete_spec k (treeOf m) Ho) as [Hi Ei].
  symmetry. apply treeOf_unique; [by apply map_Forall_delete|done|]. by rewrite Ei, Eo.
Qed.
