(* ===== verification/SmtRefinement.v ===== *)
(** * The sparse Merkle tree implements a finite map

    The tables of Smt.v against the trees of SmtTree.v.  A store represents a map
    when it holds the rows of the map's tree and its root is that tree's hash.
    Then a read returns the map's entry, and an update or a removal leads to a
    store that represents the updated map, as long as no two different strings
    that were hashed have the same digest.  So the root depends on the content
    alone, and binds it. *)

From S2P Require Import Prelude Types Wire Rotation Block Smt SmtTree.
Import SparseMerkleTree.

Opaque KEY_BITS.

Lemma bind_gets {S A B} (f : S -> A) (k : A -> Exec S B) st : (gets f ≫= k) st = k (f st) st.
Proof. done. Qed.

Lemma bind_access {A B} (a : A) (k : A -> Tree B) st : (access (Some a) ≫= k) st = k a st.
Proof. done. Qed.

(** ** Hashes of trees *)

Section hashes.
Context `{Crypto}.

(** The string whose hash is the default of a depth. *)
Definition dinput (d : nat) : bytes :=
  match d with
  | O => defaultInput 0 []
  | S d' => let h := be_split 32 (defaultRow d') in defaultInput d (h ++ h)
  end.

Fixpoint thash (t : tree) : Hash :=
  match t with
  | Leaf k v => hashLeaf k (blake2b v)
  | Branch p l r => hashBranch (length p) (packBits p) (thash l) (thash r)
  end.

(** The strings hashed for the nodes of a tree, and with them the defaults its
    nodes are compared with. *)
Fixpoint nodeInputs (t : tree) : list bytes :=
  match t with
  | Leaf k v => [v; leafInput k (blake2b v)]
  | Branch p l r => branchInput (length p) (packBits p) (thash l) (thash r) :: nodeInputs l ++ nodeInputs r
  end.

Fixpoint tinputs (s : nat) (t : tree) : list bytes :=
  dinput (KEY_BITS - s) ::
  match t with
  | Leaf k v => [v; leafInput k (blake2b v)]
  | Branch p l r =>
    branchInput (length p) (packBits p) (thash l) (thash r) ::
    tinputs (s + length p + 1) l ++ tinputs (s + length p + 1) r
  end.

Definition ohash (o : option tree) : Hash := match o with Some t => thash t | None => defaultHash KEY_BITS end.
Definition oinputs (o : option tree) : list bytes := match o with Some t => tinputs 0 t | None => [dinput KEY_BITS] end.

(** The root of a map, and the strings hashed for it. *)
Definition smtRoot (m : gmap Hash bytes) : Hash := ohash (treeOf m).
Definition smtInputs (m : gmap Hash bytes) : list bytes := oinputs (treeOf m).

Lemma defaultHash_input d : (d <= KEY_BITS)%nat -> defaultHash d = blake2b (dinput d).
Proof. intros Hd. unfold defaultHash. rewrite Nat.min_l by done. by destruct d. Qed.

Lemma nodeInputs_sub t : forall s, nodeInputs t ⊆ tinputs s t.
Proof.
  induction t as [k v|p l IHl r IHr]; intros s; cbn; [set_solver|].
  specialize (IHl (s + length p + 1)%nat). specialize (IHr (s + length p + 1)%nat). set_solver.
Qed.

Lemma dinput_in t s : dinput (KEY_BITS - s) ∈ tinputs s t.
Proof. destruct t; cbn; set_solver. Qed.

(** The string a tree's hash is the hash of. *)
Definition topInput (t : tree) : bytes :=
  match t with
  | Leaf k v => leafInput k (blake2b v)
  | Branch p l r => branchInput (length p) (packBits p) (thash l) (thash r)
  end.

Lemma thash_top t : thash t = blake2b (topInput t).
Proof. by destruct t. Qed.

Lemma topInput_in t : topInput t ∈ nodeInputs t.
Proof. destruct t; cbn; set_solver. Qed.

Lemma top_not_default t d : topInput t <> dinput d.
Proof. destruct t, d; cbn; discriminate. Qed.

Lemma thash_not_default I t s : collisionFreeOn I -> tinputs s t ⊆ I -> thash t <> defaultHash (KEY_BITS - s).
Proof.
  intros Hcf Hin E. rewrite thash_top, defaultHash_input in E by lia.
  apply Hcf in E; [by apply top_not_default in E| |].
  - apply Hin, nodeInputs_sub, topInput_in.
  - apply Hin, dinput_in.
Qed.
End hashes.

(** ** Node formats *)

Lemma slice_app n a b c : length a = n -> slice n (length b) (a ++ b ++ c) = b.
Proof. intros <-. unfold slice. by rewrite drop_app_length, take_app_length. Qed.

Lemma be_combine_hash h : wf_hash h -> be_combine (be_split 32 h) = h.
Proof. intros Hh. rewrite be_combine_split. by apply N.mod_small. Qed.

Lemma leaf_fields k vh : wf_hash k -> wf_hash vh ->
  length (leafBytes k vh) = 65%nat /\ be_combine (slice 1 32 (leafBytes k vh)) = k /\
  be_combine (slice 33 32 (leafBytes k vh)) = vh.
Proof.
  intros Hk Hv. split_and!.
  - unfold leafBytes. cbn [length]. by rewrite length_app, !length_be_split.
  - by rewrite <- (be_combine_hash k Hk) at 2.
  - by rewrite <- (be_combine_hash vh Hv) at 2.
Qed.

Lemma parseLeaf_ok k vh : wf_hash k -> wf_hash vh -> parseLeaf (leafBytes k vh) = Some (mkLeaf k vh).
Proof.
  intros Hk Hv. destruct (leaf_fields k vh Hk Hv) as (Hl & E1 & E2). unfold parseLeaf. rewrite Hl, E1, E2. done.
Qed.

Lemma lor_be16 v : v < w16 ->
  exists a b, be_split 2 v = [a; b] /\ N.lor (N.shiftl a 8) b = v.
Proof.
  intros Hv. exists (u8 (N.shiftr v 8)), (u8 v). split; [done|].
  rewrite N.lor_comm, lor_shiftl_add by (unfold u8; apply N.mod_lt; lia).
  unfold u8. rewrite N.shiftr_div_pow2. change (2 ^ 8) with w8.
  rewrite (N.mod_small (v / w8)) by (apply N.Div0.div_lt_upper_bound; lia).
  pose proof (N.div_mod v w8 ltac:(lia)). lia.
Qed.

Lemma branch_fields p l r : (length p <= 256)%nat -> wf_hash l -> wf_hash r ->
  let b := branchBytes (length p) (packBits p) l r in
  let n := prefixBytes (length p) in
  exists b1 b2 rest, b = TAG_BRANCH :: b1 :: b2 :: rest /\ N.lor (N.shiftl b1 8) b2 = N.of_nat (length p) /\
    length b = (67 + n)%nat /\ slice 3 n b = packBits p /\
    be_combine (slice (3 + n) 32 b) = l /\ be_combine (slice (35 + n) 32 b) = r.
Proof.
  intros Hp Hl Hr. unfold branchBytes. rewrite take_ge by (by rewrite length_packBits).
  destruct (lor_be16 (N.of_nat (length p)) ltac:(lia)) as (b1 & b2 & -> & E12). cbv zeta.
  set (bs := packBits p). assert (Hbs : length bs = prefixBytes (length p)) by apply length_packBits.
  set (hd := TAG_BRANCH :: b1 :: b2 :: bs).
  exists b1, b2, (bs ++ be_split 32 l ++ be_split 32 r). split_and!; [done|done| | | |].
  - cbn [app length]. rewrite !length_app, Hbs, !length_be_split. lia.
  - rewrite <- Hbs. exact (slice_app 3 [TAG_BRANCH; b1; b2] bs _ eq_refl).
  - rewrite <- (be_combine_hash l Hl) at 2. f_equal.
    pose proof (slice_app (3 + length bs) hd (be_split 32 l) (be_split 32 r) eq_refl) as E.
    rewrite length_be_split, Hbs in E. exact E.
  - rewrite <- (be_combine_hash r Hr) at 2. f_equal.
    pose proof (slice_app (35 + length bs) (hd ++ be_split 32 l) (be_split 32 r) []) as E.
    rewrite app_nil_r, length_be_split, <- app_assoc, Hbs in E. apply E.
    rewrite length_app, length_be_split. unfold hd. cbn [length]. rewrite Hbs. lia.
Qed.

Lemma parseBranch_ok p l r : (length p <= 256)%nat -> wf_hash l -> wf_hash r ->
  parseBranch (branchBytes (length p) (packBits p) l r) = Some (mkBranch (length p) (packBits p) l r).
Proof.
  intros Hp Hl Hr. destruct (branch_fields p l r Hp Hl Hr) as (b1 & b2 & rest & Eb & E12 & Hlen & E3 & El & Er).
  unfold parseBranch. rewrite Hlen. destruct (Nat.ltb_spec (67 + prefixBytes (length p)) 67); [lia|].
  rewrite Eb in *. cbn [negb N.eqb TAG_BRANCH Pos.eqb]. rewrite E12. unfold MAX_PREFIX_BITS.
  destruct (N.ltb_spec 256 (N.of_nat (length p))); [lia|]. rewrite Nat2N.id, Nat.eqb_refl. cbn [negb].
  by rewrite E3, El, Er.
Qed.

(** ** Rows *)

Section store.
Context `{Crypto} (Hwf : forall b, wf_hash (blake2b b)) (I : list bytes) (Hcf : collisionFreeOn I).

Lemma thash_wf t : wf_hash (thash t).
Proof. rewrite thash_top. apply Hwf. Qed.

(** A node's row is its hash input without the four bytes of the domain. *)
Definition rowOf (x : bytes) : bytes := drop 4 x.

Lemma leafBytes_input k vh : leafBytes k vh = rowOf (leafInput k vh).
Proof. done. Qed.

Lemma branchBytes_input n bits l r : branchBytes n bits l r = rowOf (branchInput n bits l r).
Proof. done. Qed.

Definition nodeRow (st : Smt) (t : tree) : Prop := smt_nodes st !! thash t = Some (rowOf (topInput t)).

Fixpoint stored (st : Smt) (t : tree) : Prop :=
  nodeRow st t /\
  match t with
  | Leaf k v => smt_leaves st !! thash t = Some v
  | Branch _ l r => stored st l /\ stored st r
  end.

Lemma stored_row st t : stored st t -> nodeRow st t.
Proof. by destruct t; intros [? _]. Qed.

(** The historical rows of [st'] are those of [st] and rows of strings in [I]. *)
Definition histFrom (st st' : Smt) : Prop := forall h ver b, wf_hash h ->
  smt_nodes_hist st' !! histKey h ver = Some b ->
  smt_nodes_hist st !! histKey h ver = Some b \/ exists x, x ∈ I /\ h = blake2b x /\ b = rowOf x.

Lemma histFrom_same st st' : smt_nodes_hist st' = smt_nodes_hist st -> histFrom st st'.
Proof. intros E h ver b _. rewrite E. by left. Qed.

(** Later stores keep the rows of the strings in [I]. *)
Record grows (st st' : Smt) : Prop := {
  grows_node x : x ∈ I -> smt_nodes st !! blake2b x = Some (rowOf x) -> smt_nodes st' !! blake2b x = Some (rowOf x);
  grows_leaf k v : leafInput k (blake2b v) ∈ I -> v ∈ I ->
    smt_leaves st !! hashLeaf k (blake2b v) = Some v -> smt_leaves st' !! hashLeaf k (blake2b v) = Some v;
  grows_root : smt_root st' = smt_root st;
  grows_meta : smt_meta st' = smt_meta st;
  grows_hist : histFrom st st';
}.

#[global] Instance grows_preorder : PreOrder grows.
Proof.
  split; [by split; [..|apply histFrom_same]|]. intros a b c [N1 L1 R1 M1 H1] [N2 L2 R2 M2 H2].
  split; [auto|auto|by rewrite R2|by rewrite M2|].
  intros h ver row Hh Hrow. destruct (H2 h ver row Hh Hrow) as [Hb|]; [by apply H1|by right].
Qed.

Lemma nodeInputs_branch p l r : nodeInputs (Branch p l r) ⊆ I ->
  branchInput (length p) (packBits p) (thash l) (thash r) ∈ I /\ nodeInputs l ⊆ I /\ nodeInputs r ⊆ I.
Proof.
  cbn [nodeInputs]. generalize (branchInput (length p) (packBits p) (thash l) (thash r)) (nodeInputs l) (nodeInputs r).
  clear. set_solver.
Qed.

Lemma nodeInputs_leaf k v : nodeInputs (Leaf k v) ⊆ I -> v ∈ I /\ leafInput k (blake2b v) ∈ I.
Proof. cbn [nodeInputs]. generalize (leafInput k (blake2b v)). clear. set_solver. Qed.

Lemma stored_grows st st' t : grows st st' -> nodeInputs t ⊆ I -> stored st t -> stored st' t.
Proof.
  intros [HN HL _ _ _]. induction t as [k v|p l IHl r IHr]; intros Hin.
  - intros [Hn Hl]. split.
    + unfold nodeRow in *. rewrite thash_top in *. apply HN; [apply Hin, topInput_in|exact Hn].
    + apply HL; [apply Hin; cbn; set_solver|apply Hin; cbn; set_solver|exact Hl].
  - intros (Hn & Hl & Hr). split_and!.
    + unfold nodeRow in *. rewrite thash_top in *. apply HN; [apply Hin, topInput_in|exact Hn].
    + apply IHl; [|done]. apply nodeInputs_branch in Hin. apply Hin.
    + apply IHr; [|done]. apply nodeInputs_branch in Hin. apply Hin.
Qed.

Lemma histKey_inj h ver h' ver' : wf_hash h -> wf_hash h' -> histKey h ver = histKey h' ver' -> h = h'.
Proof.
  intros H1 H2 E. unfold histKey in E. apply app_inj_1 in E as [E _]; [|by rewrite !length_be_split].
  by apply (be_split_inj 32) in E.
Qed.

Lemma putNode_ok x ver st : x ∈ I ->
  exists st', putNode (blake2b x) (rowOf x) ver st = (Ok (), st') /\ grows st st' /\
    smt_nodes st' !! blake2b x = Some (rowOf x).
Proof.
  intros Hx. assert (Hg : forall st', smt_nodes st' = <[blake2b x := rowOf x]> (smt_nodes st) ->
    smt_leaves st' = smt_leaves st -> smt_root st' = smt_root st -> smt_meta st' = smt_meta st ->
    histFrom st st' -> grows st st' /\ smt_nodes st' !! blake2b x = Some (rowOf x)).
  { intros st' En El Er Em Eh. split; [|by rewrite En, lookup_insert_eq]. split; [|by rewrite El|done|done|done].
    intros y Hy Hrow. rewrite En. destruct (decide (blake2b x = blake2b y)) as [E|E].
    - apply Hcf in E as ->; [|done|done]. by rewrite lookup_insert_eq.
    - by rewrite lookup_insert_ne. }
  unfold putNode, whenM. destruct (negb (ver =? 0)); eexists; (split; [reflexivity|apply Hg; try reflexivity]).
  - intros h ver' b Hh Hrow.
    change (<[histKey (blake2b x) ver := rowOf x]> (smt_nodes_hist st) !! histKey h ver' = Some b) in Hrow.
    destruct (decide (histKey (blake2b x) ver = histKey h ver')) as [E|E].
    + rewrite <- E, lookup_insert_eq in Hrow. injection Hrow as <-. right. exists x. split_and!; [done| |done].
      by apply histKey_inj in E.
    + rewrite lookup_insert_ne in Hrow by done. by left.
  - by apply histFrom_same.
Qed.

Lemma leafInput_inj k vh k' vh' : wf_hash vh -> wf_hash vh' -> leafInput k vh = leafInput k' vh' -> vh = vh'.
Proof.
  intros H1 H2 E. unfold leafInput in E. do 2 apply app_inv_head in E.
  apply app_inj_1 in E as [_ E]; [|by rewrite !length_be_split]. by apply (be_split_inj 32) in E.
Qed.

Lemma putLeafData_ok k v ver st : v ∈ I -> leafInput k (blake2b v) ∈ I ->
  let h := hashLeaf k (blake2b v) in
  exists st', putLeafData h v ver st = (Ok (), st') /\ grows st st' /\
    smt_nodes st' = smt_nodes st /\ smt_leaves st' !! h = Some v.
Proof.
  intros Hv Hx h. assert (Hg : forall st', smt_leaves st' = <[h := v]> (smt_leaves st) ->
    smt_nodes st' = smt_nodes st -> smt_root st' = smt_root st -> smt_meta st' = smt_meta st ->
    smt_nodes_hist st' = smt_nodes_hist st ->
    grows st st' /\ smt_nodes st' = smt_nodes st /\ smt_leaves st' !! h = Some v).
  { intros st' El En Er Em Eh. split_and!; [|done|by rewrite El, lookup_insert_eq].
    split; [by rewrite En| |done|done|by apply histFrom_same]. intros k' v' Hx' Hv' Hrow. rewrite El.
    destruct (decide (h = hashLeaf k' (blake2b v'))) as [E|E]; [|by rewrite lookup_insert_ne].
    rewrite <- E, lookup_insert_eq. f_equal. apply Hcf in E; [|done|done].
    apply leafInput_inj in E; [|apply Hwf|apply Hwf]. by apply Hcf in E. }
  unfold putLeafData, whenM. destruct (negb (ver =? 0)); eexists; (split; [reflexivity|apply Hg; reflexivity]).
Qed.

(** ** Node construction *)

Lemma makeLeaf_ok k vh ver st : leafInput k vh ∈ I ->
  exists st', makeLeaf k vh ver st = (Ok (hashLeaf k vh), st') /\ grows st st' /\
    smt_nodes st' !! hashLeaf k vh = Some (leafBytes k vh).
Proof.
  intros Hin. destruct (putNode_ok _ ver st Hin) as (st' & E & G & R). exists st'. split_and!; try done.
  unfold makeLeaf. cbv zeta. by rewrite (bind_ok _ _ _ _ _ E).
Qed.

Lemma writeLeaf_ok k v ver st : nodeInputs (Leaf k v) ⊆ I ->
  exists st', writeLeaf k v ver st = (Ok (thash (Leaf k v)), st') /\ grows st st' /\ stored st' (Leaf k v).
Proof.
  intros [Hv Hin]%nodeInputs_leaf. destruct (makeLeaf_ok k (blake2b v) ver st) as (st1 & E1 & G1 & R1); [done|].
  destruct (putLeafData_ok k v ver st1) as (st2 & E2 & G2 & Hn & Hl); [done|done|].
  exists st2. split_and!.
  - unfold writeLeaf. cbv zeta. rewrite (bind_ok _ _ _ _ _ E1). by rewrite (bind_ok _ _ _ _ _ E2).
  - by etrans.
  - cbn. split; [|done]. unfold nodeRow. rewrite Hn. exact R1.
Qed.

Lemma makeBranch_row p l r ver st : branchInput (length p) (packBits p) l r ∈ I -> (length p < KEY_BITS)%nat ->
  exists st', makeBranch (length p) (packBits p) l r ver st =
      (Ok (hashBranch (length p) (packBits p) l r), st') /\ grows st st' /\
    smt_nodes st' !! hashBranch (length p) (packBits p) l r = Some (branchBytes (length p) (packBits p) l r).
Proof.
  intros Hin Hp. destruct (putNode_ok _ ver st Hin) as (st' & E & G & R). exists st'. split_and!; try done.
  unfold makeBranch. destruct (Nat.leb_spec (prefixBytes (length p)) 32) as [_|Hl].
  - rewrite bind_access. cbv zeta. by rewrite (bind_ok _ _ _ _ _ E).
  - exfalso. rewrite KEY_BITS_256 in Hp. unfold prefixBytes in Hl.
    pose proof (Nat.Div0.div_le_mono (length p + 7) 262 8 ltac:(lia)) as Hd. change (262 / 8)%nat with 32%nat in Hd. lia.
Qed.

Lemma makeBranch_ok p l r ver st : nodeInputs (Branch p l r) ⊆ I -> (length p < KEY_BITS)%nat ->
  stored st l -> stored st r ->
  exists st', makeBranch (length p) (packBits p) (thash l) (thash r) ver st = (Ok (thash (Branch p l r)), st') /\
    grows st st' /\ stored st' (Branch p l r).
Proof.
  intros (Hb & Il & Ir)%nodeInputs_branch Hp Hl Hr.
  destruct (makeBranch_row p (thash l) (thash r) ver st) as (st' & E & G & R); [done|done|].
  exists st'. split_and!; [done|done|]. cbn [stored].
  split_and!; [exact R|by apply (stored_grows st)..].
Qed.
(** ** The walk *)

Lemma tinputs_branch s p l r : tinputs s (Branch p l r) ⊆ I ->
  tinputs (s + length p + 1) l ⊆ I /\ tinputs (s + length p + 1) r ⊆ I.
Proof.
  cbn [tinputs]. generalize (branchInput (length p) (packBits p) (thash l) (thash r)) (dinput (KEY_BITS - s)).
  generalize (tinputs (s + length p + 1) l) (tinputs (s + length p + 1) r). clear. set_solver.
Qed.

Lemma node_leaf k v : wf_hash k ->
  hasTag TAG_LEAF (rowOf (topInput (Leaf k v))) = true /\
  parseLeaf (rowOf (topInput (Leaf k v))) = Some (mkLeaf k (blake2b v)).
Proof. intros Hk. split; [done|]. by apply parseLeaf_ok. Qed.

Lemma node_branch p l r : (length p < KEY_BITS)%nat ->
  let b := rowOf (topInput (Branch p l r)) in
  hasTag TAG_LEAF b = false /\ hasTag TAG_BRANCH b = true /\
  parseBranch b = Some (mkBranch (length p) (packBits p) (thash l) (thash r)).
Proof.
  intros Hp. split_and!; [done|done|]. rewrite KEY_BITS_256 in Hp.
  apply parseBranch_ok; [lia|apply thash_wf|apply thash_wf].
Qed.

(** The position of a branch's children. *)
Lemma child_depth path p (b : bool) :
  (KEY_BITS - length path - length p - 1 = KEY_BITS - length (path ++ p ++ [b]))%nat.
Proof. rewrite !length_app. cbn. lia. Qed.

Lemma child_pos path p (b : bool) : length (path ++ p ++ [b]) = (length path + length p + 1)%nat.
Proof. rewrite !length_app. cbn. lia. Qed.

Lemma start_pos (path : list bool) : (length path <= KEY_BITS)%nat -> (KEY_BITS - (KEY_BITS - length path) = length path)%nat.
Proof. lia. Qed.

Lemma bitAt_turn s k : (s < KEY_BITS)%nat -> bitAt k s = Some (turn s k).
Proof.
  intros Hs. rewrite bitAt_keyBits. unfold turn. destruct (lookup_lt_is_Some_2 (keyBits k) s) as [b ->]; [|done].
  by rewrite length_keyBits.
Qed.

(** A read of a represented tree is a lookup in its map. *)
Lemma getRecursive_ok k st t : forall path fuel,
  twf path t -> path `prefix_of` keyBits k -> stored st t -> tinputs (length path) t ⊆ I ->
  (KEY_BITS - length path < fuel)%nat ->
  getRecursive fuel (thash t) k (KEY_BITS - length path) st = (Ok (tmap t !! k), st).
Proof.
  induction t as [k' v'|p l IHl r IHr]; intros path [|fuel] Hw Hp Hs Hin Hf; [lia| |lia|];
    cbn [getRecursive]; pose proof (thash_not_default _ _ _ Hcf Hin) as Hd; apply N.eqb_neq in Hd; rewrite Hd;
    unfold getNode; rewrite bind_gets; cbv beta; pose proof Hs as [Hrow Hsub]; unfold nodeRow in Hrow; rewrite Hrow.
  - destruct Hw as [Hk' _]. destruct (node_leaf k' v' Hk') as [-> ->]. cbn [leaf_key].
    destruct (N.eqb_spec k' k) as [->|Hne].
    + unfold getLeafData, gets. rewrite Hsub. cbn [tmap]. by rewrite lookup_singleton_eq.
    + cbn [tmap]. by rewrite lookup_singleton_ne.
  - pose proof (twf_branch_short _ _ _ _ Hw) as Hlen. destruct (node_branch p l r ltac:(lia)) as (-> & _ & ->).
    cbn [prefix_len prefix_bits SparseMerkleTree.left SparseMerkleTree.right].
    rewrite start_pos by lia. rewrite sharesPrefix_ok by lia. rewrite bind_access. fold (below (length path) k).
    case_bool_decide as Hpre; cbn [negb].
    + rewrite bitAt_turn, bind_access by lia. pose proof (path_turn _ _ _ Hp Hpre Hlen) as Ht.
      destruct (tinputs_branch _ _ _ _ Hin) as [Il Ir]. rewrite (union_child _ _ _ _ _ _ Hw Ht).
      destruct Hw as [Hl Hr], Hsub as [Sl Sr]. destruct (turn (length path + length p) k).
      * rewrite (child_depth path p true). apply IHr; [done|done|done|by rewrite child_pos|rewrite child_pos; lia].
      * rewrite (child_depth path p false). apply IHl; [done|done|done|by rewrite child_pos|rewrite child_pos; lia].
    + destruct (tmap (Branch p l r) !! k) eqn:E; [|done]. exfalso. apply Hpre.
      apply (branch_path _ _ _ _ _ _ Hw) in E. rewrite <- (app_nil_r p) in E. by apply path_above in E.
Qed.

(** *** One node of an update *)

Lemma update_leaf fuel k v (is_delete : bool) k' v' s ver st : wf_hash k' -> stored st (Leaf k' v') ->
  tinputs s (Leaf k' v') ⊆ I ->
  updateRecursive (S fuel) (thash (Leaf k' v')) k v is_delete (KEY_BITS - s) ver st =
  (if k' =? k then if is_delete then mret (defaultHash (KEY_BITS - s)) else writeLeaf k v ver
   else if is_delete then makeLeaf k' (blake2b v') ver
   else splitLeaf (mkLeaf k' (blake2b v')) k v (KEY_BITS - s) ver) st.
Proof.
  intros Hk' [Hrow _] Hin. cbn [updateRecursive].
  pose proof (thash_not_default _ _ _ Hcf Hin) as Hd; apply N.eqb_neq in Hd; rewrite Hd.
  unfold getNode; rewrite bind_gets. cbv beta. unfold nodeRow in Hrow; rewrite Hrow.
  destruct (node_leaf k' v' Hk') as [-> ->]. done.
Qed.

Lemma update_branch fuel k v (is_delete : bool) p l r path ver st : twf path (Branch p l r) ->
  stored st (Branch p l r) -> tinputs (length path) (Branch p l r) ⊆ I ->
  let node := mkBranch (length p) (packBits p) (thash l) (thash r) in
  let d := (KEY_BITS - length path)%nat in
  updateRecursive (S fuel) (thash (Branch p l r)) k v is_delete d ver st =
  (if decide (p `prefix_of` below (length path) k) then
     if turn (length path + length p) k then
       new_right ← updateRecursive fuel (thash r) k v is_delete (d - length p - 1) ver;
       rejoin node (thash l) new_right d (d - length p - 1) ver
     else
       new_left ← updateRecursive fuel (thash l) k v is_delete (d - length p - 1) ver;
       rejoin node new_left (thash r) d (d - length p - 1) ver
   else if is_delete then makeBranch (length p) (packBits p) (thash l) (thash r) ver
   else splitBranch node k v d ver) st.
Proof.
  intros Hw [Hrow _] Hin node d. cbn [updateRecursive]. unfold d.
  pose proof (thash_not_default _ _ _ Hcf Hin) as Hd; apply N.eqb_neq in Hd; rewrite Hd.
  unfold getNode; rewrite bind_gets. cbv beta. unfold nodeRow in Hrow; rewrite Hrow.
  pose proof (twf_branch_short _ _ _ _ Hw) as Hlen. destruct (node_branch p l r ltac:(lia)) as (-> & _ & ->).
  fold node. cbn [prefix_len prefix_bits SparseMerkleTree.left SparseMerkleTree.right node].
  rewrite start_pos by lia. rewrite sharesPrefix_ok by lia. rewrite bind_access. fold (below (length path) k).
  destruct (decide (p `prefix_of` below (length path) k)) as [Hpre|Hpre].
  - rewrite bool_decide_eq_true_2 by done. cbn [negb]. by rewrite bitAt_turn, bind_access by lia.
  - rewrite bool_decide_eq_false_2 by done. cbn [negb]. done.
Qed.

(** What an operation has to achieve: the new tree's hash, its rows, and the old
    rows kept. *)
Definition yields (m : Tree Hash) (st : Smt) (t : tree) : Prop :=
  exists st', m st = (Ok (thash t), st') /\ grows st st' /\ stored st' t.

Lemma yields_bind {A} (m : Tree A) (f : A -> Tree Hash) a st st1 t :
  m st = (Ok a, st1) -> grows st st1 -> yields (f a) st1 t -> yields (m ≫= f) st t.
Proof.
  intros E G (st' & E' & G' & S'). exists st'. split_and!; [by rewrite (bind_ok _ _ _ _ _ E)|by etrans|done].
Qed.

Lemma nodeInputs_fork q b new old : nodeInputs (fork q b new old) ⊆ I -> nodeInputs new ⊆ I /\ nodeInputs old ⊆ I.
Proof. destruct b; intros (_ & ? & ?)%nodeInputs_branch; done. Qed.

Lemma makeFork_ok q (b : bool) new old ver st : nodeInputs (fork q b new old) ⊆ I -> (length q < KEY_BITS)%nat ->
  stored st new -> stored st old ->
  yields (if b then makeBranch (length q) (packBits q) (thash old) (thash new) ver
          else makeBranch (length q) (packBits q) (thash new) (thash old) ver) st (fork q b new old).
Proof. intros Hin Hq Hn Ho. destruct b; by apply makeBranch_ok. Qed.

Lemma splitLeaf_ok path k v k' v' ver st : wf_hash k -> wf_hash k' -> k' <> k ->
  path `prefix_of` keyBits k -> path `prefix_of` keyBits k' -> stored st (Leaf k' v') ->
  nodeInputs (tinsert (length path) k v (Leaf k' v')) ⊆ I ->
  yields (splitLeaf (mkLeaf k' (blake2b v')) k v (KEY_BITS - length path) ver) st
    (tinsert (length path) k v (Leaf k' v')).
Proof.
  intros Hk Hk' Hne Hp Hp' Hs. cbn [tinsert]. rewrite decide_False by done.
  destruct (keys_part path k k' Hk Hk' Hne Hp Hp') as (Hn & _ & Hb').
  set (s := length path) in *. set (n := lcp (below s k') (below s k)) in *.
  set (q := take n (below s k)) in *. intros Hin. pose proof (nodeInputs_fork _ _ _ _ Hin) as [Inew Iold].
  assert (Hq : length q = n) by (unfold q; rewrite length_take, length_below; lia).
  assert (Ht : turn (s + n) k' = negb (turn (s + n) k)).
  { apply (lcp_differ (below s k) (below s k')); rewrite lcp_comm; fold n; apply turn_below_Some; lia. }
  unfold splitLeaf. cbv zeta. replace (KEY_BITS - (KEY_BITS - s))%nat with s by lia. cbn [leaf_key leaf_value_hash].
  rewrite sharedPrefix_ok by lia. eapply yields_bind; [reflexivity|done|]. cbv beta iota zeta.
  fold (below s k') (below s k). fold n. fold q.
  destruct (Nat.leb_spec (KEY_BITS - s) n); [lia|].
  destruct (makeLeaf_ok k' (blake2b v') ver st) as (st1 & E1 & G1 & _); [by apply nodeInputs_leaf in Iold as [_ ?]|].
  eapply yields_bind; [exact E1|exact G1|].
  destruct (writeLeaf_ok k v ver st1 Inew) as (st2 & E2 & G2 & S2).
  eapply yields_bind; [exact E2|exact G2|].
  rewrite bitAt_turn by lia. eapply yields_bind; [reflexivity|done|]. rewrite Ht.
  pose proof (makeFork_ok q (turn (s + n) k) (Leaf k v) (Leaf k' v') ver st2 Hin ltac:(lia) S2) as M.
  rewrite Hq in M.
  destruct (turn (s + n) k); cbn [negb]; apply M; (eapply stored_grows; [etrans; [exact G1|exact G2]|done|done]).
Qed.

Lemma splitBranch_ok path k v p l r ver st : wf_hash k -> twf path (Branch p l r) -> path `prefix_of` keyBits k ->
  ~ p `prefix_of` below (length path) k -> stored st (Branch p l r) ->
  nodeInputs (tinsert (length path) k v (Branch p l r)) ⊆ I ->
  yields (splitBranch (mkBranch (length p) (packBits p) (thash l) (thash r)) k v (KEY_BITS - length path) ver) st
    (tinsert (length path) k v (Branch p l r)).
Proof.
  intros Hk Hw Hp Hnp (_ & Sl & Sr). cbn [tinsert]. rewrite decide_False by done.
  pose proof (twf_branch_short _ _ _ _ Hw) as Hlen.
  destruct (prefix_part path k p Hp Hlen Hnp) as (Hn & Hq & _ & _).
  set (s := length path) in *. set (n := lcp (below s k) p) in *.
  set (q := take n (below s k)) in *. intros Hin. pose proof (nodeInputs_fork _ _ _ _ Hin) as [Inew Iold].
  unfold splitBranch. cbv zeta. replace (KEY_BITS - (KEY_BITS - s))%nat with s by lia.
  cbn [prefix_len prefix_bits SparseMerkleTree.left SparseMerkleTree.right].
  rewrite divergeFrom_ok by lia. rewrite Nat.add_0_r, drop_0. fold (below s k). fold n.
  eapply yields_bind; [reflexivity|done|]. rewrite Nat.add_0_l.
  rewrite keyRange_ok by lia. eapply yields_bind; [reflexivity|done|]. fold (below s k). fold q.
  rewrite prefixRange_ok by lia. eapply yields_bind; [reflexivity|done|].
  rewrite take_ge by (rewrite length_drop; lia).
  replace (n + 1)%nat with (S n) by lia. replace (length p - n - 1)%nat with (length (drop (S n) p))
    by (rewrite length_drop; lia).
  destruct (makeBranch_ok (drop (S n) p) l r ver st Iold) as (st1 & E1 & G1 & S1);
    [rewrite length_drop; lia|done|done|].
  eapply yields_bind; [exact E1|exact G1|].
  destruct (writeLeaf_ok k v ver st1 Inew) as (st2 & E2 & G2 & S2).
  eapply yields_bind; [exact E2|exact G2|].
  rewrite bitAt_turn by lia. eapply yields_bind; [reflexivity|done|].
  pose proof (makeFork_ok q (turn (s + n) k) (Leaf k v) (Branch (drop (S n) p) l r) ver st2 Hin ltac:(lia) S2) as M.
  rewrite Hq in M. apply M. by eapply stored_grows.
Qed.

Lemma nodeInputs_of s t : tinputs s t ⊆ I -> nodeInputs t ⊆ I.
Proof. intros Hin. etrans; [apply nodeInputs_sub|exact Hin]. Qed.

(** A branch whose children are both occupied is written again. *)
Lemma rejoin_ok (path : list bool) p (b : bool) l r hl hr ver st : (length path + length p < KEY_BITS)%nat ->
  tinputs (length path) (Branch p l r) ⊆ I -> stored st l -> stored st r ->
  yields (rejoin (mkBranch (length p) (packBits p) hl hr) (thash l) (thash r)
    (KEY_BITS - length path) (KEY_BITS - length path - length p - 1) ver) st (Branch p l r).
Proof.
  intros Hlen Hin Sl Sr. destruct (tinputs_branch _ _ _ _ Hin) as [Il Ir]. unfold rejoin.
  rewrite (child_depth path p b), child_pos.
  pose proof (thash_not_default _ _ _ Hcf Il) as Dl. pose proof (thash_not_default _ _ _ Hcf Ir) as Dr.
  apply N.eqb_neq in Dl, Dr. rewrite Dl, Dr. cbn [andb orb prefix_len prefix_bits].
  apply makeBranch_ok; [by eapply nodeInputs_of|lia|done|done].
Qed.

(** A branch with one occupied child gives way to that child. *)
Lemma rejoin_lift path p (b : bool) t nl nr hl hr ver st :
  nl = (if b then defaultHash (KEY_BITS - length path - length p - 1) else thash t) ->
  nr = (if b then thash t else defaultHash (KEY_BITS - length path - length p - 1)) ->
  twf (path ++ p ++ [b]) t -> stored st t -> tinputs (length path + length p + 1) t ⊆ I ->
  nodeInputs (lift (p ++ [b]) t) ⊆ I ->
  yields (rejoin (mkBranch (length p) (packBits p) hl hr) nl nr
    (KEY_BITS - length path) (KEY_BITS - length path - length p - 1) ver) st (lift (p ++ [b]) t).
Proof.
  intros El Er Hw Hs Hin Hout. pose proof (thash_not_default _ _ _ Hcf Hin) as D.
  rewrite <- (child_pos path p b), <- (child_depth path p b) in D. apply N.eqb_neq in D.
  set (d := defaultHash (KEY_BITS - length path - length p - 1)) in *.
  assert (E : rejoin (mkBranch (length p) (packBits p) hl hr) nl nr (KEY_BITS - length path)
      (KEY_BITS - length path - length p - 1) ver =
    collapse (mkBranch (length p) (packBits p) hl hr) nl nr d ver /\
    (nl =? d) = b /\ (if nl =? d then nr else nl) = thash t).
  { unfold rejoin. fold d. destruct b; subst nl nr; rewrite N.eqb_refl, D; done. }
  destruct E as (-> & E1 & E2). unfold collapse. cbv zeta. rewrite E2, E1.
  pose proof (stored_row _ _ Hs) as Hrow. unfold nodeRow in Hrow.
  eapply yields_bind; [unfold getNode, gets; rewrite Hrow; reflexivity|done|].
  destruct t as [k v|q l r].
  - destruct Hw as [Hk _]. destruct (node_leaf k v Hk) as [-> _]. exists st. by split_and!.
  - pose proof (twf_branch_short _ _ _ _ Hw) as Hlen. rewrite child_pos in Hlen.
    destruct (node_branch q l r ltac:(lia)) as (-> & -> & ->).
    cbn [prefix_len prefix_bits SparseMerkleTree.left SparseMerkleTree.right lift] in *.
    rewrite !prefixRange_ok, !drop_0, !take_ge by lia.
    do 2 (eapply yields_bind; [reflexivity|done|]). cbv zeta. rewrite app_assoc.
    replace (length p + 1 + length q)%nat with (length ((p ++ [b]) ++ q)) by (rewrite !length_app; cbn; lia).
    apply makeBranch_ok; [done| |apply Hs|apply Hs]. rewrite !length_app. cbn. lia.
Qed.

(** *** The walks of an update and of a removal *)

Lemma update_inserts k v ver t : wf_hash k -> forall path fuel st,
  twf path t -> path `prefix_of` keyBits k -> stored st t -> tinputs (length path) t ⊆ I ->
  tinputs (length path) (tinsert (length path) k v t) ⊆ I -> (KEY_BITS - length path < fuel)%nat ->
  yields (updateRecursive fuel (thash t) k v false (KEY_BITS - length path) ver) st
    (tinsert (length path) k v t).
Proof.
  intros Hk. induction t as [k' v'|p l IHl r IHr]; intros path [|fuel] st Hw Hp Hs Hin Hout Hf; try lia.
  - pose proof Hw as [Hk' Hp']. unfold yields. rewrite (update_leaf _ _ _ _ _ _ _ _ _ Hk' Hs Hin).
    destruct (N.eqb_spec k' k) as [->|Hne].
    + cbn [tinsert] in *. rewrite decide_True in * by done. apply writeLeaf_ok. by eapply nodeInputs_of.
    + apply splitLeaf_ok; try done. by eapply nodeInputs_of.
  - unfold yields. rewrite (update_branch _ _ _ _ _ _ _ _ _ _ Hw Hs Hin).
    pose proof (twf_branch_short _ _ _ _ Hw) as Hlen. pose proof Hs as (_ & Sl & Sr).
    destruct (decide (p `prefix_of` below (length path) k)) as [Hpre|Hpre].
    + pose proof (path_turn _ _ _ Hp Hpre Hlen) as Ht. pose proof Hw as [Hwl Hwr].
      destruct (tinputs_branch _ _ _ _ Hin) as [Il Ir]. cbn [tinsert] in *. rewrite decide_True in * by done.
      destruct (turn (length path + length p) k).
      * destruct (tinputs_branch _ _ _ _ Hout) as [Ol Or]. rewrite (child_depth path p true).
        destruct (IHr (path ++ p ++ [true]) fuel st) as (st1 & E1 & G1 & S1); try done; rewrite ?child_pos; try done; [lia|].
        rewrite child_pos in E1, S1. apply (yields_bind _ _ _ _ _ _ E1 G1).
        rewrite <- (child_pos path p true), <- child_depth, child_pos. apply (rejoin_ok _ _ true); try done.
        by eapply stored_grows; [|eapply nodeInputs_of|].
      * destruct (tinputs_branch _ _ _ _ Hout) as [Ol Or]. rewrite (child_depth path p false).
        destruct (IHl (path ++ p ++ [false]) fuel st) as (st1 & E1 & G1 & S1); try done; rewrite ?child_pos; try done; [lia|].
        rewrite child_pos in E1, S1. apply (yields_bind _ _ _ _ _ _ E1 G1).
        rewrite <- (child_pos path p false), <- child_depth, child_pos. apply (rejoin_ok _ _ false); try done.
        by eapply stored_grows; [|eapply nodeInputs_of|].
    + apply splitBranch_ok; try done. by eapply nodeInputs_of.
Qed.

Lemma update_deletes k v ver t : forall path fuel st,
  twf path t -> path `prefix_of` keyBits k -> stored st t -> tinputs (length path) t ⊆ I ->
  (forall t', tdelete (length path) k t = Some t' -> tinputs (length path) t' ⊆ I) ->
  (KEY_BITS - length path < fuel)%nat ->
  let m := updateRecursive fuel (thash t) k v true (KEY_BITS - length path) ver in
  match tdelete (length path) k t with
  | Some t' => yields m st t'
  | None => m st = (Ok (defaultHash (KEY_BITS - length path)), st)
  end.
Proof.
  induction t as [k' v'|p l IHl r IHr]; intros path [|fuel] st Hw Hp Hs Hin Hout Hf; try lia; cbv zeta.
  - pose proof Hw as [Hk' Hp']. unfold yields. rewrite (update_leaf _ _ _ _ _ _ _ _ _ Hk' Hs Hin).
    cbn [tdelete]. destruct (decide (k' = k)) as [->|Hne]; [by rewrite N.eqb_refl|].
    apply N.eqb_neq in Hne. rewrite Hne.
    destruct (makeLeaf_ok k' (blake2b v') ver st) as (st1 & E1 & G1 & _); [by apply nodeInputs_of, nodeInputs_leaf in Hin as [_ ?]|].
    exists st1. split_and!; [done|done|]. by eapply stored_grows; [|eapply nodeInputs_of|].
  - unfold yields. rewrite (update_branch _ _ _ _ _ _ _ _ _ _ Hw Hs Hin).
    pose proof (twf_branch_short _ _ _ _ Hw) as Hlen. pose proof Hs as (_ & Sl & Sr). cbn [tdelete] in *.
    destruct (decide (p `prefix_of` below (length path) k)) as [Hpre|Hpre].
    + pose proof (path_turn _ _ _ Hp Hpre Hlen) as Ht. pose proof Hw as [Hwl Hwr].
      destruct (tinputs_branch _ _ _ _ Hin) as [Il Ir].
      destruct (turn (length path + length p) k).
      * specialize (IHr (path ++ p ++ [true]) fuel st Hwr Ht Sr). rewrite <- child_depth, child_pos in IHr.
        destruct (tdelete (length path + length p + 1) k r) as [r'|] eqn:Er; specialize (Hout _ eq_refl).
        -- destruct (tinputs_branch _ _ _ _ Hout) as [Ol Or].
           destruct IHr as (st1 & E1 & G1 & S1); [done|by intros ? [= <-]|lia|].
           apply (yields_bind _ _ _ _ _ _ E1 G1), (rejoin_ok _ _ true); try done.
           by eapply stored_grows; [|eapply nodeInputs_of|].
        -- eapply yields_bind; [apply IHr; [done|done|lia]|done|].
           eapply (rejoin_lift _ _ false); try done. by eapply nodeInputs_of.
      * specialize (IHl (path ++ p ++ [false]) fuel st Hwl Ht Sl). rewrite <- child_depth, child_pos in IHl.
        destruct (tdelete (length path + length p + 1) k l) as [l'|] eqn:El; specialize (Hout _ eq_refl).
        -- destruct (tinputs_branch _ _ _ _ Hout) as [Ol Or].
           destruct IHl as (st1 & E1 & G1 & S1); [done|by intros ? [= <-]|lia|].
           apply (yields_bind _ _ _ _ _ _ E1 G1), (rejoin_ok _ _ true); try done.
           by eapply stored_grows; [|eapply nodeInputs_of|].
        -- eapply yields_bind; [apply IHl; [done|done|lia]|done|].
           eapply (rejoin_lift _ _ true); try done. by eapply nodeInputs_of.
    + apply makeBranch_ok; try done; [by eapply nodeInputs_of|lia].
Qed.

End store.

(** ** Stores and maps *)

Section maps.
Context `{Crypto}.

Definition ostored (st : Smt) (o : option tree) : Prop := match o with Some t => stored st t | None => True end.

(** The abstraction: the store holds the rows of the map's tree, below its root. *)
Record Represents (st : Smt) (m : gmap Hash bytes) : Prop := {
  rep_keys : wf_keys m;
  rep_root : smt_root st = smtRoot m;
  rep_rows : ostored st (treeOf m);
}.

Lemma treeOf_empty : treeOf ∅ = None.
Proof. apply map_fold_empty. Qed.

Lemma Represents_init : Represents init ∅.
Proof. split; unfold smtRoot; rewrite ?treeOf_empty; [apply map_Forall_empty|reflexivity|exact Logic.I]. Qed.

(** Loading a saved root finds the same content. *)
Lemma ostored_frame st st' o : smt_nodes st' = smt_nodes st -> smt_leaves st' = smt_leaves st ->
  ostored st o -> ostored st' o.
Proof.
  intros En El. destruct o as [t|]; [|done]. cbn. induction t as [k v|p l IHl r IHr]; cbn.
  - unfold nodeRow. by rewrite En, El.
  - unfold nodeRow. rewrite En. naive_solver.
Qed.

Context (Hwf : forall b, wf_hash (blake2b b)).

Lemma collisionFreeOn_sub (I J : list bytes) : J ⊆ I -> collisionFreeOn I -> collisionFreeOn J.
Proof. intros Hs Hcf x y Hx Hy. apply Hcf; by apply Hs. Qed.

Lemma get_represents st m k : Represents st m -> collisionFreeOn (smtInputs m) -> get k st = (Ok (m !! k), st).
Proof.
  intros [Hk Hr Hs] Hcf. destruct (treeOf_spec m Hk) as [Ho Em]. unfold get. rewrite bind_gets, Hr.
  unfold smtRoot, smtInputs in *. rewrite <- Em at 2. destruct (treeOf m) as [t|].
  - cbn [ohash]. rewrite <- (Nat.sub_0_r KEY_BITS) at 1. unfold omap. cbn [from_option].
    apply (getRecursive_ok Hwf _ Hcf k st t []); [done|apply prefix_nil|done|done|unfold walkFuel; cbn; lia].
  - unfold walkFuel. cbn [getRecursive ohash]. rewrite N.eqb_refl. done.
Qed.

(** An update or a removal: rows are added, the root is the updated map's, and
    nothing else changes.  [I] holds the strings hashed for both maps. *)
Lemma walkFromRoot_grows I k v (is_delete : bool) ver st m m' :
  collisionFreeOn I -> smtInputs m ⊆ I -> smtInputs m' ⊆ I ->
  Represents st m -> wf_hash k -> m' = (if is_delete then delete k m else <[k := v]> m) ->
  exists st1, walkFromRoot k v is_delete ver st = (Ok (), st1 <| smt_root := smtRoot m' |>) /\
    grows I st st1 /\ Represents (st1 <| smt_root := smtRoot m' |>) m'.
Proof.
  intros Hcf Im Im' [Hm Hr Hs] Hk Em'.
  assert (Hm' : wf_keys m') by (destruct is_delete; subst m'; [by apply map_Forall_delete|by apply map_Forall_insert_2]).
  assert (Et : treeOf m' = if is_delete then odelete k (treeOf m) else Some (oinsert k v (treeOf m)))
    by (destruct is_delete; subst m'; [by apply treeOf_delete|by apply treeOf_insert]).
  destruct (treeOf_spec m Hm) as [Ho _].
  assert (Hend : forall st1, updateRecursive walkFuel (smt_root st) k v is_delete KEY_BITS ver st = (Ok (smtRoot m'), st1) ->
    grows I st st1 -> ostored st1 (treeOf m') ->
    exists st1, walkFromRoot k v is_delete ver st = (Ok (), st1 <| smt_root := smtRoot m' |>) /\
      grows I st st1 /\ Represents (st1 <| smt_root := smtRoot m' |>) m').
  { intros st1 E G S. exists st1. split_and!; [|done|].
    - unfold walkFromRoot. rewrite bind_gets. rewrite (bind_ok _ _ _ _ _ E). reflexivity.
    - split; [done|done|]. by eapply ostored_frame; [| |exact S]. }
  assert (Hlen : (KEY_BITS - 0 < walkFuel)%nat) by (unfold walkFuel; lia).
  rewrite Hr in Hend. clear Em'. unfold smtRoot, smtInputs in *. rewrite Et in *. destruct (treeOf m) as [t|]; cbn [ohash oinputs] in *.
  - destruct is_delete.
    + pose proof (update_deletes Hwf I Hcf k v ver t [] walkFuel st Ho (prefix_nil _) Hs Im) as D.
      unfold odelete in *. cbn [mbind option_bind] in *. cbn [length] in D. rewrite Nat.sub_0_r in D.
      destruct (tdelete 0 k t) as [t'|] eqn:Ed; cbn [ohash oinputs] in *.
      * destruct D as (st1 & E & G & S); [by intros ? [= <-]|done|]. by apply (Hend st1).
      * apply (Hend st); [by apply D|reflexivity|done].
    + destruct (update_inserts Hwf I Hcf k v ver t Hk [] walkFuel st) as (st1 & E & G & S); try done.
      { apply prefix_nil. }
      cbn [length] in E, S. rewrite Nat.sub_0_r in E. by apply (Hend st1).
  - unfold walkFuel in Hend. cbn [updateRecursive] in Hend. rewrite N.eqb_refl in Hend. destruct is_delete.
    + apply (Hend st); [done|reflexivity|done].
    + destruct (writeLeaf_ok Hwf I Hcf k v ver st) as (st1 & E & G & S); [exact (nodeInputs_of I 0 (Leaf k v) Im')|].
      by apply (Hend st1).
Qed.

Lemma walkFromRoot_ok k v (is_delete : bool) ver st m m' :
  Represents st m -> wf_hash k -> m' = (if is_delete then delete k m else <[k := v]> m) ->
  collisionFreeOn (smtInputs m ++ smtInputs m') ->
  exists st', walkFromRoot k v is_delete ver st = (Ok (), st') /\ Represents st' m' /\ smt_meta st' = smt_meta st.
Proof.
  intros HR Hk Em' Hcf. destruct (walkFromRoot_grows _ k v is_delete ver st m m' Hcf) as (st1 & E & G & HR'); try done.
  - clear. set_solver.
  - clear. set_solver.
  - eexists. split_and!; [exact E|done|]. cbn. apply G.
Qed.
End maps.
