(* ===== verification/SmtTheorems.v ===== *)
(** * Theorems on the sparse Merkle tree

    Sequences of updates and removals, batches, saved roots; what a root binds;
    that every operation and read in the life of a tree returns, within its fuel
    and without an index out of range. *)

From S2P Require Import Prelude Types Wire Rotation Block Smt SmtTree SmtRefinement.
Import SparseMerkleTree.

Opaque KEY_BITS.

(** ** Sequences of operations *)

Section runs.
Context `{Crypto}.

(** One public call at a version, and its effect on the content. *)
Definition call (u : Update) (version : N) : Tree Hash :=
  if upd_is_delete u then remove (upd_key u) version else update (upd_key u) (upd_value u) version.

Definition applied (m : gmap Hash bytes) (u : Update) : gmap Hash bytes :=
  if upd_is_delete u then delete (upd_key u) m else <[upd_key u := upd_value u]> m.

Fixpoint calls (us : list (Update * N)) : Tree unit :=
  match us with
  | [] => mret ()
  | (u, version) :: us => call u version;; calls us
  end.

Definition content (m : gmap Hash bytes) (us : list Update) : gmap Hash bytes := foldl applied m us.

(** Everything hashed on the way: the strings of each map's tree. *)
Fixpoint runInputs (m : gmap Hash bytes) (us : list Update) : list bytes :=
  smtInputs m ++ match us with [] => [] | u :: us => runInputs (applied m u) us end.

Lemma smtInputs_runInputs m us : smtInputs m ⊆ runInputs m us.
Proof. destruct us; cbn; set_solver. Qed.

Lemma runInputs_last us : forall m, smtInputs (content m us) ⊆ runInputs m us.
Proof.
  induction us as [|u us IH]; intros m; cbn; [set_solver|]. specialize (IH (applied m u)). set_solver.
Qed.

Context (Hwf : forall b, wf_hash (blake2b b)).

Lemma walk_applied u (v : bytes) ver st m : Represents st m -> wf_hash (upd_key u) ->
  (upd_is_delete u = false -> v = upd_value u) ->
  collisionFreeOn (smtInputs m ++ smtInputs (applied m u)) ->
  exists st', walkFromRoot (upd_key u) v (upd_is_delete u) ver st = (Ok (), st') /\
    Represents st' (applied m u) /\ smt_meta st' = smt_meta st.
Proof.
  intros HR Hk Hv Hcf. apply (walkFromRoot_ok Hwf) with m; try done.
  unfold applied. destruct (upd_is_delete u); [done|]. by rewrite Hv.
Qed.

Lemma Represents_dirty st m b : Represents st m -> Represents (st <| smt_height_dirty := b |>) m.
Proof. intros [Hk Hr Hs]. split; [done|done|]. by eapply ostored_frame; [| |exact Hs]. Qed.

Lemma call_ok u ver st m : Represents st m -> wf_hash (upd_key u) ->
  collisionFreeOn (smtInputs m ++ smtInputs (applied m u)) ->
  exists st', call u ver st = (Ok (smtRoot (applied m u)), st') /\ Represents st' (applied m u) /\
    smt_meta st' = smt_meta st.
Proof.
  intros HR Hk Hcf.
  destruct (walk_applied u (if upd_is_delete u then [] else upd_value u) ver st m HR Hk) as (st1 & E & HR1 & Em);
    [by intros ->|done|].
  exists (st1 <| smt_height_dirty := true |>). split_and!; [|by apply Represents_dirty|done].
  assert (Ec : call u ver st = (walkFromRoot (upd_key u) (if upd_is_delete u then [] else upd_value u)
    (upd_is_delete u) ver;; markDirty;; gets smt_root) st) by (unfold call; by destruct (upd_is_delete u)).
  rewrite Ec, (bind_ok _ _ _ _ _ E), <- (rep_root _ _ HR1). reflexivity.
Qed.

Lemma runInputs_head m u us : collisionFreeOn (runInputs m (u :: us)) ->
  collisionFreeOn (smtInputs m ++ smtInputs (applied m u)) /\ collisionFreeOn (runInputs (applied m u) us).
Proof.
  intros Hcf. pose proof (smtInputs_runInputs (applied m u) us). cbn in Hcf.
  split; (eapply collisionFreeOn_sub; [|exact Hcf]); set_solver.
Qed.

Lemma calls_ok us : forall st m, Represents st m -> Forall (fun u => wf_hash (upd_key u.1)) us ->
  collisionFreeOn (runInputs m (map fst us)) ->
  exists st', calls us st = (Ok (), st') /\ Represents st' (content m (map fst us)).
Proof.
  induction us as [|[u ver] us IH]; intros st m HR Hk Hcf; [by exists st|].
  apply Forall_cons in Hk as [Hu Hk]. apply runInputs_head in Hcf as [H1 H2].
  destruct (call_ok u ver st m HR Hu H1) as (st1 & E & HR1 & _).
  destruct (IH st1 (applied m u) HR1 Hk H2) as (st' & E' & HR'). exists st'. split; [|done].
  cbn [calls]. by rewrite (bind_ok _ _ _ _ _ E).
Qed.
End runs.

(** A small digest for the examples: the domain and a weighted sum of the rest,
    for a default only the domain and the depth. *)
Definition weigh (b : bytes) : N := snd (foldl (fun '(i, a) x => (i + 1, a + i * x)) (1, 0) b).

Definition spread : Crypto := {|
  blake2b := fun b =>
    (be_combine (take 7 b) * 2 ^ 64 + (if head b is Some 100 then 0 else weigh (drop 7 b))) mod 2 ^ 256;
  ed25519_verify := fun _ _ _ => true;
  overshift := fun _ _ => 0;
|}.

Lemma spread_wf b : wf_hash (@blake2b spread b).
Proof. unfold wf_hash. cbn [blake2b spread]. by apply N.mod_lt. Qed.

(** Two keys with a common start, and one apart. *)
Definition keyA : Hash := 2 ^ 255 + 7.
Definition keyB : Hash := 2 ^ 255 + 2 ^ 200.
Definition keyC : Hash := 5.

Definition puts (k : Hash) (v : bytes) : Update := mkUpdate k v false.
Definition dels (k : Hash) : Update := mkUpdate k [] true.

Definition sampleCalls : list (Update * N) :=
  [(puts keyA [1], 1); (puts keyB [2; 2], 2); (puts keyC [3], 3); (dels keyA, 4)].

(** C28: the sparse Merkle tree refines a finite map. Whatever updates and
    removals are called on an empty tree, every call returns, a read of any key
    gives what a map under the same calls holds, and the root is the root of the
    canonical tree of that map. The calls must not find a collision of the hash
    among the strings they hash. *)
Theorem smt_refines_map `{Crypto} (us : list (Update * N)) :
  (forall b, wf_hash (blake2b b)) -> Forall (fun u => wf_hash (upd_key u.1)) us ->
  collisionFreeOn (runInputs ∅ (map fst us)) ->
  let m := content ∅ (map fst us) in
  exists st, calls us init = (Ok (), st) /\ smt_root st = smtRoot m /\ forall k, get k st = (Ok (m !! k), st).
Proof.
  intros Hwf Hk Hcf m. destruct (calls_ok Hwf us init ∅ Represents_init Hk Hcf) as (st & E & HR).
  exists st. split_and!; [done|apply HR|]. intros k. apply get_represents; [done|done|].
  eapply collisionFreeOn_sub; [apply runInputs_last|exact Hcf].
Qed.

Lemma smt_refines_map_witness :
  exists st, @calls spread sampleCalls (@init spread) = (Ok (), st) /\
    @get spread keyB st = (Ok (Some [2; 2]), st) /\ @get spread keyA st = (Ok None, st).
Proof.
  destruct (@smt_refines_map spread sampleCalls spread_wf) as (st & E & _ & G).
  - repeat constructor.
  - apply distinctDigests_ok. vm_compute. reflexivity.
  - exists st. split; [exact E|]. split; [exact (G keyB)|exact (G keyA)].
Defined.

(** ** What a root binds *)

Section binding.
Context `{Crypto} (Hwf : forall b, wf_hash (blake2b b)).

Lemma branchInput_parts n bits l r n' bits' l' r' : (n <= KEY_BITS)%nat -> (n' <= KEY_BITS)%nat ->
  length bits = prefixBytes n -> length bits' = prefixBytes n' ->
  wf_hash l -> wf_hash r -> wf_hash l' -> wf_hash r' ->
  branchInput n bits l r = branchInput n' bits' l' r' -> n = n' /\ bits = bits' /\ l = l' /\ r = r'.
Proof.
  rewrite KEY_BITS_256. intros Hn Hn' Hb Hb' Hl Hr Hl' Hr' E. unfold branchInput in E.
  rewrite (take_ge bits), (take_ge bits') in E by lia. do 2 apply app_inv_head in E.
  apply app_inj_1 in E as [E1 E]; [|by rewrite !length_be_split].
  apply (be_split_inj 2) in E1; [|change (w8 ^ N.of_nat 2) with w16; lia..]. apply Nat2N.inj in E1.
  apply app_inj_1 in E as [-> E]; [|by rewrite Hb, Hb', E1].
  apply app_inj_1 in E as [E3 E4]; [|by rewrite !length_be_split].
  apply (be_split_inj 32) in E3; [|done|done]. by apply (be_split_inj 32) in E4.
Qed.

Lemma branchInput_inj p l r p' l' r' : (length p < KEY_BITS)%nat -> (length p' < KEY_BITS)%nat ->
  wf_hash l -> wf_hash r -> wf_hash l' -> wf_hash r' ->
  branchInput (length p) (packBits p) l r = branchInput (length p') (packBits p') l' r' ->
  p = p' /\ l = l' /\ r = r'.
Proof.
  intros Hp Hp' ???? E. apply branchInput_parts in E as (E1 & E2 & E3); try done; [|lia|lia|apply length_packBits..].
  split; [|done]. by apply packBits_inj.
Qed.

Lemma leafInput_both k vh k' vh' : wf_hash k -> wf_hash k' -> wf_hash vh -> wf_hash vh' ->
  leafInput k vh = leafInput k' vh' -> k = k' /\ vh = vh'.
Proof.
  intros H1 H2 H3 H4 E. unfold leafInput in E. do 2 apply app_inv_head in E.
  apply app_inj_1 in E as [E1 E2]; [|by rewrite !length_be_split].
  apply (be_split_inj 32) in E1; [|done|done]. by apply (be_split_inj 32) in E2.
Qed.

Lemma thash_inj I (Hcf : collisionFreeOn I) t1 : forall path1 path2 t2,
  twf path1 t1 -> twf path2 t2 -> nodeInputs t1 ⊆ I -> nodeInputs t2 ⊆ I -> thash t1 = thash t2 -> t1 = t2.
Proof.
  induction t1 as [k v|p l IHl r IHr]; intros path1 path2 t2 H1 H2 I1 I2 E; rewrite !thash_top in E;
    (apply Hcf in E; [|apply I1, topInput_in|apply I2, topInput_in]); destruct t2 as [k' v'|p' l' r']; try done.
  - apply nodeInputs_leaf in I1 as [Hv _], I2 as [Hv' _].
    apply leafInput_both in E as [-> E]; [|apply H1|apply H2|apply Hwf|apply Hwf]. by apply Hcf in E as ->.
  - pose proof (twf_branch_short _ _ _ _ H1). pose proof (twf_branch_short _ _ _ _ H2).
    apply branchInput_inj in E as (-> & El & Er); [|lia|lia|apply thash_wf, Hwf..].
    apply nodeInputs_branch in I1 as (_ & ? & ?), I2 as (_ & ? & ?). destruct H1, H2.
    f_equal; [by eapply IHl|by eapply IHr].
Qed.

Lemma smtRoot_inj m1 m2 : wf_keys m1 -> wf_keys m2 -> collisionFreeOn (smtInputs m1 ++ smtInputs m2) ->
  smtRoot m1 = smtRoot m2 -> m1 = m2.
Proof.
  intros K1 K2 Hcf E. destruct (treeOf_spec m1 K1) as [W1 E1], (treeOf_spec m2 K2) as [W2 E2].
  unfold smtRoot, smtInputs in *. set (I := oinputs (treeOf m1) ++ oinputs (treeOf m2)) in *.
  assert (I1 : oinputs (treeOf m1) ⊆ I) by (unfold I; clear; set_solver).
  assert (I2 : oinputs (treeOf m2) ⊆ I) by (unfold I; clear; set_solver). clearbody I.
  rewrite <- E1, <- E2. f_equal. destruct (treeOf m1) as [t1|], (treeOf m2) as [t2|]; cbn [ohash oinputs owf] in *.
  - f_equal. by eapply (thash_inj I Hcf); [exact W1|exact W2|eapply nodeInputs_of|eapply nodeInputs_of|].
  - exfalso. rewrite <- (Nat.sub_0_r KEY_BITS) in E. by apply (thash_not_default I _ 0) in E.
  - exfalso. rewrite <- (Nat.sub_0_r KEY_BITS) in E. symmetry in E. by apply (thash_not_default I _ 0) in E.
  - done.
Qed.
End binding.

(** C29: a root is a fingerprint of the content. Two trees, each built by any
    sequence of updates and removals at any versions, have equal roots exactly
    when they hold the same keys with the same values, so the root depends on
    neither the order nor the history of the calls, and binds every key, present
    or absent; again as long as no collision occurs among the strings hashed. *)
Theorem root_iff_content `{Crypto} (us1 us2 : list (Update * N)) (st1 st2 : Smt) :
  (forall b, wf_hash (blake2b b)) ->
  Forall (fun u => wf_hash (upd_key u.1)) (us1 ++ us2) ->
  collisionFreeOn (runInputs ∅ (map fst us1) ++ runInputs ∅ (map fst us2)) ->
  calls us1 init = (Ok (), st1) -> calls us2 init = (Ok (), st2) ->
  smt_root st1 = smt_root st2 <-> content ∅ (map fst us1) = content ∅ (map fst us2).
Proof.
  intros Hwf [K1 K2]%Forall_app Hcf E1 E2. pose proof Represents_init as HI.
  destruct (calls_ok Hwf us1 init ∅ HI K1) as (s1 & E1' & [W1 R1 _]);
    [eapply collisionFreeOn_sub; [|exact Hcf]; clear; set_solver|].
  destruct (calls_ok Hwf us2 init ∅ HI K2) as (s2 & E2' & [W2 R2 _]);
    [eapply collisionFreeOn_sub; [|exact Hcf]; clear; set_solver|].
  rewrite E1 in E1'. rewrite E2 in E2'. injection E1' as <-. injection E2' as <-. rewrite R1, R2.
  split; [|by intros ->]. apply smtRoot_inj; [done|done|done|].
  eapply collisionFreeOn_sub; [|exact Hcf].
  pose proof (runInputs_last (map fst us1) ∅) as L1. pose proof (runInputs_last (map fst us2) ∅) as L2.
  revert L1 L2. generalize (runInputs ∅ (map fst us1)) (runInputs ∅ (map fst us2)). clear. set_solver.
Qed.

(** The same content by other ways, with the same root. *)
Definition shortCalls : list (Update * N) := [(puts keyC [3], 7); (puts keyB [2; 2], 9)].

Lemma root_iff_content_witness :
  exists st1 st2, @calls spread sampleCalls (@init spread) = (Ok (), st1) /\
    @calls spread shortCalls (@init spread) = (Ok (), st2) /\ smt_root st1 = smt_root st2.
Proof.
  destruct (@calls_ok spread spread_wf sampleCalls (@init spread) ∅ (@Represents_init spread)) as (st1 & E1 & _);
    [repeat constructor|apply distinctDigests_ok; vm_compute; reflexivity|].
  destruct (@calls_ok spread spread_wf shortCalls (@init spread) ∅ (@Represents_init spread)) as (st2 & E2 & _);
    [repeat constructor|apply distinctDigests_ok; vm_compute; reflexivity|].
  exists st1, st2. split; [exact E1|]. split; [exact E2|].
  apply (@root_iff_content spread sampleCalls shortCalls st1 st2 spread_wf); [repeat constructor| |exact E1|exact E2|].
  - apply distinctDigests_ok. vm_compute. reflexivity.
  - vm_compute. reflexivity.
Defined.

(** ** Batches *)

Section batches.
Context `{Crypto} (Hwf : forall b, wf_hash (blake2b b)).

Lemma applied_comm m u v : upd_key u <> upd_key v -> applied (applied m u) v = applied (applied m v) u.
Proof.
  intros Hne. unfold applied. destruct (upd_is_delete u), (upd_is_delete v).
  - apply delete_delete.
  - by rewrite delete_insert_ne.
  - by rewrite delete_insert_ne.
  - by apply insert_insert_ne.
Qed.

(** The order of updates to different keys does not matter. *)
Lemma content_perm us vs : us ≡ₚ vs -> NoDup (map upd_key us) -> forall m, content m us = content m vs.
Proof.
  induction 1 as [|u us vs _ IH|u v us|us vs ws P1 IH1 _ IH2]; intros Hnd m.
  - done.
  - cbn in *. apply NoDup_cons in Hnd as [_ Hnd]. by apply IH.
  - cbn in *. apply NoDup_cons in Hnd as [Hin _]. f_equal. apply applied_comm. set_solver.
  - rewrite IH1 by done. apply IH2. by rewrite <- (Permutation_map upd_key P1).
Qed.

(** Without repeated keys nothing is dropped. *)
Lemma dedup_id us : NoDup (map upd_key us) -> dedup us = us.
Proof.
  induction us as [|u [|v us] IH]; intros Hnd; [done|done|]. cbn [map] in Hnd. apply NoDup_cons in Hnd as [Hin Hnd].
  cbn [dedup]. destruct (N.eqb_spec (upd_key u) (upd_key v)) as [E|]; [set_solver|]. f_equal. by apply IH.
Qed.

Lemma applyAll_ok us ver : forall st m, Represents st m -> Forall (fun u => wf_hash (upd_key u)) us ->
  collisionFreeOn (runInputs m us) ->
  exists st', applyAll us ver st = (Ok (), st') /\ Represents st' (content m us).
Proof.
  induction us as [|u us IH]; intros st m HR Hk Hcf; [by exists st|].
  apply Forall_cons in Hk as [Hu Hk]. apply runInputs_head in Hcf as [H1 H2]; [|done].
  destruct (walk_applied Hwf u (if upd_is_delete u then [] else upd_value u) ver st m HR Hu) as (st1 & E & HR1 & _);
    [by intros ->|done|].
  destruct (IH st1 (applied m u) HR1 Hk H2) as (st' & E' & HR'). exists st'. split; [|done].
  cbn [applyAll]. by rewrite (bind_ok _ _ _ _ _ E).
Qed.

(** A batch of updates to different keys is those updates, in whatever order the
    sort leaves them. *)
Lemma applyBatch_ok `{StdSort} us ver st m :
  let ordered := std_sort (fun a b => upd_key a <? upd_key b) us in
  Represents st m -> Forall (fun u => wf_hash (upd_key u)) us -> NoDup (map upd_key us) ->
  collisionFreeOn (runInputs m ordered) ->
  exists st', applyBatch us ver st = (Ok (smtRoot (content m us)), st') /\ Represents st' (content m us).
Proof.
  intros ordered HR Hk Hnd Hcf.
  assert (Hp : ordered ≡ₚ us) by apply std_sort_perm.
  assert (Hnd' : NoDup (map upd_key ordered)) by (by rewrite (Permutation_map upd_key Hp)).
  destruct (applyAll_ok ordered ver st m HR) as (st1 & E & HR1); [by rewrite Hp|done|].
  rewrite (content_perm _ _ Hp Hnd' m) in HR1.
  exists (st1 <| smt_height_dirty := true |>). split; [|by apply Represents_dirty].
  unfold applyBatch. cbv zeta. fold ordered. rewrite dedup_id by done.
  rewrite (bind_ok _ _ _ _ _ E), <- (rep_root _ _ HR1). reflexivity.
Qed.

Lemma smtRoot_wf m : wf_hash (smtRoot m).
Proof. unfold smtRoot. destruct (treeOf m); [by apply thash_wf|]. cbn. rewrite defaultHash_input by done. apply Hwf. Qed.

(** A saved root is the one a new tree over the same tables starts from. *)
Lemma load_saved st m ver : Represents st m -> exists st', (save ver;; load) st = (Ok (), st') /\ Represents st' m.
Proof.
  intros [Hk Hr Hs]. eexists. split; [reflexivity|].
  assert (Ew : wf_hash (smt_root st)) by (rewrite Hr; apply smtRoot_wf).
  split; [done| |by eapply ostored_frame; [| |exact Hs]]. rewrite <- Hr. set (b := be_split 32 (smt_root st)).
  transitivity (default (defaultHash KEY_BITS)
    (storedRoot (<[rootKey ver := b]> (<["smt_root"%string := b]> (smt_meta st)) !! "smt_root"%string))); [reflexivity|].
  rewrite lookup_insert_ne by (unfold rootKey; cbn; discriminate). rewrite lookup_insert_eq.
  unfold storedRoot, b. rewrite length_be_split, be_combine_hash by done. done.
Qed.
End batches.

(** ** Whole lives of a tree

    Everything the tree's owners call on it, in any order: updates, removals and
    batches at any version, saving, loading the last saved root, pruning the
    history, the height. *)

Inductive op :=
  | OpCall (u : Update) (version : N)
  | OpBatch (us : list Update) (version : N)
  | OpSave (version : N)
  | OpLoad
  | OpPrune (keepFrom : N)
  | OpHeight.

Section lives.
Context `{Crypto} `{StdSort}.

Definition doOp (o : op) : Tree unit :=
  match o with
  | OpCall u version => call u version;; mret ()
  | OpBatch us version => applyBatch us version;; mret ()
  | OpSave version => save version
  | OpLoad => load
  | OpPrune keepFrom => pruneHistory keepFrom
  | OpHeight => height;; mret ()
  end.

Fixpoint doOps (os : list op) : Tree unit :=
  match os with
  | [] => mret ()
  | o :: os => doOp o;; doOps os
  end.

(** The updates an operation makes, in order. *)
Definition opUpdates (o : op) : list Update :=
  match o with
  | OpCall u _ => [u]
  | OpBatch us _ => dedup (std_sort (fun a b => upd_key a <? upd_key b) us)
  | _ => []
  end.

(** The content, and the content last saved. *)
Definition opContent (ms : gmap Hash bytes * gmap Hash bytes) (o : op) : gmap Hash bytes * gmap Hash bytes :=
  match o with
  | OpSave _ => (fst ms, fst ms)
  | OpLoad => (snd ms, snd ms)
  | _ => (content (fst ms) (opUpdates o), snd ms)
  end.

(** The strings hashed on the way. *)
Fixpoint opInputs (ms : gmap Hash bytes * gmap Hash bytes) (os : list op) : list bytes :=
  match os with
  | [] => smtInputs (fst ms)
  | o :: os => runInputs (fst ms) (opUpdates o) ++ opInputs (opContent ms o) os
  end.

Definition opKeys (o : op) : Prop := Forall (fun u => wf_hash (upd_key u)) (opUpdates o).

Context (Hwf : forall b, wf_hash (blake2b b)) (I : list bytes) (Hcf : collisionFreeOn I).

(** What holds between the operations: the current and the saved content are
    stored, every root on record is that of a map, every historical row is the
    preimage of its key. *)
Record Sane (st : Smt) (m saved : gmap Hash bytes) : Prop := {
  sane_rep : Represents st m;
  sane_in : smtInputs m ⊆ I;
  sane_saved_keys : wf_keys saved;
  sane_saved_rows : ostored st (treeOf saved);
  sane_saved_in : smtInputs saved ⊆ I;
  sane_saved_root : default (defaultHash KEY_BITS) (storedRoot (smt_meta st !! "smt_root"%string)) = smtRoot saved;
  sane_roots key r : storedRoot (smt_meta st !! key) = Some r ->
    exists m', wf_keys m' /\ smtInputs m' ⊆ I /\ r = smtRoot m';
  sane_hist h ver b : wf_hash h -> smt_nodes_hist st !! histKey h ver = Some b ->
    exists x, x ∈ I /\ h = blake2b x /\ b = rowOf x;
}.

Lemma Sane_init : smtInputs ∅ ⊆ I -> Sane init ∅ ∅.
Proof.
  intros Hi. split; [apply Represents_init|exact Hi|apply map_Forall_empty|by rewrite treeOf_empty|exact Hi| | |].
  - unfold smtRoot. rewrite treeOf_empty. reflexivity.
  - intros key r Hr. change (storedRoot ((∅ : gmap string bytes) !! key) = Some r) in Hr. by rewrite lookup_empty in Hr.
  - intros h ver b _ Hb. change ((∅ : gmap bytes bytes) !! histKey h ver = Some b) in Hb. by rewrite lookup_empty in Hb.
Qed.

(** The other tables and the flags do not matter. *)
Lemma Sane_frame st st' m saved : smt_nodes st' = smt_nodes st -> smt_leaves st' = smt_leaves st ->
  smt_meta st' = smt_meta st -> smt_root st' = smt_root st ->
  (forall k b, smt_nodes_hist st' !! k = Some b -> smt_nodes_hist st !! k = Some b) ->
  Sane st m saved -> Sane st' m saved.
Proof.
  intros En El Em Er Eh [[Hk Hr Hs] Hi Sk Sr Si Sro Hro Hh]. split; try assumption.
  - split; [done|by rewrite Er|]. by eapply ostored_frame; [exact En|exact El|].
  - by eapply ostored_frame; [exact En|exact El|].
  - by rewrite Em.
  - by rewrite Em.
  - eauto.
Qed.

Lemma ostored_grows st st' o : grows I st st' -> oinputs o ⊆ I -> ostored st o -> ostored st' o.
Proof. intros G Hi. destruct o as [t|]; [|done]. cbn. apply stored_grows with I; try assumption. by eapply nodeInputs_of. Qed.

(** One walk. *)
Lemma walk_sane u v ver st m saved : Sane st m saved -> wf_hash (upd_key u) ->
  (upd_is_delete u = false -> v = upd_value u) -> smtInputs (applied m u) ⊆ I ->
  exists st', walkFromRoot (upd_key u) v (upd_is_delete u) ver st = (Ok (), st') /\ Sane st' (applied m u) saved.
Proof.
  intros [HR Hi Sk Sr Si Sro Hro Hh] Hk Hv Hi'.
  destruct (walkFromRoot_grows Hwf I (upd_key u) v (upd_is_delete u) ver st m (applied m u)) as (st1 & E & G & HR');
    try assumption.
  { unfold applied. destruct (upd_is_delete u); [done|]. by rewrite Hv. }
  eexists. split; [exact E|]. split; try assumption.
  - eapply ostored_frame; [| |by eapply ostored_grows]; done.
  - cbn. by rewrite (grows_meta _ _ _ G).
  - cbn. by rewrite (grows_meta _ _ _ G).
  - intros h ver' b Hw Hb. destruct (grows_hist _ _ _ G h ver' b Hw Hb) as [?|?]; [by eapply Hh|done].
Qed.

Lemma applyAll_sane us ver : forall st m saved, Sane st m saved -> Forall (fun u => wf_hash (upd_key u)) us ->
  runInputs m us ⊆ I ->
  exists st', applyAll us ver st = (Ok (), st') /\ Sane st' (content m us) saved.
Proof.
  induction us as [|u us IH]; intros st m saved HS Hk Hi; [by exists st|].
  apply Forall_cons in Hk as [Hu Hk]. cbn [runInputs] in Hi.
  pose proof (smtInputs_runInputs (applied m u) us) as Ha.
  destruct (walk_sane u (if upd_is_delete u then [] else upd_value u) ver st m saved HS Hu) as (st1 & E & HS1);
    [by intros ->|set_solver|].
  destruct (IH st1 (applied m u) saved HS1 Hk) as (st' & E' & HS'); [set_solver|]. exists st'. split; [|done].
  cbn [applyAll]. by rewrite (bind_ok _ _ _ _ _ E).
Qed.

(** [height] always returns, on any tables: its loop checks the depth. *)
Lemma heightLoop_ends nodes fuel : forall h d n, (d < fuel)%nat -> is_Some (heightLoop fuel h d n nodes).
Proof.
  induction fuel as [|fuel IH]; intros h d n Hf; [lia|]. cbn [heightLoop].
  destruct (h =? _); [done|]. destruct (nodes !! h) as [b|]; [|done]. destruct (hasTag _ b); [done|].
  destruct (parseBranch b) as [br|]; [|done]. destruct (Nat.ltb_spec d (prefix_len br + 1)); [done|].
  destruct (KEY_BITS <? S n)%nat; [done|]. apply IH. lia.
Qed.

Lemma height_returns st : exists h st', height st = (Ok h, st') /\
  smt_nodes st' = smt_nodes st /\ smt_leaves st' = smt_leaves st /\ smt_meta st' = smt_meta st /\
  smt_root st' = smt_root st /\ smt_nodes_hist st' = smt_nodes_hist st.
Proof.
  unfold height. rewrite bind_gets. unfold id. destruct (negb (smt_height_dirty st)); [by eexists _, _|]. cbv zeta.
  destruct (smt_root st =? defaultHash KEY_BITS); [by eexists _, _|].
  destruct (heightLoop_ends (smt_nodes st) walkFuel (smt_root st) KEY_BITS 0) as [h ->]; [unfold walkFuel; lia|].
  by eexists _, _.
Qed.

Lemma pruneOneTable_sub keepFrom index hist k b :
  snd (pruneOneTable keepFrom index hist) !! k = Some b -> hist !! k = Some b.
Proof.
  unfold pruneOneTable. generalize (prunable keepFrom (merge_sort bytes_le (map fst (map_to_list index)))).
  intros l. revert index hist. induction l as [|x l IH]; intros index hist; [done|]. cbn [foldl].
  intros Hb%IH. by apply lookup_delete_Some in Hb as [_ Hb].
Qed.

Lemma save_sane ver st m saved : Sane st m saved ->
  exists st', save ver st = (Ok (), st') /\ Sane st' m m.
Proof.
  intros [[Hk Hr Hs] Hi Sk Sr Si Sro Hro Hh]. eexists. split; [reflexivity|].
  set (b := be_split 32 (smt_root st)).
  assert (Eb : storedRoot (Some b) = Some (smtRoot m)).
  { unfold storedRoot, b. rewrite length_be_split, Hr, be_combine_hash by (by apply smtRoot_wf). done. }
  assert (Em : forall key, storedRoot (<[rootKey ver := b]> (<["smt_root"%string := b]> (smt_meta st)) !! key) =
    if decide (key = rootKey ver \/ key = "smt_root"%string) then Some (smtRoot m) else storedRoot (smt_meta st !! key)).
  { intros key. destruct (decide (rootKey ver = key)) as [<-|H1].
    - rewrite lookup_insert_eq, decide_True by (by left). done.
    - rewrite lookup_insert_ne by done. destruct (decide ("smt_root"%string = key)) as [<-|H2].
      + rewrite lookup_insert_eq, decide_True by (by right). done.
      + rewrite lookup_insert_ne, decide_False by naive_solver. done. }
  split; try assumption.
  - split; [done|done|]. by eapply ostored_frame; [| |exact Hs].
  - by eapply ostored_frame; [| |exact Hs].
  - transitivity (default (defaultHash KEY_BITS)
      (storedRoot (<[rootKey ver := b]> (<["smt_root"%string := b]> (smt_meta st)) !! "smt_root"%string))); [reflexivity|].
    rewrite Em, decide_True by (by right). reflexivity.
  - intros key r Hkey. assert (Hkey' := eq_trans (eq_sym (Em key)) Hkey). destruct (decide _); [|by eapply Hro].
    injection Hkey' as <-. by exists m.
Qed.

Lemma load_sane st m saved : Sane st m saved -> exists st', load st = (Ok (), st') /\ Sane st' saved saved.
Proof.
  intros [[Hk Hr Hs] Hi Sk Sr Si Sro Hro Hh]. eexists. split; [reflexivity|]. split; try assumption.
  - split; [done|done|]. by eapply ostored_frame; [| |exact Sr].
  - by eapply ostored_frame; [| |exact Sr].
Qed.

(** Every operation returns and keeps the invariant. *)
Lemma doOp_sane o st ms : Sane st (fst ms) (snd ms) -> opKeys o -> runInputs (fst ms) (opUpdates o) ⊆ I ->
  exists st', doOp o st = (Ok (), st') /\ Sane st' (fst (opContent ms o)) (snd (opContent ms o)).
Proof.
  destruct ms as [m saved]. cbn [fst snd]. intros HS Hk Hi. destruct o as [u ver|us ver|ver| |keepFrom|]; cbn [doOp opContent fst snd].
  - destruct (walk_sane u (if upd_is_delete u then [] else upd_value u) ver st m saved HS) as (st1 & E & HS1).
    + by apply Forall_cons in Hk as [Hk _].
    + by intros ->.
    + cbn in Hi. pose proof (smtInputs_runInputs (applied m u) []). cbn in *. set_solver.
    + exists (st1 <| smt_height_dirty := true |>). split; [|by apply (Sane_frame st1)].
      assert (Ec : call u ver st = (walkFromRoot (upd_key u) (if upd_is_delete u then [] else upd_value u)
        (upd_is_delete u) ver;; markDirty;; gets smt_root) st) by (unfold call; by destruct (upd_is_delete u)).
      unfold mbind at 1, Exec_bind. rewrite Ec, (bind_ok _ _ _ _ _ E). reflexivity.
  - destruct (applyAll_sane (opUpdates (OpBatch us ver)) ver st m saved HS Hk Hi) as (st1 & E & HS1).
    exists (st1 <| smt_height_dirty := true |>). split; [|by apply (Sane_frame st1)].
    unfold mbind at 1, Exec_bind. unfold applyBatch. cbv zeta. cbn [opUpdates] in E. rewrite (bind_ok _ _ _ _ _ E). reflexivity.
  - by eapply save_sane.
  - by eapply load_sane.
  - eexists. split; [reflexivity|]. apply (Sane_frame st); [..|exact HS];
      try (cbn; do 2 destruct (pruneOneTable _ _ _); done).
    intros k b Hb. apply (pruneOneTable_sub keepFrom (smt_nodes_by_ver st)). revert Hb. cbn.
    destruct (pruneOneTable keepFrom (smt_nodes_by_ver st) _). by destruct (pruneOneTable _ _ _).
  - destruct (height_returns st) as (h & st' & E & En & El & Em & Er & Eh). exists st'.
    split; [unfold mbind, Exec_bind; by rewrite E|]. apply (Sane_frame st); [done..| |exact HS]. intros k b. by rewrite Eh.
Qed.

Lemma runInputs_first m us : smtInputs m ⊆ runInputs m us.
Proof. apply smtInputs_runInputs. Qed.

Lemma doOps_sane os : forall st ms, Sane st (fst ms) (snd ms) -> Forall opKeys os -> opInputs ms os ⊆ I ->
  exists st', doOps os st = (Ok (), st') /\
    Sane st' (fst (foldl opContent ms os)) (snd (foldl opContent ms os)).
Proof.
  induction os as [|o os IH]; intros st ms HS Hk Hi; [by exists st|]. apply Forall_cons in Hk as [Ho Hk].
  cbn [opInputs] in Hi. destruct (doOp_sane o st ms HS Ho) as (st1 & E & HS1); [set_solver|].
  destruct (IH st1 (opContent ms o) HS1 Hk) as (st' & E' & HS'); [set_solver|].
  exists st'. split; [|done]. cbn [doOps]. by rewrite (bind_ok _ _ _ _ _ E).
Qed.

(** A historical row under a tree's hash is that tree's row, so a historical
    walk stays inside the tree, whichever rows are missing. *)
Lemma getAtVersionRecursive_returns k ver st t :
  (forall h b, wf_hash h -> smt_nodes_hist st !! histKey h ver = Some b ->
     exists x, x ∈ I /\ h = blake2b x /\ b = rowOf x) ->
  forall path fuel, twf path t -> tinputs (length path) t ⊆ I -> (KEY_BITS - length path < fuel)%nat ->
  exists v, getAtVersionRecursive fuel (thash t) k (KEY_BITS - length path) ver st = (Ok v, st).
Proof.
  intros Hh. induction t as [k' v'|p l IHl r IHr]; intros path [|fuel] Hw Hin Hf; [lia| |lia|];
    cbn [getAtVersionRecursive]; (destruct (_ =? _); [by eexists|]);
    unfold getNodeAtVersion; rewrite bind_gets; cbv beta;
    (destruct (smt_nodes_hist st !! histKey (thash _) ver) as [row|] eqn:Erow; [|by eexists]);
    apply Hh in Erow as (x & Hx & Ex & ->); try (by apply thash_wf); rewrite thash_top in Ex;
    (apply Hcf in Ex; [|by apply (nodeInputs_of I _ _ Hin), topInput_in|done]); subst x.
  - destruct Hw as [Hk' _]. destruct (node_leaf Hwf k' v' Hk') as [-> ->]. destruct (_ =? k); by eexists.
  - pose proof (twf_branch_short _ _ _ _ Hw) as Hlen. destruct (node_branch Hwf p l r ltac:(lia)) as (-> & _ & ->).
    cbn [prefix_len prefix_bits SparseMerkleTree.left SparseMerkleTree.right].
    rewrite start_pos by lia. rewrite sharesPrefix_ok by lia. rewrite bind_access.
    destruct (bool_decide _); cbn [negb]; [|by eexists].
    rewrite bitAt_turn, bind_access by lia. destruct (tinputs_branch I _ _ _ _ Hin) as [Il Ir]. destruct Hw as [Hl Hr].
    destruct (turn (length path + length p) k).
    + rewrite (child_depth path p true). apply IHr; [done|by rewrite child_pos|rewrite child_pos; lia].
    + rewrite (child_depth path p false). apply IHl; [done|by rewrite child_pos|rewrite child_pos; lia].
Qed.

Lemma getAtVersion_returns k ver st m saved : Sane st m saved -> exists v, getAtVersion k ver st = (Ok v, st).
Proof.
  intros HS. unfold getAtVersion, rootAtVersion. rewrite bind_gets.
  destruct (storedRoot (smt_meta st !! rootKey ver)) as [r|] eqn:Er; [|by eexists]. rewrite bind_gets.
  destruct (r =? smt_root st).
  - eexists. apply (get_represents Hwf _ m); [apply HS|]. eapply collisionFreeOn_sub; [apply HS|exact Hcf].
  - apply (sane_roots _ _ _ HS) in Er as (m' & Hk & Hi & ->). destruct (treeOf_spec m' Hk) as [Ho _].
    unfold smtRoot, smtInputs in *. destruct (treeOf m') as [t|]; cbn [ohash oinputs owf] in *.
    + pose proof (getAtVersionRecursive_returns k ver st t (fun h b => sane_hist _ _ _ HS h ver b) [] walkFuel Ho Hi) as R.
      cbn [length] in R. rewrite Nat.sub_0_r in R. apply R. unfold walkFuel. lia.
    + unfold walkFuel. cbn [getAtVersionRecursive]. rewrite N.eqb_refl. by eexists.
Qed.
End lives.

(** C36: every walk returns.  Whatever operations a tree goes through from its
    creation on (updates, removals, batches, saves, loads, prunings, heights, at
    any versions), every one of them returns, and so does every read of the tree
    they leave, of its content, which is what a map under the same operations
    holds, and of any version of its history, pruned or not: no walk runs out of
    its 257 steps, and none reads a bit outside a key, a prefix or a hash buffer,
    though the code checks none of these indexes.  The operations must not find a
    collision of the hash among the strings they hash.  [height], which does
    check its depth, returns on any tables whatever. *)
Theorem walks_terminate `{Crypto} `{StdSort} (os : list op) :
  (forall b, wf_hash (blake2b b)) -> Forall opKeys os -> collisionFreeOn (opInputs (∅, ∅) os) ->
  exists st, doOps os init = (Ok (), st) /\
    (forall key, get key st = (Ok (fst (foldl opContent (∅, ∅) os) !! key), st)) /\
    (forall key version, exists v, getAtVersion key version st = (Ok v, st)) /\
    (forall any, exists h st', height any = (Ok h, st')).
Proof.
  intros Hwf Hk Hcf. assert (Hi : smtInputs ∅ ⊆ opInputs (∅, ∅) os).
  { destruct os as [|o os]; cbn [opInputs fst]; [done|]. pose proof (runInputs_first ∅ (opUpdates o)). set_solver. }
  destruct (doOps_sane Hwf _ Hcf os init (∅, ∅) (Sane_init _ Hi) Hk) as (st & E & HS); [done|].
  exists st. split_and!; [done| | |].
  - intros key. apply (get_represents Hwf); [apply HS|]. eapply collisionFreeOn_sub; [apply HS|exact Hcf].
  - intros key version. by eapply getAtVersion_returns.
  - intros any. destruct (height_returns any) as (h & st' & Eh & _). by exists h, st'.
Qed.

(** Two versions saved, the first pruned, a third under way. *)
Definition sampleLife : list op :=
  [OpCall (puts keyA [1]) 1; OpSave 1; OpBatch [puts keyB [2; 2]; puts keyC [3]; puts keyB [4]] 2; OpSave 2;
   OpPrune 2; OpCall (dels keyA) 3; OpHeight; OpLoad; OpCall (puts keyA [5]) 4].

Lemma walks_terminate_witness :
  exists st, @doOps spread merge_StdSort sampleLife (@init spread) = (Ok (), st) /\
    @get spread keyA st = (Ok (Some [5]), st) /\ exists v, @getAtVersion spread keyB 2 st = (Ok v, st).
Proof.
  destruct (@walks_terminate spread merge_StdSort sampleLife spread_wf) as (st & E & G & V & _).
  - repeat constructor.
  - apply distinctDigests_ok. vm_compute. reflexivity.
  - exists st. split; [exact E|]. split; [exact (G keyA)|exact (V keyB 2)].
Defined.

(** On tables no operation leaves the walk does run off the key: a row whose
    children are the row itself turns on bits 0, 1, ... 255 and then on a bit
    past the end. *)
Example self_reference_crashes :
  let row := 5 in
  let st := mkSmt {[row := branchBytes 0 [] row row]} ∅ ∅ ∅ ∅ ∅ ∅ row 0 true in
  fst (@get spread keyA st) = Crash.
Proof. vm_compute. reflexivity. Qed.
