(* ===== verification/SmtProofTheorems.v ===== *)
(** * Soundness and completeness of tree proofs

    The path of a proof is read top-down here: [pathHash] is the hash the
    verifier rebuilds, from the terminal upwards.  If it is the hash of a tree,
    the path is the tree's own path for the key, down to the subtree at which the
    proof ends. *)

From S2P Require Import Prelude Types Wire Rotation Block Smt SmtTree SmtRefinement SmtTheorems SmtProof.
Import SparseMerkleTree.

Opaque KEY_BITS.

Abbreviation plen := ProofSibling.prefix_len.
Abbreviation pbits := ProofSibling.prefix_bits.

Section paths.
Context `{Crypto} (k : Hash).

(** The siblings spell the key's bits from a position on. *)
Fixpoint pathOk (s : nat) (sibs : list ProofSibling.t) : Prop :=
  match sibs with
  | [] => True
  | x :: sibs =>
    (s + plen x < KEY_BITS)%nat /\ sharesPrefix k s (plen x) (pbits x) = Some true /\ pathOk (s + (plen x + 1)) sibs
  end.

Definition pathInput (s : nat) (x : ProofSibling.t) (below : Hash) : bytes :=
  if turn (s + plen x) k then branchInput (plen x) (pbits x) (ProofSibling.hash x) below
  else branchInput (plen x) (pbits x) below (ProofSibling.hash x).

Fixpoint pathHash (s : nat) (sibs : list ProofSibling.t) (terminal : Hash) : Hash :=
  match sibs with
  | [] => terminal
  | x :: sibs => blake2b (pathInput s x (pathHash (s + (plen x + 1)) sibs terminal))
  end.

Fixpoint pathInputs (s : nat) (sibs : list ProofSibling.t) (terminal : Hash) : list bytes :=
  match sibs with
  | [] => []
  | x :: sibs =>
    let s' := (s + (plen x + 1))%nat in
    pathInput s x (pathHash s' sibs terminal) :: pathInputs s' sibs terminal
  end.

(** Bits consumed by a path. *)
Definition consumed (sibs : list ProofSibling.t) : nat := sum_list_with (fun x => plen x + 1)%nat sibs.
#[local] Arguments consumed : simpl never.

Lemma consumed_nil : consumed [] = 0%nat.
Proof. done. Qed.
Lemma consumed_cons x sibs : consumed (x :: sibs) = (plen x + 1 + consumed sibs)%nat.
Proof. done. Qed.

Lemma pathOk_consumed sibs : forall s, pathOk s sibs -> (s <= KEY_BITS)%nat -> (s + consumed sibs <= KEY_BITS)%nat.
Proof.
  induction sibs as [|x sibs IH]; intros s; [rewrite consumed_nil; lia|]. intros (Hx & _ & Hr) Hs. apply IH in Hr; [|lia].
  rewrite consumed_cons. lia.
Qed.

Lemma length_consumed (sibs : list ProofSibling.t) : (length sibs <= consumed sibs)%nat.
Proof. induction sibs as [|x sibs IH]; [done|]. rewrite consumed_cons. cbn [length]. lia. Qed.

Lemma startBit_ok sibs : forall s, pathOk s sibs -> SmtProof.startBit s sibs = Some (s + consumed sibs)%nat.
Proof.
  induction sibs as [|x sibs IH]; intros s; cbn [SmtProof.startBit pathOk]; [by rewrite consumed_nil, Nat.add_0_r|]. intros (Hx & _ & Hr). cbv zeta.
  destruct (Nat.ltb_spec KEY_BITS (s + (plen x + 1))); [lia|]. rewrite IH, consumed_cons by done. f_equal. lia.
Qed.

Lemma terminalDepth_ok sibs : forall s, pathOk s sibs ->
  SmtProof.terminalDepth (KEY_BITS - s) sibs = (KEY_BITS - (s + consumed sibs))%nat.
Proof.
  induction sibs as [|x sibs IH]; intros s; cbn [SmtProof.terminalDepth pathOk]; [by rewrite consumed_nil, Nat.add_0_r|]. intros (Hx & _ & Hr). cbv zeta.
  destruct (Nat.ltb_spec (KEY_BITS - s) (plen x + 1)); [lia|].
  replace (KEY_BITS - s - (plen x + 1))%nat with (KEY_BITS - (s + (plen x + 1)))%nat by lia.
  rewrite IH, consumed_cons by done. lia.
Qed.

Lemma siblingDepths_ok sibs : forall s, pathOk s sibs -> is_Some (SmtProof.siblingDepths (KEY_BITS - s) sibs).
Proof.
  induction sibs as [|x sibs IH]; intros s; cbn [SmtProof.siblingDepths pathOk]; [done|]. intros (Hx & _ & Hr). cbv zeta.
  destruct (Nat.ltb_spec (KEY_BITS - s) (plen x + 1)); [lia|].
  replace (KEY_BITS - s - (plen x + 1))%nat with (KEY_BITS - (s + (plen x + 1)))%nat by lia.
  destruct (IH _ Hr) as [rest ->]. by eexists.
Qed.

Lemma reconstruct_app a : forall b cur,
  SmtProof.reconstruct k (a ++ b) cur =
  match SmtProof.reconstruct k a cur with
  | Some (Some h) => SmtProof.reconstruct k b h
  | o => o
  end.
Proof.
  induction a as [|[x rd] a IH]; intros b cur; cbn [app SmtProof.reconstruct]; [done|]. cbv zeta.
  destruct (SmtProof.sharesPrefixAt _ _ _ _) as [[|]|]; cbn [mbind option_bind negb]; try done.
  destruct (KEY_BITS <=? _)%nat; [done|]. destruct (bitAt k _); cbn [mbind option_bind]; [apply IH|done].
Qed.

(** The backward pass computes the top-down hash, on the paths it accepts. *)
Lemma reconstruct_ok sibs : forall s steps terminal h, (s <= KEY_BITS)%nat ->
  SmtProof.siblingDepths (KEY_BITS - s) sibs = Some steps ->
  SmtProof.reconstruct k (reverse steps) terminal = Some (Some h) <->
  pathOk s sibs /\ h = pathHash s sibs terminal.
Proof.
  induction sibs as [|x sibs IH]; intros s steps terminal h Hs; cbn [SmtProof.siblingDepths].
  { intros [= <-]. cbn. naive_solver. }
  destruct (Nat.ltb_spec (KEY_BITS - s) (plen x + 1)) as [|Hc]; [done|].
  replace (KEY_BITS - s - (plen x + 1))%nat with (KEY_BITS - (s + (plen x + 1)))%nat by lia.
  destruct (SmtProof.siblingDepths (KEY_BITS - (s + (plen x + 1))) sibs) as [rest|] eqn:Er; [|done].
  cbn [mbind option_bind]. intros [= <-]. rewrite reverse_cons, reconstruct_app.
  specialize (IH (s + (plen x + 1))%nat rest terminal). cbn [pathOk pathHash].
  assert (Hstep : forall c, SmtProof.reconstruct k [(x, (KEY_BITS - s)%nat)] c = Some (Some h) <->
    sharesPrefix k s (plen x) (pbits x) = Some true /\ h = blake2b (pathInput s x c)).
  { intros c. cbn [SmtProof.reconstruct]. unfold SmtProof.sharesPrefixAt.
    replace (KEY_BITS - (KEY_BITS - s))%nat with s by lia.
    destruct (sharesPrefix k s (plen x) (pbits x)) as [[|]|]; cbn [mbind option_bind negb]; [|naive_solver|naive_solver].
    destruct (Nat.leb_spec KEY_BITS (s + plen x)); [lia|]. rewrite bitAt_turn by lia. cbn [mbind option_bind].
    unfold pathInput. destruct (turn (s + plen x) k); cbn; naive_solver. }
  destruct (SmtProof.reconstruct k (reverse rest) terminal) as [[c|]|] eqn:Ec.
  - rewrite Hstep. destruct (IH c) as [IH1 _]; [lia|done|]. destruct (IH1 eq_refl) as [Hp ->].
    split; [intros [H1 ->]; split_and!; [lia|done|done|done]|]. intros [(_ & H1 & _) ->]. done.
  - split; [done|]. intros [(_ & _ & Hp) _]. exfalso.
    destruct (IH (pathHash (s + (plen x + 1)) sibs terminal)) as [_ IH2]; [lia|done|]. by discriminate IH2.
  - split; [done|]. intros [(_ & _ & Hp) _]. exfalso.
    destruct (IH (pathHash (s + (plen x + 1)) sibs terminal)) as [_ IH2]; [lia|done|]. by discriminate IH2.
Qed.
End paths.

(** ** Soundness *)

(** What the types of the code say of a proof: its hashes are 32 bytes. *)
Record wf_proof (p : SmtProof.t) : Prop := {
  wp_key : wf_hash (SmtProof.key p);
  wp_leaf_key : wf_hash (SmtProof.divergent_leaf_key p);
  wp_leaf_value : wf_hash (SmtProof.divergent_leaf_value_hash p);
  wp_left : wf_hash (SmtProof.divergent_branch_left p);
  wp_right : wf_hash (SmtProof.divergent_branch_right p);
  wp_siblings : Forall (fun s => wf_hash (ProofSibling.hash s)) (SmtProof.siblings p);
}.

Section soundness.
Context `{Crypto} (Hwf : forall b, wf_hash (blake2b b)).

(** The string whose hash ends the path, and everything the verifier hashes. *)
Definition terminalInput (p : SmtProof.t) : bytes :=
  match SmtProof.terminal_kind p with
  | ProofTerminalKind.Inclusion => leafInput (SmtProof.key p) (blake2b (default [] (SmtProof.value p)))
  | ProofTerminalKind.Default => dinput (SmtProof.terminalDepth KEY_BITS (SmtProof.siblings p))
  | ProofTerminalKind.DifferentLeaf =>
    leafInput (SmtProof.divergent_leaf_key p) (SmtProof.divergent_leaf_value_hash p)
  | ProofTerminalKind.DivergentBranch =>
    branchInput (SmtProof.divergent_branch_prefix_len p) (SmtProof.divergent_branch_prefix_bits p)
      (SmtProof.divergent_branch_left p) (SmtProof.divergent_branch_right p)
  end.

Definition proofInputs (p : SmtProof.t) : list bytes :=
  [default [] (SmtProof.value p); terminalInput p] ++
  pathInputs (SmtProof.key p) 0 (SmtProof.siblings p) (blake2b (terminalInput p)).

Lemma terminalDepth_le sibs : forall d, (SmtProof.terminalDepth d sibs <= d)%nat.
Proof.
  induction sibs as [|x sibs IH]; intros d; cbn [SmtProof.terminalDepth]; [done|]. cbv zeta.
  destruct (d <? plen x + 1)%nat; [lia|]. etrans; [apply IH|lia].
Qed.

Lemma terminalHash_input p h : SmtProof.terminalHash p = Some h -> h = blake2b (terminalInput p).
Proof.
  unfold SmtProof.terminalHash, terminalInput. destruct (SmtProof.terminal_kind p).
  - destruct (SmtProof.value p); cbn; [|done]. by intros [= <-].
  - intros [= <-]. apply defaultHash_input, terminalDepth_le.
  - by intros [= <-].
  - by intros [= <-].
Qed.

(** A rebuilt hash that is a tree's comes from the tree's own path: it ends at a
    subtree that holds whatever the tree holds for the key. *)
Lemma path_sound I (Hcf : collisionFreeOn I) k terminal sibs : forall path t,
  twf path t -> path `prefix_of` keyBits k -> nodeInputs t ⊆ I -> pathInputs k (length path) sibs terminal ⊆ I ->
  pathOk k (length path) sibs -> Forall (fun x => ProofSibling.isValid x = true) sibs ->
  Forall (fun s => wf_hash (ProofSibling.hash s)) sibs -> wf_hash terminal ->
  thash t = pathHash k (length path) sibs terminal ->
  exists path' t', twf path' t' /\ path' `prefix_of` keyBits k /\ length path' = (length path + consumed sibs)%nat /\
    nodeInputs t' ⊆ I /\ thash t' = terminal /\ tmap t !! k = tmap t' !! k.
Proof.
  induction sibs as [|x sibs IH]; intros path t Hw Hp Hin Hpi Hok Hv Hh Hterm E.
  { exists path, t. by split_and!. }
  cbn [pathOk pathHash pathInputs] in *. cbv zeta in *. destruct Hok as (Hlt & Hsh & Hok).
  set (c := pathHash k (length path + (plen x + 1)) sibs terminal) in *.
  apply Forall_cons in Hv as [Hvx Hv]. apply Forall_cons in Hh as [Hhx Hh].
  apply andb_true_iff in Hvx as [_ Hvx]. apply Nat.eqb_eq in Hvx.
  assert (Hc : wf_hash c) by (unfold c; destruct sibs; [done|apply Hwf]).
  assert (Hpx : pathInput k (length path) x c ∈ I /\ pathInputs k (length path + (plen x + 1)) sibs terminal ⊆ I).
  { revert Hpi. generalize (pathInput k (length path) x c) (pathInputs k (length path + (plen x + 1)) sibs terminal).
    clear. set_solver. }
  destruct Hpx as [Hpx Hpr]. rewrite thash_top in E. apply Hcf in E; [|apply Hin, topInput_in|done].
  destruct t as [k' v'|p l r]; [unfold pathInput in E; by destruct (turn _ _)|].
  apply nodeInputs_branch in Hin as (_ & Il & Ir). pose proof (twf_branch_short _ _ _ _ Hw) as Hlen.
  assert (Ep : length p = plen x /\ packBits p = pbits x /\
    thash (if turn (length path + plen x) k then r else l) = c).
  { unfold pathInput in E. cbn [topInput] in E.
    destruct (turn (length path + plen x) k); apply branchInput_parts in E as (? & ? & ? & ?); try done; try lia;
      try apply length_packBits; apply thash_wf, Hwf. }
  destruct Ep as (El & Eb & Ec). rewrite <- El, <- Eb, sharesPrefix_ok in Hsh by lia. injection Hsh as Hsh.
  apply bool_decide_eq_true_1 in Hsh. fold (below (length path) k) in Hsh.
  pose proof (path_turn _ _ _ Hp Hsh Hlen) as Ht. rewrite <- El in *.
  set (b := turn (length path + length p) k) in *.
  destruct (IH (path ++ p ++ [b]) (if b then r else l)) as (path' & t' & Hw' & Hp' & Hl' & Hi' & Et & Em); try done.
  - destruct Hw. by destruct b.
  - by destruct b.
  - rewrite child_pos. by rewrite <- Nat.add_assoc.
  - rewrite child_pos. by rewrite <- Nat.add_assoc.
  - rewrite child_pos, <- Nat.add_assoc, Ec. unfold c. by rewrite El.
  - exists path', t'. split_and!; try done.
    + rewrite Hl', child_pos, consumed_cons. lia.
    + by rewrite <- Em, <- (union_child _ _ _ _ _ _ Hw Ht).
Qed.

Lemma verifyProof_inv root p : SmtProof.verifyProof root p = Some true ->
  SmtProof.terminalValid p = Some true /\ Forall (fun x => ProofSibling.isValid x = true) (SmtProof.siblings p) /\
  (SmtProof.terminal_kind p = ProofTerminalKind.Inclusion -> is_Some (SmtProof.value p)) /\
  pathOk (SmtProof.key p) 0 (SmtProof.siblings p) /\
  root = pathHash (SmtProof.key p) 0 (SmtProof.siblings p) (blake2b (terminalInput p)).
Proof.
  unfold SmtProof.verifyProof, SmtProof.isValid.
  destruct (SmtProof.MAX_SIBLINGS <? _)%nat; [done|].
  destruct (SmtProof.terminalValid p) as [[|]|]; cbn [mbind option_bind andb negb]; [|done|done].
  destruct (forallb _ _) eqn:Ev; cbn [negb]; [|done].
  destruct (SmtProof.terminalHash p) as [th|] eqn:Eh; [|done].
  destruct (SmtProof.siblingDepths _ _) as [steps|] eqn:Es; [|done].
  destruct (SmtProof.reconstruct _ _ _) as [[h|]|] eqn:Er; cbn [mbind option_bind]; [|done|done].
  intros [= Eq%N.eqb_eq]. subst h. rewrite <- (Nat.sub_0_r KEY_BITS) in Es.
  apply (reconstruct_ok _ (SmtProof.siblings p) 0) in Er as [Hok ->]; [|lia|done]. apply terminalHash_input in Eh as E2. subst th.
  split_and!; try done.
  - apply Forall_forall. intros x Hx. rewrite forallb_forall in Ev. by apply Ev, list_elem_of_In.
  - intros Hk. unfold SmtProof.terminalHash in Eh. rewrite Hk in Eh. by destruct (SmtProof.value p).
Qed.

(** The end of an accepted path. *)
Lemma terminal_sound I (Hcf : collisionFreeOn I) p path t : wf_proof p -> twf path t ->
  SmtProof.terminalValid p = Some true ->
  (SmtProof.terminal_kind p = ProofTerminalKind.Inclusion -> is_Some (SmtProof.value p)) ->
  pathOk (SmtProof.key p) 0 (SmtProof.siblings p) -> length path = consumed (SmtProof.siblings p) ->
  nodeInputs t ⊆ I -> terminalInput p ∈ I -> default [] (SmtProof.value p) ∈ I ->
  thash t = blake2b (terminalInput p) ->
  tmap t !! SmtProof.key p =
    if SmtProof.isInclusion p then SmtProof.value p else None.
Proof.
  intros Hp Hw Hval Hsome Hok Hlen Hin Hti Hvi E. rewrite thash_top in E. apply Hcf in E; [|apply Hin, topInput_in|done].
  unfold terminalInput, SmtProof.terminalValid, SmtProof.isInclusion in *. destruct (SmtProof.terminal_kind p) eqn:Ek.
  - destruct (Hsome eq_refl) as [v Ev]. rewrite Ev in *. cbn [default] in *. destruct t as [k' v'|]; [|done].
    apply nodeInputs_leaf in Hin as [Hv' _].
    apply leafInput_both in E as [-> E]; [|apply Hw|apply Hp|apply Hwf|apply Hwf]. apply Hcf in E as ->; [|done|done].
    cbn. by rewrite lookup_singleton_eq.
  - by apply top_not_default in E.
  - injection Hval as Hval%negb_true_iff%N.eqb_neq. destruct t as [k' v'|]; [|done].
    apply leafInput_both in E as [-> _]; [|apply Hw|apply Hp|apply Hwf|apply Hp].
    cbn. by rewrite lookup_singleton_ne.
  - destruct (Nat.ltb_spec KEY_BITS (SmtProof.divergent_branch_prefix_len p)) as [|Hl]; [done|].
    destruct (Nat.eqb_spec (length (SmtProof.divergent_branch_prefix_bits p))
      (prefixBytes (SmtProof.divergent_branch_prefix_len p))) as [Hb|]; [|done]. cbn [negb] in Hval.
    rewrite (startBit_ok _ _ _ Hok), Nat.add_0_l, <- Hlen in Hval.
    destruct t as [|q l r]; [done|]. pose proof (twf_branch_short _ _ _ _ Hw) as Hs.
    apply branchInput_parts in E as (En & Eb & _); try done; try apply Hp; try apply length_packBits; try apply thash_wf, Hwf; [|lia].
    unfold SmtProof.sharesPrefixAt in Hval. rewrite <- En, <- Eb, sharesPrefix_ok in Hval by lia. cbn [mbind option_bind] in Hval.
    injection Hval as Hval%negb_true_iff%bool_decide_eq_false_1. fold (below (length path) (SmtProof.key p)) in Hval.
    destruct (tmap (Branch q l r) !! SmtProof.key p) eqn:El; [|done]. exfalso. apply Hval.
    apply (branch_path _ _ _ _ _ _ Hw) in El. rewrite <- (app_nil_r q) in El. by apply path_above in El.
Qed.
End soundness.

(** C30: a proof that verifies against the root of a tree tells the truth about
    it: an inclusion proof carries the value stored under its key, and each of
    the three kinds of exclusion proof is only accepted for an absent key, unless
    the strings hashed by the tree and by the verifier collide. *)
Theorem proof_sound `{Crypto} (m : gmap Hash bytes) (p : SmtProof.t) :
  (forall b, wf_hash (blake2b b)) -> wf_keys m -> wf_proof p ->
  collisionFreeOn (smtInputs m ++ proofInputs p) ->
  SmtProof.verifyProof (smtRoot m) p = Some true ->
  m !! SmtProof.key p = if SmtProof.isInclusion p then SmtProof.value p else None.
Proof.
  intros Hwf Hm Hp Hcf (Hval & Hsib & Hsome & Hok & Eroot)%verifyProof_inv.
  destruct (treeOf_spec m Hm) as [Ho Em]. unfold smtRoot, smtInputs in *.
  set (I := oinputs (treeOf m) ++ proofInputs p) in *.
  assert (Hsub : oinputs (treeOf m) ⊆ I /\ default [] (SmtProof.value p) ∈ I /\ terminalInput p ∈ I /\
    pathInputs (SmtProof.key p) 0 (SmtProof.siblings p) (blake2b (terminalInput p)) ⊆ I).
  { unfold I, proofInputs. generalize (oinputs (treeOf m)) (default [] (SmtProof.value p)) (terminalInput p)
      (pathInputs (SmtProof.key p) 0 (SmtProof.siblings p) (blake2b (terminalInput p))). clear. set_solver. }
  clearbody I. destruct Hsub as (It & Iv & Iterm & Ipath). rewrite <- Em at 1.
  destruct (treeOf m) as [t|]; cbn [ohash oinputs owf] in *; unfold omap; cbn [from_option].
  - destruct (path_sound Hwf I Hcf (SmtProof.key p) (blake2b (terminalInput p)) (SmtProof.siblings p) [] t)
      as (path' & t' & Hw' & _ & Hl' & Hi' & Et' & ->); try done; [apply prefix_nil|by eapply nodeInputs_of|apply Hp|].
    by apply (terminal_sound Hwf I Hcf p path' t').
  - rewrite lookup_empty. rewrite defaultHash_input in Eroot by lia.
    assert (Hd : SmtProof.isInclusion p = true -> False).
    { unfold SmtProof.isInclusion. destruct (SmtProof.terminal_kind p) eqn:Ek; [|done..]. intros _.
      destruct (SmtProof.siblings p) as [|x sibs] eqn:Es; cbn [pathHash pathInputs] in *.
      - apply Hcf in Eroot; [|apply It; set_solver|done]. unfold terminalInput in Eroot. rewrite Ek in Eroot.
        symmetry in Eroot. by apply (top_not_default (Leaf _ _)) in Eroot.
      - apply Hcf in Eroot; [|apply It; set_solver|apply Ipath; left].
        unfold pathInput in Eroot. symmetry in Eroot. destruct (turn _ _), KEY_BITS; discriminate Eroot. }
    destruct (SmtProof.isInclusion p); [by exfalso; apply Hd|done].
Qed.

(** The store of the sample calls, its content, and two of its proofs. *)
Definition sampleStore : Smt := snd (@calls spread sampleCalls (@init spread)).
Definition sampleContent : gmap Hash bytes := content ∅ (map fst sampleCalls).

Definition proofOf (k : Hash) : SmtProof.t :=
  match fst (@SmtProof.prove spread k sampleStore) with Ok (Some p) => p | _ => SmtProof.empty end.

(** [keyB] is stored, [keyA] was removed. *)
Definition proofB : SmtProof.t := Eval vm_compute in proofOf keyB.
Definition proofA : SmtProof.t := Eval vm_compute in proofOf keyA.

Lemma sampleContent_keys : wf_keys sampleContent.
Proof. by apply (bool_decide_eq_true_1 (map_Forall (fun k _ => k < 2 ^ 256) sampleContent)). Qed.

Lemma proof_sound_witness :
  sampleContent !! keyB = Some [2; 2] /\ sampleContent !! keyA = None.
Proof.
  split.
  - apply (@proof_sound spread sampleContent proofB); [exact spread_wf|exact sampleContent_keys| | |].
    + split; try reflexivity. repeat constructor.
    + apply distinctDigests_ok. vm_compute. reflexivity.
    + vm_compute. reflexivity.
  - apply (@proof_sound spread sampleContent proofA); [exact spread_wf|exact sampleContent_keys| | |].
    + split; try reflexivity. repeat constructor.
    + apply distinctDigests_ok. vm_compute. reflexivity.
    + vm_compute. reflexivity.
Defined.

(** ** Completeness *)

Section completeness.
Context `{Crypto} (Hwf : forall b, wf_hash (blake2b b)) (I : list bytes) (Hcf : collisionFreeOn I).

(** A proof ends at a subtree, for a key on its path. *)
Definition endsAt (p : SmtProof.t) (s : nat) (t : tree) : Prop :=
  match t with
  | Leaf k v =>
    if decide (k = SmtProof.key p) then
      SmtProof.terminal_kind p = ProofTerminalKind.Inclusion /\ SmtProof.value p = Some v
    else
      SmtProof.terminal_kind p = ProofTerminalKind.DifferentLeaf /\
      SmtProof.divergent_leaf_key p = k /\ SmtProof.divergent_leaf_value_hash p = blake2b v
  | Branch q l r =>
    ~ q `prefix_of` below s (SmtProof.key p) /\ (s + length q < KEY_BITS)%nat /\
    SmtProof.terminal_kind p = ProofTerminalKind.DivergentBranch /\
    SmtProof.divergent_branch_prefix_len p = length q /\ SmtProof.divergent_branch_prefix_bits p = packBits q /\
    SmtProof.divergent_branch_left p = thash l /\ SmtProof.divergent_branch_right p = thash r
  end.

Definition sibling (q : list bool) (b : bool) (l r : tree) : ProofSibling.t :=
  ProofSibling.mk (length q) (packBits q) (thash (if b then l else r)).

Lemma sibling_valid q b l r : (length q < KEY_BITS)%nat -> ProofSibling.isValid (sibling q b l r) = true.
Proof.
  intros Hq. apply andb_true_iff. cbn. split; [apply Nat.leb_le; lia|]. apply Nat.eqb_eq, length_packBits.
Qed.

(** The walk for a proof's key from a subtree. *)
Definition proves (fuel : nat) (st : Smt) (p : SmtProof.t) (path : list bool) (t : tree) : Prop :=
  exists sibs p' path' t', SmtProof.proveLoop fuel p (thash t) (KEY_BITS - length path) st = (Ok (Some p'), st) /\
    SmtProof.key p' = SmtProof.key p /\ SmtProof.siblings p' = SmtProof.siblings p ++ sibs /\
    pathOk (SmtProof.key p) (length path) sibs /\ Forall (fun x => ProofSibling.isValid x = true) sibs /\
    thash t = pathHash (SmtProof.key p) (length path) sibs (thash t') /\
    length path' = (length path + consumed sibs)%nat /\ twf path' t' /\
    tmap t !! SmtProof.key p = tmap t' !! SmtProof.key p /\ endsAt p' (length path') t'.

Lemma proveLoop_ok st t : forall path fuel p,
  twf path t -> path `prefix_of` keyBits (SmtProof.key p) -> stored st t -> tinputs (length path) t ⊆ I ->
  (KEY_BITS - length path < fuel)%nat -> proves fuel st p path t.
Proof.
  induction t as [k' v'|q l IHl r IHr]; intros path [|fuel] p Hw Hp Hs Hin Hf; try lia; unfold proves;
    cbn [SmtProof.proveLoop]; pose proof (thash_not_default _ _ _ Hcf Hin) as Hd; apply N.eqb_neq in Hd; rewrite Hd;
    unfold getNode; rewrite bind_gets; cbv beta; pose proof Hs as [Hrow Hsub]; unfold nodeRow in Hrow; rewrite Hrow.
  - pose proof Hw as [Hk' _]. destruct (node_leaf Hwf k' v' Hk') as [-> _].
    destruct (leaf_fields k' (blake2b v') Hk' (Hwf _)) as (El & Ek & Ev).
    rewrite leafBytes_input in El, Ek, Ev. cbn [topInput]. rewrite El, Ek, Ev. cbn [Nat.eqb negb]. cbv zeta.
    destruct (N.eqb_spec k' (SmtProof.key p)) as [->|Hne].
    + exists []. unfold getLeafData. rewrite bind_gets. cbv beta. rewrite Hsub. eexists _, path, (Leaf (SmtProof.key p) v').
      split_and!; try done; [by rewrite app_nil_r|].
      cbn. by rewrite decide_True.
    + exists []. eexists _, path, (Leaf k' v').
      split_and!; try done; [by rewrite app_nil_r|].
      cbn. by rewrite decide_False.
  - pose proof (twf_branch_short _ _ _ _ Hw) as Hlen. destruct (node_branch Hwf q l r ltac:(lia)) as (-> & _ & _).
    destruct (branch_fields q (thash l) (thash r)) as (b1 & b2 & rest & Eb & E12 & Hl & E3 & El & Er);
      [rewrite KEY_BITS_256 in Hlen; lia|apply thash_wf, Hwf|apply thash_wf, Hwf|].
    rewrite branchBytes_input in Eb, Hl, E3, El, Er. cbn [topInput]. rewrite Eb in *. rewrite Hl, E12.
    destruct (Nat.ltb_spec (67 + prefixBytes (length q)) 67); [lia|]. cbn [negb N.eqb TAG_BRANCH Pos.eqb orb]. cbv zeta.
    destruct (N.ltb_spec (N.of_nat (KEY_BITS - length path)) (N.of_nat (length q))); [lia|].
    rewrite Nat2N.id, Nat.eqb_refl, E3, El, Er. cbn [negb]. rewrite start_pos by lia.
    unfold SmtProof.sharesPrefixAt. rewrite sharesPrefix_ok by lia. rewrite bind_access.
    fold (below (length path) (SmtProof.key p)). case_bool_decide as Hpre; cbn [negb].
    + rewrite bitAt_turn, bind_access by lia. pose proof (path_turn _ _ _ Hp Hpre Hlen) as Ht.
      destruct (tinputs_branch _ _ _ _ _ Hin) as [Il Ir]. rewrite (union_child _ _ _ _ _ _ Hw Ht).
      set (b := turn (length path + length q) (SmtProof.key p)) in *.
      set (x := sibling q b l r).
      assert (Ex : ProofSibling.mk (length q) (packBits q) (if b then thash l else thash r) = x)
        by (unfold x, sibling; by destruct b). rewrite Ex.
      set (p1 := p <| SmtProof.siblings ::= fun ss => ss ++ [x] |>).
      assert (Hd1 : proves fuel st p1 (path ++ q ++ [b]) (if b then r else l)).
      { destruct Hw as [Hwl Hwr], Hsub as [Sl Sr]. destruct b; [apply IHr|apply IHl]; try done; rewrite child_pos; try done; lia. }
      destruct Hd1 as (sibs & p' & path' & t' & E & Ekey & Esib & Hok & Hval & Eh & Hlp & Hw' & Em & He).
      rewrite child_pos, <- Nat.add_assoc in *. exists (x :: sibs), p', path', t'. split_and!; try done.
      * rewrite <- E. replace (KEY_BITS - length path - (length q + 1))%nat with (KEY_BITS - (length path + (length q + 1)))%nat by lia.
        by destruct b.
      * rewrite Esib. unfold p1. cbn. by rewrite <- app_assoc.
      * cbn [pathOk]. split_and!; [done| |done].
        change (plen x) with (length q). change (pbits x) with (packBits q). rewrite sharesPrefix_ok by lia. by rewrite bool_decide_eq_true_2.
      * constructor; [|done]. apply sibling_valid. lia.
      * cbn [pathHash]. change (plen x) with (length q). change (SmtProof.key p1) with (SmtProof.key p) in Eh. rewrite <- Eh.
        unfold pathInput. change (plen x) with (length q). fold b. unfold x, sibling. by destruct b.
      * rewrite Hlp, consumed_cons. change (plen x) with (length q). lia.
    + exists []. eexists _, path, (Branch q l r).
      split_and!; try done; by rewrite app_nil_r.
Qed.

(** The verifier accepts what ends at a subtree of the path. *)
Lemma verifyProof_accepts p path t : pathOk (SmtProof.key p) 0 (SmtProof.siblings p) ->
  Forall (fun x => ProofSibling.isValid x = true) (SmtProof.siblings p) ->
  length path = consumed (SmtProof.siblings p) -> twf path t -> endsAt p (length path) t ->
  SmtProof.verifyProof (pathHash (SmtProof.key p) 0 (SmtProof.siblings p) (thash t)) p = Some true /\
  tmap t !! SmtProof.key p = (if SmtProof.isInclusion p then SmtProof.value p else None).
Proof.
  intros Hok Hval Hlen Hw He. pose proof (pathOk_consumed _ _ 0 Hok ltac:(lia)) as Hc.
  pose proof (length_consumed (SmtProof.siblings p)) as Hn.
  assert (Hmid : forall th, SmtProof.terminalValid p = Some true -> SmtProof.terminalHash p = Some th ->
    SmtProof.verifyProof (pathHash (SmtProof.key p) 0 (SmtProof.siblings p) th) p = Some true).
  { intros th Hv Hth. unfold SmtProof.verifyProof, SmtProof.isValid, SmtProof.MAX_SIBLINGS.
    destruct (Nat.ltb_spec KEY_BITS (length (SmtProof.siblings p))); [lia|]. rewrite Hv. cbn [mbind option_bind andb].
    assert (Hf : forallb ProofSibling.isValid (SmtProof.siblings p) = true).
    { apply forallb_forall. intros x Hx. rewrite Forall_forall in Hval. by apply Hval, list_elem_of_In. }
    rewrite Hf, Hth. cbn [negb]. destruct (siblingDepths_ok _ _ 0 Hok) as [steps Es]. rewrite Nat.sub_0_r in Es.
    rewrite Es. rewrite <- (Nat.sub_0_r KEY_BITS) in Es.
    destruct (reconstruct_ok (SmtProof.key p) _ 0 _ th (pathHash (SmtProof.key p) 0 (SmtProof.siblings p) th) ltac:(lia) Es)
      as [_ Hr]. rewrite Hr by done. cbn [mbind option_bind]. by rewrite N.eqb_refl. }
  unfold SmtProof.terminalValid, SmtProof.terminalHash, SmtProof.isInclusion in *.
  destruct t as [k v|q l r]; cbn [endsAt] in He.
  - destruct (decide (k = SmtProof.key p)) as [->|Hne].
    + destruct He as [Ek Ev]. rewrite Ek, Ev in *. split; [by apply Hmid|]. cbn. by rewrite lookup_singleton_eq.
    + destruct He as (Ek & <- & Evh). rewrite Ek, Evh in *. split; [|cbn; by rewrite lookup_singleton_ne].
      apply Hmid; [|done]. apply N.eqb_neq in Hne. by rewrite Hne.
  - destruct He as (Hpre & Hs & Ek & En & Eb & El & Er). rewrite Ek, En, Eb, El, Er in *. split.
    + apply Hmid; [|done]. destruct (Nat.ltb_spec KEY_BITS (length q)); [lia|].
      rewrite length_packBits, Nat.eqb_refl. cbn [negb]. rewrite (startBit_ok _ _ _ Hok), Nat.add_0_l, <- Hlen.
      unfold SmtProof.sharesPrefixAt. rewrite sharesPrefix_ok by lia. cbn [mbind option_bind].
      by rewrite bool_decide_eq_false_2.
    + destruct (tmap (Branch q l r) !! SmtProof.key p) eqn:E; [|done]. exfalso. apply Hpre.
      apply (branch_path _ _ _ _ _ _ Hw) in E. rewrite <- (app_nil_r q) in E. by apply path_above in E.
Qed.
End completeness.

(** C35: over tables that represent a map the prover returns, for every key, a
    proof of that key that verifies against the current root; it is an inclusion
    proof exactly when the key is present, and then carries its value. *)
Theorem proof_complete `{Crypto} (m : gmap Hash bytes) (st : Smt) (k : Hash) :
  (forall b, wf_hash (blake2b b)) -> Represents st m -> collisionFreeOn (smtInputs m) ->
  exists p, SmtProof.prove k st = (Ok (Some p), st) /\ SmtProof.key p = k /\
    SmtProof.verifyProof (smt_root st) p = Some true /\
    SmtProof.isInclusion p = bool_decide (is_Some (m !! k)) /\
    (if SmtProof.isInclusion p then SmtProof.value p else None) = m !! k.
Proof.
  intros Hwf [Hm Hr Hs] Hcf. destruct (treeOf_spec m Hm) as [Ho Em].
  unfold SmtProof.prove, SmtProof.proveFromRoot. rewrite bind_gets, Hr. unfold smtRoot, smtInputs in *.
  assert (Eg : m !! k = omap (treeOf m) !! k) by (by rewrite Em). rewrite Eg. clear Em Eg.
  destruct (treeOf m) as [t|]; cbn [ohash oinputs owf] in *; unfold omap; cbn [from_option].
  - set (p0 := SmtProof.empty <| SmtProof.key := k |>).
    destruct (proveLoop_ok Hwf _ Hcf st t [] walkFuel p0 Ho (prefix_nil _) Hs ltac:(done)) as
      (sibs & p' & path' & t' & E & Ekey & Esib & Hok & Hval & Eh & Hlp & Hw' & Ml & He); [unfold walkFuel; cbn; lia|].
    cbn [length] in *. rewrite Nat.sub_0_r in E. change (SmtProof.siblings p0 ++ sibs) with sibs in Esib.
    change (SmtProof.key p0) with k in *. exists p'. subst sibs. rewrite <- Ekey in *.
    destruct (verifyProof_accepts p' path' t') as [Hv Hl]; try done. rewrite Ml, Hl.
    split_and!; [exact E|done|by rewrite Eh| |done]. destruct (SmtProof.isInclusion p') eqn:Ei; [|by rewrite bool_decide_eq_false_2 by (by intros [? ?])].
    rewrite bool_decide_eq_true_2; [done|]. unfold SmtProof.isInclusion in Ei.
    destruct t' as [k' v'|]; cbn in He; [|by destruct He as (_ & _ & Ek & _); rewrite Ek in Ei].
    destruct (decide _); [destruct He as [_ ->]; by eexists|]. destruct He as [Ek _]. by rewrite Ek in Ei.
  - unfold walkFuel. cbn [SmtProof.proveLoop]. rewrite N.eqb_refl, lookup_empty. eexists. split_and!; [done|done| |done|done].
    unfold SmtProof.verifyProof, SmtProof.isValid. cbn [SmtProof.siblings length].
    destruct (Nat.ltb_spec SmtProof.MAX_SIBLINGS 0); [lia|].
    transitivity (Some (defaultHash KEY_BITS =? defaultHash KEY_BITS)); [reflexivity|]. f_equal. apply N.eqb_refl.
Qed.

Lemma sampleStore_represents : @Represents spread sampleStore sampleContent.
Proof.
  destruct (@calls_ok spread spread_wf sampleCalls (@init spread) ∅ (@Represents_init spread)) as (st & E & HR);
    [repeat constructor|apply distinctDigests_ok; vm_compute; reflexivity|].
  unfold sampleStore. rewrite E. exact HR.
Qed.

Lemma proof_complete_witness :
  exists p, @SmtProof.prove spread keyC sampleStore = (Ok (Some p), sampleStore) /\
    @SmtProof.verifyProof spread (smt_root sampleStore) p = Some true.
Proof.
  destruct (@proof_complete spread sampleContent sampleStore keyC spread_wf sampleStore_represents)
    as (p & E & _ & V & _); [apply distinctDigests_ok; vm_compute; reflexivity|].
  exists p. split; [exact E|exact V].
Defined.

(** ** The wire format of proofs *)

(** The fields a terminal kind does not use are those of [SmtProof{}]. *)
Definition plain (p : SmtProof.t) : SmtProof.t :=
  let base := SmtProof.empty <| SmtProof.key := SmtProof.key p |>
    <| SmtProof.terminal_kind := SmtProof.terminal_kind p |> <| SmtProof.siblings := SmtProof.siblings p |> in
  match SmtProof.terminal_kind p with
  | ProofTerminalKind.Inclusion => base <| SmtProof.value := SmtProof.value p |>
  | ProofTerminalKind.Default => base
  | ProofTerminalKind.DifferentLeaf =>
    base <| SmtProof.divergent_leaf_key := SmtProof.divergent_leaf_key p |>
      <| SmtProof.divergent_leaf_value_hash := SmtProof.divergent_leaf_value_hash p |>
  | ProofTerminalKind.DivergentBranch =>
    base <| SmtProof.divergent_branch_prefix_len := SmtProof.divergent_branch_prefix_len p |>
      <| SmtProof.divergent_branch_prefix_bits := SmtProof.divergent_branch_prefix_bits p |>
      <| SmtProof.divergent_branch_left := SmtProof.divergent_branch_left p |>
      <| SmtProof.divergent_branch_right := SmtProof.divergent_branch_right p |>
  end.

Lemma needs_ok n b rest' : (n <= length (b ++ rest'))%nat ->
  SmtProof.needs n (mkReader (b ++ rest') false) = (Ok (), mkReader (b ++ rest') false).
Proof.
  intros Hn. unfold SmtProof.needs. rewrite (bind_ok _ _ _ _ _ (remaining_reads _ _)). apply require_true.
  apply negb_true_iff, Nat.ltb_ge. done.
Qed.

Lemma readPrefix_ok n b rest' : length b = n ->
  SmtProof.readPrefix n (mkReader (b ++ rest') false) = (Ok b, mkReader rest' false).
Proof.
  intros Hl. unfold SmtProof.readPrefix. destruct (Nat.eqb_spec n 0) as [->|]; [by destruct b|]. by apply readVector_put.
Qed.

Lemma readPrefixLen_ok n rest' : (n <= KEY_BITS)%nat ->
  SmtProof.readPrefixLen (mkReader (putU16 (N.of_nat n) ++ rest') false) = (Ok n, mkReader rest' false).
Proof.
  rewrite KEY_BITS_256. intros Hn. unfold SmtProof.readPrefixLen.
  erewrite bind_ok by (apply needs_ok; rewrite length_app, length_putU16; lia).
  erewrite bind_ok by (apply readU16_put; lia).
  erewrite bind_ok by (apply require_true, N.leb_le; rewrite KEY_BITS_256; lia).
  unfold mret, Exec_ret. by rewrite Nat2N.id.
Qed.

Lemma readSibling_ok s rest' : ProofSibling.isValid s = true -> wf_hash (ProofSibling.hash s) ->
  SmtProof.readSibling (mkReader (SmtProof.putSibling s ++ rest') false) = (Ok s, mkReader rest' false).
Proof.
  intros [Hl%Nat.leb_le Hb%Nat.eqb_eq]%andb_true_iff Hh. unfold SmtProof.readSibling, SmtProof.putSibling.
  rewrite take_ge, <- !app_assoc by lia. erewrite bind_ok by (by apply readPrefixLen_ok).
  erewrite bind_ok by (apply needs_ok; rewrite !length_app, length_putHash, Hb; lia).
  erewrite bind_ok by (by apply readPrefix_ok). erewrite bind_ok by (by apply readHash_put). by destruct s.
Qed.

Lemma readSiblings_ok ss : forall rest', Forall (fun s => ProofSibling.isValid s = true) ss ->
  Forall (fun s => wf_hash (ProofSibling.hash s)) ss ->
  SmtProof.readSiblings (length ss) (mkReader (concat (map SmtProof.putSibling ss) ++ rest') false) =
  (Ok ss, mkReader rest' false).
Proof.
  induction ss as [|s ss IH]; intros rest' Hv Hh; [done|]. apply Forall_cons in Hv as [Hs Hv].
  apply Forall_cons in Hh as [Hh Hhs]. cbn [map concat length SmtProof.readSiblings]. rewrite <- app_assoc.
  erewrite bind_ok by (by apply readSibling_ok). by erewrite bind_ok by (by apply IH).
Qed.

Lemma readTerminal_ok p rest' : wf_proof p -> SmtProof.terminalValid p = Some true -> (1 <= length rest')%nat ->
  match SmtProof.value p with Some v => N.of_nat (length v) <= SmtProof.MAX_VALUE_LEN | None => SmtProof.isInclusion p = false end ->
  SmtProof.readTerminal (SmtProof.terminal_kind p)
    (SmtProof.empty <| SmtProof.key := SmtProof.key p |> <| SmtProof.terminal_kind := SmtProof.terminal_kind p |>)
    (mkReader (SmtProof.putTerminal p ++ rest') false) =
  (Ok ((plain p) <| SmtProof.siblings := [] |>), mkReader rest' false).
Proof.
  intros Hp Hv Hr Hval. unfold SmtProof.readTerminal, SmtProof.putTerminal, plain, SmtProof.terminalValid, SmtProof.isInclusion in *.
  destruct (SmtProof.terminal_kind p).
  - destruct (SmtProof.value p) as [v|]; [|done]. change (default [] (Some v)) with v.
    unfold SmtProof.MAX_VALUE_LEN in *. rewrite u32_id by lia. rewrite <- app_assoc.
    erewrite bind_ok by (apply readU32_put; lia). erewrite bind_ok by apply checkOk_clear.
    erewrite bind_ok by (apply require_true, N.leb_le; lia). rewrite Nat2N.id.
    erewrite bind_ok by (apply needs_ok; rewrite length_app; lia). by erewrite bind_ok by (by apply readVector_put).
  - done.
  - rewrite <- app_assoc. erewrite bind_ok by (apply needs_ok; rewrite !length_app, !length_putHash; lia).
    erewrite bind_ok by (apply readHash_put, Hp). by erewrite bind_ok by (apply readHash_put, Hp).
  - destruct (Nat.ltb_spec KEY_BITS (SmtProof.divergent_branch_prefix_len p)); [done|].
    destruct (Nat.eqb_spec (length (SmtProof.divergent_branch_prefix_bits p))
      (prefixBytes (SmtProof.divergent_branch_prefix_len p))) as [Hb|]; [|done].
    rewrite take_ge, <- !app_assoc by lia. erewrite bind_ok by (by apply readPrefixLen_ok).
    erewrite bind_ok by (apply needs_ok; rewrite !length_app, !length_putHash, Hb; lia).
    erewrite bind_ok by (by apply readPrefix_ok). erewrite bind_ok by (apply readHash_put, Hp).
    by erewrite bind_ok by (apply readHash_put, Hp).
Qed.

Lemma length_putSiblings ss : Forall (fun s => ProofSibling.isValid s = true) ss ->
  length (concat (map SmtProof.putSibling ss)) = sum_list_with (fun s => 2 + prefixBytes (plen s) + 32)%nat ss.
Proof.
  induction 1 as [|s ss Hs _ IH]; [done|]. cbn [map concat]. rewrite length_app, IH.
  apply andb_true_iff in Hs as [_ Hs%Nat.eqb_eq]. unfold SmtProof.putSibling.
  rewrite !length_app, length_putU16, length_putHash, length_take. cbn [sum_list_with]. lia.
Qed.

Lemma length_serialize p : SmtProof.terminalValid p = Some true ->
  Forall (fun s => ProofSibling.isValid s = true) (SmtProof.siblings p) ->
  length (SmtProof.serialize p) = SmtProof.serializedSize p.
Proof.
  intros Ht Hs. unfold SmtProof.serialize, SmtProof.serializedSize.
  rewrite !length_app, length_putHash, !length_putU8, length_putSiblings by done.
  unfold SmtProof.putTerminal, SmtProof.terminalValid in *. destruct (SmtProof.terminal_kind p).
  - rewrite length_app, length_putU32. destruct (SmtProof.value p); cbn; lia.
  - cbn. lia.
  - rewrite length_app, !length_putHash. lia.
  - destruct (KEY_BITS <? _)%nat; [done|].
    destruct (Nat.eqb_spec (length (SmtProof.divergent_branch_prefix_bits p))
      (prefixBytes (SmtProof.divergent_branch_prefix_len p))) as [Hb|]; [|done].
    rewrite !length_app, length_putU16, !length_putHash, length_take. lia.
Qed.

(** A valid proof with fewer than 256 siblings, a value within the limit and
    only the fields of its kind set decodes from its wire bytes to itself, and
    the predicted size is the size written. *)
Theorem proof_roundtrip (p : SmtProof.t) :
  wf_proof p -> SmtProof.isValid p = Some true -> (length (SmtProof.siblings p) < 256)%nat -> plain p = p ->
  match SmtProof.value p with Some v => N.of_nat (length v) <= SmtProof.MAX_VALUE_LEN | None => SmtProof.isInclusion p = false end ->
  SmtProof.deserialize (SmtProof.serialize p) = Ok p /\
  length (SmtProof.serialize p) = SmtProof.serializedSize p.
Proof.
  intros Hp Hv Hn Hplain Hval. pose proof Hv as Hv'. unfold SmtProof.isValid in Hv'.
  destruct (SmtProof.MAX_SIBLINGS <? _)%nat; [done|].
  destruct (SmtProof.terminalValid p) as [[|]|] eqn:Ht; cbn [mbind option_bind andb] in Hv'; [|done|done].
  assert (Hs : Forall (fun s => ProofSibling.isValid s = true) (SmtProof.siblings p)).
  { injection Hv' as Hv'. apply Forall_forall. intros x Hx. rewrite forallb_forall in Hv'. by apply Hv', list_elem_of_In. }
  split.
  - unfold SmtProof.deserialize, SmtProof.serialize, SmtProof.readProof.
    set (tail := concat (map SmtProof.putSibling (SmtProof.siblings p))).
    erewrite bind_ok by (apply needs_ok; rewrite !length_app, length_putHash, !length_putU8; lia).
    erewrite bind_ok by (apply readHash_put, Hp).
    erewrite bind_ok by (apply readU8_put; by destruct (SmtProof.terminal_kind p)).
    replace (ProofTerminalKind.of_byte _) with (Some (SmtProof.terminal_kind p)) by (by destruct (SmtProof.terminal_kind p)).
    erewrite bind_ok by (apply readTerminal_ok; try done; rewrite length_app, length_putU8; lia).
    erewrite bind_ok by (apply readU8_put; lia). unfold SmtProof.MAX_SIBLINGS.
    erewrite bind_ok by (apply require_true, N.leb_le; rewrite KEY_BITS_256; lia). rewrite Nat2N.id.
    rewrite <- (app_nil_r tail). erewrite bind_ok by (apply readSiblings_ok; [done|apply Hp]).
    erewrite bind_ok by apply checkOk_clear. erewrite bind_ok by apply remaining_reads.
    erewrite bind_ok by (by apply require_true). cbv zeta.
    assert (Ep : (plain p) <| SmtProof.siblings := [] |> <| SmtProof.siblings := SmtProof.siblings p |> = p)
      by (etrans; [|exact Hplain]; unfold plain; by destruct (SmtProof.terminal_kind p)).
    rewrite Ep, Hv. by erewrite bind_ok by (by apply require_true).
  - by apply length_serialize.
Qed.

Lemma proof_roundtrip_witness :
  SmtProof.deserialize (SmtProof.serialize proofB) = Ok proofB /\
  SmtProof.deserialize (SmtProof.serialize proofA) = Ok proofA.
Proof.
  split.
  - apply (proof_roundtrip proofB); [split; try reflexivity; repeat constructor|vm_compute; reflexivity| |reflexivity|cbn; easy].
    apply Nat.ltb_lt. reflexivity.
  - apply (proof_roundtrip proofA); [split; try reflexivity; repeat constructor|vm_compute; reflexivity| |reflexivity|reflexivity].
    apply Nat.ltb_lt. reflexivity.
Defined.

(** ** Two examples *)

(** A divergent branch below a sibling that consumes the whole key: the check
    of the branch's prefix reads the bit after the last. *)
Definition overlong : SmtProof.t :=
  SmtProof.empty <| SmtProof.terminal_kind := ProofTerminalKind.DivergentBranch |>
    <| SmtProof.divergent_branch_prefix_len := 1%nat |> <| SmtProof.divergent_branch_prefix_bits := [0] |>
    <| SmtProof.siblings := [ProofSibling.mk 255 (replicate 32 0) 0] |>.

Lemma overlong_reads_past_key : SmtProof.deserialize (SmtProof.serialize overlong) = Crash.
Proof. vm_compute. reflexivity. Qed.

(** A key that an earlier version wrote and a later one left alone is not found
    at the later version, once the root has moved on. *)
Definition historyCalls : Tree (option Hash * option bytes) :=
  let call := @call spread in
  call (puts keyA [1]) 1;; @save 1;; call (puts keyB [2; 2]) 2;; @save 2;; call (puts keyC [3]) 3;; @save 3;;
  root ← rootAtVersion 2;
  v ← @getAtVersion spread keyA 2;
  mret (root, v).

Lemma untouched_key_lost :
  fst (historyCalls (@init spread)) =
    Ok (Some (@smtRoot spread {[keyA := [1]; keyB := [2; 2]]}), None).
Proof. vm_compute. reflexivity. Qed.
