(* ===== verification/Meta.v ===== *)
(** * Meta table and block statistics

    The tables beside the state tree that src/src/Core/BlockProcessor.cpp
    writes: lifetime counters, the rolling fee window and the transaction and
    producer indexes (StateAccess.cpp).  None of them is part of the state root.

    Shown: the fee window.  The ring, its head and its running sum represent the
    list of the last [FEE_WINDOW_BLOCKS] block fees, and the sum read from the
    table is the sum of that list. *)

From S2P Require Import Prelude Types OrderBook StateAccess Codec ExecBase Rotation Rewards.
From S2P Require Import Consensus Block.

(** The store a block is applied to: the state and the tables beside it. *)
Record BlockStore := mkBlockStore {
  store : State;
  meta : gmap string bytes;                     (* TBL_META *)
  idx_tx_by_address : gmap bytes Hash;          (* TBL_INDEX_TX_BY_ADDRESS *)
  idx_tx_by_token : gmap bytes Hash;            (* TBL_INDEX_TX_BY_TOKEN *)
  idx_tx_by_type : gmap bytes Hash;             (* TBL_INDEX_TX_BY_TYPE *)
  idx_blocks_by_producer : gmap bytes Hash;     (* TBL_INDEX_BLOCKS_BY_PRODUCER *)
}.
#[global] Instance eta_BlockStore : Eta BlockStore := fun x =>
  mkBlockStore (store x) (meta x) (idx_tx_by_address x) (idx_tx_by_token x) (idx_tx_by_type x)
    (idx_blocks_by_producer x).

Definition onStore (f : State -> State) (bs : BlockStore) : BlockStore := bs <| store ::= f |>.

(** ** Meta entries *)

Definition getMeta (key : string) (bs : BlockStore) : option bytes := meta bs !! key.

Definition putMeta (key : string) (value : bytes) (bs : BlockStore) : BlockStore :=
  bs <| meta ::= <[key := value]> |>.

Definition getMetaU64 (key : string) (bs : BlockStore) : N :=
  match getMeta key bs with
  | Some b => if (length b =? 8)%nat then le_combine b else 0
  | None => 0
  end.

Definition putMetaU64 (key : string) (value : N) (bs : BlockStore) : BlockStore :=
  putMeta key (le_split 8 value) bs.

(** ** The rolling fee window *)

Definition FEE_WINDOW_BLOCKS : N := 24 * 60 * 60 / NOMINAL_BLOCK_SECONDS.

Definition ringBytes : nat := N.to_nat (FEE_WINDOW_BLOCKS * 8).

(** [std::memcpy] from and to the slot at an index: eight little-endian bytes. *)
Definition readSlot (ring : bytes) (i : N) : N := le_combine (take 8 (drop (N.to_nat i * 8) ring)).

Definition writeSlot (ring : bytes) (i v : N) : bytes :=
  take (N.to_nat i * 8) ring ++ le_split 8 v ++ drop (N.to_nat i * 8 + 8) ring.

(** A new ring when the stored one has another size. *)
Definition prepareRing (bs : BlockStore) : bytes * BlockStore :=
  let ring_bytes := default [] (getMeta "fees_window_ring" bs) in
  if (length ring_bytes =? ringBytes)%nat then (ring_bytes, bs)
  else
    let ring_bytes := replicate ringBytes 0 in
    let bs := putMeta "fees_window_ring" ring_bytes bs in
    let bs := putMetaU64 "fees_window_sum" 0 bs in
    let bs := putMetaU64 "fees_window_ring_head" 0 bs in
    let bs := putMetaU64 "fees_window_block_count" 0 bs in
    (ring_bytes, bs).

Definition updateFeeWindow (block_fees : N) (bs : BlockStore) : BlockStore :=
  let '(ring_bytes, bs) := prepareRing bs in
  let head := getMetaU64 "fees_window_ring_head" bs in
  let count := getMetaU64 "fees_window_block_count" bs in
  let sum := getMetaU64 "fees_window_sum" bs in
  let evicted := readSlot ring_bytes head in
  let ring_bytes := writeSlot ring_bytes head block_fees in
  let new_sum := sum -64 evicted +64 block_fees in
  let new_head := (head +64 1) mod FEE_WINDOW_BLOCKS in
  let new_count := if count <? FEE_WINDOW_BLOCKS then count +64 1 else FEE_WINDOW_BLOCKS in
  let bs := putMeta "fees_window_ring" ring_bytes bs in
  let bs := putMetaU64 "fees_window_sum" new_sum bs in
  let bs := putMetaU64 "fees_window_ring_head" new_head bs in
  putMetaU64 "fees_window_block_count" new_count bs.

Definition bumpLifetimeCounters (block : Block.t) (bs : BlockStore) : BlockStore :=
  let bs := putMetaU64 "tx_counter"
    (getMetaU64 "tx_counter" bs +64 N.of_nat (length (Block.transactions block))) bs in
  let bs := putMetaU64 "total_fees_lifetime"
    (getMetaU64 "total_fees_lifetime" bs +64 BlockHeader.total_fees (Block.header block)) bs in
  updateFeeWindow (BlockHeader.total_fees (Block.header block)) bs.

(** ** Indexes *)

Section indexes.
Context `{Crypto}.

Definition indexBlockProducer (block : Block.t) (bs : BlockStore) : BlockStore :=
  let h := Block.header block in
  if isNull (BlockHeader.proposer h) then bs
  else bs <| idx_blocks_by_producer ::=
         <[be_split 32 (BlockHeader.proposer h) ++ be_split 8 (BlockHeader.height h) := Block.hash block]> |>.

(** The rows of one transaction ([StateAccess::indexTransaction]). *)
Definition indexTransaction (txid : Hash) (block_height tx_index_in_block : N)
    (addresses : list Address) (token_ids : list N) (tx_type : N) (bs : BlockStore) : BlockStore :=
  let row := be_split 8 block_height ++ be_split 4 tx_index_in_block in
  let bs := foldl (fun bs addr =>
      if isNull addr then bs
      else bs <| idx_tx_by_address ::= <[be_split 32 addr ++ row := txid]> |>) bs addresses in
  let bs := foldl (fun bs token_id =>
      bs <| idx_tx_by_token ::= <[le_split 4 (u32 token_id) ++ row := txid]> |>) bs token_ids in
  bs <| idx_tx_by_type ::= <[tx_type :: row := txid]> |>.

(** The tokens a transaction is indexed under. *)
Definition indexedTokens (tx : Transaction.t) : list N :=
  match Transaction.tx_type tx with
  | TxType.Transfer
  | TxType.CreateToken | TxType.MintToken | TxType.BurnToken | TxType.UpdateTokenMeta
  | TxType.Swap | TxType.AddLiquidity | TxType.RemoveLiquidity
  | TxType.CreatePool
  | TxType.CreateOrder | TxType.CancelOrder => [Transaction.token_id tx]
  | TxType.OptInStaking | TxType.OptOutStaking | TxType.ClaimRewards
  | TxType.RegisterValidator | TxType.UnregisterValidator | TxType.UpdateRewardAddress =>
    [NATIVE_TOKEN_ID]
  | _ => []
  end.

Definition indexedAddresses (tx : Transaction.t) : list Address :=
  Transaction.from tx :: (if isNull (Transaction.to tx) then [] else [Transaction.to tx]).

Fixpoint indexTransactionsFrom (height i : N) (txs : list Transaction.t) (bs : BlockStore) : BlockStore :=
  match txs with
  | [] => bs
  | tx :: txs =>
    let bs :=
      if TxType.isSystemTx (Transaction.tx_type tx) then bs
      else indexTransaction (TransactionCodec.signingHash tx) height (u32 i)
             (indexedAddresses tx) (indexedTokens tx) (TxType.to_byte (Transaction.tx_type tx)) bs in
    indexTransactionsFrom height (i + 1) txs bs
  end.

Definition indexTransactions (block : Block.t) (current_height : N) (bs : BlockStore) : BlockStore :=
  indexTransactionsFrom current_height 0 (Block.transactions block) bs.
End indexes.

(** ** What the fee window represents *)

Definition sumN (l : list N) : N := foldr N.add 0 l.

Definition lastn {A} (n : nat) (l : list A) : list A := drop (length l - n) l.

Lemma sumN_app l1 l2 : sumN (l1 ++ l2) = sumN l1 + sumN l2.
Proof. unfold sumN. induction l1 as [|x l1 IH]; cbn; [done|]. rewrite IH. lia. Qed.

Lemma sumN_zeros n : sumN (replicate n 0) = 0.
Proof. induction n; [done|]. by rewrite replicate_S. Qed.

Lemma sumN_drop n l : sumN (drop n l) <= sumN l.
Proof. rewrite <- (take_drop n l) at 2. rewrite sumN_app. lia. Qed.

Lemma length_encodeIds ids : length (encodeIds ids) = (length ids * 8)%nat.
Proof.
  unfold encodeIds. induction ids as [|i ids IH]; [done|]. cbn [map concat length].
  rewrite length_app, length_le_split, IH. lia.
Qed.

Lemma encodeIds_app a b : encodeIds (a ++ b) = encodeIds a ++ encodeIds b.
Proof. unfold encodeIds. by rewrite map_app, concat_app. Qed.

Section ring.
Context (pre post : list N) (x : N).

Lemma readSlot_at : x < w64 -> readSlot (encodeIds (pre ++ x :: post)) (N.of_nat (length pre)) = x.
Proof.
  intros Hx. unfold readSlot. rewrite encodeIds_app, Nat2N.id.
  rewrite drop_app_length' by (by rewrite length_encodeIds).
  change (encodeIds (x :: post)) with (le_split 8 x ++ encodeIds post).
  rewrite take_app_length' by done. rewrite le_combine_split. by apply N.mod_small.
Qed.

Lemma writeSlot_at v :
  writeSlot (encodeIds (pre ++ x :: post)) (N.of_nat (length pre)) v = encodeIds (pre ++ v :: post).
Proof.
  unfold writeSlot. rewrite !encodeIds_app, Nat2N.id.
  rewrite take_app_length' by (by rewrite length_encodeIds). f_equal.
  rewrite drop_app_ge by (rewrite length_encodeIds; lia). rewrite length_encodeIds.
  replace (length pre * 8 + 8 - length pre * 8)%nat with 8%nat by lia.
  change (encodeIds (x :: post)) with (le_split 8 x ++ encodeIds post).
  change (encodeIds (v :: post)) with (le_split 8 v ++ encodeIds post).
  by rewrite drop_app_length' by done.
Qed.
End ring.

Lemma getMeta_put key k b bs :
  getMeta k (putMeta key b bs) = if bool_decide (k = key) then Some b else getMeta k bs.
Proof.
  unfold getMeta, putMeta. cbn. case_bool_decide as Hk; [subst; by rewrite lookup_insert_eq|].
  by rewrite lookup_insert_ne.
Qed.

Lemma getMetaU64_put key k v bs :
  v < w64 -> getMetaU64 k (putMetaU64 key v bs) = if bool_decide (k = key) then v else getMetaU64 k bs.
Proof.
  intros Hv. unfold getMetaU64, putMetaU64. rewrite getMeta_put. case_bool_decide; [|done].
  rewrite length_le_split, le_combine_split. by apply N.mod_small.
Qed.

Lemma getMeta_putU64 key k v bs : k <> key -> getMeta k (putMetaU64 key v bs) = getMeta k bs.
Proof. intros Hk. unfold putMetaU64. rewrite getMeta_put. by rewrite bool_decide_false. Qed.

Lemma FEE_WINDOW_pos : 0 < FEE_WINDOW_BLOCKS < w64.
Proof. split; reflexivity. Qed.

(** The table holds [window], oldest first: a ring cut at its head. *)
Record Window (window : list N) (count : N) (bs : BlockStore) : Prop := {
  win_len : length window = N.to_nat FEE_WINDOW_BLOCKS;
  win_words : Forall (fun x => x < w64) window;
  win_ring : exists pre post, window = post ++ pre /\ post <> [] /\
    getMeta "fees_window_ring" bs = Some (encodeIds (pre ++ post)) /\
    getMetaU64 "fees_window_ring_head" bs = N.of_nat (length pre);
  win_sum : getMetaU64 "fees_window_sum" bs = u64 (sumN window);
  win_count : getMetaU64 "fees_window_block_count" bs = count;
}.

(** One block: the oldest value leaves, the new one enters. *)
Lemma Window_update fees count x window bs :
  fees < w64 -> count <= FEE_WINDOW_BLOCKS -> Window (x :: window) count bs ->
  Window (window ++ [fees]) (N.min (count + 1) FEE_WINDOW_BLOCKS) (updateFeeWindow fees bs).
Proof.
  intros Hf Hc [Hlen Hw (pre & post & Hx & Hne & Hr & Hh) Hs Hn].
  destruct post as [|x' post]; [done|]. injection Hx as <- ->.
  pose proof FEE_WINDOW_pos as HF. cbn [length] in Hlen. rewrite length_app in Hlen.
  rewrite Forall_cons, Forall_app in Hw. destruct Hw as (Hwx & Hwo & Hwr).
  assert (Hhead : N.of_nat (length pre) + 1 <= FEE_WINDOW_BLOCKS) by lia.
  unfold updateFeeWindow, prepareRing. rewrite Hr. cbn [default].
  assert (Hrl : (length (encodeIds (pre ++ x :: post)) =? ringBytes)%nat = true).
  { apply Nat.eqb_eq. rewrite length_encodeIds, length_app. cbn [length]. unfold ringBytes. lia. }
  unfold default, id. rewrite Hrl, Hh, Hn, Hs, readSlot_at, writeSlot_at by done.
  rewrite (add64_id (N.of_nat (length pre)) 1) by lia.
  assert (Hcount : (if count <? FEE_WINDOW_BLOCKS then count +64 1 else FEE_WINDOW_BLOCKS) =
    N.min (count + 1) FEE_WINDOW_BLOCKS).
  { destruct (N.ltb_spec count FEE_WINDOW_BLOCKS); [rewrite add64_id by lia|]; lia. }
  assert (Hsum : u64 (sumN (x :: post ++ pre)) -64 x +64 fees = u64 (sumN ((post ++ pre) ++ [fees]))).
  { unfold sumN at 1. cbn [foldr]. fold (sumN (post ++ pre)). rewrite sub64_u64_l by lia.
    unfold add64. rewrite u64_add_l, (sumN_app (post ++ pre)). f_equal. cbn. lia. }
  assert (Hmod : (N.of_nat (length pre) + 1) mod FEE_WINDOW_BLOCKS < w64)
    by (eapply N.lt_trans; [apply N.mod_lt|]; lia).
  rewrite Hcount, Hsum. split.
  - rewrite !length_app. cbn [length]. lia.
  - by rewrite !Forall_app, Forall_singleton.
  - destruct post as [|y post].
    + exists [], (pre ++ [fees]). split_and!; [by rewrite app_nil_r|by destruct pre| |].
      * by rewrite !getMeta_putU64, getMeta_put by done.
      * rewrite getMetaU64_put, bool_decide_false by (done || lia).
        rewrite getMetaU64_put, bool_decide_true by done.
        cbn [length] in Hlen. replace (N.of_nat (length pre) + 1) with FEE_WINDOW_BLOCKS by lia.
        apply N.Div0.mod_same.
    + exists (pre ++ [fees]), (y :: post). split_and!; [cbn; by rewrite <- app_assoc|done| |].
      * rewrite !getMeta_putU64, getMeta_put, <- app_assoc by done. done.
      * rewrite getMetaU64_put, bool_decide_false by (done || lia).
        rewrite getMetaU64_put, bool_decide_true by done.
        cbn [length] in Hlen. rewrite N.mod_small by lia. rewrite length_app. cbn [length]. lia.
  - rewrite getMetaU64_put, bool_decide_false by (done || lia).
    rewrite getMetaU64_put, bool_decide_false by done.
    by rewrite getMetaU64_put, bool_decide_true by (done || apply u64_lt).
  - by rewrite getMetaU64_put, bool_decide_true by (done || lia).
Qed.

Definition updateFeeWindows (fees : list N) (bs : BlockStore) : BlockStore :=
  foldl (fun bs f => updateFeeWindow f bs) bs fees.

Lemma Window_run fees : forall window count bs,
  Forall (fun f => f < w64) fees -> count <= FEE_WINDOW_BLOCKS -> Window window count bs ->
  Window (drop (length fees) (window ++ fees))
    (N.min (count + N.of_nat (length fees)) FEE_WINDOW_BLOCKS) (updateFeeWindows fees bs).
Proof.
  induction fees as [|f fees IH]; intros window count bs Hf Hc Hw.
  - rewrite app_nil_r. cbn [length drop]. replace (N.min (count + N.of_nat 0) FEE_WINDOW_BLOCKS) with count by lia.
    exact Hw.
  - rewrite Forall_cons in Hf. destruct Hf as [Hf Hfs]. pose proof FEE_WINDOW_pos as HF.
    destruct window as [|x window]; [pose proof (win_len _ _ _ Hw) as Hl; cbn in Hl; lia|].
    pose proof (Window_update f count x window bs Hf Hc Hw) as Hu.
    specialize (IH _ (N.min (count + 1) FEE_WINDOW_BLOCKS) _ Hfs ltac:(lia) Hu). cbn [length app drop]. rewrite <- app_assoc in IH.
    replace (N.min (count + N.of_nat (S (length fees))) FEE_WINDOW_BLOCKS)
      with (N.min (N.min (count + 1) FEE_WINDOW_BLOCKS + N.of_nat (length fees)) FEE_WINDOW_BLOCKS) by lia.
    exact IH.
Qed.

Lemma encodeIds_zeros n : encodeIds (replicate n 0) = replicate (n * 8) 0.
Proof.
  induction n as [|n IH]; [done|]. rewrite replicate_S.
  change (encodeIds (0 :: replicate n 0)) with (replicate 8 0 ++ encodeIds (replicate n 0)). by rewrite IH.
Qed.

(** The first use lays out a ring of zeros. *)
Lemma prepareRing_fresh bs :
  length (default [] (getMeta "fees_window_ring" bs)) <> ringBytes ->
  Window (replicate (N.to_nat FEE_WINDOW_BLOCKS) 0) 0 (snd (prepareRing bs)) /\
  forall f, updateFeeWindow f bs = updateFeeWindow f (snd (prepareRing bs)).
Proof.
  intros Hl. pose proof FEE_WINDOW_pos as HF.
  assert (Hr : getMeta "fees_window_ring" (snd (prepareRing bs)) = Some (replicate ringBytes 0)).
  { unfold prepareRing. rewrite (proj2 (Nat.eqb_neq _ _) Hl). cbn [snd].
    by rewrite !getMeta_putU64, getMeta_put by done. }
  split.
  - split.
    + by rewrite length_replicate.
    + by apply Forall_replicate.
    + exists [], (replicate (N.to_nat FEE_WINDOW_BLOCKS) 0). split_and!; [by rewrite app_nil_r| | |].
      * destruct (N.to_nat FEE_WINDOW_BLOCKS) eqn:E; [lia|done].
      * rewrite Hr. cbn [app]. rewrite encodeIds_zeros. unfold ringBytes. by rewrite N2Nat.inj_mul.
      * unfold prepareRing. rewrite (proj2 (Nat.eqb_neq _ _) Hl). cbn [snd].
        rewrite getMetaU64_put, bool_decide_false by done. by rewrite getMetaU64_put by done.
    + rewrite sumN_zeros. unfold prepareRing. rewrite (proj2 (Nat.eqb_neq _ _) Hl). cbn [snd].
      do 2 rewrite getMetaU64_put, bool_decide_false by done. by rewrite getMetaU64_put by done.
    + unfold prepareRing. rewrite (proj2 (Nat.eqb_neq _ _) Hl). cbn [snd].
      by rewrite getMetaU64_put by done.
  - intros f. unfold updateFeeWindow.
    assert (Hp : prepareRing (snd (prepareRing bs)) = prepareRing bs); [|by rewrite Hp].
    unfold prepareRing at 1. rewrite Hr. cbn [default]. unfold default, id.
    rewrite length_replicate, Nat.eqb_refl. unfold prepareRing. rewrite (proj2 (Nat.eqb_neq _ _) Hl).
    done.
Qed.

(** The fee window.  From a table without a ring, after the fees of any
    number of blocks the stored sum is the sum of the last
    [FEE_WINDOW_BLOCKS] of them, and the stored count is how many there are,
    up to the size of the window. *)
Theorem fee_window_exact (fees : list N) (bs : BlockStore) :
  length (default [] (getMeta "fees_window_ring" bs)) <> ringBytes ->
  fees <> [] -> Forall (fun f => f < w64) fees ->
  getMetaU64 "fees_window_sum" (updateFeeWindows fees bs) =
    u64 (sumN (lastn (N.to_nat FEE_WINDOW_BLOCKS) fees)) /\
  getMetaU64 "fees_window_block_count" (updateFeeWindows fees bs) =
    N.min (N.of_nat (length fees)) FEE_WINDOW_BLOCKS.
Proof.
  intros Hl Hne Hf. destruct (prepareRing_fresh bs Hl) as [Hw He].
  assert (Hrun : updateFeeWindows fees bs = updateFeeWindows fees (snd (prepareRing bs))).
  { destruct fees as [|f fees]; [done|]. cbn. by rewrite He. }
  destruct (Window_run fees _ 0 _ Hf ltac:(lia) Hw) as [_ _ _ Hs Hc]. rewrite Hrun, Hs, Hc.
  split; [|done]. f_equal. unfold lastn.
  rewrite drop_app, sumN_app, drop_replicate, sumN_zeros, length_replicate. done.
Qed.

Lemma fee_window_exact_witness :
  exists bs, getMetaU64 "fees_window_sum" (updateFeeWindows [10; 20; 30] bs) = 60.
Proof.
  exists (mkBlockStore (emptyState 0) ∅ ∅ ∅ ∅ ∅).
  destruct (fee_window_exact [10; 20; 30] (mkBlockStore (emptyState 0) ∅ ∅ ∅ ∅ ∅)) as [E _].
  - intros E%(f_equal (Nat.eqb 0)). vm_compute in E. discriminate E.
  - discriminate.
  - repeat constructor.
  - rewrite E. vm_compute. reflexivity.
Defined.
