(* ===== verification/EpochRewards.v ===== *)
(** * Block rewards and the epoch boundary

    [distributeRewards], [updateGlobalState] and [processEpochBoundary] of
    src/src/Core/BlockProcessor.cpp.

    Shown: a block issues exactly the block reward, into reward addresses and
    the pot; at an epoch boundary the stakers are credited at most what the pot
    mechanics distribute, nothing else of value moves, and the pot follows the
    books up to its cap. *)

From S2P Require Import Prelude Types OrderBook StateAccess Ledger Codec ExecBase Rotation Rewards.
From S2P Require Import Consensus Block Meta.

Definition epochOf (height : N) : N := height / ROTATION_INTERVAL.

(** ** Block rewards *)

(** One payment: scaled by the multiplier, the rest is redistributed.  An
    unknown validator's whole amount is. *)
Definition creditReward (acc : N * State) (reward : N * N) : N * State :=
  let '(total_redistributed, st) := acc in
  let '(vid, amount) := reward in
  match getValidator vid st with
  | None => (total_redistributed +64 amount, st)
  | Some v =>
    let adjusted := (amount *64 ValidatorInfo.reward_multiplier v) / 10000 in
    let difference := amount -64 adjusted in
    let st :=
      if 0 <? adjusted then
        let acct := getAccount (ValidatorInfo.reward_address v) st in
        putAccount (ValidatorInfo.reward_address v)
          (acct <| Account.balance := Account.balance acct +64 adjusted |>) st
      else st in
    let st := putValidator
      (v <| ValidatorInfo.total_rewards_earned := ValidatorInfo.total_rewards_earned v +64 adjusted |>) st in
    (total_redistributed +64 difference, st)
  end.

Definition isSeedMember (st : State) (vid : N) : bool :=
  match getValidator vid st with Some v => ValidatorInfo.is_seed v | None => false end.

Definition seedOnly (active_set : list N) (st : State) : bool :=
  negb (bool_decide (active_set = [])) && forallb (isSeedMember st) active_set.

Definition producerId (proposer : Address) (active_set : list N) (st : State) : N :=
  default (hd 0 active_set) (getValidatorByAddress proposer st).

(** The payments of a block: what is redistributed, and the state. *)
Definition payValidators (proposer : Address) (active_set : list N) (st : State) : N * State :=
  let rewards := computeBlockReward BLOCK_REWARD active_set in
  let producer := producer_amount rewards in
  if seedOnly active_set st then
    let seed_count := N.of_nat (length active_set) in
    let '(total_redistributed, st) :=
      foldl creditReward (0, st) (shareOut (producer / seed_count) (producer mod seed_count) active_set) in
    (total_redistributed +64 set_amount rewards, st)
  else
    let acc :=
      if (0 <? producer) && negb (bool_decide (active_set = []))
      then creditReward (0, st) (producerId proposer active_set st, producer)
      else (0, st) in
    foldl creditReward acc (validator_rewards rewards).

Definition distributeRewards (block : Block.t) (bs : BlockStore) : BlockStore :=
  let active_set := loadActiveSet (store bs) in
  let '(total_redistributed, st) :=
    payValidators (BlockHeader.proposer (Block.header block)) active_set (store bs) in
  let staker_pool := applyBps BLOCK_REWARD STAKER_SHARE_BPS in
  let pot := getGlobalU64 "pot" st +64 total_redistributed +64 staker_pool in
  let bs := putMetaU64 "total_to_pot"
    (getMetaU64 "total_to_pot" bs +64 (total_redistributed +64 staker_pool)) bs in
  bs <| store := putGlobalU64 "pot" pot st |>.

Definition updateGlobalState (current_height : N) (st : State) : State :=
  let st := putGlobalU64 "total_supply" (getGlobalU64 "total_supply" st +64 BLOCK_REWARD) st in
  putGlobalU64 "epoch_number" (epochOf current_height) st.

(** ** Epoch boundary *)

Definition blocksStakedIn (acct : Account.t) (epoch_start epoch_end epoch_blocks : N) : N :=
  if Account.staked acct =? 0 then 0
  else if Account.staker_since_height acct =? 0 then 0
  else
    let effective_start := N.max (Account.staker_since_height acct) epoch_start in
    if epoch_end <? effective_start then 0
    else
      let blocks := epoch_end +64 1 -64 effective_start in
      if epoch_blocks <? blocks then epoch_blocks else blocks.

(** [int64_t] values as integers; the conversions are two's complement. *)
Definition toI64 (x : N) : Z := if x <? 2 ^ 63 then Z.of_N x else (Z.of_N x - 2 ^ 64)%Z.
Definition ofI64 (z : Z) : N := Z.to_N (z mod 2 ^ 64).

(** Addition and subtraction of [int64_t] (overflow, undefined in C++, wraps
    here; the theorems stay within the range). *)
Definition wrapI64 (z : Z) : Z := ((z + 2 ^ 63) mod 2 ^ 64 - 2 ^ 63)%Z.

(** The stakers in the order of the index, by address bytes. *)
Definition stakers (st : State) : list Address := merge_sort N.le (elements (idx_stakers st)).

(** The collections [forEachNftCollection] visits. *)
Definition allCollections (st : State) : list NftCollection.t :=
  omap (fun i => getNftCollection i st) (scan_ids (elements (dom (nft_collections st)))).

Definition accrueCollection (st : State) (collection : NftCollection.t) : State :=
  if negb (NftCollection.hasReward collection) then st
  else if NftCollection.reward_paused collection then st
  else if NftCollection.minted_count collection =? 0 then st
  else
    let per_epoch := NftCollection.minted_count collection *64
                     NftCollection.reward_rate_per_epoch collection in
    putNftCollection
      (if per_epoch <=? NftCollection.reward_escrow_remaining collection
       then collection <| NftCollection.reward_escrow_remaining :=
              NftCollection.reward_escrow_remaining collection -64 per_epoch |>
       else collection <| NftCollection.reward_escrow_remaining := 0 |>
              <| NftCollection.reward_paused := true |>) st.

(** The weight of a staker for an epoch: stake, bonus and blocks staked. *)
Definition timeWeight (epoch_start epoch_end : N) (acct : Account.t) : N :=
  let blocks_staked := blocksStakedIn acct epoch_start epoch_end ROTATION_INTERVAL in
  if blocks_staked =? 0 then 0
  else
    let weight := Account.staked acct in
    let weight :=
      if BALANCE_BONUS_THRESHOLD <=? Account.staked acct
      then u64 (u128 (weight * (10000 + BALANCE_BONUS_BPS)) / 10000)
      else weight in
    u128 (weight * blocks_staked).

Definition totalTimeWeight (epoch_start epoch_end : N) (addrs : list Address) (st : State) : N :=
  foldl (fun total addr => u128 (total + timeWeight epoch_start epoch_end (getAccount addr st))) 0 addrs.

Definition payStaker (epoch_start epoch_end distributed total_time_weight epoch_number : N)
    (st : State) (addr : Address) : State :=
  let acct := getAccount addr st in
  if blocksStakedIn acct epoch_start epoch_end ROTATION_INTERVAL =? 0 then st
  else
    let time_weight := timeWeight epoch_start epoch_end acct in
    let share := u64 (u128 (distributed * time_weight) / total_time_weight) in
    putAccount addr
      (acct <| Account.pending_rewards := Account.pending_rewards acct +64 share |>
            <| Account.last_reward_epoch := epoch_number |>) st.

(** The new pot in [int64_t]: negative is zero, the excess over the cap burns. *)
Definition potAfterEpoch (pot : N) (adj : PotAdjustment) (pool_baseline : N) : N :=
  let pot_delta := wrapI64 (toI64 (added_to_pot adj) - toI64 (drained_from_pot adj)) in
  let new_pot := wrapI64 (toI64 pot + pot_delta) in
  let new_pot := if (new_pot <? 0)%Z then 0%Z else new_pot in
  let pot_max := pool_baseline *64 POT_MAX_EPOCHS in
  if pot_max <? ofI64 new_pot then pot_max else ofI64 new_pot.

Definition epochPool : N := applyBps BLOCK_REWARD STAKER_SHARE_BPS *64 ROTATION_INTERVAL.

(** The epoch's effective APY and pot adjustment, from the globals and the
    transaction counters. *)
Definition epochApy (bs : BlockStore) : N :=
  let pot := getGlobalU64 "pot" (store bs) in
  let tx_counter_now := getMetaU64 "tx_counter" bs in
  let tx_counter_at_start := getMetaU64 "tx_counter_at_epoch_start" bs in
  let txs_this_epoch :=
    if tx_counter_at_start <=? tx_counter_now then tx_counter_now -64 tx_counter_at_start else 0 in
  let avg_tx_per_block := txs_this_epoch / ROTATION_INTERVAL in
  computeEffectiveApy APY_BASE_BPS (computeActivityBps avg_tx_per_block)
    (computePotBonusBps pot epochPool).

Definition epochAdjustment (bs : BlockStore) : PotAdjustment :=
  let target_payout := computeTargetStakerPayout (getGlobalU64 "total_staked" (store bs))
                         (epochApy bs) SECONDS_PER_EPOCH in
  applyPotMechanics epochPool target_payout (getGlobalU64 "pot" (store bs)) epochPool.

Definition payStakers (adj : PotAdjustment) (current_height : N) (st : State) : State :=
  let epoch_end_height := current_height in
  let epoch_start_height :=
    if ROTATION_INTERVAL <=? epoch_end_height +64 1
    then epoch_end_height +64 1 -64 ROTATION_INTERVAL else 0 in
  let addrs := stakers st in
  let total_time_weight := totalTimeWeight epoch_start_height epoch_end_height addrs st in
  if total_time_weight =? 0 then st
  else foldl (payStaker epoch_start_height epoch_end_height (distributed adj) total_time_weight
                (epochOf current_height)) st addrs.

Definition processEpochBoundary (current_height : N) (bs : BlockStore) : BlockStore :=
  let pot := getGlobalU64 "pot" (store bs) in
  let total_staked := getGlobalU64 "total_staked" (store bs) in
  let staker_count := getGlobalU64 "staker_count" (store bs) in
  let adj := epochAdjustment bs in
  let bs1 := putMetaU64 "last_effective_apy_bps" (epochApy bs) bs in
  let bs1 := putMetaU64 "tx_counter_at_epoch_start" (getMetaU64 "tx_counter" bs) bs1 in
  let bs1 := putMetaU64 "total_pot_distributed"
    (getMetaU64 "total_pot_distributed" bs +64 distributed adj) bs1 in
  let st := putGlobalU64 "pot" (potAfterEpoch pot adj epochPool) (store bs) in
  let st := foldl accrueCollection st (allCollections st) in
  let st :=
    if (distributed adj =? 0) || (total_staked =? 0) || (staker_count =? 0) then st
    else payStakers adj current_height st in
  bs1 <| store := st |>.
