(* ===== verification/BlockProcessor.v ===== *)
(** * Block processor

    [BlockProcessor::applyBlock] of src/src/Core/BlockProcessor.cpp and the
    steps it calls: the header, root, quorum and certificate checks, the
    transaction loop, emergency membership, participants, the offline check,
    rotation, and the commitments at the end.

    A block that fails leaves its partial writes in the store it was given; the
    callers run it inside a database transaction they abort.  So an error is a
    value, returned with the store as it is at that point.

    [nowMs] is an argument.  The state root is the parameter [stateRoot]: the
    store is kept as typed maps here (Smt models the tree that commits to it),
    and every theorem holds for any function of the state in its place. *)

From S2P Require Import Prelude Types OrderBook StateAccess Codec ExecBase Executor BlockOrders.
From S2P Require Import Rotation Rewards Consensus Block Meta EpochRewards.

Definition OFFLINE_CHECK_INTERVAL : N := 10.

Module BlockContext.
Record t := mk { chain_id : N; current_height : N; dry_run : bool }.
End BlockContext.

(** The error strings of the processor; a transaction's carries its index. *)
Inductive BlockError : Set :=
  | HeaderNotWellFormed | ChainIdMismatch | HeightMismatch | ParentHashNull
  | CertificateHashMismatch | TimestampInFuture
  | TxRootMismatch
  | InvalidTimeoutCertificate
  | ActiveCountMismatch
  | InsufficientSignatures | InvalidSignerIndex | SignerOutOfRange | DuplicateSigner
  | UnknownSigner | NoConsensusKey | InvalidSignature
  | ValidatorSetRootMismatch
  | SlashFailed (index : N) | MalformedTransaction (index : N) | TransactionFailed (index : N)
  | ExecutionCrash (index : N)
  | StateRootMismatch
  | ReceiptCountMismatch | ReceiptsRootMismatch
  | EpochFillsRootMismatch | EpochFillsUncommitted.

Record BlockResult := mkBlockResult {
  new_state_root : Hash;
  receipts : list Receipt.t;
  tx_hashes : list Hash;
  block_hash : Hash;
  epoch_fills : list Fill.t;
}.

(** A check: [None] passes. *)
Definition Check := option BlockError.
Definition andThen (c1 c2 : Check) : Check := match c1 with Some e => Some e | None => c2 end.
Definition failIf (b : bool) (e : BlockError) : Check := if b then Some e else None.

Section checks.
Context `{Crypto}.

Definition checkTimeoutCertificateHash (block : Block.t) : Check :=
  let h := Block.header block in
  failIf (negb (computeTimeoutCertificateHash (BlockHeader.timeout_certificate h) =?
                BlockHeader.timeout_certificate_hash h)) CertificateHashMismatch.

(** The record with the key of the certificate's height in place. *)
Definition validatorAtHeight (st : State) (height vid : N) : option ValidatorInfo.t :=
  v ← getValidator vid st;
  key ← validatorKeyAtHeight vid height st;
  Some (v <| ValidatorInfo.consensus_key := key |>).

Definition checkTimeoutCertificate (st : State) (block : Block.t) (committed_set : list N)
    (current_height : N) : Check :=
  let h := Block.header block in
  failIf (negb (verifyTimeoutCertificate committed_set current_height (u32 (BlockHeader.emergency_rotation h))
                  (validatorAtHeight st current_height) (BlockHeader.timeout_certificate h)))
    InvalidTimeoutCertificate.

Definition checkHeader (block : Block.t) (ctx : BlockContext.t) (now_ms : N) : Check :=
  let h := Block.header block in
  let dry_run := BlockContext.dry_run ctx in
  andThen (failIf (negb dry_run && negb (BlockHeader.isWellFormed h)) HeaderNotWellFormed)
  (andThen (failIf (negb (BlockHeader.chain_id h =? BlockContext.chain_id ctx)) ChainIdMismatch)
  (andThen (failIf (negb (BlockHeader.height h =? BlockContext.current_height ctx)) HeightMismatch)
  (andThen (failIf ((0 <? BlockContext.current_height ctx) && isNull (BlockHeader.parent_hash h))
              ParentHashNull)
  (andThen (if negb dry_run && (0 <? BlockHeader.emergency_rotation h)
            then checkTimeoutCertificateHash block else None)
  (failIf (now_ms +64 2000 <? BlockHeader.timestamp_ms h) TimestampInFuture))))).

Definition checkTxRoot (block : Block.t) : Check :=
  failIf (negb (computeTxRoot (Block.transactions block) =? BlockHeader.tx_root (Block.header block)))
    TxRootMismatch.

(** The first loop of [checkQuorum]: indexes in range, none twice. *)
Fixpoint checkSigners (n : N) (seen : list N) (sigs : list ValidatorSignature.t) : Check :=
  match sigs with
  | [] => None
  | vs :: sigs =>
    let i := ValidatorSignature.signer_index vs in
    if i =? INVALID_INDEX then Some InvalidSignerIndex
    else if n <=? i then Some SignerOutOfRange
    else if bool_decide (i ∈ seen) then Some DuplicateSigner
    else checkSigners n (i :: seen) sigs
  end.

(** The second loop: each signature under the signer's key at the height. *)
Fixpoint checkSignatures (signing_hash : Hash) (height : N) (active_set : list N) (st : State)
    (sigs : list ValidatorSignature.t) : Check :=
  match sigs with
  | [] => None
  | vs :: sigs =>
    let vid := nth (N.to_nat (ValidatorSignature.signer_index vs)) active_set 0 in
    match getValidator vid st with
    | None => Some UnknownSigner
    | Some _ =>
      match validatorKeyAtHeight vid height st with
      | None => Some NoConsensusKey
      | Some pk =>
        if negb (ed25519_verify signing_hash pk (ValidatorSignature.signature vs))
        then Some InvalidSignature
        else checkSignatures signing_hash height active_set st sigs
      end
    end
  end.

Definition checkQuorum (st : State) (block : Block.t) (active_set : list N) : Check :=
  let h := Block.header block in
  let sigs := Block.quorum_signatures block in
  let n := N.of_nat (length active_set) in
  andThen (failIf (N.of_nat (length sigs) <? bftQuorum n) InsufficientSignatures)
  (andThen (checkSigners n [] sigs)
    (checkSignatures
       (voteSigningHash (BlockHeader.height h) (BlockHeader.commit_round h) false (Block.hash block))
       (BlockHeader.height h) active_set st sigs)).

Definition checkValidatorSetRoot `{StdSort} (block : Block.t) (active_set : list N) : Check :=
  failIf (negb (computeValidatorSetRoot active_set =? BlockHeader.validator_set_root (Block.header block)))
    ValidatorSetRootMismatch.

(** ** Commitments to receipts and epoch fills *)

Definition fillLeafInput (f : Fill.t) : bytes := ascii_bytes "efil" ++ FillCodec.serializeState f.

Definition computeEpochFillsRoot (fills : list Fill.t) : Hash :=
  match fills with
  | [] => 0
  | _ => computeMerkleRoot (map (fun f => blake2b (fillLeafInput f)) fills)
  end.

Definition receiptLeafInput (tx_hash : Hash) (r : Receipt.t) : bytes :=
  ascii_bytes "rcpt" ++ be_split 32 tx_hash ++ ReceiptCodec.serializeState r.

Definition computeReceiptsRoot (tx_hashes : list Hash) (receipts : list Receipt.t) : Hash :=
  computeMerkleRoot (zip_with (fun th r => blake2b (receiptLeafInput th r)) tx_hashes receipts).

Definition verifyReceiptsRoot (tx_hashes : list Hash) (receipts : list Receipt.t) (expected : Hash)
    : Check :=
  andThen (failIf (negb (length tx_hashes =? length receipts)%nat) ReceiptCountMismatch)
    (failIf (negb (computeReceiptsRoot tx_hashes receipts =? expected)) ReceiptsRootMismatch).

Definition verifyEpochFillsRoot (epoch_fills : list Fill.t) (expected : Hash) : Check :=
  failIf (negb (computeEpochFillsRoot epoch_fills =? expected)) EpochFillsRootMismatch.
End checks.

(** ** Transactions *)

Section application.
Context `{Crypto}.

Definition applySlash (tx : Transaction.t) (current_height : N) (st : State) : option State :=
  vid ← verifyEquivocationProof (Transaction.payload tx) [] st;
  Some (executeSystemSlash vid current_height st).

(** One transaction of the loop: the receipt, or the error at its index. *)
Definition applyTransaction (ctx : BlockContext.t) (i : N) (tx : Transaction.t) (st : State)
    : (BlockError + Receipt.t) * State :=
  let height := BlockContext.current_height ctx in
  if TxType.isSystemTx (Transaction.tx_type tx) then
    let ok := Receipt.mk ReceiptStatus.Success 0 [] in
    if bool_decide (Transaction.tx_type tx = TxType.Slash) then
      match applySlash tx height st with
      | None => (inl (SlashFailed i), st)
      | Some st => (inr ok, st)
      end
    else (inr ok, st)
  else if negb (Transaction.isWellFormed tx) then (inl (MalformedTransaction i), st)
  else
    match execute tx (Ctx.mk height (BlockContext.chain_id ctx) i) st with
    | (Ok r, st) =>
      if bool_decide (Receipt.status r = ReceiptStatus.Success) then (inr r, st)
      else (inl (TransactionFailed i), st)
    | (_, st) => (inl (ExecutionCrash i), st)
    end.

(** The loop, from index [i]; it stops at the first failure. *)
Fixpoint applyTransactionsFrom (ctx : BlockContext.t) (i : N) (txs : list Transaction.t) (st : State)
    : (BlockError + list (Hash * Receipt.t)) * State :=
  match txs with
  | [] => (inr [], st)
  | tx :: txs =>
    match applyTransaction ctx i tx st with
    | (inl e, st) => (inl e, st)
    | (inr r, st) =>
      match applyTransactionsFrom ctx (i + 1) txs st with
      | (inl e, st) => (inl e, st)
      | (inr rs, st) => (inr ((TransactionCodec.signingHash tx, r) :: rs), st)
      end
    end
  end.

Definition applyTransactions (ctx : BlockContext.t) (block : Block.t) (st : State)
    : (BlockError + list (Hash * Receipt.t)) * State :=
  applyTransactionsFrom ctx 0 (Block.transactions block) st.
End application.

(** ** Membership *)

(** [getValidator], a change, [putValidator]; an unknown id is skipped. *)
Definition alterValidator (f : ValidatorInfo.t -> ValidatorInfo.t) (st : State) (vid : N) : State :=
  match getValidator vid st with
  | None => st
  | Some v => putValidator (f v) st
  end.

(** An emergency set takes over from the committed one. *)
Definition adoptActiveSet (committed_set active_set : list N) (current_height : N) (st : State) : State :=
  let st := foldl (alterValidator (fun v => v <| ValidatorInfo.is_active := false |>
                                              <| ValidatorInfo.last_active_at := current_height |>))
              st (filter (fun vid => vid ∉ active_set) committed_set) in
  let st := foldl (alterValidator (fun v => v <| ValidatorInfo.is_active := true |>
                                              <| ValidatorInfo.became_active_at := current_height |>))
              st (filter (fun vid => vid ∉ committed_set) active_set) in
  saveActiveSet active_set st.

Definition markParticipants (participants : list N) (current_height : N) (st : State) : State :=
  foldl (alterValidator (fun v => v <| ValidatorInfo.last_seen_height := current_height |>)) st participants.

Definition countProducedBlock (header : BlockHeader.t) (st : State) : State :=
  if 0 <? BlockHeader.height header then
    match getValidatorByAddress (BlockHeader.proposer header) st with
    | None => st
    | Some producer_id =>
      alterValidator (fun v => v <| ValidatorInfo.total_blocks_produced :=
                                   ValidatorInfo.total_blocks_produced v +64 1 |>) st producer_id
    end
  else st.

(** The registry written back: every real record, then the active set. *)
Definition saveRegistry (r : ValidatorRegistry) (st : State) : State :=
  let st := foldl (fun st v => if ValidatorInfo.id v =? INVALID_ID then st else putValidator v st)
              st (rg_validators r) in
  saveActiveSet (rg_active_set r) st.

Section membership.
Context `{StdSort}.

(** A registry of the active members only, behind a placeholder. *)
Definition activeRegistry (active_set : list N) (st : State) : ValidatorRegistry :=
  mkRegistry (ValidatorInfo.fresh :: omap (fun vid => getValidator vid st) active_set)
    active_set 0 ACTIVE_SET_DEFAULT.

Definition runOfflineCheck (current_height : N) (st : State) : State :=
  match loadActiveSet st with
  | [] => st
  | active_set =>
    let registry := activeRegistry active_set st in
    let plan := planOfflineRemoval registry current_height in
    if bool_decide (removed plan = []) && bool_decide (promoted plan = []) then st
    else saveRegistry (applyOfflineRemoval registry plan current_height) st
  end.

(** [while (validators.size() <= id) push_back({}); validators[id] = v] *)
Definition placeAt (id : N) (v : ValidatorInfo.t) (vs : list ValidatorInfo.t) : list ValidatorInfo.t :=
  let i := N.to_nat id in
  <[i := v]> (vs ++ replicate (S i - length vs) ValidatorInfo.fresh).

(** Every validator by its id, from 1 to the next free one. *)
Definition fullRegistry (active_set : list N) (st : State) : ValidatorRegistry :=
  let readOr name dflt :=
    match getGlobal name st with
    | Some b => if (length b =? 8)%nat then le_combine b else dflt
    | None => dflt
    end in
  let next_validator_id := readOr "next_validator_id"%string 1 in
  let validators := foldl (fun vs id =>
      match getValidator id st with Some v => placeAt id v vs | None => vs end)
    [ValidatorInfo.fresh] (map N.of_nat (seq 1 (N.to_nat next_validator_id - 1))) in
  mkRegistry validators active_set (readOr "last_rotation_height"%string 0)
    (readOr "active_set_size"%string ACTIVE_SET_DEFAULT).

Definition processRotation (block : Block.t) (current_height : N) (st : State) : State :=
  match loadActiveSet st with
  | [] => st
  | active_set =>
    let registry := fullRegistry active_set st in
    let avg_tx_per_block := N.of_nat (length (Block.transactions block)) in
    let plan := planRotation registry avg_tx_per_block in
    if bool_decide (to_remove plan = []) && bool_decide (to_add plan = []) &&
       (new_target_size plan =? rg_target_size registry) then st
    else
      let st := saveRegistry (applyRotation registry plan current_height) st in
      let st := putGlobalU64 "active_set_size" (new_target_size plan) st in
      putGlobalU64 "last_rotation_height" current_height st
  end.
End membership.

(** ** A block *)

Section block.
Context `{Crypto} `{StdSort} (stateRoot : State -> Hash).

(** The checks before the first write, ending with the active set. *)
Definition checkBlock (block : Block.t) (ctx : BlockContext.t) (now_ms : N) (st : State)
    : BlockError + list N :=
  let h := Block.header block in
  let committed_set := loadActiveSet st in
  let is_emergency := 0 <? BlockHeader.emergency_rotation h in
  let active_set := if is_emergency
                    then resolveActiveSet st committed_set (BlockContext.current_height ctx) true
                    else committed_set in
  let checks :=
    andThen (checkHeader block ctx now_ms)
    (andThen (checkTxRoot block)
    (andThen (if is_emergency
              then checkTimeoutCertificate st block committed_set (BlockContext.current_height ctx)
              else None)
    (andThen (failIf (negb (N.of_nat (length active_set) =? BlockHeader.active_validator_count h))
                ActiveCountMismatch)
    (andThen (if BlockContext.dry_run ctx then None else checkQuorum st block active_set)
      (checkValidatorSetRoot block active_set))))) in
  match checks with Some e => inl e | None => inr active_set end.

(** Between the transactions and the rewards. *)
Definition membershipStep (block : Block.t) (ctx : BlockContext.t) (committed_set active_set : list N)
    (st : State) : State :=
  let height := BlockContext.current_height ctx in
  let is_emergency := 0 <? BlockHeader.emergency_rotation (Block.header block) in
  let st := if is_emergency && negb (bool_decide (active_set = committed_set))
            then adoptActiveSet committed_set active_set height st else st in
  let st := markParticipants (Block.participants block) height st in
  if (height +64 1) mod OFFLINE_CHECK_INTERVAL =? 0 then runOfflineCheck height st else st.

Definition isEpochBoundary (height : N) : bool := (height +64 1) mod ROTATION_INTERVAL =? 0.

(** Rewards, counters, indexes, epoch boundary and rotation. *)
Definition settleBlock (block : Block.t) (ctx : BlockContext.t) (bs : BlockStore) : BlockStore :=
  let height := BlockContext.current_height ctx in
  let bs := distributeRewards block bs in
  let bs := onStore (countProducedBlock (Block.header block)) bs in
  let bs := onStore (updateGlobalState height) bs in
  let bs := if BlockContext.dry_run ctx then bs
            else indexTransactions block height (indexBlockProducer block (bumpLifetimeCounters block bs)) in
  if isEpochBoundary height then onStore (processRotation block height) (processEpochBoundary height bs)
  else bs.

(** Expiries and conditions, then the settlement. *)
Definition closingSteps (block : Block.t) (ctx : BlockContext.t) (bs : BlockStore)
    : list Fill.t * BlockStore :=
  let height := BlockContext.current_height ctx in
  let bs := onStore (processOrderExpiries height) bs in
  let bs := onStore (processUnbondExpiries height) bs in
  let '(epoch_fills, bs) :=
    if isEpochBoundary height then
      let '(fills, st) := evaluateOrderConditions height [] (store bs) in (fills, bs <| store := st |>)
    else ([], bs) in
  (epoch_fills, settleBlock block ctx bs).

(** The commitments of the header against what was computed. *)
Definition checkCommitments (block : Block.t) (ctx : BlockContext.t) (r : BlockResult) : Check :=
  let h := Block.header block in
  let dry_run := BlockContext.dry_run ctx in
  andThen (failIf (negb (dry_run || isNull (BlockHeader.state_root h)) &&
                   negb (BlockHeader.state_root h =? new_state_root r)) StateRootMismatch)
  (andThen (if isNull (BlockHeader.receipts_root h) then None
            else verifyReceiptsRoot (tx_hashes r) (receipts r) (BlockHeader.receipts_root h))
  (if dry_run then None
   else if negb (isNull (BlockHeader.epoch_fills_root h))
   then verifyEpochFillsRoot (epoch_fills r) (BlockHeader.epoch_fills_root h)
   else failIf (negb (bool_decide (epoch_fills r = []))) EpochFillsUncommitted)).

Definition applyBlock (block : Block.t) (ctx : BlockContext.t) (now_ms : N) (bs : BlockStore)
    : (BlockError + BlockResult) * BlockStore :=
  match checkBlock block ctx now_ms (store bs) with
  | inl e => (inl e, bs)
  | inr active_set =>
    let committed_set := loadActiveSet (store bs) in
    match applyTransactions ctx block (store bs) with
    | (inl e, st) => (inl e, bs <| store := st |>)
    | (inr rs, st) =>
      let bs := bs <| store := membershipStep block ctx committed_set active_set st |> in
      let '(fills, bs) := closingSteps block ctx bs in
      let result := mkBlockResult (stateRoot (store bs)) (map snd rs) (map fst rs) (Block.hash block) fills in
      match checkCommitments block ctx result with
      | Some e => (inl e, bs)
      | None => (inr result, bs)
      end
    end
  end.
End block.
