(* ===== verification/Invariants.v ===== *)
(** * Store invariants

    [Stable] is what the accounting layer promises the handlers: an invariant
    over the accounts, the staker index and the counters that survives every
    kind of write a handler makes.  Every handler preserves every stable
    invariant; the instances are the nonce table and the staking totals. *)

From S2P Require Import Prelude Types OrderBook StateAccess Ledger Amm Codec Matching.
From S2P Require Import BlockOrders ExecBase ExecAccounts ExecAmm ExecOrders ExecNft Executor.

(** The tables the account layer owns. *)
Definition core (st : State) : N * gmap Address Account.t * gset Address * gmap string bytes :=
  (version st, accounts st, idx_stakers st, globals st).

(** A record a handler may store for an account: the nonce is that of the
    stored one, and the balance fits its type or is unchanged. *)
Definition admissible (old new : Account.t) : Prop :=
  Account.nonce new = Account.nonce old /\
  (Account.balance new < w64 \/ Account.balance new = Account.balance old).

Class Stable (I : State -> Prop) : Prop := {
  stable_frame st st' : core st' = core st -> I st -> I st';
  stable_account a acct st :
    admissible (getAccount a st) acct -> I st -> I (putAccount a acct st);
  stable_global name v st :
    name <> "total_staked" -> name <> "staker_count" -> I st -> I (putGlobal name v st);
}.

(** ** Writes outside the account layer *)

Lemma core_putToken a st : core (putToken a st) = core st.
Proof. done. Qed.
Lemma core_putValidator a st : core (putValidator a st) = core st.
Proof. done. Qed.
Lemma core_deleteValidator a st : core (deleteValidator a st) = core st.
Proof. done. Qed.
Lemma core_putValidatorByAddress a b st : core (putValidatorByAddress a b st) = core st.
Proof. done. Qed.
Lemma core_deleteValidatorByAddress a st : core (deleteValidatorByAddress a st) = core st.
Proof. done. Qed.
Lemma core_putNft a st : core (putNft a st) = core st.
Proof. done. Qed.
Lemma core_unindexNft a st : core (unindexNft a st) = core st.
Proof. done. Qed.
Lemma core_putNftCollection a st : core (putNftCollection a st) = core st.
Proof. done. Qed.
Lemma core_putOrder a st : core (putOrder a st) = core st.
Proof. done. Qed.
Lemma core_deleteOrder a st : core (deleteOrder a st) = core st.
Proof. done. Qed.
Lemma core_putAmmPool a st : core (putAmmPool a st) = core st.
Proof. done. Qed.
Lemma core_deleteAmmPool a st : core (deleteAmmPool a st) = core st.
Proof. done. Qed.
Lemma core_putAmmPosition a st : core (putAmmPosition a st) = core st.
Proof. done. Qed.
Lemma core_putPositionIndex a b c st : core (putPositionIndex a b c st) = core st.
Proof. done. Qed.
Lemma core_deletePositionIndex a b st : core (deletePositionIndex a b st) = core st.
Proof. done. Qed.
Lemma core_clearOrderExpiry a st : core (clearOrderExpiry a st) = core st.
Proof. done. Qed.
Lemma core_putTokenBalance a k b st : core (putTokenBalance a k b st) = core st.
Proof. unfold putTokenBalance. by case_match. Qed.
Lemma core_putTokenSupply k s st : core (putTokenSupply k s st) = core st.
Proof. unfold putTokenSupply. by case_match. Qed.
Lemma core_putValidatorKeyHistory v h st : core (putValidatorKeyHistory v h st) = core st.
Proof. unfold putValidatorKeyHistory. by case_match. Qed.
Lemma core_deleteNft i st : core (deleteNft i st) = core st.
Proof. unfold deleteNft. by case_match. Qed.
Lemma core_addOrderExpiry h i st : core (addOrderExpiry h i st) = core st.
Proof. unfold addOrderExpiry. by case_match. Qed.
Lemma core_removeOrderExpiry h i st : core (removeOrderExpiry h i st) = core st.
Proof. unfold removeOrderExpiry. repeat case_match; done. Qed.

Section core_book.
Context `{Crypto}.
Lemma core_indexFill f h i j st : core (indexFill f h i j st) = core st.
Proof. done. Qed.
Lemma core_addToOrderBook o s st : core (addToOrderBook o s st) = core st.
Proof. unfold addToOrderBook. repeat case_match; done. Qed.
Lemma core_removeFromOrderBook o st : core (removeFromOrderBook o st) = core st.
Proof. unfold removeFromOrderBook. repeat case_match; done. Qed.
Lemma core_deleteRestingOrder o st : core (deleteRestingOrder o st) = core st.
Proof.
  unfold deleteRestingOrder. case_match; [done|].
  change (core (deleteOrder ?i ?s)) with (core s).
  case_match; rewrite ?core_removeOrderExpiry; apply core_removeFromOrderBook.
Qed.
End core_book.

Lemma nonce_recalculate thr a :
  Account.nonce (Account.recalculateStaked thr a) = Account.nonce a.
Proof. unfold Account.recalculateStaked. by case_match. Qed.
Lemma balance_recalculate thr a :
  Account.balance (Account.recalculateStaked thr a) = Account.balance a.
Proof. unfold Account.recalculateStaked. by case_match. Qed.

Ltac solve_admissible :=
  split; rewrite ?nonce_recalculate, ?balance_recalculate; cbn;
  [ reflexivity
  | first [ right; reflexivity | left; solve [auto with words] ] ].

(** Peel the writes off a state, outermost first. *)
Ltac core_write :=
  lazymatch goal with
  | |- core (putToken _ _) = _ => apply core_putToken
  | |- core (putValidator _ _) = _ => apply core_putValidator
  | |- core (deleteValidator _ _) = _ => apply core_deleteValidator
  | |- core (putValidatorByAddress _ _ _) = _ => apply core_putValidatorByAddress
  | |- core (deleteValidatorByAddress _ _) = _ => apply core_deleteValidatorByAddress
  | |- core (putNft _ _) = _ => apply core_putNft
  | |- core (unindexNft _ _) = _ => apply core_unindexNft
  | |- core (putNftCollection _ _) = _ => apply core_putNftCollection
  | |- core (putOrder _ _) = _ => apply core_putOrder
  | |- core (deleteOrder _ _) = _ => apply core_deleteOrder
  | |- core (putAmmPool _ _) = _ => apply core_putAmmPool
  | |- core (deleteAmmPool _ _) = _ => apply core_deleteAmmPool
  | |- core (putAmmPosition _ _) = _ => apply core_putAmmPosition
  | |- core (putPositionIndex _ _ _ _) = _ => apply core_putPositionIndex
  | |- core (deletePositionIndex _ _ _) = _ => apply core_deletePositionIndex
  | |- core (clearOrderExpiry _ _) = _ => apply core_clearOrderExpiry
  | |- core (putTokenBalance _ _ _ _) = _ => apply core_putTokenBalance
  | |- core (putTokenSupply _ _ _) = _ => apply core_putTokenSupply
  | |- core (putValidatorKeyHistory _ _ _) = _ => apply core_putValidatorKeyHistory
  | |- core (deleteNft _ _) = _ => apply core_deleteNft
  | |- core (addOrderExpiry _ _ _) = _ => apply core_addOrderExpiry
  | |- core (removeOrderExpiry _ _ _) = _ => apply core_removeOrderExpiry
  | |- core (addToOrderBook _ _ _) = _ => apply core_addToOrderBook
  | |- core (removeFromOrderBook _ _) = _ => apply core_removeFromOrderBook
  | |- core (deleteRestingOrder _ _) = _ => apply core_deleteRestingOrder
  | |- core (indexFill _ _ _ _ _) = _ => apply core_indexFill
  end.

Ltac solve_stable :=
  repeat first
    [ match goal with |- _ ?s => is_var s; assumption end
    | lazymatch goal with
      | |- ?I (putAccount _ _ _) => apply stable_account; [solve [solve_admissible]|]
      | |- ?I (putGlobal _ _ _) => apply stable_global; [discriminate|discriminate|]
      end
    | eapply stable_frame; [core_write|]
    | assumption ].

Section stable.
Context (I : State -> Prop) `{!Stable I}.

Lemma stable_subTokens a k x st : I st -> I (subTokens a k x st).
Proof. intros HI. unfold subTokens. case_match; solve_stable. Qed.
Lemma stable_addTokens a k x st : I st -> I (addTokens a k x st).
Proof. intros HI. unfold addTokens. case_match; solve_stable. Qed.
Lemma stable_creditToken a k x st : I st -> I (creditToken a k x st).
Proof. intros HI. unfold creditToken. case_match; [done|by apply stable_addTokens]. Qed.
Lemma stable_credit a k x st : I st -> I (credit a k x st).
Proof. intros HI. unfold credit. repeat case_match; [done|done|by apply stable_addTokens]. Qed.
Lemma stable_nextOrderSequence st : I st -> I (snd (nextOrderSequence st)).
Proof. intros HI. unfold nextOrderSequence, putGlobalU64. cbn. solve_stable. Qed.
End stable.

Ltac stable_ops :=
  repeat first
    [ match goal with
      | |- ?I (subTokens _ _ _ _) => apply (stable_subTokens I)
      | |- ?I (addTokens _ _ _ _) => apply (stable_addTokens I)
      | |- ?I (creditToken _ _ _ _) => apply (stable_creditToken I)
      | |- ?I (credit _ _ _ _) => apply (stable_credit I)
      | |- ?I (snd (nextOrderSequence _)) => apply (stable_nextOrderSequence I)
      end
    | progress solve_stable ].

Section stable_book.
Context (I : State -> Prop) `{!Stable I} `{Crypto}.

Lemma stable_refundOrder o fee st : I st -> I (refundOrder o fee st).
Proof. intros HI. unfold refundOrder. repeat case_match; stable_ops. Qed.

Lemma stable_settleFill taker maker x y st : I st -> I (settleFill taker maker x y st).
Proof. intros HI. unfold settleFill. case_match; stable_ops. Qed.

Lemma stable_matchStep frame h i lim side acc c acc' :
  matchStep frame h i lim side acc c = Some acc' -> I (ma_state acc) -> I (ma_state acc').
Proof.
  unfold matchStep, cancelSelfTrade, executeFill. intros E HI.
  repeat case_match; simplify_eq; cbn; stable_ops;
    first [by apply stable_refundOrder | by apply stable_settleFill].
Qed.

Lemma stable_matchLoop frame h i lim side cs acc :
  I (ma_state acc) -> I (ma_state (matchLoop frame h i lim side acc cs)).
Proof.
  revert acc. induction cs as [|c cs IH]; intros acc HI; [done|]. cbn.
  destruct (matchStep _ _ _ _ _ acc c) eqn:E; [|done]. apply IH. by eapply stable_matchStep.
Qed.

Lemma stable_matchPassiveOrder taker h i st : I st -> I (snd (matchPassiveOrder taker h i st)).
Proof.
  intros HI. unfold matchPassiveOrder, restTaker, nextOrderSequence, putGlobalU64.
  repeat case_match; simplify_eq; cbn; try done; stable_ops; by apply stable_matchLoop.
Qed.

Lemma stable_executeActiveOrder o h i fs st : I st -> I (snd (executeActiveOrder o h i fs st)).
Proof.
  intros HI. unfold executeActiveOrder, applyRoute. repeat case_match; simplify_eq; cbn; stable_ops.
Qed.
End stable_book.

(** Helper handlers that symbolic execution enters. *)
#[export] Hint Unfold debitToken mintPosition creditPosition removalShares checkPoolPayload
  parseTokenPayload checkRoutable readField8 readField16 parseMetadata fetchCollection storeNft
  settleRewards success : exec.

Ltac solve_handler_stable :=
  apply preserves_wp; intros st HI; wp_run;
  unfold writeU64GlobalInternal, putGlobalU64, saveActiveSet; stable_ops.

Section handlers.
Context (I : State -> Prop) `{!Stable I} `{Crypto}.

Lemma stable_executeTransfer tx ctx : preserves I (executeTransfer tx ctx).
Proof. unfold executeTransfer. solve_handler_stable. Qed.
Lemma stable_executeOptInStaking tx ctx : preserves I (executeOptInStaking tx ctx).
Proof. unfold executeOptInStaking. solve_handler_stable. Qed.
Lemma stable_executeOptOutStaking tx ctx : preserves I (executeOptOutStaking tx ctx).
Proof. unfold executeOptOutStaking. solve_handler_stable. Qed.
Lemma stable_executeClaimRewards tx ctx : preserves I (executeClaimRewards tx ctx).
Proof. unfold executeClaimRewards. solve_handler_stable. Qed.
Lemma stable_executeRegisterValidator tx ctx : preserves I (executeRegisterValidator tx ctx).
Proof. unfold executeRegisterValidator. solve_handler_stable. Qed.
Lemma stable_executeUnregisterValidator tx ctx : preserves I (executeUnregisterValidator tx ctx).
Proof. unfold executeUnregisterValidator. solve_handler_stable. Qed.
Lemma stable_executeUpdateRewardAddress tx ctx : preserves I (executeUpdateRewardAddress tx ctx).
Proof. unfold executeUpdateRewardAddress. solve_handler_stable. Qed.
Lemma stable_executeRotateConsensusKey tx ctx : preserves I (executeRotateConsensusKey tx ctx).
Proof. unfold executeRotateConsensusKey. solve_handler_stable. Qed.
Lemma stable_executeCreateToken tx ctx : preserves I (executeCreateToken tx ctx).
Proof. unfold executeCreateToken. solve_handler_stable. Qed.
Lemma stable_executeMintToken tx ctx : preserves I (executeMintToken tx ctx).
Proof. unfold executeMintToken. solve_handler_stable. Qed.
Lemma stable_executeBurnToken tx ctx : preserves I (executeBurnToken tx ctx).
Proof. unfold executeBurnToken. solve_handler_stable. Qed.
Lemma stable_executeUpdateTokenMeta tx ctx : preserves I (executeUpdateTokenMeta tx ctx).
Proof. unfold executeUpdateTokenMeta. solve_handler_stable. Qed.
Lemma stable_executeCreatePool tx ctx : preserves I (executeCreatePool tx ctx).
Proof. unfold executeCreatePool. solve_handler_stable. Qed.
Lemma stable_executeAddLiquidity tx ctx : preserves I (executeAddLiquidity tx ctx).
Proof. unfold executeAddLiquidity. solve_handler_stable. Qed.
Lemma stable_executeRemoveLiquidity tx ctx : preserves I (executeRemoveLiquidity tx ctx).
Proof. unfold executeRemoveLiquidity. solve_handler_stable. Qed.
Lemma stable_executeSwap tx ctx : preserves I (executeSwap tx ctx).
Proof. unfold executeSwap. solve_handler_stable. Qed.
Lemma stable_executeCancelOrder tx ctx : preserves I (executeCancelOrder tx ctx).
Proof. unfold executeCancelOrder. solve_handler_stable. Qed.
Lemma stable_executeCreateNftCollection tx ctx : preserves I (executeCreateNftCollection tx ctx).
Proof. unfold executeCreateNftCollection. solve_handler_stable. Qed.
Lemma stable_executeMintNft tx ctx : preserves I (executeMintNft tx ctx).
Proof. unfold executeMintNft. solve_handler_stable. Qed.
Lemma stable_executeWrapNft tx ctx : preserves I (executeWrapNft tx ctx).
Proof. unfold executeWrapNft. solve_handler_stable. Qed.
Lemma stable_executeTransferNft tx ctx : preserves I (executeTransferNft tx ctx).
Proof. unfold executeTransferNft. solve_handler_stable. Qed.
Lemma stable_executeBurnNft tx ctx : preserves I (executeBurnNft tx ctx).
Proof. unfold executeBurnNft. solve_handler_stable. Qed.
Lemma stable_executeUpdateNftMetadata tx ctx : preserves I (executeUpdateNftMetadata tx ctx).
Proof. unfold executeUpdateNftMetadata. solve_handler_stable. Qed.
Lemma stable_executeTopUpNft tx ctx : preserves I (executeTopUpNft tx ctx).
Proof. unfold executeTopUpNft. solve_handler_stable. Qed.
Lemma stable_executeRefillCollectionReward tx ctx : preserves I (executeRefillCollectionReward tx ctx).
Proof. unfold executeRefillCollectionReward. solve_handler_stable. Qed.

Lemma stable_runOrder order ctx : preserves I (runOrder order ctx).
Proof.
  apply preserves_wp. intros st HI. unfold runOrder. wp_run; try done.
  1: pose proof (stable_matchPassiveOrder I order (Ctx.current_height ctx)
       (Ctx.tx_index_in_block ctx) st HI) as Hm.
  2-4: pose proof (stable_executeActiveOrder I order (Ctx.current_height ctx)
       (Ctx.tx_index_in_block ctx) [] st HI) as Hm.
  all: by repeat case_match.
Qed.

Lemma stable_executeCreateOrder tx ctx : preserves I (executeCreateOrder tx ctx).
Proof.
  unfold executeCreateOrder, checkRoutable.
  repeat (cbv zeta; lazymatch goal with
    | |- preserves _ (runOrder _ _) => apply stable_runOrder
    | |- preserves _ (_ ≫= _) => apply preserves_bind; [|intros ?]
    | |- preserves _ (modify _) => apply preserves_modify; intros; stable_ops
    | |- preserves _ (if ?b then _ else _) => destruct b
    | |- preserves _ _ => apply preserves_readonly; solve [solve_readonly]
    end).
Qed.

Lemma claimOne_core h nfts acc : core (snd (foldl (claimOne h) acc nfts)) = core (snd acc).
Proof.
  revert acc. induction nfts as [|n nfts IH]; intros acc; [done|]. cbn [foldl]. rewrite IH.
  destruct acc as [total st]. unfold claimOne. by repeat case_match.
Qed.

Lemma stable_executeClaimNftReward tx ctx : preserves I (executeClaimNftReward tx ctx).
Proof.
  apply preserves_wp. intros st HI. unfold executeClaimNftReward. wp_run; try done.
  all: set (acc := foldl _ _ _).
  all: assert (Hc : core (snd acc) = core st) by apply claimOne_core.
  all: assert (I (snd acc)) by (by apply (stable_frame st)).
  - apply stable_account; [|done]. split; [|right]; cbn; unfold getAccount;
      by injection Hc as _ ->.
  - done.
Qed.

(** Every handler preserves every stable invariant. *)
Lemma stable_dispatch ty h tx ctx : dispatch ty = Some h -> preserves I (h tx ctx).
Proof.
  destruct ty; intros [= <-];
    [ apply stable_executeTransfer | apply stable_executeOptInStaking |
    apply stable_executeOptOutStaking | apply stable_executeClaimRewards |
    apply stable_executeRegisterValidator | apply stable_executeUnregisterValidator |
    apply stable_executeUpdateRewardAddress | apply stable_executeRotateConsensusKey |
    apply stable_executeCreatePool | apply stable_executeAddLiquidity |
    apply stable_executeRemoveLiquidity | apply stable_executeSwap |
    apply stable_executeCreateOrder | apply stable_executeCancelOrder |
    apply stable_executeCreateNftCollection | apply stable_executeMintNft |
    apply stable_executeWrapNft | apply stable_executeTransferNft | apply stable_executeBurnNft |
    apply stable_executeUpdateNftMetadata | apply stable_executeTopUpNft |
    apply stable_executeClaimNftReward | apply stable_executeRefillCollectionReward |
    apply stable_executeCreateToken | apply stable_executeMintToken |
    apply stable_executeBurnToken | apply stable_executeUpdateTokenMeta ].
Qed.
End handlers.

(** ** Block-level order and validator steps *)

Section block_steps.
Context (I : State -> Prop) `{!Stable I} `{Crypto}.

Lemma stable_foldl {A} (f : State -> A -> State) l st :
  (forall st x, I st -> I (f st x)) -> I st -> I (foldl f st l).
Proof. intros Hf. revert st. induction l as [|x l IH]; intros st HI; [done|]. apply IH. auto. Qed.

Lemma stable_processOrderExpiries h st : I st -> I (processOrderExpiries h st).
Proof.
  intros HI. unfold processOrderExpiries. case_match; [done|].
  eapply stable_frame; [apply core_clearOrderExpiry|]. apply stable_foldl; [|done].
  intros st' i HI'. unfold expireOrder. repeat case_match; stable_ops.
Qed.

Lemma stable_cancelOrderByCondition i st : I st -> I (cancelOrderByCondition i st).
Proof. intros HI. unfold cancelOrderByCondition. repeat case_match; stable_ops. Qed.

Lemma stable_routeOrder h acc i : I (snd acc) -> I (snd (routeOrder h acc i)).
Proof.
  destruct acc as [fs st]. intros HI. cbn in HI. unfold routeOrder.
  destruct (getOrder i st) as [o|]; [|done].
  pose proof (stable_executeActiveOrder I o h (u32 i) fs st HI) as Hr.
  destruct (executeActiveOrder o h (u32 i) fs st) as [[[[] o'] fs'] st'] eqn:E; try done.
  by apply stable_cancelOrderByCondition.
Qed.

Lemma stable_evaluateOrderConditions h fs st : I st -> I (snd (evaluateOrderConditions h fs st)).
Proof.
  intros HI. unfold evaluateOrderConditions.
  assert (Hc : forall l, I (foldl (fun st i => cancelOrderByCondition i st) st l)).
  { intros l. apply stable_foldl; [|done]. intros. by apply stable_cancelOrderByCondition. }
  specialize (Hc (ordersToCancel h st)). revert Hc.
  generalize (foldl (fun st i => cancelOrderByCondition i st) st (ordersToCancel h st)) as st1.
  generalize fs as fs1. induction (ordersToRoute h st) as [|i l IH]; intros fs1 st1 Hc; [done|].
  cbn [foldl]. pose proof (stable_routeOrder h (fs1, st1) i Hc) as Hr.
  destruct (routeOrder h (fs1, st1) i) as [fs2 st2]. by apply IH.
Qed.

Lemma stable_processUnbondExpiries h st : I st -> I (processUnbondExpiries h st).
Proof.
  intros HI. unfold processUnbondExpiries. apply stable_foldl; [|done].
  intros st' i HI'. unfold releaseValidator. case_match; stable_ops.
Qed.
End block_steps.

(** ** Instance: the nonce table *)

Definition nonceOf (a : Address) (st : State) : N := Account.nonce (getAccount a st).

Definition NonceTable (f : Address -> N) (st : State) : Prop := forall a, nonceOf a st = f a.

Lemma nonceOf_putAccount a b acct st :
  nonceOf a (putAccount b acct st) = if a =? b then Account.nonce acct else nonceOf a st.
Proof.
  unfold nonceOf. rewrite getAccount_putAccount. destruct (a =? b); [|done].
  unfold accountToStore. cbn. apply nonce_recalculate.
Qed.

#[export] Instance NonceTable_stable f : Stable (NonceTable f).
Proof.
  split.
  - intros st st' Hc HI a. rewrite <-(HI a). unfold nonceOf, getAccount. by injection Hc as _ -> _ _.
  - intros b acct st [Hn _] HI a. rewrite nonceOf_putAccount.
    destruct (N.eqb_spec a b) as [->|_]; [|done]. rewrite Hn. apply HI.
  - intros name v st _ _ HI. exact HI.
Qed.

(** ** Instance: the staking totals *)

(** What a stored account's stake must be. *)
Definition stakeOf (a : Account.t) : N :=
  if Account.staking_opted_out a || (Account.balance a <? AUTO_STAKE_THRESHOLD) then 0
  else Account.balance a.

Record Staking (st : State) : Prop := {
  staking_accounts : forall a acct, accounts st !! a = Some acct ->
    Account.balance acct < w64 /\ Account.staked acct = stakeOf acct;
  staking_total :
    getGlobalU64 "total_staked" st = u64 (msum (fun _ x => Account.staked x) (accounts st));
  staking_index : forall a, a ∈ idx_stakers st <-> 0 < Account.staked (getAccount a st);
}.

Lemma getGlobal_put name n b st :
  getGlobal n (putGlobal name b st) = if bool_decide (n = name) then Some b else getGlobal n st.
Proof.
  unfold getGlobal, putGlobal. cbn. case_bool_decide as Hn.
  - subst. by rewrite lookup_insert_eq.
  - by rewrite lookup_insert_ne.
Qed.

Lemma getGlobalU64_put name n v st :
  v < w64 -> getGlobalU64 n (putGlobalU64 name v st) =
  if bool_decide (n = name) then v else getGlobalU64 n st.
Proof.
  intros Hv. unfold getGlobalU64, putGlobalU64. rewrite getGlobal_put.
  case_bool_decide; [|done]. rewrite length_le_split, le_combine_split. by apply N.mod_small.
Qed.

Lemma getGlobalU64_indexNative n a old copy st :
  getGlobalU64 n (indexNativeBalance a old copy st) = getGlobalU64 n st.
Proof. unfold indexNativeBalance. by repeat case_match. Qed.

Lemma staked_accountToStore v old acct :
  Account.staked (accountToStore v old acct) = stakeOf (accountToStore v old acct) /\
  Account.balance (accountToStore v old acct) = Account.balance acct.
Proof.
  unfold accountToStore, Account.recalculateStaked, stakeOf.
  destruct (Account.staking_opted_out acct || _) eqn:E; cbn; by rewrite E.
Qed.

Lemma stakeOf_le a : stakeOf a <= Account.balance a.
Proof. unfold stakeOf. case_match; lia. Qed.

Lemma getGlobalU64_lt n st : (forall b, getGlobal n st = Some b -> Forall wf_byte b) ->
  getGlobalU64 n st < w64.
Proof.
  intros Hw. unfold getGlobalU64. destruct (getGlobal n st) as [b|] eqn:E; [|lia].
  destruct (Nat.eqb_spec (length b) 8) as [Hl|]; [|lia].
  specialize (Hw b eq_refl). apply le_combine_lt in Hw. by rewrite Hl in Hw.
Qed.

(** The running total, modulo [2^64], follows the sum it stands for. *)
Lemma running_total total sum old new :
  total = u64 (sum + old) -> old < w64 -> new < w64 ->
  (if old <=? new then total +64 (new -64 old) else total -64 (old -64 new)) = u64 (sum + new).
Proof.
  intros -> Ho Hn. destruct (N.leb_spec old new).
  - rewrite sub64_id by done. unfold add64. rewrite u64_add_l. f_equal. lia.
  - rewrite (sub64_id old new) by lia. rewrite sub64_u64_l by lia. f_equal. lia.
Qed.

Lemma idx_stakers_indexNative a old copy st :
  idx_stakers (indexNativeBalance a old copy st) = idx_stakers st.
Proof. unfold indexNativeBalance. by repeat case_match. Qed.

Lemma maintainStakerCount_total a old copy st :
  getGlobalU64 "total_staked" (maintainStakerCount a old copy st) = getGlobalU64 "total_staked" st.
Proof.
  assert (Hne : forall v st, getGlobalU64 "total_staked" (putGlobalU64 "staker_count" v st) =
                             getGlobalU64 "total_staked" st).
  { intros v st'. unfold getGlobalU64, putGlobalU64. rewrite getGlobal_put. done. }
  unfold maintainStakerCount. repeat case_match; rewrite ?Hne; done.
Qed.

Lemma maintainStakerCount_index a old copy st :
  (a ∈ idx_stakers st <-> 0 < Account.staked old) ->
  forall b, b ∈ idx_stakers (maintainStakerCount a old copy st) <->
    (b = a /\ 0 < Account.staked copy) \/ (b <> a /\ b ∈ idx_stakers st).
Proof.
  intros Ha b. unfold maintainStakerCount.
  destruct (N.ltb_spec 0 (Account.staked copy)), (N.ltb_spec 0 (Account.staked old));
    cbn [andb negb].
  - destruct (decide (b = a)) as [->|]; naive_solver.
  - change (b ∈ {[a]} ∪ idx_stakers st <->
      (b = a /\ 0 < Account.staked copy) \/ (b <> a /\ b ∈ idx_stakers st)).
    rewrite elem_of_union, elem_of_singleton. destruct (decide (b = a)); naive_solver.
  - change (b ∈ idx_stakers st ∖ {[a]} <->
      (b = a /\ 0 < Account.staked copy) \/ (b <> a /\ b ∈ idx_stakers st)).
    rewrite elem_of_difference, elem_of_singleton. naive_solver lia.
  - destruct (decide (b = a)) as [->|]; [|naive_solver]. rewrite Ha.
    split; [lia|]. intros [[_ ?]|[? _]]; [lia|done].
Qed.

Lemma maintainTotalStaked_total a old copy st sum :
  getGlobalU64 "total_staked" st = u64 (sum + Account.staked old) ->
  Account.staked old < w64 -> Account.staked copy < w64 ->
  getGlobalU64 "total_staked" (maintainTotalStaked old copy (indexNativeBalance a old copy st)) =
  u64 (sum + Account.staked copy).
Proof.
  intros Ht Ho Hc. unfold maintainTotalStaked.
  destruct (N.eqb_spec (Account.staked copy) (Account.staked old)) as [->|].
  { by rewrite getGlobalU64_indexNative. }
  cbv zeta. rewrite getGlobalU64_indexNative.
  rewrite getGlobalU64_put by (case_match; auto with words).
  by apply running_total.
Qed.

Lemma idx_stakers_maintainTotal old copy st :
  idx_stakers (maintainTotalStaked old copy st) = idx_stakers st.
Proof. unfold maintainTotalStaked. by case_match. Qed.

(** The account layer keeps the staking tables in step with any record whose
    balance fits. *)
Lemma Staking_putAccount a acct st :
  Account.balance acct < w64 \/ Account.balance acct = Account.balance (getAccount a st) ->
  Staking st -> Staking (putAccount a acct st).
Proof.
  intros Hb [Hacc Htot Hidx]. set (old := getAccount a st) in *.
  set (copy := accountToStore (version st) old acct).
  destruct (staked_accountToStore (version st) old acct) as [Hs Hbal]. fold copy in Hs, Hbal.
  assert (Ho : Account.balance old < w64 /\ Account.staked old <= Account.balance old).
  { unfold old, getAccount. destruct (accounts st !! a) as [x|] eqn:E; [|cbn; lia].
    destruct (Hacc a x E) as [? Hx]. cbn. rewrite Hx. split; [done|apply stakeOf_le]. }
  assert (Hc : Account.balance copy < w64) by (destruct Hb; lia).
  pose proof (stakeOf_le copy) as Hle. rewrite <-Hs in Hle.
  destruct (putAccount_tables a acct st) as [Ha _]. split.
  - intros b x. rewrite Ha, lookup_insert_Some. intros [[<- <-]|[_ Hx]]; [done|eauto].
  - rewrite Ha. unfold putAccount. rewrite maintainStakerCount_total.
    pose proof (msum_delete (fun _ x => Account.staked x) (accounts st) a) as Hd.
    rewrite <-insert_delete_eq, msum_insert_new by apply lookup_delete_eq.
    rewrite N.add_comm. apply maintainTotalStaked_total; fold old; [|lia|fold copy; lia].
    change (getGlobalU64 "total_staked" st = u64 (msum (fun _ x => Account.staked x)
      (delete a (accounts st)) + Account.staked old)).
    rewrite Htot, <-Hd. do 2 f_equal. unfold old, getAccount. by destruct (accounts st !! a).
  - intros b. unfold putAccount at 1. rewrite maintainStakerCount_index.
    2: { rewrite idx_stakers_maintainTotal, idx_stakers_indexNative. cbn. apply Hidx. }
    rewrite idx_stakers_maintainTotal, idx_stakers_indexNative. cbn [idx_stakers update].
    rewrite getAccount_putAccount. destruct (N.eqb_spec b a) as [->|Hne].
    + fold old copy. naive_solver.
    + rewrite <-Hidx. naive_solver.
Qed.

#[export] Instance Staking_stable : Stable Staking.
Proof.
  split.
  - intros st st' Hc [Ha Ht Hi]. injection Hc as _ Hac His Hg. split.
    + intros a x. rewrite Hac. apply Ha.
    + unfold getGlobalU64, getGlobal. rewrite Hg, Hac. exact Ht.
    + intros a. unfold getAccount. rewrite His, Hac. apply Hi.
  - intros a acct st [_ Hb]. by apply Staking_putAccount.
  - intros name v st H1 H2 [Ha Ht Hi]. split; [exact Ha| |exact Hi].
    unfold getGlobalU64. rewrite getGlobal_put, bool_decide_eq_false_2 by congruence. exact Ht.
Qed.
