(* ===== verification/ExecValue.v ===== *)
(** * No handler creates tokens

    For every handler that is not a mint, the ledger total of every token
    (Ledger.v) does not grow, whatever the outcome. *)

From S2P Require Import Prelude Types OrderBook StateAccess Ledger Amm Codec Matching.
From S2P Require Import BlockOrders ExecBase ExecAccounts ExecAmm ExecOrders ExecNft Executor.
From S2P Require Import Invariants.

(** ** Writes that carry no value *)

Section value_frames.
Context (t : N).
Lemma value_putGlobal n b st : value t (putGlobal n b st) = value t st.
Proof. done. Qed.
Lemma value_putToken x st : value t (putToken x st) = value t st.
Proof. done. Qed.
Lemma value_putTokenSupply k s st : value t (putTokenSupply k s st) = value t st.
Proof. unfold putTokenSupply. by case_match. Qed.
Lemma value_putValidator v st : value t (putValidator v st) = value t st.
Proof. done. Qed.
Lemma value_putValidatorByAddress a i st : value t (putValidatorByAddress a i st) = value t st.
Proof. done. Qed.
Lemma value_deleteValidatorByAddress a st : value t (deleteValidatorByAddress a st) = value t st.
Proof. done. Qed.
Lemma value_putValidatorKeyHistory i h st : value t (putValidatorKeyHistory i h st) = value t st.
Proof. unfold putValidatorKeyHistory. by case_match. Qed.
Lemma value_putNft n st : value t (putNft n st) = value t st.
Proof. done. Qed.
Lemma value_putNftCollection c st : value t (putNftCollection c st) = value t st.
Proof. done. Qed.
Lemma value_putAmmPosition p st : value t (putAmmPosition p st) = value t st.
Proof. done. Qed.
Lemma value_putPositionIndex a i j st : value t (putPositionIndex a i j st) = value t st.
Proof. done. Qed.
Lemma value_deletePositionIndex a i st : value t (deletePositionIndex a i st) = value t st.
Proof. done. Qed.
Lemma value_addOrderExpiry h i st : value t (addOrderExpiry h i st) = value t st.
Proof. unfold addOrderExpiry. by case_match. Qed.
Lemma value_removeOrderExpiry h i st : value t (removeOrderExpiry h i st) = value t st.
Proof. unfold removeOrderExpiry. by repeat case_match. Qed.
Context `{Crypto}.
Lemma value_indexFill f h i j st : value t (indexFill f h i j st) = value t st.
Proof. done. Qed.
Lemma value_addToOrderBook o s st : value t (addToOrderBook o s st) = value t st.
Proof. unfold addToOrderBook. by repeat case_match. Qed.
Lemma value_removeFromOrderBook o st : value t (removeFromOrderBook o st) = value t st.
Proof. unfold removeFromOrderBook. by repeat case_match. Qed.
End value_frames.

Create Rewrite HintDb value.
#[export] Hint Rewrite value_putGlobal value_putToken value_putTokenSupply value_putValidator
  value_putValidatorByAddress value_deleteValidatorByAddress value_putValidatorKeyHistory
  value_putNft value_putNftCollection value_putAmmPosition value_putPositionIndex
  value_deletePositionIndex value_addOrderExpiry value_removeOrderExpiry
  @value_indexFill @value_addToOrderBook @value_removeFromOrderBook : value.

Ltac frames :=
  unfold writeU64GlobalInternal, putGlobalU64, saveActiveSet; autorewrite with value.

(** [no_inflation m]: no outcome of [m] raises the total of any token. *)
Definition no_inflation {A} (m : Exec State A) : Prop :=
  forall t st, WellTyped st -> wp m (fun _ st' => value t st' <= value t st) st.

(** ** Accounts *)

(** An account rewrite that does not raise the account's worth. *)
Lemma value_putAccount_le t a acct st :
  worth acct <= worth (getAccount a st) -> value t (putAccount a acct st) <= value t st.
Proof.
  intros Hw. pose proof (value_putAccount t a acct st). apply (at_token_le t 0) in Hw. lia.
Qed.

(** An account whose balance alone changed. *)
Lemma value_putAccount_balance t a acct st x :
  worth acct <= worth (getAccount a st) + x ->
  value t (putAccount a acct st) <= value t st + at_token t 0 x.
Proof.
  intros Hw. pose proof (value_putAccount t a acct st). apply (at_token_le t 0) in Hw.
  rewrite at_token_add in Hw. lia.
Qed.

Lemma worth_recalculate thr a : worth (Account.recalculateStaked thr a) = worth a.
Proof. unfold Account.recalculateStaked, worth. by case_match. Qed.

Lemma no_inflation_chargeFee tx : no_inflation (chargeFee tx).
Proof.
  intros t st _. unfold chargeFee. wp_run; [|done].
  apply value_putAccount_le. unfold worth. cbn.
  match goal with E : (_ <=? _) = true |- _ => apply N.leb_le in E; pose proof (sub64_le _ _ E) end.
  lia.
Qed.

Lemma value_bumpNonce t tx st : value t (bumpNonce tx st) = value t st.
Proof.
  unfold bumpNonce. set (acct := getAccount _ st).
  pose proof (value_putAccount t (Transaction.from tx)
    (acct <| Account.nonce := Account.nonce acct +64 1 |>) st) as Hv. fold acct in Hv.
  change (worth (acct <| Account.nonce := Account.nonce acct +64 1 |>)) with (worth acct) in Hv. lia.
Qed.

(** A native or custom transfer: debit and credit of one amount. *)
Lemma no_inflation_Transfer tx ctx : no_inflation (executeTransfer tx ctx).
Proof.
  intros t st _. unfold executeTransfer. wp_run; try done.
  - match goal with E : (_ <=? Account.balance _) = true |- _ => apply N.leb_le in E;
      pose proof (sub64_le _ _ E) as Hs end.
    set (s := getAccount (Transaction.from tx) st) in *.
    set (st1 := putAccount _ _ st). set (r := getAccount (Transaction.to tx) st1).
    pose proof (value_putAccount t (Transaction.from tx)
      (s <| Account.balance := Account.balance s -64 Transaction.amount tx |>) st) as Hv1.
    fold s st1 in Hv1.
    assert (Hw : worth (s <| Account.balance := Account.balance s -64 Transaction.amount tx |>) +
                 Transaction.amount tx <= worth s) by (unfold worth; cbn; lia).
    apply (at_token_le t 0) in Hw. rewrite at_token_add in Hw.
    etrans; [apply value_putAccount_balance with (x := Transaction.amount tx)|lia].
    fold r. unfold worth; cbn. pose proof (add64_le (Account.balance r) (Transaction.amount tx)). lia.
  - match goal with E : (_ <=? getTokenBalance _ _ _) = true |- _ => apply N.leb_le in E;
      pose proof (sub64_le _ _ E) as Hs end.
    set (k := Transaction.token_id tx) in *. set (x := Transaction.amount tx) in *.
    set (b := getTokenBalance (Transaction.from tx) k st) in *.
    pose proof (value_putTokenBalance t (Transaction.from tx) k (b -64 x) st) as Hv1. fold b in Hv1.
    set (st1 := putTokenBalance _ _ _ st) in *. set (c := getTokenBalance (Transaction.to tx) k st1).
    pose proof (value_putTokenBalance t (Transaction.to tx) k (c +64 x) st1) as Hv2. fold c in Hv2.
    pose proof (add64_le c x). pose proof (u64_le (c +64 x)). pose proof (u64_le (b -64 x)).
    assert (Hw1 : u64 (b -64 x) + x <= b) by lia. assert (Hw2 : u64 (c +64 x) <= c + x) by lia.
    apply (at_token_le t (u32 k)) in Hw1, Hw2. rewrite at_token_add in Hw1, Hw2. lia.
Qed.

Lemma no_inflation_OptInStaking tx ctx : no_inflation (executeOptInStaking tx ctx).
Proof.
  intros t st _. unfold executeOptInStaking. wp_run.
  apply value_putAccount_le. by rewrite worth_recalculate.
Qed.

Lemma no_inflation_OptOutStaking tx ctx : no_inflation (executeOptOutStaking tx ctx).
Proof.
  intros t st _. unfold executeOptOutStaking. wp_run.
  apply value_putAccount_le. by rewrite worth_recalculate.
Qed.

Lemma no_inflation_ClaimRewards tx ctx : no_inflation (executeClaimRewards tx ctx).
Proof.
  intros t st _. unfold executeClaimRewards. wp_run.
  apply value_putAccount_le. rewrite worth_recalculate. unfold worth; cbn.
  set (a := getAccount _ st).
  pose proof (add64_le (Account.balance a) (Account.pending_rewards a)). lia.
Qed.

(** Handlers that write no value at all. *)
Ltac solve_valueless := intros t st _; wp_run; frames; done.

Lemma no_inflation_RegisterValidator tx ctx : no_inflation (executeRegisterValidator tx ctx).
Proof. unfold executeRegisterValidator. solve_valueless. Qed.
Lemma no_inflation_UnregisterValidator tx ctx : no_inflation (executeUnregisterValidator tx ctx).
Proof. unfold executeUnregisterValidator. solve_valueless. Qed.
Lemma no_inflation_UpdateRewardAddress tx ctx : no_inflation (executeUpdateRewardAddress tx ctx).
Proof. unfold executeUpdateRewardAddress. solve_valueless. Qed.
Lemma no_inflation_RotateConsensusKey tx ctx : no_inflation (executeRotateConsensusKey tx ctx).
Proof. unfold executeRotateConsensusKey. solve_valueless. Qed.
Lemma no_inflation_CreateToken tx ctx : no_inflation (executeCreateToken tx ctx).
Proof. unfold executeCreateToken. solve_valueless. Qed.
Lemma no_inflation_UpdateTokenMeta tx ctx : no_inflation (executeUpdateTokenMeta tx ctx).
Proof. unfold executeUpdateTokenMeta. solve_valueless. Qed.
Lemma no_inflation_UpdateNftMetadata tx ctx : no_inflation (executeUpdateNftMetadata tx ctx).
Proof. unfold executeUpdateNftMetadata. solve_valueless. Qed.

Lemma no_inflation_BurnToken tx ctx : no_inflation (executeBurnToken tx ctx).
Proof.
  intros t st _. unfold executeBurnToken. wp_run; try done. frames.
  match goal with E : (_ <=? getTokenBalance _ _ _) = true |- _ => apply N.leb_le in E;
      pose proof (sub64_le _ _ E) as Hs end.
  set (b := getTokenBalance _ _ st) in *. set (x := Transaction.amount tx) in *.
  pose proof (value_putTokenBalance t (Transaction.from tx) (Transaction.token_id tx) (b -64 x) st)
    as Hv1. fold b in Hv1. pose proof (u64_le (b -64 x)).
  assert (Hw : u64 (b -64 x) <= b) by lia.
  apply (at_token_le t (u32 (Transaction.token_id tx))) in Hw. lia.
Qed.

(** ** Pools *)

Lemma readU32At_lt p off : readU32At p off < w32.
Proof. apply u32_lt. Qed.
Lemma readU64At_lt p off : readU64At p off < w64.
Proof. apply u64_lt. Qed.

Lemma parsePool_tokens tx ctx i :
  AmmPool.token_a (parsePool tx ctx i) < w32 /\ AmmPool.token_b (parsePool tx ctx i) < w32.
Proof.
  unfold parsePool. pose proof (readU32At_lt (Transaction.payload tx) 0).
  pose proof (u32_lt (Transaction.token_id tx)). by destruct (_ <? _).
Qed.

(** Storing a pool under a fresh or an occupied id adds at most its reserves. *)
Lemma value_putAmmPool_le t p st : value t (putAmmPool p st) <= value t st + pool_worth t p.
Proof. pose proof (value_putAmmPool t p st). lia. Qed.

(** Replacing the pool found under its own id. *)
Lemma value_putAmmPool_replace t i p p' st :
  getAmmPool i st = Some p -> AmmPool.id p' = i ->
  value t (putAmmPool p' st) + pool_worth t p = value t st + pool_worth t p'.
Proof.
  intros Hp%getAmmPool_lookup Hid. pose proof (value_putAmmPool t p' st) as Hv.
  rewrite Hid, Hp in Hv. exact Hv.
Qed.

Lemma pools_subTokens a k x st : pools (subTokens a k x st) = pools st.
Proof.
  unfold subTokens. case_match.
  - apply putAccount_tables.
  - unfold putTokenBalance. by case_match.
Qed.

Lemma pools_addTokens a k x st : pools (addTokens a k x st) = pools st.
Proof.
  unfold addTokens. case_match.
  - apply putAccount_tables.
  - unfold putTokenBalance. by case_match.
Qed.

Lemma getAmmPool_pools i st st' : pools st' = pools st -> getAmmPool i st' = getAmmPool i st.
Proof. unfold getAmmPool. by intros ->. Qed.

(** Two debits of distinct tokens, checked together before either is made. *)
Lemma value_subTokens2 t a k x k' x' st :
  u32 k <> u32 k' -> hasTokens a k x st = true -> hasTokens a k' x' st = true ->
  value t (subTokens a k' x' (subTokens a k x st)) + at_token t (u32 k) x + at_token t (u32 k') x'
    <= value t st.
Proof.
  intros Hne Hx Hx'. pose proof (value_subTokens t a k x st Hx).
  assert (Hh : hasTokens a k' x' (subTokens a k x st) = true) by (by rewrite hasTokens_subTokens).
  pose proof (value_subTokens t a k' x' _ Hh). lia.
Qed.

Lemma no_inflation_CreatePool tx ctx : no_inflation (executeCreatePool tx ctx).
Proof.
  intros t st _. unfold executeCreatePool. wp_run; try done. frames.
  set (p := parsePool tx ctx _) in *.
  destruct (parsePool_tokens tx ctx (orCounter "next_pool_id" st)) as [Ha Hb]. fold p in Ha, Hb.
  assert (Hlt : AmmPool.token_a p < AmmPool.token_b p) by (by apply pool_valid_tokens).
  etrans; [apply value_putAmmPool_le|]. unfold pool_worth.
  assert (Hne : u32 (AmmPool.token_a p) <> u32 (AmmPool.token_b p)) by (rewrite !u32_id by done; lia).
  pose proof (value_subTokens2 t (Transaction.from tx) (AmmPool.token_a p) (AmmPool.reserve_a p)
    (AmmPool.token_b p) (AmmPool.reserve_b p) st Hne ltac:(done) ltac:(done)) as Hs.
  rewrite !u32_id in Hs by done. lia.
Qed.

Lemma pool_worth_deposit t k x y m p :
  k = AmmPool.token_a p \/ k = AmmPool.token_b p ->
  AmmPool.token_a p <> AmmPool.token_b p ->
  pool_worth t (depositReserves k x y m p) <=
    pool_worth t p + at_token t k x +
    at_token t (if k =? AmmPool.token_a p then AmmPool.token_b p else AmmPool.token_a p) y.
Proof.
  intros Hk Hne. unfold pool_worth, depositReserves, at_token.
  pose proof (add64_le (AmmPool.reserve_a p) x). pose proof (add64_le (AmmPool.reserve_b p) x).
  pose proof (add64_le (AmmPool.reserve_a p) y). pose proof (add64_le (AmmPool.reserve_b p) y).
  destruct (N.eqb_spec k (AmmPool.token_a p)); cbn;
    repeat match goal with |- context [?a =? ?b] => destruct (N.eqb_spec a b) end; lia.
Qed.

Lemma depositReserves_id k x y m p : AmmPool.id (depositReserves k x y m p) = AmmPool.id p.
Proof. unfold depositReserves. by case_match. Qed.

Lemma no_inflation_AddLiquidity tx ctx : no_inflation (executeAddLiquidity tx ctx).
Proof.
  intros t st Hwt.
  assert (Hmain : forall pool, getAmmPool (readU64At (Transaction.payload tx) 0) st = Some pool ->
    let k := Transaction.token_id tx in
    let k' := if k =? AmmPool.token_a pool then AmmPool.token_b pool else AmmPool.token_a pool in
    let y := readU64At (Transaction.payload tx) 8 in
    (k =? AmmPool.token_a pool) || (k =? AmmPool.token_b pool) = true ->
    hasTokens (Transaction.from tx) k (Transaction.amount tx) st = true ->
    hasTokens (Transaction.from tx) k' y st = true ->
    forall m, value t (putAmmPool (depositReserves k (Transaction.amount tx) y m pool)
      (subTokens (Transaction.from tx) k' y
        (subTokens (Transaction.from tx) k (Transaction.amount tx) st))) <= value t st).
  { intros pool Hp k k' y Hk H1 H2 m. unfold k' in *. clear k'. clearbody k y.
    set (k' := if k =? _ then _ else _) in *.
    pose proof (getAmmPool_lookup _ _ _ Hp) as Hl. destruct (wt_pools _ Hwt _ _ Hl) as [Hid ? ? ? ?].
    pose proof (pool_valid_tokens _ (getAmmPool_valid _ _ _ Hp)) as Hlt.
    rewrite orb_true_iff, !N.eqb_eq in Hk.
    assert (Hk' : u32 k = k /\ u32 k' = k' /\ k <> k').
    { unfold k'. destruct (N.eqb_spec k (AmmPool.token_a pool)) as [Hek|Hek];
        rewrite !u32_id by (destruct Hk; lia); destruct Hk; lia. }
    destruct Hk' as (Hu & Hu' & Hne).
    pose proof (value_subTokens2 t (Transaction.from tx) k (Transaction.amount tx) k' y st
      ltac:(congruence) H1 H2) as Hs. rewrite Hu, Hu' in Hs.
    pose proof (pool_worth_deposit t k (Transaction.amount tx) y m pool Hk ltac:(lia)) as Hd.
    fold k' in Hd.
    pose proof (value_putAmmPool_replace t _ pool
      (depositReserves k (Transaction.amount tx) y m pool) (subTokens (Transaction.from tx) k' y
        (subTokens (Transaction.from tx) k (Transaction.amount tx) st))
      ltac:(by rewrite (getAmmPool_pools _ st) by (by rewrite !pools_subTokens))
      ltac:(by rewrite depositReserves_id)) as Hv. lia. }
  unfold executeAddLiquidity. wp_run; try done; frames; by apply Hmain.
Qed.

(** ** Escrow and custody movements *)

Lemma value_creditToken t a k x st :
  value t (creditToken a k x st) <= value t st + at_token t (u32 k) x.
Proof. unfold creditToken. case_match; [lia|apply value_addTokens]. Qed.

Lemma value_move t a b k x st :
  hasTokens a k x st = true -> value t (creditToken b k x (subTokens a k x st)) <= value t st.
Proof.
  intros Hx. pose proof (value_subTokens t a k x st Hx).
  pose proof (value_creditToken t b k x (subTokens a k x st)). lia.
Qed.

Section nft_value.
Context `{Crypto}.

Lemma no_inflation_CreateNftCollection tx ctx : no_inflation (executeCreateNftCollection tx ctx).
Proof.
  intros t st _. unfold executeCreateNftCollection. wp_run; try done; frames;
    first [done | by apply value_move].
Qed.

Lemma no_inflation_TopUpNft tx ctx : no_inflation (executeTopUpNft tx ctx).
Proof.
  intros t st _. unfold executeTopUpNft. wp_run; try done; frames; by apply value_move.
Qed.

Lemma no_inflation_RefillCollectionReward tx ctx :
  no_inflation (executeRefillCollectionReward tx ctx).
Proof.
  intros t st _. unfold executeRefillCollectionReward. wp_run; try done; frames; by apply value_move.
Qed.
End nft_value.

(** ** Swaps

    The 64-bit sums of a swap are exact while the input token's total fits 64
    bits; past that the denominator wraps and the payout is unbounded. *)

Lemma pool_worth_le_value t i p st : pools st !! i = Some p -> pool_worth t p <= value t st.
Proof.
  intros Hp. pose proof (msum_lookup_le (fun _ x => pool_worth t x) (pools st) i p Hp) as Hm.
  cbn in Hm. unfold value, pool_value. lia.
Qed.

Lemma order_worth_le_value t i o st : orders st !! i = Some o -> order_worth t o <= value t st.
Proof.
  intros Hp. pose proof (msum_lookup_le (fun _ x => order_worth t x) (orders st) i o Hp) as Hm.
  cbn in Hm. unfold value, order_value. lia.
Qed.

(** What a trade of [x] of token [k] for [out] does to the pool's worth. *)
Lemma pool_worth_trade t k x out p k' ri ro :
  swapSides p k = Some (k', ri, ro) -> AmmPool.token_a p <> AmmPool.token_b p ->
  out <= ro ->
  pool_worth t (tradeReserves k x out p) + at_token t k' out <= pool_worth t p + at_token t k x.
Proof.
  intros Hs Hne Ho. unfold swapSides in Hs. unfold pool_worth, tradeReserves, at_token.
  destruct (N.eqb_spec k (AmmPool.token_a p)) as [Hk|Hk].
  - injection Hs as <- <- <-. cbn.
    pose proof (add64_le (AmmPool.reserve_a p) x). pose proof (sub64_le _ _ Ho).
    repeat match goal with |- context [?a =? ?b] => destruct (N.eqb_spec a b) end; lia.
  - destruct (N.eqb_spec k (AmmPool.token_b p)) as [Hk'|]; [|done]. injection Hs as <- <- <-. cbn.
    pose proof (add64_le (AmmPool.reserve_b p) x). pose proof (sub64_le _ _ Ho).
    repeat match goal with |- context [?a =? ?b] => destruct (N.eqb_spec a b) end; lia.
Qed.

Lemma pool_worth_recordVolume t h v p : pool_worth t (recordVolume h v p) = pool_worth t p.
Proof. unfold recordVolume. by repeat case_match. Qed.

(** The volume window and the reserves are independent fields. *)
Lemma tradeReserves_recordVolume k x out h v p :
  tradeReserves k x out (recordVolume h v p) = recordVolume h v (tradeReserves k x out p).
Proof. unfold tradeReserves, recordVolume. destruct p; cbn. repeat case_match; simplify_eq/=; congruence. Qed.

Lemma tradeReserves_id k x out h v p :
  AmmPool.id (tradeReserves k x out (recordVolume h v p)) = AmmPool.id p.
Proof. unfold tradeReserves, recordVolume. by repeat case_match. Qed.

(** The reserves of a valid pool are both zero or both positive. *)
Lemma swapSides_facts p k k' ri ro :
  AmmPool.isValid p = true -> swapSides p k = Some (k', ri, ro) ->
  (ri = 0 -> ro = 0) /\ k <> k' /\
  (forall t, pool_worth t p = at_token t k ri + at_token t k' ro) /\
  (k = AmmPool.token_a p /\ k' = AmmPool.token_b p \/ k = AmmPool.token_b p /\ k' = AmmPool.token_a p).
Proof.
  intros Hv. pose proof (pool_valid_tokens p Hv) as Hlt.
  assert (Hz : (AmmPool.reserve_a p = 0 <-> AmmPool.reserve_b p = 0)).
  { revert Hv. unfold AmmPool.isValid. repeat case_match; try done.
    - apply andb_true_iff in H3 as [?%N.eqb_eq ?%N.eqb_eq]. lia.
    - intros [?%N.ltb_lt ?%N.ltb_lt]%andb_true_iff. lia. }
  unfold swapSides, pool_worth.
  destruct (N.eqb_spec k (AmmPool.token_a p)) as [->|].
  { intros [= <- <- <-]. split_and!; [lia|lia|done|by left]. }
  destruct (N.eqb_spec k (AmmPool.token_b p)) as [->|]; [|done].
  intros [= <- <- <-]. split_and!; [lia|lia|intros; lia|by right].
Qed.

Section swap.
Context (tx : Transaction.t) (ctx : Ctx.t) (st : State) (Hwt : WellTyped st)
  (Hfit : value (u32 (Transaction.token_id tx)) st < w64).

(** The amount a swap pays: at most the reserve, and the product of the
    reserves does not fall. *)
Lemma swap_amount p k' ri ro i :
  getAmmPool i st = Some p -> swapSides p (Transaction.token_id tx) = Some (k', ri, ro) ->
  hasTokens (Transaction.from tx) (Transaction.token_id tx) (Transaction.amount tx) st = true ->
  let q := swapNumerator (AmmPool.fee_bps p) ro (Transaction.amount tx) /
           swapDenominator (AmmPool.fee_bps p) ri (Transaction.amount tx) in
  ri + Transaction.amount tx < w64 /\ ro < w64 /\ q <= ro /\
  ri * ro <= (ri + Transaction.amount tx) * (ro - q).
Proof.
  intros Hp Hs Hx q. pose proof (getAmmPool_lookup _ _ _ Hp) as Hl.
  destruct (wt_pools _ Hwt _ _ Hl) as [_ Ha Hb Hra Hrb].
  destruct (swapSides_facts _ _ _ _ _ (getAmmPool_valid _ _ _ Hp) Hs) as (Hz & Hne & Hw & Hk).
  set (k := Transaction.token_id tx) in *. set (x := Transaction.amount tx) in *.
  assert (Hu : u32 k = k) by (apply u32_id; destruct Hk as [[-> _]|[-> _]]; done). rewrite Hu in Hfit.
  assert (Hro : ro < w64).
  { revert Hs. unfold swapSides. repeat case_match; intros [= <- <- <-]; done. }
  pose proof (value_subTokens k (Transaction.from tx) k x st Hx) as Hv.
  rewrite Hu, at_token_same in Hv.
  pose proof (pool_worth_le_value k i p (subTokens (Transaction.from tx) k x st)
    ltac:(by rewrite pools_subTokens)) as Hpw.
  rewrite Hw, at_token_same in Hpw. assert (Hin : ri + x < w64) by lia.
  split_and!; try done.
  - unfold q. destruct (decide (ri = 0)) as [->|Hri].
    + rewrite Hz by done. unfold swapNumerator. cbn. by rewrite N.Div0.div_0_l.
    + by apply swap_product; [lia| |].
  - unfold q. destruct (decide (ri = 0)) as [->|Hri]; [lia|]. by apply swap_product; [lia| |].
Qed.

Lemma no_inflation_Swap t : wp (executeSwap tx ctx) (fun _ st' => value t st' <= value t st) st.
Proof.
  unfold executeSwap. wp_run; try done. frames.
  match goal with
  | Hp : getAmmPool _ st = Some ?p, Hs : swapSides ?p _ = Some (?o, _, _) |- _ =>
    destruct (swap_amount _ _ _ _ _ Hp Hs ltac:(done)) as (Hin & Hro & Hq & _);
    destruct (swapSides_facts _ _ _ _ _ (getAmmPool_valid _ _ _ Hp) Hs) as (Hz & Hne & Hw & Hk);
    pose proof (wt_pools _ Hwt _ _ (getAmmPool_lookup _ _ _ Hp)) as Hpw;
    rename p into pool, o into k', Hp into Hpool, Hs into Hsides
  end.
  destruct Hpw as [Hid Ha Hb _ _]. set (q := _ / _) in *.
  rewrite (u64_id q) by lia. set (k := Transaction.token_id tx) in *.
  set (x := Transaction.amount tx) in *.
  assert (Hu : u32 k = k /\ u32 k' = k')
    by (split; apply u32_id; destruct Hk as [[-> ->]|[-> ->]]; done).
  destruct Hu as [Hu Hu'].
  pose proof (value_subTokens t (Transaction.from tx) k x st ltac:(done)) as Hv1.
  set (st1 := subTokens _ _ _ st) in *.
  pose proof (value_addTokens t (Transaction.to tx) k' q st1) as Hv2.
  set (st2 := addTokens _ _ _ st1) in *.
  pose proof (value_putAmmPool_replace t _ pool (tradeReserves k x q
    (recordVolume (Ctx.current_height ctx) (clrtyVolume pool k x) pool)) st2
    ltac:(by rewrite (getAmmPool_pools _ st)
      by (unfold st2, st1; by rewrite pools_addTokens, pools_subTokens))
    ltac:(by rewrite tradeReserves_id)) as Hv3.
  rewrite tradeReserves_recordVolume, pool_worth_recordVolume in Hv3.
  rewrite tradeReserves_recordVolume.
  pose proof (pool_worth_trade t k x q pool _ _ _ Hsides ltac:(pose proof (pool_valid_tokens _ (getAmmPool_valid _ _ _ Hpool)); lia) Hq) as Hv4.
  rewrite Hu in Hv1. rewrite Hu' in Hv2. lia.
Qed.
End swap.

(** ** Liquidity removal

    Safe when the position's liquidity is part of the pool's total. *)

Definition positionLiquidity (pool_id : N) (p : AmmPosition.t) : N :=
  if AmmPosition.pool_id p =? pool_id then AmmPosition.liquidity p else 0.

Definition sharesOf (pool_id : N) (st : State) : N :=
  msum (fun _ p => positionLiquidity pool_id p) (positions st).

(** The positions of a pool never claim more than the pool's liquidity. *)
Definition LpBacked (st : State) : Prop :=
  forall i p, pools st !! i = Some p -> sharesOf i st <= AmmPool.total_liquidity p.

Lemma position_le_total i pos p st :
  LpBacked st -> getAmmPosition i st = Some pos ->
  getAmmPool (AmmPosition.pool_id pos) st = Some p ->
  AmmPosition.liquidity pos <= AmmPool.total_liquidity p.
Proof.
  intros Hb Hpos%getAmmPosition_lookup Hp%getAmmPool_lookup. etrans; [|apply (Hb _ _ Hp)].
  unfold sharesOf.
  pose proof (msum_lookup_le (fun _ x => positionLiquidity (AmmPosition.pool_id pos) x)
    (positions st) i pos Hpos) as Hm.
  cbn in Hm. unfold positionLiquidity at 1 in Hm. rewrite N.eqb_refl in Hm. exact Hm.
Qed.

(** Both shares of a removal are part of the reserves. *)
Lemma removalShares_le p amount Q st :
  amount <= AmmPool.total_liquidity p ->
  (forall a b, a <= AmmPool.reserve_a p -> b <= AmmPool.reserve_b p ->
     (amount = AmmPool.total_liquidity p -> a = AmmPool.reserve_a p /\ b = AmmPool.reserve_b p) ->
     Q (Ok (a, b)) st) ->
  Q Crash st -> wp (removalShares p amount) Q st.
Proof.
  intros Ha HQ Hc. unfold removalShares.
  assert (Hle : forall r, u64 (u128 (amount * r) / AmmPool.total_liquidity p) <= r).
  { intros r. etrans; [apply u64_le|]. etrans; [apply N.Div0.div_le_mono, u128_le|].
    rewrite N.mul_comm. by apply mul_div_le_l. }
  destruct (N.eqb_spec amount (AmmPool.total_liquidity p)); wp_run; try done.
  - by apply HQ.
  - apply HQ; try apply Hle. done.
Qed.

Lemma value_deleteAmmPool_le t i st : value t (deleteAmmPool i st) <= value t st.
Proof. pose proof (value_deleteAmmPool t i st). lia. Qed.

Lemma no_inflation_RemoveLiquidity tx ctx st t :
  WellTyped st -> LpBacked st ->
  wp (executeRemoveLiquidity tx ctx) (fun _ st' => value t st' <= value t st) st.
Proof.
  intros Hwt Hb. unfold executeRemoveLiquidity. cbv beta iota zeta.
  repeat (lazymatch goal with |- wp (removalShares _ _) _ _ => fail | _ => wp_step end); try done.
  match goal with
  | Hp : getAmmPosition _ _ = Some ?p, Hl : getAmmPool _ _ = Some ?l |- _ =>
    rename p into pos, l into pool, Hp into Hpos, Hl into Hpool
  end.
  set (amount := if _ =? 0 then _ else _) in *.
  assert (Ha : amount <= AmmPool.total_liquidity pool).
  { pose proof (position_le_total _ _ _ _ Hb Hpos Hpool).
    match goal with E : (amount <=? _) = true |- _ => apply N.leb_le in E end. lia. }
  clearbody amount. apply removalShares_le; [done| |done]. intros a b Hra Hrb Hlast.
  cbv beta iota.
  set (pool' := pool <| AmmPool.reserve_a := _ |> <| AmmPool.reserve_b := _ |>
                     <| AmmPool.total_liquidity := _ |>).
  destruct (wt_pools _ Hwt _ _ (getAmmPool_lookup _ _ _ Hpool)) as [Hid Hta Htb _ _].
  pose proof (value_putAmmPool_replace t _ pool pool' st Hpool Hid) as Hv1.
  assert (Hw : pool_worth t pool' + at_token t (AmmPool.token_a pool) a +
               at_token t (AmmPool.token_b pool) b <= pool_worth t pool).
  { unfold pool_worth, pool'; cbn. pose proof (sub64_le _ _ Hra). pose proof (sub64_le _ _ Hrb).
    unfold at_token. repeat case_match; lia. }
  set (st1 := putAmmPool pool' st) in *.
  pose proof (value_addTokens t (Transaction.from tx) (AmmPool.token_a pool) a st1) as Hv2.
  set (st2 := addTokens (Transaction.from tx) (AmmPool.token_a pool) a st1) in *.
  pose proof (value_addTokens t (Transaction.from tx) (AmmPool.token_b pool) b st2) as Hv3.
  rewrite (u32_id (AmmPool.token_a pool)) in Hv2 by done.
  rewrite (u32_id (AmmPool.token_b pool)) in Hv3 by done.
  change (AmmPool.token_a pool') with (AmmPool.token_a pool).
  change (AmmPool.token_b pool') with (AmmPool.token_b pool).
  assert (Hst3 : value t (addTokens (Transaction.from tx) (AmmPool.token_b pool) b st2) <= value t st)
    by lia.
  wp_run; frames; first [done | etrans; [apply value_deleteAmmPool_le|frames; done]].
Qed.
