(* ===== verification/MatchValue.v ===== *)
(** * Matching conserves tokens

    Fill quantities never exceed either side's remaining lock; a fill moves
    exactly what the locks release; and neither matching, routing, cancelling
    nor expiring an order raises the total of any token. *)

From S2P Require Import Prelude Types OrderBook StateAccess Ledger Amm Codec Matching.
From S2P Require Import BlockOrders ExecBase ExecAccounts ExecAmm ExecOrders ExecNft Executor.
From S2P Require Import Invariants ExecValue.

(** ** Fill quantities *)


(** A quantity converted to base units and back is at most the original. *)
Lemma convert_back_le x p : x * OrderBook.BOOK_PRICE_SCALE / p * p / OrderBook.BOOK_PRICE_SCALE <= x.
Proof.
  destruct (decide (p = 0)) as [->|Hp].
  { rewrite N.mul_0_r. apply N.le_0_l. }
  apply div_le_of_mul; [done|].
  rewrite (N.mul_comm OrderBook.BOOK_PRICE_SCALE). by apply div_bracket.
Qed.

Lemma u128_div_le x d : u128 x / d <= x / d.
Proof. apply N.Div0.div_le_mono, u128_le. Qed.

Lemma baseToSell_le q rem price sells :
  q <= sellAmountToBase rem sells price -> baseToSellAmount q sells price <= rem.
Proof.
  unfold sellAmountToBase, baseToSellAmount. destruct sells; [done|].
  destruct (price =? 0). { intros ?. assert (q = 0) as -> by lia. rewrite N.mul_0_l. apply N.le_0_l. }
  intros Hq. assert (Hq' : q <= rem * OrderBook.BOOK_PRICE_SCALE / price).
  { etrans; [exact Hq|]. pose proof (u128_div_le (rem * OrderBook.BOOK_PRICE_SCALE) price).
    destruct (w64 - 1 <? _); [apply N.le_0_l|]. etrans; [apply u64_le|done]. }
  clear Hq. etrans; [|apply (convert_back_le rem price)].
  assert (Hle : u128 (q * price) / OrderBook.BOOK_PRICE_SCALE <=
    rem * OrderBook.BOOK_PRICE_SCALE / price * price / OrderBook.BOOK_PRICE_SCALE).
  { etrans; [apply u128_div_le|]. apply N.Div0.div_le_mono. by apply N.mul_le_mono_r. }
  destruct (w64 - 1 <? _); [apply N.le_0_l|]. etrans; [apply u64_le|done].
Qed.

(** Neither side gives more than its remaining lock. *)
Lemma fillQuantities_le taker maker price qb qt qm :
  fillQuantities taker maker price = Some (qb, qt, qm) ->
  0 < qb /\ 0 < qt <= Order.remainingAmount taker /\ 0 < qm <= Order.remainingAmount maker.
Proof.
  unfold fillQuantities. set (b := N.min _ _).
  destruct (N.eqb_spec b 0) as [|Hb]; [done|].
  destruct (N.eqb_spec (baseToSellAmount b (sellsBase taker) price) 0) as [|H1]; [done|].
  destruct (N.eqb_spec (baseToSellAmount b (sellsBase maker) price) 0) as [|H2]; [done|].
  cbn. intros [= <- <- <-].
  assert (baseToSellAmount b (sellsBase taker) price <= Order.remainingAmount taker)
    by (apply baseToSell_le; lia).
  assert (baseToSellAmount b (sellsBase maker) price <= Order.remainingAmount maker)
    by (apply baseToSell_le; lia). lia.
Qed.

(** ** Orders through value-preserving writes *)

Lemma orders_addTokens a k x st : orders (addTokens a k x st) = orders st.
Proof.
  unfold addTokens. case_match.
  - apply putAccount_tables.
  - unfold putTokenBalance. by case_match.
Qed.

Lemma orders_subTokens a k x st : orders (subTokens a k x st) = orders st.
Proof.
  unfold subTokens. case_match.
  - apply putAccount_tables.
  - unfold putTokenBalance. by case_match.
Qed.

Lemma orders_credit a k x st : orders (credit a k x st) = orders st.
Proof. unfold credit. repeat case_match; [done|done|apply orders_addTokens]. Qed.

Lemma value_credit t a k x st : value t (credit a k x st) <= value t st + at_token t (u32 k) x.
Proof. unfold credit. repeat case_match; [lia|lia|apply value_addTokens]. Qed.

Lemma orders_removeOrderExpiry h i st : orders (removeOrderExpiry h i st) = orders st.
Proof. unfold removeOrderExpiry. by repeat case_match. Qed.

(** Recording a fill consumes the lock by the amount filled. *)
Lemma recordFill_worth t q o :
  Order.filled_amount o <= Order.sell_amount o -> Order.sell_amount o < w64 ->
  q <= Order.remainingAmount o ->
  order_worth t (recordFill q o) + at_token t (Order.sell_token o) q = order_worth t o /\
  Order.filled_amount (recordFill q o) = Order.filled_amount o + q /\
  Order.filled_amount (recordFill q o) <= Order.sell_amount (recordFill q o).
Proof.
  intros Hf Hs Hq. rewrite remaining_exact in Hq by done.
  unfold recordFill, order_worth; cbn. rewrite add64_id by lia.
  split_and!; [|done|lia]. rewrite <-at_token_add. f_equal. lia.
Qed.

Section match_value.
Context `{Crypto}.

Lemma orders_removeFromOrderBook o st : orders (removeFromOrderBook o st) = orders st.
Proof. unfold removeFromOrderBook. by repeat case_match. Qed.

(** Deleting an order after returning at most its lock. *)
Lemma value_refund_delete t o x st st' :
  orders st !! Order.id o = Some o -> orders st' = orders st ->
  value t st' <= value t st + at_token t (Order.sell_token o) x ->
  Order.filled_amount o <= Order.sell_amount o -> x <= Order.remainingAmount o ->
  value t (deleteOrder (Order.id o) st') <= value t st.
Proof.
  intros Ho Hos Hv Hf Hx. pose proof (value_deleteOrder t (Order.id o) st') as Hd.
  rewrite Hos, Ho in Hd. cbn in Hd. pose proof (remaining_le o Hf).
  assert (Hx' : x <= Order.sell_amount o - Order.filled_amount o) by lia.
  apply (at_token_le t (Order.sell_token o)) in Hx'. unfold order_worth in Hd. lia.
Qed.

Lemma value_refundOrder t i o fee st :
  WellTyped st -> getOrder i st = Some o -> value t (refundOrder o fee st) <= value t st.
Proof.
  intros Hwt Hg. pose proof (getOrder_lookup _ _ _ Hg) as Hl.
  destruct (wt_orders _ Hwt _ _ Hl) as [Hid Hsell _ _].
  destruct (isValid_filled o (getOrder_valid _ _ _ Hg)) as [Hf _]. rewrite <-Hid in Hl.
  unfold refundOrder. do 3 (case_match; [done|]).
  set (refund := if fee then _ else _).
  assert (Hr : refund <= Order.remainingAmount o) by (unfold refund; repeat case_match; lia).
  clearbody refund. apply value_refund_delete with (x := refund); try done.
  - rewrite orders_removeFromOrderBook. case_match; rewrite ?orders_removeOrderExpiry;
      apply orders_addTokens.
  - rewrite value_removeFromOrderBook.
    pose proof (value_addTokens t (Order.owner o) (Order.sell_token o) refund st) as Hv.
    rewrite u32_id in Hv by done. case_match; rewrite ?value_removeOrderExpiry; done.
Qed.

(** Deleting a resting order after crediting [x] of its lock to [a]. *)
Lemma value_deleteRestingOrder t i o a x st st' :
  WellTyped st -> getOrder i st = Some o -> x <= Order.remainingAmount o ->
  st' = (if 0 <? x then addTokens a (Order.sell_token o) x st else st) ->
  value t (deleteRestingOrder o st') <= value t st.
Proof.
  intros Hwt Hg Hx ->. pose proof (getOrder_lookup _ _ _ Hg) as Hl.
  destruct (wt_orders _ Hwt _ _ Hl) as [Hid Hsell _ _].
  destruct (isValid_filled o (getOrder_valid _ _ _ Hg)) as (Hf & _ & Hnz & _). rewrite <-Hid in Hl.
  unfold deleteRestingOrder. destruct (N.eqb_spec (Order.id o) INVALID_ID); [done|].
  apply value_refund_delete with (x := x); try done.
  - destruct (Order.order_expires_at_height o =? 0);
      rewrite ?orders_removeOrderExpiry, orders_removeFromOrderBook;
      (destruct (0 <? x); [apply orders_addTokens|done]).
  - assert (Hv : value t (if 0 <? x then addTokens a (Order.sell_token o) x st else st) <=
                 value t st + at_token t (Order.sell_token o) x).
    { case_match; [|lia]. pose proof (value_addTokens t a (Order.sell_token o) x st) as Hv.
      by rewrite u32_id in Hv. }
    destruct (Order.order_expires_at_height o =? 0);
      rewrite ?value_removeOrderExpiry, value_removeFromOrderBook; done.
Qed.

Lemma no_inflation_CancelOrder tx ctx : no_inflation (executeCancelOrder tx ctx).
Proof.
  intros t st Hwt. unfold executeCancelOrder. wp_run; try done.
  all: eapply value_deleteRestingOrder with (a := Transaction.from tx);
    [done|done|apply N.le_refl|].
  all: by match goal with E : (0 <? _) = _ |- _ => rewrite E end.
Qed.

Lemma value_expireOrder t i st : WellTyped st -> value t (expireOrder i st) <= value t st.
Proof.
  intros Hwt. unfold expireOrder. case_match eqn:Hg; [|done].
  by eapply value_deleteRestingOrder; [| |apply N.le_refl|].
Qed.

Lemma value_cancelOrderByCondition t i st :
  WellTyped st -> value t (cancelOrderByCondition i st) <= value t st.
Proof.
  intros Hwt. unfold cancelOrderByCondition. case_match eqn:Hg; [|done].
  eapply value_deleteRestingOrder; [done|done| |reflexivity].
  pose proof (sub64_le (Order.remainingAmount t0)
    (N.min (Order.remainingAmount t0) ORDER_CANCEL_FEE_ATOMIC) ltac:(lia)). lia.
Qed.
End match_value.

(** ** One step of the loop *)

(** The same order, but for how much of it is filled. *)
Definition same_terms (o o' : Order.t) : Prop :=
  o' = o <| Order.filled_amount := Order.filled_amount o' |>.

(** Orders only disappear or fill. *)
Definition evolves (st st' : State) : Prop :=
  pools st' = pools st /\ positions st' = positions st /\
  forall i o', orders st' !! i = Some o' -> exists o, orders st !! i = Some o /\ same_terms o o'.

Lemma same_terms_refl o : same_terms o o.
Proof. by destruct o. Qed.

Lemma same_terms_trans o1 o2 o3 : same_terms o1 o2 -> same_terms o2 o3 -> same_terms o1 o3.
Proof. unfold same_terms. intros -> ->. by destruct o1. Qed.

Lemma same_terms_record q o : same_terms o (recordFill q o).
Proof. by destruct o. Qed.

Lemma same_terms_fields o o' :
  same_terms o o' ->
  Order.id o' = Order.id o /\ Order.owner o' = Order.owner o /\
  Order.sell_token o' = Order.sell_token o /\ Order.buy_token o' = Order.buy_token o /\
  Order.sell_amount o' = Order.sell_amount o /\ Order.min_buy_amount o' = Order.min_buy_amount o.
Proof. intros ->. by destruct o. Qed.

Lemma evolves_refl st : evolves st st.
Proof. split_and!; try done. intros i o Ho. exists o. auto using same_terms_refl. Qed.

Lemma evolves_trans st1 st2 st3 : evolves st1 st2 -> evolves st2 st3 -> evolves st1 st3.
Proof.
  intros (P1 & Q1 & E1) (P2 & Q2 & E2). split_and!; [congruence|congruence|].
  intros i o3 H3. destruct (E2 i o3 H3) as (o2 & H2 & S2). destruct (E1 i o2 H2) as (o1 & H1 & S1).
  exists o1. eauto using same_terms_trans.
Qed.

Lemma evolves_frame st st' :
  pools st' = pools st -> positions st' = positions st -> orders st' = orders st -> evolves st st'.
Proof.
  intros Hp Hq Ho. split_and!; try done. intros i o. rewrite Ho. exists o. auto using same_terms_refl.
Qed.

Lemma evolves_delete st st' i : evolves st st' -> evolves st (deleteOrder i st').
Proof.
  intros (P & Q & E). split_and!; try done. intros j o. cbn. rewrite lookup_delete_Some.
  intros [_ Ho]. eauto.
Qed.

Lemma evolves_put st st' o :
  evolves st st' -> (exists o0, orders st !! Order.id o = Some o0 /\ same_terms o0 o) ->
  evolves st (putOrder o st').
Proof.
  intros (P & Q & E) Ho. split_and!; try done. intros j o'. cbn. rewrite lookup_insert_Some.
  intros [[<- <-]|[_ H']]; eauto.
Qed.

Lemma WellTyped_evolves st st' : WellTyped st -> evolves st st' -> WellTyped st'.
Proof.
  intros [Hp Ho Hq] (P & Q & E). split.
  - intros i p. rewrite P. apply Hp.
  - intros i o Hi. destruct (E i o Hi) as (o0 & H0 & S0).
    destruct (same_terms_fields _ _ S0) as (? & ? & ? & ? & ? & ?).
    destruct (Ho i o0 H0) as [? ? ? ?]. split; congruence.
  - intros i p. rewrite Q. apply Hq.
Qed.

Lemma frame_addTokens a k x st : evolves st (addTokens a k x st).
Proof.
  apply evolves_frame; [apply pools_addTokens| |apply orders_addTokens].
  unfold addTokens. case_match; [apply putAccount_tables|]. unfold putTokenBalance. by case_match.
Qed.

Lemma frame_credit a k x st : evolves st (credit a k x st).
Proof.
  unfold credit. repeat case_match; [apply evolves_refl|apply evolves_refl|apply frame_addTokens].
Qed.

Section match_step.
Context `{Crypto}.

Lemma frame_removeFromOrderBook o st : evolves st (removeFromOrderBook o st).
Proof. apply evolves_frame; unfold removeFromOrderBook; by repeat case_match. Qed.

Lemma frame_removeOrderExpiry h i st : evolves st (removeOrderExpiry h i st).
Proof. apply evolves_frame; unfold removeOrderExpiry; by repeat case_match. Qed.

Lemma frame_indexFill f h i j st : evolves st (indexFill f h i j st).
Proof. by apply evolves_frame. Qed.

Lemma evolves_refundOrder o fee st : evolves st (refundOrder o fee st).
Proof.
  unfold refundOrder. do 3 (case_match; [apply evolves_refl|]).
  apply evolves_delete. eapply evolves_trans; [|apply frame_removeFromOrderBook].
  eapply evolves_trans; [apply frame_addTokens|].
  destruct (Order.order_expires_at_height o =? 0); [apply evolves_refl|apply frame_removeOrderExpiry].
Qed.

(** An order with another id is not touched. *)
Lemma refundOrder_other o fee st i :
  i <> Order.id o -> orders (refundOrder o fee st) !! i = orders st !! i.
Proof.
  intros Hne. unfold refundOrder. do 3 (case_match; [done|]). cbn.
  rewrite lookup_delete_ne, orders_removeFromOrderBook by done.
  case_match; rewrite ?orders_removeOrderExpiry, ?orders_addTokens; done.
Qed.

Lemma evolves_settleFill taker maker x y st :
  orders st !! Order.id maker = Some maker -> evolves st (settleFill taker maker x y st).
Proof.
  intros Hm. unfold settleFill.
  assert (Hc : evolves st (credit (Order.owner (recordFill y maker)) (Order.buy_token (recordFill y maker)) x
    (credit (Order.owner taker) (Order.buy_token taker) y st))).
  { eapply evolves_trans; apply frame_credit. }
  case_match.
  - apply evolves_delete. eapply evolves_trans; [exact Hc|apply frame_removeFromOrderBook].
  - apply evolves_put; [done|]. exists maker. split; [exact Hm|apply same_terms_record].
Qed.

Lemma settleFill_other taker maker x y st i :
  i <> Order.id maker -> orders (settleFill taker maker x y st) !! i = orders st !! i.
Proof.
  intros Hne. unfold settleFill. case_match; cbn.
  - rewrite lookup_delete_ne, orders_removeFromOrderBook, !orders_credit by done. done.
  - rewrite lookup_insert_ne, !orders_credit by done. done.
Qed.

(** The maker's side of a fill: its lock pays the taker, the taker's amount is
    credited to the maker. *)
Lemma value_settleFill t taker maker qt qm st :
  orders st !! Order.id maker = Some maker ->
  Order.filled_amount maker <= Order.sell_amount maker -> Order.sell_amount maker < w64 ->
  qm <= Order.remainingAmount maker ->
  Order.sell_token maker < w32 -> Order.buy_token maker < w32 ->
  Order.buy_token taker = Order.sell_token maker ->
  value t (settleFill taker maker qt qm st) <= value t st + at_token t (Order.buy_token maker) qt.
Proof.
  intros Hm Hf Hs Hq H1 H2 Hop. unfold settleFill.
  destruct (recordFill_worth t qm maker Hf Hs Hq) as (Hw & _ & _).
  set (maker' := recordFill qm maker) in *.
  change (Order.owner maker') with (Order.owner maker).
  change (Order.buy_token maker') with (Order.buy_token maker).
  change (Order.id maker') with (Order.id maker).
  pose proof (value_credit t (Order.owner taker) (Order.buy_token taker) qm st) as Hc1.
  set (st1 := credit _ _ _ st) in *.
  pose proof (value_credit t (Order.owner maker) (Order.buy_token maker) qt st1) as Hc2.
  set (st2 := credit _ _ _ st1) in *.
  rewrite Hop, u32_id in Hc1 by done. rewrite u32_id in Hc2 by done.
  assert (Ho : orders st2 = orders st) by (unfold st2, st1; by rewrite !orders_credit).
  case_match.
  - pose proof (value_deleteOrder t (Order.id maker) (removeFromOrderBook maker' st2)) as Hd.
    rewrite orders_removeFromOrderBook, Ho, Hm, value_removeFromOrderBook in Hd. cbn in Hd. lia.
  - pose proof (value_putOrder t maker' st2) as Hd.
    change (Order.id maker') with (Order.id maker) in Hd. rewrite Ho, Hm in Hd. cbn in Hd. lia.
Qed.
End match_step.

(** ** The loop *)

(** An order on the other side of the taker's pair. *)
Definition opposite (taker o : Order.t) : Prop :=
  Order.sell_token o = Order.buy_token taker /\ Order.buy_token o = Order.sell_token taker.

(** The candidates resolve to orders of the other side, not to the taker. *)
Definition candidates_ok (taker : Order.t) (cs : list (N * N)) (st : State) : Prop :=
  forall i p o, (i, p) ∈ cs -> orders st !! i = Some o ->
    i <> Order.id taker /\ opposite taker o.

Lemma candidates_ok_evolves taker taker' cs st st' :
  candidates_ok taker cs st -> evolves st st' -> same_terms taker taker' ->
  candidates_ok taker' cs st'.
Proof.
  intros Hc (_ & _ & E) S i p o' Hi Ho'. destruct (E i o' Ho') as (o & Ho & S').
  destruct (Hc i p o Hi Ho) as [Hne [H1 H2]].
  destruct (same_terms_fields _ _ S) as (-> & _ & Hs & Hb & _).
  destruct (same_terms_fields _ _ S') as (_ & _ & Hs' & Hb' & _).
  split; [done|]. split; congruence.
Qed.

(** What one iteration keeps: totals with the taker's lock counted beside the
    state, the taker's terms, and the taker's stored record. *)
Record step_ok (acc acc' : MatchAcc) : Prop := {
  so_value t : value t (ma_state acc') + order_worth t (ma_taker acc') <=
               value t (ma_state acc) + order_worth t (ma_taker acc);
  so_evolves : evolves (ma_state acc) (ma_state acc');
  so_terms : same_terms (ma_taker acc) (ma_taker acc');
  so_filled : Order.filled_amount (ma_taker acc) <= Order.filled_amount (ma_taker acc') /\
              Order.filled_amount (ma_taker acc') <= Order.sell_amount (ma_taker acc');
  so_record : orders (ma_state acc') !! Order.id (ma_taker acc) =
              orders (ma_state acc) !! Order.id (ma_taker acc);
}.

Lemma step_ok_refl acc :
  Order.filled_amount (ma_taker acc) <= Order.sell_amount (ma_taker acc) -> step_ok acc acc.
Proof. intros. split; auto using evolves_refl, same_terms_refl; lia. Qed.

Lemma step_ok_trans a1 a2 a3 : step_ok a1 a2 -> step_ok a2 a3 -> step_ok a1 a3.
Proof.
  intros [V1 E1 T1 F1 R1] [V2 E2 T2 F2 R2]. split.
  - intros t. specialize (V1 t). specialize (V2 t). lia.
  - by eapply evolves_trans.
  - by eapply same_terms_trans.
  - lia.
  - destruct (same_terms_fields _ _ T1) as [Hid _]. rewrite Hid in R2. congruence.
Qed.

Section match_loop.
Context `{Crypto} (frame : PairFrame) (h i lim side : N).

Lemma executeFill_ok acc maker price q :
  WellTyped (ma_state acc) -> getOrder (Order.id maker) (ma_state acc) = Some maker ->
  Order.filled_amount (ma_taker acc) <= Order.sell_amount (ma_taker acc) ->
  Order.sell_amount (ma_taker acc) < w64 ->
  Order.id maker <> Order.id (ma_taker acc) -> opposite (ma_taker acc) maker ->
  fillQuantities (ma_taker acc) maker price = Some q ->
  step_ok acc (executeFill frame h i maker price q acc).
Proof.
  intros Hwt Hg Hf Hs Hne [Hop1 Hop2] Hq. destruct q as [[qb qt] qm].
  pose proof (getOrder_lookup _ _ _ Hg) as Hl. destruct (wt_orders _ Hwt _ _ Hl) as [_ ? ? ?].
  destruct (isValid_filled _ (getOrder_valid _ _ _ Hg)) as [Hfm _].
  destruct (fillQuantities_le _ _ _ _ _ _ Hq) as (_ & [_ Hqt] & [_ Hqm]).
  assert (Hw : forall t, order_worth t (recordFill qt (ma_taker acc)) +
    at_token t (Order.sell_token (ma_taker acc)) qt = order_worth t (ma_taker acc))
    by (intros t; by apply recordFill_worth).
  destruct (recordFill_worth 0 qt (ma_taker acc) Hf Hs Hqt) as (_ & Hfill & Hfle).
  split; cbn [executeFill ma_state ma_taker].
  - intros t. rewrite value_indexFill.
    pose proof (value_settleFill t (ma_taker acc) maker qt qm (ma_state acc) Hl Hfm
      ltac:(done) Hqm ltac:(done) ltac:(done) ltac:(done)) as Hv. rewrite Hop2 in Hv.
    specialize (Hw t). lia.
  - eapply evolves_trans; [by apply evolves_settleFill|apply frame_indexFill].
  - apply same_terms_record.
  - lia.
  - change (orders (indexFill ?f ?a ?b ?c ?s)) with (orders s). by apply settleFill_other.
Qed.

Lemma matchStep_ok acc c acc' :
  matchStep frame h i lim side acc c = Some acc' ->
  WellTyped (ma_state acc) ->
  Order.filled_amount (ma_taker acc) <= Order.sell_amount (ma_taker acc) ->
  Order.sell_amount (ma_taker acc) < w64 ->
  candidates_ok (ma_taker acc) [c] (ma_state acc) -> step_ok acc acc'.
Proof.
  intros E Hwt Hf Hs Hc. destruct c as [mid mprice]. unfold matchStep in E.
  destruct (Order.isFullyFilled (ma_taker acc)); [done|].
  destruct (negb (OrderBook.crosses lim mprice side)); [done|].
  destruct (getOrder mid (ma_state acc)) as [maker|] eqn:Hg; [|simplify_eq; by apply step_ok_refl].
  pose proof (getOrder_lookup _ _ _ Hg) as Hl. destruct (wt_orders _ Hwt _ _ Hl) as [Hid _ _ _].
  destruct (isValid_filled _ (getOrder_valid _ _ _ Hg)) as (_ & _ & _ & Hown).
  destruct (Hc mid mprice maker ltac:(apply list_elem_of_here) Hl) as [Hne Hop].
  subst mid. unfold isNull in E. rewrite (proj2 (N.eqb_neq _ _) Hown) in E.
  destruct (Order.owner maker =? Order.owner (ma_taker acc)).
  { simplify_eq. split; cbn.
    - intros t. pose proof (value_refundOrder t _ maker true (ma_state acc) Hwt Hg). unfold cancelSelfTrade. lia.
    - apply evolves_refundOrder.
    - apply same_terms_refl.
    - lia.
    - by apply refundOrder_other. }
  destruct (OrderBook.canonicalPrice maker) as [price|] eqn:Hp; [|simplify_eq; by apply step_ok_refl].
  destruct (negb (OrderBook.crosses lim price side)); [done|].
  destruct (fillQuantities (ma_taker acc) maker price) as [q|] eqn:Hq; [|done].
  simplify_eq. by apply executeFill_ok.
Qed.

(** A step leaves the next one in the situation it started from. *)
Lemma matchStep_next c cs acc acc1 :
  matchStep frame h i lim side acc c = Some acc1 ->
  WellTyped (ma_state acc) -> Order.filled_amount (ma_taker acc) <= Order.sell_amount (ma_taker acc) ->
  Order.sell_amount (ma_taker acc) < w64 -> candidates_ok (ma_taker acc) (c :: cs) (ma_state acc) ->
  step_ok acc acc1 /\ WellTyped (ma_state acc1) /\
  Order.filled_amount (ma_taker acc1) <= Order.sell_amount (ma_taker acc1) /\
  Order.sell_amount (ma_taker acc1) < w64 /\ candidates_ok (ma_taker acc1) cs (ma_state acc1).
Proof.
  intros E Hwt Hf Hs Hc. assert (Hstep : step_ok acc acc1).
  { eapply matchStep_ok; [exact E|done..|]. intros j p o Hj.
    apply list_elem_of_singleton in Hj as <-. apply (Hc j p), list_elem_of_here. }
  split; [done|]. pose proof Hstep as [V1 E1 T1 F1 R1].
  destruct (same_terms_fields _ _ T1) as (_ & _ & _ & _ & Hsell & _).
  split_and!; [by eapply WellTyped_evolves|lia|by rewrite Hsell|].
  eapply candidates_ok_evolves; [|exact E1|exact T1].
  intros j p o Hj. apply (Hc j p o). by apply list_elem_of_further.
Qed.

Lemma matchLoop_ok cs acc :
  WellTyped (ma_state acc) ->
  Order.filled_amount (ma_taker acc) <= Order.sell_amount (ma_taker acc) ->
  Order.sell_amount (ma_taker acc) < w64 ->
  candidates_ok (ma_taker acc) cs (ma_state acc) ->
  step_ok acc (matchLoop frame h i lim side acc cs).
Proof.
  revert acc. induction cs as [|c cs IH]; intros acc Hwt Hf Hs Hc; [by apply step_ok_refl|].
  cbn. destruct (matchStep frame h i lim side acc c) as [acc1|] eqn:E; [|by apply step_ok_refl].
  destruct (matchStep_next _ _ _ _ E Hwt Hf Hs Hc) as (Hstep & ? & ? & ? & ?).
  eapply step_ok_trans; [exact Hstep|]. by apply IH.
Qed.

(** Storing the taker after the loop: its record then carries its lock. *)
Lemma value_restTaker t taker o st :
  orders st !! Order.id taker = Some o -> order_worth t taker <= order_worth t o ->
  value t (snd (restTaker taker st)) + order_worth t o <= value t st + order_worth t taker.
Proof.
  intros Ho Hw. unfold restTaker. case_match; cbn.
  - pose proof (value_deleteOrder t (Order.id taker) st) as Hd. rewrite Ho in Hd. cbn in Hd. lia.
  - pose proof (value_putOrder t taker st) as Hd. rewrite Ho in Hd. cbn in Hd.
    unfold putGlobalU64. rewrite value_addToOrderBook, value_putGlobal. lia.
Qed.
End match_loop.

Section match_passive.
Context `{Crypto}.

Lemma value_matchPassiveOrder t taker h i st :
  WellTyped st -> orders st !! Order.id taker = Some taker ->
  Order.filled_amount taker <= Order.sell_amount taker ->
  candidates_ok taker (collectCandidates taker st) st ->
  value t (snd (matchPassiveOrder taker h i st)) <= value t st.
Proof.
  intros Hwt Ho Hf Hc. unfold matchPassiveOrder. case_match; [done|].
  destruct (OrderBook.canonicalPrice taker) as [lim|]; [|done].
  destruct (wt_orders _ Hwt _ _ Ho) as [_ _ _ Hs].
  pose proof (matchLoop_ok (frameOf taker) h i lim (if sellsBase taker then 0 else 1)
    (collectCandidates taker st) (mkMatchAcc st taker [] 0 0) Hwt Hf Hs Hc) as [V E T F R].
  set (acc := matchLoop _ _ _ _ _ _ _) in *. clearbody acc. specialize (V t). cbn [ma_state ma_taker] in V, T, R, F.
  destruct (same_terms_fields _ _ T) as (Hid & _ & Hsell & _ & Hamt & _).
  pose proof (value_restTaker t (ma_taker acc) taker (ma_state acc)) as Hr.
  rewrite Hid, R in Hr. specialize (Hr Ho).
  destruct (restTaker (ma_taker acc) (ma_state acc)) as [rests st']; cbn [fst snd] in *.
  assert (order_worth t (ma_taker acc) <= order_worth t taker).
  { unfold order_worth. rewrite Hsell, Hamt. apply at_token_le. lia. }
  specialize (Hr ltac:(done)). lia.
Qed.
End match_passive.

(** ** Active orders *)

(** What a quote promises: it is of the order's pool, sells at most the
    remaining lock, and pays at most the reserve. *)
Record quote_ok (order : Order.t) (st : State) (q : RouteQuote) : Prop := {
  qo_pool : getAmmPool (Order.pool_id order) st = Some (rq_pool q);
  qo_active : AmmPool.active (rq_pool q) = true;
  qo_limit : exists limit ri ro max_in,
    OrderBook.canonicalPrice order = Some limit /\
    swapSides (rq_pool q) (Order.sell_token order) = Some (Order.buy_token order, ri, ro) /\
    0 < ri /\
    ActiveRouter.maxInputWithinLimit ri ro (AmmPool.fee_bps (rq_pool q)) limit = Some max_in /\
    rq_amount_in q = N.min max_in (Order.remainingAmount order) /\
    rq_amount_out q = ActiveRouter.computeOutput ri ro (AmmPool.fee_bps (rq_pool q)) (rq_amount_in q);
  qo_in : 0 < rq_amount_in q;
  qo_out : 0 < rq_amount_out q;
}.

Lemma routeReserves_sides pool order ri ro :
  AmmPool.token_a pool <> AmmPool.token_b pool ->
  routeReserves pool order = Some (ri, ro) ->
  swapSides pool (Order.sell_token order) = Some (Order.buy_token order, ri, ro).
Proof.
  intros Hne. unfold routeReserves, swapSides.
  destruct (N.eqb_spec (Order.sell_token order) (AmmPool.token_a pool)) as [Ha|Ha],
    (N.eqb_spec (Order.buy_token order) (AmmPool.token_b pool)) as [Hb|Hb],
    (N.eqb_spec (Order.sell_token order) (AmmPool.token_b pool)) as [Hc|Hc],
    (N.eqb_spec (Order.buy_token order) (AmmPool.token_a pool)) as [Hd|Hd]; cbn; intros; simplify_eq;
    try congruence; try done.
Qed.

Lemma routeQuote_ok order st q : routeQuote order st = inr q -> quote_ok order st q.
Proof.
  unfold routeQuote. do 4 (case_match; [done|]).
  destruct (getAmmPool (Order.pool_id order) st) as [pool|] eqn:Hp; [|done].
  destruct (AmmPool.active pool) eqn:Hact; cbn [negb]; [|done].
  pose proof (pool_valid_tokens _ (getAmmPool_valid _ _ _ Hp)) as Hlt.
  destruct (routeReserves pool order) as [[ri ro]|] eqn:Hr; [|done].
  destruct (N.eqb_spec ri 0); [done|]. destruct (ro =? 0); [done|]. cbn [orb].
  destruct (OrderBook.canonicalPrice order) as [lim|] eqn:Hc; [|done].
  destruct (ActiveRouter.maxInputWithinLimit _ _ _ _) as [mx|] eqn:Hm; [|done].
  destruct (mx =? 0); [done|].
  destruct (N.eqb_spec (N.min mx (Order.remainingAmount order)) 0); [done|].
  destruct (N.eqb_spec (ActiveRouter.computeOutput ri ro (AmmPool.fee_bps pool)
    (N.min mx (Order.remainingAmount order))) 0); [done|].
  intros [= <-]. split; cbn; try done; try lia.
  exists lim, ri, ro, mx. split_and!; try done; [|lia].
  apply routeReserves_sides; [lia|done].
Qed.

Section route_value.
Context `{Crypto}.

(** Facts about the reserves a quote of a well-typed store works on. *)
Lemma quote_amounts order st q :
  WellTyped st -> quote_ok order st q -> Order.sell_amount order < w64 ->
  Order.filled_amount order <= Order.sell_amount order ->
  exists ri ro, swapSides (rq_pool q) (Order.sell_token order) = Some (Order.buy_token order, ri, ro) /\
    rq_amount_in q <= Order.remainingAmount order /\ rq_amount_out q <= ro /\
    ri * ro <= (ri + rq_amount_in q) * (ro - rq_amount_out q).
Proof.
  intros Hwt [Hp _ (lim & ri & ro & mx & _ & Hs & Hri & _ & Hin & Hout) _ _] Hsell Hf.
  exists ri, ro. split; [done|]. split; [lia|].
  destruct (wt_pools _ Hwt _ _ (getAmmPool_lookup _ _ _ Hp)) as [_ _ _ Hra Hrb].
  assert (Hlt : ri < w64 /\ ro < w64).
  { revert Hs. unfold swapSides. repeat case_match; intros ?; by simplify_eq. }
  rewrite Hout. apply computeOutput_product; [done|lia|lia|].
  rewrite remaining_exact in Hin by done. lia.
Qed.

Lemma value_applyRoute t order q h i j st :
  WellTyped st -> orders st !! Order.id order = Some order ->
  Order.filled_amount order <= Order.sell_amount order -> quote_ok order st q ->
  value t (snd (applyRoute order q h i j st)) <= value t st.
Proof.
  intros Hwt Ho Hf Hq. destruct (wt_orders _ Hwt _ _ Ho) as [_ Hsl Hby Hsa].
  destruct (quote_amounts _ _ _ Hwt Hq Hsa Hf) as (ri & ro & Hs & Hin & Hout & _).
  destruct Hq as [Hp _ _ _ _]. destruct (wt_pools _ Hwt _ _ (getAmmPool_lookup _ _ _ Hp)) as [Hid _ _ _ _].
  pose proof (pool_valid_tokens _ (getAmmPool_valid _ _ _ Hp)) as Hlt.
  unfold applyRoute. cbn [snd]. frames.
  set (pool' := tradeReserves _ _ _ (rq_pool q)). set (vol := clrtyVolume _ _ _).
  pose proof (pool_worth_trade t _ (rq_amount_in q) _ _ _ _ _ Hs ltac:(lia) Hout) as Hw. fold pool' in Hw.
  pose proof (value_putAmmPool_replace t _ (rq_pool q) (recordVolume h vol pool') st Hp
    ltac:(unfold pool', recordVolume, tradeReserves; by repeat case_match)) as Hv1.
  rewrite pool_worth_recordVolume in Hv1. set (st1 := putAmmPool _ st) in *.
  pose proof (value_addTokens t (Order.owner order) (Order.buy_token order) (rq_amount_out q) st1) as Hv2.
  rewrite u32_id in Hv2 by done. set (st2 := addTokens _ _ _ st1) in *.
  destruct (recordFill_worth t _ order Hf Hsa Hin) as (Hw2 & _ & _).
  change (order <| Order.filled_amount := _ |>) with (recordFill (rq_amount_in q) order).
  assert (Ho2 : orders st2 !! Order.id order = Some order) by (unfold st2; by rewrite orders_addTokens).
  case_match.
  - pose proof (value_deleteOrder t (Order.id order) st2) as Hd. rewrite Ho2 in Hd. cbn in Hd.
    change (Order.id (recordFill (rq_amount_in q) order)) with (Order.id order). lia.
  - pose proof (value_putOrder t (recordFill (rq_amount_in q) order) st2) as Hd.
    change (Order.id (recordFill (rq_amount_in q) order)) with (Order.id order) in Hd.
    rewrite Ho2 in Hd. cbn in Hd. lia.
Qed.

Lemma value_executeActiveOrder t order h i fills st :
  WellTyped st -> orders st !! Order.id order = Some order ->
  Order.filled_amount order <= Order.sell_amount order ->
  value t (snd (executeActiveOrder order h i fills st)) <= value t st.
Proof.
  intros Hwt Ho Hf. unfold executeActiveOrder.
  destruct (routeQuote order st) as [out|q] eqn:Hq; [done|]. apply routeQuote_ok in Hq.
  pose proof (value_applyRoute t order q h i (u16 (N.of_nat (length fills))) st Hwt Ho Hf Hq) as Hv.
  by destruct (applyRoute order q h i (u16 (N.of_nat (length fills))) st).
Qed.

Lemma WellTyped_executeActiveOrder order h i fills st :
  WellTyped st -> orders st !! Order.id order = Some order ->
  WellTyped (snd (executeActiveOrder order h i fills st)).
Proof.
  intros Hwt Ho. unfold executeActiveOrder.
  destruct (routeQuote order st) as [out|q] eqn:Hq; [done|]. apply routeQuote_ok in Hq.
  destruct Hq as [Hp _ _ _ _]. unfold applyRoute. cbn [snd].
  set (pool' := recordVolume _ _ _). set (st1 := putAmmPool pool' st).
  assert (Hwt1 : WellTyped st1).
  { destruct Hwt as [Hwp Hwo Hwq]. split; [|done|done]. intros j p. cbn. rewrite lookup_insert_Some.
    intros [[<- <-]|[_ Hx]]; [|eauto].
    destruct (Hwp _ _ (getAmmPool_lookup _ _ _ Hp)). unfold pool', recordVolume, tradeReserves.
    repeat case_match; split; cbn; auto with words. }
  set (st2 := addTokens _ _ _ st1).
  eapply WellTyped_evolves; [exact Hwt1|].
  eapply evolves_trans; [|apply frame_indexFill].
  assert (He : evolves st1 st2) by apply frame_addTokens.
  case_match; [by apply evolves_delete|]. apply evolves_put; [done|]. exists order.
  split; [done|]. by destruct order.
Qed.
End route_value.
