(* ===== verification/Market.v ===== *)
(** * The market tables

    Well-typedness of the store ([WellTyped]) and the order-book invariant
    ([Book]): the book index holds exactly the live orders that were given a
    sequence number, under the key of their pair, side, price and sequence.
    Every handler and every block-level order step keeps both. *)

From S2P Require Import Prelude Types OrderBook StateAccess Ledger Amm Codec Matching.
From S2P Require Import BlockOrders ExecBase ExecAccounts ExecAmm ExecOrders ExecNft Executor.
From S2P Require Import Invariants ExecValue MatchValue.

(** ** The tables *)

Definition orderTables (st : State) :
    gmap N Order.t * gmap bytes N * gmap N N * option bytes * option bytes :=
  (orders st, idx_book st, order_sequences st, getGlobal "order:next_sequence" st,
   getGlobal "next_order_id" st).

Definition market (st : State) := (pools st, positions st, orderTables st).

Lemma market_putGlobal n v st :
  n <> "order:next_sequence" -> n <> "next_order_id" -> market (putGlobal n v st) = market st.
Proof.
  intros H1 H2. unfold market, orderTables. rewrite !getGlobal_put.
  by rewrite !bool_decide_eq_false_2 by congruence.
Qed.

Lemma market_putAccount a acct st : market (putAccount a acct st) = market st.
Proof.
  assert (H1 : forall old copy st, market (maintainStakerCount a old copy st) = market st).
  { intros old copy st'. unfold maintainStakerCount, putGlobalU64.
    repeat case_match; rewrite ?market_putGlobal by done; done. }
  assert (H2 : forall old copy st, market (maintainTotalStaked old copy st) = market st).
  { intros old copy st'. unfold maintainTotalStaked, putGlobalU64.
    case_match; rewrite ?market_putGlobal by done; done. }
  unfold putAccount. rewrite H1, H2. unfold indexNativeBalance. by repeat case_match.
Qed.

Lemma market_putTokenBalance a k x st : market (putTokenBalance a k x st) = market st.
Proof. unfold putTokenBalance. by case_match. Qed.
Lemma market_putTokenSupply k x st : market (putTokenSupply k x st) = market st.
Proof. unfold putTokenSupply. by case_match. Qed.
Lemma market_putValidatorKeyHistory i h st : market (putValidatorKeyHistory i h st) = market st.
Proof. unfold putValidatorKeyHistory. by case_match. Qed.
Lemma market_deleteNft i st : market (deleteNft i st) = market st.
Proof. unfold deleteNft. by case_match. Qed.
Lemma market_addOrderExpiry h i st : market (addOrderExpiry h i st) = market st.
Proof. unfold addOrderExpiry. by case_match. Qed.
Lemma market_removeOrderExpiry h i st : market (removeOrderExpiry h i st) = market st.
Proof. unfold removeOrderExpiry. by repeat case_match. Qed.
Lemma market_addTokens a k x st : market (addTokens a k x st) = market st.
Proof. unfold addTokens. case_match; [apply market_putAccount|apply market_putTokenBalance]. Qed.
Lemma market_subTokens a k x st : market (subTokens a k x st) = market st.
Proof. unfold subTokens. case_match; [apply market_putAccount|apply market_putTokenBalance]. Qed.
Lemma market_creditToken a k x st : market (creditToken a k x st) = market st.
Proof. unfold creditToken. case_match; [done|apply market_addTokens]. Qed.
Lemma market_credit a k x st : market (credit a k x st) = market st.
Proof. unfold credit. repeat case_match; [done|done|apply market_addTokens]. Qed.

Lemma market_putToken x st : market (putToken x st) = market st.
Proof. done. Qed.
Lemma market_putValidator x st : market (putValidator x st) = market st.
Proof. done. Qed.
Lemma market_deleteValidator x st : market (deleteValidator x st) = market st.
Proof. done. Qed.
Lemma market_putValidatorByAddress x y st : market (putValidatorByAddress x y st) = market st.
Proof. done. Qed.
Lemma market_deleteValidatorByAddress x st : market (deleteValidatorByAddress x st) = market st.
Proof. done. Qed.
Lemma market_putNft x st : market (putNft x st) = market st.
Proof. done. Qed.
Lemma market_unindexNft x st : market (unindexNft x st) = market st.
Proof. done. Qed.
Lemma market_putNftCollection x st : market (putNftCollection x st) = market st.
Proof. done. Qed.
Lemma market_putPositionIndex x y z st : market (putPositionIndex x y z st) = market st.
Proof. done. Qed.
Lemma market_deletePositionIndex x y st : market (deletePositionIndex x y st) = market st.
Proof. done. Qed.
Lemma market_clearOrderExpiry x st : market (clearOrderExpiry x st) = market st.
Proof. done. Qed.
Lemma market_indexFill `{Crypto} x y z w st : market (indexFill x y z w st) = market st.
Proof. done. Qed.

(** The writes that leave the market alone. *)
Ltac market_write :=
  lazymatch goal with
  | |- market (putAccount _ _ _) = _ => apply market_putAccount
  | |- market (putGlobal _ _ _) = _ => apply market_putGlobal; discriminate
  | |- market (putTokenBalance _ _ _ _) = _ => apply market_putTokenBalance
  | |- market (putTokenSupply _ _ _) = _ => apply market_putTokenSupply
  | |- market (putValidatorKeyHistory _ _ _) = _ => apply market_putValidatorKeyHistory
  | |- market (deleteNft _ _) = _ => apply market_deleteNft
  | |- market (addOrderExpiry _ _ _) = _ => apply market_addOrderExpiry
  | |- market (removeOrderExpiry _ _ _) = _ => apply market_removeOrderExpiry
  | |- market (addTokens _ _ _ _) = _ => apply market_addTokens
  | |- market (subTokens _ _ _ _) = _ => apply market_subTokens
  | |- market (creditToken _ _ _ _) = _ => apply market_creditToken
  | |- market (putToken _ _) = _ => apply market_putToken
  | |- market (putValidator _ _) = _ => apply market_putValidator
  | |- market (deleteValidator _ _) = _ => apply market_deleteValidator
  | |- market (putValidatorByAddress _ _ _) = _ => apply market_putValidatorByAddress
  | |- market (deleteValidatorByAddress _ _) = _ => apply market_deleteValidatorByAddress
  | |- market (putNft _ _) = _ => apply market_putNft
  | |- market (unindexNft _ _) = _ => apply market_unindexNft
  | |- market (putNftCollection _ _) = _ => apply market_putNftCollection
  | |- market (putPositionIndex _ _ _ _) = _ => apply market_putPositionIndex
  | |- market (deletePositionIndex _ _ _) = _ => apply market_deletePositionIndex
  | |- market (clearOrderExpiry _ _) = _ => apply market_clearOrderExpiry
  | |- market (indexFill _ _ _ _ _) = _ => apply market_indexFill
  end.

(** ** The book invariant *)

Section book.
Context `{Crypto}.

Definition bookKeyOf (o : Order.t) (price sequence : N) : bytes :=
  OrderBook.encodeBookKey (OrderBook.pairKey (Order.sell_token o) (Order.buy_token o))
    (OrderBook.sideOf o) price sequence.

#[local] Arguments bookKeyOf : simpl never.

(** Collision resistance of the hash on the pairs of 32-bit token ids. *)
Definition CollisionFree : Prop :=
  forall a b c d, a < w32 -> b < w32 -> c < w32 -> d < w32 ->
    be_split 32 (OrderBook.pairKey a b) = be_split 32 (OrderBook.pairKey c d) ->
    N.min a b = N.min c d /\ N.max a b = N.max c d.

(** [n] bounds the order ids in use. *)
Record BookUpTo (n : N) (st : State) : Prop := {
  bk_row key i : idx_book st !! key = Some i -> exists o p seq,
    orders st !! i = Some o /\ order_sequences st !! i = Some seq /\
    OrderBook.canonicalPrice o = Some p /\ key = bookKeyOf o p seq;
  bk_seq i seq : order_sequences st !! i = Some seq ->
    seq <= getGlobalU64 "order:next_sequence" st /\ exists o p,
    orders st !! i = Some o /\ Order.mode o = OrderExecutionMode.Passive /\
    OrderBook.canonicalPrice o = Some p /\ idx_book st !! bookKeyOf o p seq = Some i;
  bk_ids i o : orders st !! i = Some o -> i < n;
}.

Definition Book (st : State) : Prop := BookUpTo (nextOrderId st) st.

Lemma BookUpTo_frame n st st' : orderTables st' = orderTables st -> BookUpTo n st -> BookUpTo n st'.
Proof.
  intros Hc [Hr Hs Hi]. injection Hc as Ho Hb Hq Hg _. split.
  - intros key i. rewrite Hb, Ho, Hq. apply Hr.
  - intros i seq. unfold getGlobalU64. rewrite Hb, Ho, Hq, Hg. apply Hs.
  - intros i o. rewrite Ho. apply Hi.
Qed.

Lemma Book_frame st st' : orderTables st' = orderTables st -> Book st -> Book st'.
Proof.
  intros Hc Hb. unfold Book. assert (Hn : nextOrderId st' = nextOrderId st).
  { unfold nextOrderId. by injection Hc as _ _ _ _ ->. }
  rewrite Hn. by eapply BookUpTo_frame.
Qed.

Lemma canonicalPrice_terms o o' :
  same_terms o o' -> OrderBook.canonicalPrice o' = OrderBook.canonicalPrice o.
Proof. intros ->. by destruct o. Qed.

Lemma bookKeyOf_terms o o' p seq : same_terms o o' -> bookKeyOf o' p seq = bookKeyOf o p seq.
Proof. intros ->. by destruct o. Qed.

Lemma mode_terms o o' : same_terms o o' -> Order.mode o' = Order.mode o.
Proof. intros ->. by destruct o. Qed.

(** Replacing a record by one with the same terms. *)
Lemma BookUpTo_put_same n o o' st :
  orders st !! Order.id o' = Some o -> same_terms o o' ->
  BookUpTo n st -> BookUpTo n (putOrder o' st).
Proof.
  intros Ho Hst [Hr Hs Hi]. split; cbn.
  - intros key i Hk. destruct (Hr key i Hk) as (x & p & seq & Hx & Hq & Hp & ->).
    destruct (decide (i = Order.id o')) as [->|Hne].
    + rewrite Ho in Hx. injection Hx as <-. exists o', p, seq.
      rewrite lookup_insert_eq, (canonicalPrice_terms _ _ Hst), (bookKeyOf_terms _ _ _ _ Hst). done.
    + exists x, p, seq. by rewrite lookup_insert_ne.
  - intros i seq Hq. destruct (Hs i seq Hq) as (Hle & x & p & Hx & Hm & Hp & Hk). split; [exact Hle|].
    destruct (decide (i = Order.id o')) as [->|Hne].
    + rewrite Ho in Hx. injection Hx as <-. exists o', p.
      rewrite lookup_insert_eq, (canonicalPrice_terms _ _ Hst), (bookKeyOf_terms _ _ _ _ Hst),
        (mode_terms _ _ Hst). done.
    + exists x, p. by rewrite lookup_insert_ne.
  - intros i x. rewrite lookup_insert_Some. intros [[<- _]|[_ Hx]]; eauto.
Qed.

(** A new record under an unused id, not yet in the book. *)
Lemma BookUpTo_put_new n o st :
  n <= Order.id o -> BookUpTo n st -> BookUpTo (Order.id o + 1) (putOrder o st).
Proof.
  intros Hn [Hr Hs Hi].
  assert (Hf : forall i x, orders st !! i = Some x -> i <> Order.id o).
  { intros i x Hx ->. specialize (Hi _ _ Hx). lia. }
  split; cbn.
  - intros key i Hk. destruct (Hr key i Hk) as (x & p & seq & Hx & Hrest). exists x, p, seq.
    rewrite lookup_insert_ne; [done|]. symmetry. eauto.
  - intros i seq Hq. destruct (Hs i seq Hq) as (Hle & x & p & Hx & Hrest). split; [exact Hle|].
    exists x, p. rewrite lookup_insert_ne; [done|]. symmetry. eauto.
  - intros i x. rewrite lookup_insert_Some. intros [[<- _]|[_ Hx]]; [lia|].
    specialize (Hi _ _ Hx). lia.
Qed.

(** Deleting an order that was never sequenced. *)
Lemma BookUpTo_delete_unsequenced n i st :
  order_sequences st !! i = None -> BookUpTo n st -> BookUpTo n (deleteOrder i st).
Proof.
  intros Hnone [Hr Hs Hi]. split; cbn.
  - intros key j Hk. destruct (Hr key j Hk) as (x & p & seq & Hx & Hq & Hrest).
    exists x, p, seq. rewrite lookup_delete_ne by congruence. done.
  - intros j seq Hq. destruct (Hs j seq Hq) as (Hle & x & p & Hx & Hrest). split; [exact Hle|].
    exists x, p. rewrite lookup_delete_ne by congruence. done.
  - intros j x. rewrite lookup_delete_Some. intros [_ Hx]. eauto.
Qed.

(** Removing an order's row and its record. *)
Lemma BookUpTo_remove n o o0 st :
  Order.id o <> INVALID_ID -> orders st !! Order.id o = Some o0 -> same_terms o0 o ->
  BookUpTo n st -> BookUpTo n (deleteOrder (Order.id o) (removeFromOrderBook o st)).
Proof.
  intros Hid Ho Hst HB. unfold removeFromOrderBook.
  destruct (N.eqb_spec (Order.id o) INVALID_ID); [done|].
  destruct (order_sequences st !! Order.id o) as [seq|] eqn:Hq;
    [|by apply BookUpTo_delete_unsequenced].
  pose proof HB as [Hr Hs Hi].
  destruct (Hs _ _ Hq) as (_ & x & p & Hx & _ & Hp & Hk). rewrite Ho in Hx. injection Hx as <-.
  rewrite (canonicalPrice_terms _ _ Hst), Hp.
  change (OrderBook.encodeBookKey _ _ p seq) with (bookKeyOf o p seq).
  rewrite (bookKeyOf_terms _ _ _ _ Hst). split; cbn.
  - intros key j. rewrite lookup_delete_Some. intros [Hne Hkey].
    destruct (Hr key j Hkey) as (x & p' & seq' & Hx & Hq' & Hp' & ->).
    assert (j <> Order.id o) by (intros ->; simplify_eq).
    exists x, p', seq'. by rewrite !lookup_delete_ne.
  - intros j seq' Hj. rewrite lookup_delete_Some in Hj. destruct Hj as [Hne Hj].
    destruct (Hs j seq' Hj) as (Hle & x & p' & Hx & Hm' & Hp' & Hk'). split; [exact Hle|].
    exists x, p'. rewrite lookup_delete_ne, lookup_delete_ne; [done| |done].
    intros Heq. rewrite <-Heq, Hk in Hk'. congruence.
  - intros j x. rewrite lookup_delete_Some. intros [_ Hx]. eauto.
Qed.

(** ** Book keys *)

Lemma encodeBookKey_seq pk side p s pk' side' p' s' :
  s < w64 -> s' < w64 ->
  OrderBook.encodeBookKey pk side p s = OrderBook.encodeBookKey pk' side' p' s' -> s = s'.
Proof.
  intros Hs Hs' E. unfold OrderBook.encodeBookKey in E.
  apply app_inj_1 in E as [_ E]; [|by rewrite !length_be_split].
  apply app_inj_1 in E as [_ E]; [|done].
  apply app_inj_1 in E as [_ E]; [|by rewrite !length_be_split]. by apply be_split_inj in E.
Qed.

Lemma encodeBookKey_prefix pk side p s :
  take 33 (OrderBook.encodeBookKey pk side p s) = OrderBook.bookPrefix pk side.
Proof.
  unfold OrderBook.encodeBookKey, OrderBook.bookPrefix. rewrite app_assoc, take_app_length'; [done|].
  by rewrite length_app, length_be_split.
Qed.

Lemma bookPrefix_inj pk side pk' side' :
  side < 2 -> side' < 2 -> OrderBook.bookPrefix pk side = OrderBook.bookPrefix pk' side' ->
  be_split 32 pk = be_split 32 pk' /\ side = side'.
Proof.
  intros Hs Hs' E. unfold OrderBook.bookPrefix in E.
  apply app_inj_1 in E as [E1 E2]; [|by rewrite !length_be_split]. split; [done|].
  injection E2 as E2. unfold u8 in E2. rewrite !N.mod_small in E2 by lia. done.
Qed.

(** ** Entering the book *)

Lemma BookUpTo_nextSequence n st :
  getGlobalU64 "order:next_sequence" st + 1 < w64 -> BookUpTo n st ->
  BookUpTo n (snd (nextOrderSequence st)) /\
  fst (nextOrderSequence st) = getGlobalU64 "order:next_sequence" st + 1 /\
  getGlobalU64 "order:next_sequence" (snd (nextOrderSequence st)) = fst (nextOrderSequence st).
Proof.
  intros Hn [Hr Hs Hi].
  assert (Hc : getGlobalU64 "order:next_sequence" (snd (nextOrderSequence st)) =
    fst (nextOrderSequence st)) by (cbn; rewrite getGlobalU64_put by auto with words; done).
  assert (Hf : fst (nextOrderSequence st) = getGlobalU64 "order:next_sequence" st + 1)
    by (cbn; by apply add64_id).
  split_and!; [|done|done]. split.
  - exact Hr.
  - intros i seq Hq. rewrite Hc, Hf. destruct (Hs i seq Hq) as [Hle Hrest]. split; [lia|exact Hrest].
  - exact Hi.
Qed.

Lemma BookUpTo_add n o seq st :
  Order.mode o = OrderExecutionMode.Passive ->
  orders st !! Order.id o = Some o -> order_sequences st !! Order.id o = None ->
  seq <= getGlobalU64 "order:next_sequence" st -> seq < w64 ->
  (forall i s, order_sequences st !! i = Some s -> s < seq) ->
  BookUpTo n st -> BookUpTo n (addToOrderBook o seq st).
Proof.
  intros Hmode Ho Hnone Hseq Hlt Hold [Hr Hs Hi]. unfold addToOrderBook.
  destruct (Order.id o =? INVALID_ID); [by split|]. destruct (Order.isFullyFilled o); [by split|].
  destruct (OrderBook.canonicalPrice o) as [p|] eqn:Hp; [|by split].
  change (OrderBook.encodeBookKey _ _ p seq) with (bookKeyOf o p seq).
  assert (Hfresh : idx_book st !! bookKeyOf o p seq = None).
  { destruct (idx_book st !! bookKeyOf o p seq) as [j|] eqn:E; [|done]. exfalso.
    destruct (Hr _ _ E) as (x & p' & s' & _ & Hq & _ & Hk). pose proof (Hold _ _ Hq).
    apply (encodeBookKey_seq _ _ _ seq _ _ _ s') in Hk; [lia|done|lia]. }
  split; cbn.
  - intros key j. rewrite lookup_insert_Some. intros [[<- <-]|[_ Hk]].
    + exists o, p, seq. by rewrite lookup_insert_eq.
    + destruct (Hr _ _ Hk) as (x & p' & s' & Hx & Hq & Hrest). exists x, p', s'.
      rewrite lookup_insert_ne by congruence. done.
  - intros j s. rewrite lookup_insert_Some. intros [[<- <-]|[_ Hq]].
    + split; [done|]. exists o, p. by rewrite lookup_insert_eq.
    + destruct (Hs _ _ Hq) as (Hle & x & p' & Hx & Hm' & Hp' & Hk). split; [done|].
      exists x, p'. rewrite lookup_insert_ne by congruence. done.
  - exact Hi.
Qed.

(** ** Through the matching loop *)

(** The book beside a taker that has not entered it, with a sequence number
    left for it. *)
Definition TakerBook (n tid : N) (st : State) : Prop :=
  BookUpTo n st /\ order_sequences st !! tid = None /\
  getGlobalU64 "order:next_sequence" st + 1 < w64.

Lemma TakerBook_frame n tid st st' :
  orderTables st' = orderTables st -> TakerBook n tid st -> TakerBook n tid st'.
Proof.
  intros Hc (Hb & Hn & Hs). split; [by eapply BookUpTo_frame|]. injection Hc as _ _ Hq Hg _.
  rewrite Hq. split; [done|]. unfold getGlobalU64. by rewrite Hg.
Qed.

Lemma orderTables_market st st' : market st' = market st -> orderTables st' = orderTables st.
Proof. intros E. exact (f_equal snd E). Qed.

Lemma TakerBook_market n tid st st' :
  market st' = market st -> TakerBook n tid st -> TakerBook n tid st'.
Proof. intros Hm. by apply TakerBook_frame, orderTables_market. Qed.

Lemma sequences_remove o st j :
  order_sequences st !! j = None -> order_sequences (removeFromOrderBook o st) !! j = None.
Proof.
  intros Hj. unfold removeFromOrderBook. repeat case_match; cbn; try done.
  by rewrite lookup_delete_None; right.
Qed.

Lemma TakerBook_remove n tid o o0 st :
  Order.id o <> INVALID_ID -> orders st !! Order.id o = Some o0 -> same_terms o0 o ->
  TakerBook n tid st -> TakerBook n tid (deleteOrder (Order.id o) (removeFromOrderBook o st)).
Proof.
  intros Hid Ho Hs (Hb & Hn & Hg). split; [by eapply BookUpTo_remove|].
  split; [by apply sequences_remove|]. unfold removeFromOrderBook. by repeat case_match.
Qed.

Lemma TakerBook_refundOrder n tid o fee st :
  orders st !! Order.id o = Some o -> TakerBook n tid st -> TakerBook n tid (refundOrder o fee st).
Proof.
  intros Ho Hb. unfold refundOrder. destruct (N.eqb_spec (Order.id o) INVALID_ID); [done|].
  do 2 (case_match; [done|]).
  match goal with |- TakerBook _ _ (deleteOrder _ (removeFromOrderBook _ ?s)) =>
    assert (Hm : market s = market st)
      by (case_match; rewrite ?market_removeOrderExpiry; apply market_addTokens) end.
  eapply TakerBook_remove; [done| |apply same_terms_refl|by eapply TakerBook_market].
  by injection Hm as _ _ ->.
Qed.

Lemma TakerBook_settleFill n tid taker maker x y st :
  orders st !! Order.id maker = Some maker -> Order.id maker <> INVALID_ID ->
  TakerBook n tid st -> TakerBook n tid (settleFill taker maker x y st).
Proof.
  intros Hm Hid Hb. unfold settleFill. cbv zeta.
  set (st1 := credit _ _ _ (credit _ _ _ st)).
  assert (Hmk : market st1 = market st) by (unfold st1; by rewrite !market_credit).
  assert (Ho : orders st1 !! Order.id (recordFill y maker) = Some maker)
    by (by injection Hmk as _ _ ->).
  assert (Hb1 : TakerBook n tid st1) by (by eapply TakerBook_market). clearbody st1.
  case_match.
  - eapply TakerBook_remove; [done|exact Ho|apply same_terms_record|done].
  - destruct Hb1 as [Hb1 Hn]. split; [|exact Hn]. eapply BookUpTo_put_same; [done| |done].
    apply same_terms_record.
Qed.

Lemma TakerBook_matchStep n tid frame h i lim side acc c acc' :
  matchStep frame h i lim side acc c = Some acc' -> WellTyped (ma_state acc) ->
  TakerBook n tid (ma_state acc) -> TakerBook n tid (ma_state acc').
Proof.
  intros E Hwt Hb. destruct c as [mid mprice]. unfold matchStep in E. do 2 (case_match; [done|]).
  destruct (getOrder mid (ma_state acc)) as [maker|] eqn:Hg; [|by simplify_eq].
  pose proof (getOrder_lookup _ _ _ Hg) as Hl. destruct (wt_orders _ Hwt _ _ Hl) as [Hid _ _ _].
  destruct (isValid_filled _ (getOrder_valid _ _ _ Hg)) as (_ & _ & Hnz & _). rewrite <-Hid in Hl.
  case_match; [simplify_eq; by eapply TakerBook_remove; [|exact Hl|apply same_terms_refl|]|].
  case_match; [simplify_eq; by apply TakerBook_refundOrder|].
  destruct (OrderBook.canonicalPrice maker); [|by simplify_eq]. case_match; [done|].
  destruct (fillQuantities _ _ _) as [[[qb qt] qm]|]; [|done]. simplify_eq.
  apply (TakerBook_frame _ _ (settleFill (ma_taker acc) maker qt qm (ma_state acc))); [done|].
  by apply TakerBook_settleFill.
Qed.

Lemma TakerBook_matchLoop n tid frame h i lim side cs acc :
  WellTyped (ma_state acc) -> Order.filled_amount (ma_taker acc) <= Order.sell_amount (ma_taker acc) ->
  Order.sell_amount (ma_taker acc) < w64 -> candidates_ok (ma_taker acc) cs (ma_state acc) ->
  TakerBook n tid (ma_state acc) -> TakerBook n tid (ma_state (matchLoop frame h i lim side acc cs)).
Proof.
  revert acc. induction cs as [|c cs IH]; intros acc Hwt Hf Hs Hc Hb; [done|]. cbn.
  destruct (matchStep frame h i lim side acc c) as [acc1|] eqn:E; [|done].
  destruct (matchStep_next _ _ _ _ _ _ _ _ _ E Hwt Hf Hs Hc) as (_ & Hwt1 & Hf1 & Hs1 & Hc1).
  apply IH; try done. by eapply TakerBook_matchStep.
Qed.

(** ** Matching, routing and cancelling keep the book *)

Lemma TakerBook_candidates n taker st :
  CollisionFree -> WellTyped st -> TakerBook n (Order.id taker) st ->
  Order.sell_token taker < w32 -> Order.buy_token taker < w32 ->
  Order.sell_token taker <> Order.buy_token taker ->
  candidates_ok taker (collectCandidates taker st) st.
Proof.
  intros Hcf Hwt ([Hr _ _] & Hn & _) Hs Hb Hne i p o Hin Ho. unfold collectCandidates in Hin.
  apply elem_of_take in Hin as (k & Hin%list_elem_of_lookup_2 & _).
  apply list_elem_of_fmap in Hin as ([[i' p'] sq] & [= -> ->] & Hin).
  unfold bookLevels in Hin. apply list_elem_of_omap in Hin as ([key j] & Hin & Hj).
  case_match; [|done]. injection Hj as -> _.
  unfold bookRows in Hin. rewrite merge_sort_Permutation, list_elem_of_filter in Hin.
  destruct Hin as [Hpre Hin%elem_of_map_to_list]. cbn [fst] in Hpre.
  destruct (Hr key i' Hin) as (x & px & seq & Hx & Hq & _ & ->). rewrite Ho in Hx. injection Hx as <-.
  split; [congruence|]. destruct (wt_orders _ Hwt _ _ Ho) as [_ Hos Hob _].
  change (length (OrderBook.bookPrefix _ _)) with 33%nat in Hpre.
  unfold bookKeyOf in Hpre. rewrite encodeBookKey_prefix in Hpre.
  apply bookPrefix_inj in Hpre as [Hpk Hside].
  - unfold frameOf in Hpk. cbn [base_token quote_token] in Hpk.
    apply Hcf in Hpk as [Hmin Hmax]; [|done|done|lia|lia].
    unfold OrderBook.sideOf, sellsBase in Hside. unfold opposite.
    destruct (N.ltb_spec (Order.sell_token o) (Order.buy_token o)),
      (N.ltb_spec (Order.sell_token taker) (Order.buy_token taker)); try done; lia.
  - unfold OrderBook.sideOf. by destruct (Order.sell_token o <? Order.buy_token o).
  - by destruct (sellsBase taker).
Qed.

(** The taker's last write: it enters the book with a fresh sequence, or is
    deleted. *)
Lemma restTaker_ok n taker o st :
  orders st !! Order.id taker = Some o -> same_terms o taker ->
  Order.mode taker = OrderExecutionMode.Passive ->
  TakerBook n (Order.id taker) st ->
  BookUpTo n (snd (restTaker taker st)) /\ evolves st (snd (restTaker taker st)).
Proof.
  intros Ho Hst Hmode (Hb & Hn & Hseq). unfold restTaker. case_match; cbn [snd].
  { split; [by apply BookUpTo_delete_unsequenced|]. apply evolves_delete, evolves_refl. }
  set (st1 := putOrder taker st).
  assert (Hb1 : BookUpTo n st1) by (by eapply BookUpTo_put_same).
  destruct (BookUpTo_nextSequence n st1 Hseq Hb1) as (Hb2 & Hf & Hc).
  assert (Hold : forall i s, order_sequences st1 !! i = Some s -> s < fst (nextOrderSequence st1)).
  { intros i s Hi. destruct (bk_seq _ _ Hb1 _ _ Hi) as [Hle _]. rewrite Hf. lia. }
  assert (He : evolves st st1).
  { apply evolves_put; [apply evolves_refl|eauto]. }
  destruct (nextOrderSequence st1) as [seq st2] eqn:E. cbn [fst snd] in *.
  assert (Ht : orders st2 = orders st1 /\ order_sequences st2 = order_sequences st1 /\
    pools st2 = pools st1 /\ positions st2 = positions st1).
  { unfold nextOrderSequence in E. injection E as <- <-. done. }
  destruct Ht as (Ht1 & Ht2 & Ht3 & Ht4). change (getGlobalU64 _ st1) with
    (getGlobalU64 "order:next_sequence" st) in Hf. split.
  - apply BookUpTo_add; try done.
    + rewrite Ht1. cbn. by rewrite lookup_insert_eq.
    + by rewrite Ht2.
    + by rewrite Hc.
    + lia.
    + by rewrite Ht2.
  - eapply evolves_trans; [exact He|]. eapply evolves_trans; [by apply evolves_frame|].
    apply evolves_frame; unfold addToOrderBook; by repeat case_match.
Qed.

Lemma matchPassiveOrder_ok n taker h i st :
  CollisionFree -> WellTyped st -> TakerBook n (Order.id taker) st ->
  orders st !! Order.id taker = Some taker ->
  Order.filled_amount taker <= Order.sell_amount taker ->
  Order.sell_token taker <> Order.buy_token taker ->
  BookUpTo n (snd (matchPassiveOrder taker h i st)) /\
  evolves st (snd (matchPassiveOrder taker h i st)) /\
  forall t, value t (snd (matchPassiveOrder taker h i st)) <= value t st.
Proof.
  intros Hcf Hwt Hb Ho Hf Hne. destruct (wt_orders _ Hwt _ _ Ho) as [_ Hs1 Hs2 Hs].
  pose proof (TakerBook_candidates _ _ _ Hcf Hwt Hb Hs1 Hs2 Hne) as Hc.
  split_and!; [| |intros t; by apply value_matchPassiveOrder].
  all: unfold matchPassiveOrder; destruct (_ || negb _) eqn:Hg; [apply Hb || apply evolves_refl|].
  all: destruct (OrderBook.canonicalPrice taker) as [lim|]; [|apply Hb || apply evolves_refl].
  all: pose proof (matchLoop_ok (frameOf taker) h i lim (if sellsBase taker then 0 else 1)
    (collectCandidates taker st) (mkMatchAcc st taker [] 0 0) Hwt Hf Hs Hc) as [_ E T _ R].
  all: pose proof (TakerBook_matchLoop _ _ (frameOf taker) h i lim (if sellsBase taker then 0 else 1)
    (collectCandidates taker st) (mkMatchAcc st taker [] 0 0) Hwt Hf Hs Hc Hb) as Hb'.
  all: set (acc := matchLoop _ _ _ _ _ _ _) in *; clearbody acc;
    cbn [ma_state ma_taker] in E, T, R.
  all: destruct (same_terms_fields _ _ T) as (Hid & _).
  all: apply orb_false_iff in Hg as [_ Hm%negb_false_iff%bool_decide_eq_true].
  all: destruct (restTaker_ok n (ma_taker acc) taker (ma_state acc)) as [Hrb Hre];
    [by rewrite Hid, R|done|by rewrite (mode_terms _ _ T)|by rewrite Hid|].
  all: destruct (restTaker (ma_taker acc) (ma_state acc)) as [rests st']; cbn [snd] in *.
  - done.
  - by eapply evolves_trans.
Qed.

(** A routed order is active, hence not in the book. *)
Lemma BookUpTo_applyRoute n order q h i j st :
  orders st !! Order.id order = Some order -> Order.mode order = OrderExecutionMode.Active ->
  BookUpTo n st -> BookUpTo n (snd (applyRoute order q h i j st)).
Proof.
  intros Ho Hm Hb. unfold applyRoute. cbn [snd].
  set (st2 := addTokens _ _ _ (putAmmPool _ st)).
  assert (Ht : orderTables st2 = orderTables st).
  { unfold st2. apply (eq_trans (orderTables_market _ _ (market_addTokens _ _ _ _))). done. }
  assert (Hb2 : BookUpTo n st2) by (by eapply BookUpTo_frame).
  injection Ht as Ho2 _ Hq2 _ _. clearbody st2.
  set (order' := order <| Order.filled_amount := _ |>).
  match goal with |- BookUpTo _ (indexFill _ _ _ _ ?s) =>
    apply (BookUpTo_frame n s); [done|] end.
  case_match.
  - apply BookUpTo_delete_unsequenced; [|done].
    destruct (order_sequences st2 !! Order.id order') as [s|] eqn:Hs; [|done].
    destruct (bk_seq _ _ Hb2 _ _ Hs) as (_ & x & p & Hx & Hmx & _).
    change (Order.id order') with (Order.id order) in Hx. rewrite Ho2, Ho in Hx. congruence.
  - eapply BookUpTo_put_same; [|by destruct order|done]. by rewrite Ho2.
Qed.

Lemma routeQuote_active order st q :
  routeQuote order st = inr q -> Order.mode order = OrderExecutionMode.Active.
Proof.
  unfold routeQuote. destruct (negb _) eqn:E; [done|]. intros _.
  by apply negb_false_iff, bool_decide_eq_true in E.
Qed.

Lemma BookUpTo_executeActiveOrder n order h i fs st :
  orders st !! Order.id order = Some order ->
  BookUpTo n st -> BookUpTo n (snd (executeActiveOrder order h i fs st)).
Proof.
  intros Ho Hb. unfold executeActiveOrder. destruct (routeQuote order st) as [out|q] eqn:Hq; [done|].
  pose proof (BookUpTo_applyRoute n order q h i (u16 (N.of_nat (length fs))) st Ho
    (routeQuote_active _ _ _ Hq) Hb) as Hb'. by destruct (applyRoute order q h i _ st).
Qed.

Lemma BookUpTo_deleteRestingOrder n o st st' :
  market st' = market st -> orders st !! Order.id o = Some o ->
  BookUpTo n st -> BookUpTo n (deleteRestingOrder o st').
Proof.
  intros Hm Ho Hb. unfold deleteRestingOrder.
  assert (Hb' : BookUpTo n st') by (by eapply BookUpTo_frame; [apply orderTables_market|]).
  destruct (N.eqb_spec (Order.id o) INVALID_ID); [done|].
  eapply (BookUpTo_frame n (deleteOrder (Order.id o) (removeFromOrderBook o st'))).
  - case_match; [done|]. unfold removeOrderExpiry. by repeat case_match.
  - eapply BookUpTo_remove; [done| |apply same_terms_refl|done]. by injection Hm as _ _ ->.
Qed.
End book.

(** ** Every handler keeps the market tables *)

Section market_handlers.
Context `{Crypto}.

Definition Market (st : State) : Prop := WellTyped st /\ Book st.

Lemma Market_frame st st' : market st' = market st -> Market st -> Market st'.
Proof.
  intros Hm [[Hp Ho Hq] Hb]. pose proof (orderTables_market _ _ Hm) as Ht.
  injection Hm as Hmp Hmq Hmo _ _ _ _. split; [|by eapply Book_frame]. split.
  - intros i p. rewrite Hmp. apply Hp.
  - intros i o. rewrite Hmo. apply Ho.
  - intros i p. rewrite Hmq. apply Hq.
Qed.

Lemma Market_putAmmPool p st : pool_wf (AmmPool.id p) p -> Market st -> Market (putAmmPool p st).
Proof.
  intros Hw [[Hp Ho Hq] Hb]. split; [split; try done|].
  - intros i x. cbn. rewrite lookup_insert_Some. intros [[<- <-]|[_ Hx]]; [done|eauto].
  - by apply (Book_frame st).
Qed.

Lemma Market_deleteAmmPool i st : Market st -> Market (deleteAmmPool i st).
Proof.
  intros [[Hp Ho Hq] Hb]. split; [split; try done|].
  - intros j x. cbn. rewrite lookup_delete_Some. intros [_ Hx]. eauto.
  - by apply (Book_frame st).
Qed.

Lemma Market_putAmmPosition p st : Market st -> Market (putAmmPosition p st).
Proof.
  intros [[Hp Ho Hq] Hb]. split; [split; try done|].
  - intros j x. cbn. rewrite lookup_insert_Some. intros [[<- <-]|[_ Hx]]; [done|eauto].
  - by apply (Book_frame st).
Qed.

Lemma Market_bumpNonce tx st : Market st -> Market (bumpNonce tx st).
Proof. apply Market_frame. unfold bumpNonce. apply market_putAccount. Qed.
End market_handlers.

Ltac market_ops :=
  repeat first
    [ match goal with |- Market ?s => is_var s; assumption end
    | lazymatch goal with
      | |- Market (putAmmPool _ _) => apply Market_putAmmPool
      | |- Market (deleteAmmPool _ _) => apply Market_deleteAmmPool
      | |- Market (putAmmPosition _ _) => apply Market_putAmmPosition
      end
    | eapply Market_frame; [market_write|] ].

Ltac solve_market :=
  apply preserves_wp; intros st HI; wp_run;
  unfold writeU64GlobalInternal, putGlobalU64, saveActiveSet; market_ops.

Section market_simple.
Context `{Crypto} (tx : Transaction.t) (ctx : Ctx.t).

Lemma Market_Transfer : preserves Market (executeTransfer tx ctx).
Proof. unfold executeTransfer. solve_market. Qed.
Lemma Market_OptInStaking : preserves Market (executeOptInStaking tx ctx).
Proof. unfold executeOptInStaking. solve_market. Qed.
Lemma Market_OptOutStaking : preserves Market (executeOptOutStaking tx ctx).
Proof. unfold executeOptOutStaking. solve_market. Qed.
Lemma Market_ClaimRewards : preserves Market (executeClaimRewards tx ctx).
Proof. unfold executeClaimRewards. solve_market. Qed.
Lemma Market_RegisterValidator : preserves Market (executeRegisterValidator tx ctx).
Proof. unfold executeRegisterValidator. solve_market. Qed.
Lemma Market_UnregisterValidator : preserves Market (executeUnregisterValidator tx ctx).
Proof. unfold executeUnregisterValidator. solve_market. Qed.
Lemma Market_UpdateRewardAddress : preserves Market (executeUpdateRewardAddress tx ctx).
Proof. unfold executeUpdateRewardAddress. solve_market. Qed.
Lemma Market_RotateConsensusKey : preserves Market (executeRotateConsensusKey tx ctx).
Proof. unfold executeRotateConsensusKey. solve_market. Qed.
Lemma Market_CreateToken : preserves Market (executeCreateToken tx ctx).
Proof. unfold executeCreateToken. solve_market. Qed.
Lemma Market_MintToken : preserves Market (executeMintToken tx ctx).
Proof. unfold executeMintToken. solve_market. Qed.
Lemma Market_BurnToken : preserves Market (executeBurnToken tx ctx).
Proof. unfold executeBurnToken. solve_market. Qed.
Lemma Market_UpdateTokenMeta : preserves Market (executeUpdateTokenMeta tx ctx).
Proof. unfold executeUpdateTokenMeta. solve_market. Qed.
Lemma Market_CreateNftCollection : preserves Market (executeCreateNftCollection tx ctx).
Proof. unfold executeCreateNftCollection. solve_market. Qed.
Lemma Market_MintNft : preserves Market (executeMintNft tx ctx).
Proof. unfold executeMintNft. solve_market. Qed.
Lemma Market_WrapNft : preserves Market (executeWrapNft tx ctx).
Proof. unfold executeWrapNft. solve_market. Qed.
Lemma Market_TransferNft : preserves Market (executeTransferNft tx ctx).
Proof. unfold executeTransferNft. solve_market. Qed.
Lemma Market_BurnNft : preserves Market (executeBurnNft tx ctx).
Proof. unfold executeBurnNft. solve_market. Qed.
Lemma Market_UpdateNftMetadata : preserves Market (executeUpdateNftMetadata tx ctx).
Proof. unfold executeUpdateNftMetadata. solve_market. Qed.
Lemma Market_TopUpNft : preserves Market (executeTopUpNft tx ctx).
Proof. unfold executeTopUpNft. solve_market. Qed.
Lemma Market_RefillCollectionReward : preserves Market (executeRefillCollectionReward tx ctx).
Proof. unfold executeRefillCollectionReward. solve_market. Qed.

Lemma claimOne_market h l acc : market (snd (foldl (claimOne h) acc l)) = market (snd acc).
Proof.
  revert acc. induction l as [|n l IH]; intros acc; [done|]. cbn [foldl]. rewrite IH.
  destruct acc as [total st]. unfold claimOne. by repeat case_match.
Qed.

Lemma Market_ClaimNftReward : preserves Market (executeClaimNftReward tx ctx).
Proof.
  apply preserves_wp. intros st HI. unfold executeClaimNftReward. wp_run; try done.
  all: set (acc := foldl _ _ _); assert (Hc : market (snd acc) = market st) by apply claimOne_market.
  all: eapply Market_frame; [|exact HI]; rewrite ?market_putAccount; exact Hc.
Qed.

Lemma pool_wf_of st i p : Market st -> getAmmPool i st = Some p -> pool_wf (AmmPool.id p) p.
Proof.
  intros [Hwt _] Hp%getAmmPool_lookup. pose proof (wt_pools _ Hwt _ _ Hp) as Hw.
  by rewrite (pool_wf_id _ _ Hw).
Qed.

Lemma Market_AddLiquidity : preserves Market (executeAddLiquidity tx ctx).
Proof.
  unfold executeAddLiquidity. solve_market.
  all: match goal with E : getAmmPool _ _ = Some ?p |- _ => destruct (pool_wf_of _ _ _ HI E) end.
  all: unfold depositReserves; case_match; split; cbn; auto with words.
Qed.

Lemma Market_RemoveLiquidity : preserves Market (executeRemoveLiquidity tx ctx).
Proof.
  unfold executeRemoveLiquidity. solve_market.
  all: match goal with E : getAmmPool _ _ = Some ?p |- _ => destruct (pool_wf_of _ _ _ HI E) end.
  all: split; cbn; auto with words.
Qed.

Lemma Market_Swap : preserves Market (executeSwap tx ctx).
Proof.
  unfold executeSwap. solve_market.
  all: match goal with E : getAmmPool _ _ = Some ?p |- _ => destruct (pool_wf_of _ _ _ HI E) end.
  rewrite tradeReserves_recordVolume. unfold recordVolume, tradeReserves.
  repeat case_match; split; cbn; auto with words.
Qed.

Lemma Market_CreatePool : Transaction.amount tx < w64 -> preserves Market (executeCreatePool tx ctx).
Proof.
  intros Ha. unfold executeCreatePool. solve_market.
  unfold parsePool. destruct (readU32At _ 0 <? u32 _); split; cbn; first [done | apply u32_lt | apply u64_lt].
Qed.

Lemma globals_deleteRestingOrder o st : globals (deleteRestingOrder o st) = globals st.
Proof.
  assert (H1 : globals (removeFromOrderBook o st) = globals st)
    by (unfold removeFromOrderBook; by repeat case_match).
  unfold deleteRestingOrder. case_match; [done|]. cbn. case_match; [done|].
  rewrite <-H1. unfold removeOrderExpiry. by repeat case_match.
Qed.

Lemma Market_deleteRestingOrder o st st' :
  market st' = market st -> orders st !! Order.id o = Some o ->
  Market st -> Market (deleteRestingOrder o st').
Proof.
  intros Hm Ho HI. pose proof (Market_frame _ _ Hm HI) as [Hwt' Hb']. destruct HI as [Hwt Hb].
  assert (Ho' : orders st' !! Order.id o = Some o) by (by injection Hm as _ _ ->).
  split.
  - eapply WellTyped_evolves; [exact Hwt'|]. unfold deleteRestingOrder.
    case_match; [apply evolves_refl|]. apply evolves_delete.
    eapply evolves_trans; [apply frame_removeFromOrderBook|].
    case_match; [apply evolves_refl|apply frame_removeOrderExpiry].
  - unfold Book. assert (Hn : nextOrderId (deleteRestingOrder o st') = nextOrderId st').
    { unfold nextOrderId, getGlobal. by rewrite globals_deleteRestingOrder. }
    rewrite Hn. by eapply (BookUpTo_deleteRestingOrder _ o st').
Qed.

Lemma Market_CancelOrder : preserves Market (executeCancelOrder tx ctx).
Proof.
  unfold executeCancelOrder. solve_market.
  all: match goal with E : getOrder ?i ?s = Some ?o |- _ =>
    pose proof (getOrder_lookup _ _ _ E) as Hl;
    pose proof (order_wf_id _ _ (wt_orders _ (proj1 HI) _ _ Hl)) as Hid; rewrite <-Hid in Hl end.
  all: eapply Market_deleteRestingOrder; [|exact Hl|exact HI].
  all: rewrite ?market_addTokens; done.
Qed.
End market_simple.

(** ** Creating an order *)

Section market_orders.
Context `{Crypto} (Hcf : CollisionFree).

(** The two order counters have not reached the end of their range. *)
Definition Roomy (st : State) : Prop :=
  nextOrderId st + 1 < w64 /\ getGlobalU64 "order:next_sequence" st + 1 < w64.

Lemma nextOrderId_put v st :
  v < w64 -> nextOrderId (putGlobal "next_order_id" (le_split 8 v) st) = v.
Proof.
  intros Hv. unfold nextOrderId. rewrite getGlobal_put, bool_decide_eq_true_2 by done.
  assert (Hl : length (le_split 8 v) = 8%nat) by apply length_le_split.
  pose proof (le_combine_split 8 v) as Hc. destruct (le_split 8 v) as [|b l]; [done|].
  rewrite take_ge by (by rewrite Hl). rewrite Hc. by apply N.mod_small.
Qed.

Lemma runOrder_ok n order ctx st :
  WellTyped st -> TakerBook n (Order.id order) st -> orders st !! Order.id order = Some order ->
  Order.filled_amount order <= Order.sell_amount order ->
  Order.sell_token order <> Order.buy_token order ->
  wp (runOrder order ctx) (fun _ st' => WellTyped st' /\ BookUpTo n st' /\
    forall t, value t st' <= value t st) st.
Proof.
  intros Hwt Hb Ho Hf Hne. unfold runOrder. destruct (bool_decide _).
  - apply wp_perform.
    destruct (matchPassiveOrder_ok n order (Ctx.current_height ctx) (Ctx.tx_index_in_block ctx) st)
      as (Hb' & He & Hv); try done.
    destruct (matchPassiveOrder order _ _ st) as [[out tk] st']. cbn in *.
    split; [by eapply WellTyped_evolves|done].
  - destruct (Order.condition_count order =? 0)%nat; [|by wp_run; split_and!; [|apply Hb|]].
    apply wp_bind, wp_perform.
    pose proof (BookUpTo_executeActiveOrder n order (Ctx.current_height ctx)
      (Ctx.tx_index_in_block ctx) [] st Ho (proj1 Hb)) as Hb'.
    pose proof (WellTyped_executeActiveOrder order (Ctx.current_height ctx)
      (Ctx.tx_index_in_block ctx) [] st Hwt Ho) as Hwt'.
    assert (Hv : forall t, value t (snd (executeActiveOrder order (Ctx.current_height ctx)
      (Ctx.tx_index_in_block ctx) [] st)) <= value t st)
      by (intros t; by apply value_executeActiveOrder).
    destruct (executeActiveOrder order _ _ [] st) as [[[out o'] fs] st']. cbn in *.
    by destruct out.
Qed.

Lemma buildOrder_wf tx ctx i :
  Transaction.amount tx < w64 -> order_wf i (buildOrder tx ctx i).
Proof. intros Ha. split; try done; apply u32_lt. Qed.

(** The state the order is run in: its amount locked, its record stored under
    the next id. *)
Lemma lockOrder_ok tx ctx st :
  Market st -> Roomy st -> Transaction.amount tx < w64 ->
  hasTokens (Transaction.from tx) (Transaction.token_id tx) (Transaction.amount tx) st = true ->
  let order := buildOrder tx ctx (nextOrderId st) in
  let st' := putOrder order
    (subTokens (Transaction.from tx) (Transaction.token_id tx) (Transaction.amount tx) st) in
  WellTyped st' /\ TakerBook (nextOrderId st + 1) (Order.id order) st' /\
  orders st' !! Order.id order = Some order /\ forall t, value t st' <= value t st.
Proof.
  intros HI [Hr1 Hr2] Ha Hh order st'.
  pose proof (market_subTokens (Transaction.from tx) (Transaction.token_id tx)
    (Transaction.amount tx) st) as Hm.
  set (st1 := subTokens _ _ _ st) in *. destruct (Market_frame _ _ Hm HI) as [[Hwp Hwo Hwq] Hb].
  assert (Hn : nextOrderId st1 = nextOrderId st) by (unfold nextOrderId; by injection Hm as _ _ _ _ _ _ ->).
  unfold Book in Hb. rewrite Hn in Hb. split_and!.
  - split; [done| |done]. intros i o. unfold st'. cbn. rewrite lookup_insert_Some.
    intros [[<- <-]|[_ Hx]]; [by apply buildOrder_wf|eauto].
  - split; [by apply (BookUpTo_put_new (nextOrderId st) order)|]. split.
    + destruct (order_sequences st1 !! Order.id order) as [s|] eqn:E; [|exact E]. exfalso.
      destruct (bk_seq _ _ Hb _ _ E) as (_ & o & p & Ho & _). pose proof (bk_ids _ _ Hb _ _ Ho) as Hlt.
      cbn in Hlt. lia.
    + change (getGlobalU64 "order:next_sequence" st') with (getGlobalU64 "order:next_sequence" st1).
      unfold getGlobalU64 in *. by injection Hm as _ _ _ _ _ -> _.
  - unfold st'. cbn. by rewrite lookup_insert_eq.
  - intros t. pose proof (value_putOrder t order st1) as Hp. fold st' in Hp.
    pose proof (value_subTokens t _ _ _ _ Hh) as Hs. fold st1 in Hs.
    unfold order_worth in Hp. cbn in Hp. rewrite N.sub_0_r in Hp. lia.
Qed.

Lemma finishOrder_ok k st :
  k + 1 < w64 -> WellTyped st -> BookUpTo (k + 1) st ->
  Market (putGlobal "next_order_id" (le_split 8 (k +64 1)) st).
Proof.
  intros Hk [Hwp Hwo Hwq] [Hr Hs Hi]. split; [done|]. unfold Book.
  rewrite nextOrderId_put, add64_id by auto with words. split; [done| |done].
  intros i seq Hq. unfold getGlobalU64. rewrite getGlobal_put, bool_decide_eq_false_2 by done.
  by apply Hs.
Qed.

Lemma createOrder_ok tx ctx st :
  Market st -> Roomy st -> Transaction.amount tx < w64 ->
  wp (executeCreateOrder tx ctx) (fun o st' => (forall fs, o = Ok fs -> Market st') /\
    forall t, value t st' <= value t st) st.
Proof.
  intros HI Hr Ha. unfold executeCreateOrder. wp_run; try done.
  all: set (order := buildOrder tx ctx (nextOrderId st)) in *.
  all: assert (Hov : Order.isValid order = true) by done;
    destruct (isValid_filled _ Hov) as (Hf & Hne & Hnz & _).
  all: destruct (lockOrder_ok tx ctx st) as (Hwt1 & Hb1 & Ho1 & Hv1); [done..|];
    fold order in Hwt1, Hb1, Ho1, Hv1.
  all: eapply wp_mono; [by apply (runOrder_ok (nextOrderId st + 1))|].
  all: intros o st' (Hwt' & Hb' & Hv').
  all: assert (Hv : forall t, value t st' <= value t st)
    by (intros t; specialize (Hv1 t); specialize (Hv' t); lia).
  all: destruct o as [fs| |]; [|by split|by split].
  all: wp_run; (split; [intros _ _; apply finishOrder_ok; [apply Hr| |]|intros t; by frames]); try done.
  all: unfold addOrderExpiry; case_match; [done|]; destruct Hwt', Hb'; by split.
Qed.
End market_orders.
