(* ===== verification/Conservation.v ===== *)
(** * Conservation

    The executor and the block-level order steps never raise the total of a
    token, and a successful transaction lowers the native total by its fee;
    they keep the market tables.  The handlers that mint are excluded by
    [conserving]. *)

From S2P Require Import Prelude Types OrderBook StateAccess Ledger Amm Codec Matching.
From S2P Require Import BlockOrders ExecBase ExecAccounts ExecAmm ExecOrders ExecNft Executor.
From S2P Require Import Invariants ExecValue MatchValue Market.

(** ** Block steps *)

Section block_steps.
Context `{Crypto}.

(** A market store whose totals are within those of [st0]. *)
Definition bounded_by (st0 st : State) : Prop :=
  Market st /\ forall t, value t st <= value t st0.

Lemma bounded_refl st : Market st -> bounded_by st st.
Proof. by split. Qed.

Lemma bounded_step st0 st st' :
  bounded_by st0 st -> Market st' -> (forall t, value t st' <= value t st) -> bounded_by st0 st'.
Proof. intros [_ H1] HM H2. split; [done|]. intros t. etrans; eauto. Qed.

Lemma bounded_foldl {A} (f : State -> A -> State) l st0 st :
  (forall st x, bounded_by st0 st -> bounded_by st0 (f st x)) ->
  bounded_by st0 st -> bounded_by st0 (foldl f st l).
Proof. intros Hf. revert st. induction l as [|x l IH]; intros st HI; [done|]. apply IH. auto. Qed.

Lemma stored_order i o st : Market st -> getOrder i st = Some o ->
  orders st !! Order.id o = Some o /\ Order.filled_amount o <= Order.sell_amount o /\ Order.id o = i.
Proof.
  intros [Hwt _] Hg. pose proof (getOrder_lookup _ _ _ Hg) as Hl.
  pose proof (order_wf_id _ _ (wt_orders _ Hwt _ _ Hl)) as Hid.
  destruct (isValid_filled _ (getOrder_valid _ _ _ Hg)) as [Hf _]. by rewrite Hid.
Qed.

Lemma Market_refund i o x st : Market st -> getOrder i st = Some o ->
  Market (deleteRestingOrder o
    (if 0 <? x then addTokens (Order.owner o) (Order.sell_token o) x st else st)).
Proof.
  intros HM Hg. destruct (stored_order _ _ _ HM Hg) as (Ho & _).
  eapply Market_deleteRestingOrder; [|exact Ho|done]. case_match; [apply market_addTokens|done].
Qed.

Lemma bounded_expireOrder st0 st i : bounded_by st0 st -> bounded_by st0 (expireOrder i st).
Proof.
  intros HB. pose proof HB as [HM _]. eapply bounded_step; [done| |intros t; by apply value_expireOrder, HM].
  unfold expireOrder. destruct (getOrder i st) eqn:Hg; [by eapply Market_refund|done].
Qed.

Lemma bounded_cancelOrderByCondition st0 st i :
  bounded_by st0 st -> bounded_by st0 (cancelOrderByCondition i st).
Proof.
  intros HB. pose proof HB as [HM _].
  eapply bounded_step; [done| |intros t; by apply value_cancelOrderByCondition, HM].
  unfold cancelOrderByCondition. destruct (getOrder i st) eqn:Hg; [by eapply Market_refund|done].
Qed.

Lemma bounded_processOrderExpiries h st : Market st -> bounded_by st (processOrderExpiries h st).
Proof.
  intros HM. unfold processOrderExpiries. case_match; [by apply bounded_refl|].
  match goal with |- bounded_by _ (clearOrderExpiry _ ?s) =>
    assert (HB : bounded_by st s) end.
  { apply bounded_foldl; [|by apply bounded_refl]. intros. by apply bounded_expireOrder. }
  eapply bounded_step; [exact HB| |intros t; done]. eapply Market_frame; [|apply HB]. done.
Qed.

Lemma nextOrderId_executeActiveOrder order h i fs st :
  nextOrderId (snd (executeActiveOrder order h i fs st)) = nextOrderId st.
Proof.
  unfold executeActiveOrder. destruct (routeQuote order st); [done|]. unfold applyRoute. cbn [snd].
  set (st2 := addTokens _ _ _ _).
  assert (Hg : getGlobal "next_order_id" st2 = getGlobal "next_order_id" st).
  { exact (f_equal snd (orderTables_market _ _ (market_addTokens _ _ _ _))). }
  assert (Hn : nextOrderId st2 = nextOrderId st) by (unfold nextOrderId; by rewrite Hg).
  rewrite <-Hn. clearbody st2. by case_match.
Qed.

Lemma bounded_executeActiveOrder st0 order h i fs st :
  bounded_by st0 st -> getOrder (Order.id order) st = Some order ->
  bounded_by st0 (snd (executeActiveOrder order h i fs st)).
Proof.
  intros HB Hg. pose proof HB as [HM _]. destruct (stored_order _ _ _ HM Hg) as (Ho & Hf & _).
  eapply bounded_step; [done| |intros t; by apply value_executeActiveOrder; [apply HM| |]].
  split; [by apply WellTyped_executeActiveOrder; [apply HM|]|].
  unfold Book. rewrite nextOrderId_executeActiveOrder. apply BookUpTo_executeActiveOrder; [done|apply HM].
Qed.

Lemma bounded_routeOrder st0 h acc i :
  bounded_by st0 (snd acc) -> bounded_by st0 (snd (routeOrder h acc i)).
Proof.
  destruct acc as [fs st]. intros HB. cbn in HB. unfold routeOrder.
  destruct (getOrder i st) as [o|] eqn:Hg; [|done].
  destruct (stored_order _ _ _ (proj1 HB) Hg) as (_ & _ & Hid). rewrite <-Hid in Hg.
  pose proof (bounded_executeActiveOrder st0 o h (u32 i) fs st HB Hg) as HR.
  destruct (executeActiveOrder o h (u32 i) fs st) as [[[[] o'] fs'] st']; try done.
  by apply bounded_cancelOrderByCondition.
Qed.

Lemma bounded_evaluateOrderConditions h fs st :
  Market st -> bounded_by st (snd (evaluateOrderConditions h fs st)).
Proof.
  intros HM. unfold evaluateOrderConditions.
  assert (HB : forall l, bounded_by st (foldl (fun s i => cancelOrderByCondition i s) st l)).
  { intros l. apply bounded_foldl; [|by apply bounded_refl]. intros.
    by apply bounded_cancelOrderByCondition. }
  specialize (HB (ordersToCancel h st)). revert HB.
  generalize (foldl (fun s i => cancelOrderByCondition i s) st (ordersToCancel h st)) as st1.
  generalize fs as fs1. induction (ordersToRoute h st) as [|i l IH]; intros fs1 st1 HB; [done|].
  cbn [foldl]. pose proof (bounded_routeOrder st h (fs1, st1) i HB) as Hr.
  destruct (routeOrder h (fs1, st1) i) as [fs2 st2]. by apply IH.
Qed.

Lemma Market_processUnbondExpiries h st : Market st -> Market (processUnbondExpiries h st).
Proof.
  intros HM. unfold processUnbondExpiries.
  match goal with |- Market (foldl _ _ ?l) => generalize l end. intros l. revert st HM.
  induction l as [|v l IH]; intros st HM; [done|]. apply IH. unfold releaseValidator.
  case_match; market_ops.
Qed.
End block_steps.

(** ** The executor *)

Section executor_value.
Context `{Crypto}.

(** The checks of [execute] before dispatch, as one test. *)
Definition admitted (tx : Transaction.t) (ctx : Ctx.t) (st : State) : bool :=
  Transaction.isWellFormed tx && (Transaction.chain_id tx =? Ctx.chain_id ctx) &&
  checkExpiry tx ctx && verifySignature tx && verifyNonce tx st &&
  (Transaction.fee tx <=? Account.balance (getAccount (Transaction.from tx) st)).

(** The state after the fee is taken. *)
Definition charged (tx : Transaction.t) (st : State) : State :=
  let sender := getAccount (Transaction.from tx) st in
  putAccount (Transaction.from tx)
    (sender <| Account.balance := Account.balance sender -64 Transaction.fee tx |>) st.

Lemma precheck_run tx ctx st :
  precheck tx ctx st = if admitted tx ctx st then (Ok (), charged tx st) else (Fail, st).
Proof.
  unfold precheck, admitted, chargeFee, require, gets, modify, charged, mbind, Exec_bind.
  destruct (Transaction.isWellFormed tx); [|done].
  destruct (Transaction.chain_id tx =? Ctx.chain_id ctx); [|done].
  destruct (checkExpiry tx ctx); [|done]. destruct (verifySignature tx); [|done].
  destruct (verifyNonce tx st); [|done].
  by destruct (Transaction.fee tx <=? Account.balance (getAccount (Transaction.from tx) st)).
Qed.

Lemma executeBody_run tx ctx st :
  executeBody tx ctx st =
  if admitted tx ctx st then
    match dispatch (Transaction.tx_type tx) with
    | None => (Fail, charged tx st)
    | Some handler =>
      match handler tx ctx (charged tx st) with
      | (Ok fills, st') => (Ok fills, bumpNonce tx st')
      | (Fail, st') => (Fail, st')
      | (Crash, st') => (Crash, st')
      end
    end
  else (Fail, st).
Proof.
  unfold executeBody, mbind at 1, Exec_bind at 1. rewrite precheck_run.
  destruct (admitted tx ctx st); [|done]. destruct (dispatch _) as [h|]; [|done].
  unfold mbind at 1, Exec_bind at 1. by destruct (h tx ctx (charged tx st)) as [[fs| |] st'].
Qed.

Lemma value_charged t tx st :
  Transaction.fee tx <= Account.balance (getAccount (Transaction.from tx) st) ->
  value t (charged tx st) + at_token t 0 (Transaction.fee tx) <= value t st.
Proof.
  intros Hle. pose proof (value_subTokens t (Transaction.from tx) NATIVE_TOKEN_ID (Transaction.fee tx) st) as Hs.
  unfold hasTokens, subTokens in Hs. cbn in Hs. apply Hs. by apply N.leb_le.
Qed.

Lemma market_charged tx st : market (charged tx st) = market st.
Proof. unfold charged. apply market_putAccount. Qed.

Lemma LpBacked_frame st st' : market st' = market st -> LpBacked st -> LpBacked st'.
Proof.
  intros Hm Hl. injection Hm as Hp Hq _ _ _ _ _. intros i p. unfold sharesOf. rewrite Hp, Hq. apply Hl.
Qed.

Lemma Roomy_frame st st' : market st' = market st -> Roomy st -> Roomy st'.
Proof.
  intros Hm. injection Hm as _ _ _ _ _ Hg Hg'. unfold Roomy, nextOrderId, getGlobalU64.
  by rewrite Hg, Hg'.
Qed.

(** The transaction types whose handler mints nothing.  The others mint a
    custom or shadow token, or settle NFT rewards. *)
Definition conserving (ty : TxType.t) : bool :=
  match ty with
  | TxType.MintToken | TxType.MintNft | TxType.WrapNft | TxType.TransferNft | TxType.BurnNft
  | TxType.ClaimNftReward => false
  | _ => true
  end.

Lemma handler_value ty h tx ctx st t :
  CollisionFree -> dispatch ty = Some h -> conserving ty = true -> Market st -> Roomy st -> LpBacked st ->
  Transaction.amount tx < w64 -> value (u32 (Transaction.token_id tx)) st < w64 ->
  wp (h tx ctx) (fun _ st' => value t st' <= value t st) st.
Proof.
  intros Hcf Hd Hc HM Hr Hlp Ha Hfit. pose proof HM as [Hwt _].
  destruct ty; try done; injection Hd as <-.
  - by apply no_inflation_Transfer.
  - by apply no_inflation_OptInStaking.
  - by apply no_inflation_OptOutStaking.
  - by apply no_inflation_ClaimRewards.
  - by apply no_inflation_RegisterValidator.
  - by apply no_inflation_UnregisterValidator.
  - by apply no_inflation_UpdateRewardAddress.
  - by apply no_inflation_RotateConsensusKey.
  - by apply no_inflation_CreatePool.
  - by apply no_inflation_AddLiquidity.
  - by apply no_inflation_RemoveLiquidity.
  - by apply no_inflation_Swap.
  - eapply wp_mono; [by apply createOrder_ok|]. intros o st' [_ Hv]. apply Hv.
  - by apply no_inflation_CancelOrder.
  - by apply no_inflation_CreateNftCollection.
  - by apply no_inflation_UpdateNftMetadata.
  - by apply no_inflation_TopUpNft.
  - by apply no_inflation_RefillCollectionReward.
  - by apply no_inflation_CreateToken.
  - by apply no_inflation_BurnToken.
  - by apply no_inflation_UpdateTokenMeta.
Qed.

Lemma Market_dispatch ty h tx ctx :
  dispatch ty = Some h -> ty <> TxType.CreateOrder -> Transaction.amount tx < w64 ->
  preserves Market (h tx ctx).
Proof.
  intros Hd Hty Ha. destruct ty; try done; injection Hd as <-.
  - apply Market_Transfer.
  - apply Market_OptInStaking.
  - apply Market_OptOutStaking.
  - apply Market_ClaimRewards.
  - apply Market_RegisterValidator.
  - apply Market_UnregisterValidator.
  - apply Market_UpdateRewardAddress.
  - apply Market_RotateConsensusKey.
  - by apply Market_CreatePool.
  - apply Market_AddLiquidity.
  - apply Market_RemoveLiquidity.
  - apply Market_Swap.
  - apply Market_CancelOrder.
  - apply Market_CreateNftCollection.
  - apply Market_MintNft.
  - apply Market_WrapNft.
  - apply Market_TransferNft.
  - apply Market_BurnNft.
  - apply Market_UpdateNftMetadata.
  - apply Market_TopUpNft.
  - apply Market_ClaimNftReward.
  - apply Market_RefillCollectionReward.
  - apply Market_CreateToken.
  - apply Market_MintToken.
  - apply Market_BurnToken.
  - apply Market_UpdateTokenMeta.
Qed.

(** The body of [execute] keeps the market tables when it succeeds. *)
Lemma Market_executeBody tx ctx st fs st' :
  CollisionFree -> Market st -> Roomy st -> Transaction.amount tx < w64 ->
  executeBody tx ctx st = (Ok fs, st') -> Market st'.
Proof.
  intros Hcf HM Hr Ha E. rewrite executeBody_run in E.
  destruct (admitted tx ctx st); [|done]. pose proof (market_charged tx st) as Hmk.
  destruct (dispatch (Transaction.tx_type tx)) as [h|] eqn:Hd; [|done].
  pose proof (Market_frame _ _ Hmk HM) as HM1. pose proof (Roomy_frame _ _ Hmk Hr) as Hr1.
  destruct (h tx ctx (charged tx st)) as [[fs'| |] st1] eqn:Eh; [|done|done]. injection E as <- <-.
  apply Market_bumpNonce. destruct (decide (Transaction.tx_type tx = TxType.CreateOrder)) as [Ht|Ht].
  - rewrite Ht in Hd. injection Hd as <-.
    destruct (createOrder_ok Hcf tx ctx _ HM1 Hr1 Ha) as [Hok _]. rewrite Eh in Hok. by eapply Hok.
  - pose proof (Market_dispatch _ h tx ctx Hd Ht Ha _ HM1) as Hok. by rewrite Eh in Hok.
Qed.
End executor_value.

(** ** Holdings *)

(** What an address holds of a token. *)
Definition holding (a : Address) (k : N) (st : State) : N :=
  if k =? NATIVE_TOKEN_ID then Account.balance (getAccount a st) else getTokenBalance a k st.

Lemma balance_putAccount a b acct st :
  Account.balance (getAccount a (putAccount b acct st)) =
  if a =? b then Account.balance acct else Account.balance (getAccount a st).
Proof.
  rewrite getAccount_putAccount. destruct (a =? b); [|done]. unfold accountToStore. cbn.
  apply balance_recalculate.
Qed.

(** Writing one native balance. *)
Lemma holding_putAccount a k b acct st :
  k < w32 -> holding a k (putAccount b acct st) =
  if (a =? b) && (k =? NATIVE_TOKEN_ID) then Account.balance acct else holding a k st.
Proof.
  intros Hk. unfold holding. destruct (k =? NATIVE_TOKEN_ID) eqn:E.
  - rewrite balance_putAccount, andb_true_r. done.
  - rewrite andb_false_r. apply getTokenBalance_putAccount.
Qed.

(** Writing one custom balance. *)
Lemma holding_putTokenBalance a k b k' x st :
  k < w32 -> k' < w32 -> k' <> NATIVE_TOKEN_ID -> x < w64 ->
  holding a k (putTokenBalance b k' x st) = if (a =? b) && (k =? k') then x else holding a k st.
Proof.
  intros Hk Hk' Hne Hx. unfold holding. destruct (N.eqb_spec k NATIVE_TOKEN_ID) as [->|Hkn].
  - rewrite getAccount_putTokenBalance.
    rewrite (proj2 (N.eqb_neq NATIVE_TOKEN_ID k')) by done. by rewrite andb_false_r.
  - rewrite getTokenBalance_put, !u32_id, u64_id by done.
    destruct (N.eqb_spec a b), (N.eqb_spec k k'); cbn; case_bool_decide; simplify_eq; done.
Qed.

Lemma holding_le_value a k st : k < w32 -> holding a k st <= value k st.
Proof.
  intros Hk. unfold holding. destruct (N.eqb_spec k NATIVE_TOKEN_ID) as [->|].
  - pose proof (worth_le_value a st). unfold worth in *. change NATIVE_TOKEN_ID with 0. lia.
  - pose proof (getTokenBalance_le_value a k st) as Hle. by rewrite u32_id in Hle.
Qed.

Lemma holding_addTokens a k b t x st :
  k < w32 -> t < w32 -> holding a k (addTokens b t x st) =
  if (a =? b) && (k =? t) then holding b t st +64 x else holding a k st.
Proof.
  intros Hk Ht. unfold addTokens. destruct (N.eqb_spec t NATIVE_TOKEN_ID) as [->|Hn].
  - by rewrite holding_putAccount.
  - rewrite holding_putTokenBalance by auto with words.
    assert (Hh : holding b t st = getTokenBalance b t st)
      by (unfold holding; by rewrite (proj2 (N.eqb_neq _ _) Hn)). by rewrite Hh.
Qed.

(** A holding and a pool's reserve of the same token. *)
Lemma holding_pool_le_value a k i p st :
  k < w32 -> pools st !! i = Some p -> holding a k st + pool_worth k p <= value k st.
Proof.
  intros Hk Hp. pose proof (msum_lookup_le (fun _ x => pool_worth k x) (pools st) _ _ Hp) as Hm. cbn in Hm.
  pose proof (holding_le_value a k (st <| pools := ∅ |>) Hk) as Hh.
  change (holding a k (st <| pools := ∅ |>)) with (holding a k st) in Hh.
  unfold value in *. change (pool_value k (st <| pools := ∅ |>)) with 0 in Hh.
  change (account_value k (st <| pools := ∅ |>)) with (account_value k st) in Hh.
  change (token_value k (st <| pools := ∅ |>)) with (token_value k st) in Hh.
  change (order_value k (st <| pools := ∅ |>)) with (order_value k st) in Hh.
  unfold pool_value at 1. lia.
Qed.
