(* ===== verification/Liquidity.v ===== *)
(** * Liquidity positions

    [LpState]: the positions of a pool never claim more than the pool's total
    liquidity, position and pool ids are below their counters, and the
    position index points at positions of the pool it is keyed by.  Every
    handler keeps it; it is what makes the removal of liquidity solvent. *)

From S2P Require Import Prelude Types OrderBook StateAccess Ledger Amm Codec Matching.
From S2P Require Import BlockOrders ExecBase ExecAccounts ExecAmm ExecOrders ExecNft Executor.
From S2P Require Import Invariants ExecValue MatchValue Market Conservation.

(** Total liquidity per pool. *)
Definition liq (st : State) : gmap N N := AmmPool.total_liquidity <$> pools st.

Definition lpTables (st : State) :=
  (liq st, positions st, position_index st, getGlobal "next_pool_id" st,
   getGlobal "next_position_id" st).

(** A counter as stored; absent means 1. *)
Definition counterOf (name : string) (st : State) : N :=
  match getGlobal name st with
  | None => 1
  | Some b => le_combine (take 8 b)
  end.

Record LpState (st : State) : Prop := {
  lp_backed i L : liq st !! i = Some L -> sharesOf i st <= L < w64;
  lp_pools i L : liq st !! i = Some L -> i < counterOf "next_pool_id" st;
  lp_pool_ids i pos : positions st !! i = Some pos ->
    AmmPosition.pool_id pos < counterOf "next_pool_id" st;
  lp_ids i pos : positions st !! i = Some pos ->
    AmmPosition.id pos = i /\ i < counterOf "next_position_id" st;
  lp_index o p i : position_index st !! (o, p) = Some i ->
    exists pos, positions st !! i = Some pos /\ AmmPosition.pool_id pos = p;
}.

Lemma LpState_frame st st' : lpTables st' = lpTables st -> LpState st -> LpState st'.
Proof.
  intros Hc [Hb Hp Hq Hi Hx]. injection Hc as Hl Hps Hix Hg1 Hg2.
  assert (Hc1 : counterOf "next_pool_id" st' = counterOf "next_pool_id" st)
    by (unfold counterOf; by rewrite Hg1).
  assert (Hc2 : counterOf "next_position_id" st' = counterOf "next_position_id" st)
    by (unfold counterOf; by rewrite Hg2).
  split; unfold sharesOf; rewrite ?Hl, ?Hps, ?Hix, ?Hc1, ?Hc2; done.
Qed.

Lemma LpState_LpBacked st : LpState st -> LpBacked st.
Proof.
  intros HL i p Hp. apply (lp_backed _ HL i). unfold liq. by rewrite lookup_fmap, Hp.
Qed.

(** ** Writes that leave the tables alone *)

Lemma lp_putGlobal n v st :
  n <> "next_pool_id" -> n <> "next_position_id" -> lpTables (putGlobal n v st) = lpTables st.
Proof.
  intros H1 H2. unfold lpTables. rewrite !getGlobal_put.
  by rewrite !bool_decide_eq_false_2 by congruence.
Qed.

Lemma lp_putAccount a acct st : lpTables (putAccount a acct st) = lpTables st.
Proof.
  assert (H1 : forall old copy st, lpTables (maintainStakerCount a old copy st) = lpTables st).
  { intros old copy st'. unfold maintainStakerCount, putGlobalU64.
    repeat case_match; rewrite ?lp_putGlobal by done; done. }
  assert (H2 : forall old copy st, lpTables (maintainTotalStaked old copy st) = lpTables st).
  { intros old copy st'. unfold maintainTotalStaked, putGlobalU64.
    case_match; rewrite ?lp_putGlobal by done; done. }
  unfold putAccount. rewrite H1, H2. unfold indexNativeBalance. by repeat case_match.
Qed.

Lemma lp_putToken x st : lpTables (putToken x st) = lpTables st.
Proof. done. Qed.
Lemma lp_putValidator x st : lpTables (putValidator x st) = lpTables st.
Proof. done. Qed.
Lemma lp_deleteValidator x st : lpTables (deleteValidator x st) = lpTables st.
Proof. done. Qed.
Lemma lp_putValidatorByAddress x y st : lpTables (putValidatorByAddress x y st) = lpTables st.
Proof. done. Qed.
Lemma lp_deleteValidatorByAddress x st : lpTables (deleteValidatorByAddress x st) = lpTables st.
Proof. done. Qed.
Lemma lp_putNft x st : lpTables (putNft x st) = lpTables st.
Proof. done. Qed.
Lemma lp_unindexNft x st : lpTables (unindexNft x st) = lpTables st.
Proof. done. Qed.
Lemma lp_putNftCollection x st : lpTables (putNftCollection x st) = lpTables st.
Proof. done. Qed.
Lemma lp_clearOrderExpiry x st : lpTables (clearOrderExpiry x st) = lpTables st.
Proof. done. Qed.
Lemma lp_putOrder x st : lpTables (putOrder x st) = lpTables st.
Proof. done. Qed.
Lemma lp_deleteOrder x st : lpTables (deleteOrder x st) = lpTables st.
Proof. done. Qed.
Lemma lp_putTokenBalance x y z st : lpTables (putTokenBalance x y z st) = lpTables st.
Proof. unfold putTokenBalance. by case_match. Qed.
Lemma lp_putTokenSupply x y st : lpTables (putTokenSupply x y st) = lpTables st.
Proof. unfold putTokenSupply. by case_match. Qed.
Lemma lp_putValidatorKeyHistory x y st : lpTables (putValidatorKeyHistory x y st) = lpTables st.
Proof. unfold putValidatorKeyHistory. by case_match. Qed.
Lemma lp_deleteNft x st : lpTables (deleteNft x st) = lpTables st.
Proof. unfold deleteNft. by case_match. Qed.
Lemma lp_addOrderExpiry x y st : lpTables (addOrderExpiry x y st) = lpTables st.
Proof. unfold addOrderExpiry. by case_match. Qed.
Lemma lp_removeOrderExpiry x y st : lpTables (removeOrderExpiry x y st) = lpTables st.
Proof. unfold removeOrderExpiry. by repeat case_match. Qed.
Lemma lp_indexFill `{Crypto} x y z w st : lpTables (indexFill x y z w st) = lpTables st.
Proof. done. Qed.
Lemma lp_addToOrderBook `{Crypto} x y st : lpTables (addToOrderBook x y st) = lpTables st.
Proof. unfold addToOrderBook. by repeat case_match. Qed.
Lemma lp_removeFromOrderBook `{Crypto} x st : lpTables (removeFromOrderBook x st) = lpTables st.
Proof. unfold removeFromOrderBook. by repeat case_match. Qed.
Lemma lp_addTokens a k x st : lpTables (addTokens a k x st) = lpTables st.
Proof. unfold addTokens. case_match; [apply lp_putAccount|apply lp_putTokenBalance]. Qed.
Lemma lp_subTokens a k x st : lpTables (subTokens a k x st) = lpTables st.
Proof. unfold subTokens. case_match; [apply lp_putAccount|apply lp_putTokenBalance]. Qed.
Lemma lp_creditToken a k x st : lpTables (creditToken a k x st) = lpTables st.
Proof. unfold creditToken. case_match; [done|apply lp_addTokens]. Qed.
Lemma lp_credit a k x st : lpTables (credit a k x st) = lpTables st.
Proof. unfold credit. repeat case_match; [done|done|apply lp_addTokens]. Qed.

Ltac lp_write :=
  lazymatch goal with
  | |- lpTables (putGlobal _ _ _) = _ => apply lp_putGlobal; discriminate
  | |- lpTables (putAccount _ _ _) = _ => apply lp_putAccount
  | |- lpTables (putToken _ _) = _ => apply lp_putToken
  | |- lpTables (putValidator _ _) = _ => apply lp_putValidator
  | |- lpTables (deleteValidator _ _) = _ => apply lp_deleteValidator
  | |- lpTables (putValidatorByAddress _ _ _) = _ => apply lp_putValidatorByAddress
  | |- lpTables (deleteValidatorByAddress _ _) = _ => apply lp_deleteValidatorByAddress
  | |- lpTables (putNft _ _) = _ => apply lp_putNft
  | |- lpTables (unindexNft _ _) = _ => apply lp_unindexNft
  | |- lpTables (putNftCollection _ _) = _ => apply lp_putNftCollection
  | |- lpTables (clearOrderExpiry _ _) = _ => apply lp_clearOrderExpiry
  | |- lpTables (putOrder _ _) = _ => apply lp_putOrder
  | |- lpTables (deleteOrder _ _) = _ => apply lp_deleteOrder
  | |- lpTables (putTokenBalance _ _ _ _) = _ => apply lp_putTokenBalance
  | |- lpTables (putTokenSupply _ _ _) = _ => apply lp_putTokenSupply
  | |- lpTables (putValidatorKeyHistory _ _ _) = _ => apply lp_putValidatorKeyHistory
  | |- lpTables (deleteNft _ _) = _ => apply lp_deleteNft
  | |- lpTables (addOrderExpiry _ _ _) = _ => apply lp_addOrderExpiry
  | |- lpTables (removeOrderExpiry _ _ _) = _ => apply lp_removeOrderExpiry
  | |- lpTables (indexFill _ _ _ _ _) = _ => apply lp_indexFill
  | |- lpTables (addToOrderBook _ _ _) = _ => apply lp_addToOrderBook
  | |- lpTables (removeFromOrderBook _ _) = _ => apply lp_removeFromOrderBook
  | |- lpTables (addTokens _ _ _ _) = _ => apply lp_addTokens
  | |- lpTables (subTokens _ _ _ _) = _ => apply lp_subTokens
  | |- lpTables (creditToken _ _ _ _) = _ => apply lp_creditToken
  | |- lpTables (credit _ _ _ _) = _ => apply lp_credit
  end.

Ltac lp_ops :=
  repeat first
    [ match goal with |- LpState ?s => is_var s; assumption end
    | eapply LpState_frame; [lp_write|] ].

Ltac solve_lp :=
  apply preserves_wp; intros st HI; wp_run;
  unfold writeU64GlobalInternal, putGlobalU64, saveActiveSet; lp_ops.

(** ** Pool and position updates *)

Lemma liq_putAmmPool p st : liq (putAmmPool p st) = <[AmmPool.id p := AmmPool.total_liquidity p]> (liq st).
Proof. unfold liq. cbn. by rewrite fmap_insert. Qed.

Lemma lp_putAmmPool_same p st :
  liq st !! AmmPool.id p = Some (AmmPool.total_liquidity p) -> lpTables (putAmmPool p st) = lpTables st.
Proof.
  intros Hl. unfold lpTables. rewrite liq_putAmmPool, insert_id by done. done.
Qed.

Lemma LpState_deleteAmmPool i st : LpState st -> LpState (deleteAmmPool i st).
Proof.
  intros [Hb Hp Hq Hi Hx]. split; try done.
  - intros j L. unfold liq. cbn. rewrite fmap_delete, lookup_delete_Some. intros [_ Hl]. by apply Hb.
  - intros j L. unfold liq. cbn. rewrite fmap_delete, lookup_delete_Some. intros [_ Hl]. by eapply Hp.
Qed.

(** The shares after replacing one position. *)
Lemma sharesOf_replace k j pos pos' st st' :
  positions st !! j = Some pos -> positions st' = <[j := pos']> (positions st) ->
  sharesOf k st' + positionLiquidity k pos = sharesOf k st + positionLiquidity k pos'.
Proof.
  intros Hj E. unfold sharesOf. rewrite E.
  pose proof (msum_insert (fun _ p => positionLiquidity k p) (positions st) j pos') as Hm.
  rewrite Hj in Hm. exact Hm.
Qed.

Lemma sharesOf_new k j pos' st st' :
  positions st' = <[j := pos']> (positions st) ->
  sharesOf k st' <= sharesOf k st + positionLiquidity k pos'.
Proof.
  intros E. unfold sharesOf. rewrite E.
  pose proof (msum_insert (fun _ p => positionLiquidity k p) (positions st) j pos') as Hm.
  cbn in Hm. lia.
Qed.

(** One pool's total and one of its positions change together. *)
Lemma LpState_adjust st st' i L L' j pos pos' :
  LpState st -> liq st !! i = Some L -> positions st !! j = Some pos ->
  AmmPosition.pool_id pos = i -> AmmPosition.pool_id pos' = i -> AmmPosition.id pos' = j ->
  liq st' = <[i := L']> (liq st) -> positions st' = <[j := pos']> (positions st) ->
  (forall key x, position_index st' !! key = Some x -> position_index st !! key = Some x) ->
  getGlobal "next_pool_id" st' = getGlobal "next_pool_id" st ->
  getGlobal "next_position_id" st' = getGlobal "next_position_id" st ->
  sharesOf i st + AmmPosition.liquidity pos' <= L' + AmmPosition.liquidity pos -> L' < w64 ->
  LpState st'.
Proof.
  intros [Hb Hp Hq Hi Hx] HL Hj Hpi Hpi' Hid El Ep Ex Eg1 Eg2 Hsum HL'.
  assert (Hc : forall name, getGlobal name st' = getGlobal name st -> counterOf name st' = counterOf name st)
    by (intros name E; unfold counterOf; by rewrite E).
  split; rewrite ?El, ?Ep, ?(Hc _ Eg1), ?(Hc _ Eg2).
  - intros k Lk. pose proof (sharesOf_replace k j pos pos' st st' Hj Ep) as Hs.
    unfold positionLiquidity in Hs. rewrite Hpi, Hpi' in Hs.
    rewrite lookup_insert_Some. intros [[<- <-]|[Hne Hk]].
    + rewrite N.eqb_refl in Hs. lia.
    + destruct (N.eqb_spec i k); [done|]. specialize (Hb _ _ Hk). lia.
  - intros k Lk. rewrite lookup_insert_Some. intros [[<- _]|[_ Hk]]; eauto.
  - intros k x. rewrite lookup_insert_Some. intros [[<- <-]|[_ Hk]]; [|eauto].
    rewrite Hpi', <-Hpi. eauto.
  - intros k x. rewrite lookup_insert_Some. intros [[<- <-]|[_ Hk]]; [|eauto].
    split; [done|]. by destruct (Hi _ _ Hj).
  - intros o p x Hk. apply Ex in Hk. destruct (Hx _ _ _ Hk) as (y & Hy & Hyp).
    destruct (decide (x = j)) as [->|Hne].
    + exists pos'. rewrite lookup_insert_eq. split; [done|]. congruence.
    + exists y. by rewrite lookup_insert_ne.
Qed.

(** A pool's total may only be raised within its type. *)
Lemma LpState_raise p L st :
  liq st !! AmmPool.id p = Some L -> L <= AmmPool.total_liquidity p < w64 ->
  LpState st -> LpState (putAmmPool p st).
Proof.
  intros HL Hle [Hb Hp Hq Hi Hx]. split; try done; rewrite liq_putAmmPool.
  - intros k Lk. rewrite lookup_insert_Some. intros [[<- <-]|[_ Hk]]; [|by apply Hb].
    change (sharesOf (AmmPool.id p) (putAmmPool p st)) with (sharesOf (AmmPool.id p) st).
    specialize (Hb _ _ HL). lia.
  - intros k Lk. rewrite lookup_insert_Some. intros [[<- _]|[_ Hk]]; by eapply Hp.
Qed.

(** ** Counters *)

Lemma lor1_ge c : c <= N.lor 1 c /\ 1 <= N.lor 1 c.
Proof.
  assert (Hs : forall a b, N.ldiff a b = 0 -> a <= b) by apply N.ldiff_le.
  split; apply Hs; apply N.bits_inj; intros i; rewrite N.ldiff_spec, N.lor_spec, N.bits_0;
    destruct (N.testbit 1 i), (N.testbit c i); done.
Qed.

Lemma orCounter_ge name st : counterOf name st <= orCounter name st.
Proof. unfold counterOf, orCounter. case_match; [apply lor1_ge|done]. Qed.

Lemma counterOf_put name n v st :
  v < w64 -> counterOf n (putGlobal name (le_split 8 v) st) =
  if bool_decide (n = name) then v else counterOf n st.
Proof.
  intros Hv. unfold counterOf. rewrite getGlobal_put. case_bool_decide; [|done].
  rewrite take_ge by (by rewrite length_le_split). rewrite le_combine_split. by apply N.mod_small.
Qed.

(** The state [mintPosition] leaves. *)
Definition minted (owner : Address) (pool_id liquidity height : N) (st : State) : State :=
  let next_pos_id := orCounter "next_position_id" st in
  putGlobal "next_position_id" (le_split 8 (next_pos_id +64 1))
    (putPositionIndex owner pool_id next_pos_id
      (putAmmPosition (AmmPosition.mk next_pos_id owner pool_id liquidity height) st)).

Lemma LpState_minted owner i m h L st :
  LpState st -> liq st !! i = Some L -> sharesOf i st + m <= L ->
  orCounter "next_position_id" st + 1 < w64 -> LpState (minted owner i m h st).
Proof.
  intros [Hb Hp Hq Hi Hx] HL Hm Hr. unfold minted. cbv zeta.
  set (k := orCounter "next_position_id" st) in *. set (pos := AmmPosition.mk k owner i m h).
  pose proof (orCounter_ge "next_position_id" st) as Hge. fold k in Hge.
  set (st' := putGlobal _ _ _).
  assert (Hc1 : counterOf "next_pool_id" st' = counterOf "next_pool_id" st)
    by (unfold st'; rewrite counterOf_put by auto with words; done).
  assert (Hc2 : counterOf "next_position_id" st' = k + 1)
    by (unfold st'; rewrite counterOf_put by auto with words; rewrite add64_id by done; done).
  assert (Ep : positions st' = <[k := pos]> (positions st)) by done.
  assert (Ei : position_index st' = <[(owner, i) := k]> (position_index st)) by done.
  assert (El : liq st' = liq st) by done. clearbody st'.
  split; rewrite ?El, ?Ep, ?Ei, ?Hc1, ?Hc2.
  - intros j Lj Hj. pose proof (sharesOf_new j k pos st st' Ep) as Hs.
    unfold positionLiquidity in Hs. cbn in Hs. specialize (Hb _ _ Hj).
    destruct (N.eqb_spec i j) as [->|]; [|lia]. rewrite HL in Hj. injection Hj as <-. lia.
  - eauto.
  - intros j x. rewrite lookup_insert_Some. intros [[<- <-]|[_ Hj]]; eauto.
  - intros j x. rewrite lookup_insert_Some. intros [[<- <-]|[_ Hj]]; [cbn; lia|].
    destruct (Hi _ _ Hj) as [? ?]. split; [done|]. lia.
  - intros o p x. rewrite lookup_insert_Some. intros [[[= <- <-] <-]|[_ Hj]].
    + exists pos. by rewrite lookup_insert_eq.
    + destruct (Hx _ _ _ Hj) as (y & Hy & Hyp). exists y. destruct (Hi _ _ Hy).
      rewrite lookup_insert_ne by lia. done.
Qed.

(** ** Handlers *)

Section lp_handlers.
Context `{Crypto} (tx : Transaction.t) (ctx : Ctx.t).

Lemma Lp_Transfer : preserves LpState (executeTransfer tx ctx).
Proof. unfold executeTransfer. solve_lp. Qed.
Lemma Lp_OptInStaking : preserves LpState (executeOptInStaking tx ctx).
Proof. unfold executeOptInStaking. solve_lp. Qed.
Lemma Lp_OptOutStaking : preserves LpState (executeOptOutStaking tx ctx).
Proof. unfold executeOptOutStaking. solve_lp. Qed.
Lemma Lp_ClaimRewards : preserves LpState (executeClaimRewards tx ctx).
Proof. unfold executeClaimRewards. solve_lp. Qed.
Lemma Lp_RegisterValidator : preserves LpState (executeRegisterValidator tx ctx).
Proof. unfold executeRegisterValidator. solve_lp. Qed.
Lemma Lp_UnregisterValidator : preserves LpState (executeUnregisterValidator tx ctx).
Proof. unfold executeUnregisterValidator. solve_lp. Qed.
Lemma Lp_UpdateRewardAddress : preserves LpState (executeUpdateRewardAddress tx ctx).
Proof. unfold executeUpdateRewardAddress. solve_lp. Qed.
Lemma Lp_RotateConsensusKey : preserves LpState (executeRotateConsensusKey tx ctx).
Proof. unfold executeRotateConsensusKey. solve_lp. Qed.
Lemma Lp_CreateToken : preserves LpState (executeCreateToken tx ctx).
Proof. unfold executeCreateToken. solve_lp. Qed.
Lemma Lp_MintToken : preserves LpState (executeMintToken tx ctx).
Proof. unfold executeMintToken. solve_lp. Qed.
Lemma Lp_BurnToken : preserves LpState (executeBurnToken tx ctx).
Proof. unfold executeBurnToken. solve_lp. Qed.
Lemma Lp_UpdateTokenMeta : preserves LpState (executeUpdateTokenMeta tx ctx).
Proof. unfold executeUpdateTokenMeta. solve_lp. Qed.
Lemma Lp_CreateNftCollection : preserves LpState (executeCreateNftCollection tx ctx).
Proof. unfold executeCreateNftCollection. solve_lp. Qed.
Lemma Lp_MintNft : preserves LpState (executeMintNft tx ctx).
Proof. unfold executeMintNft. solve_lp. Qed.
Lemma Lp_WrapNft : preserves LpState (executeWrapNft tx ctx).
Proof. unfold executeWrapNft. solve_lp. Qed.
Lemma Lp_TransferNft : preserves LpState (executeTransferNft tx ctx).
Proof. unfold executeTransferNft. solve_lp. Qed.
Lemma Lp_BurnNft : preserves LpState (executeBurnNft tx ctx).
Proof. unfold executeBurnNft. solve_lp. Qed.
Lemma Lp_UpdateNftMetadata : preserves LpState (executeUpdateNftMetadata tx ctx).
Proof. unfold executeUpdateNftMetadata. solve_lp. Qed.
Lemma Lp_TopUpNft : preserves LpState (executeTopUpNft tx ctx).
Proof. unfold executeTopUpNft. solve_lp. Qed.
Lemma Lp_RefillCollectionReward : preserves LpState (executeRefillCollectionReward tx ctx).
Proof. unfold executeRefillCollectionReward. solve_lp. Qed.

Lemma claimOne_lp h l acc : lpTables (snd (foldl (claimOne h) acc l)) = lpTables (snd acc).
Proof.
  revert acc. induction l as [|n l IH]; intros acc; [done|]. cbn [foldl]. rewrite IH.
  destruct acc as [total st]. unfold claimOne. by repeat case_match.
Qed.

Lemma Lp_ClaimNftReward : preserves LpState (executeClaimNftReward tx ctx).
Proof.
  apply preserves_wp. intros st HI. unfold executeClaimNftReward. wp_run; try done.
  all: set (acc := foldl _ _ _); assert (Hc : lpTables (snd acc) = lpTables st) by apply claimOne_lp.
  all: eapply LpState_frame; [|exact HI]; rewrite ?lp_putAccount; exact Hc.
Qed.

Lemma lp_deleteRestingOrder o st : lpTables (deleteRestingOrder o st) = lpTables st.
Proof.
  unfold deleteRestingOrder. case_match; [done|]. rewrite lp_deleteOrder.
  case_match; rewrite ?lp_removeOrderExpiry; apply lp_removeFromOrderBook.
Qed.

Lemma Lp_CancelOrder : preserves LpState (executeCancelOrder tx ctx).
Proof.
  unfold executeCancelOrder. solve_lp.
  all: eapply LpState_frame; [rewrite lp_deleteRestingOrder|exact HI]; rewrite ?lp_addTokens; done.
Qed.

(** A pool read from a store whose records sit under their ids. *)
Lemma liq_of_pool i p st :
  WellTyped st -> getAmmPool i st = Some p ->
  AmmPool.id p = i /\ liq st !! i = Some (AmmPool.total_liquidity p).
Proof.
  intros Hwt Hp%getAmmPool_lookup. split; [apply (wt_pools _ Hwt _ _ Hp)|].
  unfold liq. by rewrite lookup_fmap, Hp.
Qed.

Lemma tradeReserves_lp k x out h v p :
  AmmPool.id (tradeReserves k x out (recordVolume h v p)) = AmmPool.id p /\
  AmmPool.total_liquidity (tradeReserves k x out (recordVolume h v p)) = AmmPool.total_liquidity p.
Proof. unfold tradeReserves, recordVolume. by repeat case_match. Qed.

(** Replacing a pool by one with the same total. *)
Lemma LpState_repool p p' i s st :
  lpTables s = lpTables st -> WellTyped st -> getAmmPool i st = Some p ->
  AmmPool.id p' = AmmPool.id p -> AmmPool.total_liquidity p' = AmmPool.total_liquidity p ->
  LpState st -> LpState (putAmmPool p' s).
Proof.
  intros Hs Hwt Hp Hid Ht HI. destruct (liq_of_pool _ _ _ Hwt Hp) as [Hi Hl].
  eapply LpState_frame; [|exact HI]. rewrite <-Hs. apply lp_putAmmPool_same.
  assert (liq s = liq st) as -> by (by injection Hs). by rewrite Hid, Ht, Hi.
Qed.

Lemma Lp_Swap st : WellTyped st -> LpState st -> wp (executeSwap tx ctx) (fun _ st' => LpState st') st.
Proof.
  intros Hwt HI. unfold executeSwap. wp_run; try done.
  eapply LpState_repool; [|done|done|apply tradeReserves_lp|apply tradeReserves_lp|done].
  by rewrite lp_addTokens, lp_subTokens.
Qed.

Lemma Lp_CreatePool st :
  LpState st -> orCounter "next_pool_id" st + 1 < w64 -> orCounter "next_position_id" st + 1 < w64 ->
  wp (executeCreatePool tx ctx) (fun _ st' => LpState st') st.
Proof.
  intros HI Hr1 Hr2. unfold executeCreatePool. wp_run; try done.
  set (k := orCounter "next_pool_id" st) in *. set (p := parsePool tx ctx k) in *.
  assert (Hp : AmmPool.id p = k /\ AmmPool.total_liquidity p < w64).
  { unfold p, parsePool. destruct (readU32At _ 0 <? u32 _); cbn; split; try done; apply isqrt128_lt. }
  destruct Hp as [Hid Ht]. set (s0 := subTokens _ _ _ (subTokens _ _ _ st)).
  assert (Hs0 : lpTables s0 = lpTables st) by (unfold s0; by rewrite !lp_subTokens).
  pose proof (LpState_frame _ _ Hs0 HI) as [Hb Hpl Hq Hi Hx].
  assert (Hg : forall name, name = "next_pool_id" \/ name = "next_position_id" ->
    getGlobal name s0 = getGlobal name st).
  { intros name [-> | ->]; by injection Hs0. }
  clearbody s0.
  set (s1 := putGlobal "next_pool_id" _ (putAmmPool p s0)).
  assert (Hc1 : counterOf "next_pool_id" s1 = k + 1)
    by (unfold s1; rewrite counterOf_put by auto with words; by rewrite add64_id).
  assert (Hc2 : counterOf "next_position_id" s1 = counterOf "next_position_id" s0)
    by (unfold s1; rewrite counterOf_put by auto with words; done).
  assert (Hge : counterOf "next_pool_id" s0 <= k).
  { unfold counterOf. rewrite Hg by auto. apply orCounter_ge. }
  assert (Hz : sharesOf k s0 = 0).
  { apply msum_zero. intros j pos Hj. unfold positionLiquidity. specialize (Hq _ _ Hj).
    destruct (N.eqb_spec (AmmPosition.pool_id pos) k); [lia|done]. }
  assert (El : liq s1 = <[k := AmmPool.total_liquidity p]> (liq s0))
    by (unfold s1; change (liq (putGlobal ?n ?v ?s)) with (liq s); by rewrite liq_putAmmPool, Hid).
  assert (HL1 : LpState s1).
  { split; rewrite ?El, ?Hc1, ?Hc2.
    - intros j L. change (sharesOf j s1) with (sharesOf j s0). rewrite lookup_insert_Some.
      intros [[<- <-]|[_ Hj]]; [lia|by apply Hb].
    - intros j L. rewrite lookup_insert_Some. intros [[<- _]|[_ Hj]]; [lia|].
      specialize (Hpl _ _ Hj). lia.
    - intros j pos Hj. specialize (Hq _ _ Hj). lia.
    - exact Hi.
    - exact Hx. }
  rewrite Hid. assert (Hor : orCounter "next_position_id" s1 = orCounter "next_position_id" st).
  { unfold orCounter, s1. rewrite getGlobal_put, bool_decide_eq_false_2 by done.
    change (getGlobal ?n (putAmmPool p s0)) with (getGlobal n s0). by rewrite Hg by auto. }
  apply (LpState_minted (Transaction.from tx) k (AmmPool.total_liquidity p) (Ctx.current_height ctx)
    (AmmPool.total_liquidity p) s1 HL1).
  - by rewrite El, lookup_insert_eq.
  - change (sharesOf k s1) with (sharesOf k s0). lia.
  - by rewrite Hor.
Qed.

(** The pool after a deposit. *)
Lemma depositReserves_lp k x y m p :
  AmmPool.id (depositReserves k x y m p) = AmmPool.id p /\
  AmmPool.total_liquidity (depositReserves k x y m p) = AmmPool.total_liquidity p +64 m.
Proof. unfold depositReserves. by case_match. Qed.

(** Crediting [m] shares to a position after the pool's total grew by [m]. *)
Lemma Lp_creditPosition owner i m h L st :
  LpState st -> liq st !! i = Some L -> sharesOf i st + m <= L ->
  orCounter "next_position_id" st + 1 < w64 ->
  wp (creditPosition owner i m h) (fun _ st' => LpState st') st.
Proof.
  intros HI HL Hm Hr. unfold creditPosition. apply wp_bind, wp_gets.
  destruct (getPositionIndex owner i st) as [j|] eqn:Ej; cbn.
  2: { unfold mintPosition. wp_run. by apply (LpState_minted owner i m h L). }
  destruct (getAmmPosition j st) as [pos|] eqn:Ep.
  2: { unfold mintPosition. wp_run. by apply (LpState_minted owner i m h L). }
  apply wp_modify. apply getAmmPosition_lookup in Ep.
  destruct (lp_index _ HI _ _ _ Ej) as (pos0 & Hp0 & Hpid). rewrite Ep in Hp0. injection Hp0 as <-.
  destruct (lp_ids _ HI _ _ Ep) as [Hid _].
  eapply (LpState_adjust st _ i L L j pos (pos <| AmmPosition.liquidity := _ |>)); try done.
  - cbn. by rewrite insert_id.
  - cbn. by rewrite Hid.
  - cbn. pose proof (add64_le (AmmPosition.liquidity pos) m). lia.
  - apply (lp_backed _ HI _ _ HL).
Qed.

Lemma Lp_AddLiquidity st :
  WellTyped st -> LpState st -> orCounter "next_position_id" st + 1 < w64 ->
  (forall p, getAmmPool (readU64At (Transaction.payload tx) 0) st = Some p ->
    AmmPool.total_liquidity p +
    liquidityMinted p (Transaction.amount tx) (readU64At (Transaction.payload tx) 8) < w64) ->
  wp (executeAddLiquidity tx ctx) (fun _ st' => LpState st') st.
Proof.
  intros Hwt HI Hr Hfit. unfold executeAddLiquidity. cbv beta iota zeta.
  repeat (lazymatch goal with |- wp (creditPosition _ _ _ _) _ _ => fail | _ => wp_step end); try done.
  match goal with E : getAmmPool _ _ = Some ?p |- _ =>
    destruct (liq_of_pool _ _ _ Hwt E) as [Hid Hl]; specialize (Hfit _ E); rename p into pool end.
  set (m := liquidityMinted _ _ _) in *. set (i := readU64At _ 0) in *.
  set (pool' := depositReserves _ _ _ _ _).
  destruct (depositReserves_lp (Transaction.token_id tx) (Transaction.amount tx)
    (readU64At (Transaction.payload tx) 8) m pool) as [Hid' Ht']. fold pool' in Hid', Ht'.
  rewrite add64_id in Ht' by done. clearbody pool'. set (s := subTokens _ _ _ (subTokens _ _ _ st)).
  assert (Hs : lpTables s = lpTables st) by (unfold s; by rewrite !lp_subTokens).
  pose proof (LpState_frame _ _ Hs HI) as HIs.
  assert (Hls : liq s !! i = Some (AmmPool.total_liquidity pool)) by (by injection Hs as -> _ _ _ _).
  assert (Hrs : orCounter "next_position_id" s = orCounter "next_position_id" st)
    by (unfold orCounter; by injection Hs as _ _ _ _ ->). clearbody s.
  eapply wp_mono; [apply (Lp_creditPosition _ i m _ (AmmPool.total_liquidity pool'))|].
  - eapply LpState_raise; [|split|exact HIs]; rewrite ?Hid', ?Hid, ?Ht'; [exact Hls|lia|lia].
  - by rewrite liq_putAmmPool, Hid', Hid, lookup_insert_eq.
  - change (sharesOf i (putAmmPool pool' s)) with (sharesOf i s).
    pose proof (lp_backed _ HIs _ _ Hls). lia.
  - change (orCounter ?n (putAmmPool pool' s)) with (orCounter n s). by rewrite Hrs.
  - intros o st' HI'. destruct o; wp_run; done.
Qed.

(** Burning [amount] of a position and of its pool's total. *)
Lemma LpState_burn i j pos pos' pool' amount L s st :
  LpState st -> liq st !! i = Some L -> positions st !! j = Some pos ->
  AmmPosition.pool_id pos = i -> amount <= AmmPosition.liquidity pos ->
  AmmPool.id pool' = i -> AmmPool.total_liquidity pool' = L -64 amount ->
  lpTables s = lpTables (putAmmPool pool' st) ->
  AmmPosition.pool_id pos' = i -> AmmPosition.id pos' = AmmPosition.id pos ->
  AmmPosition.liquidity pos' + amount <= AmmPosition.liquidity pos ->
  LpState (putAmmPosition pos' s).
Proof.
  intros HI HL Hj Hpi Ha Hid Ht Hs Hpi' Hid' Hl. destruct (lp_ids _ HI _ _ Hj) as [Hidj _].
  pose proof (lp_backed _ HI _ _ HL) as [Hb Hw].
  assert (Hle : AmmPosition.liquidity pos <= sharesOf i st).
  { unfold sharesOf. pose proof (msum_lookup_le (fun _ x => positionLiquidity i x) (positions st) j pos Hj) as Hm.
    cbn in Hm. unfold positionLiquidity at 1 in Hm. by rewrite Hpi, N.eqb_refl in Hm. }
  injection Hs as Hsl Hsp Hsx Hg1 Hg2.
  apply (LpState_adjust st (putAmmPosition pos' s) i L (L - amount) j pos pos'); try done.
  - congruence.
  - change (liq (putAmmPosition pos' s)) with (liq s). rewrite Hsl, liq_putAmmPool, Hid, Ht.
    by rewrite sub64_id by lia.
  - cbn. rewrite Hsp, Hid', Hidj. done.
  - intros key x. cbn. by rewrite Hsx.
  - lia.
  - lia.
Qed.

Lemma LpState_deletePositionIndex o i st : LpState st -> LpState (deletePositionIndex o i st).
Proof.
  intros [Hb Hp Hq Hi Hx]. split; try done.
  intros o' p' x. cbn. rewrite lookup_delete_Some. intros [_ Hk]. by eapply Hx.
Qed.

Lemma Lp_RemoveLiquidity st :
  WellTyped st -> LpState st -> wp (executeRemoveLiquidity tx ctx) (fun _ st' => LpState st') st.
Proof.
  intros Hwt HI. unfold executeRemoveLiquidity. cbv beta iota zeta.
  repeat (lazymatch goal with |- wp (removalShares _ _) _ _ => fail | _ => wp_step end); try done.
  match goal with
  | Hp : getAmmPosition _ _ = Some ?p, Hl : getAmmPool _ _ = Some ?l |- _ =>
    rename p into pos, l into pool, Hp into Hpos, Hl into Hpool
  end.
  set (amount := if _ =? 0 then _ else _) in *.
  pose proof (position_le_total _ _ _ _ (LpState_LpBacked _ HI) Hpos Hpool) as Hle.
  assert (Ha : amount <= AmmPosition.liquidity pos)
    by (match goal with E : (amount <=? _) = true |- _ => by apply N.leb_le in E end).
  clearbody amount. apply removalShares_le; [lia| |done]. intros a b _ _ _. cbv beta iota.
  set (pool' := pool <| AmmPool.reserve_a := _ |> <| AmmPool.reserve_b := _ |>
                     <| AmmPool.total_liquidity := _ |>).
  destruct (liq_of_pool _ _ _ Hwt Hpool) as [Hid Hl].
  apply getAmmPosition_lookup in Hpos.
  assert (Hmain : forall s v, lpTables s = lpTables (putAmmPool pool' st) ->
    v + amount <= AmmPosition.liquidity pos ->
    LpState (putAmmPosition (pos <| AmmPosition.liquidity := v |>) s)).
  { intros s v Hs Hv. by eapply (LpState_burn _ _ pos _ pool' amount _ s st HI Hl Hpos). }
  pose proof (sub64_le _ _ Ha).
  destruct (N.eqb_spec amount (AmmPool.total_liquidity pool)); wp_run.
  all: try apply LpState_deleteAmmPool; try apply LpState_deletePositionIndex;
    (apply Hmain; [by rewrite !lp_addTokens|lia]).
Qed.

(** ** Orders *)

Lemma lp_refundOrder o fee st : lpTables (refundOrder o fee st) = lpTables st.
Proof.
  unfold refundOrder. do 3 (case_match; [done|]). rewrite lp_deleteOrder, lp_removeFromOrderBook.
  case_match; rewrite ?lp_removeOrderExpiry; apply lp_addTokens.
Qed.

Lemma lp_settleFill taker maker x y st : lpTables (settleFill taker maker x y st) = lpTables st.
Proof.
  unfold settleFill. case_match; rewrite ?lp_deleteOrder, ?lp_removeFromOrderBook, ?lp_putOrder, !lp_credit;
    done.
Qed.

Lemma lp_matchLoop frame h i lim side cs acc :
  lpTables (ma_state (matchLoop frame h i lim side acc cs)) = lpTables (ma_state acc).
Proof.
  revert acc. induction cs as [|c cs IH]; intros acc; [done|]. cbn.
  destruct (matchStep frame h i lim side acc c) as [acc1|] eqn:E; [|done]. rewrite IH. clear IH.
  unfold matchStep, cancelSelfTrade, executeFill in E.
  repeat case_match; simplify_eq; cbn; rewrite ?lp_deleteOrder, ?lp_removeFromOrderBook, ?lp_indexFill,
    ?lp_refundOrder, ?lp_settleFill; done.
Qed.

Lemma lp_matchPassiveOrder o h i st : lpTables (snd (matchPassiveOrder o h i st)) = lpTables st.
Proof.
  unfold matchPassiveOrder. case_match; [done|]. case_match; [|done].
  set (acc := matchLoop _ _ _ _ _ _ _).
  assert (Ha : lpTables (ma_state acc) = lpTables st) by (unfold acc; by rewrite lp_matchLoop).
  unfold restTaker. destruct (Order.isFullyFilled (ma_taker acc)); cbn [snd].
  - by rewrite lp_deleteOrder.
  - unfold nextOrderSequence, putGlobalU64. cbv beta iota zeta. cbn [snd].
    rewrite lp_addToOrderBook, lp_putGlobal by done. done.
Qed.

Lemma lp_executeActiveOrder o h i fs st :
  WellTyped st -> lpTables (snd (executeActiveOrder o h i fs st)) = lpTables st.
Proof.
  intros Hwt. unfold executeActiveOrder. destruct (routeQuote o st) as [out|q] eqn:Hq; [done|].
  destruct (routeQuote_ok _ _ _ Hq) as [Hp _ _ _ _]. destruct (liq_of_pool _ _ _ Hwt Hp) as [Hid Hl].
  unfold applyRoute. cbn [snd]. rewrite lp_indexFill.
  case_match; rewrite ?lp_deleteOrder, ?lp_putOrder, lp_addTokens; apply lp_putAmmPool_same;
    rewrite <-tradeReserves_recordVolume; destruct (tradeReserves_lp (Order.sell_token o)
      (rq_amount_in q) (rq_amount_out q) h (clrtyVolume (rq_pool q) (Order.sell_token o)
      (rq_amount_in q)) (rq_pool q)) as [-> ->]; by rewrite Hid.
Qed.

Lemma Lp_runOrder order st :
  WellTyped st -> LpState st -> wp (runOrder order ctx) (fun _ st' => LpState st') st.
Proof.
  intros Hwt HI. unfold runOrder. wp_run; try done.
  1: pose proof (lp_matchPassiveOrder order (Ctx.current_height ctx) (Ctx.tx_index_in_block ctx) st) as Hm.
  2-4: pose proof (lp_executeActiveOrder order (Ctx.current_height ctx) (Ctx.tx_index_in_block ctx) [] st Hwt)
    as Hm.
  all: eapply LpState_frame; [|exact HI]; by repeat case_match.
Qed.

Lemma Lp_CreateOrder st :
  Market st -> Roomy st -> Transaction.amount tx < w64 -> LpState st ->
  wp (executeCreateOrder tx ctx) (fun _ st' => LpState st') st.
Proof.
  intros HM Hr Ha HI. unfold executeCreateOrder. wp_run; try done.
  all: destruct (lockOrder_ok tx ctx st) as (Hwt1 & _); [done..|].
  all: set (s := putOrder _ _) in *.
  all: assert (HIs : LpState s) by (unfold s; eapply LpState_frame; [apply lp_putOrder|];
    eapply LpState_frame; [apply lp_subTokens|done]).
  all: eapply wp_mono; [by apply Lp_runOrder|]. all: intros o st' HI'; destruct o; wp_run; lp_ops.
Qed.
End lp_handlers.

(** ** The executor *)

(** The pool and position counters, and the liquidity a deposit mints, have not
    reached the end of their range. *)
Record LpRoom (tx : Transaction.t) (st : State) : Prop := {
  lr_pool : orCounter "next_pool_id" st + 1 < w64;
  lr_position : orCounter "next_position_id" st + 1 < w64;
  lr_deposit p : getAmmPool (readU64At (Transaction.payload tx) 0) st = Some p ->
    AmmPool.total_liquidity p +
    liquidityMinted p (Transaction.amount tx) (readU64At (Transaction.payload tx) 8) < w64;
}.

Section lp_executor.
Context `{Crypto}.

Lemma Lp_dispatch ty h tx ctx st :
  dispatch ty = Some h -> Market st -> Roomy st -> LpRoom tx st -> Transaction.amount tx < w64 ->
  LpState st -> wp (h tx ctx) (fun _ st' => LpState st') st.
Proof.
  intros Hd HM Hr [Hr1 Hr2 Hr3] Ha HI. pose proof HM as [Hwt _].
  destruct ty; try done; injection Hd as <-.
  - by apply Lp_Transfer.
  - by apply Lp_OptInStaking.
  - by apply Lp_OptOutStaking.
  - by apply Lp_ClaimRewards.
  - by apply Lp_RegisterValidator.
  - by apply Lp_UnregisterValidator.
  - by apply Lp_UpdateRewardAddress.
  - by apply Lp_RotateConsensusKey.
  - by apply Lp_CreatePool.
  - by apply Lp_AddLiquidity.
  - by apply Lp_RemoveLiquidity.
  - by apply Lp_Swap.
  - by apply Lp_CreateOrder.
  - by apply Lp_CancelOrder.
  - by apply Lp_CreateNftCollection.
  - by apply Lp_MintNft.
  - by apply Lp_WrapNft.
  - by apply Lp_TransferNft.
  - by apply Lp_BurnNft.
  - by apply Lp_UpdateNftMetadata.
  - by apply Lp_TopUpNft.
  - by apply Lp_ClaimNftReward.
  - by apply Lp_RefillCollectionReward.
  - by apply Lp_CreateToken.
  - by apply Lp_MintToken.
  - by apply Lp_BurnToken.
  - by apply Lp_UpdateTokenMeta.
Qed.

Lemma lp_charged tx st : lpTables (charged tx st) = lpTables st.
Proof. unfold charged. apply lp_putAccount. Qed.

Lemma LpRoom_charged tx st : LpRoom tx st -> LpRoom tx (charged tx st).
Proof.
  intros [H1 H2 H3]. pose proof (lp_charged tx st) as Hl. pose proof (market_charged tx st) as Hm.
  injection Hl as _ _ _ Hg1 Hg2. split.
  - unfold orCounter. by rewrite Hg1.
  - unfold orCounter. by rewrite Hg2.
  - intros p Hp. apply H3. rewrite <-Hp. unfold getAmmPool. by injection Hm as -> _ _ _ _ _ _.
Qed.

Lemma Lp_executeBody tx ctx st :
  Market st -> Roomy st -> LpRoom tx st -> Transaction.amount tx < w64 -> LpState st ->
  LpState (snd (executeBody tx ctx st)).
Proof.
  intros HM Hr Hl Ha HI. rewrite executeBody_run. destruct (admitted tx ctx st); [|done].
  pose proof (market_charged tx st) as Hmk. pose proof (LpState_frame _ _ (lp_charged tx st) HI) as HI1.
  destruct (dispatch (Transaction.tx_type tx)) as [h|] eqn:Hd; [|done].
  pose proof (Lp_dispatch _ h tx ctx _ Hd (Market_frame _ _ Hmk HM) (Roomy_frame _ _ Hmk Hr)
    (LpRoom_charged _ _ Hl) Ha HI1) as Hw. unfold wp in Hw.
  destruct (h tx ctx (charged tx st)) as [[fs| |] st1]; cbn in *; [|done|done].
  eapply LpState_frame; [|exact Hw]. unfold bumpNonce. apply lp_putAccount.
Qed.

Lemma Lp_executeBody_to tx ctx st o st' :
  executeBody tx ctx st = (o, st') -> Market st -> Roomy st -> LpRoom tx st ->
  Transaction.amount tx < w64 -> LpState st -> LpState st'.
Proof.
  intros E HM Hr Hl Ha HI. pose proof (Lp_executeBody tx ctx st HM Hr Hl Ha HI) as Hb.
  by rewrite E in Hb.
Qed.
End lp_executor.
