(* ===== verification/Atomicity.v ===== *)
(** * Atomicity of rejections

    The executor has no rollback: a handler that rejects after a write leaves
    the write.  Every handler but four checks everything before its first
    write; for those a failed transaction leaves the state, or the state with
    the fee taken. *)

From S2P Require Import Prelude Types OrderBook StateAccess Ledger Amm Codec Matching.
From S2P Require Import BlockOrders ExecBase ExecAccounts ExecAmm ExecOrders ExecNft Executor.
From S2P Require Import Invariants ExecValue MatchValue Market Conservation.

(** The types whose handler can reject after a write. *)
Definition may_reject_late (ty : TxType.t) : bool :=
  match ty with
  | TxType.UnregisterValidator | TxType.CreateOrder | TxType.TransferNft | TxType.BurnNft => true
  | _ => false
  end.

Lemma atomic_wp {A} (m : Exec State A) :
  (forall st, wp m (fun o st' => o = Fail -> st' = st) st) -> atomic m.
Proof. intros Hm st. apply Hm. Qed.

Ltac solve_atomic_wp := apply atomic_wp; intros st; wp_run; try done.

Section atomicity.
Context `{Crypto} (tx : Transaction.t) (ctx : Ctx.t).

Lemma plainCounter_pos name st : (plainCounter name st =? 0) = false.
Proof. unfold plainCounter. case_match; [done|]. done. Qed.

(** The checks before the writes already make the NFT's record valid. *)
Lemma nft_valid owner i u w c mh uri h :
  isNull owner = false -> (i =? 0) = false -> negb (u =? i) = true -> (u =? 0) = (w =? 0) ->
  (length uri <=? NFT_URI_MAX)%nat = true ->
  NftInfo.isValid (NftInfo.mk i owner owner i u w c mh uri false h 0 h) = true.
Proof.
  intros Ho Hi Hu Hw Hl. apply Nat.leb_le in Hl. unfold NftInfo.isValid, INVALID_ID.
  cbn [NftInfo.id NftInfo.owner NftInfo.creator NftInfo.shadow_token_id NftInfo.metadata_uri
    NftInfo.underlying_token_id NftInfo.wrapped_amount].
  rewrite Ho, Hi, Hu, Hw, (proj2 (Nat.ltb_ge _ _) Hl). by destruct (w =? 0).
Qed.

Lemma atomic_MintNft : isNull (Transaction.from tx) = false -> atomic (executeMintNft tx ctx).
Proof.
  intros Hf. unfold executeMintNft. solve_atomic_wp.
  all: match goal with E : NftInfo.isValid _ = false |- _ => rewrite nft_valid in E end; try done.
  all: try apply plainCounter_pos.
  all: rewrite N.eqb_sym; apply negb_true_iff, plainCounter_pos.
Qed.

Lemma atomic_WrapNft : isNull (Transaction.from tx) = false -> atomic (executeWrapNft tx ctx).
Proof.
  intros Hf. unfold executeWrapNft. solve_atomic_wp.
  all: match goal with E : NftInfo.isValid _ = false |- _ => rewrite nft_valid in E end; try done.
  all: try apply plainCounter_pos.
  all: repeat match goal with E : negb (?b =? 0) = true |- _ => apply negb_true_iff in E; rewrite E end; done.
Qed.

Lemma atomic_dispatch ty h :
  dispatch ty = Some h -> may_reject_late ty = false -> isNull (Transaction.from tx) = false ->
  atomic (h tx ctx).
Proof.
  intros Hd Hl Hf. destruct ty; try done; injection Hd as <-.
  - unfold executeTransfer. solve_atomic_wp.
  - unfold executeOptInStaking. solve_atomic_wp.
  - unfold executeOptOutStaking. solve_atomic_wp.
  - unfold executeClaimRewards. solve_atomic_wp.
  - unfold executeRegisterValidator. solve_atomic_wp.
  - unfold executeUpdateRewardAddress. solve_atomic_wp.
  - unfold executeRotateConsensusKey. solve_atomic_wp.
  - unfold executeCreatePool. solve_atomic_wp.
  - unfold executeAddLiquidity. solve_atomic_wp.
  - unfold executeRemoveLiquidity. solve_atomic_wp.
  - unfold executeSwap. solve_atomic_wp.
  - unfold executeCancelOrder. solve_atomic_wp.
  - unfold executeCreateNftCollection. solve_atomic_wp.
  - by apply atomic_MintNft.
  - by apply atomic_WrapNft.
  - unfold executeUpdateNftMetadata. solve_atomic_wp.
  - unfold executeTopUpNft. solve_atomic_wp.
  - unfold executeClaimNftReward. solve_atomic_wp.
  - unfold executeRefillCollectionReward. solve_atomic_wp.
  - unfold executeCreateToken. solve_atomic_wp.
  - unfold executeMintToken. solve_atomic_wp.
  - unfold executeBurnToken. solve_atomic_wp.
  - unfold executeUpdateTokenMeta. solve_atomic_wp.
Qed.
End atomicity.
