(* ===== verification/Chain.v ===== *)
(** * The chain as a transition system

    A step is a transaction executed by [TransactionExecutor::execute], a
    system slash, or one of the steps the block processor takes at a block or an
    epoch boundary.  [run] is a sequence of steps with the transactions that
    succeeded.

    Shown: [BlockProcessor::applyBlock] refines a run, so whatever holds along
    runs (replay protection, the staking totals) holds along blocks. *)

From S2P Require Import Prelude Types OrderBook StateAccess Ledger Amm Codec Matching.
From S2P Require Import BlockOrders ExecBase ExecAccounts ExecAmm ExecOrders ExecNft Executor.
From S2P Require Import Rotation Rewards Consensus Block Meta EpochRewards BlockProcessor.
From S2P Require Import Invariants ExecValue MatchValue Market Conservation.

(** ** The block processor's steps keep every stable invariant *)

Section block_stable.
Context (I : State -> Prop) `{!Stable I}.

Lemma stable_alterValidator f st vid : I st -> I (alterValidator f st vid).
Proof. intros HI. unfold alterValidator. case_match; solve_stable. Qed.

Lemma stable_alterValidators f l st : I st -> I (foldl (alterValidator f) st l).
Proof. apply stable_foldl. intros. by apply stable_alterValidator. Qed.

Lemma stable_saveActiveSet l st : I st -> I (saveActiveSet l st).
Proof. intros HI. unfold saveActiveSet. solve_stable. Qed.

Lemma stable_saveRegistry r st : I st -> I (saveRegistry r st).
Proof.
  intros HI. unfold saveRegistry. apply stable_saveActiveSet. apply stable_foldl; [|done].
  intros st' v HI'. case_match; solve_stable.
Qed.

Lemma stable_membershipStep `{StdSort} block ctx committed active st :
  I st -> I (membershipStep block ctx committed active st).
Proof.
  intros HI. unfold membershipStep.
  assert (H1 : forall h st, I st -> I (runOfflineCheck h st)).
  { intros h s Hs. unfold runOfflineCheck. repeat case_match; try done. by apply stable_saveRegistry. }
  assert (H2 : forall ps h st, I st -> I (markParticipants ps h st))
    by (intros; unfold markParticipants; by apply stable_alterValidators).
  assert (H3 : forall c a h st, I st -> I (adoptActiveSet c a h st)).
  { intros. unfold adoptActiveSet. apply stable_saveActiveSet. by do 2 apply stable_alterValidators. }
  repeat case_match; auto.
Qed.

Lemma stable_creditRewards l acc : I (snd acc) -> I (snd (foldl creditReward acc l)).
Proof.
  revert acc. induction l as [|[vid x] l IH]; intros [red st] HI; [done|]. cbn [foldl]. apply IH.
  cbn [snd] in HI. unfold creditReward. case_match; [|done]. cbn [snd]. case_match; solve_stable.
Qed.

Lemma stable_payValidators proposer l st : I st -> I (snd (payValidators proposer l st)).
Proof.
  intros HI. unfold payValidators. case_match.
  - match goal with |- context [foldl creditReward ?a ?l] => pose proof (stable_creditRewards l a HI) end.
    by destruct (foldl _ _ _).
  - apply stable_creditRewards. case_match; [|done].
    match goal with |- I (snd (creditReward ?a ?r)) => exact (stable_creditRewards [r] a HI) end.
Qed.

Lemma stable_distributeRewards block bs : I (store bs) -> I (store (distributeRewards block bs)).
Proof.
  intros HI. unfold distributeRewards.
  pose proof (stable_payValidators (BlockHeader.proposer (Block.header block))
    (loadActiveSet (store bs)) (store bs) HI) as Hp.
  destruct (payValidators _ _ _) as [red st]. cbn [snd] in Hp. change (store (_ <| store := ?s |>)) with s.
  unfold putGlobalU64. solve_stable.
Qed.

Lemma stable_countProducedBlock h st : I st -> I (countProducedBlock h st).
Proof.
  intros HI. unfold countProducedBlock. repeat case_match; try done. by apply stable_alterValidator.
Qed.

Lemma stable_updateGlobalState h st : I st -> I (updateGlobalState h st).
Proof. intros HI. unfold updateGlobalState, putGlobalU64. solve_stable. Qed.

Lemma stable_processEpochBoundary h bs : I (store bs) -> I (store (processEpochBoundary h bs)).
Proof.
  intros HI. unfold processEpochBoundary. change (store (_ <| store := ?s |>)) with s.
  set (st1 := putGlobalU64 _ _ _). assert (H1 : I st1) by (unfold st1, putGlobalU64; solve_stable).
  assert (H2 : I (foldl accrueCollection st1 (allCollections st1))).
  { apply stable_foldl; [|done]. intros st c Hs. unfold accrueCollection. repeat case_match; solve_stable. }
  case_match; [done|]. unfold payStakers.
  match goal with |- context [totalTimeWeight ?start _ _ _] => generalize start; intros s end.
  case_match; [done|]. apply stable_foldl; [|done].
  intros st a Hs. unfold payStaker. case_match; solve_stable.
Qed.

Lemma stable_processRotation `{StdSort} block h st : I st -> I (processRotation block h st).
Proof.
  intros HI. unfold processRotation. case_match; [done|]. case_match; [done|]. unfold putGlobalU64.
  do 2 (apply stable_global; [done|done|]). by apply stable_saveRegistry.
Qed.
End block_stable.

Section chain.
Context `{Crypto} `{StdSort}.

Definition succeeded (r : Receipt.t) : bool :=
  bool_decide (Receipt.status r = ReceiptStatus.Success).

(** The transactions a step applies with success: none, or one. *)
Inductive step : list Transaction.t -> State -> State -> Prop :=
  | step_tx tx ctx r st st' :
    execute tx ctx st = (Ok r, st') -> step (if succeeded r then [tx] else []) st st'
  | step_slash validator_id height st :
    step [] st (executeSystemSlash validator_id height st)
  | step_expiries height st : step [] st (processOrderExpiries height st)
  | step_conditions height fills st :
    step [] st (snd (evaluateOrderConditions height fills st))
  | step_unbond height st : step [] st (processUnbondExpiries height st)
  | step_members block ctx committed active st :
    step [] st (membershipStep block ctx committed active st)
  | step_rewards block bs : step [] (store bs) (store (distributeRewards block bs))
  | step_producer header st : step [] st (countProducedBlock header st)
  | step_globals height st : step [] st (updateGlobalState height st)
  | step_epoch height bs : step [] (store bs) (store (processEpochBoundary height bs))
  | step_rotation block height st : step [] st (processRotation block height st).

Inductive run : list Transaction.t -> State -> State -> Prop :=
  | run_nil st : run [] st st
  | run_cons txs1 txs2 st1 st2 st3 :
    step txs1 st1 st2 -> run txs2 st2 st3 -> run (txs1 ++ txs2) st1 st3.

(** Steps of the block processor carry no transaction. *)
Lemma run_step st1 st2 st3 txs : step [] st1 st2 -> run txs st2 st3 -> run txs st1 st3.
Proof. intros Hs Hr. exact (run_cons [] txs st1 st2 st3 Hs Hr). Qed.

Lemma run_app txs1 txs2 st1 st2 st3 : run txs1 st1 st2 -> run txs2 st2 st3 -> run (txs1 ++ txs2) st1 st3.
Proof.
  induction 1 as [st|? ? ? ? ? Hs Hr IH]; intros H2; [done|]. rewrite <- app_assoc. econstructor; eauto.
Qed.

(** ** Stable invariants hold along a run *)

Section stable_run.
Context (I : State -> Prop) `{!Stable I}.

Lemma stable_charged tx st : I st -> I (charged tx st).
Proof. intros HI. unfold charged. apply stable_account; [|done]. split; [done|]. left. cbn. auto with words. Qed.

(** Up to the nonce bump, execution preserves every stable invariant. *)
Lemma stable_executeBody tx ctx st :
  I st -> exists st1, I st1 /\
    snd (executeBody tx ctx st) =
      match fst (executeBody tx ctx st) with Ok _ => bumpNonce tx st1 | _ => st1 end.
Proof.
  intros HI. rewrite executeBody_run. destruct (admitted tx ctx st); [|by exists st].
  pose proof (stable_charged tx st HI) as HI1.
  destruct (dispatch (Transaction.tx_type tx)) as [h|] eqn:Hd; [|by exists (charged tx st)].
  pose proof (stable_dispatch I _ h tx ctx Hd _ HI1) as HI2.
  destruct (h tx ctx (charged tx st)) as [[fs| |] st'] eqn:E; by exists st'.
Qed.

Lemma stable_executeSystemSlash v h st : I st -> I (executeSystemSlash v h st).
Proof.
  intros HI. unfold executeSystemSlash. repeat case_match; try done; unfold putGlobalU64; solve_stable.
Qed.
End stable_run.

Lemma execute_body tx ctx st :
  snd (execute tx ctx st) = snd (executeBody tx ctx st) /\
  forall r, fst (execute tx ctx st) = Ok r ->
    succeeded r = match fst (executeBody tx ctx st) with Ok _ => true | _ => false end.
Proof.
  unfold execute. destruct (executeBody tx ctx st) as [[fs| |] st']; cbn; split; try done;
    by intros r [= <-].
Qed.

Lemma success_nonce tx ctx st fs :
  fst (executeBody tx ctx st) = Ok fs -> nonceOf (Transaction.from tx) st = Transaction.nonce tx.
Proof.
  rewrite executeBody_run. destruct (admitted tx ctx st) eqn:Ha; [|done]. intros _.
  unfold admitted, verifyNonce in Ha. rewrite !andb_true_iff, !N.eqb_eq in Ha. unfold nonceOf. tauto.
Qed.

(** Only a success moves a nonce, and only the sender's, by one. *)
Lemma nonce_after tx ctx st a :
  nonceOf a (snd (execute tx ctx st)) =
  match fst (executeBody tx ctx st) with
  | Ok _ => if a =? Transaction.from tx then Transaction.nonce tx +64 1 else nonceOf a st
  | _ => nonceOf a st
  end.
Proof.
  destruct (execute_body tx ctx st) as [-> _].
  destruct (stable_executeBody (NonceTable (fun a => nonceOf a st)) tx ctx st) as (st1 & HI & ->); [done|].
  destruct (fst (executeBody tx ctx st)) as [fs| |] eqn:E; [|apply HI|apply HI].
  unfold bumpNonce. rewrite nonceOf_putAccount. destruct (N.eqb_spec a (Transaction.from tx)) as [->|];
    [|apply HI].
  change (nonceOf (Transaction.from tx) st1 +64 1 = Transaction.nonce tx +64 1). rewrite HI.
  by rewrite (success_nonce _ _ _ _ E).
Qed.

(** A step is an execution, or keeps every stable invariant and applies no
    transaction. *)
Lemma step_silent txs st st' :
  step txs st st' ->
  (exists tx ctx r, txs = (if succeeded r then [tx] else []) /\ execute tx ctx st = (Ok r, st')) \/
  (txs = [] /\ forall I, Stable I -> I st -> I st').
Proof.
  destruct 1; [left; by do 3 eexists|right; (split; [done|]); intros I HS HI..].
  - by apply stable_executeSystemSlash.
  - by apply stable_processOrderExpiries.
  - by apply stable_evaluateOrderConditions.
  - by apply stable_processUnbondExpiries.
  - by apply stable_membershipStep.
  - by apply stable_distributeRewards.
  - by apply stable_countProducedBlock.
  - by apply stable_updateGlobalState.
  - by apply stable_processEpochBoundary.
  - by apply stable_processRotation.
Qed.

(** Along a step the nonces grow by the number of successes, one per success of
    the account, and a success carries the nonce the account had. *)
Lemma step_nonce txs st st' :
  step txs st st' ->
  (forall a, nonceOf a st + 1 < w64 ->
     nonceOf a st' = nonceOf a st + N.of_nat (length (filter (fun tx => Transaction.from tx = a) txs))) /\
  (forall tx, tx ∈ txs -> Transaction.nonce tx = nonceOf (Transaction.from tx) st).
Proof.
  assert (Hsilent : forall st', NonceTable (fun a => nonceOf a st) st' ->
    (forall a, nonceOf a st + 1 < w64 -> nonceOf a st' = nonceOf a st + 0)).
  { intros s Hs a _. rewrite (Hs a). lia. }
  intros Hstep. destruct (step_silent _ _ _ Hstep) as [(tx & ctx & r & -> & E)|[-> Hst]].
  2:{ split; [|by intros tx ?%elem_of_nil]. apply Hsilent. by apply (Hst _ _). }
  destruct (execute_body tx ctx st) as [_ Hr]. rewrite E in Hr. specialize (Hr r eq_refl).
  pose proof (fun a => nonce_after tx ctx st a) as Hn. rewrite E in Hn. cbn in Hn. rewrite Hr. split.
  - intros a Ha. rewrite Hn. destruct (fst (executeBody tx ctx st)) as [fs| |] eqn:Eb; cbn; [|lia|lia].
    pose proof (success_nonce _ _ _ _ Eb) as Hs.
    destruct (N.eqb_spec a (Transaction.from tx)) as [->|Hne].
    + rewrite decide_True by done. cbn. rewrite <-Hs. by apply add64_id.
    + rewrite decide_False by congruence. cbn. lia.
  - intros tx' Htx. destruct (fst (executeBody tx ctx st)) as [fs| |] eqn:Eb;
      [|by apply elem_of_nil in Htx..].
    apply list_elem_of_singleton in Htx as ->. symmetry. by eapply success_nonce.
Qed.

(** ** Nonces along a run *)

Definition ofSender (a : Address) (txs : list Transaction.t) : list Transaction.t :=
  filter (fun tx => Transaction.from tx = a) txs.

Definition noncesFrom (n : N) (count : nat) : list N := map (fun k => n + N.of_nat k) (seq 0 count).

Lemma noncesFrom_app n c1 c2 :
  noncesFrom n (c1 + c2) = noncesFrom n c1 ++ noncesFrom (n + N.of_nat c1) c2.
Proof.
  unfold noncesFrom. rewrite seq_app, map_app. f_equal. cbn [Nat.add].
  rewrite <-(Nat.add_0_r c1) at 1. rewrite <-fmap_add_seq. rewrite map_map. apply map_ext. intros k. lia.
Qed.

Lemma step_ofSender txs st st' a :
  step txs st st' ->
  map Transaction.nonce (ofSender a txs) = noncesFrom (nonceOf a st) (length (ofSender a txs)) /\
  (length txs <= 1)%nat.
Proof.
  intros Hs. pose proof (proj2 (step_nonce _ _ _ Hs)) as Hn. assert (Hl : (length txs <= 1)%nat).
  { destruct Hs; cbn; try lia. case_match; cbn; lia. }
  split; [|done]. unfold ofSender. destruct txs as [|tx [|]]; [done| |cbn in Hl; lia].
  cbn. destruct (decide (Transaction.from tx = a)) as [<-|]; [|done]. cbn.
  rewrite (Hn tx) by apply list_elem_of_here. f_equal. lia.
Qed.

Lemma run_nonces txs st st' a :
  run txs st st' -> nonceOf a st + N.of_nat (length txs) + 1 < w64 ->
  map Transaction.nonce (ofSender a txs) = noncesFrom (nonceOf a st) (length (ofSender a txs)) /\
  nonceOf a st' = nonceOf a st + N.of_nat (length (ofSender a txs)).
Proof.
  induction 1 as [st|txs1 txs2 st1 st2 st3 Hs Hr IH]; intros Hb; [split; [done|cbn; lia]|].
  destruct (step_ofSender _ _ _ a Hs) as [Hm1 Hl].
  destruct (step_nonce _ _ _ Hs) as [Hn _]. specialize (Hn a ltac:(lia)). fold (ofSender a txs1) in Hn.
  rewrite length_app in Hb.
  assert (Hle : (length (ofSender a txs1) <= length txs1)%nat) by apply length_filter.
  destruct IH as [Hm2 Hn2]; [lia|]. unfold ofSender in *. rewrite filter_app, map_app, length_app.
  rewrite Hm1, Hm2, Hn, noncesFrom_app. split; [done|]. rewrite Hn2, Hn. lia.
Qed.

(** ** Stable invariants along a run *)

Section run_invariant.
Context (I : State -> Prop) `{!Stable I} (Hbump : forall tx st, I st -> I (bumpNonce tx st)).

Lemma step_stable txs st st' : step txs st st' -> I st -> I st'.
Proof.
  intros [(tx & ctx & r & _ & E)|[_ Hst]]%step_silent HI; [|by apply Hst].
  destruct (execute_body tx ctx st) as [Hb _]. rewrite E in Hb. cbn in Hb. subst st'.
  destruct (stable_executeBody I tx ctx st HI) as (st1 & HI1 & ->). case_match; auto.
Qed.

Lemma run_stable txs st st' : run txs st st' -> I st -> I st'.
Proof. induction 1; [done|]. eauto using step_stable. Qed.
End run_invariant.
End chain.

(** Whatever is stable and does not look at nonces. *)
Lemma Staking_bumpNonce tx st : Staking st -> Staking (bumpNonce tx st).
Proof. intros HI. unfold bumpNonce. apply Staking_putAccount; [|done]. by right. Qed.
