(* ===== verification/MatchSpec.v ===== *)
(** * What the matching engine guarantees

    A taker walks the book in price-time priority and leaves no level out: it
    fills, in order, every order of another owner up to where the walk stops,
    each by exactly what the two sides then have left, and stops only when it is
    filled, the levels end, the next price does not cross or the next fill would
    be empty.  Every fill is at the maker's own price, crosses the taker's limit,
    and its two amounts agree with its price.  The levels are all the resting
    orders of the other side. *)

From S2P Require Import Prelude Types OrderBook StateAccess Ledger Amm Codec Matching.
From S2P Require Import BlockOrders ExecBase ExecAccounts ExecAmm ExecOrders ExecNft Executor.
From S2P Require Import Invariants ExecValue MatchValue Market.

(** ** One fill *)

Lemma canonicalPrice_lt o p : OrderBook.canonicalPrice o = Some p -> p < w64.
Proof.
  assert (Hm : forall a b n, OrderBook.mulFitsU64 a b = Some n -> n < w64).
  { intros a b n. unfold OrderBook.mulFitsU64. repeat case_match; intros; simplify_eq; [lia|].
    auto with words. }
  unfold OrderBook.canonicalPrice. repeat case_match; try done.
  - destruct (OrderBook.mulFitsU64 _ _) as [n|] eqn:E; cbn; [|done]. intros [= <-].
    apply Hm in E. apply N.le_lt_trans with n; [|done].
    destruct (decide (Order.sell_amount o = 0)) as [->|Hz]; [by rewrite N.div_0_r; apply N.le_0_l|].
    apply div_le_of_mul; [done|nia].
  - destruct (OrderBook.mulFitsU64 _ _) as [n|] eqn:E; cbn; [|done]. intros [= <-]. auto with words.
Qed.

(** A fill against the maker stored under the candidate's id. *)
Record good_fill (taker : Order.t) (lim side : N) (st : State) (id : N) (f : Fill.t) : Prop := {
  gf_source : Fill.source f = FillSource.Limit /\ Fill.isValid f = true;
  gf_ids : Fill.maker_order_id f = id /\ Fill.taker_order_id f = Order.id taker;
  gf_maker : exists maker, orders st !! id = Some maker /\ Order.owner maker <> Order.owner taker /\
    opposite taker maker /\ OrderBook.canonicalPrice maker = Some (Fill.price f);
  gf_crosses : OrderBook.crosses lim (Fill.price f) side = true;
  gf_amounts : 0 < Fill.qty_base f /\ 0 < Fill.qty_quote f /\
    Fill.qty_quote f = Fill.qty_base f * Fill.price f / OrderBook.BOOK_PRICE_SCALE;
}.

Lemma good_fill_evolves taker taker' lim side st st' id f :
  evolves st st' -> same_terms taker taker' ->
  good_fill taker' lim side st' id f -> good_fill taker lim side st id f.
Proof.
  intros (_ & _ & E) S [Hs [Hm Ht] (maker & Ho & Hown & [Hop1 Hop2] & Hp) Hc Ha].
  destruct (same_terms_fields _ _ S) as (Hid & Hw & Hs1 & Hs2 & _).
  destruct (E id maker Ho) as (m0 & Hm0 & S0).
  destruct (same_terms_fields _ _ S0) as (_ & Hw0 & Hs10 & Hs20 & _).
  split; [done|by rewrite Ht, Hid| |done|done]. exists m0. split; [done|].
  split; [congruence|]. split; [split; congruence|]. by rewrite <-(canonicalPrice_terms _ _ S0).
Qed.

(** The quote side of a fill is the base side at the fill's price. *)
Lemma baseToSell_exact base price :
  base < w64 -> price < w64 -> baseToSellAmount base false price <> 0 ->
  baseToSellAmount base false price = base * price / OrderBook.BOOK_PRICE_SCALE.
Proof.
  intros Hb Hp. unfold baseToSellAmount. rewrite u128_id by (by apply mul_lt_w128).
  destruct (N.ltb_spec (w64 - 1) (base * price / OrderBook.BOOK_PRICE_SCALE)); [done|].
  intros _. apply u64_id. lia.
Qed.

Lemma fillQuantities_amounts taker maker price qb qt qm :
  sellsBase maker = negb (sellsBase taker) -> price < w64 ->
  Order.remainingAmount taker < w64 -> Order.remainingAmount maker < w64 ->
  fillQuantities taker maker price = Some (qb, qt, qm) ->
  (if sellsBase taker then qm else qt) = qb * price / OrderBook.BOOK_PRICE_SCALE /\
  0 < (if sellsBase taker then qm else qt) /\ (if sellsBase taker then qt else qm) = qb.
Proof.
  intros Hside Hp Hrt Hrm. unfold fillQuantities. rewrite Hside.
  set (b := N.min _ _). destruct (b =? 0); [done|].
  destruct (N.eqb_spec (baseToSellAmount b (sellsBase taker) price) 0) as [|H1]; [done|].
  destruct (N.eqb_spec (baseToSellAmount b (negb (sellsBase taker)) price) 0) as [|H2]; [done|].
  cbn [orb]. intros [= <- <- <-].
  assert (Hb : b < w64).
  { unfold b. destruct (sellsBase taker); cbn [negb].
    - eapply N.le_lt_trans; [apply N.le_min_l|done].
    - eapply N.le_lt_trans; [apply N.le_min_r|done]. }
  destruct (sellsBase taker); cbn [negb] in *.
  - split_and!; [by apply baseToSell_exact|by apply N.neq_0_lt_0|done].
  - split_and!; [by apply baseToSell_exact|by apply N.neq_0_lt_0|done].
Qed.

Lemma opposite_sells taker maker :
  Order.sell_token taker <> Order.buy_token taker -> opposite taker maker ->
  sellsBase maker = negb (sellsBase taker).
Proof.
  intros Hne [H1 H2]. unfold sellsBase. rewrite H1, H2.
  destruct (N.ltb_spec (Order.buy_token taker) (Order.sell_token taker)),
    (N.ltb_spec (Order.sell_token taker) (Order.buy_token taker)); cbn; try done; lia.
Qed.

Section match_fills.
Context `{Crypto} (h i lim side : N).

Lemma executeFill_good acc maker price q :
  WellTyped (ma_state acc) -> getOrder (Order.id maker) (ma_state acc) = Some maker ->
  Order.filled_amount (ma_taker acc) <= Order.sell_amount (ma_taker acc) ->
  Order.sell_amount (ma_taker acc) < w64 -> Order.id (ma_taker acc) <> 0 ->
  Order.sell_token (ma_taker acc) <> Order.buy_token (ma_taker acc) ->
  Order.id maker <> Order.id (ma_taker acc) -> opposite (ma_taker acc) maker ->
  Order.owner maker <> Order.owner (ma_taker acc) ->
  OrderBook.canonicalPrice maker = Some price -> OrderBook.crosses lim price side = true ->
  fillQuantities (ma_taker acc) maker price = Some q ->
  exists f, ma_fills (executeFill (frameOf (ma_taker acc)) h i maker price q acc) = ma_fills acc ++ [f] /\
    good_fill (ma_taker acc) lim side (ma_state acc) (Order.id maker) f.
Proof.
  intros Hwt Hg Hf Hs Htz Hne Hid Hop Hown Hp Hc Hq. destruct q as [[qb qt] qm].
  pose proof (getOrder_lookup _ _ _ Hg) as Hl. destruct (wt_orders _ Hwt _ _ Hl) as [_ _ _ Hms].
  destruct (isValid_filled _ (getOrder_valid _ _ _ Hg)) as (Hfm & _ & Hmz & _).
  destruct (fillQuantities_amounts _ _ _ _ _ _ (opposite_sells _ _ Hne Hop) (canonicalPrice_lt _ _ Hp)
    ltac:(rewrite remaining_exact by done; lia) ltac:(rewrite remaining_exact by done; lia) Hq)
    as (Hquote & Hqz & _).
  destruct (fillQuantities_le _ _ _ _ _ _ Hq) as (Hqb & _).
  eexists. split; [reflexivity|]. split; cbn; try done.
  - split; [done|]. unfold Fill.isValid. cbn.
    rewrite (proj2 (N.eqb_neq _ _) Htz), (proj2 (N.eqb_neq _ _) Hmz), (proj2 (N.eqb_neq _ _) Hid),
      (proj2 (N.eqb_neq qb 0)) by lia.
    destruct (N.eqb_spec (N.min (Order.sell_token (ma_taker acc)) (Order.buy_token (ma_taker acc)))
      (N.max (Order.sell_token (ma_taker acc)) (Order.buy_token (ma_taker acc)))); [lia|done].
  - eauto.
Qed.

(** The situation a loop iteration starts from. *)
Record loop_ready (frame : PairFrame) (cs : list (N * N)) (acc : MatchAcc) : Prop := {
  lr_typed : WellTyped (ma_state acc);
  lr_filled : Order.filled_amount (ma_taker acc) <= Order.sell_amount (ma_taker acc);
  lr_amount : Order.sell_amount (ma_taker acc) < w64;
  lr_cands : candidates_ok (ma_taker acc) cs (ma_state acc);
  lr_frame : frame = frameOf (ma_taker acc);
  lr_taker : Order.id (ma_taker acc) <> 0 /\
    Order.sell_token (ma_taker acc) <> Order.buy_token (ma_taker acc);
}.

Lemma loop_ready_next frame c cs acc acc' :
  matchStep frame h i lim side acc c = Some acc' -> loop_ready frame (c :: cs) acc ->
  step_ok acc acc' /\ loop_ready frame cs acc'.
Proof.
  intros E [Hwt Hf Hs Hc Hfr [Hz Hne]].
  destruct (matchStep_next _ _ _ _ _ _ _ _ _ E Hwt Hf Hs Hc) as (Hst & ? & ? & ? & ?).
  split; [done|]. destruct (same_terms_fields _ _ (so_terms _ _ Hst)) as (Hid & _ & Hs1 & Hs2 & _).
  split; try done.
  - rewrite Hfr. unfold frameOf. by rewrite Hs1, Hs2.
  - by rewrite Hid, Hs1, Hs2.
Qed.

(** ** The walk *)

(** Two stores agree on the orders the rest of the walk looks up. *)
Definition agreeOn (cs : list (N * N)) (st st' : State) : Prop :=
  forall id p, (id, p) ∈ cs -> getOrder id st' = getOrder id st.

(** A step writes no order but the one it visits. *)
Lemma matchStep_agrees frame c cs acc acc' :
  matchStep frame h i lim side acc c = Some acc' -> WellTyped (ma_state acc) ->
  fst c ∉ map fst cs -> agreeOn cs (ma_state acc) (ma_state acc').
Proof.
  intros E Hwt Hni id p Hin. destruct c as [mid mprice]. cbn [fst] in Hni.
  assert (Hne : id <> mid).
  { intros ->. apply Hni. apply list_elem_of_fmap. by exists (mid, p). }
  enough (Ho : orders (ma_state acc') !! id = orders (ma_state acc) !! id) by (unfold getOrder; by rewrite Ho).
  unfold matchStep in E. do 2 (case_match; [done|]).
  destruct (getOrder mid (ma_state acc)) as [maker|] eqn:Hg; [|by simplify_eq].
  destruct (wt_orders _ Hwt _ _ (getOrder_lookup _ _ _ Hg)) as [Hid _ _ _]. rewrite <- Hid in Hne.
  repeat (case_match; try done); simplify_eq; try done.
  - cbn. by rewrite lookup_delete_ne, orders_removeFromOrderBook.
  - by apply refundOrder_other.
  - match goal with |- context [executeFill _ _ _ _ _ ?q _] => destruct q as [[qb qt] qm] end. by apply settleFill_other.
Qed.

(** The order behind a level can be filled: its record is readable and another
    owner's. *)
Definition eligible (taker : Order.t) (st : State) (id : N) : bool :=
  match getOrder id st with
  | Some maker => negb (Order.owner maker =? Order.owner taker)
  | None => false
  end.

(** What a fill takes off the taker's lock, and the taker after some fills. *)
Definition takerSold (taker : Order.t) (f : Fill.t) : N :=
  if sellsBase taker then Fill.qty_base f else Fill.qty_quote f.

Definition takerAfter (taker : Order.t) (fs : list Fill.t) : Order.t :=
  foldl (fun tk f => recordFill (takerSold taker f) tk) taker fs.

(** Each fill has exactly the quantities of what is then left of the taker
    against the maker as it was stored, at the fill's price. *)
Definition fillsExact (st : State) (taker : Order.t) (fs : list Fill.t) : Prop :=
  forall pre f post, fs = pre ++ f :: post -> exists maker qty_taker qty_maker,
    getOrder (Fill.maker_order_id f) st = Some maker /\
    fillQuantities (takerAfter taker pre) maker (Fill.price f) = Some (Fill.qty_base f, qty_taker, qty_maker) /\
    takerSold taker f = qty_taker.

(** Why the walk does not go on: the levels end, the taker is filled, the next
    price does not cross, or the next order would be filled by nothing. *)
Definition stopsAt (st : State) (taker : Order.t) (next : option (N * N)) : Prop :=
  match next with
  | None => True
  | Some (id, price) =>
    Order.isFullyFilled taker = true \/ OrderBook.crosses lim price side = false \/
    exists maker, getOrder id st = Some maker /\ Order.owner maker <> Order.owner taker /\
      fillQuantities taker maker price = None
  end.

(** The walk, seen from the taker and the store it started with. *)
Context (taker0 : Order.t) (st0 : State).

(** Between two iterations: the orders ahead are as they were at the start, and
    at the price of their level. *)
Record walking (frame : PairFrame) (cs : list (N * N)) (acc : MatchAcc) : Prop := {
  wk_ready : loop_ready frame cs acc;
  wk_distinct : NoDup (map fst cs);
  wk_agrees : agreeOn cs st0 (ma_state acc);
  wk_prices id p maker : (id, p) ∈ cs -> getOrder id st0 = Some maker -> OrderBook.canonicalPrice maker = Some p;
  wk_evolves : evolves st0 (ma_state acc);
  wk_terms : same_terms taker0 (ma_taker acc);
  wk_taker : ma_taker acc = takerAfter taker0 (ma_fills acc);
}.

Lemma takerAfter_snoc fs f :
  takerAfter taker0 (fs ++ [f]) = recordFill (takerSold taker0 f) (takerAfter taker0 fs).
Proof. unfold takerAfter. by rewrite foldl_app. Qed.

(** One iteration: the walk stops here, or passes over an order it cannot fill,
    or fills it. *)
Lemma matchStep_walk frame c cs acc :
  walking frame (c :: cs) acc ->
  match matchStep frame h i lim side acc c with
  | None => stopsAt st0 (ma_taker acc) (Some c)
  | Some acc' => (eligible taker0 st0 (fst c) = false /\ ma_fills acc' = ma_fills acc /\ ma_taker acc' = ma_taker acc) \/
    (eligible taker0 st0 (fst c) = true /\ exists maker f qt qm, ma_fills acc' = ma_fills acc ++ [f] /\
       good_fill taker0 lim side st0 (fst c) f /\ Fill.price f = snd c /\ getOrder (fst c) st0 = Some maker /\
       fillQuantities (ma_taker acc) maker (snd c) = Some (Fill.qty_base f, qt, qm) /\
       takerSold taker0 f = qt /\ ma_taker acc' = recordFill qt (ma_taker acc))
  end.
Proof.
  intros [[Hwt Hf Hs Hc -> [Hz Hne]] _ Ha Hpr He Ht _]. destruct c as [mid mprice]. cbn [fst snd].
  destruct (same_terms_fields _ _ Ht) as (Eid & Eown & Es1 & Es2 & _).
  specialize (Ha mid mprice ltac:(apply list_elem_of_here)). specialize (Hpr mid mprice).
  unfold matchStep. destruct (Order.isFullyFilled (ma_taker acc)) eqn:Hff; [by left|].
  destruct (OrderBook.crosses lim mprice side) eqn:Hcr; cbn [negb]; [|by right; left].
  unfold eligible. rewrite <- Ha. destruct (getOrder mid (ma_state acc)) as [maker|] eqn:Hg; [|by left].
  rewrite <- Ha in Hpr. specialize (Hpr maker ltac:(apply list_elem_of_here) eq_refl).
  pose proof (getOrder_lookup _ _ _ Hg) as Hl. destruct (wt_orders _ Hwt _ _ Hl) as [Hid _ _ _].
  destruct (Hc mid mprice maker ltac:(apply list_elem_of_here) Hl) as [Hne' Hop]. subst mid.
  destruct (isValid_filled _ (getOrder_valid _ _ _ Hg)) as (_ & _ & _ & Hnull).
  unfold isNull. rewrite (proj2 (N.eqb_neq _ _) Hnull), Eown.
  destruct (N.eqb_spec (Order.owner maker) (Order.owner taker0)) as [|Hown]; cbn [negb]; [by left|].
  rewrite Hpr, Hcr. cbn [negb]. rewrite <- Eown in Hown.
  destruct (fillQuantities (ma_taker acc) maker mprice) as [[[qb qt] qm]|] eqn:Hq.
  2:{ right. right. by exists maker. }
  right. split; [done|].
  destruct (executeFill_good acc maker mprice (qb, qt, qm)) as (f & Ef & Hgood); try done.
  cbn [executeFill ma_fills] in Ef. apply app_inj_2 in Ef as [_ [= <-]]; [|done].
  destruct (wt_orders _ Hwt _ _ Hl) as [_ _ _ Hms].
  destruct (isValid_filled _ (getOrder_valid _ _ _ Hg)) as (Hfm & _ & _ & _).
  destruct (fillQuantities_amounts _ _ _ _ _ _ (opposite_sells _ _ Hne Hop) (canonicalPrice_lt _ _ Hpr)
    ltac:(rewrite remaining_exact by done; lia) ltac:(rewrite remaining_exact by done; lia) Hq)
    as (_ & _ & Hb).
  eexists maker, _, qt, qm. split; [reflexivity|]. cbn [Fill.price Fill.qty_base Fill.qty_quote].
  split_and!; try done; [by eapply good_fill_evolves|].
  unfold takerSold. cbn [Fill.qty_base Fill.qty_quote]. unfold sellsBase in *. rewrite Es1, Es2 in *.
  by destruct (_ <? _).
Qed.

Lemma walking_next frame c cs acc acc' :
  matchStep frame h i lim side acc c = Some acc' -> walking frame (c :: cs) acc ->
  (exists fs, ma_fills acc' = ma_fills acc ++ fs /\ ma_taker acc' = takerAfter taker0 (ma_fills acc ++ fs)) ->
  walking frame cs acc'.
Proof.
  intros E [Hr Hnd Ha Hp He Ht _] (fs & Ef & Et). destruct (loop_ready_next _ _ _ _ _ E Hr) as [Hst Hr'].
  cbn [map] in Hnd. apply NoDup_cons in Hnd as [Hni Hnd].
  pose proof (matchStep_agrees _ _ cs _ _ E (lr_typed _ _ _ Hr) Hni) as Ha'. split; try done.
  - intros id p Hin. rewrite (Ha' id p Hin). apply (Ha id p). by apply list_elem_of_further.
  - intros id p maker Hin. apply Hp. by apply list_elem_of_further.
  - eapply evolves_trans; [exact He|apply Hst].
  - eapply same_terms_trans; [exact Ht|apply Hst].
  - by rewrite Ef.
Qed.

(** The walk ends after some number [k] of levels; it filled, in order, those of
    them that can be filled, each by exactly what its turn allowed. *)
Lemma matchLoop_walk frame cs : forall acc, walking frame cs acc ->
  let acc' := matchLoop frame h i lim side acc cs in
  exists k fs, (k <= length cs)%nat /\ ma_fills acc' = ma_fills acc ++ fs /\
    Forall2 (fun c f => good_fill taker0 lim side st0 (fst c) f /\ Fill.price f = snd c)
      (filter (fun c => eligible taker0 st0 (fst c) = true) (take k cs)) fs /\
    (forall pre f post, fs = pre ++ f :: post -> exists maker qt qm,
       getOrder (Fill.maker_order_id f) st0 = Some maker /\
       fillQuantities (takerAfter taker0 (ma_fills acc ++ pre)) maker (Fill.price f) = Some (Fill.qty_base f, qt, qm) /\
       takerSold taker0 f = qt) /\
    ma_taker acc' = takerAfter taker0 (ma_fills acc') /\ stopsAt st0 (ma_taker acc') (cs !! k).
Proof.
  cbn zeta. induction cs as [|c cs IH]; intros acc HW.
  { exists 0%nat, []. cbn. rewrite app_nil_r. split_and!; [lia|done|constructor| |apply HW|done].
    intros pre f post E. by destruct pre. }
  cbn [matchLoop]. pose proof (matchStep_walk _ _ _ _ HW) as Hstep.
  destruct (matchStep frame h i lim side acc c) as [acc1|] eqn:E.
  2:{ exists 0%nat, []. rewrite app_nil_r. split_and!; [lia|done|constructor| |apply HW|done].
      intros pre f post E'. by destruct pre. }
  destruct Hstep as [(Hel & Ef & Et)|(Hel & maker & f & qt & qm & Ef & Hgood & Hpf & Hg & Hq & Hsold & Et)].
  - destruct (IH acc1) as (k & fs & Hk & Efs & Hall & Hex & Ht & Hstop).
    { eapply walking_next; [exact E|exact HW|]. exists []. rewrite app_nil_r, Ef, Et. split; [done|apply HW]. }
    exists (S k), fs. rewrite Efs, Ef in *. split_and!; try done; [cbn; lia|].
    cbn [take]. rewrite filter_cons_False by congruence. done.
  - assert (Et' : ma_taker acc1 = takerAfter taker0 (ma_fills acc ++ [f])).
    { by rewrite takerAfter_snoc, Et, Hsold, <- (wk_taker _ _ _ HW). }
    destruct (IH acc1) as (k & fs & Hk & Efs & Hall & Hex & Ht & Hstop).
    { eapply walking_next; [exact E|exact HW|]. by exists [f]. }
    exists (S k), (f :: fs). rewrite Efs, Ef, <- app_assoc in *. split_and!; try done; [cbn; lia| |].
    + cbn [take]. rewrite filter_cons_True by done. by constructor.
    + intros [|f' pre] g post; cbn; intros [= <- ->].
      * rewrite app_nil_r, <- (wk_taker _ _ _ HW), Hpf. exists maker, qt, qm.
        by rewrite (proj1 (gf_ids _ _ _ _ _ _ Hgood)).
      * destruct (Hex pre g post eq_refl) as (mk & a & b & ?). exists mk, a, b. by rewrite <- app_assoc in *.
Qed.
End match_fills.

(** ** Book order *)

Lemma StronglySorted_omap {A B} (R : A -> A -> Prop) (R' : B -> B -> Prop) (f : A -> option B) l :
  StronglySorted R l ->
  (forall x y a b, x ∈ l -> y ∈ l -> R x y -> f x = Some a -> f y = Some b -> R' a b) ->
  StronglySorted R' (omap f l).
Proof.
  induction 1 as [|x l Hs IH Hall]; intros Hf; [constructor|]. cbn.
  assert (IH' : StronglySorted R' (omap f l)).
  { apply IH. intros y z a b Hy Hz. apply Hf; by apply list_elem_of_further. }
  destruct (f x) as [a|] eqn:E; [|done]. constructor; [done|].
  apply Forall_forall. intros b (y & Hy & Eb)%list_elem_of_omap.
  eapply Hf; [apply list_elem_of_here|by apply list_elem_of_further| |done|done].
  by eapply Forall_forall in Hall.
Qed.

Lemma StronglySorted_sublist {A} (R : A -> A -> Prop) l' l :
  sublist l' l -> StronglySorted R l -> StronglySorted R l'.
Proof.
  induction 1 as [|x l' l Hs IH|x l' l Hs IH]; intros Hl; [done| |]; inversion_clear Hl as [|? ? Hl' Hall];
    [|auto]. constructor; [auto|]. apply Forall_forall. intros y Hy.
  eapply Forall_forall in Hall; [done|]. by eapply elem_of_sublist.
Qed.

Lemma Forall2_strengthen {A B} (P Q : A -> B -> Prop) l k :
  Forall2 P l k -> (forall x y, x ∈ l -> P x y -> Q x y) -> Forall2 Q l k.
Proof.
  induction 1 as [|x y l k Hxy Hlk IH]; intros HQ; [constructor|].
  constructor; [apply HQ; [apply list_elem_of_here|done]|].
  apply IH. intros x' y' Hx'. apply HQ. by apply list_elem_of_further.
Qed.

Lemma sublist_map_inv {A B} (f : A -> B) k l :
  sublist k (map f l) -> exists l', sublist l' l /\ k = map f l'.
Proof.
  revert k. induction l as [|x l IH]; intros k; cbn.
  { intros ->%sublist_nil_r. exists []. split; [done|done]. }
  intros [Hk|(k' & -> & Hk)]%sublist_cons_r.
  - destruct (IH _ Hk) as (l' & Hl & ->). exists l'. split; [by apply sublist_cons|done].
  - destruct (IH _ Hk) as (l' & Hl & ->). exists (x :: l'). split; [by apply sublist_skip|done].
Qed.

Section book_order.
Context `{Crypto}.

Lemma encodeBookKey_pk pk pk' side p s :
  be_split 32 pk = be_split 32 pk' ->
  OrderBook.encodeBookKey pk side p s = OrderBook.encodeBookKey pk' side p s.
Proof. intros E. unfold OrderBook.encodeBookKey. by rewrite E. Qed.

(** A row of a scan, decoded. *)
Lemma bookRow_decode n st sell buy side key j :
  BookUpTo n st -> getGlobalU64 "order:next_sequence" st < w64 -> side < 2 ->
  (key, j) ∈ bookRows (OrderBook.bookPrefix (OrderBook.pairKey sell buy) side) st ->
  exists o p seq, orders st !! j = Some o /\ order_sequences st !! j = Some seq /\
    OrderBook.canonicalPrice o = Some p /\ p < w64 /\ seq < w64 /\
    key = OrderBook.encodeBookKey (OrderBook.pairKey sell buy) side p seq.
Proof.
  intros Hb Hsq Hside Hin. unfold bookRows in Hin.
  rewrite merge_sort_Permutation, list_elem_of_filter in Hin.
  destruct Hin as [Hpre Hin%elem_of_map_to_list]. cbn [fst] in Hpre.
  destruct (bk_row _ _ Hb key j Hin) as (o & p & seq & Ho & Hq & Hp & ->).
  destruct (bk_seq _ _ Hb j seq Hq) as [Hle _].
  exists o, p, seq. split_and!; try done; [by eapply canonicalPrice_lt|lia|].
  change (length (OrderBook.bookPrefix _ _)) with 33%nat in Hpre. unfold bookKeyOf in *.
  rewrite encodeBookKey_prefix in Hpre. apply bookPrefix_inj in Hpre as [Hpk ->].
  - by apply encodeBookKey_pk.
  - unfold OrderBook.sideOf. by case_match.
  - done.
Qed.

(** The levels a scan visits are in price-time priority, and carry the price
    and the sequence of the order they name. *)
Lemma bookLevels_sorted n st sell buy side :
  BookUpTo n st -> getGlobalU64 "order:next_sequence" st < w64 -> side < 2 ->
  StronglySorted (fun x y => OrderBook.has_priority side (snd (fst x), snd x) (snd (fst y), snd y))
    (bookLevels sell buy side st) /\
  forall j p seq, (j, p, seq) ∈ bookLevels sell buy side st -> exists o,
    orders st !! j = Some o /\ order_sequences st !! j = Some seq /\ OrderBook.canonicalPrice o = Some p.
Proof.
  intros Hb Hsq Hside. unfold bookLevels. split.
  - eapply StronglySorted_omap; [apply (StronglySorted_merge_sort row_le)|].
    intros [k1 j1] [k2 j2] [[i1 p1] s1] [[i2 p2] s2] H1 H2 Hle E1 E2.
    destruct (bookRow_decode _ _ _ _ _ _ _ Hb Hsq Hside H1) as (o1 & q1 & t1 & _ & _ & _ & Hq1 & Ht1 & ->).
    destruct (bookRow_decode _ _ _ _ _ _ _ Hb Hsq Hside H2) as (o2 & q2 & t2 & _ & _ & _ & Hq2 & Ht2 & ->).
    rewrite OrderBook.decode_encodeBookKey in E1, E2 by done.
    repeat case_match; simplify_eq. cbn. unfold row_le in Hle. cbn [fst] in Hle.
    by apply OrderBook.bookKey_order in Hle.
  - intros j p seq ([k j'] & Hin & E)%list_elem_of_omap.
    destruct (bookRow_decode _ _ _ _ _ _ _ Hb Hsq Hside Hin) as (o & q & t & Ho & Hq & Hp & ? & ? & ->).
    rewrite OrderBook.decode_encodeBookKey in E by done. case_match; simplify_eq. eauto.
Qed.

(** An order has one row, so the levels name distinct orders. *)
Lemma bookLevels_distinct n st sell buy side :
  BookUpTo n st -> NoDup (map (fun l : N * N * N => fst (fst l)) (bookLevels sell buy side st)).
Proof.
  intros Hb. unfold bookLevels. set (rows := bookRows _ st).
  assert (Hin : forall key j, (key, j) ∈ rows -> idx_book st !! key = Some j).
  { intros key j Hr. unfold rows, bookRows in Hr. rewrite merge_sort_Permutation, list_elem_of_filter in Hr.
    by destruct Hr as [_ Hr%elem_of_map_to_list]. }
  assert (Hnd : NoDup rows).
  { unfold rows, bookRows. rewrite merge_sort_Permutation. apply NoDup_filter, NoDup_map_to_list. }
  clearbody rows. induction Hnd as [|[key j] rows Hni Hnd IH]; [constructor|]. cbn [omap list_omap].
  specialize (IH ltac:(intros k j' Hk; apply Hin; by apply list_elem_of_further)).
  destruct (length key =? 49)%nat; [|done]. destruct (OrderBook.decodeBookKey key) as [price sq0]. cbn [map fst].
  apply NoDup_cons. split; [|done].
  intros ([[j' p] sq] & -> & ([key' j2] & Hr & E)%list_elem_of_omap)%list_elem_of_fmap.
  destruct (length key' =? 49)%nat; [|done]. destruct (OrderBook.decodeBookKey key'). simplify_eq. cbn in *. apply Hni.
  destruct (bk_row _ _ Hb key j' ltac:(apply Hin, list_elem_of_here)) as (o & q & seq & Ho & Hs & Hp & ->).
  destruct (bk_row _ _ Hb key' j' ltac:(apply Hin; by apply list_elem_of_further)) as (o' & q' & seq' & Ho' & Hs' & Hp' & ->).
  assert (o' = o /\ seq' = seq) as [-> ->] by (split; congruence). by assert (q' = q) as <- by congruence.
Qed.

(** Every resting order of a side is among that side's levels. *)
Lemma bookLevels_complete n st sell buy side j seq o :
  BookUpTo n st -> getGlobalU64 "order:next_sequence" st < w64 ->
  order_sequences st !! j = Some seq -> orders st !! j = Some o ->
  N.min (Order.sell_token o) (Order.buy_token o) = N.min sell buy ->
  N.max (Order.sell_token o) (Order.buy_token o) = N.max sell buy -> OrderBook.sideOf o = side ->
  exists p, OrderBook.canonicalPrice o = Some p /\ (j, p, seq) ∈ bookLevels sell buy side st.
Proof.
  intros Hb Hsq Hseq Ho Hmin Hmax Hside. destruct (bk_seq _ _ Hb _ _ Hseq) as (Hle & o' & p & Ho' & _ & Hp & Hrow).
  rewrite Ho in Ho'. injection Ho' as <-. exists p. split; [done|].
  assert (Hs2 : side < 2) by (subst side; unfold OrderBook.sideOf; by case_match).
  assert (Hkey : bookKeyOf o p seq = OrderBook.encodeBookKey (OrderBook.pairKey sell buy) side p seq).
  { unfold bookKeyOf, OrderBook.pairKey. by rewrite Hmin, Hmax, Hside. }
  rewrite Hkey in Hrow. unfold bookLevels. apply list_elem_of_omap.
  exists (OrderBook.encodeBookKey (OrderBook.pairKey sell buy) side p seq, j). split.
  - unfold bookRows. rewrite merge_sort_Permutation, list_elem_of_filter. split; [|by apply elem_of_map_to_list].
    cbn [fst]. change (length (OrderBook.bookPrefix _ _)) with 33%nat. apply encodeBookKey_prefix.
  - pose proof (canonicalPrice_lt _ _ Hp). rewrite OrderBook.decode_encodeBookKey by lia. reflexivity.
Qed.
End book_order.
