(* ===== verification/Samples.v ===== *)
(** * Sample stores and transactions

    A toy instance of the cryptographic interface and small concrete stores,
    on which the theorems of the later files are applied. *)

From S2P Require Import Prelude Types OrderBook StateAccess Ledger Amm Codec Matching.
From S2P Require Import BlockOrders ExecBase ExecAccounts ExecAmm ExecOrders ExecNft Executor.
From S2P Require Import Rotation Consensus Block Invariants ExecValue MatchValue Market Conservation.

(** The digest is the number the bytes spell; every signature verifies. *)
#[export] Instance toy : Crypto := {
  blake2b := be_combine;
  ed25519_verify := fun _ _ _ => true;
  overshift := fun _ _ => 0;
}.

Definition alice : Address := 1.
Definition bob : Address := 2.
Definition gold : N := 5.

Definition funded (balance : N) : Account.t := Account.empty <| Account.balance := balance |>.

Definition goldToken : TokenInfo.t :=
  TokenInfo.mk gold (ascii_bytes "Gold") (ascii_bytes "GLD") 2 alice BackingModel.Unbacked
    1000000000 0 None.

(** Alice and Bob hold native coins and gold. *)
Definition genesis : State :=
  putTokenBalance bob gold 40000000 (putTokenBalance alice gold 50000000
    (putTokenSupply gold 90000000 (putToken goldToken
      (putAccount bob (funded 70000000) (putAccount alice (funded 80000000) (emptyState 7)))))).

Definition mkTx (ty : TxType.t) (nonce from to token_id amount : N) (payload : bytes)
    : Transaction.t :=
  Transaction.mk CURRENT_TRANSACTION_VERSION 1 ty nonce 0 from to token_id amount 10 payload
    (replicate 64 0).

Definition ctx0 : Ctx.t := Ctx.mk 100 1 0.

Definition orderPayload (buy_token min_buy mode pool expires : N) : bytes :=
  le_split 4 buy_token ++ le_split 8 min_buy ++ [mode] ++ le_split 4 pool ++ le_split 8 expires ++ [0].

Definition pay : Transaction.t := mkTx TxType.Transfer 0 alice bob NATIVE_TOKEN_ID 500000 [].

(** Alice offers 1000 native coins at two gold each. *)
Definition offer : Transaction.t :=
  mkTx TxType.CreateOrder 0 alice 0 NATIVE_TOKEN_ID 1000 (orderPayload gold 2000 0 0 0).

(** Alice offers 600 more at three gold each. *)
Definition offer2 : Transaction.t :=
  mkTx TxType.CreateOrder 1 alice 0 NATIVE_TOKEN_ID 600 (orderPayload gold 1800 0 0 0).

(** Bob takes at up to four gold a coin. *)
Definition take_offer : Transaction.t :=
  mkTx TxType.CreateOrder 0 bob 0 gold 2600 (orderPayload NATIVE_TOKEN_ID 650 0 0 0).

Definition afterTx (tx : Transaction.t) (st : State) : State := snd (execute tx ctx0 st).

Definition book : State := afterTx offer2 (afterTx offer genesis).

(** A pool of native coins and gold. *)
Definition openPool : Transaction.t :=
  mkTx TxType.CreatePool 0 alice 0 NATIVE_TOKEN_ID 1000000
    (le_split 4 gold ++ le_split 8 2000000 ++ le_split 2 30).

Definition swapTx : Transaction.t :=
  mkTx TxType.Swap 0 bob bob NATIVE_TOKEN_ID 10000 (le_split 8 1 ++ le_split 8 0).

Definition pooled : State := afterTx openPool genesis.

Lemma toy_CollisionFree : CollisionFree.
Proof.
  intros a b c d Ha Hb Hc Hd E.
  assert (Hpk : forall x y, x < w32 -> y < w32 -> be_combine (be_split 32 (OrderBook.pairKey x y)) =
    be_combine (ascii_bytes "obok" ++ le_split 4 (N.min x y) ++ le_split 4 (N.max x y))).
  { intros x y Hx Hy. rewrite be_combine_split. apply N.mod_small.
    unfold OrderBook.pairKey, blake2b, toy, be_combine.
    eapply N.lt_le_trans; [apply le_combine_lt|].
    - apply Forall_reverse. rewrite !Forall_app. split; [|by split; apply le_split_wf].
      repeat constructor.
    - rewrite length_reverse, !length_app, !length_le_split. done. }
  apply (f_equal be_combine) in E. rewrite !Hpk in E by done.
  assert (Hinj : forall l1 l2, Forall wf_byte l1 -> Forall wf_byte l2 -> length l1 = length l2 ->
    be_combine l1 = be_combine l2 -> l1 = l2).
  { intros l1 l2 H1 H2 Hl Hc'. unfold be_combine in Hc'. apply (inj reverse).
    rewrite <-(le_split_combine (reverse l1)), <-(le_split_combine (reverse l2))
      by (by apply Forall_reverse). by rewrite !length_reverse, Hl, Hc'. }
  apply Hinj in E.
  - apply app_inj_1 in E as [_ E]; [|done].
    apply app_inj_1 in E as [E1 E2]; [|by rewrite !length_le_split].
    apply (f_equal le_combine) in E1, E2. rewrite !le_combine_split in E1, E2.
    rewrite !N.mod_small in E1, E2 by (change (w8 ^ N.of_nat 4) with w32; lia). done.
  - rewrite !Forall_app. split; [|by split; apply le_split_wf]. repeat constructor.
  - rewrite !Forall_app. split; [|by split; apply le_split_wf]. repeat constructor.
  - by rewrite !length_app, !length_le_split.
Qed.

Lemma genesis_Market : Market genesis.
Proof.
  assert (Hp : pools genesis = ∅) by done. assert (Ho : orders genesis = ∅) by done.
  assert (Hq : positions genesis = ∅) by done. assert (Hb : idx_book genesis = ∅) by done.
  assert (Hs : order_sequences genesis = ∅) by done.
  split; split.
  - intros i p. by rewrite Hp.
  - intros i o. by rewrite Ho.
  - intros i p. by rewrite Hq.
  - intros k i. by rewrite Hb.
  - intros i s. by rewrite Hs.
  - intros i o. by rewrite Ho.
Qed.

(** The receipt of a sample transaction, by evaluation. *)
Definition ok_receipt : Receipt.t := Receipt.mk ReceiptStatus.Success 10 [].
Definition failure_receipt : Receipt.t := Receipt.mk ReceiptStatus.Failure 10 [].

Lemma execute_after tx st r :
  fst (execute tx ctx0 st) = Ok r -> execute tx ctx0 st = (Ok r, afterTx tx st).
Proof. intros <-. unfold afterTx. by destruct (execute tx ctx0 st). Qed.

Lemma pay_ok : execute pay ctx0 genesis = (Ok ok_receipt, afterTx pay genesis).
Proof. apply execute_after. vm_compute. reflexivity. Qed.
Lemma offer_ok : execute offer ctx0 genesis = (Ok ok_receipt, afterTx offer genesis).
Proof. apply execute_after. vm_compute. reflexivity. Qed.
Lemma offer2_ok : execute offer2 ctx0 (afterTx offer genesis) = (Ok ok_receipt, book).
Proof. apply execute_after. vm_compute. reflexivity. Qed.
Lemma openPool_ok : execute openPool ctx0 genesis = (Ok ok_receipt, pooled).
Proof. apply execute_after. vm_compute. reflexivity. Qed.
Lemma swapTx_ok : execute swapTx ctx0 pooled = (Ok ok_receipt, afterTx swapTx pooled).
Proof. apply execute_after. vm_compute. reflexivity. Qed.

Lemma executeBody_ok tx st :
  fst (execute tx ctx0 st) = Ok ok_receipt -> exists fs, executeBody tx ctx0 st = (Ok fs, afterTx tx st).
Proof.
  unfold afterTx, execute. destruct (executeBody tx ctx0 st) as [[fs| |] st']; cbn; try done. eauto.
Qed.

Lemma book_Market : Market book.
Proof.
  destruct (executeBody_ok offer genesis) as [fs1 E1]; [vm_compute; reflexivity|].
  destruct (executeBody_ok offer2 (afterTx offer genesis)) as [fs2 E2]; [vm_compute; reflexivity|].
  eapply Market_executeBody; [apply toy_CollisionFree| | | |exact E2].
  - eapply Market_executeBody; [apply toy_CollisionFree|apply genesis_Market| | |exact E1].
    + split; vm_compute; reflexivity.
    + reflexivity.
  - split; vm_compute; reflexivity.
  - reflexivity.
Qed.

(** Bob's order, locked and stored, before it is matched. *)
Definition bobOrder : Order.t := buildOrder take_offer ctx0 3.
Definition bobLocked : State := putOrder bobOrder (subTokens bob gold 2600 (charged take_offer book)).

(** ** Validators *)

#[export] Instance toy_sort : StdSort := merge_StdSort.

Definition member (i : N) : ValidatorInfo.t :=
  ValidatorInfo.fresh <| ValidatorInfo.id := i |>
    <| ValidatorInfo.reward_address := 100 + i |> <| ValidatorInfo.consensus_key := 200 + i |>
    <| ValidatorInfo.owner := 300 + i |> <| ValidatorInfo.stake := VALIDATOR_MIN_STAKE |>
    <| ValidatorInfo.is_active := true |> <| ValidatorInfo.last_seen_height := 90 |>.

Definition committee : list N := [1; 2; 3; 4].

(** Four active validators beside Alice and Bob. *)
Definition staffed : State :=
  saveActiveSet committee
    (foldl (fun st i => putValidatorByAddress (100 + i) i (putValidator (member i) st)) genesis committee).

(** A digest that mixes the whole input into 64 bits. *)
Definition mixing : Crypto := {|
  blake2b := fun b => foldl (fun h x => N.land (h * 37 + x + 1) (N.ones 64)) 7 b;
  ed25519_verify := fun _ _ _ => true;
  overshift := fun _ _ => 0;
|}.

(** ** A block on the wire *)

Definition wireHeader (id : N) : BlockHeader.t :=
  BlockHeader.mk CURRENT_BLOCK_VERSION 7 61 11 1767225700000 12 1 1 2 31
    [TimeoutVote.mk 61 31 2 id (replicate 64 3)] 13 14 15 16 0 17 10 1 4.

(** A block whose certificate's vote carries the id [id]. *)
Definition wireBlock (id : N) : Block.t :=
  Block.mk (wireHeader id) [wireTx] [ValidatorSignature.mk 0 (replicate 64 4)] [1; 2; 3].
