(* ===== verification/ExecutorTheorems.v ===== *)
(** * Theorems: the transaction executor

    Conservation, authorisation, replay protection, atomicity of rejections
    and the store invariants, for [TransactionExecutor::execute] and for runs
    of the chain. *)

From S2P Require Import Prelude Types OrderBook StateAccess Ledger Amm Codec Matching.
From S2P Require Import BlockOrders ExecBase ExecAccounts ExecAmm ExecOrders ExecNft Executor.
From S2P Require Import Rotation Invariants ExecValue MatchValue Market Conservation Atomicity Chain.
From S2P Require Import Samples.



(** C2: replay protection.  Along any run of the chain, the transactions of an
    account that succeed carry exactly the consecutive nonces that start at the
    account's stored nonce, so none can succeed twice and none can be reordered;
    and the stored nonce ends past the last of them. *)
Theorem run_replay_protection `{Crypto} `{StdSort} (txs : list Transaction.t) (st st' : State) (a : Address) :
  run txs st st' -> nonceOf a st + N.of_nat (length txs) + 1 < w64 ->
  map Transaction.nonce (ofSender a txs) = noncesFrom (nonceOf a st) (length (ofSender a txs)) /\
  NoDup (map Transaction.nonce (ofSender a txs)) /\
  nonceOf a st' = nonceOf a st + N.of_nat (length (ofSender a txs)).
Proof.
  intros Hr Hb. destruct (run_nonces _ _ _ a Hr Hb) as [Hm Hn]. split_and!; [done| |done].
  rewrite Hm. unfold noncesFrom. apply NoDup_fmap_2; [|apply NoDup_seq]. intros k1 k2. lia.
Qed.

Lemma run_replay_protection_witness :
  exists st', run [offer; offer2] genesis st' /\
    map Transaction.nonce (ofSender alice [offer; offer2]) = [0; 1] /\ nonceOf alice st' = 2.
Proof.
  assert (Hr : run [offer; offer2] genesis book).
  { eapply (run_cons [offer] [offer2]).
    - exact (step_tx offer ctx0 ok_receipt genesis (afterTx offer genesis) offer_ok).
    - eapply (run_cons [offer2] []).
      + exact (step_tx offer2 ctx0 ok_receipt (afterTx offer genesis) book offer2_ok).
      + constructor. }
  exists book. split; [exact Hr|].
  destruct (run_replay_protection [offer; offer2] genesis book alice Hr ltac:(vm_compute; reflexivity))
    as (H1 & _ & H2).
  split; [exact H1|]. rewrite H2. vm_compute. reflexivity.
Defined.

(** C3: a rejected transaction is free of side effects.  For every type but the
    four whose handler can reject after a write, a failure receipt means the
    state is untouched, or only the sender's fee was taken. *)
Theorem execute_rejection_atomic `{Crypto} (tx : Transaction.t) (ctx : Ctx.t) (st st' : State)
    (r : Receipt.t) :
  may_reject_late (Transaction.tx_type tx) = false ->
  execute tx ctx st = (Ok r, st') -> Receipt.status r = ReceiptStatus.Failure ->
  st' = (if admitted tx ctx st then charged tx st else st) /\ Receipt.fills r = [].
Proof.
  intros Hl E Hf. unfold execute in E. rewrite executeBody_run in E.
  destruct (admitted tx ctx st) eqn:Had; [|by simplify_eq].
  destruct (dispatch (Transaction.tx_type tx)) as [h|] eqn:Hd; [|by simplify_eq].
  assert (Hfrom : isNull (Transaction.from tx) = false).
  { unfold admitted, Transaction.isWellFormed in Had. rewrite !andb_true_iff in Had.
    destruct Had as (((((Hw & _) & _) & _) & _) & _).
    assert (Hs : TxType.isSystemTx (Transaction.tx_type tx) = false)
      by (by destruct (Transaction.tx_type tx)).
    rewrite Hs in Hw. revert Hw. by repeat case_match. }
  pose proof (atomic_dispatch tx ctx _ h Hd Hl Hfrom (charged tx st)) as Ha.
  destruct (h tx ctx (charged tx st)) as [[fs| |] st1]; simplify_eq/=. by rewrite Ha.
Qed.

(** Alice cannot send what she does not have; only her fee is taken. *)
Definition overdraft : Transaction.t := mkTx TxType.Transfer 0 alice bob NATIVE_TOKEN_ID 90000000 [].

Lemma execute_rejection_atomic_witness :
  afterTx overdraft genesis = charged overdraft genesis.
Proof.
  destruct (execute_rejection_atomic overdraft ctx0 genesis (afterTx overdraft genesis)
    failure_receipt eq_refl (execute_after overdraft genesis failure_receipt ltac:(vm_compute; reflexivity)) eq_refl) as [E _].
  assert (Ha : admitted overdraft ctx0 genesis = true) by (vm_compute; reflexivity).
  rewrite Ha in E. exact E.
Defined.

(** C4: authorisation.  Whatever changes the state or yields a success receipt
    is a well-formed, unexpired transaction of this chain, signed by its
    sender, with the sender's current nonce, whose fee the sender can pay. *)
Theorem execute_authorised `{Crypto} (tx : Transaction.t) (ctx : Ctx.t) (st st' : State)
    (o : outcome Receipt.t) :
  execute tx ctx st = (o, st') ->
  (exists r, o = Ok r /\ Receipt.status r = ReceiptStatus.Failure /\ st' = st) \/
  (Transaction.isWellFormed tx = true /\ Transaction.chain_id tx = Ctx.chain_id ctx /\
   (Transaction.valid_until_height tx = 0 \/ Ctx.current_height ctx <= Transaction.valid_until_height tx) /\
   ed25519_verify (TransactionCodec.signingHash tx) (Transaction.from tx) (Transaction.signature tx) = true /\
   Account.nonce (getAccount (Transaction.from tx) st) = Transaction.nonce tx /\
   Transaction.fee tx <= Account.balance (getAccount (Transaction.from tx) st)).
Proof.
  unfold execute. rewrite executeBody_run. destruct (admitted tx ctx st) eqn:Had; intros E; [right|left].
  - clear E. unfold admitted, checkExpiry, verifySignature, verifyNonce in Had.
    rewrite !andb_true_iff, !N.eqb_eq, N.leb_le in Had.
    destruct Had as (((((Hw & Hch) & He) & Hs) & Hn) & Hfee). split_and!; try done.
    destruct (N.eqb_spec (Transaction.valid_until_height tx) 0) as [|]; [by left|right]. by apply N.leb_le.
  - injection E as <- <-. by eexists.
Qed.

Lemma execute_authorised_witness :
  Account.nonce (getAccount alice genesis) = Transaction.nonce pay.
Proof.
  destruct (execute_authorised pay ctx0 genesis (afterTx pay genesis)
    (Ok ok_receipt) pay_ok)
    as [(r & E & Hf & _)|(_ & _ & _ & _ & Hn & _)]; [|exact Hn].
  injection E as <-. discriminate.
Defined.

(** C5: the market tables stay sound.  A successful transaction of any type
    keeps every pool, order and position record well typed under its own id,
    and keeps the order-book index equal to the set of live sequenced orders. *)
Theorem execute_keeps_market `{Crypto} (tx : Transaction.t) (ctx : Ctx.t) (st st' : State)
    (r : Receipt.t) :
  CollisionFree -> Market st -> Roomy st -> Transaction.amount tx < w64 ->
  execute tx ctx st = (Ok r, st') -> Receipt.status r = ReceiptStatus.Success -> Market st'.
Proof.
  intros Hcf HM Hr Ha E Hs. unfold execute in E.
  destruct (executeBody tx ctx st) as [[fs| |] st1] eqn:Eb; simplify_eq/=.
  by eapply Market_executeBody.
Qed.

Lemma execute_keeps_market_witness : Market book.
Proof.
  assert (H1 : Market (afterTx offer genesis)).
  { exact (execute_keeps_market offer ctx0 genesis (afterTx offer genesis)
      ok_receipt toy_CollisionFree genesis_Market
      ltac:(split; vm_compute; reflexivity) ltac:(reflexivity) offer_ok eq_refl). }
  exact (execute_keeps_market offer2 ctx0 (afterTx offer genesis) book
    ok_receipt toy_CollisionFree H1
    ltac:(split; vm_compute; reflexivity) ltac:(reflexivity) offer2_ok eq_refl).
Defined.

(** Staking totals.  Along any run of the chain (transactions that succeed
    or fail, slashes, expiries, conditions, unbonding, rewards, epoch boundaries,
    rotation), every account's stake is what its balance and its opt-out flag
    imply, [total_staked] is the sum of the stakes modulo 2^64, and the staker
    index is the set of accounts with a positive stake. *)
Theorem run_keeps_staking `{Crypto} `{StdSort} (txs : list Transaction.t) (st st' : State) :
  run txs st st' -> Staking st -> Staking st'.
Proof. apply run_stable; [apply _|apply Staking_bumpNonce]. Qed.

Lemma genesis_Staking : Staking genesis.
Proof.
  assert (H0 : Staking (emptyState 7)).
  { split; [done|done|]. intros a. unfold getAccount. cbn. rewrite lookup_empty. cbn.
    split; [set_solver|lia]. }
  assert (Hf : forall s s', core s' = core s -> Staking s -> Staking s') by apply stable_frame.
  unfold genesis. do 2 (eapply Hf; [apply core_putTokenBalance|]).
  eapply Hf; [apply core_putTokenSupply|]. eapply Hf; [apply core_putToken|].
  do 2 (apply Staking_putAccount; [by left|]). exact H0.
Qed.

Lemma run_keeps_staking_witness :
  run [pay] genesis (afterTx pay genesis) /\ Staking (afterTx pay genesis).
Proof.
  assert (Hr : run [pay] genesis (afterTx pay genesis)).
  { eapply (run_cons [pay] []).
    - exact (step_tx pay ctx0 ok_receipt genesis (afterTx pay genesis) pay_ok).
    - constructor. }
  split; [exact Hr|]. exact (run_keeps_staking [pay] genesis (afterTx pay genesis) Hr genesis_Staking).
Defined.
