(* ===== verification/MarketTheorems.v ===== *)
(** * Theorems: order book, matching, routing and pools

    What a taker's fills are and how they settle, what expiry and conditions do
    to resting orders, what swaps, routed orders and withdrawals pay, and that
    liquidity shares stay backed. *)

From S2P Require Import Prelude Types OrderBook StateAccess Ledger Amm Codec Matching.
From S2P Require Import BlockOrders ExecBase ExecAccounts ExecAmm ExecOrders ExecNft Executor.
From S2P Require Import Invariants ExecValue MatchValue Market Conservation Liquidity MatchSpec.
From S2P Require Import Samples.

(** ** Matching *)

(** A stored, unsequenced taker: what [executeCreateOrder] hands the matcher. *)
Record taker_ready `{Crypto} (n : N) (taker : Order.t) (st : State) : Prop := {
  tr_typed : WellTyped st;
  tr_book : TakerBook n (Order.id taker) st;
  tr_stored : orders st !! Order.id taker = Some taker;
  tr_valid : Order.isValid taker = true;
}.

(** The side of the book a taker walks. *)
Definition makerLevels `{Crypto} (taker : Order.t) (st : State) : list (N * N * N) :=
  bookLevels (base_token (frameOf taker)) (quote_token (frameOf taker))
    (if sellsBase taker then 1 else 0) st.

Lemma collectCandidates_levels `{Crypto} taker st :
  collectCandidates taker st = map fst (take OrderBook.MAX_BOOK_LEVELS_PER_TAKER (makerLevels taker st)).
Proof.
  unfold collectCandidates, makerLevels. rewrite firstn_map. apply map_ext. by intros [[? ?] ?].
Qed.

(** The walk of a ready taker along the collected candidates. *)
Lemma collected_walking `{Crypto} n taker st :
  CollisionFree -> taker_ready n taker st ->
  walking taker st (frameOf taker) (collectCandidates taker st) (mkMatchAcc st taker [] 0 0).
Proof.
  intros Hcf [Hwt Htb Hst Hv]. destruct (isValid_filled _ Hv) as (Hf & Hne & Hid & Hown).
  destruct (wt_orders _ Hwt _ _ Hst) as [_ Hs1 Hs2 Hs]. pose proof Htb as (Hb & _ & Hsq).
  rewrite collectCandidates_levels. split; cbn [ma_state ma_taker ma_fills]; try done.
  - split; try done. rewrite <- collectCandidates_levels. by apply (TakerBook_candidates n).
  - rewrite map_map, <- firstn_map. eapply sublist_NoDup; [|apply sublist_take]. exact (bookLevels_distinct n st _ _ _ Hb).
  - intros id p maker Hin Hg. apply list_elem_of_fmap in Hin as ([[j q] seq] & [= -> ->] & Hin).
    assert (Hin' : (j, q, seq) ∈ makerLevels taker st) by (eapply elem_of_sublist; [exact Hin|apply sublist_take]).
    destruct (bookLevels_sorted n st (base_token (frameOf taker)) (quote_token (frameOf taker))
      (if sellsBase taker then 1 else 0) Hb ltac:(lia) ltac:(by case_match)) as [_ Hlev].
    destruct (Hlev j q seq Hin') as (o & Ho & _ & Hop). apply getOrder_lookup in Hg. congruence.
  - apply evolves_refl.
  - apply same_terms_refl.
Qed.

(** C6: price-time priority.  The levels a passive taker walks are all the
    resting orders of the other side of its pair, sorted by price-time priority
    (best price first, equal prices by age), the first 256 of them.  Among the
    first [k], none is passed over but the taker's own orders and records that
    cannot be read: the fills are, in order, against all the others.  Each fill is
    at the price of the maker's own limit, crosses the taker's limit, pays
    [base * price / scale] quote units, and takes exactly what the remainder of
    the taker, after the fills before it, and the maker allow at that price.  And
    the walk stops after [k] levels only because there are no more, the taker is
    filled, the next price does not cross the limit, or the next maker and the
    taker have less than one unit to exchange. *)
Theorem match_price_time_priority `{Crypto} (n : N) (taker : Order.t) (h i : N) (st : State)
    (out : MatchOutcome) (taker' : Order.t) (st' : State) (limit : N) :
  CollisionFree -> taker_ready n taker st -> Order.mode taker = OrderExecutionMode.Passive ->
  Order.isFullyFilled taker = false -> OrderBook.canonicalPrice taker = Some limit ->
  matchPassiveOrder taker h i st = (out, taker', st') ->
  let maker_side := if sellsBase taker then 1 else 0 in
  let taker_side := if sellsBase taker then 0 else 1 in
  let levels := makerLevels taker st in
  let candidates := map fst (take OrderBook.MAX_BOOK_LEVELS_PER_TAKER levels) in
  (forall j seq o, order_sequences st !! j = Some seq -> orders st !! j = Some o -> opposite taker o ->
     exists p, OrderBook.canonicalPrice o = Some p /\ (j, p, seq) ∈ levels) /\
  StronglySorted (fun x y => OrderBook.has_priority maker_side (snd (fst x), snd x) (snd (fst y), snd y)) levels /\
  exists k,
    Forall2 (fun c f => good_fill taker limit taker_side st (fst c) f /\ Fill.price f = snd c)
      (filter (fun c => eligible taker st (fst c) = true) (take k candidates)) (mo_fills out) /\
    fillsExact st taker (mo_fills out) /\
    taker' = takerAfter taker (mo_fills out) /\
    stopsAt limit taker_side st taker' (candidates !! k).
Proof.
  intros Hcf Hrd Hm Hnf Hlim E. cbn zeta. pose proof Hrd as [Hwt (Hb & _ & Hsq) Hst Hv].
  destruct (isValid_filled _ Hv) as (_ & Hne & Hid & Hown). split_and!.
  - intros j seq o Hseq Ho [Hs Hbuy]. unfold makerLevels.
    apply (bookLevels_complete n); [exact Hb|lia|done|done|..];
      unfold frameOf, OrderBook.sideOf, sellsBase; cbn [base_token quote_token]; rewrite ?Hs, ?Hbuy; [lia|lia|].
    destruct (N.ltb_spec (Order.buy_token taker) (Order.sell_token taker)),
      (N.ltb_spec (Order.sell_token taker) (Order.buy_token taker)); done || lia.
  - unfold makerLevels. refine (proj1 (bookLevels_sorted n st _ _ _ Hb _ _)); [lia|by case_match].
  - unfold matchPassiveOrder in E. rewrite Hlim in E.
    assert (Hg : (Order.id taker =? INVALID_ID) || isNull (Order.owner taker) || Order.isFullyFilled taker
      || negb (bool_decide (Order.mode taker = OrderExecutionMode.Passive)) = false).
    { rewrite Hnf, bool_decide_eq_true_2 by done. unfold isNull, INVALID_ID.
      by rewrite (proj2 (N.eqb_neq _ _) Hid), (proj2 (N.eqb_neq _ _) Hown). }
    rewrite Hg in E. rewrite <- collectCandidates_levels.
    destruct (matchLoop_walk h i limit (if sellsBase taker then 0 else 1) taker st _ _ _
      (collected_walking n taker st Hcf Hrd)) as (k & fs & _ & Ef & Hall & Hex & Ht & Hstop).
    set (acc := matchLoop _ _ _ _ _ _ _) in *. clearbody acc.
    destruct (restTaker (ma_taker acc) (ma_state acc)) as [rests st1]. injection E as <- <- <-.
    cbn [mo_fills ma_fills app] in *. rewrite Ef in *. exists k. by split_and!.
Qed.

Lemma bobLocked_ready : taker_ready 4 bobOrder bobLocked.
Proof.
  assert (HM : Market (charged take_offer book))
    by (eapply Market_frame; [apply market_charged|apply book_Market]).
  assert (Hr : Roomy (charged take_offer book)) by (split; vm_compute; reflexivity).
  destruct (lockOrder_ok take_offer ctx0 (charged take_offer book) HM Hr) as (H1 & H2 & H3 & _);
    [reflexivity|vm_compute; reflexivity|].
  assert (Hn : nextOrderId (charged take_offer book) = 3) by (vm_compute; reflexivity).
  rewrite Hn in H1, H2, H3. split; [exact H1|exact H2|exact H3|reflexivity].
Qed.

(** Both makers on the book are filled, the cheaper one first, and the taker with
    them. *)
Lemma match_price_time_priority_witness :
  exists out taker' st', matchPassiveOrder bobOrder 100 0 bobLocked = (out, taker', st') /\
    map Fill.price (mo_fills out) = [20000000000; 30000000000] /\
    StronglySorted (fun x y => OrderBook.has_priority 0 (snd (fst x), snd x) (snd (fst y), snd y))
      (makerLevels bobOrder bobLocked) /\
    fillsExact bobLocked bobOrder (mo_fills out).
Proof.
  destruct (matchPassiveOrder bobOrder 100 0 bobLocked) as [[out tk] st'] eqn:E. exists out, tk, st'.
  assert (Hf : map Fill.price (mo_fills (fst (fst (matchPassiveOrder bobOrder 100 0 bobLocked)))) =
    [20000000000; 30000000000]) by (vm_compute; reflexivity).
  rewrite E in Hf. cbn [fst] in Hf.
  destruct (match_price_time_priority 4 bobOrder 100 0 bobLocked out tk st' 40000000000
    toy_CollisionFree bobLocked_ready eq_refl eq_refl ltac:(vm_compute; reflexivity) E) as (_ & Hs & k & _ & Hex & _).
  split; [reflexivity|]. split; [exact Hf|]. split; [exact Hs|exact Hex].
Defined.

(** C7: settlement of a passive order.  Matching fills the taker by at most its
    sell amount and changes nothing else of its terms; afterwards its record is
    stored exactly when it rests, every other order is one that was there
    before with the same terms, the book index is sound again, and no token's
    total has grown. *)
Theorem match_settles `{Crypto} (n : N) (taker : Order.t) (h i : N) (st : State)
    (out : MatchOutcome) (taker' : Order.t) (st' : State) :
  CollisionFree -> taker_ready n taker st -> Order.mode taker = OrderExecutionMode.Passive ->
  Order.isFullyFilled taker = false -> is_Some (OrderBook.canonicalPrice taker) ->
  matchPassiveOrder taker h i st = (out, taker', st') ->
  same_terms taker taker' /\
  Order.filled_amount taker <= Order.filled_amount taker' /\
  Order.filled_amount taker' <= Order.sell_amount taker' /\
  orders st' !! Order.id taker = (if mo_taker_rests out then Some taker' else None) /\
  evolves st st' /\ BookUpTo n st' /\ forall t, value t st' <= value t st.
Proof.
  intros Hcf [Hwt Htb Hst Hv] Hm Hnf [lim Hlim] E.
  destruct (isValid_filled _ Hv) as (Hf & Hne & Hid & Hown).
  destruct (wt_orders _ Hwt _ _ Hst) as [_ Hs1 Hs2 Hs].
  destruct (matchPassiveOrder_ok n taker h i st Hcf Hwt Htb Hst Hf Hne) as (Hb & He & Hval).
  rewrite E in Hb, He, Hval. cbn [snd] in *.
  pose proof (TakerBook_candidates _ _ _ Hcf Hwt Htb Hs1 Hs2 Hne) as Hc.
  unfold matchPassiveOrder in E. rewrite Hlim in E.
  assert (Hg : (Order.id taker =? INVALID_ID) || isNull (Order.owner taker) || Order.isFullyFilled taker
    || negb (bool_decide (Order.mode taker = OrderExecutionMode.Passive)) = false).
  { rewrite Hnf, bool_decide_eq_true_2 by done. unfold isNull, INVALID_ID.
    by rewrite (proj2 (N.eqb_neq _ _) Hid), (proj2 (N.eqb_neq _ _) Hown). }
  rewrite Hg in E.
  pose proof (matchLoop_ok (frameOf taker) h i lim (if sellsBase taker then 0 else 1)
    (collectCandidates taker st) (mkMatchAcc st taker [] 0 0) Hwt Hf Hs Hc) as [_ _ T F R].
  set (acc := matchLoop _ _ _ _ _ _ _) in *. clearbody acc. cbn [ma_taker ma_state] in T, F, R.
  destruct (same_terms_fields _ _ T) as (Hid' & _).
  destruct (restTaker (ma_taker acc) (ma_state acc)) as [rests st1] eqn:Er. injection E as <- <- <-.
  split_and!; try done; try lia. cbn [mo_taker_rests]. unfold restTaker in Er.
  rewrite <-Hid'. case_match; injection Er as <- <-.
  - cbn. by rewrite lookup_delete_eq.
  - unfold addToOrderBook. repeat case_match; cbn; by rewrite lookup_insert_eq.
Qed.

Lemma match_settles_witness :
  exists out tk st', matchPassiveOrder bobOrder 100 0 bobLocked = (out, tk, st') /\
    orders st' !! 3 = None /\ Order.filled_amount tk = 2600.
Proof.
  destruct (matchPassiveOrder bobOrder 100 0 bobLocked) as [[out tk] st'] eqn:E.
  exists out, tk, st'. split; [reflexivity|].
  destruct (match_settles 4 bobOrder 100 0 bobLocked out tk st' toy_CollisionFree bobLocked_ready
    eq_refl eq_refl ltac:(vm_compute; eauto) E) as (_ & _ & _ & Ho & _).
  assert (Hr : mo_taker_rests (fst (fst (matchPassiveOrder bobOrder 100 0 bobLocked))) = false)
    by (vm_compute; reflexivity).
  assert (Hfill : Order.filled_amount (snd (fst (matchPassiveOrder bobOrder 100 0 bobLocked))) = 2600)
    by (vm_compute; reflexivity).
  rewrite E in Hr, Hfill. cbn [fst snd] in Hr, Hfill. rewrite Hr in Ho. split; [exact Ho|exact Hfill].
Defined.

(** ** Block-level order steps *)

Section expiries.
Context `{Crypto}.

Lemma orders_deleteRestingOrder o st :
  Order.id o <> INVALID_ID -> orders (deleteRestingOrder o st) = delete (Order.id o) (orders st).
Proof.
  intros Hid. unfold deleteRestingOrder. destruct (N.eqb_spec (Order.id o) INVALID_ID); [done|]. cbn.
  case_match; rewrite ?orders_removeOrderExpiry, orders_removeFromOrderBook; done.
Qed.

(** Cancelling or expiring deletes the order, if there is one. *)
Lemma orders_refund i o x st :
  Market st -> getOrder i st = Some o ->
  orders (deleteRestingOrder o
    (if 0 <? x then addTokens (Order.owner o) (Order.sell_token o) x st else st)) = delete i (orders st).
Proof.
  intros HM Hg. destruct (stored_order _ _ _ HM Hg) as (_ & _ & Hid).
  destruct (isValid_filled _ (getOrder_valid _ _ _ Hg)) as (_ & _ & Hnz & _).
  rewrite orders_deleteRestingOrder by done. rewrite Hid. f_equal. case_match; [apply orders_addTokens|done].
Qed.

Lemma getOrder_orders i st st' : orders st' = orders st -> getOrder i st' = getOrder i st.
Proof. intros E. unfold getOrder. by rewrite E. Qed.

Lemma getOrder_delete i j st st' :
  orders st' = delete j (orders st) -> getOrder i st' = if i =? j then None else getOrder i st.
Proof.
  intros E. unfold getOrder. rewrite E. destruct (N.eqb_spec i j) as [->|].
  - by rewrite lookup_delete_eq.
  - by rewrite lookup_delete_ne.
Qed.

Lemma getOrder_expire i j st :
  Market st -> getOrder i (expireOrder j st) = if i =? j then None else getOrder i st.
Proof.
  intros HM. unfold expireOrder. destruct (getOrder j st) as [o|] eqn:Hg.
  - apply getOrder_delete. by apply orders_refund.
  - destruct (N.eqb_spec i j) as [->|]; [done|done].
Qed.

Lemma getOrder_cancel i j st :
  Market st -> getOrder i (cancelOrderByCondition j st) = if i =? j then None else getOrder i st.
Proof.
  intros HM. unfold cancelOrderByCondition. destruct (getOrder j st) as [o|] eqn:Hg.
  - apply getOrder_delete. by apply orders_refund.
  - destruct (N.eqb_spec i j) as [->|]; [done|done].
Qed.

(** Folding either removes every listed order and no other. *)
Lemma getOrder_foldl (f : State -> N -> State) l st i :
  (forall st0 st j, bounded_by st0 st -> bounded_by st0 (f st j)) ->
  (forall st j, Market st -> getOrder i (f st j) = if i =? j then None else getOrder i st) ->
  Market st -> getOrder i (foldl f st l) = if bool_decide (i ∈ l) then None else getOrder i st.
Proof.
  intros Hb Hf. revert st. induction l as [|j l IH]; intros st HM; [done|]. cbn [foldl].
  rewrite IH by (by apply (Hb st), bounded_refl). rewrite Hf by done.
  destruct (N.eqb_spec i j) as [->|Hne].
  - rewrite (bool_decide_eq_true_2 (j ∈ j :: l)) by apply list_elem_of_here. by case_bool_decide.
  - case_bool_decide; case_bool_decide; set_solver.
Qed.
End expiries.

(** Expiry.  Processing the expiries of a height removes exactly the orders
    indexed at that height, clears the index entry, refunds no more than the
    locks (no token's total grows) and keeps the market tables. *)
Theorem expiries_settle `{Crypto} (h : N) (st : State) :
  Market st ->
  let st' := processOrderExpiries h st in
  (forall i, getOrder i st' =
    if bool_decide (i ∈ getOrdersExpiringAt h st) then None else getOrder i st) /\
  getOrdersExpiringAt h st' = [] /\ Market st' /\ forall t, value t st' <= value t st.
Proof.
  intros HM st'. destruct (bounded_processOrderExpiries h st HM) as [HM' Hv].
  split_and!; [| |done|done]; unfold st', processOrderExpiries.
  - intros i. destruct (getOrdersExpiringAt h st) as [|j l] eqn:El; [done|].
    match goal with |- getOrder _ (clearOrderExpiry _ ?s) = _ =>
      change (getOrder i s = if bool_decide (i ∈ j :: l) then None else getOrder i st) end.
    apply getOrder_foldl; [intros; by apply bounded_expireOrder|intros; by apply getOrder_expire|done].
  - destruct (getOrdersExpiringAt h st) as [|j l] eqn:El; [done|].
    unfold getOrdersExpiringAt. cbn. by rewrite lookup_delete_eq.
Qed.

(** Alice's offer, expiring at height 150. *)
Definition dated : Transaction.t :=
  mkTx TxType.CreateOrder 0 alice 0 NATIVE_TOKEN_ID 1000 (orderPayload gold 2000 0 0 150).

Lemma dated_Market : Market (afterTx dated genesis).
Proof.
  destruct (executeBody_ok dated genesis) as [fs E]; [vm_compute; reflexivity|].
  eapply Market_executeBody; [apply toy_CollisionFree|apply genesis_Market| | |exact E].
  - split; vm_compute; reflexivity.
  - reflexivity.
Qed.

Lemma expiries_settle_witness :
  is_Some (getOrder 1 (afterTx dated genesis)) /\
  getOrder 1 (processOrderExpiries 150 (afterTx dated genesis)) = None.
Proof.
  split; [vm_compute; eauto|].
  destruct (expiries_settle 150 (afterTx dated genesis) dated_Market) as [Hi _].
  rewrite (Hi 1). vm_compute. reflexivity.
Defined.

Section conditions.
Context `{Crypto}.

Lemma ordersToCancel_spec h st i :
  i ∈ ordersToCancel h st <-> exists o, o ∈ allOrders st /\ Order.id o = i /\
    isActive o || (0 <? Order.condition_count o)%nat = true /\ conditionsAllHold o h st = false.
Proof.
  unfold ordersToCancel. rewrite list_elem_of_omap. split.
  - intros (o & Ho & E). exists o. destruct (isActive o || _) eqn:E1; [|done].
    destruct (conditionsAllHold o h st); [done|]. by injection E as ->.
  - intros (o & Ho & Hi & H1 & H2). exists o. split; [done|]. by rewrite H1, H2, Hi.
Qed.

Lemma allOrders_spec st o : Market st -> o ∈ allOrders st <-> getOrder (Order.id o) st = Some o.
Proof.
  intros HM. unfold allOrders. rewrite list_elem_of_omap. split.
  - intros (i & _ & Hg). by destruct (stored_order _ _ _ HM Hg) as (_ & _ & ->).
  - intros Hg. exists (Order.id o). split; [|done]. unfold scan_ids. rewrite merge_sort_Permutation.
    apply elem_of_elements, elem_of_dom. apply getOrder_lookup in Hg. by eexists.
Qed.

(** Routing touches the routed order only. *)
Lemma routeOrder_orders h acc i j :
  Market (snd acc) -> i <> j ->
  orders (snd (routeOrder h acc j)) !! i = orders (snd acc) !! i.
Proof.
  destruct acc as [fs st]. cbn [snd]. intros HM Hne. unfold routeOrder.
  destruct (getOrder j st) as [o|] eqn:Hg; [|done].
  destruct (stored_order _ _ _ HM Hg) as (Ho & Hf & Hid).
  assert (Hr : orders (snd (executeActiveOrder o h (u32 j) fs st)) !! i = orders st !! i).
  { unfold executeActiveOrder. destruct (routeQuote o st); [done|]. unfold applyRoute. cbn [snd].
    case_match; cbn.
    - rewrite lookup_delete_ne by congruence. by rewrite orders_addTokens.
    - rewrite lookup_insert_ne by congruence. by rewrite orders_addTokens. }
  assert (HM' : Market (snd (executeActiveOrder o h (u32 j) fs st))).
  { apply (bounded_executeActiveOrder st); [by apply bounded_refl|by rewrite Hid]. }
  destruct (executeActiveOrder o h (u32 j) fs st) as [[[[] o'] fs'] st1]; cbn [snd] in *; try done.
  unfold cancelOrderByCondition. destruct (getOrder j st1) as [o1|] eqn:Hg1; [|done].
  rewrite (orders_refund j) by done. by rewrite lookup_delete_ne.
Qed.

Lemma routeOrders_orders h l acc i :
  Market (snd acc) -> i ∉ l ->
  orders (snd (foldl (routeOrder h) acc l)) !! i = orders (snd acc) !! i.
Proof.
  revert acc. induction l as [|j l IH]; intros acc HM Hi; [done|]. cbn [foldl].
  assert (Hj : orders (snd (routeOrder h acc j)) !! i = orders (snd acc) !! i).
  { apply routeOrder_orders; [done|set_solver]. }
  rewrite IH; [done| |set_solver].
  apply (bounded_routeOrder (snd acc)). by apply bounded_refl.
Qed.

Lemma ordersToRoute_spec h st i : i ∈ ordersToRoute h st ->
  exists o, o ∈ allOrders st /\ Order.id o = i /\ isActive o = true /\ conditionsAllHold o h st = true.
Proof.
  unfold ordersToRoute. rewrite list_elem_of_omap. intros (o & Ho & E). exists o.
  destruct (isActive o) eqn:Ea; [|done]. destruct (conditionsAllHold o h st) eqn:Ec; [|done].
  by injection E as ->.
Qed.
End conditions.

(** Conditions.  At an epoch boundary every order that is active or
    carries conditions, and whose conditions do not all hold, is removed; a
    passive order whose conditions hold is left as it is; no token's total
    grows and the market tables stay sound. *)
Theorem conditions_enforced `{Crypto} (h : N) (fs : list Fill.t) (st : State) :
  Market st ->
  let st' := snd (evaluateOrderConditions h fs st) in
  (forall o, getOrder (Order.id o) st = Some o ->
     isActive o || (0 <? Order.condition_count o)%nat = true ->
     conditionsAllHold o h st = false -> getOrder (Order.id o) st' = None) /\
  (forall o, getOrder (Order.id o) st = Some o -> isActive o = false ->
     conditionsAllHold o h st = true -> getOrder (Order.id o) st' = Some o) /\
  Market st' /\ forall t, value t st' <= value t st.
Proof.
  intros HM st'. destruct (bounded_evaluateOrderConditions h fs st HM) as [HM' Hv].
  assert (HB : bounded_by st (foldl (fun s i => cancelOrderByCondition i s) st (ordersToCancel h st))).
  { apply bounded_foldl; [|by apply bounded_refl]. intros. by apply bounded_cancelOrderByCondition. }
  pose proof (fun i => getOrder_foldl (fun s i => cancelOrderByCondition i s) (ordersToCancel h st) st i
    (fun st0 s j Hb => bounded_cancelOrderByCondition st0 s j Hb)
    (fun s j HMs => getOrder_cancel i j s HMs) HM) as Hcancel.
  assert (Hroute : forall o, getOrder (Order.id o) st = Some o ->
    isActive o && conditionsAllHold o h st = false ->
    getOrder (Order.id o) st' = if bool_decide (Order.id o ∈ ordersToCancel h st) then None else Some o).
  { intros o Hg Hn. rewrite <-Hg, <-Hcancel. unfold getOrder at 1 2. unfold st', evaluateOrderConditions.
    rewrite routeOrders_orders; [done|apply HB|].
    intros (o' & Ho' & Hid & Ha & Hc)%ordersToRoute_spec. apply allOrders_spec in Ho'; [|done].
    rewrite Hid, Hg in Ho'. injection Ho' as <-. by rewrite Ha, Hc in Hn. }
  split_and!; [| |done|done]; intros o Hg H1 H2.
  - rewrite Hroute by (done || by rewrite H2, andb_false_r).
    rewrite bool_decide_eq_true_2; [done|]. apply ordersToCancel_spec. exists o.
    split_and!; try done. by apply allOrders_spec.
  - rewrite Hroute by (done || by rewrite H1). rewrite bool_decide_eq_false_2; [done|].
    intros (o' & Ho' & Hid & _ & Hc)%ordersToCancel_spec. apply allOrders_spec in Ho'; [|done].
    rewrite Hid, Hg in Ho'. injection Ho' as <-. by rewrite H2 in Hc.
Qed.

(** Alice's offer, to be cancelled when her balance is below 10^9. *)
Definition conditional : Transaction.t :=
  mkTx TxType.CreateOrder 0 alice 0 NATIVE_TOKEN_ID 1000
    (le_split 4 gold ++ le_split 8 2000 ++ [0] ++ le_split 4 0 ++ le_split 8 0 ++ [1] ++
     OrderCodec.serializeCondition (OrderCondition.mk OrderConditionType.BalanceBelow 1000000000 0)).

Lemma conditional_Market : Market (afterTx conditional genesis).
Proof.
  destruct (executeBody_ok conditional genesis) as [fs E]; [vm_compute; reflexivity|].
  eapply Market_executeBody; [apply toy_CollisionFree|apply genesis_Market| | |exact E].
  - split; vm_compute; reflexivity.
  - reflexivity.
Qed.

Lemma conditions_enforced_witness :
  getOrder 1 (afterTx conditional genesis) = Some (buildOrder conditional ctx0 1) /\
  getOrder 1 (snd (evaluateOrderConditions 160 [] (afterTx conditional genesis))) = None.
Proof.
  split; [vm_compute; reflexivity|].
  destruct (conditions_enforced 160 [] (afterTx conditional genesis) conditional_Market) as [Hc _].
  exact (Hc (buildOrder conditional ctx0 1) ltac:(vm_compute; reflexivity) ltac:(vm_compute; reflexivity)
    ltac:(vm_compute; reflexivity)).
Defined.

(** ** Liquidity *)


Lemma genesis_LpState : LpState genesis.
Proof.
  assert (Hl : liq genesis = ∅) by (vm_compute; reflexivity).
  assert (Hp : positions genesis = ∅) by (vm_compute; reflexivity).
  assert (Hx : position_index genesis = ∅) by (vm_compute; reflexivity).
  split; rewrite ?Hl, ?Hp, ?Hx; done.
Qed.


(** ** Swaps, routed orders and withdrawals *)

Lemma tradeReserves_sides k x out h v p k' ri ro :
  swapSides p k = Some (k', ri, ro) -> AmmPool.token_a p <> AmmPool.token_b p ->
  ri + x < w64 -> out <= ro -> ro < w64 ->
  swapSides (tradeReserves k x out (recordVolume h v p)) k = Some (k', ri + x, ro - out).
Proof.
  intros Hs Hne Hx Ho Hr. rewrite tradeReserves_recordVolume. revert Hs.
  assert (Hv : forall q, swapSides (recordVolume h v q) k = swapSides q k)
    by (intros q; unfold recordVolume; by repeat case_match).
  rewrite Hv. unfold swapSides, tradeReserves.
  destruct (N.eqb_spec k (AmmPool.token_a p)) as [->|Hka].
  - intros [= <- <- <-]. cbn. rewrite N.eqb_refl, add64_id, sub64_id by done. done.
  - destruct (N.eqb_spec k (AmmPool.token_b p)) as [->|]; [|done]. intros [= <- <- <-]. cbn.
    rewrite (proj2 (N.eqb_neq _ _) Hka), N.eqb_refl, add64_id, sub64_id by done. done.
Qed.

(** What a swap does, given the stores before and after. *)
Definition trades (tx : Transaction.t) (st st' : State) : Prop :=
  exists pool pool' token_out reserve_in reserve_out out,
    getAmmPool (readU64At (Transaction.payload tx) 0) st = Some pool /\
    AmmPool.active pool = true /\
    swapSides pool (Transaction.token_id tx) = Some (token_out, reserve_in, reserve_out) /\
    readU64At (Transaction.payload tx) 8 <= out <= reserve_out /\
    swapSides pool' (Transaction.token_id tx) =
      Some (token_out, reserve_in + Transaction.amount tx, reserve_out - out) /\
    reserve_in * reserve_out <= (reserve_in + Transaction.amount tx) * (reserve_out - out) /\
    st' = putAmmPool pool' (addTokens (Transaction.to tx) token_out out
            (subTokens (Transaction.from tx) (Transaction.token_id tx) (Transaction.amount tx) st)).

(** Swaps.  While the input token's total fits 64 bits, a successful swap
    takes the sender's input, credits the recipient at least the requested
    minimum and at most the reserve, moves exactly these amounts through the
    pool, and does not lower the product of the reserves. *)
Theorem swap_exact (tx : Transaction.t) (ctx : Ctx.t) (st st' : State) (fs : list Fill.t) :
  WellTyped st -> value (u32 (Transaction.token_id tx)) st < w64 ->
  executeSwap tx ctx st = (Ok fs, st') -> trades tx st st'.
Proof.
  intros Hwt Hfit E.
  cut (wp (executeSwap tx ctx) (fun o s => o = Ok fs -> trades tx st s) st).
  { unfold wp. rewrite E. intros HP. exact (HP eq_refl). }
  unfold executeSwap. wp_run; try done. intros _.
  match goal with
  | Hp : getAmmPool _ st = Some ?p, Hs : swapSides ?p _ = Some (?o, ?ri, ?ro), Hm : (_ <=? u64 ?q) = true |- _ =>
    destruct (swap_amount tx st Hwt Hfit _ _ _ _ _ Hp Hs ltac:(done)) as (Hin & Hro & Hq & Hprod);
    pose proof (pool_valid_tokens _ (getAmmPool_valid _ _ _ Hp)) as Hlt;
    exists p, (tradeReserves (Transaction.token_id tx) (Transaction.amount tx) (u64 q)
      (recordVolume (Ctx.current_height ctx) (clrtyVolume p (Transaction.token_id tx)
      (Transaction.amount tx)) p)), o, ri, ro, (u64 q); apply N.leb_le in Hm;
    rewrite (u64_id q) in * by lia
  end.
  split_and!; try done; try lia. by apply tradeReserves_sides; [|lia| | |].
Qed.

Lemma pooled_Market : Market pooled.
Proof.
  destruct (executeBody_ok openPool genesis) as [f E]; [vm_compute; reflexivity|].
  eapply Market_executeBody; [apply toy_CollisionFree|apply genesis_Market| | |exact E].
  - split; vm_compute; reflexivity.
  - reflexivity.
Qed.

Lemma pooled_pool : getAmmPool 1 pooled = Some (parsePool openPool ctx0 1).
Proof. vm_compute. reflexivity. Qed.

Lemma swap_exact_witness :
  exists out, out <= 2000000 /\ 1000000 * 2000000 <= 1010000 * (2000000 - out).
Proof.
  destruct (executeSwap swapTx ctx0 pooled) as [o st'] eqn:E.
  assert (Ho : fst (executeSwap swapTx ctx0 pooled) = Ok []) by (vm_compute; reflexivity).
  rewrite E in Ho. cbn in Ho. subst o.
  destruct (swap_exact swapTx ctx0 pooled st' [] (proj1 pooled_Market) ltac:(vm_compute; reflexivity) E)
    as (pool & pool' & k & ri & ro & out & Hp & _ & Hs & [_ Ho] & _ & Hprod & _).
  change (getAmmPool 1 pooled = Some pool) in Hp. rewrite pooled_pool in Hp. injection Hp as <-.
  vm_compute in Hs. injection Hs as <- <- <-. exists out. split; [exact Ho|exact Hprod].
Defined.











Lemma prorata_share x r L : 0 < L -> x <= L ->
  x * r / L <= r /\ r * (L - x) <= (r - x * r / L) * L.
Proof.
  intros HL Hx. destruct (div_bracket (x * r) L ltac:(lia)) as [H1 _].
  assert (H2 : x * r / L <= r) by (rewrite N.mul_comm; by apply mul_div_le_l).
  split; [done|]. revert H1 H2. generalize (x * r / L). intros a H1 H2. nia.
Qed.

Lemma removalShares_exact p amount Q st :
  0 < amount -> amount <= AmmPool.total_liquidity p -> AmmPool.total_liquidity p < w64 ->
  AmmPool.reserve_a p < w64 -> AmmPool.reserve_b p < w64 ->
  Q (Ok (amount * AmmPool.reserve_a p / AmmPool.total_liquidity p,
         amount * AmmPool.reserve_b p / AmmPool.total_liquidity p)) st ->
  wp (removalShares p amount) Q st.
Proof.
  intros H0 Hle HL Ha Hb HQ. unfold removalShares.
  assert (Hfit : forall r, r < w64 -> u64 (u128 (amount * r) / AmmPool.total_liquidity p) =
    amount * r / AmmPool.total_liquidity p).
  { intros r Hr. rewrite u128_id by (apply mul_lt_w128; lia). apply u64_id.
    apply N.le_lt_trans with r; [|done]. by apply prorata_share; [lia|]. }
  destruct (N.eqb_spec amount (AmmPool.total_liquidity p)) as [He|Hne].
  - apply wp_ret. rewrite <-He in HQ. rewrite !(N.mul_comm amount), !N.div_mul in HQ by lia. exact HQ.
  - apply wp_bind, wp_divide; [|lia]. intros _. cbv beta iota.
    apply wp_bind, wp_divide; [|lia]. intros _. apply wp_ret. by rewrite !Hfit.
Qed.

(** What a withdrawal does, given the stores before and after. *)
Definition withdraws_prorata (tx : Transaction.t) (st st' : State) : Prop :=
  exists pos pool amount a b,
    getAmmPosition (readU64At (Transaction.payload tx) 0) st = Some pos /\
    AmmPosition.owner pos = Transaction.from tx /\
    getAmmPool (AmmPosition.pool_id pos) st = Some pool /\
    0 < amount <= AmmPosition.liquidity pos /\ AmmPosition.liquidity pos <= AmmPool.total_liquidity pool /\
    a = amount * AmmPool.reserve_a pool / AmmPool.total_liquidity pool /\
    b = amount * AmmPool.reserve_b pool / AmmPool.total_liquidity pool /\
    AmmPool.reserve_a pool * (AmmPool.total_liquidity pool - amount) <=
      (AmmPool.reserve_a pool - a) * AmmPool.total_liquidity pool /\
    AmmPool.reserve_b pool * (AmmPool.total_liquidity pool - amount) <=
      (AmmPool.reserve_b pool - b) * AmmPool.total_liquidity pool /\
    positions st' !! AmmPosition.id pos =
      Some (pos <| AmmPosition.liquidity := AmmPosition.liquidity pos - amount |>).

(** Withdrawals.  Removing liquidity pays the owner the pro-rata share of
    each reserve rounded down (the whole reserves on the last withdrawal), so
    the reserves per unit of liquidity left to the other providers do not
    fall; the position shrinks by exactly the amount removed. *)
Theorem removeLiquidity_prorata (tx : Transaction.t) (ctx : Ctx.t) (st st' : State) (fs : list Fill.t) :
  WellTyped st -> LpState st -> executeRemoveLiquidity tx ctx st = (Ok fs, st') ->
  withdraws_prorata tx st st'.
Proof.
  intros Hwt HI E.
  cut (wp (executeRemoveLiquidity tx ctx) (fun o s => o = Ok fs -> withdraws_prorata tx st s) st).
  { unfold wp. rewrite E. intros HP. exact (HP eq_refl). }
  clear E. unfold executeRemoveLiquidity. cbv beta iota zeta.
  repeat (lazymatch goal with |- wp (removalShares _ _) _ _ => fail | _ => wp_step end); try done.
  match goal with
  | Hp : getAmmPosition _ _ = Some ?p, Hl : getAmmPool _ _ = Some ?l |- _ =>
    rename p into pos, l into pool, Hp into Hpos, Hl into Hpool
  end.
  set (amount := if _ =? 0 then _ else _) in *.
  pose proof (position_le_total _ _ _ _ (LpState_LpBacked _ HI) Hpos Hpool) as Hle.
  assert (Ha : amount <= AmmPosition.liquidity pos)
    by (match goal with E : (amount <=? _) = true |- _ => by apply N.leb_le in E end).
  assert (H0 : 0 < amount).
  { unfold amount. destruct (N.eqb_spec (readU64At (Transaction.payload tx) 8) 0); [|lia].
    match goal with E : negb (AmmPosition.liquidity pos =? 0) = true |- _ =>
      apply negb_true_iff, N.eqb_neq in E end. lia. }
  clearbody amount. destruct (wt_pools _ Hwt _ _ (getAmmPool_lookup _ _ _ Hpool)) as [_ _ _ Hra Hrb].
  destruct (liq_of_pool _ _ _ Hwt Hpool) as [_ Hl]. destruct (lp_backed _ HI _ _ Hl) as [_ Hw].
  assert (Hown : AmmPosition.owner pos = Transaction.from tx) by (by apply N.eqb_eq).
  apply removalShares_exact; [lia|lia|done|done|done|]. cbv beta iota.
  set (a := amount * AmmPool.reserve_a pool / _). set (b := amount * AmmPool.reserve_b pool / _).
  assert (Hfin : forall s v, v = AmmPosition.liquidity pos - amount ->
    positions s = <[AmmPosition.id pos := pos <| AmmPosition.liquidity := v |>]> (positions s) ->
    withdraws_prorata tx st s).
  { intros s v -> Hs. exists pos, pool, amount, a, b.
    pose proof (prorata_share amount (AmmPool.reserve_a pool) (AmmPool.total_liquidity pool)
      ltac:(lia) ltac:(lia)) as [_ Hpa].
    pose proof (prorata_share amount (AmmPool.reserve_b pool) (AmmPool.total_liquidity pool)
      ltac:(lia) ltac:(lia)) as [_ Hpb].
    split_and!; [done|done|done|done|lia|lia|done|done|exact Hpa|exact Hpb|].
    by rewrite Hs, lookup_insert_eq. }
  destruct (N.eqb_spec amount (AmmPool.total_liquidity pool)); wp_run; intros _.
  1,2: apply (Hfin _ 0); [lia|cbn; by rewrite insert_insert_eq].
  all: apply (Hfin _ (AmmPosition.liquidity pos -64 amount)); [by apply sub64_id; lia|].
  all: cbn; by rewrite insert_insert_eq.
Qed.

Lemma pooled_LpState : LpState pooled.
Proof.
  destruct (executeBody_ok openPool genesis) as [f E]; [vm_compute; reflexivity|].
  eapply Lp_executeBody_to; [exact E|apply genesis_Market| | | |].
  - split; vm_compute; reflexivity.
  - split; [vm_compute; reflexivity|vm_compute; reflexivity|done].
  - reflexivity.
  - apply genesis_LpState.
Qed.

(** Alice withdraws 100000 of her liquidity. *)
Definition withdrawTx : Transaction.t :=
  mkTx TxType.RemoveLiquidity 1 alice 0 0 0 (le_split 8 1 ++ le_split 8 100000).

Lemma removeLiquidity_prorata_witness :
  exists fs st', executeRemoveLiquidity withdrawTx ctx0 pooled = (Ok fs, st') /\
    withdraws_prorata withdrawTx pooled st'.
Proof.
  destruct (executeRemoveLiquidity withdrawTx ctx0 pooled) as [o st'] eqn:E.
  assert (Ho : fst (executeRemoveLiquidity withdrawTx ctx0 pooled) = Ok []) by (vm_compute; reflexivity).
  rewrite E in Ho. cbn in Ho. subst o. exists [], st'. split; [reflexivity|].
  exact (removeLiquidity_prorata withdrawTx ctx0 pooled st' [] (proj1 pooled_Market) pooled_LpState E).
Defined.
