(* ===== verification/StateTheorems.v ===== *)
(** * Theorems: accounts, tokens, validators and NFTs

    The functional behaviour of single handlers on success: key rotation,
    slashing, transfers, minting, unregistration, cancellation, NFT transfer. *)

From S2P Require Import Prelude Types OrderBook StateAccess Ledger Amm Codec Matching.
From S2P Require Import BlockOrders ExecBase ExecAccounts ExecAmm ExecOrders ExecNft Executor.
From S2P Require Import Invariants ExecValue MatchValue Market Conservation Samples.

(** ** Consensus keys *)

(** A history read in order: ranges [from, until) one after the other, the last
    one open. *)
Fixpoint contiguous (start : N) (history : list KeyRotation.t) : Prop :=
  match history with
  | [] => False
  | [e] => KeyRotation.valid_from_height e = start /\ KeyRotation.valid_until_height e = 0
  | e :: rest => KeyRotation.valid_from_height e = start /\
      start <= KeyRotation.valid_until_height e /\ KeyRotation.valid_until_height e <> 0 /\
      contiguous (KeyRotation.valid_until_height e) rest
  end.

(** The height the last key of a history starts at. *)
Fixpoint lastFrom (history : list KeyRotation.t) : N :=
  match history with
  | [] => 0
  | [e] => KeyRotation.valid_from_height e
  | _ :: rest => lastFrom rest
  end.

Definition rotated (height : N) (new_key : PublicKey) (history : list KeyRotation.t)
    : list KeyRotation.t := sealLast height history ++ [KeyRotation.mk new_key height 0].

Lemma contiguous_rotated start height key history :
  contiguous start history -> lastFrom history <= height -> 0 < height ->
  contiguous start (rotated height key history).
Proof.
  unfold rotated. revert start. induction history as [|e rest IH]; intros start Hc Hl Hh; [done|].
  destruct rest as [|e' rest].
  - destruct Hc as [H1 H2]. cbn in *. subst. split_and!; done || lia.
  - destruct Hc as (H1 & H2 & H3 & Hc). specialize (IH _ Hc Hl Hh).
    change (sealLast height (e :: e' :: rest)) with (e :: sealLast height (e' :: rest)).
    cbn [app]. destruct (sealLast height (e' :: rest) ++ [KeyRotation.mk key height 0]) eqn:E; [done|].
    cbn [contiguous]. done.
Qed.

Lemma keyAtHeight_before start height key history h :
  contiguous start history -> lastFrom history <= height -> 0 < height -> h < height ->
  keyAtHeight (rotated height key history) h = keyAtHeight history h.
Proof.
  unfold rotated. revert start. induction history as [|e rest IH]; intros start Hc Hl Hh Hlt; [done|].
  destruct rest as [|e' rest].
  - destruct Hc as [H1 H2]. cbn in *. rewrite H2.
    destruct (N.ltb_spec h (KeyRotation.valid_from_height e)).
    + by rewrite (proj2 (N.ltb_lt _ _) Hlt).
    + destruct (N.leb_spec height h); [lia|]. by rewrite andb_false_r.
  - destruct Hc as (H1 & H2 & H3 & Hc). specialize (IH _ Hc Hl Hh Hlt).
    change (sealLast height (e :: e' :: rest)) with (e :: sealLast height (e' :: rest)).
    cbn [app keyAtHeight]. rewrite IH. done.
Qed.

Lemma keyAtHeight_after start height key history h :
  contiguous start history -> lastFrom history <= height -> 0 < height -> height <= h ->
  keyAtHeight (rotated height key history) h = Some key.
Proof.
  unfold rotated. revert start. induction history as [|e rest IH]; intros start Hc Hl Hh Hle; [done|].
  destruct rest as [|e' rest].
  - destruct Hc as [H1 H2]. cbn in *.
    destruct (N.ltb_spec h (KeyRotation.valid_from_height e)); [lia|].
    rewrite (proj2 (N.leb_le _ _) Hle), (proj2 (N.eqb_neq height 0)) by lia. cbn.
    destruct (N.ltb_spec h height); [lia|done].
  - destruct Hc as (H1 & H2 & H3 & Hc). specialize (IH _ Hc Hl Hh Hle).
    change (sealLast height (e :: e' :: rest)) with (e :: sealLast height (e' :: rest)).
    cbn [app keyAtHeight]. rewrite IH.
    assert (Hu : KeyRotation.valid_until_height e <= lastFrom (e' :: rest)).
    { clear -Hc. revert Hc. generalize (KeyRotation.valid_until_height e). revert e'.
      induction rest as [|e'' rest IH]; intros e' u Hc; [by destruct Hc as [<- _]|].
      destruct Hc as (_ & H2 & _ & Hc). specialize (IH _ _ Hc). cbn in *. lia. }
    change (lastFrom (e' :: rest) <= height) in Hl.
    destruct (N.ltb_spec h (KeyRotation.valid_from_height e)); [done|].
    rewrite (proj2 (N.eqb_neq _ _) H3), (proj2 (N.leb_le _ h)) by lia. done.
Qed.

Lemma getValidatorKeyHistory_put v history st :
  history <> [] -> (length history <= MAX_KEY_ROTATIONS)%nat ->
  getValidatorKeyHistory v (putValidatorKeyHistory v history st) = Some history.
Proof.
  intros Hne Hl. unfold getValidatorKeyHistory, putValidatorKeyHistory. destruct history; [done|].
  cbn [key_histories update]. rewrite lookup_insert_eq. cbn [mbind option_bind].
  by rewrite (proj2 (Nat.ltb_ge _ _) Hl).
Qed.

(** A lookup by height reads the history in order. *)
Lemma validatorKeyAtHeight_history v h history st :
  getValidatorKeyHistory v st = Some history -> validatorKeyAtHeight v h st = keyAtHeight history h.
Proof.
  intros Hg. unfold validatorKeyAtHeight. rewrite Hg. destruct history as [|e [|e' rest]]; [done| |done].
  destruct (N.eqb_spec (KeyRotation.valid_until_height e) 0) as [Hu|]; [|done]. cbn.
  destruct (N.leb_spec (KeyRotation.valid_from_height e) h).
  - cbn. destruct (N.ltb_spec h (KeyRotation.valid_from_height e)); [lia|]. by rewrite Hu.
  - cbn. destruct (N.ltb_spec h (KeyRotation.valid_from_height e)); [done|lia].
Qed.

Lemma length_rotated height key history :
  history <> [] -> length (rotated height key history) = S (length history).
Proof.
  intros Hne. unfold rotated. rewrite length_app. cbn. assert (Hs : length (sealLast height history) = length history).
  { clear Hne. induction history as [|e [|e' rest] IH]; [done|done|]. cbn in *. by rewrite IH. }
  lia.
Qed.

(** Key rotation.  A successful rotation at height [h] leaves the key of
    every earlier height as it was, makes the new key the one of height [h] and
    every later height, and keeps the history a contiguous sequence of ranges.
    (The history must have room for one more entry.) *)
Theorem rotation_keeps_history (tx : Transaction.t) (ctx : Ctx.t) (st st' : State) (fs : list Fill.t)
    (vid start : N) (history : list KeyRotation.t) :
  getValidatorByAddress (Transaction.from tx) st = Some vid ->
  getValidatorKeyHistory vid st = Some history -> contiguous start history ->
  (length history < MAX_KEY_ROTATIONS)%nat ->
  lastFrom history <= Ctx.current_height ctx -> 0 < Ctx.current_height ctx ->
  executeRotateConsensusKey tx ctx st = (Ok fs, st') ->
  let new_key := readHashAt (Transaction.payload tx) 0 in
  (forall h, h < Ctx.current_height ctx ->
     validatorKeyAtHeight vid h st' = validatorKeyAtHeight vid h st) /\
  (forall h, Ctx.current_height ctx <= h -> validatorKeyAtHeight vid h st' = Some new_key) /\
  exists history', getValidatorKeyHistory vid st' = Some history' /\ contiguous start history'.
Proof.
  intros Hv Hg Hc Hl Hlast Hpos E new_key.
  assert (Hne : history <> []) by (by intros ->).
  assert (Hst : getValidatorKeyHistory vid st' = Some (rotated (Ctx.current_height ctx) new_key history)).
  { cut (wp (executeRotateConsensusKey tx ctx) (fun o s => o = Ok fs -> getValidatorKeyHistory vid s =
      Some (rotated (Ctx.current_height ctx) new_key history)) st).
    { unfold wp. rewrite E. intros HP. exact (HP eq_refl). }
    unfold executeRotateConsensusKey. wp_run; try done. intros _.
    assert (a = vid) as -> by congruence.
    unfold loadOrSynthesizeHistory. rewrite Hg. destruct history as [|e rest] eqn:Eh; [done|].
    rewrite <-Eh in *. change (getValidatorKeyHistory vid (putValidator ?v ?s)) with (getValidatorKeyHistory vid s).
    apply getValidatorKeyHistory_put; [by intros [_ ?]%app_nil|].
    change (length (rotated (Ctx.current_height ctx) new_key history) <= MAX_KEY_ROTATIONS)%nat.
    rewrite length_rotated by done. lia. }
  split_and!.
  - intros h Hh. rewrite !(validatorKeyAtHeight_history vid h _ _) by done.
    by eapply keyAtHeight_before.
  - intros h Hh. rewrite (validatorKeyAtHeight_history vid h _ _ Hst). by eapply keyAtHeight_after.
  - eexists. split; [exact Hst|]. by apply contiguous_rotated.
Qed.

(** Alice registers as a validator at height 100 and rotates her key at 120. *)
Definition registerTx : Transaction.t :=
  mkTx TxType.RegisterValidator 0 alice 0 0 0 (be_split 32 77).
Definition registered : State := afterTx registerTx genesis.
Definition rotateTx : Transaction.t := mkTx TxType.RotateConsensusKey 1 alice 0 0 0 (be_split 32 78).
Definition ctx120 : Ctx.t := Ctx.mk 120 1 0.

Lemma rotation_keeps_history_witness :
  exists st', validatorKeyAtHeight 1 119 st' = Some 77 /\ validatorKeyAtHeight 1 120 st' = Some 78.
Proof.
  destruct (executeRotateConsensusKey rotateTx ctx120 registered) as [o st'] eqn:E.
  assert (Ho : fst (executeRotateConsensusKey rotateTx ctx120 registered) = Ok []) by (vm_compute; reflexivity).
  rewrite E in Ho. cbn in Ho. subst o. exists st'.
  assert (Hv : getValidatorByAddress alice registered = Some 1) by (vm_compute; reflexivity).
  assert (Hh : getValidatorKeyHistory 1 registered = Some [KeyRotation.mk 77 100 0])
    by (vm_compute; reflexivity).
  destruct (rotation_keeps_history rotateTx ctx120 registered st' [] 1 100 [KeyRotation.mk 77 100 0]
    Hv Hh ltac:(split; reflexivity) ltac:(vm_compute; lia) ltac:(vm_compute; discriminate)
    ltac:(reflexivity) E) as (Hb & Ha & _).
  split.
  - rewrite (Hb 119) by reflexivity. vm_compute. reflexivity.
  - rewrite (Ha 120) by (vm_compute; discriminate). vm_compute. reflexivity.
Defined.

(** ** Slashing *)

Lemma applyBps_exact value bps :
  value < w64 -> bps <= 10000 -> applyBps value bps = value * bps / 10000.
Proof.
  intros Hv Hb. unfold applyBps. rewrite u128_id by (apply mul_lt_w128; lia).
  apply u64_id. apply N.le_lt_trans with value; [|done]. by apply mul_div_le_l.
Qed.

(** Slashing.  A slash of a validator that is not a seed takes one
    twentieth of its stake rounded down, puts the same amount into the pot,
    and lowers its reward multiplier by the penalty, never below the floor;
    the record stays under its id. *)
Theorem slash_bounds (vid h : N) (st : State) (v : ValidatorInfo.t) :
  getValidator vid st = Some v -> ValidatorInfo.id v = vid -> ValidatorInfo.is_seed v = false ->
  ValidatorInfo.stake v < w64 ->
  REWARD_MULTIPLIER_FLOOR <= ValidatorInfo.reward_multiplier v <= REWARD_MULTIPLIER_START ->
  let slashed := ValidatorInfo.stake v * SLASH_AMOUNT_BPS / 10000 in
  exists v', getValidator vid (executeSystemSlash vid h st) = Some v' /\
    ValidatorInfo.stake v' = ValidatorInfo.stake v - slashed /\
    19 * ValidatorInfo.stake v <= 20 * ValidatorInfo.stake v' /\
    ValidatorInfo.reward_multiplier v' =
      N.max REWARD_MULTIPLIER_FLOOR (ValidatorInfo.reward_multiplier v - REWARD_MULTIPLIER_PENALTY) /\
    ValidatorInfo.last_infraction_height v' = h /\
    getGlobalU64 "pot" (executeSystemSlash vid h st) =
      (if 0 <? slashed then getGlobalU64 "pot" st +64 slashed else getGlobalU64 "pot" st).
Proof.
  intros Hg Hid Hseed Hst [Hm1 Hm2] slashed. unfold executeSystemSlash. rewrite Hg, Hseed, andb_false_r.
  unfold slashAmount. rewrite applyBps_exact by done. fold slashed.
  assert (Hle : slashed <= ValidatorInfo.stake v) by (by apply mul_div_le_l).
  assert (H20 : 20 * slashed <= ValidatorInfo.stake v).
  { destruct (div_bracket (ValidatorInfo.stake v * SLASH_AMOUNT_BPS) 10000 ltac:(done)) as [Hb _].
    fold slashed in Hb. unfold SLASH_AMOUNT_BPS in Hb. lia. }
  clearbody slashed. rewrite (proj2 (N.leb_le _ _) Hle). cbn zeta.
  set (v' := ValidatorInfo.applyInfractionPenalty _ _).
  assert (Hid' : ValidatorInfo.id v' = vid) by done. exists v'. split.
  { assert (Hget : forall s, validators s = <[ValidatorInfo.id v' := v']> (validators st) ->
      getValidator vid s = Some v').
    { intros s Hs. unfold getValidator. by rewrite Hs, Hid', lookup_insert_eq. }
    destruct (0 <? slashed); by apply Hget. }
  unfold REWARD_MULTIPLIER_FLOOR, REWARD_MULTIPLIER_START, REWARD_MULTIPLIER_PENALTY in *.
  assert (Hs : ValidatorInfo.stake v' = ValidatorInfo.stake v - slashed) by (by apply sub64_id).
  assert (Hm : ValidatorInfo.reward_multiplier v' = N.max 2000 (ValidatorInfo.reward_multiplier v - 2000)).
  { unfold v', ValidatorInfo.applyInfractionPenalty. cbn -[u16 u32].
    unfold REWARD_MULTIPLIER_FLOOR, REWARD_MULTIPLIER_PENALTY.
    assert (Hu : u32 (ValidatorInfo.reward_multiplier v + w32 - 2000) =
      ValidatorInfo.reward_multiplier v - 2000).
    { unfold u32. replace (ValidatorInfo.reward_multiplier v + w32 - 2000)
        with (ValidatorInfo.reward_multiplier v - 2000 + 1 * w32) by lia.
      rewrite N.Div0.mod_add. apply N.mod_small. lia. }
    rewrite Hu. destruct (N.ltb_spec (ValidatorInfo.reward_multiplier v - 2000) 2000);
      unfold u16; rewrite N.mod_small; lia. }
  split_and!; [done|lia|done|done|]. destruct (0 <? slashed); [|done].
  rewrite getGlobalU64_put by auto with words. done.
Qed.

Lemma slash_bounds_witness :
  exists v', getValidator 1 (executeSystemSlash 1 150 registered) = Some v' /\
    ValidatorInfo.reward_multiplier v' = 8000.
Proof.
  destruct (getValidator 1 registered) as [v|] eqn:Hv.
  2: { vm_compute in Hv. discriminate. }
  assert (Hf : (fun v => (ValidatorInfo.id v, ValidatorInfo.is_seed v, ValidatorInfo.stake v,
    ValidatorInfo.reward_multiplier v)) <$> getValidator 1 registered = Some (1, false, 79999990, 10000))
    by (vm_compute; reflexivity).
  rewrite Hv in Hf. cbn in Hf. injection Hf as H1 H2 H3 H4.
  destruct (slash_bounds 1 150 registered v Hv H1 H2 ltac:(rewrite H3; reflexivity)
    ltac:(rewrite H4; vm_compute; split; discriminate)) as (v' & Hg & _ & _ & Hm & _).
  exists v'. split; [exact Hg|]. rewrite Hm, H4. vm_compute. reflexivity.
Defined.

(** ** Moving holdings *)

(** Two different holders of one token hold at most its total. *)
Lemma holding2_le_value a b k st :
  k < w32 -> a <> b -> holding a k st + holding b k st <= value k st.
Proof.
  intros Hk Hne. unfold holding, value, account_value, token_value.
  destruct (N.eqb_spec k NATIVE_TOKEN_ID) as [->|Hkn].
  - rewrite at_token_same. unfold getAccount.
    pose proof (msum_delete (fun _ x => worth x) (accounts st) a) as H1.
    pose proof (msum_lookup_default (fun _ x => worth x) (delete a (accounts st)) b) as H2.
    rewrite lookup_delete_ne in H2 by done. unfold worth in *.
    destruct (accounts st !! a), (accounts st !! b); cbn in *; lia.
  - set (f := fun (key : Address * N) (x : N) => at_token k (snd key) x).
    pose proof (msum_delete f (token_balances st) (a, k)) as H1.
    pose proof (msum_lookup_default f (delete (a, k) (token_balances st)) (b, k)) as H2.
    rewrite lookup_delete_ne in H2 by congruence. unfold getTokenBalance. rewrite !u32_id by done.
    assert (Hf : forall x y, f (x, k) y = y) by (intros; unfold f; apply at_token_same).
    assert (Ho : forall x, default 0 (token_balances st !! (x, k)) =
      from_option (f (x, k)) 0 (token_balances st !! (x, k))).
    { intros x. destruct (token_balances st !! (x, k)); cbn; [by rewrite Hf|done]. }
    rewrite !Ho. lia.
Qed.

(** A debit followed by a credit, as writes of holdings. *)
Lemma holding_move from to t x st s1 s2 a k :
  t < w32 -> k < w32 -> value t st < w64 -> x <= holding from t st ->
  (forall a k, k < w32 -> holding a k s1 =
     if (a =? from) && (k =? t) then holding from t st -64 x else holding a k st) ->
  (forall a k, k < w32 -> holding a k s2 =
     if (a =? to) && (k =? t) then holding to t s1 +64 x else holding a k s1) ->
  holding a k s2 = holding a k st + (if (a =? to) && (k =? t) then x else 0) -
    (if (a =? from) && (k =? t) then x else 0).
Proof.
  intros Ht Hk Hfit Hx H1 H2.
  pose proof (holding_le_value from t st Ht) as Hf. pose proof (holding_le_value to t st Ht) as Hto.
  rewrite H2, !H1 by done. rewrite N.eqb_refl, andb_true_r. rewrite (sub64_id _ _ Hx) by lia.
  destruct (N.eqb_spec k t) as [->|]; rewrite ?andb_true_r, ?andb_false_r; [|lia].
  destruct (N.eqb_spec a to) as [->|], (N.eqb_spec to from) as [->|Hne]; cbn.
  - rewrite add64_id by lia. lia.
  - pose proof (holding2_le_value from to t st Ht ltac:(congruence)).
    rewrite add64_id by lia. lia.
  - destruct (N.eqb_spec a from); [done|]. lia.
  - destruct (N.eqb_spec a from) as [->|]; lia.
Qed.

(** Transfers.  While the token's total fits 64 bits, a successful
    transfer moves exactly its amount of its token from the sender to the
    receiver and changes no other holding. *)
Theorem transfer_exact (tx : Transaction.t) (ctx : Ctx.t) (st st' : State) (fs : list Fill.t)
    (a : Address) (k : N) :
  Transaction.token_id tx < w32 -> k < w32 -> value (Transaction.token_id tx) st < w64 ->
  executeTransfer tx ctx st = (Ok fs, st') ->
  Transaction.amount tx <= holding (Transaction.from tx) (Transaction.token_id tx) st /\
  holding a k st' =
    holding a k st +
    (if (a =? Transaction.to tx) && (k =? Transaction.token_id tx) then Transaction.amount tx else 0) -
    (if (a =? Transaction.from tx) && (k =? Transaction.token_id tx) then Transaction.amount tx else 0).
Proof.
  intros Ht Hk Hfit E. set (t := Transaction.token_id tx) in *. set (x := Transaction.amount tx).
  set (from := Transaction.from tx). set (to := Transaction.to tx).
  cut (wp (executeTransfer tx ctx) (fun o s => o = Ok fs -> x <= holding from t st /\
    holding a k s = holding a k st + (if (a =? to) && (k =? t) then x else 0) -
      (if (a =? from) && (k =? t) then x else 0)) st).
  { unfold wp. rewrite E. intros HP. exact (HP eq_refl). }
  clear E. unfold executeTransfer. fold t x from to. wp_run; try done; intros _.
  - match goal with E : (x <=? _) = true |- _ => apply N.leb_le in E; rename E into Hx end.
    assert (t = NATIVE_TOKEN_ID) as Et by (by apply N.eqb_eq). clearbody t. subst t.
    split; [exact Hx|].
    match goal with |- holding a k (putAccount to _ ?s1) = _ =>
      apply (holding_move from to NATIVE_TOKEN_ID x st s1); [done|done|done|exact Hx| |] end.
    + intros b j Hj. by rewrite holding_putAccount.
    + intros b j Hj. by rewrite holding_putAccount.
  - match goal with E : (x <=? _) = true |- _ => apply N.leb_le in E; rename E into Hx end.
    assert (Hn : t <> NATIVE_TOKEN_ID) by (by apply N.eqb_neq).
    assert (Hh : forall b s, holding b t s = getTokenBalance b t s)
      by (intros b s; unfold holding; by rewrite (proj2 (N.eqb_neq _ _) Hn)).
    split; [by rewrite Hh|]. rewrite <-!Hh in *.
    match goal with |- holding a k (putTokenBalance to _ _ ?s1) = _ =>
      apply (holding_move from to t x st s1); [done|done|done|exact Hx| |] end.
    + intros b j Hj. by rewrite holding_putTokenBalance by auto with words.
    + intros b j Hj. by rewrite holding_putTokenBalance by auto with words.
Qed.

Lemma transfer_exact_witness :
  exists st', holding bob 0 st' = 70500000 /\ holding alice 0 st' = 79500000.
Proof.
  destruct (executeTransfer pay ctx0 genesis) as [o st'] eqn:E.
  assert (Ho : fst (executeTransfer pay ctx0 genesis) = Ok []) by (vm_compute; reflexivity).
  rewrite E in Ho. cbn in Ho. subst o. exists st'. split.
  - destruct (transfer_exact pay ctx0 genesis st' [] bob 0 ltac:(reflexivity) ltac:(reflexivity)
      ltac:(vm_compute; reflexivity) E) as [_ H]. rewrite H. vm_compute. reflexivity.
  - destruct (transfer_exact pay ctx0 genesis st' [] alice 0 ltac:(reflexivity) ltac:(reflexivity)
      ltac:(vm_compute; reflexivity) E) as [_ H]. rewrite H. vm_compute. reflexivity.
Defined.

(** ** Token supply *)

Lemma getTokenSupply_put k k' x st :
  getTokenSupply k (putTokenSupply k' x st) = if u32 k =? u32 k' then u64 x else getTokenSupply k st.
Proof.
  unfold getTokenSupply, putTokenSupply. destruct (N.eqb_spec (u32 k) (u32 k')) as [E|E].
  - rewrite E. destruct (N.eqb_spec x 0) as [->|]; cbn; [by rewrite lookup_delete_eq|by rewrite lookup_insert_eq].
  - destruct (x =? 0); cbn; [by rewrite lookup_delete_ne|by rewrite lookup_insert_ne].
Qed.

(** Minting.  Only the creator mints; the recorded supply and the
    recipient's balance grow by the amount, and while the sum fits 64 bits the
    supply stays within the token's cap. *)
Theorem mint_within_cap (tx : Transaction.t) (ctx : Ctx.t) (st st' : State) (fs : list Fill.t) :
  executeMintToken tx ctx st = (Ok fs, st') ->
  let k := Transaction.token_id tx in
  let supply := getTokenSupply k st + Transaction.amount tx in
  supply < w64 -> getTokenBalance (Transaction.to tx) k st + Transaction.amount tx < w64 ->
  exists token, getToken k st = Some token /\ TokenInfo.creator token = Transaction.from tx /\
    (TokenInfo.maxSupply token = 0 \/ supply <= TokenInfo.maxSupply token) /\
    getTokenSupply k st' = supply /\
    getTokenBalance (Transaction.to tx) k st' =
      getTokenBalance (Transaction.to tx) k st + Transaction.amount tx.
Proof.
  intros E k supply Hs Hb.
  cut (wp (executeMintToken tx ctx) (fun o s => o = Ok fs -> exists token, getToken k st = Some token /\
    TokenInfo.creator token = Transaction.from tx /\
    (TokenInfo.maxSupply token = 0 \/ supply <= TokenInfo.maxSupply token) /\ getTokenSupply k s = supply /\
    getTokenBalance (Transaction.to tx) k s = getTokenBalance (Transaction.to tx) k st + Transaction.amount tx) st).
  { unfold wp. rewrite E. intros HP. exact (HP eq_refl). }
  clear E. unfold executeMintToken. fold k. wp_run; try done. intros _.
  match goal with Hg : getToken k st = Some ?token, Hcap : negb _ = true, Hc : (TokenInfo.creator _ =? _) = true |- _ =>
    exists token; apply N.eqb_eq in Hc end.
  rewrite add64_id in * by done. split_and!; try done.
  - match goal with Hcap : negb ((0 <? TokenInfo.maxSupply _) && _) = true |- _ =>
      apply negb_true_iff, andb_false_iff in Hcap as [Hz%N.ltb_ge|Hle%N.ltb_ge] end; [left; lia|by right].
  - rewrite getTokenSupply_put, N.eqb_refl. by apply u64_id.
  - match goal with |- getTokenBalance _ _ (putTokenSupply ?j ?x ?s) = _ =>
      assert (Hf : getTokenBalance (Transaction.to tx) k (putTokenSupply j x s) =
        getTokenBalance (Transaction.to tx) k s) by (unfold putTokenSupply; by case_match) end.
    rewrite Hf, getTokenBalance_put, bool_decide_eq_true_2 by done.
    by rewrite add64_id, u64_id by done.
Qed.

Definition mintTx : Transaction.t := mkTx TxType.MintToken 0 alice bob gold 1000 [].

Lemma mint_within_cap_witness :
  exists st', getTokenSupply gold st' = 90001000 /\ getTokenBalance bob gold st' = 40001000.
Proof.
  destruct (executeMintToken mintTx ctx0 genesis) as [o st'] eqn:E.
  assert (Ho : fst (executeMintToken mintTx ctx0 genesis) = Ok []) by (vm_compute; reflexivity).
  rewrite E in Ho. cbn in Ho. subst o. exists st'.
  destruct (mint_within_cap mintTx ctx0 genesis st' [] E ltac:(vm_compute; reflexivity)
    ltac:(vm_compute; reflexivity)) as (token & _ & _ & _ & H1 & H2).
  change (Transaction.to mintTx) with bob in H2. change (Transaction.token_id mintTx) with gold in H1, H2.
  split; [rewrite H1|rewrite H2]; vm_compute; reflexivity.
Defined.

(** ** Validators leaving *)

(** The store after a validator has left, at a height. *)
Record unregistered (vid height : N) (v : ValidatorInfo.t) (st st' : State) : Prop := {
  un_allowed : ValidatorInfo.is_seed v = false /\ ValidatorInfo.pending_unbond_height v = 0;
  un_absent : ~ (vid ∈ loadActiveSet st');
  un_others i : i <> vid -> (i ∈ loadActiveSet st') <-> (i ∈ loadActiveSet st);
  un_quorum : loadActiveSet st' = loadActiveSet st \/
    ACTIVE_SET_MIN <= N.of_nat (length (loadActiveSet st'));
  un_record : exists v', getValidator vid st' = Some v' /\ ValidatorInfo.is_active v' = false /\
    ValidatorInfo.stake v' = ValidatorInfo.stake v /\
    ValidatorInfo.pending_unbond_height v' = height +64 UNBONDING_PERIOD;
}.

(** Unregistration.  A successful unregistration removes the validator
    from the active set, which keeps at least [ACTIVE_SET_MIN] members if it
    had to change, and schedules the unbonding exactly one period ahead; a seed
    validator, or one already unbonding, cannot unregister. *)
Theorem unregister_schedules (tx : Transaction.t) (ctx : Ctx.t) (st st' : State) (fs : list Fill.t)
    (vid : N) (v : ValidatorInfo.t) :
  getValidatorByAddress (Transaction.from tx) st = Some vid -> getValidator vid st = Some v ->
  ValidatorInfo.id v = vid -> Forall (fun i => i < w64) (loadActiveSet st) ->
  executeUnregisterValidator tx ctx st = (Ok fs, st') ->
  unregistered vid (Ctx.current_height ctx) v st st'.
Proof.
  intros Hv Hg Hid Hset E.
  cut (wp (executeUnregisterValidator tx ctx) (fun o s => o = Ok fs ->
    unregistered vid (Ctx.current_height ctx) v st s) st).
  { unfold wp. rewrite E. intros HP. exact (HP eq_refl). }
  clear E. unfold executeUnregisterValidator. wp_run; try done; intros _.
  all: assert (a = vid) as -> by congruence; assert (a0 = v) as -> by congruence.
  all: assert (Hseed : ValidatorInfo.is_seed v = false) by (by apply negb_true_iff).
  all: assert (Hp : ValidatorInfo.pending_unbond_height v = 0) by (by apply N.eqb_eq).
  - set (new_set := filter _ _) in *.
    match goal with |- unregistered _ _ _ _ ?s => assert (Hl : loadActiveSet s = new_set) end.
    { change (loadActiveSet (putValidator ?x ?s)) with (loadActiveSet s). apply loadActiveSet_save.
      apply Forall_forall. intros i [_ Hi]%list_elem_of_filter. by eapply Forall_forall in Hset. }
    split; [done|rewrite Hl|rewrite Hl|rewrite Hl|].
    + unfold new_set. rewrite list_elem_of_filter. tauto.
    + intros i Hi. unfold new_set. rewrite list_elem_of_filter. tauto.
    + right. by apply N.leb_le.
    + eexists. split; [unfold getValidator; cbn; rewrite Hid; apply lookup_insert_eq|]. done.
  - split; [done|exact (proj1 (bool_decide_eq_false _) Heqb)|done|by left|].
    eexists. split; [unfold getValidator; cbn; rewrite Hid; apply lookup_insert_eq|]. done.
Qed.

Definition unregisterTx : Transaction.t := mkTx TxType.UnregisterValidator 1 alice 0 0 0 [].

Lemma unregister_schedules_witness :
  exists st' v', getValidator 1 st' = Some v' /\ ValidatorInfo.pending_unbond_height v' = 240.
Proof.
  destruct (executeUnregisterValidator unregisterTx ctx120 registered) as [o st'] eqn:E.
  assert (Ho : fst (executeUnregisterValidator unregisterTx ctx120 registered) = Ok [])
    by (vm_compute; reflexivity).
  rewrite E in Ho. cbn in Ho. subst o. exists st'.
  destruct (getValidator 1 registered) as [v|] eqn:Hv.
  2: { vm_compute in Hv. discriminate. }
  assert (Hid : ValidatorInfo.id <$> getValidator 1 registered = Some 1) by (vm_compute; reflexivity).
  rewrite Hv in Hid. injection Hid as Hid.
  assert (Ha : getValidatorByAddress alice registered = Some 1) by (vm_compute; reflexivity).
  assert (Hs : loadActiveSet registered = []) by (vm_compute; reflexivity).
  destruct (unregister_schedules unregisterTx ctx120 registered st' [] 1 v Ha Hv Hid
    ltac:(rewrite Hs; constructor) E) as [_ _ _ _ (v' & H1 & _ & _ & H2)].
  exists v'. split; [exact H1|exact H2].
Defined.

(** ** Cancelling an order *)

Lemma holding_order_le_value a o st :
  WellTyped st -> orders st !! Order.id o = Some o ->
  holding a (Order.sell_token o) st + (Order.sell_amount o - Order.filled_amount o) <=
  value (Order.sell_token o) st.
Proof.
  intros Hwt Ho. destruct (wt_orders _ Hwt _ _ Ho) as [_ Hs _ _].
  pose proof (msum_lookup_le (fun _ x => order_worth (Order.sell_token o) x) (orders st) _ _ Ho) as Hm.
  cbn in Hm. unfold order_worth at 1 in Hm. rewrite at_token_same in Hm.
  pose proof (holding_le_value a (Order.sell_token o) (st <| orders := ∅ |>) Hs) as Hh.
  change (holding a (Order.sell_token o) (st <| orders := ∅ |>)) with (holding a (Order.sell_token o) st) in Hh.
  unfold value in *. change (order_value ?t (st <| orders := ∅ |>)) with 0 in Hh.
  change (account_value ?t (st <| orders := ∅ |>)) with (account_value t st) in Hh.
  change (token_value ?t (st <| orders := ∅ |>)) with (token_value t st) in Hh.
  change (pool_value ?t (st <| orders := ∅ |>)) with (pool_value t st) in Hh.
  unfold order_value at 1. lia.
Qed.

Lemma holding_deleteRestingOrder `{Crypto} a k o st :
  holding a k (deleteRestingOrder o st) = holding a k st.
Proof.
  assert (H1 : holding a k (removeFromOrderBook o st) = holding a k st)
    by (unfold removeFromOrderBook; by repeat case_match).
  unfold deleteRestingOrder. case_match; [done|].
  change (holding a k (deleteOrder ?i ?s)) with (holding a k s). case_match; [done|].
  rewrite <-H1. unfold removeOrderExpiry. by repeat case_match.
Qed.

(** Cancellation.  Only an order's owner cancels it; the whole remaining
    lock returns to the owner, no other holding changes, and the order leaves
    the store and the book. *)
Theorem cancel_refunds `{Crypto} (tx : Transaction.t) (ctx : Ctx.t) (st st' : State) (fs : list Fill.t) :
  Market st ->
  (forall o, getOrder (readU64At (Transaction.payload tx) 0) st = Some o ->
     value (Order.sell_token o) st < w64) ->
  executeCancelOrder tx ctx st = (Ok fs, st') ->
  exists o, getOrder (readU64At (Transaction.payload tx) 0) st = Some o /\
    Order.owner o = Transaction.from tx /\ getOrder (Order.id o) st' = None /\
    (forall key, idx_book st' !! key <> Some (Order.id o)) /\
    forall a k, k < w32 -> holding a k st' = holding a k st +
      (if (a =? Order.owner o) && (k =? Order.sell_token o)
       then Order.sell_amount o - Order.filled_amount o else 0).
Proof.
  intros HM Hfit E. set (i := readU64At (Transaction.payload tx) 0).
  pose proof (Market_CancelOrder tx ctx st HM) as HM'. rewrite E in HM'. cbn in HM'.
  destruct (getOrder i st) as [o|] eqn:Hg.
  2: { unfold executeCancelOrder, require, fetch, mbind, Exec_bind in E. fold i in E.
       destruct (8 <=? length (Transaction.payload tx))%nat; [|done]. by rewrite Hg in E. }
  destruct (stored_order _ _ _ HM Hg) as (Ho & Hf & Hid).
  destruct (wt_orders _ (proj1 HM) _ _ Ho) as [_ Hs _ Hsa].
  destruct (isValid_filled _ (getOrder_valid _ _ _ Hg)) as (_ & _ & Hnz & _).
  assert (Hst : Order.owner o = Transaction.from tx /\ st' = deleteRestingOrder o
    (if 0 <? Order.remainingAmount o then addTokens (Transaction.from tx) (Order.sell_token o)
       (Order.remainingAmount o) st else st)).
  { unfold executeCancelOrder, require, fetch, mbind, Exec_bind in E. fold i in E.
    destruct (8 <=? length (Transaction.payload tx))%nat; [|done]. rewrite Hg in E.
    destruct (N.eqb_spec (Order.owner o) (Transaction.from tx)); [|done].
    destruct (0 <? Order.remainingAmount o); injection E as _ <-; done. }
  destruct Hst as [Hown Hst].
  assert (Hnone : orders st' !! Order.id o = None).
  { rewrite Hst. unfold deleteRestingOrder. destruct (N.eqb_spec (Order.id o) INVALID_ID); [done|].
    cbn. apply lookup_delete_eq. }
  exists o. split_and!; [done|done|unfold getOrder; by rewrite Hnone| |].
  - intros key Hk. destruct (bk_row _ _ (proj2 HM') _ _ Hk) as (x & _ & _ & Hx & _). congruence.
  - intros a k Hk. rewrite Hst, holding_deleteRestingOrder, (remaining_exact o Hf Hsa), Hown.
    pose proof (holding_order_le_value (Transaction.from tx) o st (proj1 HM) Ho) as Hle.
    specialize (Hfit o Hg).
    destruct (N.ltb_spec 0 (Order.sell_amount o - Order.filled_amount o)) as [Hr|Hr].
    + rewrite holding_addTokens by done.
      destruct (N.eqb_spec a (Transaction.from tx)) as [->|], (N.eqb_spec k (Order.sell_token o)) as [->|];
        cbn; [|lia..]. apply add64_id. lia.
    + destruct (_ && _); lia.
Qed.

Definition cancelTx : Transaction.t := mkTx TxType.CancelOrder 2 alice 0 0 0 (le_split 8 1).

Lemma cancel_refunds_witness :
  exists st', getOrder 1 st' = None /\ holding alice 0 st' = holding alice 0 book + 1000.
Proof.
  destruct (executeCancelOrder cancelTx ctx0 book) as [o st'] eqn:E.
  assert (Ho : fst (executeCancelOrder cancelTx ctx0 book) = Ok []) by (vm_compute; reflexivity).
  rewrite E in Ho. cbn in Ho. subst o. exists st'.
  assert (Hg : getOrder 1 book = Some (buildOrder offer ctx0 1)) by (vm_compute; reflexivity).
  destruct (cancel_refunds cancelTx ctx0 book st' [] book_Market
    ltac:(intros o Ho; change (getOrder 1 book = Some o) in Ho; rewrite Hg in Ho; injection Ho as <-;
          vm_compute; reflexivity) E) as (o & Hgo & _ & Hnone & _ & Hh).
  change (getOrder 1 book = Some o) in Hgo. rewrite Hg in Hgo. injection Hgo as <-.
  split; [exact Hnone|]. rewrite (Hh alice 0) by reflexivity. reflexivity.
Defined.

(** ** NFT ownership *)

Lemma getNft_put (nft : NftInfo.t) (st : State) :
  NftInfo.isValid nft = true -> NftInfo.shadow_token_id nft < w32 ->
  NftInfo.underlying_token_id nft < w32 ->
  getNft (NftInfo.id nft) (putNft nft st) = Some nft.
Proof.
  intros Hv Hs Hu.
  assert (Hn : nft <| NftInfo.shadow_token_id := u32 (NftInfo.shadow_token_id nft) |>
                   <| NftInfo.underlying_token_id := u32 (NftInfo.underlying_token_id nft) |> = nft)
    by (rewrite !u32_id by done; by destruct nft).
  unfold getNft, putNft. rewrite Hn. cbn. rewrite lookup_insert_eq. cbn. by rewrite Hv.
Qed.

(** The store after an NFT of [nft]'s owner went to a buyer. *)
Record moved (nft : NftInfo.t) (i : N) (buyer : Address) (st st' : State) : Prop := {
  mv_record : exists nft', getNft i st' = Some nft' /\ NftInfo.owner nft' = buyer /\
    NftInfo.creator nft' = NftInfo.creator nft /\
    NftInfo.shadow_token_id nft' = NftInfo.shadow_token_id nft;
  mv_unindexed : ~ ((NftInfo.owner nft, i) ∈ idx_nfts_by_owner st');
  mv_indexed : (buyer, i) ∈ idx_nfts_by_owner st';
  mv_seller : getTokenBalance (NftInfo.owner nft) (NftInfo.shadow_token_id nft) st' + 1 =
    getTokenBalance (NftInfo.owner nft) (NftInfo.shadow_token_id nft) st;
  mv_buyer : getTokenBalance buyer (NftInfo.shadow_token_id nft) st' =
    getTokenBalance buyer (NftInfo.shadow_token_id nft) st + 1;
}.

(** NFT transfer.  Only the owner transfers an NFT; it then belongs to the
    recipient, the owner index follows, and one unit of its shadow token moves
    from the seller to the buyer. *)
Theorem nft_transfer `{Crypto} (tx : Transaction.t) (ctx : Ctx.t) (st st' : State) (fs : list Fill.t)
    (nft : NftInfo.t) :
  let i := readU64At (Transaction.payload tx) 0 in
  let buyer := readHashAt (Transaction.payload tx) 8 in
  let shadow := NftInfo.shadow_token_id nft in
  getNft i st = Some nft -> NftInfo.id nft = i ->
  shadow < w32 -> NftInfo.underlying_token_id nft < w32 -> value shadow st < w64 ->
  executeTransferNft tx ctx st = (Ok fs, st') ->
  NftInfo.owner nft = Transaction.from tx /\ buyer <> NftInfo.owner nft /\ moved nft i buyer st st'.
Proof.
  intros i buyer shadow Hg Hid Hsh Hun Hfit E.
  assert (Hv : NftInfo.isValid nft = true).
  { revert Hg. unfold getNft. destruct (nfts st !! i) as [n|]; cbn; [|done].
    destruct (NftInfo.isValid n) eqn:En; [|done]. by intros [= <-]. }
  assert (Hsz : shadow <> 0).
  { unfold NftInfo.isValid in Hv. rewrite !andb_true_iff, !negb_true_iff, !N.eqb_neq in Hv. tauto. }
  set (owner := NftInfo.owner nft).
  assert (Hon : isNull owner = false).
  { unfold NftInfo.isValid in Hv. rewrite !andb_true_iff, !negb_true_iff in Hv. tauto. }
  assert (Hfin : forall s1, token_balances s1 = token_balances st ->
    1 <= getTokenBalance owner shadow s1 -> buyer <> owner -> isNull buyer = false ->
    let s2 := putTokenBalance owner shadow (getTokenBalance owner shadow s1 -64 1) s1 in
    let s3 := putTokenBalance buyer shadow (getTokenBalance buyer shadow s2 +64 1) s2 in
    let nft' := nft <| NftInfo.owner := buyer |>
                    <| NftInfo.last_accrual_height := Ctx.current_height ctx |>
                    <| NftInfo.accrued_owed := 0 |> in
    moved nft i buyer st (putNft nft' (unindexNft nft s3))).
  { intros s1 Htb H1 Hne Hb s2 s3 nft'.
    assert (Hs1 : forall a, getTokenBalance a shadow s1 = getTokenBalance a shadow st)
      by (intros a; unfold getTokenBalance; by rewrite Htb).
    pose proof (holding2_le_value owner buyer shadow st Hsh ltac:(congruence)) as H2.
    unfold holding in H2. rewrite (proj2 (N.eqb_neq _ _) Hsz : (shadow =? NATIVE_TOKEN_ID) = false) in H2.
    rewrite Hs1 in H1.
    assert (Ho2 : getTokenBalance owner shadow s2 = getTokenBalance owner shadow st - 1).
    { unfold s2. rewrite getTokenBalance_put, bool_decide_eq_true_2, Hs1, sub64_id, u64_id by (done || lia). done. }
    assert (Hb2 : getTokenBalance buyer shadow s2 = getTokenBalance buyer shadow st).
    { unfold s2. rewrite getTokenBalance_put, bool_decide_eq_false_2 by congruence. apply Hs1. }
    assert (Ho3 : getTokenBalance owner shadow s3 = getTokenBalance owner shadow st - 1).
    { unfold s3. rewrite getTokenBalance_put, bool_decide_eq_false_2 by congruence. done. }
    assert (Hb3 : getTokenBalance buyer shadow s3 = getTokenBalance buyer shadow st + 1).
    { unfold s3. rewrite getTokenBalance_put, bool_decide_eq_true_2, Hb2, add64_id, u64_id by (done || lia). done. }
    clearbody s3. split; fold owner shadow.
    - exists nft'. split_and!; [|done|done|done].
      rewrite <- Hid. apply (getNft_put nft'); [|done|done].
      revert Hv. unfold NftInfo.isValid, nft'. cbn. rewrite Hb. rewrite !andb_true_iff. tauto.
    - cbn. fold owner. rewrite Hid, Hon, elem_of_union, elem_of_difference, !elem_of_singleton.
      intros [Heq|[_ Hni]]; [|done]. by injection Heq as ->.
    - cbn. rewrite Hid, elem_of_union, elem_of_singleton. by left.
    - change (getTokenBalance owner shadow s3 + 1 = getTokenBalance owner shadow st). lia.
    - exact Hb3. }
  cut (wp (executeTransferNft tx ctx) (fun o s => o = Ok fs -> owner = Transaction.from tx /\
    buyer <> owner /\ moved nft i buyer st s) st).
  { unfold wp. rewrite E. intros HP. exact (HP eq_refl). }
  clear E. unfold executeTransferNft. fold i buyer.
  wp_run; try done; intros _; assert (a = nft) as -> by congruence;
    rewrite ?negb_true_iff, ?N.eqb_eq, ?N.eqb_neq, ?N.leb_le in *;
    (split; [done|split; [unfold owner; congruence|]]); apply Hfin; try (unfold owner; congruence); try done;
    apply putAccount_tables.
Qed.

Definition mintNftTx : Transaction.t :=
  mkTx TxType.MintNft 0 alice 0 0 0 (le_split 8 0 ++ replicate 32 0 ++ [0] ++ le_split 2 0).
Definition gallery : State := snd (executeMintNft mintNftTx ctx0 genesis).
Definition giveTx : Transaction.t :=
  mkTx TxType.TransferNft 0 alice 0 0 0 (le_split 8 1 ++ be_split 32 bob).

Lemma nft_transfer_witness :
  exists nft st', getNft 1 gallery = Some nft /\ moved nft 1 bob gallery st'.
Proof.
  destruct (executeTransferNft giveTx ctx0 gallery) as [o st'] eqn:E.
  assert (Ho : fst (executeTransferNft giveTx ctx0 gallery) = Ok []) by (vm_compute; reflexivity).
  rewrite E in Ho. cbn in Ho. subst o.
  eexists _, st'. split; [vm_compute; reflexivity|].
  eapply (nft_transfer giveTx ctx0 gallery st' []); [vm_compute; reflexivity..|exact E].
Defined.
