(* ===== verification/RewardTheorems.v ===== *)
(** * Theorems: block rewards and the epoch boundary

    How the steps [distributeRewards] and [processEpochBoundary] of a block change
    the native total and the pot: the one exactly by the block reward, the other at
    most by the epoch's pool. *)

From S2P Require Import Prelude Types OrderBook StateAccess Ledger Codec ExecBase Executor.
From S2P Require Import Rotation Rewards Consensus Block Meta EpochRewards.
From S2P Require Import Invariants ExecValue Samples ExecutorTheorems.

(** ** Frames *)

Lemma getGlobalU64_putGlobal n name b st :
  n <> name -> getGlobalU64 n (putGlobal name b st) = getGlobalU64 n st.
Proof. intros Hn. unfold getGlobalU64. by rewrite getGlobal_put, bool_decide_false. Qed.

Lemma getGlobalU64_putAccount n a acct st :
  n <> "total_staked" -> n <> "staker_count" -> getGlobalU64 n (putAccount a acct st) = getGlobalU64 n st.
Proof.
  intros H1 H2. unfold putAccount.
  set (old := getAccount a st). set (copy := accountToStore _ _ _).
  set (st1 := indexNativeBalance _ _ _ _).
  assert (E1 : getGlobalU64 n st1 = getGlobalU64 n st) by (unfold st1; by rewrite getGlobalU64_indexNative).
  clearbody st1.
  assert (E2 : getGlobalU64 n (maintainTotalStaked old copy st1) = getGlobalU64 n st1).
  { unfold maintainTotalStaked. case_match; [done|]. by apply getGlobalU64_putGlobal. }
  rewrite <- E1, <- E2. generalize (maintainTotalStaked old copy st1). intros st2.
  unfold maintainStakerCount. case_match; [|case_match]; [| |done]; cbn zeta;
    (etransitivity; [by apply getGlobalU64_putGlobal|done]).
Qed.

Lemma validators_putAccount a acct st : validators (putAccount a acct st) = validators st.
Proof.
  unfold putAccount, maintainStakerCount, maintainTotalStaked, indexNativeBalance.
  by repeat case_match.
Qed.

(** ** Payments *)

(** No multiplier above one. *)
Definition multipliers_ok (st : State) : Prop :=
  forall i v, getValidator i st = Some v -> ValidatorInfo.reward_multiplier v <= 10000.

(** What a list of payments does: the amounts end in balances or in the
    redistributed total, and nothing else of value moves. *)
Record pays (amount : N) (acc acc' : N * State) : Prop := {
  pays_value : value 0 (snd acc') + fst acc' = value 0 (snd acc) + fst acc + amount;
  pays_other t : t <> 0 -> value t (snd acc') = value t (snd acc);
  pays_multipliers : multipliers_ok (snd acc');
  pays_pot : getGlobalU64 "pot" (snd acc') = getGlobalU64 "pot" (snd acc);
}.

Lemma pays_trans x y a b c : pays x a b -> pays y b c -> pays (x + y) a c.
Proof.
  intros [H1 H2 H3 H4] [K1 K2 K3 K4]. split; [lia| |done|congruence].
  intros t Ht. by rewrite K2, H2.
Qed.

Lemma creditReward_pays acc vid amount :
  multipliers_ok (snd acc) -> amount <= BLOCK_REWARD -> value 0 (snd acc) + fst acc + amount < w64 ->
  pays amount acc (creditReward acc (vid, amount)).
Proof.
  destruct acc as [red st]. cbn [fst snd]. intros Hm Ha Hfit. unfold creditReward.
  destruct (getValidator vid st) as [v|] eqn:Ev.
  2:{ split; cbn [fst snd]; [rewrite add64_id; lia|done|done|done]. }
  pose proof (Hm _ _ Ev) as Hmv. unfold BLOCK_REWARD, ATOMIC_UNITS_PER_COIN in Ha.
  assert (Hadj : (amount *64 ValidatorInfo.reward_multiplier v) / 10000 <= amount).
  { unfold mul64. rewrite u64_id by nia. apply N.Div0.div_le_upper_bound. nia. }
  set (adjusted := (amount *64 ValidatorInfo.reward_multiplier v) / 10000) in *.
  rewrite (sub64_id amount) by lia.
  set (v' := v <| ValidatorInfo.total_rewards_earned := _ |>).
  assert (Hm' : forall s, validators s = validators st -> multipliers_ok (putValidator v' s)).
  { intros s Hs i w. unfold getValidator, putValidator. cbn. rewrite Hs. destruct (decide (ValidatorInfo.id v = i)) as [<-|Hne].
    - rewrite lookup_insert_eq. by intros [= <-].
    - rewrite lookup_insert_ne by done. apply Hm. }
  destruct (N.ltb_spec 0 adjusted).
  - set (acct := getAccount (ValidatorInfo.reward_address v) st).
    pose proof (worth_le_value (ValidatorInfo.reward_address v) st) as Hw. fold acct in Hw. unfold worth in Hw.
    rewrite (add64_id (Account.balance acct)) by lia.
    pose proof (fun t => value_putAccount t (ValidatorInfo.reward_address v)
      (acct <| Account.balance := Account.balance acct + adjusted |>) st) as Hv.
    assert (Hwa : worth (acct <| Account.balance := Account.balance acct + adjusted |>) = worth acct + adjusted)
      by (unfold worth; cbn; lia).
    fold acct in Hv. rewrite Hwa in Hv. split; cbn [fst snd].
    + rewrite value_putValidator. specialize (Hv 0). rewrite !at_token_same in Hv. rewrite add64_id by lia. lia.
    + intros t Ht. rewrite value_putValidator. specialize (Hv t). unfold at_token in Hv.
      rewrite (proj2 (N.eqb_neq 0 t)) in Hv by congruence. lia.
    + apply Hm', validators_putAccount.
    + change (getGlobalU64 "pot" (putValidator v' ?s)) with (getGlobalU64 "pot" s).
      by apply getGlobalU64_putAccount.
  - split; cbn [fst snd]; rewrite ?value_putValidator, ?add64_id by lia; [lia|done|by apply Hm'|done].
Qed.

Lemma creditRewards_pay l : forall acc,
  multipliers_ok (snd acc) -> sumAmounts l <= BLOCK_REWARD ->
  value 0 (snd acc) + fst acc + sumAmounts l < w64 ->
  pays (sumAmounts l) acc (foldl creditReward acc l).
Proof.
  induction l as [|[vid amount] l IH]; intros acc Hm Hs Hfit.
  { split; cbn; [lia|done|done|done]. }
  cbn [sumAmounts foldr snd] in *. fold (sumAmounts l) in *. cbn [foldl].
  pose proof (creditReward_pays acc vid amount Hm ltac:(lia) ltac:(lia)) as Hp.
  eapply pays_trans; [exact Hp|]. destruct Hp as [Hv _ Hm' _]. apply IH; [done|lia|lia].
Qed.

(** The payments of a block: the validators' share. *)
Lemma payValidators_pay proposer active_set st :
  active_set <> [] -> multipliers_ok st -> value 0 st + BLOCK_REWARD < w64 ->
  pays (BLOCK_REWARD * VALIDATOR_SHARE_BPS / 10000) (0, st) (payValidators proposer active_set st).
Proof.
  intros Hne Hm Hfit.
  destruct (computeBlockReward_shares BLOCK_REWARD active_set) as (Hi & Hs & _ & Hr); [done|done|].
  rewrite <- Hi, <- Hs. unfold payValidators.
  assert (Hb : total_issued (computeBlockReward BLOCK_REWARD active_set) <= BLOCK_REWARD).
  { rewrite Hi. vm_compute. discriminate. }
  assert (Hbr : BLOCK_REWARD = 100000) by reflexivity.
  destruct (computeBlockReward BLOCK_REWARD active_set) as [issued producer set rewards].
  cbn [total_issued producer_amount set_amount validator_rewards] in *. subst rewards.
  destruct (shareOut_total set active_set) as [Hset _]; [lia|done|].
  destruct (shareOut_total producer active_set) as [Hprod _]; [lia|done|].
  destruct (seedOnly active_set st).
  - set (shares := shareOut (producer / _) _ _) in *.
    pose proof (creditRewards_pay shares (0, st) Hm ltac:(lia) ltac:(cbn [fst snd]; lia)) as [Hv Ho Hmm Hp].
    destruct (foldl creditReward (0, st) shares) as [red st']. cbn [fst snd] in *.
    rewrite Hprod in Hv. split; cbn [fst snd]; [rewrite add64_id; lia|done|done|done].
  - rewrite bool_decide_false, andb_true_r by done.
    set (shares := shareOut (set / _) _ _) in *.
    replace (producer + set) with (producer + sumAmounts shares) by lia. destruct (N.ltb_spec 0 producer).
    + pose proof (creditReward_pays (0, st) (producerId proposer active_set st) producer Hm ltac:(lia)
        ltac:(cbn [fst snd]; lia)) as Hp.
      eapply pays_trans; [exact Hp|]. destruct Hp as [Hv _ Hm' _]. cbn [fst snd] in Hv.
      apply creditRewards_pay; [done|lia|lia].
    + replace producer with 0 by lia. rewrite N.add_0_l.
      apply creditRewards_pay; [done|lia|cbn [fst snd]; lia].
Qed.

(** C33: emission.  The reward step of a block, [distributeRewards] (the fees the
    block burns and the epoch boundary are other steps), on a store with a
    non-empty active set, multipliers of at most 10000 and a native total and a pot
    that with the block reward fit 64 bits, raises the native total and the pot
    together by exactly the block reward, and changes no other token: what a
    multiplier withholds, an unknown validator's share and the stakers' share
    all go to the pot. *)
Theorem rewards_exact (block : Block.t) (bs : BlockStore) :
  loadActiveSet (store bs) <> [] -> multipliers_ok (store bs) ->
  value 0 (store bs) + getGlobalU64 "pot" (store bs) + BLOCK_REWARD < w64 ->
  let bs' := distributeRewards block bs in
  value 0 (store bs') + getGlobalU64 "pot" (store bs') =
    value 0 (store bs) + getGlobalU64 "pot" (store bs) + BLOCK_REWARD /\
  forall t, t <> 0 -> value t (store bs') = value t (store bs).
Proof.
  intros Hne Hm Hfit. cbn zeta. unfold distributeRewards.
  pose proof (payValidators_pay (BlockHeader.proposer (Block.header block)) _ _ Hne Hm ltac:(lia)) as [Hv Ho _ Hp].
  destruct (payValidators _ _ _) as [red st']. cbn [fst snd] in *.
  change (store (_ <| store := ?s |>)) with s.
  assert (Hval : forall t b, value t (putGlobalU64 "pot" b st') = value t st') by (intros; apply value_putGlobal).
  assert (E1 : applyBps BLOCK_REWARD STAKER_SHARE_BPS = 40000) by reflexivity.
  assert (E2 : BLOCK_REWARD * VALIDATOR_SHARE_BPS / 10000 = 60000) by reflexivity.
  assert (E3 : BLOCK_REWARD = 100000) by reflexivity. rewrite E1, E2, E3 in *.
  split; [|intros t Ht; by rewrite Hval, Ho]. rewrite Hval, Hp, getGlobalU64_put by auto with words.
  rewrite bool_decide_true by done. rewrite (add64_id (getGlobalU64 _ _)) by lia.
  rewrite add64_id by lia. lia.
Qed.

Definition sampleStore (st : State) : BlockStore := mkBlockStore st ∅ ∅ ∅ ∅ ∅.

Lemma staffed_multipliers : multipliers_ok staffed.
Proof.
  assert (Hf : map_Forall (fun _ v => ValidatorInfo.reward_multiplier v <= 10000) (validators staffed)).
  { apply map_Forall_to_list. vm_compute. repeat constructor; discriminate. }
  intros i v Hv. exact (Hf i v Hv).
Qed.

Lemma rewards_exact_witness :
  let bs' := distributeRewards (wireBlock INVALID_ID) (sampleStore staffed) in
  value 0 (store bs') + getGlobalU64 "pot" (store bs') = value 0 staffed + BLOCK_REWARD.
Proof.
  destruct (rewards_exact (wireBlock INVALID_ID) (sampleStore staffed)) as [E _].
  - vm_compute. discriminate.
  - exact staffed_multipliers.
  - vm_compute. reflexivity.
  - cbv zeta. rewrite E. vm_compute. reflexivity.
Defined.

(** ** The epoch boundary *)

Lemma accrueCollections_frame l : forall st,
  let st' := foldl accrueCollection st l in
  accounts st' = accounts st /\ token_balances st' = token_balances st /\ pools st' = pools st /\
  orders st' = orders st /\ idx_stakers st' = idx_stakers st /\ globals st' = globals st /\
  version st' = version st.
Proof.
  induction l as [|c l IH]; intros st; [done|]. cbn [foldl].
  assert (Hc : exists cs, accrueCollection st c = st <| nft_collections := cs |>).
  { unfold accrueCollection. repeat case_match; try (exists (nft_collections st); by destruct st);
      by eexists. }
  destruct Hc as [cs ->]. exact (IH (st <| nft_collections := cs |>)).
Qed.

Lemma blocksStakedIn_le acct s e : blocksStakedIn acct s e ROTATION_INTERVAL <= 60.
Proof.
  unfold blocksStakedIn. repeat case_match; try lia; try (unfold ROTATION_INTERVAL; lia).
  apply N.ltb_ge in H2. done.
Qed.

(** A weight is at most 1.03 times the stake for each of sixty blocks. *)
Lemma timeWeight_le s e acct :
  Account.staked acct < 2 ^ 57 -> timeWeight s e acct <= 62 * Account.staked acct.
Proof.
  intros Hs. unfold timeWeight. pose proof (blocksStakedIn_le acct s e) as Hb.
  set (b := blocksStakedIn acct s e ROTATION_INTERVAL) in *. clearbody b.
  destruct (N.eqb_spec b 0); [lia|]. etransitivity; [apply u128_le|].
  destruct (_ <=? _).
  - rewrite u128_id by (unfold BALANCE_BONUS_BPS; lia). etransitivity.
    { apply N.mul_le_mono_r, u64_le. }
    assert (Account.staked acct * (10000 + BALANCE_BONUS_BPS) / 10000 * 10000 <=
      Account.staked acct * (10000 + BALANCE_BONUS_BPS)) by (rewrite N.mul_comm; apply N.Div0.mul_div_le).
    unfold BALANCE_BONUS_BPS in *. nia.
  - nia.
Qed.

Lemma msum_list {K A} `{Countable K} (f : K -> A -> N) l : forall m : gmap K A,
  NoDup l -> sumN (map (fun k => from_option (f k) 0 (m !! k)) l) <= msum f m.
Proof.
  induction l as [|k l IH]; intros m Hnd; [cbn; lia|]. apply NoDup_cons in Hnd as [Hk Hnd].
  cbn [map sumN foldr]. fold (sumN (map (fun k => from_option (f k) 0 (m !! k)) l)).
  pose proof (msum_delete f m k) as Hd. specialize (IH (delete k m) Hnd).
  assert (E : map (fun k0 => from_option (f k0) 0 (delete k m !! k0)) l =
    map (fun k0 => from_option (f k0) 0 (m !! k0)) l).
  { apply map_ext_in. intros j Hj%list_elem_of_In. rewrite lookup_delete_ne; [done|]. by intros ->. }
  rewrite E in IH. lia.
Qed.

Definition weights (s e : N) (addrs : list Address) (st : State) : list N :=
  map (fun a => timeWeight s e (getAccount a st)) addrs.

Lemma totalTimeWeight_sum s e addrs st :
  sumN (weights s e addrs st) < w128 ->
  totalTimeWeight s e addrs st = sumN (weights s e addrs st).
Proof.
  unfold totalTimeWeight. enough (Hg : forall acc, acc + sumN (weights s e addrs st) < w128 ->
    foldl (fun total a => u128 (total + timeWeight s e (getAccount a st))) acc addrs =
    acc + sumN (weights s e addrs st)) by (intros; rewrite Hg; lia).
  unfold weights. induction addrs as [|a addrs IH]; intros acc Hacc; cbn [foldl map sumN foldr] in *.
  { cbn. lia. }
  fold (sumN (map (fun a => timeWeight s e (getAccount a st)) addrs)) in *.
  rewrite u128_id by lia. rewrite IH by lia. lia.
Qed.

(** Floored shares of a whole never exceed it. *)
Lemma shares_le D W ws : sumN ws <= W -> W <> 0 -> sumN (map (fun w => D * w / W) ws) <= D.
Proof.
  intros Hw HW. enough (Hs : W * sumN (map (fun w => D * w / W) ws) <= D * sumN ws) by nia.
  clear Hw. unfold sumN. induction ws as [|w ws IH]; cbn; [lia|].
  pose proof (N.Div0.mul_div_le (D * w) W). nia.
Qed.

(** What crediting stakers does to the store. *)
Record accrues (amount : N) (st st' : State) : Prop := {
  acc_value : value 0 st' = value 0 st + amount;
  acc_other t : t <> 0 -> value t st' = value t st;
  acc_pot : getGlobalU64 "pot" st' = getGlobalU64 "pot" st;
}.

Lemma payStaker_accrues s e D W n st a :
  value 0 st + D * timeWeight s e (getAccount a st) / W < w64 ->
  D * timeWeight s e (getAccount a st) < w128 ->
  let st' := payStaker s e D W n st a in
  exists x, x <= D * timeWeight s e (getAccount a st) / W /\ accrues x st st' /\
    forall b, b <> a -> getAccount b st' = getAccount b st.
Proof.
  intros Hfit Hw. cbn zeta. unfold payStaker. destruct (_ =? 0).
  { exists 0. split; [apply N.le_0_l|]. split; [split; [lia|done|done]|done]. }
  rewrite (u128_id (_ * _)) by done. set (share := D * _ / W) in *.
  rewrite (u64_id share) by lia. set (acct := getAccount a st) in *.
  pose proof (worth_le_value a st) as Hle. fold acct in Hle. unfold worth in Hle.
  rewrite add64_id by lia. exists share. split; [done|].
  set (acct' := acct <| Account.pending_rewards := _ |> <| Account.last_reward_epoch := n |>).
  assert (Hwa : worth acct' = worth acct + share) by (unfold worth, acct'; cbn; lia).
  split; [split|].
  - pose proof (value_putAccount 0 a acct' st) as Hv. fold acct in Hv. rewrite !at_token_same in Hv. lia.
  - intros t Ht. pose proof (value_putAccount t a acct' st) as Hv. unfold at_token in Hv.
    rewrite (proj2 (N.eqb_neq 0 t)) in Hv by congruence. lia.
  - by apply getGlobalU64_putAccount.
  - intros b Hb. rewrite getAccount_putAccount. by rewrite (proj2 (N.eqb_neq b a)).
Qed.

Lemma payStakers_accrue s e D W n st0 addrs : forall st,
  NoDup addrs -> (forall a, a ∈ addrs -> getAccount a st = getAccount a st0) ->
  (forall a, a ∈ addrs -> D * timeWeight s e (getAccount a st0) < w128) ->
  value 0 st + sumN (map (fun w => D * w / W) (weights s e addrs st0)) < w64 ->
  exists x, x <= sumN (map (fun w => D * w / W) (weights s e addrs st0)) /\
    accrues x st (foldl (payStaker s e D W n) st addrs).
Proof.
  induction addrs as [|a addrs IH]; intros st Hnd Hsame Hw Hfit.
  { exists 0. cbn. split; [lia|]. split; [lia|done|done]. }
  apply NoDup_cons in Hnd as [Ha Hnd]. unfold weights in *. cbn [map sumN foldr foldl] in *.
  fold (sumN (map (fun w => D * w / W) (map (fun a => timeWeight s e (getAccount a st0)) addrs))) in *.
  pose proof (Hsame a ltac:(left)) as Ea.
  destruct (payStaker_accrues s e D W n st a) as (x & Hx & [V1 V2 V3] & Hoth).
  { rewrite Ea. lia. }
  { rewrite Ea. apply Hw. left. }
  rewrite Ea in Hx.
  destruct (IH (payStaker s e D W n st a)) as (y & Hy & [W1 W2 W3]).
  - done.
  - intros b Hb. rewrite Hoth by (by intros ->). apply Hsame. by right.
  - intros b Hb. apply Hw. by right.
  - lia.
  - exists (x + y). split; [lia|]. split; [lia| |congruence]. intros t Ht. by rewrite W2, V2.
Qed.

Lemma toI64_small x : x < 2 ^ 63 -> toI64 x = Z.of_N x.
Proof. intros Hx. unfold toI64. by rewrite (proj2 (N.ltb_lt _ _) Hx). Qed.

Lemma wrapI64_small z : (- 2 ^ 63 <= z < 2 ^ 63)%Z -> wrapI64 z = z.
Proof. intros Hz. unfold wrapI64. rewrite Z.mod_small by lia. lia. Qed.

Lemma potAfterEpoch_exact pot adj baseline :
  pot + added_to_pot adj < 2 ^ 63 -> drained_from_pot adj <= pot -> baseline * POT_MAX_EPOCHS < w64 ->
  potAfterEpoch pot adj baseline =
  N.min (pot + added_to_pot adj - drained_from_pot adj) (baseline * POT_MAX_EPOCHS).
Proof.
  intros Hp Hd Hm. unfold potAfterEpoch. rewrite !toI64_small by lia.
  rewrite (wrapI64_small (Z.of_N (added_to_pot adj) - _)) by lia. rewrite wrapI64_small by lia.
  rewrite (proj2 (Z.ltb_ge _ 0)) by lia. unfold ofI64, mul64. rewrite Z.mod_small by lia. rewrite u64_id by done.
  replace (Z.to_N (Z.of_N pot + (Z.of_N (added_to_pot adj) - Z.of_N (drained_from_pot adj))))
    with (pot + added_to_pot adj - drained_from_pot adj) by lia.
  destruct (N.ltb_spec (baseline * POT_MAX_EPOCHS) (pot + added_to_pot adj - drained_from_pot adj)); lia.
Qed.

Lemma staked_le a st : Staking st -> Account.staked (getAccount a st) <= worth (getAccount a st).
Proof.
  intros HS. unfold getAccount. destruct (accounts st !! a) as [acct|] eqn:Ea; cbn [default id]; [|done].
  unfold default, id. destruct (staking_accounts st HS a acct Ea) as [_ ->].
  pose proof (stakeOf_le acct). unfold worth. lia.
Qed.

Lemma weights_le s e addrs st :
  Staking st -> value 0 st < 2 ^ 57 -> NoDup addrs -> sumN (weights s e addrs st) <= 62 * value 0 st.
Proof.
  intros HS Hv Hnd. transitivity (62 * sumN (map (fun a => from_option worth 0 (accounts st !! a)) addrs)).
  - clear Hnd. unfold weights, sumN. induction addrs as [|a addrs IH]; cbn [map foldr]; [lia|].
    pose proof (staked_le a st HS) as Hs. pose proof (worth_le_value a st) as Hw.
    pose proof (timeWeight_le s e (getAccount a st) ltac:(lia)). rewrite worth_getAccount in Hs. lia.
  - pose proof (msum_list (fun _ x => worth x) addrs (accounts st) Hnd) as Hm. cbv beta in Hm.
    unfold value, account_value. rewrite at_token_same. etransitivity; [apply N.mul_le_mono_l, Hm|]. lia.
Qed.

Lemma stakers_NoDup st : NoDup (stakers st).
Proof. unfold stakers. rewrite merge_sort_Permutation. apply NoDup_elements. Qed.

Lemma payStakers_bounded adj h st :
  Staking st -> value 0 st < 2 ^ 57 -> value 0 st + distributed adj < 2 ^ 58 ->
  exists x, x <= distributed adj /\ accrues x st (payStakers adj h st).
Proof.
  intros HS Hv HD. unfold payStakers.
  match goal with |- context [totalTimeWeight ?start _ _ _] => generalize start; intros s end.
  pose proof (weights_le s h _ st HS Hv (stakers_NoDup st)) as Hw.
  rewrite totalTimeWeight_sum by lia. set (W := sumN (weights s h (stakers st) st)) in *.
  destruct (N.eqb_spec W 0) as [|HW]; [exists 0; split; [lia|]; split; [lia|done|done]|].
  pose proof (shares_le (distributed adj) W (weights s h (stakers st) st) ltac:(done) HW) as Hsh.
  destruct (payStakers_accrue s h (distributed adj) W (epochOf h) st (stakers st) st) as (x & Hx & Ha).
  - apply stakers_NoDup.
  - done.
  - intros a _. pose proof (worth_le_value a st). pose proof (staked_le a st HS).
    pose proof (timeWeight_le s h (getAccount a st) ltac:(lia)) as Ht.
    apply N.le_lt_trans with (2 ^ 58 * 2 ^ 63); [|done]. apply N.mul_le_mono; lia.
  - lia.
  - exists x. split; [lia|done].
Qed.

(** The boundary before the stakers are paid. *)
Definition accrued (pot : N) (st : State) : State :=
  let st := putGlobalU64 "pot" pot st in foldl accrueCollection st (allCollections st).

Lemma accrued_accrues pot st :
  pot < w64 -> (forall t, value t (accrued pot st) = value t st) /\
  getGlobalU64 "pot" (accrued pot st) = pot /\ (Staking st -> Staking (accrued pot st)).
Proof.
  intros Hp. unfold accrued. set (st1 := putGlobalU64 "pot" pot st).
  destruct (accrueCollections_frame (allCollections st1) st1) as (Ha & Hb & Hpl & Ho & Hi & Hg & Hver).
  split_and!.
  - intros t. rewrite (value_frame t st1) by done. apply value_putGlobal.
  - unfold getGlobalU64, getGlobal. rewrite Hg. change (getGlobalU64 "pot" st1 = pot).
    unfold st1. by rewrite getGlobalU64_put, bool_decide_true.
  - intros HS. eapply (stable_frame st1); [unfold core; by rewrite Ha, Hi, Hg, Hver|].
    by apply stable_global.
Qed.

(** C34: the epoch boundary.  While the native total, the pot and the epoch's
    pool stay within 2^57 units, the stakers together are credited at most what
    the pot mechanics distribute; the pot becomes the old one plus what was
    added less what was drained, up to its cap; the native total and the pot
    grow by at most the epoch's pool; and no other token is touched. *)
Theorem epoch_boundary_bounded (h : N) (bs : BlockStore) :
  Staking (store bs) -> value 0 (store bs) + getGlobalU64 "pot" (store bs) + epochPool < 2 ^ 57 ->
  let bs' := processEpochBoundary h bs in
  let adj := epochAdjustment bs in
  let pot := getGlobalU64 "pot" (store bs) in
  value 0 (store bs) <= value 0 (store bs') <= value 0 (store bs) + distributed adj /\
  getGlobalU64 "pot" (store bs') =
    N.min (pot + added_to_pot adj - drained_from_pot adj) (epochPool * POT_MAX_EPOCHS) /\
  value 0 (store bs') + getGlobalU64 "pot" (store bs') <= value 0 (store bs) + pot + epochPool /\
  (forall t, t <> 0 -> value t (store bs') = value t (store bs)).
Proof.
  intros HS Hfit. cbn zeta. set (adj := epochAdjustment bs). set (pot := getGlobalU64 "pot" (store bs)) in *.
  set (target := computeTargetStakerPayout (getGlobalU64 "total_staked" (store bs)) (epochApy bs) SECONDS_PER_EPOCH).
  assert (Ht : target < w64).
  { unfold target, computeTargetStakerPayout. repeat case_match; try done. apply u64_lt. }
  destruct (applyPotMechanics_balances epochPool target pot epochPool ltac:(lia) Ht)
    as (Hd & Hb & Hdr & _ & Hz).
  change (applyPotMechanics epochPool target pot epochPool) with adj in *.
  assert (Hpe := potAfterEpoch_exact pot adj epochPool ltac:(lia) Hdr ltac:(reflexivity)).
  destruct (accrued_accrues (potAfterEpoch pot adj epochPool) (store bs)) as (Hv & Hp & HS').
  { rewrite Hpe. lia. }
  assert (Hst : exists x, x <= distributed adj /\
    accrues x (accrued (potAfterEpoch pot adj epochPool) (store bs)) (store (processEpochBoundary h bs))).
  { unfold processEpochBoundary. change (store (_ <| store := ?s |>)) with s.
    fold adj pot. fold (accrued (potAfterEpoch pot adj epochPool) (store bs)).
    destruct (_ || _ || _); [exists 0; split; [lia|]; split; [lia|done|done]|].
    apply payStakers_bounded; [by apply HS'|rewrite Hv; lia..]. }
  destruct Hst as (x & Hx & [A1 A2 A3]). rewrite A1, A3, Hv, Hp, Hpe. split_and!; try lia.
  intros t Ht'. by rewrite A2, Hv.
Qed.

Lemma staffed_Staking : Staking staffed.
Proof.
  unfold staffed, saveActiveSet. apply stable_global; [done|done|].
  apply stable_foldl; [|apply genesis_Staking]. intros st i HS.
  eapply stable_frame; [apply core_putValidatorByAddress|].
  eapply stable_frame; [apply core_putValidator|]. exact HS.
Qed.

Lemma epoch_boundary_bounded_witness :
  let bs' := processEpochBoundary 119 (sampleStore staffed) in
  value 0 (store bs') + getGlobalU64 "pot" (store bs') <= value 0 staffed + epochPool.
Proof.
  destruct (epoch_boundary_bounded 119 (sampleStore staffed)) as (_ & _ & H & _).
  - exact staffed_Staking.
  - vm_compute. reflexivity.
  - cbv zeta. etransitivity; [exact H|]. vm_compute. discriminate.
Defined.
