(* ===== verification/BlockTheorems.v ===== *)
(** * Theorems: blocks

    What [BlockProcessor::applyBlock] guarantees: it refines a run of the chain,
    an accepted block is committed to (its receipts only when their root is not
    null) and signed by a quorum, two quorums that
    disagree convict more than a third of the set, slash payloads convict
    exactly equivocators, timeout certificates and transaction roots are sound. *)

From S2P Require Import Prelude Types OrderBook StateAccess Ledger Codec ExecBase Executor BlockOrders.
From S2P Require Import Rotation Rewards Consensus Block Meta EpochRewards BlockProcessor.
From S2P Require Import Invariants Conservation Chain Samples ExecutorTheorems RewardTheorems.

(** ** A block is a run *)

Lemma store_foldl {A} (f : BlockStore -> A -> BlockStore) l bs :
  (forall bs x, store (f bs x) = store bs) -> store (foldl f bs l) = store bs.
Proof. intros Hf. revert bs. induction l as [|x l IH]; intros bs; [done|]. cbn. by rewrite IH. Qed.

Lemma store_updateFeeWindow f bs : store (updateFeeWindow f bs) = store bs.
Proof.
  unfold updateFeeWindow. assert (Hp : store (snd (prepareRing bs)) = store bs).
  { unfold prepareRing. by destruct (_ =? _)%nat. }
  destruct (prepareRing bs) as [ring bs1]. exact Hp.
Qed.

Lemma store_bumpLifetimeCounters block bs : store (bumpLifetimeCounters block bs) = store bs.
Proof. unfold bumpLifetimeCounters. by rewrite store_updateFeeWindow. Qed.

Section indexes.
Context `{Crypto}.

Lemma store_indexBlockProducer block bs : store (indexBlockProducer block bs) = store bs.
Proof. unfold indexBlockProducer. by case_match. Qed.

Lemma store_indexTransaction txid h i addrs tokens ty bs :
  store (indexTransaction txid h i addrs tokens ty bs) = store bs.
Proof.
  unfold indexTransaction. change (store (?b <| idx_tx_by_type ::= ?f |>)) with (store b).
  rewrite store_foldl by done. apply store_foldl. intros b a. by case_match.
Qed.

Lemma store_indexTransactions h txs : forall i bs, store (indexTransactionsFrom h i txs bs) = store bs.
Proof.
  induction txs as [|tx txs IH]; intros i bs; [done|]. cbn [indexTransactionsFrom]. rewrite IH.
  case_match; [done|]. apply store_indexTransaction.
Qed.
End indexes.

Section refinement.
Context `{Crypto} `{StdSort} (stateRoot : State -> Hash).

(** The transactions of a block that the executor runs. *)
Definition userTransactions (block : Block.t) : list Transaction.t :=
  filter (fun tx => TxType.isSystemTx (Transaction.tx_type tx) = false) (Block.transactions block).

Lemma settleBlock_run block ctx bs : run [] (store bs) (store (settleBlock block ctx bs)).
Proof.
  unfold settleBlock. set (h := BlockContext.current_height ctx).
  eapply run_step; [apply (step_rewards block)|].
  eapply run_step; [apply (step_producer (Block.header block))|].
  eapply run_step; [apply (step_globals h)|].
  set (bs3 := onStore (updateGlobalState h) _). change (updateGlobalState h _) with (store bs3).
  set (bs4 := if BlockContext.dry_run ctx then _ else _).
  assert (E : store bs4 = store bs3).
  { unfold bs4. case_match; [done|]. unfold indexTransactions.
    by rewrite store_indexTransactions, store_indexBlockProducer, store_bumpLifetimeCounters. }
  rewrite <- E. clearbody bs3 bs4. destruct (isEpochBoundary h); [|constructor].
  eapply run_step; [apply (step_epoch h)|].
  eapply run_step; [apply (step_rotation block h)|]. constructor.
Qed.

Lemma closingSteps_run block ctx bs : run [] (store bs) (store (snd (closingSteps block ctx bs))).
Proof.
  unfold closingSteps. set (h := BlockContext.current_height ctx).
  eapply run_step; [apply (step_expiries h)|]. eapply run_step; [apply (step_unbond h)|].
  set (bs2 := onStore (processUnbondExpiries h) _). change (processUnbondExpiries h _) with (store bs2).
  clearbody bs2. destruct (isEpochBoundary h); [|apply settleBlock_run].
  destruct (evaluateOrderConditions h [] (store bs2)) as [fills st3] eqn:Ec. eapply run_step.
  { pose proof (step_conditions h [] (store bs2)) as Hs. rewrite Ec in Hs. exact Hs. }
  exact (settleBlock_run block ctx (bs2 <| store := st3 |>)).
Qed.

Lemma applyTransaction_run ctx i tx st r st' :
  applyTransaction ctx i tx st = (inr r, st') ->
  step (if TxType.isSystemTx (Transaction.tx_type tx) then [] else [tx]) st st' \/
  (TxType.isSystemTx (Transaction.tx_type tx) = true /\ st' = st).
Proof.
  unfold applyTransaction. destruct (TxType.isSystemTx _) eqn:Es.
  - case_bool_decide.
    + unfold applySlash. destruct (verifyEquivocationProof _ _ _); cbn; [|done]. intros [= <- <-]. left. constructor.
    + intros [= <- <-]. by right.
  - case_match; [done|]. destruct (execute _ _ _) as [[r'| |] st1] eqn:E; try done.
    case_bool_decide as Hs; [|done]. intros [= <- <-]. left.
    pose proof (step_tx _ _ _ _ _ E) as Hstep. unfold succeeded in Hstep. rewrite bool_decide_true in Hstep by done.
    exact Hstep.
Qed.

Lemma applyTransactions_run ctx txs : forall i st rs st',
  applyTransactionsFrom ctx i txs st = (inr rs, st') ->
  run (filter (fun tx => TxType.isSystemTx (Transaction.tx_type tx) = false) txs) st st' /\
  length rs = length txs /\ map fst rs = map TransactionCodec.signingHash txs /\
  Forall (fun r => Receipt.status r.2 = ReceiptStatus.Success) rs.
Proof.
  induction txs as [|tx txs IH]; intros i st rs st'; cbn [applyTransactionsFrom].
  { intros [= <- <-]. by repeat constructor. }
  destruct (applyTransaction ctx i tx st) as [[e|r] st1] eqn:E1; [done|].
  destruct (applyTransactionsFrom ctx (i + 1) txs st1) as [[e|rs1] st2] eqn:E2; [done|].
  intros [= <- <-]. destruct (IH _ _ _ _ E2) as (Hr & Hl & Hh & Hf).
  split_and!; [|cbn; congruence|cbn; congruence|].
  - rewrite filter_cons. destruct (applyTransaction_run _ _ _ _ _ _ E1) as [Hs|[Hsys ->]].
    + destruct (TxType.isSystemTx _) eqn:Es; cbn.
      * rewrite decide_False by congruence. eapply run_step; done.
      * rewrite decide_True by done. exact (run_cons [tx] _ _ _ _ Hs Hr).
    + rewrite decide_False by congruence. done.
  - constructor; [|done]. cbn. unfold applyTransaction in E1. repeat case_match; simplify_eq/=; try done.
    by case_bool_decide.
Qed.

(** What acceptance means, step by step. *)
Lemma applyBlock_inv block ctx now bs r bs' :
  applyBlock stateRoot block ctx now bs = (inr r, bs') ->
  exists active_set rs st fills,
    checkBlock block ctx now (store bs) = inr active_set /\
    applyTransactions ctx block (store bs) = (inr rs, st) /\
    closingSteps block ctx
      (bs <| store := membershipStep block ctx (loadActiveSet (store bs)) active_set st |>) = (fills, bs') /\
    r = mkBlockResult (stateRoot (store bs')) (map snd rs) (map fst rs) (Block.hash block) fills /\
    checkCommitments block ctx r = None.
Proof.
  unfold applyBlock. destruct (checkBlock _ _ _ _) as [e|active]; [done|].
  destruct (applyTransactions _ _ _) as [[e|rs] st]; [done|].
  destruct (closingSteps _ _ _) as [fills bs1] eqn:Ec.
  destruct (checkCommitments _ _ _) eqn:Ek; [done|]. intros [= <- <-]. by exists active, rs, st, fills.
Qed.

Lemma applyBlock_run block ctx now bs r bs' :
  applyBlock stateRoot block ctx now bs = (inr r, bs') ->
  run (userTransactions block) (store bs) (store bs').
Proof.
  intros (active & rs & st & fills & _ & Ht & Hc & _ & _)%applyBlock_inv.
  destruct (applyTransactions_run _ _ _ _ _ _ Ht) as [Hr _].
  assert (Hcl : run [] st (store bs')).
  { eapply run_step; [apply (step_members block ctx (loadActiveSet (store bs)) active)|].
    pose proof (closingSteps_run block ctx
      (bs <| store := membershipStep block ctx (loadActiveSet (store bs)) active st |>)) as Hs.
    rewrite Hc in Hs. exact Hs. }
  rewrite <- (app_nil_r (userTransactions block)). by eapply run_app.
Qed.

(** A chain of accepted blocks, each in its own context. *)
Inductive accepted : list Block.t -> BlockStore -> BlockStore -> Prop :=
  | accepted_nil bs : accepted [] bs bs
  | accepted_cons block blocks ctx now r bs1 bs2 bs3 :
    applyBlock stateRoot block ctx now bs1 = (inr r, bs2) -> accepted blocks bs2 bs3 ->
    accepted (block :: blocks) bs1 bs3.

Lemma accepted_run blocks bs bs' :
  accepted blocks bs bs' -> run (concat (map userTransactions blocks)) (store bs) (store bs').
Proof.
  induction 1 as [bs|block blocks ctx now r bs1 bs2 bs3 Hb Ha IH]; [constructor|].
  cbn [map concat]. eapply run_app; [by eapply applyBlock_run|done].
Qed.
End refinement.

(** C8: blocks refine the chain.  Any sequence of accepted blocks is a run of
    the abstract transition system whose transactions are exactly the blocks'
    user transactions, in order.  So an account's transactions in the blocks
    carry consecutive nonces from the stored one, none twice, and the staking
    totals hold after the last block if they held before the first. *)
Theorem blocks_refine_run `{Crypto} `{StdSort} (stateRoot : State -> Hash) (blocks : list Block.t)
    (bs bs' : BlockStore) (a : Address) :
  accepted stateRoot blocks bs bs' ->
  let txs := concat (map userTransactions blocks) in
  run txs (store bs) (store bs') /\
  (Staking (store bs) -> Staking (store bs')) /\
  (nonceOf a (store bs) + N.of_nat (length txs) + 1 < w64 ->
   map Transaction.nonce (ofSender a txs) =
     noncesFrom (nonceOf a (store bs)) (length (ofSender a txs))).
Proof.
  intros Ha. cbn zeta. pose proof (accepted_run stateRoot _ _ _ Ha) as Hr. split_and!; [done| |].
  - intros HS. exact (run_stable Staking Staking_bumpNonce _ _ _ Hr HS).
  - intros Hb. by destruct (run_nonces _ _ _ a Hr Hb).
Qed.

(** A block at height 100 of the staffed chain, with Alice's payment. *)
Definition blockCtx : BlockContext.t := BlockContext.mk 1 100 false.

Definition payHeader : BlockHeader.t :=
  BlockHeader.mk CURRENT_BLOCK_VERSION 1 100 11 1767225700000 101 1 1 0 0 [] 0 99
    (computeTxRoot [pay]) 0 0 (computeValidatorSetRoot committee) 10 1 4.

Definition payBlock : Block.t :=
  Block.mk payHeader [pay] (map (fun i => ValidatorSignature.mk i (replicate 64 4)) [0; 1; 2]) committee.

Definition paid : BlockStore :=
  snd (applyBlock (fun _ => 99) payBlock blockCtx 1767225700000 (sampleStore staffed)).

(** The fields a concrete block's outcome is read off from. *)
Definition outcomeTag {A B} (r : A + B) : bool := match r with inl _ => false | inr _ => true end.

Lemma payBlock_ok :
  exists r, applyBlock (fun _ => 99) payBlock blockCtx 1767225700000 (sampleStore staffed) = (inr r, paid).
Proof.
  assert (E : outcomeTag (fst (applyBlock (fun _ => 99) payBlock blockCtx 1767225700000
    (sampleStore staffed))) = true) by (vm_compute; reflexivity).
  unfold paid. destruct (applyBlock _ _ _ _ _) as [[e|r] bs']; [discriminate|]. by exists r.
Qed.

Lemma blocks_refine_run_witness :
  run [pay] staffed (store paid) /\ Staking (store paid).
Proof.
  destruct payBlock_ok as [r E].
  assert (Ha : accepted (fun _ => 99) [payBlock] (sampleStore staffed) paid)
    by (econstructor; [exact E|constructor]).
  destruct (blocks_refine_run (fun _ => 99) [payBlock] (sampleStore staffed) paid alice Ha) as (Hr & HS & _).
  split; [exact Hr|]. apply HS. exact staffed_Staking.
Defined.

(** ** Quorums *)

Lemma andThen_none c1 c2 : andThen c1 c2 = None <-> c1 = None /\ c2 = None.
Proof. destruct c1; naive_solver. Qed.

Lemma failIf_none b e : failIf b e = None <-> b = false.
Proof. destruct b; naive_solver. Qed.

Lemma checkSigners_ok n sigs : forall seen,
  checkSigners n seen sigs = None -> NoDup seen ->
  let signers := map ValidatorSignature.signer_index sigs in
  NoDup signers /\ Forall (fun i => i < n /\ i <> INVALID_INDEX /\ i ∉ seen) signers.
Proof.
  induction sigs as [|vs sigs IH]; intros seen Hc Hnd; [cbn; by repeat constructor|].
  cbn [checkSigners map] in *. destruct (N.eqb_spec (ValidatorSignature.signer_index vs) INVALID_INDEX); [done|].
  destruct (N.leb_spec n (ValidatorSignature.signer_index vs)); [done|]. case_bool_decide as Hin; [done|].
  destruct (IH _ Hc) as [Hn Hf]; [by constructor|]. cbn zeta. split.
  - constructor; [|done]. intros Hx. rewrite Forall_forall in Hf. destruct (Hf _ Hx) as (_ & _ & Hs). apply Hs. left.
  - constructor; [done|]. eapply Forall_impl; [exact Hf|]. intros i (? & ? & Hs). split_and!; [done|done|].
    intros Hi. apply Hs. by right.
Qed.

Section quorum.
Context `{Crypto}.

(** A signer's vote for a block, as the signature attests it. *)
Definition commitVote (block : Block.t) (vid i : N) (signature : bytes) : Vote.t :=
  Vote.mk (BlockHeader.height (Block.header block)) (u32 (BlockHeader.commit_round (Block.header block))) i vid
    false (Block.hash block) signature.

(** The member at an index signed the block with its key of the height. *)
Definition signed (st : State) (block : Block.t) (active_set : list N) (i : N) : Prop :=
  exists vid pk vs, active_set !! N.to_nat i = Some vid /\ is_Some (getValidator vid st) /\
    validatorKeyAtHeight vid (BlockHeader.height (Block.header block)) st = Some pk /\
    vs ∈ Block.quorum_signatures block /\ ValidatorSignature.signer_index vs = i /\
    ed25519_verify (voteSigningHash (BlockHeader.height (Block.header block))
      (BlockHeader.commit_round (Block.header block)) false (Block.hash block))
      pk (ValidatorSignature.signature vs) = true.

Lemma checkSignatures_ok h height active_set st sigs vs :
  checkSignatures h height active_set st sigs = None -> vs ∈ sigs ->
  let vid := nth (N.to_nat (ValidatorSignature.signer_index vs)) active_set 0 in
  is_Some (getValidator vid st) /\ exists pk, validatorKeyAtHeight vid height st = Some pk /\
    ed25519_verify h pk (ValidatorSignature.signature vs) = true.
Proof.
  induction sigs as [|w sigs IH]; intros Hc Hin; [by apply elem_of_nil in Hin|]. cbn [checkSignatures] in Hc.
  destruct (getValidator _ st) eqn:Eg; [|done]. destruct (validatorKeyAtHeight _ height st) eqn:Ek; [|done].
  destruct (ed25519_verify _ _ _) eqn:Ev; [|done]. cbn [negb] in Hc.
  apply elem_of_cons in Hin as [->|Hin]; [|by apply IH]. cbn zeta. rewrite Eg, Ek. eauto.
Qed.

(** A quorum check that passes: enough distinct indexes, each with a valid
    signature. *)
Lemma checkQuorum_ok st block active_set :
  checkQuorum st block active_set = None ->
  exists signers, NoDup signers /\ bftQuorum (N.of_nat (length active_set)) <= N.of_nat (length signers) /\
    Forall (fun i => i < N.of_nat (length active_set) /\ i <> INVALID_INDEX /\ signed st block active_set i) signers.
Proof.
  unfold checkQuorum. rewrite !andThen_none, failIf_none, N.ltb_ge. intros (Hq & Hs & Hv).
  apply checkSigners_ok in Hs as [Hnd Hf]; [|constructor].
  exists (map ValidatorSignature.signer_index (Block.quorum_signatures block)).
  rewrite length_map. split_and!; [done|done|]. rewrite Forall_forall in Hf. apply Forall_forall.
  intros i Hi. destruct (Hf i Hi) as (Hlt & Hne & _). split_and!; [done|done|].
  apply list_elem_of_fmap in Hi as (vs & -> & Hin).
  destruct (checkSignatures_ok _ _ _ _ _ _ Hv Hin) as [Hg (pk & Hk & Hver)].
  destruct (lookup_lt_is_Some_2 active_set (N.to_nat (ValidatorSignature.signer_index vs))) as [vid Hvid]; [lia|].
  rewrite (nth_lookup_Some _ _ _ _ Hvid) in Hg, Hk. by exists vid, pk, vs.
Qed.
End quorum.

(** Two sets of indexes below [n] share at least their excess over [n]. *)
Lemma common_members (n : N) (s1 s2 : list N) :
  NoDup s1 -> NoDup s2 -> Forall (fun i => i < n) s1 -> Forall (fun i => i < n) s2 ->
  (length s1 + length s2 <= N.to_nat n + length (filter (fun i => i ∈ s2) s1))%nat.
Proof.
  intros H1 H2 F1 F2.
  assert (Hsplit : length s1 = (length (filter (fun i => i ∈ s2) s1) + length (filter (fun i => i ∉ s2) s1))%nat).
  { clear. induction s1 as [|x s1 IH]; [done|]. rewrite !filter_cons. repeat case_decide; cbn; try tauto; lia. }
  assert (Hle : (length (filter (fun i => i ∉ s2) s1 ++ s2) <= length (map N.of_nat (seq 0 (N.to_nat n))))%nat).
  { apply submseteq_length, NoDup_submseteq.
    - apply NoDup_app. split_and!; [by apply NoDup_filter| |done]. intros x [Hx _]%list_elem_of_filter. done.
    - intros x Hx. apply list_elem_of_fmap. exists (N.to_nat x). rewrite N2Nat.id. split; [done|].
      apply elem_of_seq. rewrite Forall_forall in F1, F2.
      assert (x < n); [|lia]. apply elem_of_app in Hx as [[_ Hx]%list_elem_of_filter|Hx]; auto. }
  rewrite length_app, length_map, length_seq in Hle. lia.
Qed.

(** ** Equivocation *)

Section slashing.
Context `{Crypto}.

(** The payload made of two votes convicts exactly when they equivocate. *)
Lemma slashPayload_exact va vb st vid :
  Vote.wf va -> Vote.wf vb ->
  verifyEquivocationProof (encodeSlashPayload (encodeVote va) (encodeVote vb)) [] st = Some vid <->
  vid = Vote.signer_id va /\ equivocation va vb st.
Proof.
  intros Ha Hb. pose proof (length_encodeVote va (Vote.wf_signature va Ha)) as La.
  pose proof (length_encodeVote vb (Vote.wf_signature vb Hb)) as Lb. unfold encodeSlashPayload.
  edestruct (verifyEquivocationProof_votes (encodeVote va ++ encodeVote vb) st va vb) as [[E Hq]|[E Hq]].
  - rewrite length_app. lia.
  - rewrite take_app_length' by done. by apply decode_encodeVote.
  - rewrite drop_app_length' by done. by apply decode_encodeVote.
  - rewrite E. naive_solver.
  - rewrite E. naive_solver.
Qed.

Lemma commitVote_wf block vid i vs :
  BlockHeader.height (Block.header block) < w64 ->
  wf_hash (Block.hash block) -> vid < w64 -> ValidatorSignature.wf vs ->
  ValidatorSignature.signer_index vs = i -> Vote.wf (commitVote block vid i (ValidatorSignature.signature vs)).
Proof. intros Hh Hw Hv [Hi Hs] <-. pose proof (u32_lt (BlockHeader.commit_round (Block.header block))). by split. Qed.
End slashing.

(** Two blocks of one height and round that differ, as a set of validators may
    be shown them. *)
Record conflicting `{Crypto} (active_set : list N) (b1 b2 : Block.t) : Prop := {
  cf_height : BlockHeader.height (Block.header b1) = BlockHeader.height (Block.header b2);
  cf_round : BlockHeader.commit_round (Block.header b1) = BlockHeader.commit_round (Block.header b2);
  cf_hash : Block.hash b1 <> Block.hash b2;
  cf_words : BlockHeader.height (Block.header b1) < w64;
  cf_hashes : wf_hash (Block.hash b1) /\ wf_hash (Block.hash b2);
  cf_sigs1 : Forall ValidatorSignature.wf (Block.quorum_signatures b1);
  cf_sigs2 : Forall ValidatorSignature.wf (Block.quorum_signatures b2);
  cf_set : active_set <> [] /\ NoDup active_set;
  cf_ids : Forall (fun vid => vid < w64 /\ vid <> INVALID_ID) active_set;
  cf_size : N.of_nat (length active_set) < 2 ^ 63;
}.

(** A member that signed both blocks is convicted by a slash payload. *)
Lemma double_signer_convicted `{Crypto} st active_set b1 b2 i :
  (forall r i, overshift r i = 0) -> conflicting active_set b1 b2 -> signed st b1 active_set i -> signed st b2 active_set i ->
  exists vid payload, active_set !! N.to_nat i = Some vid /\
    verifyEquivocationProof payload [] st = Some vid.
Proof.
  intros Hz [Hh Hr Hne Hw1 [Hf1 Hf2] Hs1 Hs2 _ Hids _] (vid & pk & v1 & Hl & Hg & Hk & Hin1 & Hi1 & E1)
    (vid' & pk' & v2 & Hl' & _ & Hk' & Hin2 & Hi2 & E2).
  assert (vid' = vid) as -> by congruence. rewrite Forall_forall in Hids.
  rewrite Forall_forall in Hs1. rewrite Forall_forall in Hs2.
  destruct (Hids vid) as [Hvw Hvn]; [by eapply list_elem_of_lookup_2|].
  assert (pk' = pk) as -> by (rewrite Hh, Hk' in Hk; congruence).
  set (va := commitVote b1 vid i (ValidatorSignature.signature v1)).
  set (vb := commitVote b2 vid i (ValidatorSignature.signature v2)).
  exists vid, (encodeSlashPayload (encodeVote va) (encodeVote vb)). split; [done|].
  apply slashPayload_exact; [by apply commitVote_wf; auto|apply commitVote_wf; auto; congruence|].
  split; [done|]. split; cbn; try done; [by rewrite Hr|by right; right|congruence|]. exists pk.
  rewrite !local_hash_agrees by (done || apply u32_lt). unfold voteSigningHash in *. by rewrite !u32_u32.
Qed.

(** C9: accountable safety.  If two different blocks of one height and round
    both pass the quorum check against the same active set, then more than a
    third of the set ([f + 1] distinct members) signed both, and for each of
    them there is a slash payload that the equivocation check accepts.  The
    compiled shifts of a round past its width must give zeros: the signatures are
    over the 32-bit derivation of the hash, the conviction is by the 64-bit one. *)
Theorem quorum_accountability `{Crypto} (st : State) (active_set : list N) (b1 b2 : Block.t) :
  (forall r i, overshift r i = 0) -> conflicting active_set b1 b2 ->
  checkQuorum st b1 active_set = None -> checkQuorum st b2 active_set = None ->
  exists culprits, NoDup culprits /\ culprits ⊆ active_set /\
    ((length active_set - 1) / 3 < length culprits)%nat /\
    forall vid, vid ∈ culprits -> exists payload, verifyEquivocationProof payload [] st = Some vid.
Proof.
  intros Hz Hcf (s1 & N1 & Q1 & F1)%checkQuorum_ok (s2 & N2 & Q2 & F2)%checkQuorum_ok.
  set (n := N.of_nat (length active_set)) in *. destruct (cf_set _ _ _ Hcf) as [Hne Hnd].
  assert (Hn : 0 < n < 2 ^ 63).
  { split; [destruct active_set; [done|unfold n; cbn; lia]|apply Hcf]. }
  pose proof (quorums_overlap n Hn) as Hov.
  pose proof (common_members n s1 s2 N1 N2 (Forall_impl _ (fun i => i < n) _ F1 (fun i => @proj1 _ _))
    (Forall_impl _ (fun i => i < n) _ F2 (fun i => @proj1 _ _))) as Hcom.
  set (common := filter (fun i => i ∈ s2) s1) in *. rewrite Forall_forall in F1.
  rewrite Forall_forall in F2.
  assert (Hc : forall i, i ∈ common -> exists vid payload, active_set !! N.to_nat i = Some vid /\
    verifyEquivocationProof payload [] st = Some vid).
  { intros i [Hi2 Hi1]%list_elem_of_filter. destruct (F1 i Hi1) as (_ & _ & S1), (F2 i Hi2) as (_ & _ & S2).
    by eapply double_signer_convicted. }
  exists (map (fun i => nth (N.to_nat i) active_set 0) common). split_and!.
  - apply NoDup_fmap_2_strong; [|by apply NoDup_filter]. intros i j Hi Hj E.
    destruct (Hc i Hi) as (v1 & _ & L1 & _), (Hc j Hj) as (v2 & _ & L2 & _).
    rewrite (nth_lookup_Some _ _ _ _ L1), (nth_lookup_Some _ _ _ _ L2) in E. subst v2.
    apply N2Nat.inj. by eapply NoDup_lookup.
  - intros vid (i & -> & Hi)%list_elem_of_fmap. destruct (Hc i Hi) as (v & _ & L & _).
    rewrite (nth_lookup_Some _ _ _ _ L). by eapply list_elem_of_lookup_2.
  - rewrite length_map. apply Nat.lt_le_trans with (N.to_nat ((n - 1) / 3 + 1)); [|lia].
    rewrite N2Nat.inj_add, N2Nat.inj_div, N2Nat.inj_sub. unfold n. rewrite Nat2N.id.
    change (N.to_nat 1) with 1%nat. change (N.to_nat 3) with 3%nat. lia.
  - intros vid (i & -> & Hi)%list_elem_of_fmap. destruct (Hc i Hi) as (v & payload & L & E).
    rewrite (nth_lookup_Some _ _ _ _ L). by exists payload.
Qed.

(** Two proposals for height 100 that differ in the state root, both signed by
    members 0, 1 and 2. *)
Definition proposal (state_root : Hash) (signers : list N) : Block.t :=
  Block.mk
    (BlockHeader.mk CURRENT_BLOCK_VERSION 1 100 11 1767225700000 101 1 1 0 0 [] 0 state_root 0 0 0 0 10 1 4)
    [] (map (fun i => ValidatorSignature.mk i (replicate 64 4)) signers) committee.

Lemma quorum_accountability_witness :
  exists culprits, NoDup culprits /\ culprits ⊆ committee /\ (1 < length culprits)%nat.
Proof.
  destruct (@quorum_accountability mixing staffed committee (proposal 98 [0; 1; 2]) (proposal 99 [1; 2; 3]))
    as (culprits & Hnd & Hsub & Hlen & _).
  - reflexivity.
  - constructor.
    + reflexivity.
    + reflexivity.
    + vm_compute. discriminate.
    + reflexivity.
    + split; vm_compute; reflexivity.
    + repeat constructor.
    + repeat constructor.
    + split; [discriminate|]. apply (bool_decide_unpack _). vm_compute. exact I.
    + repeat constructor; discriminate.
    + reflexivity.
  - vm_compute. reflexivity.
  - vm_compute. reflexivity.
  - exists culprits. split; [exact Hnd|]. split; [exact Hsub|]. exact Hlen.
Defined.

(** C32: slash payloads.  Whatever bytes are submitted, the check convicts only
    a signer for whom they hold two decoded votes of one height and round, with
    different values, both signed under the signer's key of that height; and
    the payload built from any two such votes convicts. *)
Theorem equivocation_proof_exact `{Crypto} (st : State) :
  (forall payload vid, verifyEquivocationProof payload [] st = Some vid ->
     exists va vb, decodeVote (take VOTE_WIRE_SIZE payload) = Some va /\
       decodeVote (drop VOTE_WIRE_SIZE payload) = Some vb /\
       Vote.signer_id va = vid /\ equivocation va vb st) /\
  (forall va vb, Vote.wf va -> Vote.wf vb -> equivocation va vb st ->
     verifyEquivocationProof (encodeSlashPayload (encodeVote va) (encodeVote vb)) [] st =
     Some (Vote.signer_id va)).
Proof.
  split.
  - intros payload vid E. assert (Hl : length payload = (2 * VOTE_WIRE_SIZE)%nat).
    { destruct (Nat.eqb_spec (length payload) (2 * VOTE_WIRE_SIZE)) as [|Hne]; [done|].
      unfold verifyEquivocationProof in E. by rewrite (proj2 (Nat.eqb_neq _ _) Hne) in E. }
    destruct (decodeVote (take VOTE_WIRE_SIZE payload)) as [va|] eqn:Ea.
    2:{ unfold verifyEquivocationProof in E. by rewrite (proj2 (Nat.eqb_eq _ _) Hl), Ea in E. }
    destruct (decodeVote (drop VOTE_WIRE_SIZE payload)) as [vb|] eqn:Eb.
    2:{ unfold verifyEquivocationProof in E. by rewrite (proj2 (Nat.eqb_eq _ _) Hl), Ea, Eb in E. }
    exists va, vb. destruct (verifyEquivocationProof_votes payload st va vb Hl Ea Eb) as [[E' Hq]|[E' _]];
      [|congruence]. split_and!; try done. congruence.
  - intros va vb Ha Hb Hq. by apply slashPayload_exact.
Qed.

Definition voteFor (block_hash : Hash) : Vote.t := Vote.mk 100 0 0 1 false block_hash (replicate 64 4).

Lemma equivocation_proof_exact_witness :
  verifyEquivocationProof (encodeSlashPayload (encodeVote (voteFor 5)) (encodeVote (voteFor 6))) [] staffed =
  Some 1.
Proof.
  destruct (equivocation_proof_exact staffed) as [_ Hc].
  apply (Hc (voteFor 5) (voteFor 6)).
  - constructor; reflexivity.
  - constructor; reflexivity.
  - constructor; try reflexivity.
    + split; [reflexivity|discriminate].
    + right. right. reflexivity.
    + discriminate.
    + vm_compute. eexists. reflexivity.
    + eexists. split; [vm_compute; reflexivity|]. split; reflexivity.
Defined.

(** Timeout certificates.  A certificate that verifies is for a round at or
    past the emergency threshold and carries valid signatures over its height
    and round by more than a third of the committed set: [f + 1] distinct
    members, each with the key the lookup gives. *)
Theorem certificate_sound `{Crypto} (committed_set : list N) (h r : N)
    (lookup : N -> option ValidatorInfo.t) (votes : list TimeoutVote.t) :
  verifyTimeoutCertificate committed_set h r lookup votes = true ->
  EMERGENCY_ROTATION_ROUNDS <= r /\ (4 <= length committed_set)%nat /\
  exists members : list N, NoDup members /\
    ((length committed_set - 1) / 3 < length members)%nat /\
    Forall (attests committed_set h r lookup votes) members.
Proof.
  unfold verifyTimeoutCertificate. destruct (Nat.ltb_spec (length committed_set) 4); [done|].
  destruct (N.ltb_spec r EMERGENCY_ROTATION_ROUNDS); [done|]. case_match; [done|].
  destruct (countTimeoutVotes _ _ _ _ _ _ _) as [seen|] eqn:E; [|done].
  intros Hlen%Nat.leb_le. split_and!; [done|lia|].
  apply (countTimeoutVotes_sound _ _ _ _ _ votes) in E as [Hnd Hall]; [|done|constructor|constructor].
  exists seen. split_and!; [done|lia|done].
Qed.

(** Members 0 and 2 of the committee time out round 31 at height 100. *)
Definition timeoutVotes : list TimeoutVote.t :=
  [TimeoutVote.mk 100 31 0 INVALID_ID (replicate 64 3); TimeoutVote.mk 100 31 2 INVALID_ID (replicate 64 3)].

Lemma certificate_sound_witness :
  exists members, NoDup members /\ (1 < length members)%nat /\
    Forall (attests committee 100 31 (validatorAtHeight staffed 100) timeoutVotes) members.
Proof.
  destruct (certificate_sound committee 100 31 (validatorAtHeight staffed 100) timeoutVotes)
    as (_ & _ & members & Hnd & Hlen & Hall).
  - vm_compute. reflexivity.
  - exists members. split; [exact Hnd|]. split; [exact Hlen|exact Hall].
Defined.

(** ** Acceptance *)

(** What the header of an accepted block commits to.  The receipts are committed
    to only by a header whose root is not null: a null root is not compared with
    anything, however many receipts there are.  The same holds of the epoch
    fills' root, but a null root there is accepted only without fills. *)
Record committed `{Crypto} `{StdSort} (stateRoot : State -> Hash) (block : Block.t) (r : BlockResult)
    (active_set : list N) (bs' : BlockStore) : Prop := {
  cm_header : BlockHeader.isWellFormed (Block.header block) = true;
  cm_txs : BlockHeader.tx_root (Block.header block) = computeTxRoot (Block.transactions block);
  cm_set : BlockHeader.validator_set_root (Block.header block) = computeValidatorSetRoot active_set;
  cm_state : 0 < BlockHeader.height (Block.header block) ->
    BlockHeader.state_root (Block.header block) = stateRoot (store bs');
  cm_receipts : BlockHeader.receipts_root (Block.header block) = 0 \/
    BlockHeader.receipts_root (Block.header block) = computeReceiptsRoot (tx_hashes r) (receipts r);
  cm_fills : BlockHeader.epoch_fills_root (Block.header block) = computeEpochFillsRoot (epoch_fills r);
  cm_success : Forall (fun r => Receipt.status r = ReceiptStatus.Success) (receipts r) /\
    tx_hashes r = map TransactionCodec.signingHash (Block.transactions block);
}.

Lemma isNull_eq x : isNull x = true <-> x = 0.
Proof. unfold isNull. apply N.eqb_eq. Qed.

Lemma isNull_ne x : isNull x = false <-> x <> 0.
Proof. unfold isNull. apply N.eqb_neq. Qed.

Lemma wellFormed_state_root h :
  BlockHeader.isWellFormed h = true -> 0 < BlockHeader.height h -> BlockHeader.state_root h <> 0.
Proof.
  intros Hw Hh. rewrite <- isNull_ne. unfold BlockHeader.isWellFormed in Hw.
  rewrite (proj2 (N.ltb_lt _ _) Hh) in Hw. cbn [andb] in Hw. repeat case_match; done.
Qed.

(** The active set a block is checked against. *)
Definition setFor `{StdSort} (block : Block.t) (ctx : BlockContext.t) (st : State) : list N :=
  if 0 <? BlockHeader.emergency_rotation (Block.header block)
  then resolveActiveSet st (loadActiveSet st) (BlockContext.current_height ctx) true
  else loadActiveSet st.

Lemma checkBlock_ok `{Crypto} `{StdSort} block ctx now st active_set :
  BlockContext.dry_run ctx = false -> checkBlock block ctx now st = inr active_set ->
  active_set = setFor block ctx st /\
  BlockHeader.isWellFormed (Block.header block) = true /\
  BlockHeader.height (Block.header block) = BlockContext.current_height ctx /\
  BlockHeader.chain_id (Block.header block) = BlockContext.chain_id ctx /\
  checkTxRoot block = None /\ checkQuorum st block active_set = None /\
  checkValidatorSetRoot block active_set = None /\
  (0 < BlockHeader.emergency_rotation (Block.header block) ->
   checkTimeoutCertificate st block (loadActiveSet st) (BlockContext.current_height ctx) = None).
Proof.
  intros Hd. unfold checkBlock. fold (setFor block ctx st).
  destruct (andThen _ _) eqn:E; [done|]. intros [= <-].
  rewrite !andThen_none, failIf_none, Hd in E. destruct E as (Hh & Ht & Hc & _ & Hq & Hs).
  unfold checkHeader in Hh. rewrite !andThen_none, !failIf_none, Hd in Hh.
  destruct Hh as (Hw & Hch & Hhe & _). cbn [negb andb] in Hw.
  rewrite negb_false_iff in Hw. rewrite negb_false_iff, N.eqb_eq in Hch. rewrite negb_false_iff, N.eqb_eq in Hhe.
  split_and!; try done. intros He. by rewrite (proj2 (N.ltb_lt _ _) He) in Hc.
Qed.

Lemma checkCommitments_ok `{Crypto} block ctx r :
  BlockContext.dry_run ctx = false -> checkCommitments block ctx r = None ->
  let h := Block.header block in
  (BlockHeader.state_root h <> 0 -> BlockHeader.state_root h = new_state_root r) /\
  (BlockHeader.receipts_root h <> 0 ->
   BlockHeader.receipts_root h = computeReceiptsRoot (tx_hashes r) (receipts r)) /\
  BlockHeader.epoch_fills_root h = computeEpochFillsRoot (epoch_fills r).
Proof.
  intros Hd. unfold checkCommitments. rewrite !andThen_none, failIf_none, Hd. cbn [orb].
  intros (Hs & Hr & Hf). cbn zeta. split_and!.
  - intros Hn%isNull_ne. rewrite Hn in Hs. cbn in Hs. by rewrite negb_false_iff, N.eqb_eq in Hs.
  - intros Hn%isNull_ne. rewrite Hn in Hr. unfold verifyReceiptsRoot in Hr.
    rewrite andThen_none, !failIf_none, !negb_false_iff, N.eqb_eq in Hr. by destruct Hr as [_ ->].
  - destruct (isNull (BlockHeader.epoch_fills_root (Block.header block))) eqn:En; cbn in Hf.
    + rewrite failIf_none, negb_false_iff, bool_decide_eq_true in Hf. rewrite Hf. by apply isNull_eq.
    + unfold verifyEpochFillsRoot in Hf. by rewrite failIf_none, negb_false_iff, N.eqb_eq in Hf.
Qed.

(** C31: acceptance.  When a block is applied (not simulated) and accepted, its
    header is well formed and commits to its transactions, to the active set it
    was checked against, to the state root after it (past genesis) and to its
    epoch fills; its receipts root is null, which is accepted whatever the
    receipts are, or is the root of its receipts; every transaction succeeded; a
    quorum of distinct members signed it; and an emergency block carries a
    timeout certificate that verifies against the committed set. *)
Theorem accepted_block_committed `{Crypto} `{StdSort} (stateRoot : State -> Hash) (block : Block.t)
    (ctx : BlockContext.t) (now : N) (bs bs' : BlockStore) (r : BlockResult) :
  BlockContext.dry_run ctx = false -> applyBlock stateRoot block ctx now bs = (inr r, bs') ->
  let active_set := setFor block ctx (store bs) in
  committed stateRoot block r active_set bs' /\
  (exists signers, NoDup signers /\
     bftQuorum (N.of_nat (length active_set)) <= N.of_nat (length signers) /\
     Forall (signed (store bs) block active_set) signers) /\
  (0 < BlockHeader.emergency_rotation (Block.header block) ->
   verifyTimeoutCertificate (loadActiveSet (store bs)) (BlockContext.current_height ctx)
     (u32 (BlockHeader.emergency_rotation (Block.header block)))
     (validatorAtHeight (store bs) (BlockContext.current_height ctx))
     (BlockHeader.timeout_certificate (Block.header block)) = true).
Proof.
  intros Hd (active & rs & st & fills & Hck & Ht & _ & Hr & Hcm)%applyBlock_inv. cbn zeta.
  destruct (checkBlock_ok _ _ _ _ _ Hd Hck) as (-> & Hw & _ & _ & Htx & Hq & Hv & Hcert).
  destruct (checkCommitments_ok _ _ _ Hd Hcm) as (Hs & Hre & Hf).
  destruct (applyTransactions_run _ _ _ _ _ _ Ht) as (_ & _ & Hh & Hok).
  unfold checkTxRoot in Htx. unfold checkValidatorSetRoot in Hv.
  rewrite failIf_none, negb_false_iff, N.eqb_eq in Htx, Hv. subst r. split_and!.
  - split; try done.
    + intros Hpos. by apply Hs, wellFormed_state_root.
    + destruct (N.eq_dec (BlockHeader.receipts_root (Block.header block)) 0); [by left|]. right. by apply Hre.
    + cbn. split; [|done]. rewrite Forall_map. exact Hok.
  - apply checkQuorum_ok in Hq as (signers & Hnd & Hlen & Hall). exists signers. split_and!; try done.
    eapply Forall_impl; [exact Hall|]. naive_solver.
  - intros He%Hcert. unfold checkTimeoutCertificate in He. by rewrite failIf_none, negb_false_iff in He.
Qed.

Lemma accepted_block_committed_witness :
  exists signers, NoDup signers /\ 3 <= N.of_nat (length signers) /\
    Forall (signed staffed payBlock committee) signers.
Proof.
  destruct payBlock_ok as [r E].
  destruct (accepted_block_committed (fun _ => 99) payBlock blockCtx 1767225700000 (sampleStore staffed) paid r
    eq_refl E) as (_ & (signers & Hnd & Hlen & Hall) & _).
  assert (Hset : setFor payBlock blockCtx (store (sampleStore staffed)) = committee) by (vm_compute; reflexivity).
  rewrite Hset in Hlen, Hall. exists signers. split; [exact Hnd|]. split; [exact Hlen|exact Hall].
Defined.

(** A block with a receipt and a null receipts root is accepted. *)
Example null_receipts_root_accepted :
  BlockHeader.receipts_root (Block.header payBlock) = 0 /\
  match fst (applyBlock (fun _ => 99) payBlock blockCtx 1767225700000 (sampleStore staffed)) with
  | inr r => length (receipts r) = 1%nat
  | inl _ => False
  end.
Proof. vm_compute. split; reflexivity. Qed.

(** ** The wire *)

(** A vote of validator 5: the block received has lost the id. *)
Lemma Block_roundtrip_witness :
  Block.deserialize (Block.serialize (wireBlock 5)) = Some (wireBlock INVALID_ID).
Proof.
  refine (proj1 (Block_roundtrip (wireBlock 5) _)). split; cbn; try lia.
  - split; cbn; try reflexivity; [|lia]. repeat constructor.
  - repeat constructor.
  - repeat constructor.
  - repeat constructor.
Defined.

(** ** Transaction roots *)

(** The bytes hashed for a transaction's id. *)
Definition txSignInput (tx : Transaction.t) : bytes :=
  ascii_bytes TransactionCodec.TX_DOMAIN ++ TransactionCodec.serializeForSigning tx.

Lemma leaves_bind `{Crypto} (inputs : list bytes) (Hwf : forall b, wf_hash (blake2b b)) txs1 : forall txs2,
  collisionFreeOn inputs ->
  (forall tx, tx ∈ txs1 ++ txs2 -> txSignInput tx ∈ inputs /\ txLeafInput tx ∈ inputs) ->
  map (fun tx => blake2b (txLeafInput tx)) txs1 = map (fun tx => blake2b (txLeafInput tx)) txs2 ->
  map TransactionCodec.serializeForSigning txs1 = map TransactionCodec.serializeForSigning txs2.
Proof.
  induction txs1 as [|a txs1 IH]; intros [|b txs2] Hcf Hin Hl; try done. cbn [map] in *.
  injection Hl as Ha Hl. destruct (Hin a ltac:(set_solver)) as [Sa La], (Hin b ltac:(set_solver)) as [Sb Lb].
  apply Hcf in Ha; [|done|done]. unfold txLeafInput in Ha. apply app_inv_head in Ha.
  apply (be_split_inj 32) in Ha; [|apply Hwf|apply Hwf].
  apply Hcf in Ha; [|done|done]. apply app_inv_head in Ha. f_equal; [done|].
  apply IH; [done| |done]. intros tx Htx. apply Hin. set_solver.
Qed.

(** A transaction root binds the transactions.  Two lists of the same
    number of transactions with the same root sign the same bytes, one by one,
    unless two different strings among those hashed for the two roots have the
    same digest. *)
Theorem tx_root_binds `{Crypto} (txs1 txs2 : list Transaction.t) :
  (forall b, wf_hash (blake2b b)) -> length txs1 = length txs2 ->
  collisionFreeOn (txRootInputs txs1 ++ txRootInputs txs2) ->
  computeTxRoot txs1 = computeTxRoot txs2 ->
  map TransactionCodec.serializeForSigning txs1 = map TransactionCodec.serializeForSigning txs2.
Proof.
  intros Hwf Hlen Hcf E. destruct txs1 as [|t1 l1] eqn:E1, txs2 as [|t2 l2] eqn:E2; try done.
  rewrite <- E1, <- E2 in *.
  set (leaves := map (fun tx => blake2b (txLeafInput tx))).
  assert (Hends : forall txs, txs <> [] -> exists r, merkleLoop (length (leaves txs)) (leaves txs) = Some r).
  { intros txs Hne. apply merkleLoop_ends; [|done]. by destruct txs. }
  destruct (Hends txs1) as [r1 M1]; [by rewrite E1|]. destruct (Hends txs2) as [r2 M2]; [by rewrite E2|].
  unfold computeTxRoot, computeMerkleRoot in E. fold (leaves txs1) (leaves txs2) in E.
  rewrite M1, M2 in E. cbn in E. subst r2.
  assert (Hll : forall txs, length (leaves txs) = length txs) by (intros; apply length_map).
  rewrite Hll in M1, M2. rewrite <- Hlen in M2.
  assert (Hw : forall txs, Forall wf_hash (leaves txs)) by (intros; apply Forall_map, Forall_true; auto).
  assert (Hleaves : leaves txs1 = leaves txs2).
  { eapply (merkleLoop_inj Hwf (length txs1)); [by rewrite !Hll|apply Hw|apply Hw| |exact M1|exact M2].
    intros x y Hx Hy. apply Hcf; unfold txRootInputs; fold (leaves txs1) (leaves txs2); rewrite <- ?Hlen; set_solver. }
  apply (leaves_bind (txRootInputs txs1 ++ txRootInputs txs2)); try done.
  intros tx Htx. unfold txRootInputs. fold (leaves txs1) (leaves txs2).
  apply elem_of_app in Htx as [Htx|Htx]; (split; rewrite !elem_of_app).
  - left. left. by apply (list_elem_of_fmap_2 txSignInput).
  - left. right. left. by apply (list_elem_of_fmap_2 txLeafInput).
  - right. left. by apply (list_elem_of_fmap_2 txSignInput).
  - right. right. left. by apply (list_elem_of_fmap_2 txLeafInput).
Qed.

Lemma mixing_wf b : wf_hash (@blake2b mixing b).
Proof.
  unfold wf_hash. cbn [blake2b mixing]. apply N.lt_trans with (2 ^ 64); [|reflexivity].
  enough (Hg : forall h, h < 2 ^ 64 ->
    foldl (fun h x => N.land (h * 37 + x + 1) (N.ones 64)) h b < 2 ^ 64) by (by apply Hg).
  induction b as [|x b IH]; intros h Hh; [done|]. cbn [foldl]. apply IH. rewrite N.land_ones. by apply N.mod_lt.
Qed.

(** The payment under another signature. *)
Definition resigned : Transaction.t :=
  Transaction.mk CURRENT_TRANSACTION_VERSION 1 TxType.Transfer 0 0 alice bob NATIVE_TOKEN_ID 500000 10 []
    (replicate 64 9).

Lemma tx_root_binds_witness :
  map TransactionCodec.serializeForSigning [pay; offer; swapTx] =
  map TransactionCodec.serializeForSigning [resigned; offer; swapTx].
Proof.
  apply (@tx_root_binds mixing).
  - exact mixing_wf.
  - reflexivity.
  - apply distinctDigests_ok. vm_compute. reflexivity.
  - vm_compute. reflexivity.
Defined.

(** ** The offline check *)

(** The registry the offline check builds holds active members only, so its plan
    never promotes a waiting validator: the set only shrinks. *)
Lemma offline_check_only_removes `{StdSort} active_set st h :
  (forall vid v, vid ∈ active_set -> getValidator vid st = Some v -> ValidatorInfo.is_active v = true) ->
  promoted (planOfflineRemoval (activeRegistry active_set st) h) = [].
Proof.
  intros Hact. unfold planOfflineRemoval. destruct (offlineMembers _ h) as [|g gone]; [done|]. cbn [promoted].
  assert (Hnone : forall v, v ∈ rg_validators (activeRegistry active_set st) -> addable v = false).
  { intros v Hv. unfold activeRegistry in Hv. cbn [rg_validators] in Hv. unfold addable.
    apply elem_of_cons in Hv as [->|(vid & Hvid & Hg)%list_elem_of_omap]; [done|].
    rewrite (Hact vid v Hvid Hg). by rewrite andb_false_r. }
  match goal with |- context [std_sort additionOrder ?l] => assert (El : l = []) end.
  { apply elem_of_nil_inv. intros v [[Ha _] Hv]%list_elem_of_filter. by rewrite Hnone in Ha. }
  rewrite El. pose proof (std_sort_perm additionOrder (@nil ValidatorInfo.t)) as Hp.
  apply Permutation_nil_r in Hp. rewrite Hp. by destruct (length (g :: gone)).
Qed.
