(* ===== verification/Bft.v ===== *)
(** * The consensus engine

    [Consensus::BftConsensus] (Consensus/BftConsensus.cpp): rounds of propose,
    prevote and precommit, locks, vote collection, commit, timeouts, round skips,
    buffers and the replay of the write-ahead log.  The engine is one object
    behind one mutex; every public method is a transition of [Node].

    What the node supplies ([Dependencies] and the callbacks that answer) is the
    class [World], a value that changes when a block is applied; the write-ahead
    log is the class [WriteAheadLog].  Callbacks that only send are events.

    Two methods call each other without a bound the text shows: entering a round
    and entering its precommit step.  They take fuel; [Fail] is its end. *)

From S2P Require Import Prelude Types StateAccess Wire Codec Rotation Consensus Block BlockProcessor.


(** ** Messages (Consensus/Types.h, Message.cpp) *)

Module Step.
Inductive t := NewHeight | Propose | Prevote | Precommit | Commit.
#[global] Instance eq_dec : EqDecision t.
Proof. solve_decision. Defined.
End Step.

Module Proposal.
Record t := mk {
  height : N;
  round : N;
  signer_id : N;
  signer_index : N;
  block_hash : Hash;
  block_bytes : bytes;
  signature : bytes;
}.
End Proposal.

Definition MAX_BLOCK_BYTES_WIRE : N := 8 * 1024 * 1024.

Definition encodeProposal (p : Proposal.t) : bytes :=
  putU64 (Proposal.height p) ++ putU64 (Proposal.round p) ++ putU64 (Proposal.signer_id p) ++
  putU16 (Proposal.signer_index p) ++ putU32 (N.of_nat (length (Proposal.block_bytes p))) ++
  Proposal.block_bytes p ++ Proposal.signature p.

(** The hash is derived from the block; null when the block does not decode. *)
Definition parseProposal `{Crypto} : Rd Proposal.t :=
  height ← readU64; round ← readU64; signer_id ← readU64; signer_index ← readU16;
  bs ← readU32; checkOk;; require (bs <=? MAX_BLOCK_BYTES_WIRE);;
  left ← remaining; require (N.to_nat bs + 64 <=? left)%nat;;
  block_bytes ← readVector (N.to_nat bs); signature ← readVector 64;
  checkOk;;
  let block_hash := match Block.deserialize block_bytes with Some b => Block.hash b | None => 0 end in
  mret (Proposal.mk height (u32 round) signer_id signer_index block_hash block_bytes signature).

Definition decodeProposal `{Crypto} (data : bytes) : option Proposal.t := decode parseProposal data.

Definition proposalSigningHash `{Crypto} (height round : N) (block_hash : Hash) : Hash :=
  hashDomain "CLRTY_PROPOSAL_V1" (le_split 8 height ++ roundBytes (u32 round) ++ be_split 32 block_hash).

Module EquivocationEvidence.
Record t := mk { vote_a : Vote.t; vote_b : Vote.t; signer_id : N }.

Definition isValid (e : t) : bool :=
  let a := vote_a e in
  let b := vote_b e in
  (Vote.height a =? Vote.height b) && (Vote.round a =? Vote.round b) &&
  (Vote.signer_id a =? Vote.signer_id b) && negb (Vote.signer_id a =? INVALID_ID) &&
  ((signer_id e =? INVALID_ID) || (signer_id e =? Vote.signer_id a)) &&
  negb (Bool.eqb (Vote.is_nil a) (Vote.is_nil b) && (Vote.block_hash a =? Vote.block_hash b)).
End EquivocationEvidence.

(** [decodeSlashEvidence] (Core/EquivocationProof.cpp) *)
Definition decodeSlashEvidence (payload : bytes) : option EquivocationEvidence.t :=
  if negb (length payload =? 2 * VOTE_WIRE_SIZE)%nat then None
  else
    vote_a ← decodeVote (take VOTE_WIRE_SIZE payload);
    vote_b ← decodeVote (drop VOTE_WIRE_SIZE payload);
    Some (EquivocationEvidence.mk vote_a vote_b (Vote.signer_id vote_a)).

(** Proposer of a height and round (ProposerSelection.h) *)
Definition proposerIndex (height round active_size : N) : N :=
  if active_size =? 0 then 0 else (height +64 round) mod active_size.

Definition proposerFor (height round : N) (active_set : list N) : N :=
  match active_set with
  | [] => INVALID_ID
  | _ => nth (N.to_nat (proposerIndex height round (N.of_nat (length active_set)))) active_set INVALID_ID
  end.

(** Timeouts (Common/RoundTimer.h) *)
Definition BASE_TIMEOUT_MS : N := 5000.
Definition MAX_TIMEOUT_MS : N := 60000.

Definition timeoutForRound (round : N) : N :=
  let timeout := BASE_TIMEOUT_MS *64 (round +64 1) in
  if MAX_TIMEOUT_MS <? timeout then MAX_TIMEOUT_MS else timeout.

(** ** State *)

#[global] Instance eta_BlockHeader : Eta BlockHeader.t := fun h =>
  BlockHeader.mk (BlockHeader.version h) (BlockHeader.chain_id h) (BlockHeader.height h) (BlockHeader.parent_hash h)
    (BlockHeader.timestamp_ms h) (BlockHeader.proposer h) (BlockHeader.epoch h) (BlockHeader.rotation_index h)
    (BlockHeader.commit_round h) (BlockHeader.emergency_rotation h) (BlockHeader.timeout_certificate h)
    (BlockHeader.timeout_certificate_hash h) (BlockHeader.state_root h) (BlockHeader.tx_root h)
    (BlockHeader.receipts_root h) (BlockHeader.epoch_fills_root h) (BlockHeader.validator_set_root h)
    (BlockHeader.total_fees h) (BlockHeader.tx_count h) (BlockHeader.active_validator_count h).

#[global] Instance eta_Block : Eta Block.t := fun b =>
  Block.mk (Block.header b) (Block.transactions b) (Block.quorum_signatures b) (Block.participants b).

Definition MAX_EQUIVOCATION_EVIDENCE : nat := 256.
Definition MIN_BLOCK_INTERVAL_MS : N := 10000.
Definition MAX_FUTURE_ROUNDS : N := 64.
Definition MAX_PAST_ROUNDS : N := 64.
Definition MAX_FUTURE_VOTES_PER_ROUND : nat := 512.
Definition MAX_PENDING_VOTES : N := 4096.
Definition MAX_PENDING_PER_SIGNER : nat := 2.
Definition MAX_TIMEOUT_VOTES : N := 4096.
Definition MAX_TIMEOUT_VOTES_PER_SIGNER : nat := 64.
Definition MAX_PROPOSAL_SLACK_BYTES : N := 64 * 1024.
Definition MAX_SIMULATION_RETRIES : nat := 15.

(** A sum of two 32-bit rounds. *)
Definition addRound (a b : N) : N := u32 (a + b).

Abbreviation VoteMap := (gmap N Vote.t).
(** (height, round, is_precommit) *)
Abbreviation SignedKey := (N * N * bool)%type.

Record Engine := mkEngine {
  height : N;
  round : N;
  step : Step.t;
  running : bool;
  halted : bool;
  proposer : N;
  locked : bool;
  locked_hash : Hash;
  locked_round : N;
  valid_set : bool;
  valid_hash : Hash;
  valid_round : N;
  proposal : option Proposal.t;
  proposals_by_hash : gmap Hash Block.t;
  prevotes : VoteMap;
  precommits : VoteMap;
  past_precommits : gmap N VoteMap;
  signed_votes : gmap SignedKey Vote.t;
  round_timer : option N;                 (* the deadline, while it runs *)
  future_proposals : gmap N Proposal.t;
  pending_prevotes : list Vote.t;
  pending_precommits : list Vote.t;
  pending_height : option N;
  next_propose_not_before_ms : N;
  commit_block : option Block.t;
  commit_attempts : N;
  next_commit_attempt_ms : N;
  external_next_height : N;
  future_round_prevotes : gmap N VoteMap;
  future_round_precommits : gmap N VoteMap;
  future_height_prevotes : gmap N VoteMap;
  future_height_precommits : gmap N VoteMap;
  future_height_proposals : gmap N Proposal.t;
  proposal_for_round : gmap (N * N) Hash;
  equivocations : list EquivocationEvidence.t;
  timeout_votes : list TimeoutVote.t;
  round_hints : gmap N N;
  consecutive_timeouts : N;
}.

#[global] Instance eta_Engine : Eta Engine := fun e =>
  mkEngine (height e) (round e) (step e) (running e) (halted e) (proposer e) (locked e) (locked_hash e)
    (locked_round e) (valid_set e) (valid_hash e) (valid_round e) (proposal e) (proposals_by_hash e)
    (prevotes e) (precommits e) (past_precommits e) (signed_votes e) (round_timer e) (future_proposals e)
    (pending_prevotes e) (pending_precommits e) (pending_height e) (next_propose_not_before_ms e)
    (commit_block e) (commit_attempts e) (next_commit_attempt_ms e) (external_next_height e)
    (future_round_prevotes e) (future_round_precommits e) (future_height_prevotes e)
    (future_height_precommits e) (future_height_proposals e) (proposal_for_round e) (equivocations e)
    (timeout_votes e) (round_hints e) (consecutive_timeouts e).

(** The constructor's values. *)
Definition freshEngine : Engine :=
  mkEngine 0 0 Step.NewHeight false false INVALID_ID false 0 0 false 0 0 None ∅ ∅ ∅ ∅ ∅ None ∅ [] [] None 0
    None 0 0 0 ∅ ∅ ∅ ∅ ∅ ∅ [] [] ∅ 0.

(** ** The node around the engine *)

(** [simulate_block]: the root and epoch fills, or the transaction to blame
    (null when the block as a whole is at fault). *)
Inductive Simulation :=
| Simulated (state_root : Hash) (epoch_fills : list Fill.t)
| Rejected (failed_txid : Hash).

(** [Dependencies], [Config] and the callbacks that return a value.  A rejected
    simulation may drop a transaction from the mempool and an applied block
    changes the state, so both yield a new world. *)
Class World := {
  world : Type;
  my_validator_id : N;
  sign : Hash -> bytes;
  chain_id : N;
  active_set : world -> bool -> list N;
  state_lookup_validator : world -> N -> option ValidatorInfo.t;
  parent_hash : world -> Hash;
  my_address : world -> Address;
  simulate_block : world -> Block.t -> Simulation * world;
  now_ms : world -> N;
  steady_ms : world -> N;
  verify_slash_proof : world -> bytes -> bool;
  has_pending_work : world -> bool;
  wal_load_locked_block : world -> N -> option Block.t;
  select_transactions : world -> N -> N -> list Transaction.t;
  on_block_committed : world -> Block.t -> bool * world;
  max_block_bytes : N;
  max_block_txs : N;
  max_commit_retries : N;
  commit_retry_backoff_ms : N;
}.

(** What the log holds for a height, in replay order. *)
Inductive WalEntry :=
| VoteEntry (v : Vote.t) (is_precommit : bool)
| LockEntry (h r : N) (hash : Hash).

Class WriteAheadLog := {
  wal : Type;
  wal_append_vote : Vote.t -> bool -> wal -> wal;
  wal_append_lock : N -> N -> Hash -> wal -> wal;
  wal_replay : N -> wal -> list WalEntry;
  wal_truncate : N -> wal -> wal;
}.

(** What leaves the engine. *)
Inductive Event :=
| SignedVote (v : Vote.t) (is_precommit : bool)
| SentVote (v : Vote.t) (is_precommit : bool)
| SentProposal (p : Proposal.t)
| SentTimeoutVote (tv : TimeoutVote.t)
| StoredLockedBlock (h : N) (b : Block.t)
| Committed (b : Block.t) (applied : bool)
| HeightAdvanced (h : N)
| TruncatedLog (h : N)
| ConsensusHalted.

Record Node (W L : Type) := mkNode { engine : Engine; env : W; walog : L; events : list Event }.
Arguments mkNode {W L} _ _ _ _.
Arguments engine {W L} _.
Arguments env {W L} _.
Arguments walog {W L} _.
Arguments events {W L} _.
#[global] Instance eta_Node {W L} : Eta (Node W L) := fun n =>
  mkNode (engine n) (env n) (walog n) (events n).

Section engine.
Context {Cr : Crypto} {So : StdSort} {Wo : World} {Lo : WriteAheadLog} {Mo : MapOrder}.

Abbreviation node := (Node world wal).
Abbreviation Bft := (Exec node).

(** The engine's fields, the answers of the world, and the events. *)
Definition get {A} (f : Engine -> A) : Bft A := gets (fun n => f (engine n)).
Definition set (f : Engine -> Engine) : Bft unit := modify (fun n => n <| engine ::= f |>).
Definition ask {A} (f : world -> A) : Bft A := gets (fun n => f (env n)).
Definition emit (ev : Event) : Bft unit := modify (fun n => n <| events ::= cons ev |>).
Definition logged (f : wal -> wal) : Bft unit := modify (fun n => n <| walog ::= f |>).
Definition truncateLog (h : N) : Bft unit := emit (TruncatedLog h);; logged (wal_truncate h).

(** [height_ == h && round_ == r && step_ == s] *)
Definition isAt (h r : N) (s : Step.t) (e : Engine) : bool :=
  (height e =? h) && (round e =? r) && bool_decide (step e = s).

(** A loop over messages. *)
Fixpoint forEach {A} (f : A -> Bft unit) (l : list A) : Bft unit :=
  match l with [] => mret () | x :: l => f x;; forEach f l end.

Definition startTimer (r : N) : Bft unit :=
  now ← ask steady_ms;
  set (fun e => e <| round_timer := Some (now + timeoutForRound r) |>).

Definition isExpired (w : world) (e : Engine) : bool :=
  match round_timer e with Some deadline => deadline <=? steady_ms w | None => false end.

(** ** Set resolution *)

Definition roundUsesEmergencySet (e : Engine) (h r : N) : bool :=
  match proposal_for_round e !! (h, r) with
  | None => false
  | Some hash =>
    match proposals_by_hash e !! hash with
    | None => false
    | Some b => 0 <? BlockHeader.emergency_rotation (Block.header b)
    end
  end.

Definition isEmergency (b : Block.t) : bool := 0 <? BlockHeader.emergency_rotation (Block.header b).

Definition roundUsesEmergencySetForVote (e : Engine) (v : Vote.t) : bool :=
  match (if negb (Vote.is_nil v) && negb (isNull (Vote.block_hash v))
         then proposals_by_hash e !! Vote.block_hash v else None) with
  | Some b => isEmergency b
  | None => roundUsesEmergencySet e (Vote.height v) (Vote.round v)
  end.

Definition useEmergencySet (e : Engine) : bool := EMERGENCY_ROTATION_ROUNDS <=? consecutive_timeouts e.

Definition stepAtLeastPrevote (e : Engine) : bool :=
  match step e with Step.Prevote | Step.Precommit | Step.Commit => true | _ => false end.

(** The position of an id in a list, if it occurs. *)
Fixpoint positionOf (id : N) (i : N) (l : list N) : option N :=
  match l with [] => None | x :: l => if x =? id then Some i else positionOf id (i + 1) l end.

Definition indexInSet (w : world) (id : N) (emergency : bool) : N :=
  if id =? INVALID_ID then INVALID_INDEX
  else match positionOf id 0 (active_set w emergency) with
       | Some i => u16 i
       | None => INVALID_INDEX
       end.

Definition resolveConsensusKey (w : world) (idx : N) (emergency : bool) : option PublicKey :=
  vid ← active_set w emergency !! N.to_nat idx;
  v ← state_lookup_validator w vid;
  Some (ValidatorInfo.effectiveConsensusKey v).

(** ** Resets *)

Definition resetForNewHeight (h : N) (e : Engine) : Engine :=
  e <| height := h |> <| round := 0 |> <| step := Step.NewHeight |> <| consecutive_timeouts := 0 |>
    <| locked := false |> <| locked_hash := 0 |> <| locked_round := 0 |>
    <| valid_set := false |> <| valid_hash := 0 |> <| valid_round := 0 |>
    <| proposal := None |> <| proposals_by_hash := ∅ |> <| prevotes := ∅ |> <| precommits := ∅ |>
    <| past_precommits := ∅ |> <| signed_votes := ∅ |>
    <| pending_prevotes := [] |> <| pending_precommits := [] |>
    <| future_proposals := ∅ |> <| future_round_prevotes := ∅ |> <| future_round_precommits := ∅ |>
    <| proposal_for_round := ∅ |> <| timeout_votes := [] |> <| round_hints := ∅ |>
    <| commit_block := None |> <| commit_attempts := 0 |> <| next_commit_attempt_ms := 0 |>
    <| next_propose_not_before_ms := 0 |>.

(** The lowest key: [begin()] of a [std::map]. *)
Definition lowestKey {V} (m : gmap N V) : option N :=
  foldr (fun kv o => Some (match o with Some k => N.min (fst kv) k | None => fst kv end)) None (map_to_list m).

(** [while (m.size() > MAX_PAST_ROUNDS) m.erase(m.begin());] *)
Fixpoint trimPast (n : nat) (m : gmap N VoteMap) : gmap N VoteMap :=
  match n with
  | O => m
  | S n =>
    if MAX_PAST_ROUNDS <? N.of_nat (size m) then
      match lowestKey m with Some k => trimPast n (delete k m) | None => m end
    else m
  end.

Definition resetForNewRound (r : N) (e : Engine) : Engine :=
  let past :=
    if bool_decide (precommits e = ∅) then past_precommits e
    else
      let bucket := default ∅ (past_precommits e !! round e) in
      let past := <[round e := bucket ∪ precommits e]> (past_precommits e) in
      trimPast (size past) past in
  let recent {V} (m : gmap N V) : gmap N V := filter (fun kv => r <= fst kv) m in
  e <| past_precommits := past |> <| round := r |> <| proposal := None |>
    <| prevotes := ∅ |> <| precommits := ∅ |> <| pending_prevotes := [] |> <| pending_precommits := [] |>
    <| future_proposals ::= recent |> <| future_round_prevotes ::= recent |>
    <| future_round_precommits ::= recent |>.

(** ** Votes *)

Definition voteReady (e : Engine) (v : Vote.t) : bool :=
  Vote.is_nil v || bool_decide (is_Some (proposals_by_hash e !! Vote.block_hash v)).

(** The set of the block a vote names, or of the round's proposal, if known. *)
Definition voteSet (e : Engine) (v : Vote.t) : option bool :=
  match (if negb (Vote.is_nil v) && negb (isNull (Vote.block_hash v))
         then proposals_by_hash e !! Vote.block_hash v else None) with
  | Some b => Some (isEmergency b)
  | None =>
    hash ← proposal_for_round e !! (Vote.height v, Vote.round v);
    b ← proposals_by_hash e !! hash;
    Some (isEmergency b)
  end.

Definition inSet (w : world) (emergency : bool) (id : N) : bool := bool_decide (id ∈ active_set w emergency).

Definition resolveVoteSigner (w : world) (e : Engine) (v : Vote.t) : N :=
  let id := Vote.signer_id v in
  if negb (id =? INVALID_ID) then
    match voteSet e v with
    | Some emergency => if inSet w emergency id then id else INVALID_ID
    | None => if inSet w false id || inSet w true id then id else INVALID_ID
    end
  else
    match active_set w (roundUsesEmergencySetForVote e v) !! N.to_nat (Vote.signer_index v) with
    | Some id => id
    | None => INVALID_ID
    end.

Definition verifyVoteSignature (w : world) (v : Vote.t) (signer_id : N) : bool :=
  match state_lookup_validator w signer_id with
  | None => false
  | Some vinfo =>
    ed25519_verify (voteSigningHash (Vote.height v) (Vote.round v) (Vote.is_nil v) (Vote.block_hash v))
      (ValidatorInfo.effectiveConsensusKey vinfo) (Vote.signature v)
  end.

(** The signer, when it resolves and its signature verifies. *)
Definition voteSignatureOk (w : world) (e : Engine) (v : Vote.t) : option N :=
  let signer := resolveVoteSigner w e v in
  if signer =? INVALID_ID then None
  else if verifyVoteSignature w v signer then Some signer else None.

Definition quorumThreshold (w : world) (emergency : bool) : N :=
  bftQuorum (N.of_nat (length (active_set w emergency))).

(** The counting pass: votes per known block. *)
Definition countByHash (e : Engine) (container : VoteMap) : gmap Hash N :=
  foldr (fun kv (counts : gmap Hash N) =>
    let v := snd kv in
    if Vote.is_nil v || negb (bool_decide (is_Some (proposals_by_hash e !! Vote.block_hash v))) then counts
    else <[Vote.block_hash v := default 0 (counts !! Vote.block_hash v) + 1]> counts) ∅ (entries container).

Fixpoint firstQuorum (w : world) (e : Engine) (counts : list (Hash * N)) : option Hash :=
  match counts with
  | [] => None
  | (hash, count) :: counts =>
    match proposals_by_hash e !! hash with
    | Some b =>
      if quorumThreshold w (isEmergency b) <=? count then Some hash else firstQuorum w e counts
    | None => firstQuorum w e counts
    end
  end.

Definition quorumValueIn (w : world) (e : Engine) (container : VoteMap) : option Hash :=
  firstQuorum w e (entries (countByHash e container)).

Definition quorumValue (w : world) (e : Engine) (is_precommit : bool) : option Hash :=
  quorumValueIn w e (if is_precommit then precommits e else prevotes e).

Definition selectPrevoteHash (e : Engine) : option Hash :=
  if locked e then
    Some (if valid_set e && (locked_round e <? valid_round e) then valid_hash e else locked_hash e)
  else if valid_set e then Some (valid_hash e)
  else
    p ← proposal e;
    if (Proposal.height p =? height e) && (Proposal.round p =? round e) then Some (Proposal.block_hash p)
    else None.

Definition ownVoteSet (w : world) (e : Engine) (is_nil : bool) (block_hash : Hash) : bool :=
  if negb is_nil then
    match proposals_by_hash e !! block_hash with
    | Some b => isEmergency b
    | None => indexInSet w my_validator_id false =? INVALID_INDEX
    end
  else if bool_decide (is_Some (proposal_for_round e !! (height e, round e))) then
    roundUsesEmergencySet e (height e) (round e)
  else useEmergencySet e.

(** ** Commit *)

Definition haltConsensus : Bft unit :=
  set (fun e => e <| running := false |> <| halted := true |> <| commit_block := None |>
                  <| round_timer := None |>);;
  emit ConsensusHalted.

(** Evidence a committed block includes is dropped: one offence per signer,
    height and round. *)
Definition dropEvidence (tx : Transaction.t) (evs : list EquivocationEvidence.t) : list EquivocationEvidence.t :=
  if negb (bool_decide (Transaction.tx_type tx = TxType.Slash)) then evs
  else match decodeSlashEvidence (Transaction.payload tx) with
       | None => evs
       | Some decoded =>
         let a := EquivocationEvidence.vote_a decoded in
         filter (fun ev =>
           let b := EquivocationEvidence.vote_a ev in
           ~ (Vote.signer_id b = Vote.signer_id a /\ Vote.height b = Vote.height a /\ Vote.round b = Vote.round a)) evs
       end.

(** [on_block_committed(block)] *)
Definition handOver (block : Block.t) : Bft bool :=
  perform (fun n =>
    let '(applied, w) := on_block_committed (env n) block in
    (applied, n <| env := w |> <| events ::= cons (Committed block applied) |>)).

(** A decided block that does not apply is retried, then the engine halts. *)
Definition commitRefused : Bft unit :=
  set (fun e => e <| commit_attempts ::= fun k => u32 (k + 1) |>);;
  attempts ← get commit_attempts;
  if max_commit_retries <? attempts then haltConsensus
  else
    now ← ask now_ms;
    set (fun e => e <| next_commit_attempt_ms := now +64 (commit_retry_backoff_ms *64 attempts) |>).

Definition commitApplied (block : Block.t) (h : N) : Bft unit :=
  set (fun e => e <| consecutive_timeouts := 0 |>
    <| equivocations ::= fun evs => foldl (fun evs tx => dropEvidence tx evs) evs (Block.transactions block) |>);;
  emit (HeightAdvanced (h +64 1));;
  truncateLog h;;
  now ← ask now_ms;
  set (fun e => e <| commit_block := None |> <| commit_attempts := 0 |> <| pending_height := Some (h +64 1) |>
                  <| next_propose_not_before_ms := now +64 MIN_BLOCK_INTERVAL_MS |>).

Definition tryApplyCommit : Bft unit :=
  o ← get commit_block;
  match o with
  | None => mret ()
  | Some block =>
    h ← get height;
    applied ← handOver block;
    if (applied : bool) then commitApplied block h else commitRefused
  end.

(** [id_to_index[active[i]] = i] *)
Definition indexById (active : list N) : gmap N N :=
  snd (foldl (fun '(i, m) id => (i + 1, <[id := u16 i]> m)) (0, ∅) active).

(** The signatures of a container for a block, by index. *)
Definition collectSignatures (active : list N) (hash : Hash) (container : VoteMap) : list ValidatorSignature.t :=
  std_sort (fun a b => ValidatorSignature.signer_index a <? ValidatorSignature.signer_index b)
    (omap (fun kv =>
       let vote := snd kv in
       if Vote.is_nil vote || negb (Vote.block_hash vote =? hash) then None
       else idx ← indexById active !! fst kv; Some (ValidatorSignature.mk idx (Vote.signature vote)))
     (entries container)).

(** The precommits of a round: of the current one, or kept from an earlier. *)
Definition precommitsOf (e : Engine) (r : N) : option VoteMap :=
  if r =? round e then Some (precommits e) else past_precommits e !! r.

Definition enterCommit (h r : N) : Bft unit :=
  e ← get id;
  w ← ask id;
  if bool_decide (is_Some (pending_height e)) || bool_decide (is_Some (commit_block e)) then mret ()
  else if negb (h =? height e) then mret ()
  else match precommitsOf e r with
  | None => mret ()
  | Some container =>
    match quorumValueIn w e container with
    | None => mret ()
    | Some quorum_block =>
      match proposals_by_hash e !! quorum_block with
      | None => mret ()
      | Some b =>
        let emergency := isEmergency b in
        let sigs := collectSignatures (active_set w emergency) quorum_block container in
        let block := b <| Block.header ::= update BlockHeader.commit_round (fun _ => r) |>
                       <| Block.quorum_signatures := sigs |> in
        if N.of_nat (length sigs) <? quorumThreshold w emergency then mret ()
        else
          set (fun e => e <| step := Step.Commit |> <| commit_block := Some block |> <| commit_attempts := 0 |>
                          <| next_commit_attempt_ms := 0 |>);;
          tryApplyCommit
      end
    end
  end.

Definition checkPrecommitQuorum : Bft unit :=
  e ← get id;
  w ← ask id;
  if bool_decide (is_Some (quorumValue w e true)) then enterCommit (height e) (round e) else mret ().

(** ** Recording votes *)

Inductive InsertResult := Inserted | Duplicate | Conflict.

(** The evidence buffer after a conflicting vote. *)
Definition recordEvidence (w : world) (voter_id : N) (first v : Vote.t) (evs : list EquivocationEvidence.t)
    : list EquivocationEvidence.t :=
  if negb (verifyVoteSignature w first voter_id && verifyVoteSignature w v voter_id) then evs
  else if existsb (fun ev =>
      let a := EquivocationEvidence.vote_a ev in
      (Vote.signer_id a =? voter_id) && (Vote.height a =? Vote.height first) && (Vote.round a =? Vote.round first)) evs
  then evs
  else
    let ev := EquivocationEvidence.mk first v voter_id in
    if negb (EquivocationEvidence.isValid ev) then evs
    else
      let evs := evs ++ [ev] in
      if (MAX_EQUIVOCATION_EVIDENCE <? length evs)%nat then tail evs else evs.

(** The container and the evidence after the insertion. *)
Definition insertVote (w : world) (container : VoteMap) (v : Vote.t) (voter_id : N)
    (evs : list EquivocationEvidence.t) : InsertResult * VoteMap * list EquivocationEvidence.t :=
  match container !! voter_id with
  | None => (Inserted, <[voter_id := v]> container, evs)
  | Some first =>
    if (Vote.block_hash first =? Vote.block_hash v) && Bool.eqb (Vote.is_nil first) (Vote.is_nil v)
    then (Duplicate, container, evs)
    else (Conflict, container, recordEvidence w voter_id first v evs)
  end.

Definition setVotes (is_precommit : bool) (m : VoteMap) (e : Engine) : Engine :=
  if is_precommit then e <| precommits := m |> else e <| prevotes := m |>.

Definition recordPastPrecommit (v : Vote.t) : Bft unit :=
  e ← get id;
  w ← ask id;
  if Vote.round v + MAX_PAST_ROUNDS <? round e then mret ()
  else if negb (voteReady e v) then mret ()
  else match voteSignatureOk w e v with
  | None => mret ()
  | Some voter_id =>
    let bucket := default ∅ (past_precommits e !! Vote.round v) in
    let '(r, bucket, evs) := insertVote w bucket v voter_id (equivocations e) in
    let past := <[Vote.round v := bucket]> (past_precommits e) in
    match r with
    | Inserted =>
      set (fun e => e <| equivocations := evs |> <| past_precommits := trimPast (size past) past |>);;
      e ← get id;
      (* the code reads the bucket through a reference, which the trimming leaves
         valid: [trimPast_keeps] *)
      if bool_decide (is_Some (quorumValueIn w e bucket)) then enterCommit (height e) (Vote.round v) else mret ()
    | _ => set (fun e => e <| equivocations := evs |> <| past_precommits := past |>)
    end
  end.

(** ** Own votes from before a restart *)

Definition restoreOwnVote (p : bool) (r : N) (e : Engine) : Engine :=
  match signed_votes e !! (height e, r, p) with
  | Some v => setVotes p (<[my_validator_id := v]> (if p then precommits e else prevotes e)) e
  | None => e
  end.

Definition restoreOwnVotes (r : N) : Bft unit :=
  if my_validator_id =? INVALID_ID then mret ()
  else set (restoreOwnVote false r);; set (restoreOwnVote true r).

(** ** Buffers *)

(** At most two per signer, so that a conflicting vote still reaches the
    detection of equivocation; none twice. *)
Definition pushPending (is_precommit : bool) (v : Vote.t) (e : Engine) : Engine :=
  let buf := if is_precommit then pending_precommits e else pending_prevotes e in
  let same := List.filter (fun x => (Vote.signer_id x =? Vote.signer_id v) &&
                                    (Vote.signer_index x =? Vote.signer_index v)) buf in
  if MAX_PENDING_VOTES <=? N.of_nat (length buf) then e
  else if existsb (fun x => Bool.eqb (Vote.is_nil x) (Vote.is_nil v) &&
                            (Vote.block_hash x =? Vote.block_hash v)) same then e
  else if (MAX_PENDING_PER_SIGNER <=? length same)%nat then e
  else if is_precommit then e <| pending_precommits ::= fun b => b ++ [v] |>
  else e <| pending_prevotes ::= fun b => b ++ [v] |>.

(** [bucket.emplace(signer, v)] in a bounded bucket of a store. *)
Definition emplaceVote (key signer : N) (v : Vote.t) (store : gmap N VoteMap) : gmap N VoteMap :=
  let bucket := default ∅ (store !! key) in
  if (MAX_FUTURE_VOTES_PER_ROUND <=? size bucket)%nat then <[key := bucket]> store
  else <[key := match bucket !! signer with Some _ => bucket | None => <[signer := v]> bucket end]> store.

Definition bufferFutureVote (v : Vote.t) (is_precommit : bool) (signer : N) (e : Engine) : Engine :=
  if Vote.round v <=? round e then e
  else if MAX_FUTURE_ROUNDS <? Vote.round v - round e then e
  else if is_precommit then e <| future_round_precommits ::= emplaceVote (Vote.round v) signer v |>
  else e <| future_round_prevotes ::= emplaceVote (Vote.round v) signer v |>.

(** ** Proposals *)

Definition verifyProposalSignatureIn (w : world) (p : Proposal.t) (emergency : bool) : bool :=
  let active := active_set w emergency in
  match active with
  | [] => false
  | _ =>
    let expected := proposerFor (Proposal.height p) (Proposal.round p) active in
    if expected =? INVALID_ID then false
    else if negb (Proposal.signer_id p =? INVALID_ID) && negb (Proposal.signer_id p =? expected) then false
    else
      let idx := match positionOf expected 0 active with Some i => u16 i | None => INVALID_INDEX end in
      if idx =? INVALID_INDEX then false
      else if (if Proposal.signer_id p =? INVALID_ID then negb (Proposal.signer_index p =? idx)
               else negb (Proposal.signer_index p =? INVALID_INDEX) && negb (Proposal.signer_index p =? idx))
      then false
      else match resolveConsensusKey w idx emergency with
      | None => false
      | Some pk =>
        ed25519_verify (proposalSigningHash (Proposal.height p) (Proposal.round p) (Proposal.block_hash p))
          pk (Proposal.signature p)
      end
  end.

Definition verifyProposalSignature (w : world) (p : Proposal.t) : bool :=
  verifyProposalSignatureIn w p false || verifyProposalSignatureIn w p true.

Definition proposerSetAllowed (w : world) (p : Proposal.t) (block_emergency : bool) : bool :=
  if block_emergency then verifyProposalSignatureIn w p true
  else verifyProposalSignatureIn w p false ||
       ((EMERGENCY_ROTATION_ROUNDS <=? Proposal.round p) && verifyProposalSignatureIn w p true).

Definition proposerSetFor (w : world) (e : Engine) (me r : N) (block_emergency : bool) : option bool :=
  let is_proposer_in em :=
    match active_set w em with [] => false | a => proposerFor (height e) r a =? me end in
  if block_emergency then (if is_proposer_in true then Some true else None)
  else if is_proposer_in false then Some false
  else if (EMERGENCY_ROTATION_ROUNDS <=? r) && is_proposer_in true then Some true
  else None.

Definition simulateBlock (b : Block.t) : Bft Simulation :=
  perform (fun n => let '(s, w) := simulate_block (env n) b in (s, n <| env := w |>)).

(** The certificate of an emergency block, or none at all. *)
Definition certificateOk (w : world) (e : Engine) (p : Proposal.t) (b : Block.t) : bool :=
  let h := Block.header b in
  if isEmergency b then
    negb (bool_decide (BlockHeader.timeout_certificate h = [])) &&
    (computeTimeoutCertificateHash (BlockHeader.timeout_certificate h) =? BlockHeader.timeout_certificate_hash h) &&
    (BlockHeader.emergency_rotation h <=? Proposal.round p) &&
    (EMERGENCY_ROTATION_ROUNDS <=? BlockHeader.emergency_rotation h) &&
    verifyTimeoutCertificate (active_set w false) (height e) (u32 (BlockHeader.emergency_rotation h))
      (state_lookup_validator w) (BlockHeader.timeout_certificate h)
  else
    bool_decide (BlockHeader.timeout_certificate h = []) && isNull (BlockHeader.timeout_certificate_hash h).

Definition validateProposal (p : Proposal.t) (b : Block.t) : Bft bool :=
  e ← get id;
  w ← ask id;
  let h := Block.header b in
  if negb (Block.hash b =? Proposal.block_hash p) then mret false
  else if negb (BlockHeader.height h =? Proposal.height p) then mret false
  else if bool_decide (is_Some (proposals_by_hash e !! Block.hash b)) then mret true
  else if negb (certificateOk w e p b) then mret false
  else
    s ← simulateBlock b;
    match s with
    | Rejected _ => mret false
    | Simulated computed_root computed_fills =>
      if negb (computed_root =? BlockHeader.state_root h) then mret false
      else if negb (bool_decide (computed_fills = [])) && isNull (BlockHeader.epoch_fills_root h) then mret false
      else if negb (isNull (BlockHeader.epoch_fills_root h)) &&
              negb (computeEpochFillsRoot computed_fills =? BlockHeader.epoch_fills_root h) then mret false
      else mret true
    end.

(** A proposal that is accepted, from a peer or our own. *)
Definition adoptProposal (p : Proposal.t) (b : Block.t) (e : Engine) : Engine :=
  e <| proposal := Some p |> <| proposals_by_hash ::= <[Proposal.block_hash p := b]> |>
    <| proposal_for_round ::= <[(Proposal.height p, Proposal.round p) := Proposal.block_hash p]> |>.

(** ** Timeout votes *)

Definition storeTimeoutVote (tv : TimeoutVote.t) : Bft bool :=
  e ← get id;
  let same := List.filter (fun x => TimeoutVote.signer_id x =? TimeoutVote.signer_id tv) (timeout_votes e) in
  if existsb (fun x => TimeoutVote.round x =? TimeoutVote.round tv) same then mret false
  else if (MAX_TIMEOUT_VOTES_PER_SIGNER <=? length same)%nat then mret false
  else if MAX_TIMEOUT_VOTES <=? N.of_nat (length (timeout_votes e)) then mret false
  else set (fun e => e <| timeout_votes ::= fun l => l ++ [tv] |>);; mret true.

Definition broadcastTimeoutVote (r : N) : Bft unit :=
  e ← get id;
  w ← ask id;
  let idx := indexInSet w my_validator_id false in
  if r <? EMERGENCY_ROTATION_ROUNDS then mret ()
  else if idx =? INVALID_INDEX then mret ()
  else
    let tv := TimeoutVote.mk (height e) r idx my_validator_id (sign (timeoutVoteSigningHash (height e) r)) in
    stored ← storeTimeoutVote tv;
    whenM stored (emit (SentTimeoutVote tv)).

(** The first [required] votes of distinct members. *)
Fixpoint pickVotes (required : nat) (committed seen : list N) (votes : list TimeoutVote.t) : list TimeoutVote.t :=
  match required, votes with
  | O, _ | _, [] => []
  | S required', tv :: votes =>
    let id := TimeoutVote.signer_id tv in
    if (id =? INVALID_ID) || negb (bool_decide (id ∈ committed)) || bool_decide (id ∈ seen)
    then pickVotes required committed seen votes
    else tv :: pickVotes required' committed (id :: seen) votes
  end.

Fixpoint firstCertificate (required : nat) (committed : list N) (votes : list TimeoutVote.t) (rounds : list N)
    : option (N * list TimeoutVote.t) :=
  match rounds with
  | [] => None
  | r :: rounds =>
    let picked := pickVotes required committed [] (List.filter (fun tv => TimeoutVote.round tv =? r) votes) in
    if (required <=? length picked)%nat then Some (r, picked)
    else firstCertificate required committed votes rounds
  end.

Definition assembleTimeoutCertificate (w : world) (e : Engine) : option (N * list TimeoutVote.t) :=
  let committed := active_set w false in
  if (length committed <? 4)%nat then None
  else
    let required := ((length committed - 1) / 3 + 1)%nat in
    let votes := List.filter (fun tv => EMERGENCY_ROTATION_ROUNDS <=? TimeoutVote.round tv) (timeout_votes e) in
    firstCertificate required committed votes (std_sort N.ltb (remove_dups (map TimeoutVote.round votes))).

(** ** The state machine

    [enterPropose] and [enterPrecommit] are the calls the recursion goes
    through. *)

Section machine.
Variable enterPropose : N -> N -> Bft unit.
Variable enterPrecommit : N -> N -> Bft unit.

(** The round at least [f + 1] members have been seen at or past. *)
Definition skipTarget (w : world) (e : Engine) : option N :=
  let committed := active_set w false in
  match committed with
  | [] => None
  | _ =>
    let required := ((length committed - 1) / 3 + 1)%nat in
    let rounds := omap (fun kv => if (snd kv <=? round e) || negb (bool_decide (fst kv ∈ committed)) then None
                                  else Some (snd kv)) (entries (round_hints e)) in
    if (length rounds <? required)%nat then None
    else nth_error (std_sort (fun a b => b <? a) rounds) (required - 1)
  end.

Definition maybeSkipRound : Bft unit :=
  e ← get id;
  w ← ask id;
  if negb (running e) || bool_decide (step e = Step.Commit) || bool_decide (is_Some (pending_height e)) ||
     bool_decide (is_Some (commit_block e)) then mret ()
  else match skipTarget w e with
  | None => mret ()
  | Some target =>
    if target <=? round e then mret ()
    else
      set (fun e => e <| round_hints ::= filter (fun kv => target < snd kv) |>
                      <| consecutive_timeouts := target - 1 |>);;
      enterPropose (height e) target
  end.

Definition noteRoundHint (signer r : N) : Bft unit :=
  e ← get id;
  if (signer =? INVALID_ID) || (r <=? round e) then mret ()
  else
    set (fun e => e <| round_hints ::= fun m => <[signer := N.max r (default 0 (m !! signer))]> m |>);;
    maybeSkipRound.

Definition checkPrevoteQuorum : Bft unit :=
  e ← get id;
  w ← ask id;
  match quorumValue w e false with
  | None => mret ()
  | Some polka =>
    whenM (stepAtLeastPrevote e && (negb (valid_set e) || (valid_round e <? round e)))
      (set (fun e => e <| valid_set := true |> <| valid_hash := polka |> <| valid_round := round e |>));;
    if bool_decide (step e = Step.Prevote) then enterPrecommit (height e) (round e) else mret ()
  end.

Definition recordVote (v : Vote.t) (is_precommit : bool) : Bft unit :=
  e ← get id;
  w ← ask id;
  if negb ((Vote.height v =? height e) && (Vote.round v =? round e)) then mret ()
  else match voteSignatureOk w e v with
  | None => mret ()
  | Some voter_id =>
    let '(r, container, evs) :=
      insertVote w (if is_precommit then precommits e else prevotes e) v voter_id (equivocations e) in
    set (fun e => setVotes is_precommit container e <| equivocations := evs |>);;
    match r with
    | Inserted => if is_precommit then checkPrecommitQuorum else checkPrevoteQuorum
    | _ => mret ()
    end
  end.

(** Signed, durable, then remembered: before anything else can see the vote. *)
Definition registerVote (v : Vote.t) (is_precommit : bool) : Bft unit :=
  emit (SignedVote v is_precommit);;
  logged (wal_append_vote v is_precommit);;
  set (fun e => e <| signed_votes ::= <[(height e, round e, is_precommit) := v]> |>).

Definition broadcastVote (is_precommit is_nil : bool) (block_hash : Hash) : Bft unit :=
  e ← get id;
  w ← ask id;
  let me := my_validator_id in
  if me =? INVALID_ID then mret ()
  else
    let key := (height e, round e, is_precommit) in
    match signed_votes e !! key with
    | Some pv => recordVote pv is_precommit;; emit (SentVote pv is_precommit)
    | None =>
      let idx := indexInSet w me (ownVoteSet w e is_nil block_hash) in
      if idx =? INVALID_INDEX then mret ()
      else
        let v := Vote.mk (height e) (round e) idx me is_nil block_hash
                   (sign (voteSigningHash (height e) (round e) is_nil block_hash)) in
        registerVote v is_precommit;;
        recordVote v is_precommit;;
        emit (SentVote v is_precommit)
    end.

Definition handleVote (v : Vote.t) (is_precommit : bool) : Bft unit :=
  e ← get id;
  w ← ask id;
  if negb (Vote.height v =? height e) then
    if Vote.height v =? height e +64 1 then
      match voteSignatureOk w e v with
      | None => mret ()
      | Some signer =>
        set (fun e =>
          if is_precommit then e <| future_height_precommits ::= emplaceVote (Vote.height v) signer v |>
          else e <| future_height_prevotes ::= emplaceVote (Vote.height v) signer v |>)
      end
    else mret ()
  else match voteSignatureOk w e v with
  | None => mret ()
  | Some signer =>
    whenM (round e <? Vote.round v) (noteRoundHint signer (Vote.round v));;
    e ← get id;
    if round e <? Vote.round v then set (bufferFutureVote v is_precommit signer)
    else if Vote.round v <? round e then
      whenM is_precommit (recordPastPrecommit v)
    else if bool_decide (step e = Step.NewHeight) || negb (voteReady e v) then set (pushPending is_precommit v)
    else recordVote v is_precommit
  end.

Definition drainPendingVotes : Bft unit :=
  pre ← get pending_prevotes;
  com ← get pending_precommits;
  set (fun e => e <| pending_prevotes := [] |> <| pending_precommits := [] |>);;
  forEach (fun v => handleVote v false) pre;;
  forEach (fun v => handleVote v true) com.

Definition enterPrevote (h r : N) : Bft unit :=
  e ← get id;
  if bool_decide (step e = Step.Prevote) && (round e =? r) then mret ()
  else if negb ((height e =? h) && (round e =? r)) then mret ()
  else
    set (fun e => e <| step := Step.Prevote |>);;
    hash ← get selectPrevoteHash;
    broadcastVote false (bool_decide (hash = None)) (default 0 hash);;
    here ← get (isAt h r Step.Prevote);
    whenM here (
      startTimer r;;
      drainPendingVotes;;
      here ← get (isAt h r Step.Prevote);
      whenM here checkPrevoteQuorum).

Definition handleProposal (p : Proposal.t) : Bft unit :=
  e ← get id;
  w ← ask id;
  if max_block_bytes +64 MAX_PROPOSAL_SLACK_BYTES <? N.of_nat (length (Proposal.block_bytes p)) then mret ()
  else if negb (Proposal.height p =? height e) then
    if (Proposal.height p =? height e +64 1) && verifyProposalSignature w p then
      set (fun e => e <| future_height_proposals ::= fun m =>
             match m !! Proposal.height p with Some _ => m | None => <[Proposal.height p := p]> m end |>)
    else mret ()
  else if round e <? Proposal.round p then
    if MAX_FUTURE_ROUNDS <? Proposal.round p - round e then mret ()
    else if negb (verifyProposalSignature w p) then mret ()
    else
      set (fun e => e <| future_proposals ::= fun m =>
             match m !! Proposal.round p with Some _ => m | None => <[Proposal.round p := p]> m end |>);;
      noteRoundHint (Proposal.signer_id p) (Proposal.round p)
  else if Proposal.round p <? round e then mret ()
  else if bool_decide (is_Some (proposal e)) then mret ()
  else if negb (verifyProposalSignature w p) then mret ()
  else match Block.deserialize (Proposal.block_bytes p) with
  | None => mret ()
  | Some b =>
    if negb (proposerSetAllowed w p (isEmergency b)) then mret ()
    else
      valid ← validateProposal p b;
      if negb valid then mret ()
      else
        set (adoptProposal p b);;
        drainPendingVotes;;
        here ← get (isAt (Proposal.height p) (Proposal.round p) Step.Propose);
        whenM here (enterPrevote (Proposal.height p) (Proposal.round p))
  end.

(** ** Proposing *)

Definition totalFees (txs : list Transaction.t) : N := foldl (fun acc tx => acc +64 Transaction.fee tx) 0 txs.

(** The header's account of the transactions. *)
Definition withTransactions (txs : list Transaction.t) (b : Block.t) : Block.t :=
  b <| Block.transactions := txs |>
    <| Block.header ::= fun h => h <| BlockHeader.tx_root := computeTxRoot txs |>
                                   <| BlockHeader.tx_count := u32 (N.of_nat (length txs)) |> |>.

Definition MAX_HEADER_RESERVE : N := 4 * 1024.

Definition buildFreshBlock (w : world) (e : Engine) : Block.t :=
  let active := active_set w (useEmergencySet e) in
  let txs := select_transactions w
    (if MAX_HEADER_RESERVE <? max_block_bytes then max_block_bytes - MAX_HEADER_RESERVE else 0) max_block_txs in
  let header := BlockHeader.mk CURRENT_BLOCK_VERSION chain_id (height e) (parent_hash w) (now_ms w) (my_address w)
    0 0 (round e) 0 [] 0 0 (computeTxRoot txs) 0 0 (computeValidatorSetRoot active) (totalFees txs)
    (u32 (N.of_nat (length txs))) (u32 (N.of_nat (length active))) in
  Block.mk header txs [] active.

Definition slashTransaction (payload : bytes) : Transaction.t :=
  Transaction.mk CURRENT_TRANSACTION_VERSION chain_id TxType.Slash 0 0 0 0 0 0 0 payload (replicate 64 0).

(** Evidence becomes slash transactions: one per signer, while there is room,
    and only what the state verifies. *)
Fixpoint attachEvidence (w : world) (slashed : list N) (evs : list EquivocationEvidence.t)
    (txs : list Transaction.t) : list Transaction.t :=
  match evs with
  | [] => txs
  | ev :: evs =>
    let target := Vote.signer_id (EquivocationEvidence.vote_a ev) in
    if negb (EquivocationEvidence.isValid ev) || (target =? INVALID_ID) || bool_decide (target ∈ slashed)
    then attachEvidence w slashed evs txs
    else if max_block_txs <=? N.of_nat (length txs) then txs
    else
      let payload := encodeSlashPayload (encodeVote (EquivocationEvidence.vote_a ev))
                       (encodeVote (EquivocationEvidence.vote_b ev)) in
      if negb (verify_slash_proof w payload) then attachEvidence w slashed evs txs
      else attachEvidence w (target :: slashed) evs (txs ++ [slashTransaction payload])
  end.

(** A fresh block with the evidence held, and the certificate in an emergency;
    none when there is no certificate. *)
Definition freshProposal (w : world) (e : Engine) : option Block.t :=
  let b := buildFreshBlock w e in
  let b := if bool_decide (equivocations e = []) then b
           else
             let txs := attachEvidence w [] (equivocations e) (Block.transactions b) in
             if bool_decide (txs = []) then b else withTransactions txs b in
  if negb (useEmergencySet e) then Some b
  else
    '(cert_round, votes) ← assembleTimeoutCertificate w e;
    Some (b <| Block.header ::= fun h => h <| BlockHeader.timeout_certificate := votes |>
                <| BlockHeader.emergency_rotation := cert_round |>
                <| BlockHeader.timeout_certificate_hash := computeTimeoutCertificateHash votes |> |>).

(** Simulate; drop the transaction to blame and try again. *)
Fixpoint simulateRetrying (attempts : nat) (b : Block.t) : Bft (option (Block.t * Hash * list Fill.t)) :=
  match attempts with
  | O => mret None
  | S attempts =>
    s ← simulateBlock b;
    match s with
    | Simulated root fills => mret (Some (b, root, fills))
    | Rejected failed_txid =>
      if isNull failed_txid then mret None
      else
        let txs := List.filter (fun tx => negb (TransactionCodec.signingHash tx =? failed_txid)) (Block.transactions b) in
        if (length txs =? length (Block.transactions b))%nat then mret None
        else simulateRetrying attempts
               ((withTransactions txs b) <| Block.header ::= update BlockHeader.total_fees (fun _ => totalFees txs) |>)
    end
  end.

(** The block to propose again: the lock or valid value, if its block is held. *)
Definition blockToRepropose (e : Engine) : option Block.t :=
  want ← selectPrevoteHash e;
  b ← proposals_by_hash e !! want;
  Some (b <| Block.header ::= update BlockHeader.commit_round (fun _ => round e) |>
          <| Block.quorum_signatures := [] |>).

Definition simulateOnce (b : Block.t) : Bft (option (Block.t * Hash * list Fill.t)) :=
  s ← simulateBlock b;
  mret (match s with Simulated root fills => Some (b, root, fills) | Rejected _ => None end).

Definition propose : Bft unit :=
  e ← get id;
  w ← ask id;
  let me := my_validator_id in
  let again := blockToRepropose e in
  match (match again with Some b => Some b | None => freshProposal w e end) with
  | None => mret ()
  | Some b =>
    match proposerSetFor w e me (round e) (isEmergency b) with
    | None => mret ()
    | Some signer_set =>
      o ← (match again with Some _ => simulateOnce b | None => simulateRetrying MAX_SIMULATION_RETRIES b end);
      match o with
      | None => mret ()
      | Some (b, root, fills) =>
        let b := b <| Block.header ::= update BlockHeader.state_root (fun _ => root) |> in
        let b := match again with
                 | Some _ => b
                 | None => b <| Block.header ::= update BlockHeader.epoch_fills_root (fun _ => computeEpochFillsRoot fills) |>
                 end in
        w ← ask id;
        let p := Proposal.mk (height e) (round e) me (indexInSet w me signer_set) (Block.hash b) (Block.serialize b)
                   (sign (proposalSigningHash (height e) (round e) (Block.hash b))) in
        emit (SentProposal p);;
        set (adoptProposal p b);;
        here ← get (isAt (height e) (round e) Step.Propose);
        whenM here (enterPrevote (height e) (round e))
      end
    end
  end.

Definition tryPropose : Bft unit :=
  e ← get id;
  if negb (bool_decide (step e = Step.Propose)) || bool_decide (is_Some (proposal e)) ||
     (my_validator_id =? INVALID_ID) || negb (my_validator_id =? proposer e) ||
     bool_decide (is_Some (signed_votes e !! (height e, round e, false))) then mret ()
  else propose.

(** ** Drains *)

Definition drainFutureProposal : Bft unit :=
  e ← get id;
  match future_proposals e !! round e with
  | None => mret ()
  | Some p => set (fun e => e <| future_proposals ::= delete (round e) |>);; handleProposal p
  end.

Definition drainFutureHeightProposal : Bft unit :=
  set (fun e => e <| future_height_proposals ::=
    filter (fun kv => height e <= fst kv /\ fst kv <= height e +64 1) |>);;
  e ← get id;
  match future_height_proposals e !! height e with
  | None => mret ()
  | Some p => set (fun e => e <| future_height_proposals ::= delete (height e) |>);; handleProposal p
  end.

Definition handleAll (is_precommit : bool) (votes : VoteMap) : Bft unit :=
  forEach (fun kv => handleVote (snd kv) is_precommit) (entries votes).

Definition drainFutureRoundVotes : Bft unit :=
  e ← get id;
  let keep (m : gmap N VoteMap) : gmap N VoteMap :=
    filter (fun kv => round e < fst kv /\ fst kv <= addRound (round e) MAX_FUTURE_ROUNDS) m in
  set (fun e => e <| future_round_prevotes ::= keep |> <| future_round_precommits ::= keep |>);;
  handleAll false (default ∅ (future_round_prevotes e !! round e));;
  handleAll true (default ∅ (future_round_precommits e !! round e)).

Definition drainFutureHeightVotes : Bft unit :=
  e ← get id;
  let keep (m : gmap N VoteMap) : gmap N VoteMap :=
    filter (fun kv => height e < fst kv /\ fst kv <= height e +64 1) m in
  set (fun e => e <| future_height_prevotes ::= keep |> <| future_height_precommits ::= keep |>);;
  handleAll false (default ∅ (future_height_prevotes e !! height e));;
  handleAll true (default ∅ (future_height_precommits e !! height e)).

(** ** Entering a round, and its precommit step *)

Definition proposeStep (h r : N) : Bft unit :=
  set (fun e => (resetForNewRound r e) <| step := Step.Propose |>);;
  whenM (0 <? r) (set (fun e => e <| consecutive_timeouts ::= fun k => addRound k 1 |>));;
  restoreOwnVotes r;;
  e ← get id;
  active ← ask (fun w => active_set w (useEmergencySet e));
  set (fun e => e <| proposer := proposerFor h r active |>);;
  startTimer r;;
  drainFutureHeightProposal;;
  drainFutureProposal;;
  drainFutureHeightVotes;;
  drainFutureRoundVotes;;
  here ← get (isAt h r Step.Propose);
  let is_proposer := (my_validator_id =? proposerFor h r active) && negb (my_validator_id =? INVALID_ID) in
  whenM (here && is_proposer) tryPropose.

Definition precommitStep (h r : N) : Bft unit :=
  e ← get id;
  w ← ask id;
  if bool_decide (step e = Step.Precommit) && (round e =? r) then mret ()
  else if negb ((height e =? h) && (round e =? r)) then mret ()
  else
    set (fun e => e <| step := Step.Precommit |>);;
    match quorumValue w e false with
    | Some polka =>
      set (fun e => e <| valid_set := true |> <| valid_hash := polka |> <| valid_round := r |>);;
      (match proposals_by_hash e !! polka with Some b => emit (StoredLockedBlock h b) | None => mret () end);;
      logged (wal_append_lock h r polka);;
      set (fun e => e <| locked := true |> <| locked_hash := polka |> <| locked_round := r |>);;
      broadcastVote true false polka
    | None =>
      if locked e then broadcastVote true false (locked_hash e) else broadcastVote true true 0
    end;;
    here ← get (isAt h r Step.Precommit);
    whenM here (
      startTimer r;;
      drainPendingVotes;;
      here ← get (isAt h r Step.Precommit);
      whenM here checkPrecommitQuorum).
End machine.

(** [fuel] nested entries. *)
Fixpoint machine (fuel : nat) : (N -> N -> Bft unit) * (N -> N -> Bft unit) :=
  match fuel with
  | O => (fun _ _ => fail, fun _ _ => fail)
  | S fuel =>
    let '(enterPropose, enterPrecommit) := machine fuel in
    (proposeStep enterPropose enterPrecommit, precommitStep enterPropose enterPrecommit)
  end.

Definition enterPropose (fuel : nat) : N -> N -> Bft unit := fst (machine fuel).
Definition enterPrecommit (fuel : nat) : N -> N -> Bft unit := snd (machine fuel).

(** ** Replay of the log *)

(** One entry: the first vote of a key binds, the highest lock wins. *)
Definition replayEntry (h : N) (entry : WalEntry) (e : Engine) : Engine :=
  match entry with
  | VoteEntry v is_precommit =>
    if negb ((Vote.height v =? h) && (Vote.signer_id v =? my_validator_id)) then e
    else
      let key := (Vote.height v, Vote.round v, is_precommit) in
      match signed_votes e !! key with
      | Some _ => e
      | None => e <| signed_votes ::= <[key := v]> |>
      end
  | LockEntry lh r hash =>
    if negb (lh =? h) then e
    else if negb (locked e) || (locked_round e <=? r) then
      e <| locked := true |> <| locked_hash := hash |> <| locked_round := r |>
    else e
  end.

(** A lock stands for the polka behind it; its block is looked up. *)
Definition restoreLock (w : world) (h : N) (e : Engine) : Engine :=
  if negb (locked e) then e
  else
    let e := e <| valid_set := true |> <| valid_hash := locked_hash e |> <| valid_round := locked_round e |> in
    match wal_load_locked_block w h with
    | Some b =>
      if Block.hash b =? locked_hash e then
        e <| proposals_by_hash ::= <[locked_hash e := b]> |>
          <| proposal_for_round ::= <[(h, locked_round e) := locked_hash e]> |>
      else e
    | None => e
    end.

(** [std::map] order of the registry: round, then type. *)
Definition signedKey_lt (a b : SignedKey * Vote.t) : bool :=
  let '((ha, ra, pa), _) := a in
  let '((hb, rb, pb), _) := b in
  (ha <? hb) || ((ha =? hb) && ((ra <? rb) || ((ra =? rb) && (negb pa && pb)))).

Definition replayWalForHeight (h : N) : Bft N :=
  if my_validator_id =? INVALID_ID then mret 0
  else
    log ← gets (fun n => wal_replay h (walog n));
    set (fun e => foldl (fun e entry => replayEntry h entry e) e log);;
    w ← ask id;
    set (restoreLock w h);;
    e ← get id;
    let votes := std_sort signedKey_lt (map_to_list (signed_votes e)) in
    forEach (fun kv => emit (SentVote (snd kv) (snd (fst kv)))) votes;;
    mret (foldl (fun r kv => N.max r (snd (fst (fst kv)))) (if locked e then locked_round e else 0) votes).

Section entry.
Variable fuel : nat.

Definition enterNewHeight (h : N) : Bft unit :=
  set (resetForNewHeight h);;
  resume ← replayWalForHeight h;
  whenM (0 <? resume) (set (fun e => e <| consecutive_timeouts := resume - 1 |>));;
  enterPropose fuel h resume.

(** ** Public methods *)

Definition start (h : N) : Bft unit :=
  already ← get running;
  if (already : bool) then mret ()
  else
    set (fun e => e <| pending_height := None |> <| commit_block := None |> <| commit_attempts := 0 |>
      <| next_commit_attempt_ms := 0 |> <| external_next_height := 0 |> <| halted := false |>);;
    whenM (0 <? h) (truncateLog (h - 1));;
    set (fun e => e <| running := true |>);;
    enterNewHeight h.

Definition stop : Bft unit :=
  set (fun e => if running e then e <| running := false |> <| round_timer := None |> else e).

Definition noteChainHead (applied_height : N) : Bft unit :=
  set (fun e => e <| external_next_height ::= N.max (applied_height +64 1) |>).

Definition whenRunning (m : Bft unit) : Bft unit := on ← get running; whenM on m.

Definition onProposal (p : Proposal.t) : Bft unit :=
  whenRunning (handleProposal (enterPropose fuel) (enterPrecommit fuel) p).
Definition onPrevote (v : Vote.t) : Bft unit :=
  whenRunning (handleVote (enterPropose fuel) (enterPrecommit fuel) v false).
Definition onPrecommit (v : Vote.t) : Bft unit :=
  whenRunning (handleVote (enterPropose fuel) (enterPrecommit fuel) v true).

Definition retryEmergencyPropose : Bft unit :=
  e ← get id;
  if negb (bool_decide (step e = Step.Propose)) || bool_decide (is_Some (proposal e)) || negb (useEmergencySet e) ||
     (my_validator_id =? INVALID_ID) || negb (my_validator_id =? proposer e) then mret ()
  else tryPropose (enterPropose fuel) (enterPrecommit fuel).

(** The member a timeout vote is from: by id, with an index that agrees, or by
    index alone. *)
Definition timeoutVoter (committed : list N) (tv : TimeoutVote.t) : option N :=
  let at_index := committed !! N.to_nat (TimeoutVote.signer_index tv) in
  if TimeoutVote.signer_id tv =? INVALID_ID then at_index
  else if negb (bool_decide (TimeoutVote.signer_id tv ∈ committed)) then None
  else if (TimeoutVote.signer_index tv =? INVALID_INDEX) || bool_decide (at_index = Some (TimeoutVote.signer_id tv))
  then Some (TimeoutVote.signer_id tv)
  else None.

Definition handleTimeoutVote (tv : TimeoutVote.t) : Bft unit :=
  e ← get id;
  w ← ask id;
  if negb (TimeoutVote.height tv =? height e) then mret ()
  else if TimeoutVote.round tv <? EMERGENCY_ROTATION_ROUNDS then mret ()
  else if addRound (round e) MAX_FUTURE_ROUNDS <? TimeoutVote.round tv then mret ()
  else match timeoutVoter (active_set w false) tv with
  | None => mret ()
  | Some voter_id =>
    match state_lookup_validator w voter_id with
    | None => mret ()
    | Some vinfo =>
      if negb (ed25519_verify (timeoutVoteSigningHash (TimeoutVote.height tv) (TimeoutVote.round tv))
                 (ValidatorInfo.effectiveConsensusKey vinfo) (TimeoutVote.signature tv)) then mret ()
      else
        stored ← storeTimeoutVote (TimeoutVote.mk (TimeoutVote.height tv) (TimeoutVote.round tv)
                   (TimeoutVote.signer_index tv) voter_id (TimeoutVote.signature tv));
        whenM stored retryEmergencyPropose
    end
  end.

Definition onTimeoutVote (tv : TimeoutVote.t) : Bft unit := whenRunning (handleTimeoutVote tv).

(** ** Timers *)

Definition onProposeTimeout : Bft unit :=
  e ← get id;
  broadcastTimeoutVote (round e);;
  enterPrevote (enterPropose fuel) (enterPrecommit fuel) (height e) (round e).

Definition onPrevoteTimeout : Bft unit :=
  e ← get id;
  broadcastTimeoutVote (round e);;
  enterPrecommit fuel (height e) (round e).

Definition onPrecommitTimeout : Bft unit :=
  e ← get id;
  w ← ask id;
  let decided := match quorumValue w e true with
                 | Some hash => bool_decide (is_Some (proposals_by_hash e !! hash))
                 | None => false
                 end in
  broadcastTimeoutVote (round e);;
  whenM decided (enterCommit (height e) (round e));;
  e' ← get id;
  if decided &&
     (bool_decide (is_Some (commit_block e')) || bool_decide (is_Some (pending_height e')) || negb (running e'))
  then mret ()
  else enterPropose fuel (height e') (addRound (round e') 1).

(** The expired timer of the current step. *)
Definition stepTimeout : Bft unit :=
  e ← get id;
  match step e with
  | Step.Propose => onProposeTimeout
  | Step.Prevote => onPrevoteTimeout
  | Step.Precommit => onPrecommitTimeout
  | _ => mret ()
  end.

Definition pollTimers : Bft unit :=
  whenRunning (
    e ← get id;
    w ← ask id;
    let ext := external_next_height e in
    let target := default (height e) (pending_height e) in
    if negb (ext =? 0) && (target <? ext) then
      set (fun e => e <| commit_block := None |> <| commit_attempts := 0 |> <| pending_height := None |>
                      <| next_propose_not_before_ms := 0 |>);;
      truncateLog (ext - 1);;
      enterNewHeight ext
    else if bool_decide (is_Some (commit_block e)) then
      if next_commit_attempt_ms e <=? now_ms w then tryApplyCommit else mret ()
    else match pending_height e with
    | Some next =>
      let not_before := next_propose_not_before_ms e in
      if negb (not_before =? 0) && (now_ms w <? not_before) && negb (has_pending_work w) then mret ()
      else
        set (fun e => e <| next_propose_not_before_ms := 0 |> <| pending_height := None |>);;
        enterNewHeight next
    | None =>
      if negb (isExpired w e) then mret ()
      else set (fun e => e <| round_timer := None |>);; stepTimeout
    end).
End entry.

(** A block at a height for which a precommit quorum is held. *)
Definition heldQuorumBlock (w : world) (e : Engine) (h : N) : option Block.t :=
  let find_block (c : VoteMap) : option Block.t :=
    hash ← quorumValueIn w e c; proposals_by_hash e !! hash in
  if negb (h =? height e) then None
  else match commit_block e with
  | Some b => Some b
  | None =>
    match find_block (precommits e) with
    | Some b => Some b
    | None =>
      head (omap (fun kv => find_block (snd kv))
              (std_sort (fun a b => fst a <? fst b) (map_to_list (past_precommits e))))
    end
  end.
End engine.
