(* ===== verification/BftLog.v ===== *)
(** * The write-ahead log of votes and locks

    What the engine expects of its log (the class [DurableLog], after the
    comments of [Dependencies] in Consensus/BftConsensus.h), a log that keeps
    everything, and the log the node gives it (Node/Node.cpp), which keys a vote
    by height, round and signer and so loses a prevote to the precommit of the
    same round. *)

From S2P Require Import Prelude Types StateAccess Wire Codec Rotation Consensus Block BlockProcessor Bft.

(** ** The contract

    An appended vote is replayed for its height until the height is truncated. *)
Class DurableLog `{WriteAheadLog} := {
  replay_appended v p l : VoteEntry v p ∈ wal_replay (Vote.height v) (wal_append_vote v p l);
  replay_append_vote v p l h entry :
    entry ∈ wal_replay h l -> entry ∈ wal_replay h (wal_append_vote v p l);
  replay_append_lock lh r hash l h entry :
    entry ∈ wal_replay h l -> entry ∈ wal_replay h (wal_append_lock lh r hash l);
  replay_truncate k l h entry :
    k < h -> entry ∈ wal_replay h l -> entry ∈ wal_replay h (wal_truncate k l);
}.

(** A log replays only what was appended. *)
Class ExactLog `{WriteAheadLog} := {
  only_append_vote v p l h entry :
    entry ∈ wal_replay h (wal_append_vote v p l) -> entry = VoteEntry v p \/ entry ∈ wal_replay h l;
  only_append_lock lh r hash l h entry :
    entry ∈ wal_replay h (wal_append_lock lh r hash l) -> entry = LockEntry lh r hash \/ entry ∈ wal_replay h l;
  only_truncate k l h entry : entry ∈ wal_replay h (wal_truncate k l) -> entry ∈ wal_replay h l;
}.

(** ** A log that keeps its entries in order *)

Definition entryHeight (entry : WalEntry) : N :=
  match entry with VoteEntry v _ => Vote.height v | LockEntry h _ _ => h end.

Definition keptLog : WriteAheadLog := {|
  wal := list WalEntry;
  wal_append_vote := fun v p l => l ++ [VoteEntry v p];
  wal_append_lock := fun h r hash l => l ++ [LockEntry h r hash];
  wal_replay := fun h l => filter (fun entry => entryHeight entry = h) l;
  wal_truncate := fun k l => filter (fun entry => k < entryHeight entry) l;
|}.

#[global] Instance keptLog_durable : @DurableLog keptLog.
Proof.
  split; cbn.
  - intros v p l. apply list_elem_of_filter. split; [done|]. apply elem_of_app. right. left.
  - intros v p l h entry. rewrite !list_elem_of_filter, elem_of_app. tauto.
  - intros lh r hash l h entry. rewrite !list_elem_of_filter, elem_of_app. tauto.
  - intros k l h entry Hk. rewrite !list_elem_of_filter. intros [<- He]. tauto.
Qed.

#[global] Instance keptLog_exact : @ExactLog keptLog.
Proof.
  split; cbn.
  - intros v p l h entry. rewrite !list_elem_of_filter, elem_of_app, list_elem_of_singleton. tauto.
  - intros lh r hash l h entry. rewrite !list_elem_of_filter, elem_of_app, list_elem_of_singleton. tauto.
  - intros k l h entry. rewrite !list_elem_of_filter. tauto.
Qed.

(** ** The node's log: rows of [TBL_CONSENSUS_WAL] *)

Definition WAL_KIND_VOTE : N := 0.
Definition WAL_KIND_LOCK : N := 1.

Definition walVoteKey (height round signer_id : N) : bytes :=
  be_split 8 height ++ be_split 4 WAL_KIND_VOTE ++ be_split 8 round ++ be_split 8 signer_id.

Definition walLockKey (height round : N) : bytes :=
  be_split 8 height ++ be_split 4 WAL_KIND_LOCK ++ be_split 8 round.

Definition walEncodeVoteRecord (v : Vote.t) (is_precommit : bool) : bytes :=
  (if is_precommit then 1 else 0) :: encodeVote v.

Definition walDecodeVoteRecord (b : bytes) : option (Vote.t * bool) :=
  match b with
  | [] => None
  | t :: b => v ← decodeVote b; Some (v, negb (t =? 0))
  end.

(** One row of the replay for a height. *)
Definition walRow (for_height : N) (row : bytes * bytes) : option WalEntry :=
  let '(key, value) := row in
  let h := be_combine (take 8 key) in
  if (length key <? 12)%nat then None
  else if negb (h =? for_height) then None
  else
    let kind := be_combine (take 4 (drop 8 key)) in
    if kind =? WAL_KIND_VOTE then
      if (length key <? 28)%nat then None
      else '(v, p) ← walDecodeVoteRecord value; Some (VoteEntry v p)
    else if kind =? WAL_KIND_LOCK then
      if (length key <? 20)%nat || negb (length value =? 32)%nat then None
      else Some (LockEntry h (u32 (be_combine (take 8 (drop 12 key)))) (be_combine value))
    else None.

(** Rows come in the order of their keys. *)
Definition key_le (a b : bytes * bytes) : Prop := bytes_le (fst a) (fst b).
#[global] Instance key_le_dec : RelDecision key_le.
Proof. intros a b. unfold key_le. apply _. Defined.

Definition nodeLog : WriteAheadLog := {|
  wal := gmap bytes bytes;
  wal_append_vote := fun v p l =>
    <[walVoteKey (Vote.height v) (Vote.round v) (Vote.signer_id v) := walEncodeVoteRecord v p]> l;
  wal_append_lock := fun h r hash l => <[walLockKey h r := be_split 32 hash]> l;
  wal_replay := fun h l => omap (walRow h) (merge_sort key_le (map_to_list l));
  wal_truncate := fun k l =>
    filter (fun kv => ~ ((8 <= length (fst kv))%nat /\ be_combine (take 8 (fst kv)) <= k)) l;
|}.

(** The precommit of a round replaces the prevote: the node's log does not keep
    the contract. *)
Lemma nodeLog_forgets :
  let prevote := Vote.mk 5 0 0 1 false 9 (replicate 64 0) in
  let precommit := Vote.mk 5 0 0 1 true 0 (replicate 64 0) in
  let l := @wal_append_vote nodeLog precommit true (@wal_append_vote nodeLog prevote false ∅) in
  @wal_replay nodeLog 5 l = [VoteEntry precommit true].
Proof. vm_compute. reflexivity. Qed.

Lemma nodeLog_not_durable : ~ @DurableLog nodeLog.
Proof.
  intros Hd. pose proof nodeLog_forgets as Hf. cbv zeta in Hf.
  set (a := Vote.mk 5 0 0 1 false 9 (replicate 64 0)) in Hf. set (b := Vote.mk 5 0 0 1 true 0 (replicate 64 0)) in Hf.
  pose proof (@replay_append_vote nodeLog Hd b true _ _ _ (@replay_appended nodeLog Hd a false ∅)) as Hin.
  change (Vote.height a) with 5 in Hin. rewrite Hf in Hin. apply list_elem_of_singleton in Hin. discriminate.
Qed.
