(* ===== verification/BftSteps.v ===== *)
(** * The consensus engine as a transition system

    The elementary transitions of an engine within one height ([micro]), each
    with the guard under which the code takes it, and the proof that every method
    is a sequence of them: the handlers of Bft refine this system, whatever fuel
    they are given.  What one engine guarantees is then proved by induction on
    the transitions, without the handlers. *)

From S2P Require Import Prelude Types StateAccess Wire Codec Rotation Consensus Block BlockProcessor Bft BftLog.

(** ** What the protocol depends on *)

Record same_core (e e' : Engine) : Prop := {
  sc_height : height e' = height e;
  sc_round : round e' = round e;
  sc_step : step e' = step e;
  sc_running : running e' = running e;
  sc_locked : locked e' = locked e;
  sc_locked_hash : locked_hash e' = locked_hash e;
  sc_locked_round : locked_round e' = locked_round e;
  sc_valid : valid_set e' = valid_set e;
  sc_valid_hash : valid_hash e' = valid_hash e;
  sc_valid_round : valid_round e' = valid_round e;
  sc_blocks : proposals_by_hash e' = proposals_by_hash e;
  sc_prevotes : prevotes e' = prevotes e;
  sc_precommits : precommits e' = precommits e;
  sc_past : past_precommits e' = past_precommits e;
  sc_signed : signed_votes e' = signed_votes e;
  sc_pending : pending_height e' = pending_height e;
  sc_commit : commit_block e' = commit_block e;
}.

Lemma same_core_refl e : same_core e e.
Proof. by split. Qed.
#[export] Hint Resolve same_core_refl : core.

(** Events that commit to nothing. *)
Definition quietEvent (ev : Event) : bool :=
  match ev with SignedVote _ _ | TruncatedLog _ | Committed _ _ => false | _ => true end.

Section steps.
Context {Cr : Crypto} {So : StdSort} {Wo : World} {Lo : WriteAheadLog} {Mo : MapOrder}.

Abbreviation node := (Node world wal).
Abbreviation Bft := (Exec node).

Definition withEngine (n : node) (e : Engine) : node := n <| engine := e |>.

(** The log cut up to a height. *)
Definition cut (k : N) (n : node) : node := n <| events ::= cons (TruncatedLog k) |> <| walog ::= wal_truncate k |>.

(** The votes of a current container after one more. *)
Definition addVote (p : bool) (vid : N) (v : Vote.t) (e : Engine) : Engine :=
  setVotes p (<[vid := v]> (if p then precommits e else prevotes e)) e.

(** The value of an own vote. *)
Definition justified (e : Engine) (p is_nil : bool) (hash : Hash) : Prop :=
  if p then step e = Step.Precommit /\ is_nil = negb (locked e) /\ (locked e = true -> hash = locked_hash e)
  else step e = Step.Prevote /\ is_nil = bool_decide (selectPrevoteHash e = None) /\
       hash = default 0 (selectPrevoteHash e).

(** The block an engine commits: a held block with the round of the quorum and
    the signatures collected. *)
Definition sealedBlock (w : world) (b : Block.t) (r : N) (hash : Hash) (container : VoteMap) : Block.t :=
  b <| Block.header ::= update BlockHeader.commit_round (fun _ => r) |>
    <| Block.quorum_signatures := collectSignatures (active_set w (isEmergency b)) hash container |>.

(** The height of the engine, or of a block it holds. *)
Definition heldHeight (e : Engine) (h : N) : Prop :=
  h = height e \/ exists hash b, proposals_by_hash e !! hash = Some b /\ h = BlockHeader.height (Block.header b).

(** A round is entered from an earlier one, or first at a height; the counter of
    rounds wraps. *)
Definition entersRound (e : Engine) (r : N) : Prop :=
  round e < r \/ r = addRound (round e) 1 \/ step e = Step.NewHeight.

Inductive micro (n : node) : node -> Prop :=
| m_quiet (e' : Engine) : same_core (engine n) e' -> micro n (withEngine n e')
| m_event ev : quietEvent ev = true -> micro n (n <| events ::= cons ev |>)
| m_simulate (b : Block.t) : micro n (n <| env := snd (simulate_block (env n) b) |>)
| m_block e' b :
    heldHeight (engine n) (BlockHeader.height (Block.header b)) ->
    same_core ((engine n) <| proposals_by_hash ::= <[Block.hash b := b]> |>) e' -> micro n (withEngine n e')
| m_valid e' (hash : Hash) :
    stepAtLeastPrevote (engine n) = true -> quorumValue (env n) (engine n) false = Some hash ->
    same_core ((engine n) <| valid_set := true |> <| valid_hash := hash |> <| valid_round := round (engine n) |>) e' ->
    micro n (withEngine n e')
| m_prevote : step (engine n) = Step.Propose -> micro n (withEngine n ((engine n) <| step := Step.Prevote |>))
| m_precommit : step (engine n) = Step.Prevote -> micro n (withEngine n ((engine n) <| step := Step.Precommit |>))
| m_lock (hash : Hash) :
    step (engine n) = Step.Precommit -> quorumValue (env n) (engine n) false = Some hash ->
    micro n (n <| walog ::= wal_append_lock (height (engine n)) (round (engine n)) hash |>
               <| engine ::= fun e => e <| locked := true |> <| locked_hash := hash |>
                                        <| locked_round := round (engine n) |> |>)
| m_sign (p is_nil : bool) (hash : Hash) (idx : N) :
    let v := Vote.mk (height (engine n)) (round (engine n)) idx my_validator_id is_nil hash
               (sign (voteSigningHash (height (engine n)) (round (engine n)) is_nil hash)) in
    my_validator_id <> INVALID_ID -> justified (engine n) p is_nil hash ->
    signed_votes (engine n) !! (height (engine n), round (engine n), p) = None ->
    micro n (n <| engine ::= fun e => e <| signed_votes ::= <[(height e, round e, p) := v]> |> |>
               <| walog ::= wal_append_vote v p |> <| events ::= cons (SignedVote v p) |>)
| m_record e' (v : Vote.t) (vid : N) (p : bool) :
    Vote.height v = height (engine n) -> Vote.round v = round (engine n) ->
    voteSignatureOk (env n) (engine n) v = Some vid ->
    (if p then precommits (engine n) else prevotes (engine n)) !! vid = None ->
    same_core (addVote p vid v (engine n)) e' -> micro n (withEngine n e')
| m_past e' (v : Vote.t) (vid : N) (past : gmap N VoteMap) :
    Vote.height v = height (engine n) -> Vote.round v < round (engine n) ->
    voteSignatureOk (env n) (engine n) v = Some vid ->
    default ∅ (past_precommits (engine n) !! Vote.round v) !! vid = None ->
    past ⊆ <[Vote.round v := <[vid := v]> (default ∅ (past_precommits (engine n) !! Vote.round v))]>
             (past_precommits (engine n)) ->
    same_core ((engine n) <| past_precommits := past |>) e' -> micro n (withEngine n e')
| m_bucket e' (r : N) :
    past_precommits (engine n) !! r = None ->
    same_core ((engine n) <| past_precommits ::= <[r := ∅]> |>) e' -> micro n (withEngine n e')
| m_round r :
    entersRound (engine n) r ->
    micro n (withEngine n ((resetForNewRound r (engine n)) <| step := Step.Propose |>))
| m_restore (v : Vote.t) (p : bool) :
    my_validator_id <> INVALID_ID ->
    signed_votes (engine n) !! (height (engine n), round (engine n), p) = Some v ->
    micro n (withEngine n (addVote p my_validator_id v (engine n)))
| m_commit r container hash b e' :
    commit_block (engine n) = None -> pending_height (engine n) = None ->
    precommitsOf (engine n) r = Some container ->
    quorumValueIn (env n) (engine n) container = Some hash ->
    proposals_by_hash (engine n) !! hash = Some b ->
    let block := sealedBlock (env n) b r hash container in
    quorumThreshold (env n) (isEmergency b) <= N.of_nat (length (Block.quorum_signatures block)) ->
    same_core ((engine n) <| step := Step.Commit |> <| commit_block := Some block |>) e' -> micro n (withEngine n e')
| m_refused b :
    commit_block (engine n) = Some b -> fst (on_block_committed (env n) b) = false ->
    micro n (n <| env := snd (on_block_committed (env n) b) |> <| events ::= cons (Committed b false) |>)
| m_applied b e' :
    commit_block (engine n) = Some b -> fst (on_block_committed (env n) b) = true ->
    let h := height (engine n) in
    same_core ((engine n) <| commit_block := None |> <| pending_height := Some (h +64 1) |>) e' ->
    micro n (withEngine (cut h (n <| env := snd (on_block_committed (env n) b) |>
      <| events ::= fun evs => HeightAdvanced (h +64 1) :: Committed b true :: evs |>)) e')
| m_halt e' :
    is_Some (commit_block (engine n)) ->
    same_core ((engine n) <| running := false |> <| commit_block := None |>) e' -> micro n (withEngine n e').

(** A quorum depends on the votes and the blocks held. *)
Lemma firstQuorum_blocks w e e' counts :
  proposals_by_hash e' = proposals_by_hash e -> firstQuorum w e' counts = firstQuorum w e counts.
Proof. intros Hb. induction counts as [|[hash k] l IH]; [done|]. cbn [firstQuorum]. by rewrite Hb, IH. Qed.

Lemma quorumValueIn_blocks w e e' c :
  proposals_by_hash e' = proposals_by_hash e -> quorumValueIn w e' c = quorumValueIn w e c.
Proof.
  intros Hb. unfold quorumValueIn. rewrite (firstQuorum_blocks w e e' _ Hb). unfold countByHash. by rewrite Hb.
Qed.

Lemma quorumValue_blocks w e e' p :
  proposals_by_hash e' = proposals_by_hash e -> prevotes e' = prevotes e -> precommits e' = precommits e ->
  quorumValue w e' p = quorumValue w e p.
Proof. intros Hb H1 H2. unfold quorumValue. rewrite H1, H2. by apply quorumValueIn_blocks. Qed.

(** ** Sequences of transitions *)

Lemma micro_height n n' : micro n n' -> height (engine n') = height (engine n).
Proof.
  intros Hm. destruct Hm; try done;
    try (match goal with Hs : same_core _ _ |- _ => apply sc_height in Hs; cbn [withEngine engine]; etrans; [exact Hs|] end);
    try done; by destruct p.
Qed.

Lemma moved_height n n' : rtc micro n n' -> height (engine n') = height (engine n).
Proof. induction 1 as [|n n' n'' Hm _ IH]; [done|]. rewrite IH. by apply micro_height. Qed.

Definition moves {A} (m : Bft A) : Prop := forall n, rtc micro n (snd (m n)).

Lemma moves_bind {A B} (m : Bft A) (k : A -> Bft B) : moves m -> (forall a, moves (k a)) -> moves (m ≫= k).
Proof.
  intros Hm Hk n. unfold mbind, Exec_bind. specialize (Hm n). destruct (m n) as [[a| |] n']; cbn in *; [|done|done].
  etrans; [exact Hm|apply Hk].
Qed.

Lemma moves_readonly {A} (m : Bft A) : readonly m -> moves m.
Proof. intros Hm n. by rewrite Hm. Qed.

Lemma micro_set n f : micro n (withEngine n (f (engine n))) -> rtc micro n (snd (set f n)).
Proof. apply rtc_once. Qed.

Lemma then_moves {A} n0 n (m : Bft A) : rtc micro n0 n -> moves m -> rtc micro n0 (snd (m n)).
Proof. intros Hr Hm. etrans; [exact Hr|apply Hm]. Qed.

Lemma moves_quiet f : (forall e, same_core e (f e)) -> moves (set f).
Proof. intros Hf n. apply micro_set, m_quiet, Hf. Qed.

Lemma moves_emit ev : quietEvent ev = true -> moves (emit ev).
Proof. intros Hq n. by apply rtc_once, m_event. Qed.

Lemma moves_when b (m : Bft unit) : (b = true -> moves m) -> moves (whenM b m).
Proof. intros Hm. destruct b; [by apply Hm|by apply moves_readonly]. Qed.

Lemma moves_forEach {A} (f : A -> Bft unit) l : (forall a, moves (f a)) -> moves (forEach f l).
Proof.
  intros Hf. induction l as [|x l IH]; [by apply moves_readonly|]. cbn [forEach]. by apply moves_bind.
Qed.

(** The rest of a handler after a step that is done. *)
Lemma after_set {A} n0 n f (k : Bft A) :
  rtc micro n0 n -> micro n (withEngine n (f (engine n))) ->
  (rtc micro n0 (withEngine n (f (engine n))) -> rtc micro n0 (snd (k (withEngine n (f (engine n)))))) ->
  rtc micro n0 (snd ((set f;; k) n)).
Proof.
  intros H1 H2 Hk. apply Hk. by eapply rtc_r.
Qed.

Lemma after {A B} n0 n (m : Bft A) (k : A -> Bft B) :
  rtc micro n0 n -> moves m ->
  (forall a n', m n = (Ok a, n') -> rtc micro n0 n' -> rtc micro n0 (snd (k a n'))) ->
  rtc micro n0 (snd ((m ≫= k) n)).
Proof.
  intros H1 Hm Hk. unfold mbind, Exec_bind. specialize (Hm n). destruct (m n) as [[a| |] n'] eqn:E; cbn in *;
    [|by etrans|by etrans]. apply Hk; [done|]. by etrans.
Qed.

(** A step whose result is computed. *)
Lemma after_done {A B} n0 n n' (m : Bft A) (k : A -> Bft B) a :
  m n = (Ok a, n') -> rtc micro n0 (snd (k a n')) -> rtc micro n0 (snd ((m ≫= k) n)).
Proof. intros E. unfold mbind, Exec_bind. by rewrite E. Qed.

Lemma at_get {A B} n0 n (f : Engine -> A) (k : A -> Bft B) :
  rtc micro n0 (snd (k (f (engine n)) n)) -> rtc micro n0 (snd ((get f ≫= k) n)).
Proof. done. Qed.

Lemma at_ask {A B} n0 n (f : world -> A) (k : A -> Bft B) :
  rtc micro n0 (snd (k (f (env n)) n)) -> rtc micro n0 (snd ((ask f ≫= k) n)).
Proof. done. Qed.

Lemma at_ret {A B} n0 n (a : A) (k : A -> Bft B) :
  rtc micro n0 (snd (k a n)) -> rtc micro n0 (snd ((mret a ≫= k) n)).
Proof. done. Qed.

Lemma run_get {A B} (f : Engine -> A) (k : A -> Bft B) n : (get f ≫= k) n = k (f (engine n)) n.
Proof. done. Qed.

Lemma run_ask {A B} (f : world -> A) (k : A -> Bft B) n : (ask f ≫= k) n = k (f (env n)) n.
Proof. done. Qed.

Lemma moves_simulateBlock b : moves (simulateBlock b).
Proof.
  intros n. unfold simulateBlock, perform. destruct (simulate_block (env n) b) as [s w] eqn:E. cbn.
  apply rtc_once. replace w with (snd (simulate_block (env n) b)) by (by rewrite E). apply m_simulate.
Qed.

(** Reads go through, branches are split, up to the first write. *)
Ltac noid := repeat match goal with
  | |- context [id (engine ?n)] => change (id (engine n)) with (engine n)
  | |- context [id (env ?n)] => change (id (env n)) with (env n)
  end.

Ltac go := repeat (
  lazymatch goal with
  | |- rtc micro _ (snd ((get _ ≫= _) _)) => apply at_get
  | |- rtc micro _ (snd ((ask _ ≫= _) _)) => apply at_ask
  | |- rtc micro _ (snd ((mret _ ≫= _) _)) => apply at_ret
  | |- rtc micro _ (snd ((whenM ?b _ ≫= _) _)) => destruct b eqn:?; cbn [whenM]
  | |- rtc micro _ (snd (whenM ?b _ _)) => destruct b eqn:?; cbn [whenM]
  | |- rtc micro _ (snd ((match ?x with _ => _ end) _)) => destruct x eqn:?
  | |- rtc micro _ (snd (mret _ _)) => cbn [mret Exec_ret snd]
  end; cbv beta zeta; noid); try done.

Lemma moves_haltConsensus n0 n :
  rtc micro n0 n -> is_Some (commit_block (engine n)) -> rtc micro n0 (snd (haltConsensus n)).
Proof.
  intros Hr Hc. unfold haltConsensus. apply after_set; [done| |intros R; by apply then_moves, moves_emit].
  eapply m_halt; [done|]. by split.
Qed.

Lemma moves_commitRefused n0 n :
  rtc micro n0 n -> is_Some (commit_block (engine n)) -> rtc micro n0 (snd (commitRefused n)).
Proof.
  intros Hr Hc. unfold commitRefused. apply after_set; [done|by apply m_quiet|]. intros R. go.
  - by apply moves_haltConsensus.
  - by apply then_moves, moves_quiet.
Qed.

Lemma commitApplied_run b h n : exists e',
  commitApplied b h n = (Ok (), withEngine (cut h (n <| events ::= cons (HeightAdvanced (h +64 1)) |>)) e') /\
  same_core ((engine n) <| commit_block := None |> <| pending_height := Some (h +64 1) |>) e'.
Proof. eexists. split; [reflexivity|]. by split. Qed.

Lemma moves_tryApplyCommit : moves tryApplyCommit.
Proof.
  intros n. unfold tryApplyCommit. apply at_get. destruct (commit_block (engine n)) as [b|] eqn:Hb; [|done].
  apply at_get. unfold mbind, Exec_bind, handOver, perform.
  destruct (on_block_committed (env n) b) as [[] w] eqn:Eo; cbn [fst snd].
  - match goal with |- context [commitApplied b ?h ?m] => destruct (commitApplied_run b h m) as (e' & -> & Hs) end.
    apply rtc_once. replace w with (snd (on_block_committed (env n) b)) by (by rewrite Eo).
    exact (m_applied n b e' Hb (f_equal fst Eo) Hs).
  - match goal with |- context [commitRefused ?m] => assert (Hm : micro n m) end.
    { replace w with (snd (on_block_committed (env n) b)) by (by rewrite Eo). by apply m_refused; rewrite ?Eo. }
    apply moves_commitRefused; [by apply rtc_once|]. cbn. by rewrite Hb.
Qed.

Lemma none_of {A} (o : option A) : bool_decide (is_Some o) = false -> o = None.
Proof. destruct o; [|done]. by rewrite bool_decide_eq_true_2 by eauto. Qed.

Lemma moves_enterCommit h r : moves (enterCommit h r).
Proof.
  intros n. unfold enterCommit. go.
  apply orb_false_iff in Heqb as [Hp%none_of Hc%none_of].
  apply after_set; [done| |intros R; by apply then_moves, moves_tryApplyCommit].
  apply N.ltb_ge in Heqb1. by eapply m_commit.
Qed.

Lemma moves_checkPrecommitQuorum : moves checkPrecommitQuorum.
Proof. intros n. unfold checkPrecommitQuorum. go. apply moves_enterCommit. Qed.

Lemma trimPast_sub k m : trimPast k m ⊆ m.
Proof.
  revert m. induction k as [|k IH]; intros m; cbn [trimPast]; [done|]. destruct (_ <? _); [|done].
  destruct (lowestKey m) as [x|]; [|done]. etrans; [apply IH|apply delete_subseteq].
Qed.

Lemma lowestKey_spec {V} (m : gmap N V) k :
  lowestKey m = Some k -> is_Some (m !! k) /\ forall j, is_Some (m !! j) -> k <= j.
Proof.
  unfold lowestKey. intros Hk.
  cut (k ∈ (map_to_list m).*1 /\ forall j, j ∈ (map_to_list m).*1 -> k <= j).
  { intros [H1 H2]. split.
    - apply list_elem_of_fmap in H1 as ([j v] & -> & Hin). apply elem_of_map_to_list in Hin. by exists v.
    - intros j [v Hv]. apply H2, list_elem_of_fmap. exists (j, v). split; [done|]. by apply elem_of_map_to_list. }
  revert k Hk. induction (map_to_list m) as [|[x v] l IH]; intros k; [done|]. cbn [foldr fmap list_fmap fst].
  destruct (foldr _ _ l) as [y|] eqn:E.
  - destruct (IH y eq_refl) as [I1 I2]. intros [= <-]. split.
    + destruct (N.min_spec x y) as [[_ ->]|[_ ->]]; [left|by right].
    + intros j [->|Hj]%elem_of_cons; [lia|]. specialize (I2 j Hj). lia.
  - intros [= <-]. destruct l as [|[y w] l]; [|cbn in E; done]. split; [left|].
    intros j [->|?%elem_of_nil]%elem_of_cons; [lia|done].
Qed.

(** Keys in an interval are no more than its length. *)
Lemma size_interval {V} (m : gmap N V) (a b : N) :
  (forall j, is_Some (m !! j) -> a <= j < b) -> N.of_nat (size m) <= b - a.
Proof.
  intros Hm. rewrite <- (length_map_to_list m).
  assert (Hle : ((map_to_list m).*1 ⊆+ map (fun i => a + N.of_nat i) (seq 0 (N.to_nat (b - a))))).
  { apply NoDup_submseteq; [apply NoDup_fst_map_to_list|]. intros j ([k v] & -> & Hin)%list_elem_of_fmap.
    apply elem_of_map_to_list in Hin. destruct (Hm k) as [H1 H2]; [by exists v|]. cbn.
    apply list_elem_of_fmap. exists (N.to_nat (k - a)). split; [lia|]. apply elem_of_seq. lia. }
  apply submseteq_length in Hle. rewrite !length_fmap, List.length_seq in Hle. lia.
Qed.

(** A round within reach of the current one outlives the trimming. *)
Lemma trimPast_keeps n : forall m r cur,
  (forall j, is_Some (m !! j) -> j < cur) -> cur <= r + MAX_PAST_ROUNDS ->
  trimPast n m !! r = m !! r.
Proof.
  induction n as [|n IH]; intros m r cur Hm Hr; cbn [trimPast]; [done|].
  destruct (N.ltb_spec MAX_PAST_ROUNDS (N.of_nat (size m))) as [Hs|]; [|done].
  destruct (lowestKey m) as [k|] eqn:Ek; [|done]. apply lowestKey_spec in Ek as [Hk Hlow].
  assert (Hne : k <> r).
  { intros ->. pose proof (size_interval m r cur) as Hle. cut (N.of_nat (size m) <= cur - r); [lia|].
    apply Hle. intros j Hj. split; [by apply Hlow|by apply Hm]. }
  rewrite (IH (delete k m) r cur); [by apply lookup_delete_ne|intros j Hj; apply Hm|done].
  destruct (decide (j = k)) as [->|]; [rewrite lookup_delete_eq in Hj; by destruct Hj|].
  by rewrite lookup_delete_ne in Hj.
Qed.

(** A vote enters a container once. *)
Lemma insertVote_cases w c v vid evs :
  c !! vid = None /\ insertVote w c v vid evs = (Inserted, <[vid := v]> c, evs) \/
  exists evs', insertVote w c v vid evs = (Duplicate, c, evs') \/ insertVote w c v vid evs = (Conflict, c, evs').
Proof. unfold insertVote. destruct (c !! vid); [|by left]. right. destruct (_ && _); eauto. Qed.

Lemma quiet_bucket n e' r :
  let past := past_precommits (engine n) in
  same_core ((engine n) <| past_precommits := <[r := default ∅ (past !! r)]> past |>) e' ->
  micro n (withEngine n e').
Proof.
  cbv zeta. intros Hs. destruct (past_precommits (engine n) !! r) as [b|] eqn:E; cbn [default] in Hs.
  - apply m_quiet. rewrite insert_id in Hs by done. destruct Hs. by split.
  - by eapply m_bucket.
Qed.

Lemma moves_recordPastPrecommit v n0 n :
  rtc micro n0 n -> Vote.height v = height (engine n) -> Vote.round v < round (engine n) ->
  rtc micro n0 (snd (recordPastPrecommit v n)).
Proof.
  intros Hr Hh Hv. unfold recordPastPrecommit.
  apply at_get, at_ask. cbv beta. noid.
  destruct (_ <? _); [done|]. destruct (negb _); [done|].
  destruct (voteSignatureOk (env n) (engine n) v) as [vid|] eqn:Es; [|done]. cbv zeta.

  destruct (insertVote_cases (env n) (default ∅ (past_precommits (engine n) !! Vote.round v)) v vid (equivocations (engine n))) as [[Hn E]|(evs & [E|E])]; rewrite E.
  - apply after_set; [done|eapply m_past; [done|done|exact Es|exact Hn|apply trimPast_sub|by split]|]. intros R. go.
    by apply then_moves, moves_enterCommit.
  - eapply rtc_r; [exact Hr|]. by apply (quiet_bucket n _ (Vote.round v)).
  - eapply rtc_r; [exact Hr|]. by apply (quiet_bucket n _ (Vote.round v)).
Qed.

Lemma moves_restoreOwnVote n p :
  my_validator_id <> INVALID_ID -> rtc micro n (withEngine n (restoreOwnVote p (round (engine n)) (engine n))).
Proof.
  intros Hid. unfold restoreOwnVote. destruct (signed_votes (engine n) !! _) as [v|] eqn:E; [|by destruct n].
  by apply rtc_once, m_restore.
Qed.

Lemma moves_restoreOwnVotes n0 n r :
  rtc micro n0 n -> round (engine n) = r -> rtc micro n0 (snd (restoreOwnVotes r n)).
Proof.
  intros Hr <-. unfold restoreOwnVotes. destruct (N.eqb_spec my_validator_id INVALID_ID) as [|Hid]; [done|].
  etrans; [exact Hr|]. etrans; [by apply (moves_restoreOwnVote n false)|].
  set (n1 := withEngine n (restoreOwnVote false (round (engine n)) (engine n))).
  assert (Er : round (engine n1) = round (engine n)) by (cbn; unfold restoreOwnVote; by destruct (_ !! _)).
  change (rtc micro n1 (withEngine n1 (restoreOwnVote true (round (engine n)) (engine n1)))).
  rewrite <- Er. by apply moves_restoreOwnVote.
Qed.

(** ** The handlers *)

Section handlers.
Variable enterPropose : N -> N -> Bft unit.
Variable enterPrecommit : N -> N -> Bft unit.
Hypothesis Hpropose : forall h r n, h = height (engine n) -> entersRound (engine n) r ->
  rtc micro n (snd (enterPropose h r n)).
Hypothesis Hprecommit : forall h r n, h = height (engine n) -> r = round (engine n) -> step (engine n) = Step.Prevote ->
  rtc micro n (snd (enterPrecommit h r n)).

Lemma moves_maybeSkipRound : moves (maybeSkipRound enterPropose).
Proof.
  intros n. unfold maybeSkipRound. go. apply N.leb_gt in Heqb0.
  apply after_set; [done|by apply m_quiet|]. intros R. etrans; [exact R|]. apply Hpropose; [done|by left].
Qed.

Lemma moves_noteRoundHint signer r : moves (noteRoundHint enterPropose signer r).
Proof.
  intros n. unfold noteRoundHint. go. apply after_set; [done|by apply m_quiet|]. intros R.
  by apply then_moves, moves_maybeSkipRound.
Qed.

Lemma moves_checkPrevoteQuorum : moves (checkPrevoteQuorum enterPrecommit).
Proof.
  intros n. unfold checkPrevoteQuorum. go.
  - apply andb_true_iff in Heqb as [Hs _]. apply after_set; [done|by eapply m_valid|]. intros R. go.
    apply bool_decide_eq_true in Heqb. etrans; [exact R|]. by apply Hprecommit.
  - apply bool_decide_eq_true in Heqb0. by apply Hprecommit.
Qed.

Lemma moves_recordVote v p : moves (recordVote enterPrecommit v p).
Proof.
  intros n. unfold recordVote. apply at_get, at_ask. cbv beta. noid.
  destruct (negb _) eqn:Heqb; [done|]. destruct (voteSignatureOk _ _ _) as [n0|] eqn:Es; [|done].
  apply negb_false_iff, andb_true_iff in Heqb as [Hh%N.eqb_eq Hr%N.eqb_eq].
  destruct (insertVote_cases (env n) (if p then precommits (engine n) else prevotes (engine n)) v n0
    (equivocations (engine n))) as [[Hn E]|(evs & [E|E])]; rewrite E.
  - apply after_set; [done|eapply m_record; try done; by destruct p|]. intros R.
    destruct p; apply then_moves; [done|apply moves_checkPrecommitQuorum|done|apply moves_checkPrevoteQuorum].
  - apply after_set; [done|apply m_quiet; by destruct p|done].
  - apply after_set; [done|apply m_quiet; by destruct p|done].
Qed.

Lemma moves_broadcastVote p is_nil hash n0 n :
  rtc micro n0 n -> justified (engine n) p is_nil hash ->
  rtc micro n0 (snd (broadcastVote enterPrecommit p is_nil hash n)).
Proof.
  intros Hr Hj. unfold broadcastVote. go.
  - apply after; [done|apply moves_recordVote|]. intros _ n' _ R. by apply then_moves, moves_emit.
  - apply N.eqb_neq in Heqb.
    eapply after_done; [reflexivity|]. apply after; [|apply moves_recordVote|].
    + eapply rtc_r; [exact Hr|].
      exact (m_sign n p is_nil hash (indexInSet (env n) my_validator_id (ownVoteSet (env n) (engine n) is_nil hash))
        Heqb Hj Heqo).
    + intros _ n' _ R'. by apply then_moves, moves_emit.
Qed.

Lemma moves_handleVote v p : moves (handleVote enterPropose enterPrecommit v p).
Proof.
  intros n. unfold handleVote. apply at_get, at_ask. cbv beta. noid.
  destruct (negb _) eqn:Eh.
  { clear Eh. destruct (_ =? _); [|done]. destruct (voteSignatureOk _ _ _); [|done]. apply moves_quiet. intros e. by destruct p. }
  apply negb_false_iff, N.eqb_eq in Eh. destruct (voteSignatureOk (env n) (engine n) v) as [signer|] eqn:Es; [|done].
  apply after; [done|apply moves_when; intros _; apply moves_noteRoundHint|]. intros [] n' _ R.
  assert (Eh' : Vote.height v = height (engine n')) by (by rewrite (moved_height _ _ R)). go.
  - apply then_moves; [done|]. apply moves_quiet. intros e. unfold bufferFutureVote. repeat case_match; done.
  - apply N.ltb_lt in Heqb0. by apply moves_recordPastPrecommit.
  - apply then_moves; [done|]. apply moves_quiet. intros e. unfold pushPending. repeat case_match; done.
  - apply then_moves; [done|apply moves_recordVote].
Qed.

Lemma moves_drainPendingVotes : moves (drainPendingVotes enterPropose enterPrecommit).
Proof.
  intros n. unfold drainPendingVotes. go. apply after_set; [done|by apply m_quiet|]. intros R.
  apply then_moves; [done|]. apply moves_bind; [|intros _]; apply moves_forEach; intros v; apply moves_handleVote.
Qed.

Lemma moves_startTimer r : moves (startTimer r).
Proof. intros n. unfold startTimer. go. by apply moves_quiet. Qed.

(** The second half of a step: the timer, the votes that waited, the quorum. *)
Lemma moves_settle h r s (check : Bft unit) : moves check ->
  moves (here ← get (isAt h r s);
    whenM here (startTimer r;; drainPendingVotes enterPropose enterPrecommit;;
      here ← get (isAt h r s); whenM here check)).
Proof.
  intros Hc n. go. apply after; [done|apply moves_startTimer|].
  intros _ n' _ R. apply then_moves; [done|]. apply moves_bind; [apply moves_drainPendingVotes|]. intros _ m. go.
Qed.

Lemma moves_enterPrevote h r n0 n :
  rtc micro n0 n -> step (engine n) = Step.Propose ->
  rtc micro n0 (snd (enterPrevote enterPropose enterPrecommit h r n)).
Proof.
  intros Hr Hs. unfold enterPrevote. go.
  apply after_set; [done|by apply m_prevote|]. intros R. apply at_get. cbv beta.
  pose proof (moves_broadcastVote false (bool_decide (selectPrevoteHash (engine n) = None))
    (default 0 (selectPrevoteHash (engine n))) n0 _ R) as Hb.
  unfold mbind at 1, Exec_bind at 1.
  destruct (broadcastVote _ _ _ _ _) as [[[]| |] n'] eqn:E; cbn [snd]; [|by apply Hb|by apply Hb].
  apply then_moves; [by apply Hb|]. apply moves_settle, moves_checkPrevoteQuorum.
Qed.
(** A proposal that is accepted names the block it carries. *)
Lemma validateProposal_spec p b n :
  rtc micro n (snd (validateProposal p b n)) /\ engine (snd (validateProposal p b n)) = engine n /\
  (forall n', validateProposal p b n = (Ok true, n') ->
     Block.hash b = Proposal.block_hash p /\ BlockHeader.height (Block.header b) = Proposal.height p).
Proof.
  unfold validateProposal. rewrite !run_get, !run_ask. noid.
  destruct (N.eqb_spec (Block.hash b) (Proposal.block_hash p)) as [Eh|]; [|done].
  destruct (N.eqb_spec (BlockHeader.height (Block.header b)) (Proposal.height p)) as [Ep|]; [|done]. cbn [negb].
  case_bool_decide; [done|]. destruct (certificateOk _ _ _ _); [|done]. cbn [negb].
  unfold mbind, Exec_bind. pose proof (moves_simulateBlock b n) as Hm. unfold simulateBlock, perform in *.
  destruct (simulate_block (env n) b) as [[root fills|txid] w]; cbn in *; [|done].
  by repeat case_match.
Qed.

Lemma moves_adopt p b n :
  Block.hash b = Proposal.block_hash p -> heldHeight (engine n) (BlockHeader.height (Block.header b)) ->
  micro n (withEngine n (adoptProposal p b (engine n))).
Proof. intros Eh Hh. eapply m_block; [exact Hh|]. unfold adoptProposal. rewrite <- Eh. by split. Qed.

Lemma isAt_step h r s e : isAt h r s e = true -> step e = s.
Proof. unfold isAt. intros [_ Hs]%andb_true_iff. by apply bool_decide_eq_true in Hs. Qed.

(** After a proposal is in place: votes for it, then the prevote. *)
Lemma moves_thenPrevote h r : moves (here ← get (isAt h r Step.Propose);
  whenM here (enterPrevote enterPropose enterPrecommit h r)).
Proof. intros n. go. apply moves_enterPrevote; [done|]. by eapply isAt_step. Qed.

Lemma moves_handleProposal p : moves (handleProposal enterPropose enterPrecommit p).
Proof.
  intros n. unfold handleProposal. apply at_get, at_ask. cbv beta. noid.
  destruct (_ <? _); [done|].
  destruct (Proposal.height p =? height (engine n)) eqn:Eh; cbn [negb]; [apply N.eqb_eq in Eh|].
  2: { go. by apply moves_quiet. }
  destruct (round (engine n) <? Proposal.round p).
  { go. apply after_set; [done|by apply m_quiet|]. intros R. by apply then_moves, moves_noteRoundHint. }
  go. destruct (validateProposal_spec p t n) as (Hm & He & Hok).
  unfold mbind at 1, Exec_bind at 1.
  destruct (validateProposal p t n) as [[[]| |] n'] eqn:E; cbn [fst snd negb] in *; try done.
  destruct (Hok n' eq_refl) as [Hb Hh].
  apply after_set; [done|apply moves_adopt; [done|]; left; congruence|]. intros R.
  apply then_moves; [done|]. apply moves_bind; [apply moves_drainPendingVotes|intros _; apply moves_thenPrevote].
Qed.

(** ** Proposing *)

Abbreviation heightOf b := (BlockHeader.height (Block.header b)).

(** A simulation leaves the engine alone and yields a block of the same height. *)
Definition simulates (b : Block.t) (m : Bft (option (Block.t * Hash * list Fill.t))) : Prop :=
  forall n, rtc micro n (snd (m n)) /\ engine (snd (m n)) = engine n /\
    forall b' root fills n', m n = (Ok (Some (b', root, fills)), n') -> heightOf b' = heightOf b.

Lemma simulateBlock_run b n :
  simulateBlock b n = (Ok (fst (simulate_block (env n) b)), n <| env := snd (simulate_block (env n) b) |>).
Proof. unfold simulateBlock, perform. by destruct (simulate_block (env n) b). Qed.

Lemma simulates_once b : simulates b (simulateOnce b).
Proof.
  intros n. unfold simulateOnce, mbind, Exec_bind. rewrite simulateBlock_run. cbn. split_and!; [|done|].
  - apply rtc_once, m_simulate.
  - intros b' root fills n' [= E _]. repeat case_match; by simplify_eq.
Qed.

Lemma simulates_retrying k : forall b, simulates b (simulateRetrying k b).
Proof.
  induction k as [|k IH]; intros b n; cbn [simulateRetrying]; [by split_and!; try done|].
  unfold mbind, Exec_bind. rewrite simulateBlock_run. cbn [fst snd].
  set (n1 := n <| env := snd (simulate_block (env n) b) |>).
  assert (R : rtc micro n n1) by (apply rtc_once, m_simulate).
  destruct (fst (simulate_block (env n) b)) as [root fills|txid].
  { split_and!; [done..|]. intros b' r f n' [= -> -> -> _]. done. }
  destruct (isNull txid); [by split_and!|]. destruct (_ =? _)%nat; [by split_and!|].
  match goal with |- context [simulateRetrying k ?b'] => destruct (IH b' n1) as (Hm & He & Hh) end.
  split_and!; [by etrans|by rewrite He|]. intros b' r f n' E. by rewrite (Hh _ _ _ _ E).
Qed.

Lemma freshProposal_height w e b : freshProposal w e = Some b -> heightOf b = height e.
Proof.
  unfold freshProposal. set (b0 := buildFreshBlock w e). assert (H0 : heightOf b0 = height e) by done.
  clearbody b0. set (b1 := if bool_decide _ then b0 else _).
  assert (H1 : heightOf b1 = height e) by (unfold b1; by repeat case_match). clearbody b1.
  destruct (useEmergencySet e); cbn [negb]; [|by intros [= <-]].
  destruct (assembleTimeoutCertificate w e) as [[r votes]|]; [|done]. by intros [= <-].
Qed.

Lemma blockToRepropose_height e b : blockToRepropose e = Some b -> heldHeight e (heightOf b).
Proof.
  unfold blockToRepropose. destruct (selectPrevoteHash e) as [want|]; [|done]. cbn.
  destruct (proposals_by_hash e !! want) as [b0|] eqn:E; [|done]. intros [= <-]. right. by exists want, b0.
Qed.

Lemma moves_propose : moves (propose enterPropose enterPrecommit).
Proof.
  intros n. unfold propose. apply at_get, at_ask. cbv beta zeta. noid.
  destruct (match blockToRepropose (engine n) with Some b => Some b | None => freshProposal (env n) (engine n) end)
    as [b|] eqn:Eb; [|done].
  assert (Hb : heldHeight (engine n) (heightOf b)).
  { destruct (blockToRepropose (engine n)) eqn:Er; [simplify_eq; by apply blockToRepropose_height|].
    left. by apply (freshProposal_height _ _ _ Eb). }
  destruct (proposerSetFor _ _ _ _ _) as [signer_set|]; [|done].
  match goal with |- rtc micro _ (snd ((?m ≫= _) _)) => assert (Hs : simulates b m) end.
  { destruct (blockToRepropose (engine n)); [apply simulates_once|apply simulates_retrying]. }
  destruct (Hs n) as (R & He & Hh). unfold mbind at 1, Exec_bind at 1.
  match goal with |- context [match ?x with _ => _ end] => destruct x as [[[[[b' root] fills]|]| |] n1] eqn:E end;
    cbn [fst snd] in *; try done.
  specialize (Hh _ _ _ _ eq_refl). apply at_ask. cbv beta zeta.
  match goal with |- context [Block.hash ?x] => set (b2 := x) end.
  assert (H2 : heightOf b2 = heightOf b) by (unfold b2; by repeat case_match). clearbody b2.
  apply after; [done|by apply moves_emit|]. intros [] n2 E2 R2.
  assert (He2 : engine n2 = engine n) by (injection E2 as <-; exact He).
  apply after_set; [done|apply moves_adopt; [done|by rewrite He2, H2]|]. intros R3.
  apply then_moves; [done|apply moves_thenPrevote].
Qed.

Lemma moves_tryPropose : moves (tryPropose enterPropose enterPrecommit).
Proof. intros n. unfold tryPropose. go. apply moves_propose. Qed.

(** ** Drains *)

Lemma moves_drainFutureProposal : moves (drainFutureProposal enterPropose enterPrecommit).
Proof.
  intros n. unfold drainFutureProposal. go. apply after_set; [done|by apply m_quiet|]. intros R.
  by apply then_moves, moves_handleProposal.
Qed.

Lemma moves_drainFutureHeightProposal : moves (drainFutureHeightProposal enterPropose enterPrecommit).
Proof.
  intros n. unfold drainFutureHeightProposal. apply after_set; [done|by apply m_quiet|]. intros R. go.
  apply after_set; [done|by apply m_quiet|]. intros R'. by apply then_moves, moves_handleProposal.
Qed.

Lemma moves_handleAll p votes : moves (handleAll enterPropose enterPrecommit p votes).
Proof. apply moves_forEach. intros kv. apply moves_handleVote. Qed.

Lemma moves_drainFutureRoundVotes : moves (drainFutureRoundVotes enterPropose enterPrecommit).
Proof.
  intros n. unfold drainFutureRoundVotes. go. apply after_set; [done|by apply m_quiet|]. intros R.
  apply then_moves; [done|]. apply moves_bind; [|intros _]; apply moves_handleAll.
Qed.

Lemma moves_drainFutureHeightVotes : moves (drainFutureHeightVotes enterPropose enterPrecommit).
Proof.
  intros n. unfold drainFutureHeightVotes. go. apply after_set; [done|by apply m_quiet|]. intros R.
  apply then_moves; [done|]. apply moves_bind; [|intros _]; apply moves_handleAll.
Qed.

(** ** Entering a round, and its precommit step *)

(** The rest of entering a round, once it is reset. *)
Lemma moves_proposeRest h r active :
  moves (set (fun e => e <| proposer := proposerFor h r active |>);;
    startTimer r;;
    drainFutureHeightProposal enterPropose enterPrecommit;;
    drainFutureProposal enterPropose enterPrecommit;;
    drainFutureHeightVotes enterPropose enterPrecommit;;
    drainFutureRoundVotes enterPropose enterPrecommit;;
    here ← get (isAt h r Step.Propose);
    whenM (here && ((my_validator_id =? proposerFor h r active) && negb (my_validator_id =? INVALID_ID)))
      (tryPropose enterPropose enterPrecommit)).
Proof.
  apply moves_bind; [by apply moves_quiet|intros _].
  apply moves_bind; [apply moves_startTimer|intros _].
  apply moves_bind; [apply moves_drainFutureHeightProposal|intros _].
  apply moves_bind; [apply moves_drainFutureProposal|intros _].
  apply moves_bind; [apply moves_drainFutureHeightVotes|intros _].
  apply moves_bind; [apply moves_drainFutureRoundVotes|intros _].
  intros m. apply at_get. apply moves_when. intros _. apply moves_tryPropose.
Qed.

Lemma countTimeout_round r n : exists n', snd (whenM (0 <? r)
    (set (fun e => e <| consecutive_timeouts ::= fun k => addRound k 1 |>)) n) = n' /\
  fst (whenM (0 <? r) (set (fun e => e <| consecutive_timeouts ::= fun k => addRound k 1 |>)) n) = Ok () /\
  rtc micro n n' /\ round (engine n') = round (engine n).
Proof.
  destruct (0 <? r); cbn [whenM]; [|by exists n]. eexists. split_and!; [reflexivity|reflexivity| |reflexivity].
  apply micro_set. by apply m_quiet.
Qed.

Lemma moves_proposeStep h r n :
  h = height (engine n) -> entersRound (engine n) r ->
  rtc micro n (snd (proposeStep enterPropose enterPrecommit h r n)).
Proof.
  intros Hh Hr. unfold proposeStep. apply after_set; [done|by apply m_round|]. intros R.
  set (n1 := withEngine n _) in *. assert (E1 : round (engine n1) = r) by done. clearbody n1.
  destruct (countTimeout_round r n1) as (n2 & E2 & F2 & R2 & Hr2). unfold mbind at 1, Exec_bind at 1.
  destruct (whenM _ _ n1) as [o n2']; cbn [fst snd] in *; subst o n2'.
  assert (Hn2 : round (engine n2) = r) by congruence. assert (R3 : rtc micro n n2) by (by etrans). clear R R2 Hr2 E1.
  pose proof (moves_restoreOwnVotes n n2 r R3 Hn2) as R4. unfold mbind at 1, Exec_bind at 1.
  destruct (restoreOwnVotes r n2) as [[[]| |] n3]; cbn [snd] in *; [|done|done].
  apply at_get, at_ask. cbv beta zeta. apply then_moves; [done|apply moves_proposeRest].
Qed.

(** What is precommitted: a polka, which is locked first, the lock, or nil. *)
Lemma moves_precommitValue h r polka n0 n :
  h = height (engine n) -> r = round (engine n) -> step (engine n) = Step.Precommit ->
  quorumValue (env n) (engine n) false = polka -> rtc micro n0 n ->
  rtc micro n0 (snd ((match polka with
    | Some polka =>
      set (fun e => e <| valid_set := true |> <| valid_hash := polka |> <| valid_round := r |>);;
      (match proposals_by_hash (engine n) !! polka with Some b => emit (StoredLockedBlock h b) | None => mret () end);;
      logged (wal_append_lock h r polka);;
      set (fun e => e <| locked := true |> <| locked_hash := polka |> <| locked_round := r |>);;
      broadcastVote enterPrecommit true false polka
    | None =>
      if locked (engine n) then broadcastVote enterPrecommit true false (locked_hash (engine n))
      else broadcastVote enterPrecommit true true 0
    end) n)).
Proof.
  intros -> -> Hs Hq Hr. destruct polka as [polka|].
  - apply after_set; [done| |].
    { eapply m_valid; [unfold stepAtLeastPrevote; by rewrite Hs|exact Hq|by split]. }
    set (n1 := withEngine n _). intros R1.
    assert (Ha : exists n2, (match proposals_by_hash (engine n) !! polka with
      | Some b => emit (StoredLockedBlock (height (engine n)) b) | None => mret () end) n1 = (Ok (), n2) /\
      rtc micro n0 n2 /\ engine n2 = engine n1 /\ env n2 = env n1).
    { destruct (_ !! _); [|by exists n1]. eexists. split; [reflexivity|]. split; [|done].
      eapply rtc_r; [exact R1|]. by apply m_event. }
    destruct Ha as (n2 & E2 & R2 & He & Hw). eapply after_done; [exact E2|].
    eapply after_done; [reflexivity|]. eapply after_done; [reflexivity|].
    apply moves_broadcastVote; [|by cbn; rewrite He].
    eapply rtc_r; [exact R2|].
    assert (Hstep : step (engine n2) = Step.Precommit) by (rewrite He; exact Hs).
    assert (Hq2 : quorumValue (env n2) (engine n2) false = Some polka) by (rewrite He, Hw, <- Hq; by apply quorumValue_blocks).
    assert (El : round (engine n2) = round (engine n)) by (by rewrite He).
    assert (Eh : height (engine n2) = height (engine n)) by (by rewrite He).
    pose proof (m_lock n2 polka Hstep Hq2) as Hl. rewrite El, Eh in Hl. exact Hl.
  - destruct (locked (engine n)) eqn:El; apply moves_broadcastVote; [done| |done|];
      (split_and!; [done|by rewrite El|by rewrite El]).
Qed.

Lemma moves_precommitStep h r n :
  h = height (engine n) -> r = round (engine n) -> step (engine n) = Step.Prevote ->
  rtc micro n (snd (precommitStep enterPropose enterPrecommit h r n)).
Proof.
  intros Hh Hr Hs. unfold precommitStep. go.
  apply after_set; [done|by apply m_precommit|]. set (n1 := withEngine n _). intros R.
  assert (Hq : quorumValue (env n1) (engine n1) false = quorumValue (env n) (engine n) false)
    by (by apply quorumValue_blocks).
  pose proof (moves_precommitValue h r _ n n1 Hh Hr eq_refl Hq R) as Hv.
  change (proposals_by_hash (engine n1)) with (proposals_by_hash (engine n)) in Hv.
  change (locked (engine n1)) with (locked (engine n)) in Hv.
  change (locked_hash (engine n1)) with (locked_hash (engine n)) in Hv.
  unfold mbind at 1, Exec_bind at 1.
  match goal with |- context [match ?x with _ => _ end] => destruct x as [[[]| |] n2] end;
    cbn [snd] in *; try done.
  apply then_moves; [done|]. apply moves_settle, moves_checkPrecommitQuorum.
Qed.
End handlers.

Lemma machine_moves fuel :
  (forall h r n, h = height (engine n) -> entersRound (engine n) r -> rtc micro n (snd (enterPropose fuel h r n))) /\
  (forall h r n, h = height (engine n) -> r = round (engine n) -> step (engine n) = Step.Prevote ->
     rtc micro n (snd (enterPrecommit fuel h r n))).
Proof.
  unfold enterPropose, enterPrecommit. induction fuel as [|fuel [IHp IHc]]; [done|]. cbn [machine].
  destruct (machine fuel) as [enterP enterC]. split.
  - intros h r n. by apply moves_proposeStep.
  - intros h r n. by apply moves_precommitStep.
Qed.

Section methods.
Variable fuel : nat.
Let Hpropose := proj1 (machine_moves fuel).
Let Hprecommit := proj2 (machine_moves fuel).

Lemma moves_whenRunning m : moves m -> moves (whenRunning m).
Proof. intros Hm n. unfold whenRunning. apply at_get. by apply moves_when. Qed.

Lemma moves_onProposal p : moves (onProposal fuel p).
Proof. apply moves_whenRunning, moves_handleProposal; [apply Hpropose|apply Hprecommit]. Qed.

Lemma moves_onPrevote v : moves (onPrevote fuel v).
Proof. apply moves_whenRunning, moves_handleVote; [apply Hpropose|apply Hprecommit]. Qed.

Lemma moves_onPrecommit v : moves (onPrecommit fuel v).
Proof. apply moves_whenRunning, moves_handleVote; [apply Hpropose|apply Hprecommit]. Qed.

(** A timeout vote changes nothing the protocol depends on. *)
Lemma storeTimeoutVote_quiet tv n :
  snd (storeTimeoutVote tv n) = n \/ exists e', same_core (engine n) e' /\ snd (storeTimeoutVote tv n) = withEngine n e'.
Proof.
  unfold storeTimeoutVote. rewrite run_get. cbv zeta. repeat (case_match; [by left|]). right. eexists. split; [|reflexivity].
  done.
Qed.

Lemma moves_storeTimeoutVote tv : moves (storeTimeoutVote tv).
Proof.
  intros n. destruct (storeTimeoutVote_quiet tv n) as [->|(e' & Hs & ->)]; [done|]. by apply rtc_once, m_quiet.
Qed.

Lemma moves_onTimeoutVote tv : moves (onTimeoutVote fuel tv).
Proof.
  apply moves_whenRunning. intros n. unfold handleTimeoutVote. go.
  apply after; [done|apply moves_storeTimeoutVote|]. intros stored n' _ R. apply then_moves; [done|].
  apply moves_when. intros _ m. unfold retryEmergencyPropose. go. apply moves_tryPropose; [apply Hpropose|apply Hprecommit].
Qed.

(** ** Timers *)

Lemma moves_broadcastTimeoutVote r n :
  rtc micro n (snd (broadcastTimeoutVote r n)) /\ same_core (engine n) (engine (snd (broadcastTimeoutVote r n))).
Proof.
  unfold broadcastTimeoutVote. rewrite run_get, run_ask. cbv zeta. case_match; [done|]. case_match; [done|].
  unfold mbind, Exec_bind. set (tv := TimeoutVote.mk _ _ _ _ _). clearbody tv.
  pose proof (moves_storeTimeoutVote tv n) as Hm. pose proof (storeTimeoutVote_quiet tv n) as Hq.
  destruct (storeTimeoutVote tv n) as [[[]| |] n1]; cbn [snd] in *; (split;
    [first [eapply rtc_r; [exact Hm|by apply m_event]|exact Hm]|]);
    destruct Hq as [->|(e' & Hs & ->)]; done.
Qed.

(** The timer's work, after the timeout vote. *)
Lemma after_timeoutVote {A} r n (k : Bft A) :
  (forall n', rtc micro n n' -> same_core (engine n) (engine n') -> rtc micro n (snd (k n'))) ->
  rtc micro n (snd ((broadcastTimeoutVote r;; k) n)).
Proof.
  intros Hk. destruct (moves_broadcastTimeoutVote r n) as [Hm Hs]. unfold mbind, Exec_bind.
  destruct (broadcastTimeoutVote r n) as [[[]| |] n']; cbn [snd] in *; [by apply Hk|done|done].
Qed.

Lemma moves_stepTimeout : moves (stepTimeout fuel).
Proof.
  intros n. unfold stepTimeout. apply at_get. noid. destruct (step (engine n)) eqn:Es; [done| | | |done].
  - unfold onProposeTimeout. apply at_get. apply after_timeoutVote. intros n' R Hs.
    apply moves_enterPrevote; [apply Hpropose|apply Hprecommit|done|]. by rewrite (sc_step _ _ Hs).
  - unfold onPrevoteTimeout. apply at_get. apply after_timeoutVote. intros n' R Hs. etrans; [exact R|].
    apply Hprecommit; noid; by rewrite ?(sc_step _ _ Hs), ?(sc_round _ _ Hs), ?(sc_height _ _ Hs).
  - unfold onPrecommitTimeout. apply at_get, at_ask. cbv zeta. apply after_timeoutVote. intros n' R Hs.
    apply after; [done|apply moves_when; intros _; apply moves_enterCommit|]. intros [] n2 _ R2.
    apply at_get. case_match; [done|]. etrans; [exact R2|]. apply Hpropose; [done|by right; left].
Qed.

(** ** Entering a height *)

(** The engine after the reset and the replay. *)
Definition replayed (h : N) (n : node) : Engine :=
  let e := resetForNewHeight h (engine n) in
  if my_validator_id =? INVALID_ID then e
  else restoreLock (env n) h (foldl (fun e entry => replayEntry h entry e) e (wal_replay h (walog n))).

Lemma replayEntry_keeps h entry e :
  height (replayEntry h entry e) = height e /\ step (replayEntry h entry e) = step e.
Proof. unfold replayEntry. by repeat case_match. Qed.

Lemma replayAll_keeps h log : forall e,
  let e' := foldl (fun e entry => replayEntry h entry e) e log in height e' = height e /\ step e' = step e.
Proof.
  induction log as [|x l IH]; intros e; [done|]. cbn [foldl]. destruct (IH (replayEntry h x e)) as [E1 E2].
  destruct (replayEntry_keeps h x e) as [E3 E4]. by rewrite E1, E2, E3, E4.
Qed.

Lemma restoreLock_keeps w h e : height (restoreLock w h e) = height e /\ step (restoreLock w h e) = step e.
Proof. unfold restoreLock. by repeat case_match. Qed.

Lemma replayed_enters h n : height (replayed h n) = h /\ step (replayed h n) = Step.NewHeight.
Proof.
  unfold replayed. destruct (_ =? _); [done|].
  destruct (replayAll_keeps h (wal_replay h (walog n)) (resetForNewHeight h (engine n))) as [E1 E2].
  destruct (restoreLock_keeps (env n) h
    (foldl (fun e entry => replayEntry h entry e) (resetForNewHeight h (engine n)) (wal_replay h (walog n)))) as [E3 E4].
  by rewrite E3, E4, E1, E2.
Qed.

#[local] Opaque resetForNewHeight.

(** Sending the votes of the log again. *)
Lemma forEach_sent (votes : list (SignedKey * Vote.t)) : forall n, exists n',
  forEach (fun kv => emit (SentVote (snd kv) (snd (fst kv)))) votes n = (Ok (), n') /\
  rtc micro n n' /\ engine n' = engine n /\ walog n' = walog n.
Proof.
  induction votes as [|kv l IH]; intros n; [by exists n|].
  destruct (IH (n <| events ::= cons (SentVote (snd kv) (snd (fst kv))) |>)) as (n2 & E & R & He & Hw).
  exists n2. split_and!; [exact E| |exact He|exact Hw]. eapply rtc_l; [|exact R]. by apply m_event.
Qed.

Lemma bind_done {A B} (m : Bft A) (k : A -> Bft B) n a n' : m n = (Ok a, n') -> (m ≫= k) n = k a n'.
Proof. intros E. unfold mbind, Exec_bind. by rewrite E. Qed.

Lemma run_gets {A B} (f : node -> A) (k : A -> Bft B) n : (gets f ≫= k) n = k (f n) n.
Proof. reflexivity. Qed.

Lemma run_set {B} f (k : unit -> Bft B) n : (set f ≫= k) n = k () (withEngine n (f (engine n))).
Proof. reflexivity. Qed.

(** The round to resume at. *)
Definition resumeRound (h : N) (n : node) : N :=
  if my_validator_id =? INVALID_ID then 0
  else foldl (fun r kv => N.max r (snd (fst (fst kv))))
    (if locked (replayed h n) then locked_round (replayed h n) else 0)
    (std_sort signedKey_lt (map_to_list (signed_votes (replayed h n)))).

Lemma replayWal_run h n : let n0 := withEngine n (resetForNewHeight h (engine n)) in
  exists n1, replayWalForHeight h n0 = (Ok (resumeRound h n), n1) /\
    rtc micro (withEngine n (replayed h n)) n1 /\ engine n1 = replayed h n /\ walog n1 = walog n.
Proof.
  cbv zeta. unfold replayWalForHeight, resumeRound, replayed. destruct (_ =? _).
  { exists (withEngine n (resetForNewHeight h (engine n))). split; [exact eq_refl|].
    split; [apply rtc_refl|split; exact eq_refl]. }
  rewrite run_gets, run_set, run_ask, run_set, run_get. cbv beta zeta.
  match goal with |- context [forEach _ ?l] => set (votes := l) end.
  match goal with |- context [(_ ≫= _) ?m] => destruct (forEach_sent votes m) as (n2 & E & R & He & Hw) end.
  erewrite bind_done by exact E. exists n2. split; [reflexivity|]. split; [exact R|]. split; [exact He|exact Hw].
Qed.

Lemma setResume_run r n : exists n', whenM (0 <? r) (set (fun e => e <| consecutive_timeouts := r - 1 |>)) n = (Ok (), n') /\
  rtc micro n n' /\ same_core (engine n) (engine n').
Proof.
  destruct (0 <? r); cbn [whenM]; [|by exists n]. eexists. split_and!; [reflexivity| |done].
  apply rtc_once. by apply m_quiet.
Qed.

Lemma moves_enterNewHeight h n : rtc micro (withEngine n (replayed h n)) (snd (enterNewHeight fuel h n)).
Proof.
  unfold enterNewHeight. rewrite run_set.
  destruct (replayWal_run h n) as (n1 & E & R & He & _). erewrite bind_done by exact E.
  destruct (setResume_run (resumeRound h n) n1) as (n2 & E2 & R2 & Hs). erewrite bind_done by exact E2.
  destruct (replayed_enters h n) as [Hh Hn]. etrans; [exact R|]. etrans; [exact R2|].
  apply Hpropose; [|right; right].
  - by rewrite (sc_height _ _ Hs), He.
  - by rewrite (sc_step _ _ Hs), He.
Qed.

(** ** Public methods *)

Lemma run_truncateLog {B} k (m : unit -> Bft B) n : (truncateLog k ≫= m) n = m () (cut k n).
Proof. reflexivity. Qed.

Lemma cut_withEngine k n e : cut k (withEngine n e) = withEngine (cut k n) e.
Proof. reflexivity. Qed.

Lemma engine_withEngine n e : engine (withEngine n e) = e.
Proof. reflexivity. Qed.

Lemma withEngine_twice n e e' : withEngine (withEngine n e) e' = withEngine n e'.
Proof. reflexivity. Qed.

(** The node just before the reset for a height: at a start, after a commit, or
    when the chain has moved past the engine. *)
Inductive opens (n : node) : N -> node -> Prop :=
| o_start h e' :
    running (engine n) = false -> pending_height e' = None ->
    opens n h (withEngine (if 0 <? h then cut (h - 1) n else n) e')
| o_next h e' : running (engine n) = true -> pending_height (engine n) = Some h -> pending_height e' = None ->
    opens n h (withEngine n e')
| o_external h e' :
    running (engine n) = true -> default (height (engine n)) (pending_height (engine n)) < h -> pending_height e' = None ->
    opens n h (withEngine (cut (h - 1) n) e').

(** A call: transitions at the current height, or the entry of another height and
    transitions there. *)
Inductive turn (n n' : node) : Prop :=
| t_stay : rtc micro n n' -> turn n n'
| t_open h n1 : opens n h n1 -> rtc micro (withEngine n1 (replayed h n1)) n' -> turn n n'.

Lemma start_opens n h e :
  running (engine n) = false -> pending_height e = None ->
  exists n1, opens n h n1 /\ rtc micro (withEngine n1 (replayed h n1))
    (snd ((whenM (0 <? h) (truncateLog (h - 1));; set (fun e => e <| running := true |>);;
       enterNewHeight fuel h) (withEngine n e))).
Proof.
  intros Er Hp. exists (withEngine (if 0 <? h then cut (h - 1) n else n) (e <| running := true |>)).
  split; [by apply o_start|]. destruct (0 <? h); cbn [whenM].
  - rewrite run_truncateLog, cut_withEngine, run_set, engine_withEngine, (withEngine_twice _ e).
    apply moves_enterNewHeight.
  - rewrite (bind_done _ _ _ () (withEngine n e)) by reflexivity.
    rewrite run_set, engine_withEngine, (withEngine_twice _ e). apply moves_enterNewHeight.
Qed.

Lemma start_running h n : running (engine n) = true -> snd (start fuel h n) = n.
Proof. intros Er. unfold start. rewrite run_get, Er. reflexivity. Qed.

Lemma start_stopped h n : running (engine n) = false ->
  exists n1, opens n h n1 /\ rtc micro (withEngine n1 (replayed h n1)) (snd (start fuel h n)).
Proof.
  intros Er. unfold start. rewrite run_get, Er, run_set. apply start_opens; [exact Er|exact eq_refl].
Qed.

Lemma whenRunning_stopped m n : running (engine n) = false -> snd (whenRunning m n) = n.
Proof. intros Er. unfold whenRunning. rewrite run_get, Er. reflexivity. Qed.

Lemma stop_run n : snd (stop n) = withEngine n (if running (engine n)
  then (engine n) <| running := false |> <| round_timer := None |> else engine n).
Proof. reflexivity. Qed.

Lemma external_opens n e h :
  running (engine n) = true -> default (height (engine n)) (pending_height (engine n)) < h -> pending_height e = None ->
  turn n (snd ((truncateLog (h - 1);; enterNewHeight fuel h) (withEngine n e))).
Proof.
  intros Er Hh Hp. eapply t_open; [by apply (o_external n h e)|].
  rewrite run_truncateLog, cut_withEngine. apply moves_enterNewHeight.
Qed.

Lemma next_opens n e h :
  running (engine n) = true -> pending_height (engine n) = Some h -> pending_height e = None ->
  turn n (snd (enterNewHeight fuel h (withEngine n e))).
Proof. intros Er Hh Hp. eapply t_open; [by apply (o_next n h e)|]. apply moves_enterNewHeight. Qed.

Lemma expired_stays n :
  turn n (snd ((set (fun e => e <| round_timer := None |>);; stepTimeout fuel) n)).
Proof.
  apply t_stay. apply after_set; [done|by apply m_quiet|]. intros R. by apply then_moves, moves_stepTimeout.
Qed.

Lemma pollTimers_turn n : turn n (snd (pollTimers fuel n)).
Proof.
  unfold pollTimers, whenRunning. rewrite run_get. destruct (running (engine n)) eqn:Er; [|by apply t_stay]. cbn [whenM].
  rewrite run_get, run_ask. cbv zeta. noid.
  destruct (_ && _) eqn:Ee.
  { apply andb_true_iff in Ee as [_ Ee%N.ltb_lt]. rewrite run_set. apply external_opens; [exact Er|exact Ee|exact eq_refl]. }
  destruct (bool_decide _).
  { case_match; [|by apply t_stay]. apply t_stay, moves_tryApplyCommit. }
  destruct (pending_height (engine n)) as [next|] eqn:Ep.
  - case_match; [by apply t_stay|]. rewrite run_set. apply next_opens; [exact Er|exact Ep|exact eq_refl].
  - case_match; [by apply t_stay|]. apply expired_stays.
Qed.

End methods.
End steps.
