(* ===== verification/BftSafety.v ===== *)
(** * What one engine guarantees

    An engine in the hands of its node: public methods in any order, a world that
    changes between them, crashes that lose the engine and keep the log.  On a
    durable log it never signs two votes of one type for one height and round. *)

From S2P Require Import Prelude Types StateAccess Wire Codec Rotation Consensus Block BlockProcessor Bft BftLog BftSteps.

(** ** Runs *)

Inductive Call :=
| CallStart (h : N)
| CallStop
| CallNoteChainHead (h : N)
| CallProposal (p : Proposal.t)
| CallPrevote (v : Vote.t)
| CallPrecommit (v : Vote.t)
| CallTimeoutVote (tv : TimeoutVote.t)
| CallPollTimers.

Section runs.
Context {Cr : Crypto} {So : StdSort} {Wo : World} {Lo : WriteAheadLog} {Mo : MapOrder}.

Abbreviation node := (Node world wal).

Definition invoke (fuel : nat) (c : Call) : Exec node unit :=
  match c with
  | CallStart h => start fuel h
  | CallStop => stop
  | CallNoteChainHead h => noteChainHead h
  | CallProposal p => onProposal fuel p
  | CallPrevote v => onPrevote fuel v
  | CallPrecommit v => onPrecommit fuel v
  | CallTimeoutVote tv => onTimeoutVote fuel tv
  | CallPollTimers => pollTimers fuel
  end.

(** The node starts its engine above every height it has dropped from the log;
    heights stay below the width of their counter. *)
Definition admissible (n : node) (c : Call) : Prop :=
  height (engine n) + 1 < w64 /\
  match c with CallStart h => forall k, TruncatedLog k ∈ events n -> k < h | _ => True end.

(** One thing that happens to a node.  A call may end in any way. *)
Inductive happens (n : node) : node -> Prop :=
| h_call fuel c : admissible n c -> happens n (snd (invoke fuel c n))
| h_world w : happens n (n <| env := w |>)
| h_crash : happens n (n <| engine := freshEngine |>).

(** A node before its first call, on a log that holds nothing of it. *)
Definition fresh (n : node) : Prop := engine n = freshEngine /\ events n = [].

Definition reachable (n : node) : Prop := exists n0, fresh n0 /\ rtc happens n0 n.

(** The keys of the votes signed. *)
Definition signedKeys (n : node) : list SignedKey :=
  omap (fun ev => match ev with
                  | SignedVote v p => Some (Vote.height v, Vote.round v, p)
                  | _ => None end) (events n).

(** ** The invariant *)

(** Between crashes and across them: one vote per key, and each vote is in the
    log unless its height was dropped from it. *)
Record Kept (n : node) : Prop := {
  k_once : NoDup (signedKeys n);
  k_signer v p : SignedVote v p ∈ events n -> Vote.signer_id v = my_validator_id /\ my_validator_id <> INVALID_ID;
  k_logged v p : SignedVote v p ∈ events n ->
    (exists k, TruncatedLog k ∈ events n /\ Vote.height v <= k) \/
    VoteEntry v p ∈ wal_replay (Vote.height v) (walog n);
}.

(** While the engine runs: what it signed at its height is in its registry. *)
Record Live (n : node) : Prop := {
  l_registered v p : SignedVote v p ∈ events n -> Vote.height v = height (engine n) ->
    is_Some (signed_votes (engine n) !! (Vote.height v, Vote.round v, p));
  l_truncated k : TruncatedLog k ∈ events n -> k <= height (engine n);
  l_pending h : pending_height (engine n) = Some h -> h = height (engine n) +64 1;
}.

Lemma signedKeys_elem n key :
  key ∈ signedKeys n <-> exists v p, SignedVote v p ∈ events n /\ key = (Vote.height v, Vote.round v, p).
Proof.
  unfold signedKeys. rewrite list_elem_of_omap. split.
  - intros (ev & Hin & He). destruct ev; try done. injection He as <-. eauto.
  - intros (v & p & Hin & ->). by exists (SignedVote v p).
Qed.

(** A change that signs nothing, drops nothing from the log and keeps the
    registry. *)
Record silent (n n' : node) : Prop := {
  s_keys : signedKeys n' = signedKeys n;
  s_signed v p : SignedVote v p ∈ events n' <-> SignedVote v p ∈ events n;
  s_truncated k : TruncatedLog k ∈ events n' <-> TruncatedLog k ∈ events n;
  s_log h entry : entry ∈ wal_replay h (walog n) -> entry ∈ wal_replay h (walog n');
}.

Lemma silent_kept n n' : silent n n' -> Kept n -> Kept n'.
Proof.
  intros [Ek Es Et El] [K1 K2 K3]. split; [by rewrite Ek| |]; intros v p; rewrite Es; [apply K2|].
  intros Hin. destruct (K3 v p Hin) as [(k & Hk & Hle)|Hr]; [left; exists k; by rewrite Et|right; auto].
Qed.

Lemma silent_live n n' :
  silent n n' -> height (engine n') = height (engine n) -> signed_votes (engine n') = signed_votes (engine n) ->
  (pending_height (engine n') = pending_height (engine n) \/
   pending_height (engine n') = Some (height (engine n) +64 1)) ->
  Live n -> Live n'.
Proof.
  intros [Ek Es Et El] Hh Hs Hp [L1 L2 L3]. split.
  - intros v p. rewrite Es, Hh, Hs. apply L1.
  - intros k. rewrite Et, Hh. apply L2.
  - intros h Hn. rewrite Hh. destruct Hp as [E|E]; rewrite E in Hn; [by apply L3|by injection Hn as <-].
Qed.

Lemma silent_trans n n' n'' : silent n n' -> silent n' n'' -> silent n n''.
Proof.
  intros [A1 A2 A3 A4] [B1 B2 B3 B4]. split; [by rewrite B1| | |by auto]; intros; by rewrite ?B2, ?B3, ?A2, ?A3.
Qed.

Lemma silent_same n n' : events n' = events n -> walog n' = walog n -> silent n n'.
Proof. intros He Hw. unfold signedKeys. split; intros; unfold signedKeys; by rewrite ?He, ?Hw in *. Qed.

Lemma silent_event n n' ev :
  events n' = ev :: events n -> walog n' = walog n ->
  (quietEvent ev = true \/ exists b ok, ev = Committed b ok) -> silent n n'.
Proof.
  intros He Hw Hq. split.
  - unfold signedKeys. rewrite He. by destruct Hq as [Hq|(b & ok & ->)]; [destruct ev|].
  - intros v p. rewrite He, elem_of_cons. split; [|by right]. intros [<-|Hin]; [|done].
    by destruct Hq as [|(b & ok & [=])].
  - intros k. rewrite He, elem_of_cons. split; [|by right]. intros [<-|Hin]; [|done].
    by destruct Hq as [|(b & ok & [=])].
  - intros h entry. by rewrite Hw.
Qed.

Context {Du : DurableLog}.

(** The two transitions that matter. *)
Lemma sign_step n (v : Vote.t) (p : bool) :
  Vote.height v = height (engine n) -> Vote.round v = round (engine n) -> Vote.signer_id v = my_validator_id ->
  my_validator_id <> INVALID_ID ->
  signed_votes (engine n) !! (height (engine n), round (engine n), p) = None ->
  let n' := n <| engine ::= fun e => e <| signed_votes ::= <[(height e, round e, p) := v]> |> |>
              <| walog ::= wal_append_vote v p |> <| events ::= cons (SignedVote v p) |> in
  Kept n -> Live n -> Kept n' /\ Live n'.
Proof.
  intros Hh Hr Hs Hm Hn n' [K1 K2 K3] [L1 L2 L3]. split; split.
  - change (NoDup ((Vote.height v, Vote.round v, p) :: signedKeys n)). constructor; [|done].
    intros (v' & p' & Hin & [= E1 E2 ->])%signedKeys_elem.
    destruct (L1 v' p' Hin) as [x Hx]; [congruence|]. rewrite <- E1, <- E2, Hh, Hr in Hx. congruence.
  - intros v' p' [[= -> ->]|Hin]%elem_of_cons; [done|by apply (K2 v' p')].
  - intros v' p' [[= -> ->]|Hin]%elem_of_cons; [right; apply replay_appended|].
    destruct (K3 v' p' Hin) as [(k & Hk & Hle)|Hr']; [left; exists k; split; [by right|done]|].
    right. by apply replay_append_vote.
  - intros v' p' Hin Hh'. cbn [engine signed_votes n' update]. cbn.
    destruct (decide ((Vote.height v', Vote.round v', p') = (height (engine n), round (engine n), p))) as [->|Hne].
    + rewrite lookup_insert_eq. eauto.
    + rewrite lookup_insert_ne by congruence. apply L1; [|done].
      apply elem_of_cons in Hin as [[= -> ->]|Hin]; [|done]. by rewrite Hh, Hr in Hne.
  - intros k [[=]|Hin]%elem_of_cons. by apply L2.
  - apply L3.
Qed.

Lemma cut_kept k n : Kept n -> Kept (cut k n).
Proof.
  intros [K1 K2 K3]. split; [done| |].
  - intros v p [[=]|Hin]%elem_of_cons. by apply (K2 v p).
  - intros v p [[=]|Hin]%elem_of_cons. destruct (decide (Vote.height v <= k)) as [|Hgt].
    { left. exists k. split; [left|done]. }
    destruct (K3 v p Hin) as [(j & Hj & Hle)|Hr]; [left; exists j; split; [by right|done]|].
    right. apply replay_truncate; [lia|done].
Qed.

Lemma cut_live n : Live n -> Live (cut (height (engine n)) n).
Proof.
  intros [L1 L2 L3]. split.
  - intros v p [[=]|Hin]%elem_of_cons. by apply L1.
  - intros k [[= ->]|Hin]%elem_of_cons; [done|by apply L2].
  - apply L3.
Qed.

Lemma silent_keeps n n' :
  silent n n' -> height (engine n') = height (engine n) -> signed_votes (engine n') = signed_votes (engine n) ->
  (pending_height (engine n') = pending_height (engine n) \/
   pending_height (engine n') = Some (height (engine n) +64 1)) ->
  Kept n /\ Live n -> Kept n' /\ Live n'.
Proof. intros Hs Hh Hv Hp [HK HL]. split; [by eapply silent_kept|by eapply silent_live]. Qed.

(** A transition of the engine alone. *)
Lemma core_keeps n e e' :
  same_core e e' -> height e = height (engine n) -> signed_votes e = signed_votes (engine n) ->
  (pending_height e = pending_height (engine n) \/ pending_height e = Some (height (engine n) +64 1)) ->
  Kept n /\ Live n -> Kept (withEngine n e') /\ Live (withEngine n e').
Proof.
  intros Hs Hh Hv Hp. apply silent_keeps; [by apply silent_same| | |]; cbn [withEngine engine].
  - etrans; [apply (sc_height _ _ Hs)|exact Hh].
  - etrans; [apply (sc_signed _ _ Hs)|exact Hv].
  - cbn. rewrite (sc_pending _ _ Hs). exact Hp.
Qed.

Lemma micro_keeps n n' : micro n n' -> Kept n /\ Live n -> Kept n' /\ Live n'.
Proof.
  intros Hm. destruct Hm;
    try (match goal with Hs : same_core _ _ |- _ =>
      eapply core_keeps; [exact Hs|try done; by destruct p|try done; by destruct p|
        first [by left|by right|left; by destruct p]] end).
  all: try (apply silent_keeps; [by apply silent_same|done|done|by left]).
  - apply silent_keeps; [|done|done|by left]. eapply silent_event; [done|done|by left].
  - apply silent_keeps; [|done|done|by left]. destruct (silent_same n n eq_refl eq_refl) as [? ? ? ?]. split; try done.
    intros h entry. apply replay_append_lock.
  - intros [HK HL]. by apply sign_step.
  - apply silent_keeps; [by apply silent_same|by destruct p|by destruct p|left; by destruct p].
  - apply silent_keeps; [|done|done|by left]. eapply silent_event; [done|done|right; eauto].
  - set (n1 := n <| env := snd (on_block_committed (env n) b) |> <| events ::= _ |>).
    intros [HK HL]. assert (Hs : silent n n1).
    { apply (silent_trans _ (n <| env := snd (on_block_committed (env n) b) |> <| events ::= cons (Committed b true) |>));
        (eapply silent_event; [reflexivity|reflexivity|]); [right; eauto|by left]. }
    apply (core_keeps (cut (height (engine n)) n1) _ _ H1); [done|done|by right|].
    split; [by apply cut_kept, (silent_kept n)|]. apply (cut_live n1). by apply (silent_live n); try done; left.
Qed.

Lemma micros_keep n n' : rtc micro n n' -> Kept n /\ Live n -> Kept n' /\ Live n'.
Proof. induction 1 as [|n n1 n' Hm _ IH]; [done|]. intros Hi. by apply IH, (micro_keeps n). Qed.
(** ** Entering a height *)

Lemma replayEntry_registry h entry e key :
  is_Some (signed_votes e !! key) -> is_Some (signed_votes (replayEntry h entry e) !! key).
Proof.
  intros Hk. unfold replayEntry. destruct entry as [v p|lh r hash]; [|by repeat case_match].
  destruct (negb _); [done|]. destruct (signed_votes e !! (Vote.height v, Vote.round v, p)) eqn:E; [done|].
  cbn. destruct (decide (key = (Vote.height v, Vote.round v, p))) as [->|Hne].
  - rewrite lookup_insert_eq. eauto.
  - by rewrite lookup_insert_ne.
Qed.

Lemma replayEntry_adds (v : Vote.t) (p : bool) e :
  Vote.signer_id v = my_validator_id ->
  is_Some (signed_votes (replayEntry (Vote.height v) (VoteEntry v p) e) !! (Vote.height v, Vote.round v, p)).
Proof.
  intros Hs. unfold replayEntry. rewrite Hs, !N.eqb_refl. cbn [andb negb].
  destruct (signed_votes e !! _) eqn:E; [rewrite E; eauto|]. cbn. rewrite lookup_insert_eq. eauto.
Qed.

Lemma replayAll_registers (v : Vote.t) (p : bool) log : forall e,
  Vote.signer_id v = my_validator_id ->
  VoteEntry v p ∈ log \/ is_Some (signed_votes e !! (Vote.height v, Vote.round v, p)) ->
  is_Some (signed_votes (foldl (fun e entry => replayEntry (Vote.height v) entry e) e log)
    !! (Vote.height v, Vote.round v, p)).
Proof.
  induction log as [|x l IH]; intros e Hs Hin; cbn [foldl].
  - by destruct Hin as [?%elem_of_nil|].
  - apply IH; [done|]. destruct Hin as [[<-|Hin]%elem_of_cons|Hin]; [right; by apply replayEntry_adds|by left|right].
    by apply replayEntry_registry.
Qed.

Lemma restoreLock_registry w h e :
  signed_votes (restoreLock w h e) = signed_votes e /\ pending_height (restoreLock w h e) = pending_height e.
Proof. unfold restoreLock. by repeat case_match. Qed.

Lemma replayEntry_pending h entry e : pending_height (replayEntry h entry e) = pending_height e.
Proof. unfold replayEntry. by repeat case_match. Qed.

Lemma replayAll_pending h log : forall e,
  pending_height (foldl (fun e entry => replayEntry h entry e) e log) = pending_height e.
Proof. induction log as [|x l IH]; intros e; [done|]. cbn [foldl]. by rewrite IH, replayEntry_pending. Qed.

Lemma replayed_pending h n : pending_height (replayed h n) = pending_height (engine n).
Proof.
  unfold replayed. destruct (_ =? _); [done|].
  destruct (restoreLock_registry (env n) h
    (foldl (fun e entry => replayEntry h entry e) (resetForNewHeight h (engine n)) (wal_replay h (walog n)))) as [_ ->].
  by rewrite replayAll_pending.
Qed.

Lemma replayed_registers n v p :
  Vote.signer_id v = my_validator_id -> my_validator_id <> INVALID_ID ->
  VoteEntry v p ∈ wal_replay (Vote.height v) (walog n) ->
  is_Some (signed_votes (replayed (Vote.height v) n) !! (Vote.height v, Vote.round v, p)).
Proof.
  intros Hs Hm Hin. unfold replayed. rewrite (proj2 (N.eqb_neq _ _) Hm). cbv zeta.
  match goal with |- context [restoreLock ?w ?h ?e] => rewrite (proj1 (restoreLock_registry w h e)) end.
  apply replayAll_registers; [done|by left].
Qed.

Lemma enter_live h n :
  Kept n -> pending_height (engine n) = None -> (forall k, TruncatedLog k ∈ events n -> k < h) ->
  Live (withEngine n (replayed h n)).
Proof.
  intros [K1 K2 K3] Hp Ht. destruct (replayed_enters h n) as [Hh _]. split; cbn [withEngine engine].
  - intros v p Hin. cbn. rewrite Hh. intros <-. destruct (K2 v p Hin) as [Hs Hm].
    destruct (K3 v p Hin) as [(k & Hk & Hle)|Hr]; [apply Ht in Hk; lia|]. by apply replayed_registers.
  - intros k Hin. cbn. rewrite Hh. apply Ht in Hin. lia.
  - cbn. rewrite replayed_pending, Hp. done.
Qed.

Lemma kept_withEngine n e : Kept n -> Kept (withEngine n e).
Proof. apply silent_kept. by apply silent_same. Qed.

Lemma opens_keeps n h n1 :
  opens n h n1 -> Kept n -> (running (engine n) = true -> Live n) -> height (engine n) + 1 < w64 ->
  (running (engine n) = false -> forall k, TruncatedLog k ∈ events n -> k < h) ->
  Kept n1 /\ pending_height (engine n1) = None /\ forall k, TruncatedLog k ∈ events n1 -> k < h.
Proof.
  intros Ho HK HL Hw Ht. destruct Ho as [h e' Er Hp|h e' Er Hn Hp|h e' Er Hh Hp].
  - split_and!; [apply kept_withEngine|done|].
    + destruct (0 <? h); [by apply cut_kept|done].
    + destruct (N.ltb_spec 0 h); [|by apply Ht]. intros k [[= ->]|Hin]%elem_of_cons; [lia|by apply Ht].
  - destruct (HL Er) as [L1 L2 L3]. split_and!; [by apply kept_withEngine|done|]. intros k Hk%L2.
    rewrite (L3 _ Hn). rewrite add64_id by done. lia.
  - destruct (HL Er) as [L1 L2 L3]. split_and!; [by apply kept_withEngine, cut_kept|done|].
    assert (height (engine n) < h).
    { destruct (pending_height (engine n)) as [x|] eqn:E; cbn in Hh; [|done].
      rewrite (L3 _ eq_refl), add64_id in Hh by done. lia. }
    intros k [[= ->]|Hin%L2]%elem_of_cons; lia.
Qed.

(** ** The theorem *)

Definition Inv (n : node) : Prop := Kept n /\ (running (engine n) = true -> Live n).

Lemma enter_keeps n h n1 n' :
  opens n h n1 -> rtc micro (withEngine n1 (replayed h n1)) n' -> Inv n -> height (engine n) + 1 < w64 ->
  (running (engine n) = false -> forall k, TruncatedLog k ∈ events n -> k < h) -> Inv n'.
Proof.
  intros Ho Hr [HK HL] Hw Ht. destruct (opens_keeps _ _ _ Ho HK HL Hw Ht) as (HK1 & Hp & Ht1).
  destruct (micros_keep _ _ Hr) as [HK' HL'].
  - split; [by apply kept_withEngine|by apply enter_live].
  - by split.
Qed.

Lemma turn_keeps n n' : turn n n' -> running (engine n) = true -> Inv n -> height (engine n) + 1 < w64 -> Inv n'.
Proof.
  intros Hturn Er HI Hw. destruct Hturn as [Hr|h n1 Ho Hr].
  - destruct HI as [HK HL]. destruct (micros_keep _ _ Hr) as [HK' HL']; [split; [done|by apply HL]|by split].
  - eapply enter_keeps; try done. by rewrite Er.
Qed.

(** A method that does nothing while the engine is stopped. *)
Lemma guarded_keeps m n :
  (running (engine n) = true -> turn n (snd (whenRunning m n))) -> Inv n -> height (engine n) + 1 < w64 ->
  Inv (snd (whenRunning m n)).
Proof.
  intros Hm HI Hw. destruct (running (engine n)) eqn:Er; [eapply turn_keeps; by try apply Hm|].
  by rewrite whenRunning_stopped.
Qed.

Lemma invoke_keeps fuel c n : admissible n c -> Inv n -> Inv (snd (invoke fuel c n)).
Proof.
  intros [Hw Ht] HI. destruct c as [h| |h|p|v|v|tv|]; cbn [invoke].
  - destruct (running (engine n)) eqn:Er; [by rewrite start_running|].
    destruct (start_stopped fuel h n Er) as (n1 & Ho & Hr). by eapply enter_keeps.
  - rewrite stop_run. destruct HI as [HK HL]. split; [by apply kept_withEngine|].
    rewrite engine_withEngine. destruct (running (engine n)) eqn:Er; [discriminate|]. rewrite Er. discriminate.
  - destruct HI as [HK HL]. split; [by apply kept_withEngine|]. intros Er. specialize (HL Er).
    apply (silent_live n); [by apply silent_same|done|done|by left|done].
  - apply guarded_keeps; [|done|done]. intros _. apply t_stay, moves_onProposal.
  - apply guarded_keeps; [|done|done]. intros _. apply t_stay, moves_onPrevote.
  - apply guarded_keeps; [|done|done]. intros _. apply t_stay, moves_onPrecommit.
  - apply guarded_keeps; [|done|done]. intros _. apply t_stay, moves_onTimeoutVote.
  - apply guarded_keeps; [|done|done]. intros _. apply pollTimers_turn.
Qed.

Lemma happens_keeps n n' : happens n n' -> Inv n -> Inv n'.
Proof.
  intros [fuel c Ha|w|]; [by apply invoke_keeps| |].
  - intros [HK HL]. split; [apply (silent_kept n); [by apply silent_same|done]|]. intros Er.
    apply (silent_live n); [by apply silent_same|done|done|by left|by apply HL].
  - intros [HK HL]. split; [apply (silent_kept n); [by apply silent_same|done]|discriminate].
Qed.

Lemma reachable_Inv n : reachable n -> Inv n.
Proof.
  intros (n0 & [He Hev] & Hr). assert (H0 : Inv n0).
  { split; [|by rewrite He]. split; unfold signedKeys; rewrite Hev; [constructor| |];
      intros v p ?%elem_of_nil; done. }
  clear He Hev. induction Hr as [|n0 n1 n Hh _ IH]; [done|]. by apply IH, (happens_keeps n0).
Qed.

(** C10: an engine never signs twice.  Whatever is called, in whatever order and
    with whatever outcome, through crashes, restarts and changes of the world,
    the votes it signs have distinct heights, rounds and types: on a durable log
    it cannot equivocate within a vote type. *)
Theorem never_signs_twice n : reachable n -> NoDup (signedKeys n).
Proof. intros [[HK _ _] _]%reachable_Inv. exact HK. Qed.

(** ** Runs that are computed *)

Definition admissibleb (n : node) (c : Call) : bool :=
  (height (engine n) + 1 <? w64) &&
  match c with
  | CallStart h => forallb (fun ev => match ev with TruncatedLog k => k <? h | _ => true end) (events n)
  | _ => true
  end.

Lemma admissibleb_spec n c : admissibleb n c = true -> admissible n c.
Proof.
  intros [Hh%N.ltb_lt Hc]%andb_true_iff. split; [done|]. destruct c as [h| | | | | | |]; try done.
  intros k Hin%list_elem_of_In. rewrite forallb_forall in Hc. specialize (Hc _ Hin). by apply N.ltb_lt.
Qed.

(** What is done to a node: a call, a new world, or a crash. *)
Inductive Deed := Do (c : Call) | Pass (w : world) | Fall.

Definition doDeed (fuel : nat) (d : Deed) (n : node) : option node :=
  match d with
  | Do c => if admissibleb n c then Some (snd (invoke fuel c n)) else None
  | Pass w => Some (n <| env := w |>)
  | Fall => Some (n <| engine := freshEngine |>)
  end.

Fixpoint doAll (fuel : nat) (ds : list Deed) (n : node) : option node :=
  match ds with [] => Some n | d :: ds => n ← doDeed fuel d n; doAll fuel ds n end.

Lemma doAll_happens fuel ds : forall n n', doAll fuel ds n = Some n' -> rtc happens n n'.
Proof.
  induction ds as [|d ds IH]; intros n n'; cbn [doAll]; [intros [= ->]; done|].
  destruct (doDeed fuel d n) as [n1|] eqn:E; [|done]. cbn. intros Hr. eapply rtc_l; [|by apply IH].
  destruct d as [c|w|]; cbn [doDeed] in E; [|injection E as <-; constructor|injection E as <-; constructor].
  destruct (admissibleb n c) eqn:Ea; [|done]. injection E as <-. constructor. by apply admissibleb_spec.
Qed.
End runs.
