(* ===== verification/BftCommit.v ===== *)
(** * What an engine commits

    A block the engine hands over carries a certificate: signatures of a quorum of
    the block's set over its height, the round of the quorum and its hash.  The
    world may change in any way under the running engine, as it does when the node
    applies relayed blocks: the set and the keys are those of worlds the engine was
    called in at the block's height.  When these have the validators of the world
    the block is given to, the check the block processor makes of the certificate
    ([checkQuorum]) accepts it: the block is not refused for its quorum. *)

From S2P Require Import Prelude Types StateAccess Wire Codec Rotation Consensus Block BlockProcessor Bft BftLog BftSteps BftSafety.

(** ** Lists *)






(** ** Worlds, logs and certificates *)

Section commits.
Context {Cr : Crypto} {So : StdSort} {Wo : World} {Lo : WriteAheadLog} {Mo : MapOrder}.

Abbreviation node := (Node world wal).

(** Worlds with the same validators. *)
Definition sameValidators (w w' : world) : Prop :=
  (forall em, active_set w' em = active_set w em) /\
  forall id, state_lookup_validator w' id = state_lookup_validator w id.

(** The node around the engine: of what the engine calls, only an applied block
    changes the validators (what happens between two calls is not restricted);
    members are registered, and fewer than the largest index; the node signs with
    the key registered for it; the block stored with a lock is of the lock's
    height. *)
Class OrderlyWorld : Prop := {
  simulate_calm w b : sameValidators w (snd (simulate_block w b));
  refused_calm w b : fst (on_block_committed w b) = false -> sameValidators w (snd (on_block_committed w b));
  members_known w em id : id ∈ active_set w em -> is_Some (state_lookup_validator w id);
  members_few w em : N.of_nat (length (active_set w em)) < INVALID_INDEX;
  own_key w v h : state_lookup_validator w my_validator_id = Some v ->
    ed25519_verify h (ValidatorInfo.effectiveConsensusKey v) (sign h) = true;
  loaded_height w h b : wal_load_locked_block w h = Some b -> BlockHeader.height (Block.header b) = h;
}.


(** The worlds an engine was called in, by the height it was at. *)
Abbreviation Worlds := (N -> world -> Prop).





Context {Ow : OrderlyWorld}.






(** ** The invariant *)







Context {Ex : ExactLog}.







Section calls.
Context (P : Worlds) (h0 : N) (w0 : world) (Hseen : P h0 w0).

End calls.
















Section calls.
Context (P : Worlds) (h0 : N) (w0 : world) (Hseen : P h0 w0).


Lemma sameValidators_refl w : sameValidators w w.
Proof. done. Qed.





End calls.

(** ** Entering a height *)










(** ** Runs *)


(** Calls of any kind and outcome, crashes, and changes of the world, of which
    nothing is assumed: the node may apply blocks it is relayed or synchronises,
    with other validators after them, under a running engine. *)
Inductive trail (n0 : node) : list (N * world) -> node -> Prop :=
| tr_here : trail n0 [] n0
| tr_call H n fuel c : trail n0 H n ->
    trail n0 ((height (engine (snd (invoke fuel c n))), env n) :: H) (snd (invoke fuel c n))
| tr_world H n w : trail n0 H n -> trail n0 H (n <| env := w |>)
| tr_crash H n : trail n0 H n -> trail n0 H (n <| engine := freshEngine |>).












Lemma doAll_trail n0 fuel ds : forall H n n', trail n0 H n -> doAll fuel ds n = Some n' -> exists H', trail n0 H' n'.
Proof.
  induction ds as [|d ds IH]; intros H n n' Ht; cbn [doAll]; [intros [= <-]; eauto|].
  destruct (doDeed fuel d n) as [n1|] eqn:E; [|done]. cbn.
  destruct d as [c|w|]; cbn [doDeed] in E.
  - destruct (admissibleb n c); [|done]. injection E as <-. apply IH with (1 := tr_call _ _ _ _ _ Ht).
  - injection E as <-. apply IH with (1 := tr_world _ _ _ _ Ht).
  - injection E as <-. apply IH with (1 := tr_crash _ _ _ Ht).
Qed.
End commits.
