(* ===== verification/BftTermination.v ===== *)
(** * The engine always returns

    Entering a round and entering its precommit step call each other through the
    votes they replay.  Each nested entry is at a higher round, or at a later step
    of the same round, and rounds come from messages and from the log: with more
    fuel than twice the largest of them every call returns. *)

From S2P Require Import Prelude Types StateAccess Wire Codec Rotation Consensus Block BlockProcessor Bft BftLog BftSteps BftSafety.

Section termination.
Context {Cr : Crypto} {So : StdSort} {Wo : World} {Lo : WriteAheadLog} {Mo : MapOrder} {Ex : ExactLog}.

Abbreviation node := (Node world wal).
Abbreviation Bft := (Exec node).

(** The largest round around. *)
Variable M : N.

(** ** Rounds in the buffers and in the log *)

Definition voteBound (v : Vote.t) : Prop := Vote.round v <= M.
Definition proposalBound (p : Proposal.t) : Prop := Proposal.round p <= M.
Definition storeBound (s : gmap N VoteMap) : Prop := map_Forall (fun _ c => map_Forall (fun _ v => voteBound v) c) s.

Record BoundedE (e : Engine) : Prop := {
  b_round : round e <= M;
  b_hints : map_Forall (fun _ r => r <= M) (round_hints e);
  b_prevotes : Forall voteBound (pending_prevotes e);
  b_precommits : Forall voteBound (pending_precommits e);
  b_roundPrevotes : storeBound (future_round_prevotes e);
  b_roundPrecommits : storeBound (future_round_precommits e);
  b_heightPrevotes : storeBound (future_height_prevotes e);
  b_heightPrecommits : storeBound (future_height_precommits e);
  b_proposals : map_Forall (fun _ p => proposalBound p) (future_proposals e);
  b_heightProposals : map_Forall (fun _ p => proposalBound p) (future_height_proposals e);
}.

Definition entryRound (entry : WalEntry) : N :=
  match entry with VoteEntry v _ => Vote.round v | LockEntry _ r _ => r end.

Definition LogBounded (l : wal) : Prop := forall h entry, entry ∈ wal_replay h l -> entryRound entry <= M.

Definition Bounded (n : node) : Prop := BoundedE (engine n) /\ LogBounded (walog n).

(** ** What is left to enter *)

Definition early (s : Step.t) : N :=
  match s with Step.Precommit | Step.Commit => 0 | _ => 1 end.

Definition ahead (e : Engine) : N := 2 * (M - round e) + early (step e).

(** [m] returns from every state with at most [K] left, and does not raise it. *)
Definition runs {A} (K : N) (m : Bft A) : Prop :=
  forall n, Bounded n -> ahead (engine n) <= K -> exists a n', m n = (Ok a, n') /\ Bounded n' /\ ahead (engine n') <= K.

Lemma runs_ret {A} K (a : A) : runs K (mret a).
Proof. intros n Hb Hl. by exists a, n. Qed.

Lemma runs_bind {A B} K (m : Bft A) (k : A -> Bft B) : runs K m -> (forall a, runs K (k a)) -> runs K (m ≫= k).
Proof.
  intros Hm Hk n Hb Hl. destruct (Hm n Hb Hl) as (a & n1 & E & Hb1 & Hl1).
  destruct (Hk a n1 Hb1 Hl1) as (b & n2 & E2 & Hb2 & Hl2). exists b, n2. by rewrite (bind_done _ _ _ _ _ E).
Qed.

(** A read: what follows may use what was read. *)
Lemma runs_get {A B} K (f : Engine -> A) (k : A -> Bft B) :
  (forall n, Bounded n -> ahead (engine n) <= K ->
     exists b n', k (f (engine n)) n = (Ok b, n') /\ Bounded n' /\ ahead (engine n') <= K) ->
  runs K (get f ≫= k).
Proof. intros Hk n Hb Hl. rewrite run_get. by apply Hk. Qed.

Lemma runs_ask {A B} K (f : world -> A) (k : A -> Bft B) : (forall a, runs K (k a)) -> runs K (ask f ≫= k).
Proof. intros Hk n Hb Hl. rewrite run_ask. by apply Hk. Qed.

Lemma runs_when K b (m : Bft unit) : (b = true -> runs K m) -> runs K (whenM b m).
Proof. intros Hm. destruct b; [by apply Hm|apply runs_ret]. Qed.

Lemma runs_emit K ev : runs K (emit ev).
Proof. intros n Hb Hl. by eexists _, _. Qed.

Lemma runs_forEach {A} K (P : A -> Prop) (f : A -> Bft unit) l :
  (forall a, P a -> runs K (f a)) -> Forall P l -> runs K (forEach f l).
Proof.
  intros Hf. induction 1 as [|x l Hx _ IH]; [apply runs_ret|]. cbn [forEach]. apply runs_bind; [by apply Hf|by intros _].
Qed.

(** A change of the engine. *)
Lemma set_runs K n f (k : Bft unit) :
  Bounded n -> BoundedE (f (engine n)) -> ahead (f (engine n)) <= K -> runs K k ->
  exists a n', (set f;; k) n = (Ok a, n') /\ Bounded n' /\ ahead (engine n') <= K.
Proof. intros [Hb Hlog] Hf Hl Hk. rewrite run_set. apply Hk; [split; [exact Hf|exact Hlog]|exact Hl]. Qed.

(** Fields that matter here. *)
Record same_buffers (e e' : Engine) : Prop := {
  sb_round : round e' = round e;
  sb_step : step e' = step e;
  sb_hints : round_hints e' = round_hints e;
  sb_prevotes : pending_prevotes e' = pending_prevotes e;
  sb_precommits : pending_precommits e' = pending_precommits e;
  sb_roundPrevotes : future_round_prevotes e' = future_round_prevotes e;
  sb_roundPrecommits : future_round_precommits e' = future_round_precommits e;
  sb_heightPrevotes : future_height_prevotes e' = future_height_prevotes e;
  sb_heightPrecommits : future_height_precommits e' = future_height_precommits e;
  sb_proposals : future_proposals e' = future_proposals e;
  sb_heightProposals : future_height_proposals e' = future_height_proposals e;
}.

Lemma same_bounded e e' : same_buffers e e' -> BoundedE e -> BoundedE e' /\ ahead e' = ahead e.
Proof.
  intros Hs [B1 B2 B3 B4 B5 B6 B7 B8 B9 B10]. unfold ahead.
  rewrite (sb_round _ _ Hs), (sb_step _ _ Hs). split; [|done].
  split; rewrite ?(sb_round _ _ Hs), ?(sb_hints _ _ Hs), ?(sb_prevotes _ _ Hs), ?(sb_precommits _ _ Hs),
    ?(sb_roundPrevotes _ _ Hs), ?(sb_roundPrecommits _ _ Hs), ?(sb_heightPrevotes _ _ Hs),
    ?(sb_heightPrecommits _ _ Hs), ?(sb_proposals _ _ Hs), ?(sb_heightProposals _ _ Hs); done.
Qed.

Lemma runs_set K f : (forall e, same_buffers e (f e)) -> runs K (set f).
Proof.
  intros Hf n [Hb Hlog] Hl. exists (), (withEngine n (f (engine n))). split; [reflexivity|].
  destruct (same_bounded _ _ (Hf (engine n)) Hb) as [Hb' El]. split; [by split|]. rewrite engine_withEngine. lia.
Qed.

Lemma runs_setB K f : (forall e, BoundedE e -> BoundedE (f e) /\ ahead (f e) = ahead e) -> runs K (set f).
Proof.
  intros Hf n [Hb Hlog] Hl. exists (), (withEngine n (f (engine n))). split; [reflexivity|].
  destruct (Hf (engine n) Hb) as [Hb' El]. split; [by split|]. rewrite engine_withEngine. lia.
Qed.

Definition returns {A} (K : N) (m : Bft A) (n : node) : Prop :=
  exists a n', m n = (Ok a, n') /\ Bounded n' /\ ahead (engine n') <= K.

Lemma ret_returns {A} K (a : A) n : Bounded n -> ahead (engine n) <= K -> returns K (mret a) n.
Proof. apply runs_ret. Qed.

Lemma bind_returns {A B} K (m : Bft A) (k : A -> Bft B) n :
  runs K m -> Bounded n -> ahead (engine n) <= K -> (forall a, runs K (k a)) -> returns K (m ≫= k) n.
Proof. intros Hm Hb Hl Hk. by apply (runs_bind K m k Hm Hk). Qed.

Lemma set_returns K n f (k : unit -> Bft unit) :
  Bounded n -> BoundedE (f (engine n)) -> ahead (f (engine n)) <= K -> runs K (k ()) -> returns K (set f ≫= k) n.
Proof. intros [Hb Hlog] Hf Hl Hk. unfold returns. rewrite run_set. apply Hk; [split; [exact Hf|exact Hlog]|exact Hl]. Qed.

Lemma get_returns {A B} K n (f : Engine -> A) (k : A -> Bft B) :
  returns K (k (f (engine n))) n -> returns K (get f ≫= k) n.
Proof. done. Qed.

Lemma ask_returns {A B} K n (f : world -> A) (k : A -> Bft B) : returns K (k (f (env n))) n -> returns K (ask f ≫= k) n.
Proof. done. Qed.

Lemma mret_returns {A B} K n (a : A) (k : A -> Bft B) : returns K (k a) n -> returns K (mret a ≫= k) n.
Proof. done. Qed.

(** Reads go through, branches are split. *)
Ltac noid := repeat match goal with
  | |- context [id (engine ?n)] => change (id (engine n)) with (engine n)
  | |- context [id (env ?n)] => change (id (env n)) with (env n)
  end.

Ltac go := repeat (
  lazymatch goal with
  | |- returns _ (get _ ≫= _) _ => apply get_returns
  | |- returns _ (ask _ ≫= _) _ => apply ask_returns
  | |- returns _ (mret _ ≫= _) _ => apply mret_returns
  | |- returns _ (whenM ?b _ ≫= _) _ => destruct b eqn:?; cbn [whenM]
  | |- returns _ (whenM ?b _) _ => destruct b eqn:?; cbn [whenM]
  | |- returns _ (match ?x with _ => _ end) _ => destruct x eqn:?
  | |- returns _ (mret _) _ => apply ret_returns
  end; cbv beta zeta; noid); try done.

Ltac begin := let n := fresh "n" in let Hb := fresh "Hb" in let Hl := fresh "Hl" in
  intros n Hb Hl; match goal with |- exists a n', ?m n = _ /\ _ /\ ahead (engine n') <= ?K => change (returns K m n) end.

(** A change that keeps the buffers. *)
Lemma quiet_returns K n f (k : unit -> Bft unit) :
  Bounded n -> ahead (engine n) <= K -> same_buffers (engine n) (f (engine n)) -> runs K (k ()) ->
  returns K (set f ≫= k) n.
Proof.
  intros Hb Hl Hs Hk. destruct (same_bounded _ _ Hs (proj1 Hb)) as [Hb' El].
  apply set_returns; [done|done|by rewrite El|done].
Qed.

Section measured.
Variable K : N.

Lemma runs_startTimer r : runs K (startTimer r).
Proof. begin. unfold startTimer. go. by apply runs_set. Qed.

Lemma runs_haltConsensus : runs K haltConsensus.
Proof. begin. unfold haltConsensus. apply quiet_returns; try done. apply runs_emit. Qed.

Lemma runs_commitRefused : runs K commitRefused.
Proof.
  begin. unfold commitRefused. apply quiet_returns; try done. begin. go; [by apply runs_haltConsensus|by apply runs_set].
Qed.

Lemma LogBounded_truncate k l : LogBounded l -> LogBounded (wal_truncate k l).
Proof. intros Hl h entry Hin%only_truncate. by apply (Hl h). Qed.

Lemma runs_truncateLog k : runs K (truncateLog k).
Proof. intros n [Hb Hlog] Hl. eexists _, _. split; [reflexivity|]. split; [|done]. split; [done|by apply LogBounded_truncate]. Qed.

Lemma runs_commitApplied b h : runs K (commitApplied b h).
Proof.
  apply runs_bind; [by apply runs_set|intros _]. apply runs_bind; [apply runs_emit|intros _].
  apply runs_bind; [apply runs_truncateLog|intros _]. apply runs_ask. intros now. by apply runs_set.
Qed.

Lemma runs_handOver b : runs K (handOver b).
Proof.
  intros n Hb Hl. unfold handOver, perform. destruct (on_block_committed (env n) b) as [ok w]. by eexists _, _.
Qed.

Lemma runs_tryApplyCommit : runs K tryApplyCommit.
Proof.
  begin. unfold tryApplyCommit. go. apply bind_returns; [apply runs_handOver|done|done|].
  intros []; [apply runs_commitApplied|apply runs_commitRefused].
Qed.

(** A later step of the round. *)
Lemma step_returns n s f (k : unit -> Bft unit) :
  Bounded n -> ahead (engine n) <= K -> early s <= early (step (engine n)) ->
  same_buffers ((engine n) <| step := s |>) (f (engine n)) -> runs K (k ()) -> returns K (set f ≫= k) n.
Proof.
  intros Hb Hl Hle Hs Hk.
  assert (Hb0 : BoundedE ((engine n) <| step := s |>)) by (destruct Hb as [[] _]; by split).
  assert (Hl0 : ahead ((engine n) <| step := s |>) <= ahead (engine n)) by (unfold ahead; cbn; lia).
  destruct (same_bounded _ _ Hs Hb0) as [Hb' El]. apply set_returns; [done|done|lia|done].
Qed.

Lemma runs_enterCommit h r : runs K (enterCommit h r).
Proof.
  begin. unfold enterCommit. go. apply (step_returns n Step.Commit); try done; [cbn; lia|apply runs_tryApplyCommit].
Qed.

Lemma runs_checkPrecommitQuorum : runs K checkPrecommitQuorum.
Proof. begin. unfold checkPrecommitQuorum. go. by apply runs_enterCommit. Qed.

Lemma runs_recordPastPrecommit v : runs K (recordPastPrecommit v).
Proof.
  begin. unfold recordPastPrecommit. apply get_returns, ask_returns. cbv beta. noid.
  destruct (_ <? _); [by apply ret_returns|]. destruct (negb _); [by apply ret_returns|].
  destruct (voteSignatureOk _ _ _); [|by apply ret_returns]. cbv zeta. destruct (insertVote _ _ _ _ _) as [[[] bucket] evs].
  - apply quiet_returns; try done. begin. go. by apply runs_enterCommit.
  - by apply runs_set.
  - by apply runs_set.
Qed.

Lemma runs_restoreOwnVotes r : runs K (restoreOwnVotes r).
Proof.
  unfold restoreOwnVotes. destruct (_ =? _); [apply runs_ret|].
  assert (Hr : forall p e, same_buffers e (restoreOwnVote p r e)).
  { intros p e. unfold restoreOwnVote. destruct (_ !! _); [|by split]. by destruct p. }
  apply runs_bind; [|intros _]; by apply runs_set.
Qed.

Lemma runs_simulateBlock b : runs K (simulateBlock b).
Proof. intros n Hb Hl. rewrite simulateBlock_run. by eexists _, _. Qed.

Lemma runs_validateProposal p b : runs K (validateProposal p b).
Proof.
  begin. unfold validateProposal. go. apply bind_returns; [apply runs_simulateBlock|done|done|].
  intros s. begin. go.
Qed.

Lemma runs_storeTimeoutVote tv : runs K (storeTimeoutVote tv).
Proof.
  begin. unfold storeTimeoutVote. go. apply bind_returns; [by apply runs_set|done|done|]. intros _. apply runs_ret.
Qed.

Lemma runs_broadcastTimeoutVote r : runs K (broadcastTimeoutVote r).
Proof.
  begin. unfold broadcastTimeoutVote. go. apply bind_returns; [apply runs_storeTimeoutVote|done|done|]. intros stored.
  apply runs_when. intros _. apply runs_emit.
Qed.

(** ** The handlers *)

Lemma storeBound_emplace k i v s : voteBound v -> storeBound s -> storeBound (emplaceVote k i v s).
Proof.
  intros Hv Hs. assert (Hd : map_Forall (fun _ v => voteBound v) (default ∅ (s !! k))).
  { destruct (s !! k) as [c|] eqn:E; [by apply (Hs k c)|apply map_Forall_empty]. }
  unfold emplaceVote. cbv zeta. set (c := default ∅ (s !! k)) in *. clearbody c.
  destruct (_ <=? _)%nat; apply map_Forall_insert_2; [exact Hd|exact Hs| |exact Hs].
  destruct (c !! i); [exact Hd|]. apply map_Forall_insert_2; [exact Hv|exact Hd].
Qed.

Lemma bounded_pushPending p v e : voteBound v -> BoundedE e ->
  BoundedE (pushPending p v e) /\ ahead (pushPending p v e) = ahead e.
Proof.
  intros Hv He. unfold pushPending. cbv zeta. destruct p; repeat (case_match; [by split|]);
    destruct He as [B1 B2 B3 B4 B5 B6 B7 B8 B9 B10]; (split; [|done]); split; try done;
    apply Forall_app; (split; [done|by constructor]).
Qed.

Lemma bounded_bufferFuture p v i e : voteBound v -> BoundedE e ->
  BoundedE (bufferFutureVote v p i e) /\ ahead (bufferFutureVote v p i e) = ahead e.
Proof.
  intros Hv He. unfold bufferFutureVote. destruct p; repeat (case_match; [by split|]);
    destruct He as [B1 B2 B3 B4 B5 B6 B7 B8 B9 B10]; (split; [|done]); split; try done; by apply storeBound_emplace.
Qed.

Lemma bounded_heightVote p v i e : voteBound v -> BoundedE e ->
  let e' := if (p : bool) then e <| future_height_precommits ::= emplaceVote (Vote.height v) i v |>
            else e <| future_height_prevotes ::= emplaceVote (Vote.height v) i v |> in
  BoundedE e' /\ ahead e' = ahead e.
Proof.
  intros Hv [B1 B2 B3 B4 B5 B6 B7 B8 B9 B10].
  destruct p; (split; [|done]); split; try done; by apply storeBound_emplace.
Qed.

Lemma skipTarget_bound w e t : BoundedE e -> skipTarget w e = Some t -> t <= M.
Proof.
  intros He. unfold skipTarget. destruct (active_set w false) as [|x l]; [done|]. cbv zeta.
  destruct (_ <? _)%nat; [done|]. intros Hn%nth_error_In%list_elem_of_In.
  rewrite (elem_of_Permutation_proper _ _ _ (std_sort_perm _ _)) in Hn.
  apply list_elem_of_omap in Hn as ([i r] & Hin & E). rewrite (elem_of_Permutation_proper _ _ _ (entries_perm _)) in Hin.
  apply elem_of_map_to_list in Hin. cbn [fst snd] in E. destruct (_ || _); [done|]. injection E as <-.
  exact (b_hints _ He _ _ Hin).
Qed.

Lemma bounded_skip target e : BoundedE e ->
  let e' := e <| round_hints ::= filter (fun kv => target < snd kv) |> <| consecutive_timeouts := target - 1 |> in
  BoundedE e' /\ ahead e' = ahead e.
Proof.
  intros [B1 B2 B3 B4 B5 B6 B7 B8 B9 B10]. split; [|done]. split; try done.
  intros k r Hr. apply map_lookup_filter_Some in Hr as [Hr _]. by apply (B2 k).
Qed.

Lemma bounded_hint signer r e : r <= M -> BoundedE e ->
  let e' := e <| round_hints ::= fun m => <[signer := N.max r (default 0 (m !! signer))]> m |> in
  BoundedE e' /\ ahead e' = ahead e.
Proof.
  intros Hr [B1 B2 B3 B4 B5 B6 B7 B8 B9 B10]. split; [|done]. split; try done. cbn.
  apply map_Forall_insert_2; [|done]. apply N.max_lub; [done|].
  destruct (round_hints e !! signer) as [x|] eqn:E; cbn; [exact (B2 _ _ E)|lia].
Qed.

Section handlers.
Variable enterPropose : N -> N -> Bft unit.
Variable enterPrecommit : N -> N -> Bft unit.
Hypothesis Hpropose : forall h r n, Bounded n -> ahead (engine n) <= K -> round (engine n) < r -> r <= M ->
  returns K (enterPropose h r) n.
Hypothesis Hprecommit : forall h r n, Bounded n -> ahead (engine n) <= K -> h = height (engine n) ->
  r = round (engine n) -> step (engine n) = Step.Prevote -> returns K (enterPrecommit h r) n.

Lemma runs_maybeSkipRound : runs K (maybeSkipRound enterPropose).
Proof.
  begin. unfold maybeSkipRound. go. apply N.leb_gt in Heqb0.
  pose proof (skipTarget_bound _ _ _ (proj1 Hb) Heqo) as Ht.
  destruct (bounded_skip n0 (engine n) (proj1 Hb)) as [Hb' El]. unfold returns. rewrite run_set.
  apply Hpropose; [split; [exact Hb'|exact (proj2 Hb)]|rewrite engine_withEngine, El; exact Hl|exact Heqb0|exact Ht].
Qed.

Lemma runs_noteRoundHint signer r : r <= M -> runs K (noteRoundHint enterPropose signer r).
Proof.
  intros Hr. begin. unfold noteRoundHint. go.
  destruct (bounded_hint signer r (engine n) Hr (proj1 Hb)) as [Hb' El].
  apply set_returns; [done|exact Hb'|by rewrite El|apply runs_maybeSkipRound].
Qed.

Lemma runs_checkPrevoteQuorum : runs K (checkPrevoteQuorum enterPrecommit).
Proof.
  begin. unfold checkPrevoteQuorum. go.
  - destruct (bool_decide _) eqn:Es; [|by apply runs_bind; [by apply runs_set|intros _; apply runs_ret|..]].
    apply bool_decide_eq_true in Es. unfold returns. rewrite run_set.
    match goal with |- context [withEngine n ?x] => destruct (same_bounded (engine n) x) as [Hb' El];
      [by split|exact (proj1 Hb)|] end.
    apply Hprecommit; [split; [exact Hb'|exact (proj2 Hb)]|rewrite engine_withEngine, El; exact Hl|reflexivity|reflexivity|exact Es].
  - apply bool_decide_eq_true in Heqb0. by apply Hprecommit.
Qed.

Lemma runs_recordVote v p : runs K (recordVote enterPrecommit v p).
Proof.
  begin. unfold recordVote. apply get_returns, ask_returns. cbv beta. noid. destruct (negb _); [by apply ret_returns|].
  destruct (voteSignatureOk _ _ _) as [vid|]; [|by apply ret_returns].
  destruct (insertVote _ _ _ _ _) as [[res c] evs]. apply quiet_returns; try done; [by destruct p|].
  destruct res; [|apply runs_ret|apply runs_ret].
  destruct p; [apply runs_checkPrecommitQuorum|apply runs_checkPrevoteQuorum].
Qed.

Lemma register_returns v p n (k : unit -> Bft unit) :
  Bounded n -> ahead (engine n) <= K -> voteBound v -> runs K (k ()) -> returns K (registerVote v p ≫= k) n.
Proof.
  intros [Hb Hlog] Hl Hv Hk.
  change (returns K (k ()) (n <| events ::= cons (SignedVote v p) |> <| walog ::= wal_append_vote v p |>
    <| engine ::= fun e => e <| signed_votes ::= <[(height e, round e, p) := v]> |> |>)).
  apply Hk.
  - split; [|intros h entry [->|Hin]%only_append_vote; [exact Hv|by apply (Hlog h)]].
    eapply same_bounded; [|exact Hb]. by split.
  - exact Hl.
Qed.

Lemma runs_broadcastVote p is_nil hash : runs K (broadcastVote enterPrecommit p is_nil hash).
Proof.
  begin. unfold broadcastVote. go.
  - apply bind_returns; [apply runs_recordVote|done|done|]. intros _. apply runs_emit.
  - apply register_returns; [done|done|exact (b_round _ (proj1 Hb))|].
    apply runs_bind; [apply runs_recordVote|intros _; apply runs_emit].
Qed.

Lemma runs_handleVote v p : voteBound v -> runs K (handleVote enterPropose enterPrecommit v p).
Proof.
  intros Hv. begin. unfold handleVote. apply get_returns, ask_returns. cbv beta. noid. destruct (negb _).
  { destruct (_ =? _); [|by apply ret_returns]. destruct (voteSignatureOk _ _ _) as [i|]; [|by apply ret_returns].
    apply runs_setB; [|done|done]. intros e He. by apply (bounded_heightVote p). }
  destruct (voteSignatureOk _ _ _) as [signer|]; [|by apply ret_returns].
  apply bind_returns; [apply runs_when; intros _; by apply runs_noteRoundHint|done|done|]. intros _. begin. go.
  - apply runs_setB; [|done|done]. intros e He. by apply bounded_bufferFuture.
  - by apply runs_recordPastPrecommit.
  - apply runs_setB; [|done|done]. intros e He. by apply bounded_pushPending.
  - by apply runs_recordVote.
Qed.

Lemma runs_drainPendingVotes : runs K (drainPendingVotes enterPropose enterPrecommit).
Proof.
  begin. unfold drainPendingVotes. go. pose proof (proj1 Hb) as [B1 B2 B3 B4 B5 B6 B7 B8 B9 B10].
  apply set_returns; [done|by split|done|].
  apply runs_bind; [|intros _]; (apply (runs_forEach K voteBound); [intros v Hv; by apply runs_handleVote|done]).
Qed.

Lemma runs_settle h r s (check : Bft unit) : runs K check ->
  runs K (here ← get (isAt h r s);
    whenM here (startTimer r;; drainPendingVotes enterPropose enterPrecommit;;
      here ← get (isAt h r s); whenM here check)).
Proof.
  intros Hc. begin. go. apply bind_returns; [apply runs_startTimer|done|done|]. intros _.
  apply runs_bind; [apply runs_drainPendingVotes|intros _]. begin. go. by apply Hc.
Qed.

Lemma enterPrevote_returns h r n :
  Bounded n -> ahead (engine n) <= K -> step (engine n) = Step.Propose ->
  returns K (enterPrevote enterPropose enterPrecommit h r) n.
Proof.
  intros Hb Hl Hs. unfold enterPrevote. go. apply (step_returns n Step.Prevote); try done; [by rewrite Hs|].
  begin. go. apply bind_returns; [apply runs_broadcastVote|done|done|]. intros _. apply runs_settle, runs_checkPrevoteQuorum.
Qed.

Lemma bounded_futureProposal p e : proposalBound p -> BoundedE e ->
  let e' := e <| future_proposals ::= fun m =>
             match m !! Proposal.round p with Some _ => m | None => <[Proposal.round p := p]> m end |> in
  BoundedE e' /\ ahead e' = ahead e.
Proof.
  intros Hp [B1 B2 B3 B4 B5 B6 B7 B8 B9 B10]. split; [|done]. split; try done. cbn.
  destruct (_ !! _); [done|]. by apply map_Forall_insert_2.
Qed.

Lemma bounded_futureHeightProposal p e : proposalBound p -> BoundedE e ->
  let e' := e <| future_height_proposals ::= fun m =>
             match m !! Proposal.height p with Some _ => m | None => <[Proposal.height p := p]> m end |> in
  BoundedE e' /\ ahead e' = ahead e.
Proof.
  intros Hp [B1 B2 B3 B4 B5 B6 B7 B8 B9 B10]. split; [|done]. split; try done. cbn.
  destruct (_ !! _); [done|]. by apply map_Forall_insert_2.
Qed.

Lemma runs_thenPrevote h r : runs K (here ← get (isAt h r Step.Propose);
  whenM here (enterPrevote enterPropose enterPrecommit h r)).
Proof. begin. go. apply enterPrevote_returns; [done|done|]. by eapply isAt_step. Qed.

Lemma runs_handleProposal p : proposalBound p -> runs K (handleProposal enterPropose enterPrecommit p).
Proof.
  intros Hp. begin. unfold handleProposal. apply get_returns, ask_returns. cbv beta. noid.
  destruct (_ <? _); [by apply ret_returns|]. destruct (negb _).
  { go. apply runs_setB; [|done|done]. intros e He. by apply bounded_futureHeightProposal. }
  destruct (round (engine n) <? Proposal.round p).
  { go. apply bind_returns; [|done|done|]; [|intros _; by apply runs_noteRoundHint].
    apply runs_setB. intros e He. by apply bounded_futureProposal. }
  go. apply bind_returns; [apply runs_validateProposal|done|done|]. intros []; [|apply runs_ret]. cbn [negb].
  apply runs_bind; [by apply runs_set|intros _].
  apply runs_bind; [apply runs_drainPendingVotes|intros _; apply runs_thenPrevote].
Qed.

Lemma runs_simulateRetrying k : forall b, runs K (simulateRetrying k b).
Proof.
  induction k as [|k IH]; intros b; cbn [simulateRetrying]; [apply runs_ret|].
  apply runs_bind; [apply runs_simulateBlock|]. intros s. begin. go. by apply IH.
Qed.

Lemma runs_simulateOnce b : runs K (simulateOnce b).
Proof. apply runs_bind; [apply runs_simulateBlock|]. intros s. apply runs_ret. Qed.

Lemma runs_propose : runs K (propose enterPropose enterPrecommit).
Proof.
  begin. unfold propose. apply get_returns, ask_returns. cbv beta zeta. noid.
  destruct (match blockToRepropose (engine n) with Some b => Some b | None => freshProposal (env n) (engine n) end)
    as [b|]; [|by apply ret_returns].
  destruct (proposerSetFor _ _ _ _ _) as [signer_set|]; [|by apply ret_returns].
  apply bind_returns; [destruct (blockToRepropose (engine n)); [apply runs_simulateOnce|apply runs_simulateRetrying]|done|done|].
  intros [[[b' root] fills]|]; [|apply runs_ret]. apply runs_ask. intros w.
  apply runs_bind; [apply runs_emit|intros _]. apply runs_bind; [by apply runs_set|intros _]. apply runs_thenPrevote.
Qed.

Lemma runs_tryPropose : runs K (tryPropose enterPropose enterPrecommit).
Proof. begin. unfold tryPropose. go. by apply runs_propose. Qed.

(** ** Drains *)

Lemma bounded_deleteProposal r e : BoundedE e ->
  let e' := e <| future_proposals ::= delete r |> in BoundedE e' /\ ahead e' = ahead e.
Proof.
  intros [B1 B2 B3 B4 B5 B6 B7 B8 B9 B10]. split; [|done]. split; try done. cbn. by apply map_Forall_delete.
Qed.

Lemma runs_drainFutureProposal : runs K (drainFutureProposal enterPropose enterPrecommit).
Proof.
  begin. unfold drainFutureProposal. go.
  destruct (bounded_deleteProposal (round (engine n)) (engine n) (proj1 Hb)) as [Hb' El].
  apply set_returns; [done|exact Hb'|by rewrite El|]. apply runs_handleProposal.
  exact (b_proposals _ (proj1 Hb) _ _ Heqo).
Qed.

Lemma bounded_trimHeightProposals (P : N * Proposal.t -> Prop) `{!forall x, Decision (P x)} e : BoundedE e ->
  let e' := e <| future_height_proposals ::= filter P |> in BoundedE e' /\ ahead e' = ahead e.
Proof.
  intros [B1 B2 B3 B4 B5 B6 B7 B8 B9 B10]. split; [|done]. split; try done. cbn.
  intros k p [Hp _]%map_lookup_filter_Some. by apply (B10 k).
Qed.

Lemma bounded_deleteHeightProposal h e : BoundedE e ->
  let e' := e <| future_height_proposals ::= delete h |> in BoundedE e' /\ ahead e' = ahead e.
Proof.
  intros [B1 B2 B3 B4 B5 B6 B7 B8 B9 B10]. split; [|done]. split; try done. cbn. by apply map_Forall_delete.
Qed.

Lemma runs_drainFutureHeightProposal : runs K (drainFutureHeightProposal enterPropose enterPrecommit).
Proof.
  apply runs_bind; [apply runs_setB; intros e He; by apply (bounded_trimHeightProposals _ e He)|intros _].
  begin. go. destruct (bounded_deleteHeightProposal (height (engine n)) (engine n) (proj1 Hb)) as [Hb' El].
  apply set_returns; [done|exact Hb'|by rewrite El|]. apply runs_handleProposal.
  exact (b_heightProposals _ (proj1 Hb) _ _ Heqo).
Qed.

Lemma runs_handleAll p votes : map_Forall (fun _ v => voteBound v) votes ->
  runs K (handleAll enterPropose enterPrecommit p votes).
Proof.
  intros Hv. apply (runs_forEach K (fun kv => voteBound (snd kv))); [intros kv Hk; by apply runs_handleVote|].
  rewrite entries_perm. apply Forall_forall. intros [k v] Hin%elem_of_map_to_list. exact (Hv _ _ Hin).
Qed.

Lemma storeBound_filter (P : N * VoteMap -> Prop) `{!forall x, Decision (P x)} s : storeBound s -> storeBound (filter P s).
Proof. intros Hs k c [Hc _]%map_lookup_filter_Some. by apply (Hs k). Qed.

Lemma storeBound_default k s : storeBound s -> map_Forall (fun _ v => voteBound v) (default ∅ (s !! k)).
Proof. intros Hs. destruct (s !! k) as [c|] eqn:E; [exact (Hs _ _ E)|apply map_Forall_empty]. Qed.

Lemma runs_drainFutureRoundVotes : runs K (drainFutureRoundVotes enterPropose enterPrecommit).
Proof.
  begin. unfold drainFutureRoundVotes. go. pose proof (proj1 Hb) as [B1 B2 B3 B4 B5 B6 B7 B8 B9 B10].
  apply set_returns; [done|split; try done; by apply storeBound_filter|done|].
  apply runs_bind; [|intros _]; by apply runs_handleAll, storeBound_default.
Qed.

Lemma runs_drainFutureHeightVotes : runs K (drainFutureHeightVotes enterPropose enterPrecommit).
Proof.
  begin. unfold drainFutureHeightVotes. go. pose proof (proj1 Hb) as [B1 B2 B3 B4 B5 B6 B7 B8 B9 B10].
  apply set_returns; [done|split; try done; by apply storeBound_filter|done|].
  apply runs_bind; [|intros _]; by apply runs_handleAll, storeBound_default.
Qed.

(** ** Entering a round, and its precommit step *)

Lemma bounded_reset r e : r <= M -> BoundedE e -> BoundedE ((resetForNewRound r e) <| step := Step.Propose |>).
Proof.
  intros Hr [B1 B2 B3 B4 B5 B6 B7 B8 B9 B10].
  assert (Hf : forall {V} (P : V -> Prop) (m : gmap N V), map_Forall (fun _ x => P x) m ->
    map_Forall (fun _ x => P x) (filter (fun kv => r <= fst kv) m)).
  { intros V P m Hm k x [Hx _]%map_lookup_filter_Some. by apply (Hm k). }
  pose (later := fun {V} (m : gmap N V) => filter (fun kv : N * V => r <= fst kv) m).
  set (e' := _ <| step := _ |>).
  assert (E1 : round e' = r) by exact eq_refl. assert (E2 : round_hints e' = round_hints e) by exact eq_refl.
  assert (E3 : pending_prevotes e' = []) by exact eq_refl. assert (E4 : pending_precommits e' = []) by exact eq_refl.
  assert (E5 : future_round_prevotes e' = later _ (future_round_prevotes e)) by exact eq_refl.
  assert (E6 : future_round_precommits e' = later _ (future_round_precommits e)) by exact eq_refl.
  assert (E7 : future_height_prevotes e' = future_height_prevotes e) by exact eq_refl.
  assert (E8 : future_height_precommits e' = future_height_precommits e) by exact eq_refl.
  assert (E9 : future_proposals e' = later _ (future_proposals e)) by exact eq_refl.
  assert (E10 : future_height_proposals e' = future_height_proposals e) by exact eq_refl.
  clearbody e'. split; rewrite ?E1, ?E2, ?E3, ?E4, ?E5, ?E6, ?E7, ?E8, ?E9, ?E10; try done; by apply Hf.
Qed.

Lemma proposeRest_runs h r active :
  runs K (set (fun e => e <| proposer := proposerFor h r active |>);;
    startTimer r;;
    drainFutureHeightProposal enterPropose enterPrecommit;;
    drainFutureProposal enterPropose enterPrecommit;;
    drainFutureHeightVotes enterPropose enterPrecommit;;
    drainFutureRoundVotes enterPropose enterPrecommit;;
    here ← get (isAt h r Step.Propose);
    whenM (here && ((my_validator_id =? proposerFor h r active) && negb (my_validator_id =? INVALID_ID)))
      (tryPropose enterPropose enterPrecommit)).
Proof.
  apply runs_bind; [by apply runs_set|intros _].
  apply runs_bind; [apply runs_startTimer|intros _].
  apply runs_bind; [apply runs_drainFutureHeightProposal|intros _].
  apply runs_bind; [apply runs_drainFutureProposal|intros _].
  apply runs_bind; [apply runs_drainFutureHeightVotes|intros _].
  apply runs_bind; [apply runs_drainFutureRoundVotes|intros _].
  begin. apply get_returns. apply runs_when; [|done|done]. intros _. apply runs_tryPropose.
Qed.

Lemma proposeStep_returns h r n :
  Bounded n -> r <= M -> 2 * (M - r) + 1 <= K -> returns K (proposeStep enterPropose enterPrecommit h r) n.
Proof.
  intros Hb Hr HK. unfold proposeStep. apply set_returns; [done|apply bounded_reset; [done|apply Hb]|exact HK|].
  apply runs_bind; [apply runs_when; intros _; by apply runs_set|intros _].
  apply runs_bind; [apply runs_restoreOwnVotes|intros _].
  begin. apply get_returns, ask_returns. cbv zeta. apply proposeRest_runs; done.
Qed.

Lemma precommitValue_runs h r (polka : option Hash) (e : Engine) : r <= M ->
  runs K (match polka with
    | Some polka =>
      set (fun e => e <| valid_set := true |> <| valid_hash := polka |> <| valid_round := r |>);;
      (match proposals_by_hash e !! polka with Some b => emit (StoredLockedBlock h b) | None => mret () end);;
      logged (wal_append_lock h r polka);;
      set (fun e => e <| locked := true |> <| locked_hash := polka |> <| locked_round := r |>);;
      broadcastVote enterPrecommit true false polka
    | None =>
      if locked e then broadcastVote enterPrecommit true false (locked_hash e)
      else broadcastVote enterPrecommit true true 0
    end).
Proof.
  intros Hr. destruct polka as [polka|]; [|destruct (locked e); apply runs_broadcastVote].
  apply runs_bind; [by apply runs_set|intros _].
  apply runs_bind; [destruct (_ !! _); [apply runs_emit|apply runs_ret]|intros _].
  apply runs_bind; [|intros _; apply runs_bind; [by apply runs_set|intros _; apply runs_broadcastVote]].
  intros n [Hb Hlog] Hl. eexists _, _. split; [reflexivity|]. split; [|exact Hl]. split; [exact Hb|].
  intros k entry [->|Hin]%only_append_lock; [exact Hr|by apply (Hlog k)].
Qed.

Lemma precommitStep_returns h r n :
  Bounded n -> h = height (engine n) -> r = round (engine n) -> step (engine n) = Step.Prevote ->
  2 * (M - r) <= K -> returns K (precommitStep enterPropose enterPrecommit h r) n.
Proof.
  intros Hb -> -> Hs HK. unfold precommitStep. apply get_returns, ask_returns. cbv beta zeta. noid.
  rewrite Hs, !N.eqb_refl. cbn [andb negb bool_decide decide_rel Step.eq_dec].
  rewrite bool_decide_eq_false_2 by done. cbn [andb].
  assert (Hb0 : BoundedE ((engine n) <| step := Step.Precommit |>)) by (destruct Hb as [[] _]; by split).
  apply set_returns; [done|exact Hb0|unfold ahead; cbn; lia|].
  apply runs_bind; [apply precommitValue_runs, Hb|intros _]. apply runs_settle, runs_checkPrecommitQuorum.
Qed.
End handlers.
End measured.

(** ** The fuel *)

Lemma returns_mono {A} K K' (m : Bft A) n : K <= K' -> returns K m n -> returns K' m n.
Proof. intros Hle (a & n' & E & Hb & Hl). exists a, n'. split_and!; [done|done|lia]. Qed.

Lemma machine_returns fuel :
  (forall K h r n, Bounded n -> r <= M -> 2 * (M - r) + 1 <= K -> K < N.of_nat fuel ->
     returns K (enterPropose fuel h r) n) /\
  (forall K h r n, Bounded n -> h = height (engine n) -> r = round (engine n) -> step (engine n) = Step.Prevote ->
     2 * (M - r) <= K -> K < N.of_nat fuel -> returns K (enterPrecommit fuel h r) n).
Proof.
  unfold enterPropose, enterPrecommit. induction fuel as [|fuel [IHp IHc]]; [split; lia|].
  cbn [machine]. destruct (machine fuel) as [enterP enterC]. cbn [fst snd] in *.
  assert (Hp : forall K, K < N.of_nat (S fuel) -> forall h r n, Bounded n -> ahead (engine n) <= K ->
    round (engine n) < r -> r <= M -> returns K (enterP h r) n).
  { intros K HK h r n Hb Hl Hr HM. apply (returns_mono (2 * (M - r) + 1)); [unfold ahead in Hl; lia|].
    apply IHp; [done|done|lia|unfold ahead in Hl; lia]. }
  assert (Hc : forall K, K < N.of_nat (S fuel) -> forall h r n, Bounded n -> ahead (engine n) <= K ->
    h = height (engine n) -> r = round (engine n) -> step (engine n) = Step.Prevote -> returns K (enterC h r) n).
  { intros K HK h r n Hb Hl Hh Hr Hs. unfold ahead in Hl. rewrite Hs in Hl. cbn [early] in Hl.
    apply (returns_mono (2 * (M - r))); [subst r; lia|]. apply IHc; [done|done|done|done|lia|subst r; lia]. }
  split.
  - intros K h r n Hb HM Hr HK. apply proposeStep_returns; [by apply Hp|by apply Hc|done|done|done].
  - intros K h r n Hb Hh Hr Hs Hle HK. apply precommitStep_returns; [by apply Hp|by apply Hc|done..].
Qed.

Section methods.
Variable fuel : nat.
Hypothesis Hfuel : 2 * M + 1 < N.of_nat fuel.

(** Enough for any state. *)
Definition most : N := 2 * M + 1.

Lemma ahead_most e : ahead e <= most.
Proof. unfold ahead, most. destruct (step e); cbn [early]; lia. Qed.

Lemma enterPropose_nested h r n : Bounded n -> ahead (engine n) <= most -> round (engine n) < r -> r <= M ->
  returns most (enterPropose fuel h r) n.
Proof. intros Hb _ _ Hr. apply machine_returns; [done|done|unfold most; lia|done]. Qed.

Lemma enterPrecommit_nested h r n : Bounded n -> ahead (engine n) <= most -> h = height (engine n) ->
  r = round (engine n) -> step (engine n) = Step.Prevote -> returns most (enterPrecommit fuel h r) n.
Proof. intros Hb _ Hh Hr Hs. apply machine_returns; try done. unfold most. lia. Qed.

Lemma runs_whenRunning m : runs most m -> runs most (whenRunning m).
Proof. intros Hm. begin. unfold whenRunning. apply get_returns. by apply runs_when. Qed.

Lemma runs_onTimeoutVote tv : runs most (onTimeoutVote fuel tv).
Proof.
  apply runs_whenRunning. begin. unfold handleTimeoutVote. go.
  apply bind_returns; [apply runs_storeTimeoutVote|done|done|]. intros stored. apply runs_when. intros _.
  begin. unfold retryEmergencyPropose. go.
  by apply runs_tryPropose; [apply enterPropose_nested|apply enterPrecommit_nested| |].
Qed.

(** ** Timers *)

Lemma broadcastTimeoutVote_returns r n (k : Bft unit) : Bounded n ->
  (forall n', Bounded n' -> same_core (engine n) (engine n') -> returns most k n') ->
  returns most (broadcastTimeoutVote r;; k) n.
Proof.
  intros Hb Hk. destruct (runs_broadcastTimeoutVote most r n Hb (ahead_most _)) as ([] & n' & E & Hb' & _).
  destruct (moves_broadcastTimeoutVote r n) as [_ Hs]. rewrite E in Hs. cbn [snd] in Hs.
  unfold returns. rewrite (bind_done _ _ _ _ _ E). by apply Hk.
Qed.

(** A commit stays in its round. *)
Lemma commitRefused_round n : round (engine (snd (commitRefused n))) = round (engine n).
Proof. unfold commitRefused. rewrite run_set, run_get. destruct (_ <? _); reflexivity. Qed.

Lemma tryApplyCommit_round n : round (engine (snd (tryApplyCommit n))) = round (engine n).
Proof.
  unfold tryApplyCommit. rewrite run_get. destruct (commit_block (engine n)) as [b|]; [|done]. rewrite run_get.
  unfold mbind, Exec_bind, handOver, perform. destruct (on_block_committed (env n) b) as [[] w]; [reflexivity|].
  etrans; [apply commitRefused_round|reflexivity].
Qed.

Lemma enterCommit_round h r n : round (engine (snd (enterCommit h r n))) = round (engine n).
Proof.
  unfold enterCommit. rewrite run_get, run_ask. repeat (case_match; try done). rewrite run_set.
  etrans; [apply tryApplyCommit_round|reflexivity].
Qed.

(** ** Entering a height *)

Lemma replayEntry_bounds h entry e :
  entryRound entry <= M -> locked_round e <= M ->
  map_Forall (fun (key : SignedKey) _ => snd (fst key) <= M) (signed_votes e) ->
  locked_round (replayEntry h entry e) <= M /\
  map_Forall (fun (key : SignedKey) _ => snd (fst key) <= M) (signed_votes (replayEntry h entry e)).
Proof.
  intros He Hl Hs. unfold replayEntry. destruct entry as [v p|lh r hash].
  - destruct (negb _); [done|]. destruct (signed_votes e !! _); [done|]. split; [done|]. by apply map_Forall_insert_2.
  - destruct (negb _); [done|]. by destruct (_ || _).
Qed.

Lemma replayAll_bounds h log : forall e,
  Forall (fun entry => entryRound entry <= M) log -> locked_round e <= M ->
  map_Forall (fun (key : SignedKey) _ => snd (fst key) <= M) (signed_votes e) ->
  let e' := foldl (fun e entry => replayEntry h entry e) e log in
  locked_round e' <= M /\ map_Forall (fun (key : SignedKey) _ => snd (fst key) <= M) (signed_votes e').
Proof.
  induction log as [|x l IH]; intros e Hlog Hl Hs; [done|]. inversion_clear Hlog as [|? ? Hx Hlog'].
  cbn [foldl]. destruct (replayEntry_bounds h x e Hx Hl Hs) as [Hl' Hs']. by apply IH.
Qed.

Lemma restoreLock_lock w h e :
  locked_round (restoreLock w h e) = locked_round e /\ signed_votes (restoreLock w h e) = signed_votes e.
Proof. unfold restoreLock. by repeat case_match. Qed.

Lemma foldl_max {X} (f : X -> N) (l : list X) : forall a,
  a <= M -> Forall (fun x => f x <= M) l -> foldl (fun r x => N.max r (f x)) a l <= M.
Proof.
  induction l as [|x l IH]; intros a Ha Hl; [done|]. inversion_clear Hl as [|? ? Hx Hl']. cbn [foldl]. apply IH; [lia|done].
Qed.

Lemma resumeRound_bound h n : LogBounded (walog n) -> resumeRound h n <= M.
Proof.
  intros Hlog. unfold resumeRound. destruct (N.eqb_spec my_validator_id INVALID_ID) as [|Hm]; [lia|].
  assert (Hb : locked_round (replayed h n) <= M /\
    map_Forall (fun (key : SignedKey) _ => snd (fst key) <= M) (signed_votes (replayed h n))).
  { unfold replayed. rewrite (proj2 (N.eqb_neq _ _) Hm). cbv zeta.
    match goal with |- context [restoreLock ?w ?k ?e] => destruct (restoreLock_lock w k e) as [-> ->] end.
    apply replayAll_bounds.
    - apply Forall_forall. intros entry. apply Hlog.
    - apply N.le_0_l.
    - apply map_Forall_empty. }
  destruct Hb as [Hl Hs]. apply (foldl_max (fun kv : SignedKey * Vote.t => snd (fst (fst kv)))).
  - destruct (locked _); [done|apply N.le_0_l].
  - rewrite std_sort_perm. apply Forall_forall. intros [key v] Hin%elem_of_map_to_list. exact (Hs _ _ Hin).
Qed.

(** The buffers for other heights are kept, the rest is empty. *)
Record fresh_buffers (e e' : Engine) : Prop := {
  fb_round : round e' = 0;
  fb_hints : round_hints e' = ∅;
  fb_prevotes : pending_prevotes e' = [];
  fb_precommits : pending_precommits e' = [];
  fb_roundPrevotes : future_round_prevotes e' = ∅;
  fb_roundPrecommits : future_round_precommits e' = ∅;
  fb_heightPrevotes : future_height_prevotes e' = future_height_prevotes e;
  fb_heightPrecommits : future_height_precommits e' = future_height_precommits e;
  fb_proposals : future_proposals e' = ∅;
  fb_heightProposals : future_height_proposals e' = future_height_proposals e;
}.

Lemma fresh_bounded e e' : fresh_buffers e e' -> BoundedE e -> BoundedE e'.
Proof.
  intros [F1 F2 F3 F4 F5 F6 F7 F8 F9 F10] [B1 B2 B3 B4 B5 B6 B7 B8 B9 B10].
  split; rewrite ?F1, ?F2, ?F3, ?F4, ?F5, ?F6, ?F7, ?F8, ?F9, ?F10;
    first [done|apply N.le_0_l|apply map_Forall_empty|constructor].
Qed.

Lemma fresh_same e e1 e2 : fresh_buffers e e1 -> same_buffers e1 e2 -> fresh_buffers e e2.
Proof. intros [] []. split; congruence. Qed.

Lemma replayEntry_buffers h entry e : same_buffers e (replayEntry h entry e).
Proof. unfold replayEntry. by repeat case_match. Qed.

Lemma same_buffers_trans e e1 e2 : same_buffers e e1 -> same_buffers e1 e2 -> same_buffers e e2.
Proof. intros [] []. split; congruence. Qed.

Lemma replayAll_buffers h log : forall e, same_buffers e (foldl (fun e entry => replayEntry h entry e) e log).
Proof.
  induction log as [|x l IH]; intros e; [by split|]. cbn [foldl].
  eapply same_buffers_trans; [apply replayEntry_buffers|apply IH].
Qed.

Lemma restoreLock_buffers w h e : same_buffers e (restoreLock w h e).
Proof. unfold restoreLock. by repeat case_match. Qed.

Lemma reset_fresh h e : fresh_buffers e (resetForNewHeight h e).
Proof. split; exact eq_refl. Qed.

Lemma replayed_bounded h n : Bounded n -> BoundedE (replayed h n).
Proof.
  intros [Hb _]. apply (fresh_bounded (engine n)); [|done]. unfold replayed.
  destruct (_ =? _); [apply reset_fresh|]. cbv zeta. eapply fresh_same; [apply reset_fresh|].
  eapply same_buffers_trans; [apply replayAll_buffers|apply restoreLock_buffers].
Qed.

Lemma enterNewHeight_returns h n : Bounded n -> returns most (enterNewHeight fuel h) n.
Proof.
  intros Hb. unfold returns, enterNewHeight. rewrite run_set.
  destruct (replayWal_run h n) as (n1 & E & _ & He & Hw). rewrite (bind_done _ _ _ _ _ E).
  assert (Hb1 : Bounded n1) by (split; [rewrite He; by apply replayed_bounded|rewrite Hw; apply Hb]).
  apply (runs_bind most); [apply runs_when; intros _; by apply runs_set| |done|apply ahead_most].
  intros _. begin. apply machine_returns; [done|by apply resumeRound_bound, Hb|unfold most; lia|done].
Qed.

(** ** Timers *)

Lemma enterCommit_returns b h r n (k : Bft unit) : Bounded n ->
  (forall n', Bounded n' -> round (engine n') = round (engine n) -> returns most k n') ->
  returns most (whenM b (enterCommit h r);; k) n.
Proof.
  intros Hb Hk. destruct b; cbn [whenM]; [|by apply mret_returns, Hk].
  destruct (runs_enterCommit most h r n Hb (ahead_most _)) as ([] & n' & E & Hb' & _).
  pose proof (enterCommit_round h r n) as Hr. rewrite E in Hr. cbn [snd] in Hr.
  unfold returns. rewrite (bind_done _ _ _ _ _ E). by apply Hk.
Qed.

Lemma stepTimeout_returns n : Bounded n -> addRound (round (engine n)) 1 <= M -> returns most (stepTimeout fuel) n.
Proof.
  intros Hb Hnext. unfold stepTimeout. apply get_returns. noid.
  destruct (step (engine n)) eqn:Es; [by apply ret_returns, ahead_most| | | |by apply ret_returns, ahead_most].
  - unfold onProposeTimeout. apply get_returns. apply broadcastTimeoutVote_returns; [done|]. intros n' Hb' Hs.
    apply enterPrevote_returns; [apply enterPropose_nested|apply enterPrecommit_nested|done|apply ahead_most|].
    by rewrite (sc_step _ _ Hs).
  - unfold onPrevoteTimeout. apply get_returns. apply broadcastTimeoutVote_returns; [done|]. intros n' Hb' Hs. noid.
    apply enterPrecommit_nested; [done|apply ahead_most|..];
      by rewrite ?(sc_height _ _ Hs), ?(sc_round _ _ Hs), ?(sc_step _ _ Hs).
  - unfold onPrecommitTimeout. apply get_returns, ask_returns. cbv zeta.
    apply broadcastTimeoutVote_returns; [done|]. intros n' Hb' Hs.
    apply enterCommit_returns; [done|]. intros n2 Hb2 Hr2. apply get_returns. noid.
    destruct (_ && _); [by apply ret_returns, ahead_most|].
    apply machine_returns; [done|by rewrite Hr2, (sc_round _ _ Hs)|unfold most; lia|done].
Qed.

Lemma bounded_quiet n e : Bounded n -> same_buffers (engine n) e -> Bounded (withEngine n e).
Proof. intros [Hb Hlog] Hs. split; [by eapply same_bounded|done]. Qed.

Lemma bounded_cut k n : Bounded n -> Bounded (cut k n).
Proof. intros [Hb Hlog]. split; [done|by apply LogBounded_truncate]. Qed.

Lemma pollTimers_returns n : Bounded n -> addRound (round (engine n)) 1 <= M -> returns most (pollTimers fuel) n.
Proof.
  intros Hb Hnext. unfold pollTimers, whenRunning. apply get_returns.
  destruct (running (engine n)); cbn [whenM]; [|by apply ret_returns, ahead_most].
  apply get_returns, ask_returns. cbv zeta. noid. destruct (_ && _).
  { unfold returns. rewrite run_set, run_truncateLog. apply enterNewHeight_returns, bounded_cut.
    apply bounded_quiet; [done|by split]. }
  destruct (bool_decide _).
  { destruct (_ <=? _); [|by apply ret_returns, ahead_most]. apply runs_tryApplyCommit; [done|apply ahead_most]. }
  destruct (pending_height (engine n)) as [next|].
  - destruct (_ && _); [by apply ret_returns, ahead_most|]. unfold returns. rewrite run_set.
    apply enterNewHeight_returns. apply bounded_quiet; [done|by split].
  - destruct (negb _); [by apply ret_returns, ahead_most|]. unfold returns. rewrite run_set.
    apply stepTimeout_returns; [|exact Hnext]. apply bounded_quiet; [done|by split].
Qed.

Lemma start_returns h n : Bounded n -> returns most (start fuel h) n.
Proof.
  intros Hb. unfold start. apply get_returns. destruct (running (engine n)); [by apply ret_returns, ahead_most|].
  unfold returns. rewrite run_set.
  apply (runs_bind most); [apply runs_when; intros _; apply runs_truncateLog| | |apply ahead_most].
  - intros _. apply runs_bind; [by apply runs_set|intros _]. intros n1 Hb1 _. by apply enterNewHeight_returns.
  - apply bounded_quiet; [done|by split].
Qed.

(** The rounds a call brings. *)
Definition callBound (c : Call) : Prop :=
  match c with
  | CallProposal p => proposalBound p
  | CallPrevote v | CallPrecommit v => voteBound v
  | _ => True
  end.

Lemma invoke_returns c n :
  Bounded n -> callBound c -> addRound (round (engine n)) 1 <= M -> returns most (invoke fuel c) n.
Proof.
  intros Hb Hc Hnext. pose proof enterPropose_nested as Hp. pose proof enterPrecommit_nested as Hq.
  destruct c as [h| |h|p|v|v|tv|]; cbn [invoke].
  - by apply start_returns.
  - apply runs_set; [|done|apply ahead_most]. intros e. by destruct (running e).
  - by apply runs_set; [|done|apply ahead_most].
  - by apply runs_whenRunning; [apply runs_handleProposal| |apply ahead_most].
  - by apply runs_whenRunning; [apply runs_handleVote| |apply ahead_most].
  - by apply runs_whenRunning; [apply runs_handleVote| |apply ahead_most].
  - by apply runs_onTimeoutVote; [|apply ahead_most].
  - by apply pollTimers_returns.
Qed.
End methods.

(** C12: every call returns, and keeps the rounds in bounds.  Let [M] bound the
    current round and its successor, the rounds in the engine's buffers and hints,
    the rounds in the log and those of the message at hand.  With more than
    [2 * M + 1] nested entries the call ends normally, whatever the state, the
    world and the order of the maps, and [M] still bounds the rounds after it:
    the recursion between entering a round and its precommit step ends, and at
    the width of a round ([M = 2^32 - 1]) this is every call. *)
Theorem calls_return fuel c n :
  Bounded n -> callBound c -> addRound (round (engine n)) 1 <= M -> 2 * M + 1 < N.of_nat fuel ->
  exists n', invoke fuel c n = (Ok (), n') /\ Bounded n'.
Proof.
  intros Hb Hc Hnext Hf. destruct (invoke_returns fuel Hf c n Hb Hc Hnext) as ([] & n' & E & Hb' & _). by exists n'.
Qed.
End termination.
