(* ===== verification/BftNetwork.v ===== *)
(** * Networks of engines

    Three honest engines and one faulty validator, run on explicit schedules:
    what an honest engine is given in the name of another was sent by it, the
    faulty validator signs what it likes with its own key.  The schedules show
    two behaviours of the code: two blocks committed at one height with one
    faulty validator of four, and a validator that signs two prevotes in one
    round after a restart on the node's log. *)

From S2P Require Import Prelude Types StateAccess Wire Codec Rotation Consensus Block BlockProcessor Bft BftLog BftSteps BftSafety BftCommit BftTermination.

(** ** A small world *)

(** A signature spells the hash and the key: nobody signs for another. *)
#[export] Instance keyed : Crypto := {
  blake2b := fun b => foldl (fun h x => N.land (h * 37 + x + 1) (N.ones 64)) 7 b;
  ed25519_verify := fun h pk sig => bool_decide (sig = be_split 32 h ++ be_split 32 pk);
  overshift := fun _ _ => 0;
}.

#[export] Instance mergeSort : StdSort := merge_StdSort.

#[export] Instance listOrder : MapOrder := { entries V m := map_to_list m; entries_perm V m := Permutation_refl _ }.

(** Validators 1 to 4; the world is its clock. *)
Definition members : list N := [1; 2; 3; 4].

Definition peer (me : N) : World := {|
  world := N;
  my_validator_id := me;
  sign := fun h => be_split 32 h ++ be_split 32 me;
  chain_id := 1;
  active_set := fun _ _ => members;
  state_lookup_validator := fun _ i =>
    if bool_decide (i ∈ members) then Some (ValidatorInfo.fresh <| ValidatorInfo.id := i |> <| ValidatorInfo.consensus_key := i |>)
    else None;
  parent_hash := fun _ => 11;
  my_address := fun _ => 100 + me;
  simulate_block := fun w _ => (Simulated 77 [], w);
  now_ms := id;
  steady_ms := id;
  verify_slash_proof := fun _ _ => false;
  has_pending_work := fun _ => true;
  wal_load_locked_block := fun _ _ => None;
  select_transactions := fun _ _ _ => [];
  on_block_committed := fun w _ => (true, w);
  max_block_bytes := 256 * 1024;
  max_block_txs := 5000;
  max_commit_retries := 5;
  commit_retry_backoff_ms := 1000;
|}.

(** ** Schedules *)

Section network.
Context {Log : WriteAheadLog} (empty_log : @wal Log).

Abbreviation engineNode := (Node N (@wal Log)).
Abbreviation Net := (gmap N engineNode).

Definition FAULTY : N := 4.

(** Nested entries in one call of these schedules. *)
Definition FUEL : nat := 8.

Definition boot : Net :=
  list_to_map (map (fun i => (i, mkNode freshEngine 0 empty_log [])) [1; 2; 3]).

Definition sentVote (r : N) (p : bool) (n : engineNode) : option Vote.t :=
  head (omap (fun ev => match ev with
                        | SentVote v q => if (Vote.round v =? r) && Bool.eqb p q then Some v else None
                        | _ => None end) (events n)).

Definition sentProposal (r : N) (n : engineNode) : option Proposal.t :=
  head (omap (fun ev => match ev with
                        | SentProposal p => if Proposal.round p =? r then Some p else None
                        | _ => None end) (events n)).

Inductive Action :=
| Start (i h : N)
| Expire (i : N)                                    (* the clock passes the deadline; poll *)
| Crash (i : N)                                     (* the engine is lost, the log is kept *)
| RelayProposal (i from r : N)                      (* what [from] sent reaches [i] *)
| RelayVote (i from r : N) (p : bool)
| FaultyProposal (i from r0 r : N)                  (* proposes again the block [from] proposed in [r0] *)
| FaultyVote (i r : N) (p : bool) (from r0 : N).    (* votes for that block *)

Definition call (i : N) (m : Exec engineNode unit) (net : Net) : option Net :=
  n ← net !! i;
  match m n with (Ok _, n) => Some (<[i := n]> net) | _ => None end.

Definition step (a : Action) (net : Net) : option Net :=
  match a with
  | Start i h => call i (@start keyed mergeSort (peer i) Log listOrder FUEL h) net
  | Expire i =>
    n ← net !! i;
    deadline ← round_timer (engine n);
    call i (@pollTimers keyed mergeSort (peer i) Log listOrder FUEL) (<[i := n <| env := deadline |>]> net)
  | Crash i => n ← net !! i; Some (<[i := n <| engine := freshEngine |>]> net)
  | RelayProposal i from r =>
    sender ← net !! from;
    p ← sentProposal r sender;
    call i (@onProposal keyed mergeSort (peer i) Log listOrder FUEL p) net
  | RelayVote i from r q =>
    sender ← net !! from;
    v ← sentVote r q sender;
    call i (if q then @onPrecommit keyed mergeSort (peer i) Log listOrder FUEL v
            else @onPrevote keyed mergeSort (peer i) Log listOrder FUEL v) net
  | FaultyProposal i from r0 r =>
    sender ← net !! from;
    p ← sentProposal r0 sender;
    let q := Proposal.mk (Proposal.height p) r FAULTY 3 (Proposal.block_hash p) (Proposal.block_bytes p)
               (@sign (peer FAULTY) (proposalSigningHash (Proposal.height p) r (Proposal.block_hash p))) in
    call i (@onProposal keyed mergeSort (peer i) Log listOrder FUEL q) net
  | FaultyVote i r q from r0 =>
    sender ← net !! from;
    p ← sentProposal r0 sender;
    let v := Vote.mk (Proposal.height p) r 3 FAULTY false (Proposal.block_hash p)
               (@sign (peer FAULTY) (voteSigningHash (Proposal.height p) r false (Proposal.block_hash p))) in
    call i (if q then @onPrecommit keyed mergeSort (peer i) Log listOrder FUEL v
            else @onPrevote keyed mergeSort (peer i) Log listOrder FUEL v) net
  end.

Fixpoint run (l : list Action) (net : Net) : option Net :=
  match l with [] => Some net | a :: l => net ← step a net; run l net end.

(** The hashes a node committed, with their heights. *)
Definition committedBlocks (n : engineNode) : list (N * Hash) :=
  omap (fun ev => match ev with
                  | Committed b true => Some (BlockHeader.height (Block.header b), Block.hash b)
                  | _ => None end) (events n).

(** The votes a node signed: height, round, type and value. *)
Definition signedValues (n : engineNode) : list (N * N * bool * (bool * Hash)) :=
  omap (fun ev => match ev with
                  | SignedVote v p => Some (Vote.height v, Vote.round v, p, (Vote.is_nil v, Vote.block_hash v))
                  | _ => None end) (events n).
End network.

(** ** A fork

    Height 1: the proposers of rounds 0 to 3 are 2, 3, 4 and 1.

    Round 0: 2 proposes [v]; only 1 sees the polka, locks [v] and precommits it.
    Round 1: 3 proposes [w]; 2, 3 and 4 prevote it, but only 1 gets to see that
    polka, and only after its prevote step: its valid value becomes [w], its lock
    stays [v].  Round 2: 4 proposes [v] again; 2 sees the prevotes of 2, 3 and 4
    and locks [v], while 1, without a polka, precommits its lock [v] of round 0:
    with 4, a quorum, and 2 commits [v].  Round 3: 1 proposes its valid value [w],
    which is newer than its lock; 1, 3 and 4 prevote and precommit it, and 1
    commits [w]. *)
Definition forkSchedule : list Action :=
  [Start 1 1; Start 2 1; Start 3 1; RelayProposal 1 2 0; RelayProposal 3 2 0;
   RelayVote 1 2 0 false; RelayVote 1 3 0 false; Expire 2; Expire 3; Expire 1; Expire 2; Expire 3] ++
  [RelayProposal 1 3 1; RelayProposal 2 3 1; Expire 1; RelayVote 1 2 1 false; RelayVote 1 3 1 false;
   FaultyVote 1 1 false 3 1; Expire 2; Expire 3; Expire 1; Expire 2; Expire 3] ++
  [FaultyProposal 1 2 0 2; FaultyProposal 2 2 0 2; FaultyProposal 3 2 0 2; RelayVote 2 3 2 false;
   FaultyVote 2 2 false 2 0; Expire 1; Expire 3; RelayVote 2 1 2 true; FaultyVote 2 2 true 2 0] ++
  [Expire 1; Expire 3; RelayProposal 3 1 3; RelayVote 1 3 3 false; FaultyVote 1 3 false 3 1;
   RelayVote 3 1 3 false; FaultyVote 3 3 false 3 1; RelayVote 1 3 3 true; FaultyVote 1 3 true 3 1].

(** Nodes 1 and 2 each committed one block at height 1, and not the same. *)
Definition forkOutcome (o : option (gmap N (Node N (@wal keptLog)))) : bool :=
  match o with
  | None => false
  | Some net =>
    match net !! 1, net !! 2 with
    | Some n1, Some n2 =>
      match @committedBlocks keptLog n1, @committedBlocks keptLog n2 with
      | [(h1, w)], [(h2, v)] => (h1 =? 1) && (h2 =? 1) && negb (v =? w)
      | _, _ => false
      end
    | _, _ => false
    end
  end.

(** C13: agreement does not survive one faulty validator of four.  On this schedule
    the honest engines 1 and 2 each commit one block at height 1, and the two
    blocks differ: an engine that sees no polka in a round precommits its old
    lock, and is later released from that lock by a polka older than the
    precommit. *)
Theorem agreement_fails :
  exists net n1 n2 v w, @run keptLog forkSchedule (@boot keptLog []) = Some net /\
    net !! 1 = Some n1 /\ net !! 2 = Some n2 /\
    @committedBlocks keptLog n1 = [(1, w)] /\ @committedBlocks keptLog n2 = [(1, v)] /\ v <> w.
Proof.
  destruct (@run keptLog forkSchedule (@boot keptLog [])) as [net|] eqn:E; [|vm_compute in E; discriminate].
  assert (Hc : forkOutcome (Some net) = true) by (rewrite <- E; vm_compute; reflexivity).
  cbn [forkOutcome] in Hc. clear E.
  destruct (net !! 1) as [n1|] eqn:E1; [|discriminate Hc]. destruct (net !! 2) as [n2|] eqn:E2; [|discriminate Hc].
  exists net, n1, n2. destruct (@committedBlocks keptLog n1) as [|[h1 w] [|? ?]] eqn:C1; try discriminate Hc.
  destruct (@committedBlocks keptLog n2) as [|[h2 v] [|? ?]] eqn:C2; try discriminate Hc.
  apply andb_true_iff in Hc as [[Hh1 Hh2]%andb_true_iff Hne]. apply N.eqb_eq in Hh1 as ->, Hh2 as ->.
  apply negb_true_iff, N.eqb_neq in Hne. exists v, w. split_and!; done.
Qed.

(** ** A restart

    Engine 1 prevotes the proposal of round 0, times out, precommits nil, and is
    restarted on the log the node keeps.  The prevote is not in the log any more,
    so the engine, back in round 0, signs another one. *)
Definition restartSchedule : list Action :=
  [Start 1 1; Start 2 1; RelayProposal 1 2 0; Expire 1; Crash 1; Start 1 1; Expire 1].

(** The prevotes of round 0 at height 1. *)
Definition prevotesSigned {Log : WriteAheadLog} (o : option (gmap N (Node N (@wal Log)))) : list (bool * Hash) :=
  match o ≫= (fun net => net !! 1) with
  | Some n => omap (fun kv => if bool_decide (fst kv = (1, 0, false)) then Some (snd kv) else None) (@signedValues Log n)
  | None => []
  end.

(** C14: on the log the node keeps, an honest validator signs two different
    prevotes of one height and round when it is restarted between its precommit
    and the next round; on a log that keeps every entry the same schedule has it
    sign one. *)
Theorem restart_signs_twice :
  (exists v, v <> 0 /\
     prevotesSigned (@run nodeLog restartSchedule (@boot nodeLog ∅)) = [(true, 0); (false, v)]) /\
  length (prevotesSigned (@run keptLog restartSchedule (@boot keptLog []))) = 1%nat.
Proof.
  split; [|vm_compute; reflexivity]. eexists. split; [|vm_compute; reflexivity]. discriminate.
Qed.

(** ** One engine, restarted

    The clock passes the deadlines of the propose and prevote steps: engine 1
    prevotes and precommits nil at height 1, crashes, and is started again. *)
Definition lonely : Node N (list WalEntry) := mkNode freshEngine 0 [] [].

Definition lonelyDeeds : list (@Deed (peer 1)) :=
  [Do (CallStart 1); Pass (5000 : @world (peer 1)); Do CallPollTimers; Pass (10000 : @world (peer 1)); Do CallPollTimers;
   Fall; Do (CallStart 1); Pass (15000 : @world (peer 1)); Do CallPollTimers].

Definition lonelyKeys (o : option (@Node (@world (peer 1)) (@wal keptLog))) : list SignedKey :=
  match o with Some n => @signedKeys (peer 1) keptLog n | None => [] end.

Definition lonelyRun : option (@Node (@world (peer 1)) (@wal keptLog)) :=
  @doAll keyed mergeSort (peer 1) keptLog listOrder FUEL lonelyDeeds lonely.

Lemma never_signs_twice_witness :
  NoDup (lonelyKeys lonelyRun) /\ lonelyKeys lonelyRun = [(1, 0, true); (1, 0, false)].
Proof.
  split; [|vm_compute; reflexivity]. destruct lonelyRun as [n|] eqn:E; [|vm_compute in E; discriminate].
  apply (@never_signs_twice keyed mergeSort (peer 1) keptLog listOrder keptLog_durable).
  exists lonely. split; [split; reflexivity|]. exact (@doAll_happens keyed mergeSort (peer 1) keptLog listOrder _ _ _ _ E).
Defined.

(** Eight nested entries are enough while rounds stay below four. *)
Lemma calls_return_witness : exists n',
  @invoke keyed mergeSort (peer 1) keptLog listOrder FUEL (CallStart 1) lonely = (Ok (), n') /\
  @Bounded (peer 1) keptLog 3 n'.
Proof.
  apply (@calls_return keyed mergeSort (peer 1) keptLog listOrder keptLog_exact 3 FUEL (CallStart 1) lonely).
  - split; [split; cbn; first [lia|apply map_Forall_empty|constructor]|].
    intros h entry Hin. change (entry ∈ @nil WalEntry) in Hin. destruct (not_elem_of_nil _ Hin).
  - exact I.
  - vm_compute. discriminate.
  - reflexivity.
Defined.

(** ** A decision

    Engine 2, the proposer of round 0, gets the prevotes and precommits of 1 and
    3 for its block. *)










