(* ===== verification/Mempool.v ===== *)
(** * Mempool

    src/src/Core/Mempool.cpp and Mempool.h: admission checks, the pool of pending
    transactions with its nonce index and selection heap, write-through to the
    table TBL_MEMPOOL, eviction, block selection; Core/StateViewFromAccess.cpp, and
    the calls Node/Node.cpp makes.

    The pool's members keep their names, with the trailing underscore.  The heap
    is the list of its items, best first: [std::priority_queue] pops them in that
    order, and two items compare equal only if the 64-bit sequence counter has
    wrapped.  The mutex, and the release of the caller's read transaction before a
    write, have no counterpart: calls are atomic, and a write succeeds. *)

From S2P Require Import Prelude Types OrderBook StateAccess Wire Codec ExecBase ExecOrders Block.

Definition MIN_FEE_PER_BYTE : N := 1.
Definition MAX_FEE_RATE : N := 1000.
Definition PRIORITY_BLOCK_SHARE : N := 50.
Definition MAX_MEMPOOL_BYTES : N := 128 * 1024 * 1024.
Definition MAX_MEMPOOL_TXS : N := 50000.
Definition MAX_TX_SIZE : N := 1024 * 1024.

Module FeeTier.
Inductive t : Set := Standard | Priority.

#[global] Instance eq_dec : EqDecision t.
Proof. solve_decision. Defined.

Definition to_byte (x : t) : N := match x with Standard => 0 | Priority => 1 end.
(** [static_cast<FeeTier>] of a byte that is at most 1. *)
Definition of_byte (b : N) : t := if b =? 0 then Standard else Priority.
End FeeTier.

Module MempoolAddResult.
Inductive t : Set :=
| Accepted
| Rejected_Malformed
| Rejected_TooLarge
| Rejected_BadSignature
| Rejected_WrongChain
| Rejected_Expired
| Rejected_NonceTooLow
| Rejected_NonceConflict
| Rejected_LowFee
| Rejected_HighFee
| Rejected_InsufficientFunds
| Rejected_PoolFull
| Rejected_OrderMalformed
| Rejected_OrderPriceOverflow
| Rejected_TokenPrecondition.

#[global] Instance eq_dec : EqDecision t.
Proof. solve_decision. Defined.

(** [static_cast<size_t>]. *)
Definition index (r : t) : nat :=
  match r with
  | Accepted => 0 | Rejected_Malformed => 1 | Rejected_TooLarge => 2
  | Rejected_BadSignature => 3 | Rejected_WrongChain => 4 | Rejected_Expired => 5
  | Rejected_NonceTooLow => 6 | Rejected_NonceConflict => 7 | Rejected_LowFee => 8
  | Rejected_HighFee => 9 | Rejected_InsufficientFunds => 10 | Rejected_PoolFull => 11
  | Rejected_OrderMalformed => 12 | Rejected_OrderPriceOverflow => 13
  | Rejected_TokenPrecondition => 14
  end.

Definition mempoolAddResultName (r : t) : string :=
  match r with
  | Accepted => "accepted"
  | Rejected_Malformed => "malformed"
  | Rejected_TooLarge => "too-large"
  | Rejected_BadSignature => "bad-signature"
  | Rejected_WrongChain => "wrong-chain"
  | Rejected_Expired => "expired"
  | Rejected_NonceTooLow => "nonce-too-low"
  | Rejected_NonceConflict => "nonce-conflict"
  | Rejected_LowFee => "low-fee"
  | Rejected_HighFee => "high-fee"
  | Rejected_InsufficientFunds => "insufficient-funds"
  | Rejected_PoolFull => "pool-full"
  | Rejected_OrderMalformed => "order-malformed"
  | Rejected_OrderPriceOverflow => "order-price-overflow"
  | Rejected_TokenPrecondition => "token-precondition"
  end.
End MempoolAddResult.
Import MempoolAddResult.

Definition txMovesNativeFromSender (ty : TxType.t) : bool :=
  match ty with
  | TxType.Transfer | TxType.TransferNft | TxType.BurnNft | TxType.MintNft
  | TxType.CreateNftCollection | TxType.TopUpNft => true
  | _ => false
  end.

Definition txMovesTokenFromSender (ty : TxType.t) : bool :=
  match ty with
  | TxType.Transfer | TxType.BurnToken | TxType.TransferNft | TxType.BurnNft => true
  | _ => false
  end.

(** What the pool reads of the chain: [StateViewFromAccess] holds a height, a
    chain id and a store, and forwards its reads to the store. *)
Module StateView.
Record t := mk { access : State; currentHeight : N; chainId : N }.
Definition getAccount (address : Address) (v : t) : Account.t := getAccount address (access v).
Definition getTokenBalance (address : Address) (token_id : N) (v : t) : N :=
  getTokenBalance address token_id (access v).
Definition getToken (token_id : N) (v : t) : option TokenInfo.t := getToken token_id (access v).
Definition getTokenSupply (token_id : N) (v : t) : N := getTokenSupply token_id (access v).
End StateView.

Module Entry.
Record t := mk {
  tx : Transaction.t;
  tier : FeeTier.t;
  fee_rate : N;
  sequence : N;
  added_at_ms : N;
  tx_size : N;
}.
End Entry.

Module HeapItem.
Record t := mk { tier : FeeTier.t; fee_rate : N; sequence : N; txid : Hash }.

#[global] Instance eq_dec : EqDecision t.
Proof. solve_decision. Defined.
End HeapItem.

(** [HeapCompare]: [a] has lower priority than [b]. *)
Definition HeapCompare (a b : HeapItem.t) : bool :=
  if negb (bool_decide (HeapItem.tier a = HeapItem.tier b)) then
    FeeTier.to_byte (HeapItem.tier a) <? FeeTier.to_byte (HeapItem.tier b)
  else if negb (HeapItem.fee_rate a =? HeapItem.fee_rate b) then
    HeapItem.fee_rate a <? HeapItem.fee_rate b
  else HeapItem.sequence b <? HeapItem.sequence a.

Abbreviation MaxHeap := (list HeapItem.t).

(** [push]; [top] and [pop] are the head and the tail. *)
Fixpoint push (item : HeapItem.t) (heap : MaxHeap) : MaxHeap :=
  match heap with
  | [] => [item]
  | x :: heap' => if HeapCompare x item then item :: heap else x :: push item heap'
  end.

Record Mempool := mkMempool {
  add_result_counts_ : list N;
  entries_ : gmap Hash Entry.t;
  nonce_index_ : gmap bytes Hash;
  heap_ : MaxHeap;
  total_bytes_ : N;
  next_sequence_ : N;
  db_ : option (gmap Hash bytes);  (** TBL_MEMPOOL of the attached database *)
  loading_ : bool;
  stale_after_load_ : list Hash;
}.

#[export] Instance eta_Mempool : Eta Mempool := fun p =>
  mkMempool (add_result_counts_ p) (entries_ p) (nonce_index_ p) (heap_ p) (total_bytes_ p)
    (next_sequence_ p) (db_ p) (loading_ p) (stale_after_load_ p).

(** [Mempool()] *)
Definition emptyPool : Mempool := mkMempool (replicate 15 0) ∅ ∅ [] 0 1 None false [].

(** [Mempool(db)] and [attach], on a database with the given table. *)
Definition attach (table : gmap Hash bytes) (p : Mempool) : Mempool := p <| db_ := Some table |>.

(** The address and the little-endian nonce: 40 bytes. *)
Definition nonceKey (from : Address) (nonce : N) : bytes := be_split 32 from ++ le_split 8 nonce.
Definition nonceKeyOf (tx : Transaction.t) : bytes :=
  nonceKey (Transaction.from tx) (Transaction.nonce tx).

Definition serializedSize (tx : Transaction.t) : N :=
  2 + 8 + 1 + 8 + 8 + 32 + 32 + 4 + 8 + 8 + 4 + N.of_nat (length (Transaction.payload tx)) + 64.

Definition computeFeeRate (tx : Transaction.t) (tier : FeeTier.t) : N :=
  let size := u32 (serializedSize tx) in
  if size =? 0 then 0 else Transaction.fee tx / size.

(** ** Payload checks *)

Definition validateOrderPayload (tx : Transaction.t) : MempoolAddResult.t :=
  let p := Transaction.payload tx in
  match Transaction.tx_type tx with
  | TxType.CreateOrder =>
    if (length p <? 26)%nat then Rejected_OrderMalformed
    else
      let buy_token := readU32At p 0 in
      let min_buy_amount := readU64At p 4 in
      let mode := byteAt p 12 in
      let pool_id := readU32At p 13 in
      let condition_count := N.to_nat (byteAt p 25) in
      if (ORDER_MAX_CONDITIONS <? condition_count)%nat then Rejected_OrderMalformed
      else if negb (mode =? OrderExecutionMode.to_byte OrderExecutionMode.Passive) &&
              negb (mode =? OrderExecutionMode.to_byte OrderExecutionMode.Active)
      then Rejected_OrderMalformed
      else if (if mode =? OrderExecutionMode.to_byte OrderExecutionMode.Active then pool_id =? 0
               else negb (pool_id =? 0)) then Rejected_OrderMalformed
      else match OrderCodec.conditionsFrom p condition_count 26 with
      | None => Rejected_OrderMalformed
      | Some _ =>
        if Transaction.token_id tx =? buy_token then Rejected_OrderMalformed
        else if Transaction.amount tx =? 0 then Rejected_OrderMalformed
        else if min_buy_amount =? 0 then Rejected_OrderMalformed
        else if mode =? OrderExecutionMode.to_byte OrderExecutionMode.Passive then
          match OrderBook.canonicalPrice
                  (probeOrder (Transaction.token_id tx) buy_token (Transaction.amount tx) min_buy_amount) with
          | None => Rejected_OrderPriceOverflow
          | Some _ => Accepted
          end
        else Accepted
      end
  | TxType.CancelOrder => if (length p <? 8)%nat then Rejected_OrderMalformed else Accepted
  | _ => Accepted
  end.

(** Not called: its call in [validate] is commented out. *)
Definition validateCreatePoolPayload (tx : Transaction.t) : MempoolAddResult.t :=
  let p := Transaction.payload tx in
  match Transaction.tx_type tx with
  | TxType.CreatePool =>
    if (length p <? 14)%nat then Rejected_TokenPrecondition
    else if u32 (Transaction.token_id tx) =? readU32At p 0 then Rejected_TokenPrecondition
    else if (Transaction.amount tx =? 0) || (readU64At p 4 =? 0) then Rejected_TokenPrecondition
    else if 1000 <? readU16At p 12 then Rejected_TokenPrecondition
    else Accepted
  | _ => Accepted
  end.

(** ** Rows of TBL_MEMPOOL *)

Definition serializeEntry (e : Entry.t) : bytes :=
  let tx_bytes := TransactionCodec.serialize (Entry.tx e) in
  putU32 (N.of_nat (length tx_bytes)) ++ tx_bytes ++ putU8 (FeeTier.to_byte (Entry.tier e)) ++
  putU64 (Entry.fee_rate e) ++ putU64 (Entry.sequence e) ++ putU64 (Entry.added_at_ms e) ++
  putU32 (Entry.tx_size e).

Definition deserializeEntry (data : bytes) : option Entry.t :=
  let len := length data in
  if (len <? 4)%nat then None
  else
    let txs := N.to_nat (readU32At data 0) in
    let off := 4%nat in
    if (txs =? 0)%nat || (len <? off + txs + 1 + 8 + 8 + 8 + 4)%nat then None
    else match TransactionCodec.deserialize (slice data off txs) with
    | None => None
    | Some tx =>
      let off := (off + txs)%nat in
      let tier_byte := byteAt data off in
      if 1 <? tier_byte then None
      else Some (Entry.mk tx (FeeTier.of_byte tier_byte) (readU64At data (off + 1))
                   (readU64At data (off + 9)) (readU64At data (off + 17)) (readU32At data (off + 25)))
    end.

Definition persistEntry (txid : Hash) (e : Entry.t) (p : Mempool) : Mempool :=
  p <| db_ ::= fmap (insert txid (serializeEntry e)) |>.

Definition unpersistEntry (txid : Hash) (p : Mempool) : Mempool :=
  p <| db_ ::= fmap (delete txid) |>.

Definition unpersistBatch (txids : list Hash) (p : Mempool) : Mempool :=
  foldl (fun p txid => unpersistEntry txid p) p txids.

(** [forEachEntry]: the rows in the order of their 32-byte keys. *)
Definition keyBefore (a b : Hash * bytes) : Prop := fst a <= fst b.

#[export] Instance keyBefore_dec : RelDecision keyBefore.
Proof. intros a b. unfold keyBefore. apply _. Defined.

Definition rowsInOrder (table : gmap Hash bytes) : list (Hash * bytes) :=
  merge_sort keyBefore (map_to_list table).

(** ** Admission checks *)

Section mempool.
Context {Cr : Crypto}.

Definition txidOf (tx : Transaction.t) : Hash := TransactionCodec.signingHash tx.

(** [CreatePool]: the sender holds both amounts. *)
Definition checkPoolFunds (tx : Transaction.t) (view : StateView.t) : option MempoolAddResult.t :=
  let p := Transaction.payload tx in
  if (length p <? 12)%nat then Some Rejected_TokenPrecondition
  else
    let checkSide tid amt :=
      if tid =? NATIVE_TOKEN_ID then amt <=? Account.balance (StateView.getAccount (Transaction.from tx) view)
      else amt <=? StateView.getTokenBalance (Transaction.from tx) tid view in
    if negb (checkSide (u32 (Transaction.token_id tx)) (Transaction.amount tx)) then
      Some Rejected_InsufficientFunds
    else if negb (checkSide (readU32At p 0) (readU64At p 4)) then Some Rejected_InsufficientFunds
    else None.

(** [MintToken], [BurnToken] and [UpdateTokenMeta]: the token exists, and a mint
    or an update comes from its creator and stays within the cap. *)
Definition checkToken (tx : Transaction.t) (view : StateView.t) : option MempoolAddResult.t :=
  let ty := Transaction.tx_type tx in
  if Transaction.token_id tx =? NATIVE_TOKEN_ID then Some Rejected_TokenPrecondition
  else match StateView.getToken (Transaction.token_id tx) view with
  | None => Some Rejected_TokenPrecondition
  | Some token =>
    if (bool_decide (ty = TxType.MintToken) || bool_decide (ty = TxType.UpdateTokenMeta)) &&
       negb (TokenInfo.creator token =? Transaction.from tx) then Some Rejected_TokenPrecondition
    else if bool_decide (ty = TxType.MintToken) && (0 <? TokenInfo.maxSupply token) then
      let current_supply := StateView.getTokenSupply (Transaction.token_id tx) view in
      if (TokenInfo.maxSupply token <? Transaction.amount tx) ||
         (TokenInfo.maxSupply token -64 Transaction.amount tx <? current_supply)
      then Some Rejected_TokenPrecondition
      else None
    else None
  end.

(** The fee, and the amount where the type moves it out of the sender. *)
Definition checkFunds (tx : Transaction.t) (view : StateView.t) : option MempoolAddResult.t :=
  let ty := Transaction.tx_type tx in
  let balance := Account.balance (StateView.getAccount (Transaction.from tx) view) in
  if (0 <? Transaction.fee tx) && (balance <? Transaction.fee tx) then Some Rejected_InsufficientFunds
  else if Transaction.token_id tx =? NATIVE_TOKEN_ID then
    if txMovesNativeFromSender ty && (balance <? Transaction.amount tx +64 Transaction.fee tx)
    then Some Rejected_InsufficientFunds
    else None
  else if txMovesTokenFromSender ty &&
          (StateView.getTokenBalance (Transaction.from tx) (Transaction.token_id tx) view <? Transaction.amount tx)
  then Some Rejected_InsufficientFunds
  else None.

(** The checks that read the state. *)
Definition checkState (tx : Transaction.t) (view : StateView.t) : option MempoolAddResult.t :=
  let ty := Transaction.tx_type tx in
  if Transaction.nonce tx <? Account.nonce (StateView.getAccount (Transaction.from tx) view)
  then Some Rejected_NonceTooLow
  else match checkFunds tx view with
  | Some r => Some r
  | None =>
    match (if bool_decide (ty = TxType.CreatePool) then checkPoolFunds tx view else None) with
    | Some r => Some r
    | None =>
      if bool_decide (ty = TxType.MintToken) || bool_decide (ty = TxType.BurnToken) ||
         bool_decide (ty = TxType.UpdateTokenMeta) then checkToken tx view
      else None
    end
  end.

(** The reason of a rejection, or the fee rate and the size. *)
Definition validate (tx : Transaction.t) (view : StateView.t) (tier : FeeTier.t)
    : MempoolAddResult.t + (N * N) :=
  let ty := Transaction.tx_type tx in
  if negb (Transaction.isWellFormed tx) then inl Rejected_Malformed
  else if negb (Transaction.chain_id tx =? StateView.chainId view) then inl Rejected_WrongChain
  else
    let size := u32 (serializedSize tx) in
    if MAX_TX_SIZE <? size then inl Rejected_TooLarge
    else if negb (ed25519_verify (TransactionCodec.signingHash tx) (Transaction.from tx) (Transaction.signature tx))
    then inl Rejected_BadSignature
    else if negb (Transaction.valid_until_height tx =? 0) &&
            (Transaction.valid_until_height tx <? StateView.currentHeight view) then inl Rejected_Expired
    else
      let rate := computeFeeRate tx tier in
      if rate <? MIN_FEE_PER_BYTE then inl Rejected_LowFee
      else if MAX_FEE_RATE <? rate then inl Rejected_HighFee
      else
        let payload_result :=
          if bool_decide (ty = TxType.CreateOrder) || bool_decide (ty = TxType.CancelOrder)
          then validateOrderPayload tx else Accepted in
        if negb (bool_decide (payload_result = Accepted)) then inl payload_result
        else match checkState tx view with
        | Some r => inl r
        | None => inr (rate, size)
        end.

(** ** Removal *)

(** The entry leaves the map, the index and the byte count; its heap items stay. *)
Definition dropEntry (txid : Hash) (e : Entry.t) (p : Mempool) : Mempool :=
  p <| total_bytes_ := total_bytes_ p -64 Entry.tx_size e |>
    <| nonce_index_ ::= delete (nonceKeyOf (Entry.tx e)) |>
    <| entries_ ::= delete txid |>.

(** [if (!loading_) { ...; unpersistEntry(txid); }] *)
Definition unpersistUnlessLoading (txid : Hash) (p : Mempool) : Mempool :=
  if loading_ p then p else unpersistEntry txid p.

Definition reject (txid : Hash) (p : Mempool) : bool * Mempool :=
  match entries_ p !! txid with
  | None => (false, p)
  | Some e => (true, unpersistUnlessLoading txid (dropEntry txid e p))
  end.

Definition remove (txid : Hash) (p : Mempool) : bool * Mempool :=
  match entries_ p !! txid with
  | None => (false, p)
  | Some e => (true, unpersistEntry txid (dropEntry txid e p))
  end.

Definition removeIncluded (txids : list Hash) (p : Mempool) : Mempool :=
  foldl (fun p txid => snd (remove txid p)) p txids.

Definition expired (current_height : N) (e : Entry.t) : bool :=
  negb (Transaction.valid_until_height (Entry.tx e) =? 0) &&
  (Transaction.valid_until_height (Entry.tx e) <? current_height).

Definition clear (p : Mempool) : Mempool :=
  let p := match db_ p with
           | Some table => unpersistBatch (fst <$> rowsInOrder table) p
           | None => p
           end in
  p <| entries_ := ∅ |> <| nonce_index_ := ∅ |> <| total_bytes_ := 0 |> <| next_sequence_ := 1 |>
    <| heap_ := [] |>.

(** ** Queries *)

Definition contains (txid : Hash) (p : Mempool) : bool := bool_decide (is_Some (entries_ p !! txid)).
Definition get (txid : Hash) (p : Mempool) : option Transaction.t := Entry.tx <$> entries_ p !! txid.
Definition poolSize (p : Mempool) : N := N.of_nat (size (entries_ p)).
Definition bytesUsed (p : Mempool) : N := total_bytes_ p.

(** ** Block selection *)

(** What a pass has selected: the transactions, the next nonce of each sender
    seen, and the bytes used. *)
Record Selection := mkSelection {
  result : list Transaction.t;
  next_nonce : gmap Address N;
  bytes_used : N;
}.

(** [next_nonce[from]], read from the state while it is zero. *)
Definition expectedNonce (view : StateView.t) (s : Selection) (from : Address) : N :=
  let expected := default 0 (next_nonce s !! from) in
  if expected =? 0 then Account.nonce (StateView.getAccount from view) else expected.

(** The conditions both loops of a pass test. *)
Definition hasRoom (cap max_txs : N) (s : Selection) : bool :=
  (N.of_nat (length (result s)) <? max_txs) && (bytes_used s <? cap).

(** One popped item: dropped, deferred or selected. *)
Definition visitItem (p : Mempool) (view : StateView.t) (cap : N) (item : HeapItem.t)
    (deferred : MaxHeap) (progress : bool) (s : Selection) : MaxHeap * bool * Selection :=
  match entries_ p !! HeapItem.txid item with
  | None => (deferred, progress, s)
  | Some entry =>
    if cap <? bytes_used s +64 Entry.tx_size entry then (deferred, progress, s)
    else
      let tx := Entry.tx entry in
      let expected := expectedNonce view s (Transaction.from tx) in
      if negb (Transaction.nonce tx =? expected) then
        (push item deferred, progress,
         mkSelection (result s) (<[Transaction.from tx := expected]> (next_nonce s)) (bytes_used s))
      else
        (deferred, true,
         mkSelection (result s ++ [tx]) (<[Transaction.from tx := Transaction.nonce tx +64 1]> (next_nonce s))
           (bytes_used s +64 Entry.tx_size entry))
  end.

(** The inner loop of a pass; [stop] is the test that leaves it before a pop. *)
Fixpoint drain (p : Mempool) (view : StateView.t) (stop : HeapItem.t -> bool) (cap max_txs : N)
    (heap deferred : MaxHeap) (progress : bool) (s : Selection) : MaxHeap * MaxHeap * bool * Selection :=
  match heap with
  | [] => ([], deferred, progress, s)
  | item :: heap' =>
    if negb (hasRoom cap max_txs s) || stop item then (heap, deferred, progress, s)
    else
      let '(deferred, progress, s) := visitItem p view cap item deferred progress s in
      drain p view stop cap max_txs heap' deferred progress s
  end.

(** The outer loop; [None] is the end of the fuel. *)
Fixpoint selectPass (p : Mempool) (view : StateView.t) (stop : HeapItem.t -> bool) (cap max_txs : N)
    (fuel : nat) (heap : MaxHeap) (s : Selection) : option (MaxHeap * Selection) :=
  match fuel with
  | O => None
  | S fuel =>
    if bool_decide (heap = []) || negb (hasRoom cap max_txs s) then Some (heap, s)
    else
      let '(heap, deferred, progress, s) := drain p view stop cap max_txs heap [] false s in
      let heap := foldl (fun h item => push item h) heap deferred in
      if match heap with item :: _ => stop item | [] => false end then Some (heap, s)
      else if negb progress then Some (heap, s)
      else selectPass p view stop cap max_txs fuel heap s
  end.

Definition notPriority (item : HeapItem.t) : bool :=
  negb (bool_decide (HeapItem.tier item = FeeTier.Priority)).

Definition priorityCap (max_block_bytes : N) : N := max_block_bytes *64 PRIORITY_BLOCK_SHARE / 100.

(** A pass that makes progress selects an item: one more round than there are
    items is enough. *)
Definition selectForBlock (p : Mempool) (view : StateView.t) (max_block_bytes max_block_txs : N)
    : option (list Transaction.t) :=
  let fuel := S (length (heap_ p)) in
  '(heap, s) ← selectPass p view notPriority (priorityCap max_block_bytes) max_block_txs fuel (heap_ p)
                 (mkSelection [] ∅ 0);
  let used := foldl (fun n tx => n +64 serializedSize tx) 0 (result s) in
  '(_, s) ← selectPass p view (fun _ => false) max_block_bytes max_block_txs fuel heap
              (mkSelection (result s) (next_nonce s) used);
  Some (result s).

(** ** Walks of the hash map *)

Context {Mo : MapOrder}.

Definition priorityCount (p : Mempool) : N :=
  foldl (fun n '(_, e) => if bool_decide (Entry.tier e = FeeTier.Priority) then n +64 1 else n) 0
    (entries (entries_ p)).

Definition purgeExpired (current_height : N) (p : Mempool) : Mempool :=
  removeIncluded (fst <$> filter (fun '(_, e) => expired current_height e = true) (entries (entries_ p))) p.

(** One step of the search: the lower of [lowest] and the next entry. *)
Definition lowerEntry (lowest : option (Hash * Entry.t)) (x : Hash * Entry.t) : option (Hash * Entry.t) :=
  match lowest with
  | None => Some x
  | Some y =>
    let e := snd x in
    let l := snd y in
    if negb (bool_decide (Entry.tier e = Entry.tier l)) then
      if bool_decide (Entry.tier e = FeeTier.Standard) then Some x else Some y
    else if Entry.fee_rate e <? Entry.fee_rate l then Some x
    else if (Entry.fee_rate e =? Entry.fee_rate l) && (Entry.sequence l <? Entry.sequence e) then Some x
    else Some y
  end.

(** The entry with the key it is stored under, which the caller looks up again. *)
Definition findLowestPriorityEntry (p : Mempool) : option (Hash * Entry.t) :=
  foldl lowerEntry None (entries (entries_ p)).

Definition beats (e victim : Entry.t) : bool :=
  if bool_decide (Entry.tier e = FeeTier.Priority) && bool_decide (Entry.tier victim = FeeTier.Standard) then true
  else bool_decide (Entry.tier e = Entry.tier victim) && (Entry.fee_rate victim <? Entry.fee_rate e).

Definition makeRoomFor (new_entry : Entry.t) (p : Mempool) : bool * Mempool :=
  if MAX_MEMPOOL_BYTES * 2 <? total_bytes_ p +64 Entry.tx_size new_entry then (false, p)
  else match findLowestPriorityEntry p with
  | None => (true, p)
  | Some (victim_txid, victim) =>
    if negb (beats new_entry victim) then (false, p)
    else (true, unpersistUnlessLoading victim_txid (dropEntry victim_txid victim p))
  end.

(** [true]: the pool takes the entry, after an eviction if it is full. *)
Definition roomFor (e : Entry.t) (p : Mempool) : bool * Mempool :=
  if (MAX_MEMPOOL_TXS <=? poolSize p) || (MAX_MEMPOOL_BYTES <? total_bytes_ p +64 Entry.tx_size e)
  then makeRoomFor e p else (true, p).

(** ** Adding *)

(** The transaction of the same sender and nonce: the call ends ([inl]), or goes
    on with the pool without it. *)
Definition resolveNonce (tx : Transaction.t) (tier : FeeTier.t) (fee_rate : N) (p : Mempool)
    : MempoolAddResult.t + Mempool :=
  let nk := nonceKeyOf tx in
  match (nonce_index_ p !! nk : option Hash) with
  | None => inr p
  | Some existing_txid =>
    match entries_ p !! existing_txid with
    | None => inr (p <| nonce_index_ ::= delete nk |>)
    | Some existing =>
      if existing_txid =? txidOf tx then inl Accepted
      else if (bool_decide (tier = FeeTier.Priority) && bool_decide (Entry.tier existing = FeeTier.Standard)) ||
              (bool_decide (tier = Entry.tier existing) && (Entry.fee_rate existing <? fee_rate)) then
        inr (unpersistUnlessLoading existing_txid
          (p <| total_bytes_ := total_bytes_ p -64 Entry.tx_size existing |>
             <| entries_ ::= delete existing_txid |> <| nonce_index_ ::= delete nk |>))
      else inl Rejected_NonceConflict
    end
  end.

(** [emplace] leaves a key that is present as it is. *)
Definition emplace {K V} `{Countable K} (k : K) (v : V) (m : gmap K V) : gmap K V :=
  match m !! k with Some _ => m | None => <[k := v]> m end.

Definition insertEntry (txid : Hash) (e : Entry.t) (p : Mempool) : Mempool :=
  let item := HeapItem.mk (Entry.tier e) (Entry.fee_rate e) (Entry.sequence e) txid in
  let p := p <| entries_ ::= emplace txid e |>
             <| nonce_index_ ::= emplace (nonceKeyOf (Entry.tx e)) txid |>
             <| total_bytes_ := total_bytes_ p +64 Entry.tx_size e |>
             <| heap_ ::= push item |> in
  if loading_ p then p else persistEntry txid (default e (entries_ p !! txid)) p.

Definition addImpl (tx : Transaction.t) (view : StateView.t) (tier : FeeTier.t) (nowMs : N) (p : Mempool)
    : MempoolAddResult.t * Mempool :=
  match validate tx view tier with
  | inl r => (r, p)
  | inr (fee_rate, tx_size) =>
    match resolveNonce tx tier fee_rate p with
    | inl r => (r, p)
    | inr p =>
      let e := Entry.mk tx tier fee_rate (next_sequence_ p) nowMs tx_size in
      let p := p <| next_sequence_ := next_sequence_ p +64 1 |> in
      let '(admitted, p) := roomFor e p in
      if negb admitted then (Rejected_PoolFull, p) else (Accepted, insertEntry (txidOf tx) e p)
    end
  end.

Definition add (tx : Transaction.t) (view : StateView.t) (tier : FeeTier.t) (nowMs : N) (p : Mempool)
    : MempoolAddResult.t * Mempool :=
  let '(r, p) := addImpl tx view tier nowMs p in
  (r, p <| add_result_counts_ ::= alter (fun n => n +64 1) (index r) |>).

(** ** Loading *)

(** One persisted entry is added again.  [nowMs] is the clock, read once per
    sequence number. *)
Definition reload (view : StateView.t) (nowMs : N -> N) (p : Mempool) (e : Entry.t) : Mempool :=
  let '(r, p) := add (Entry.tx e) view (Entry.tier e) (nowMs (next_sequence_ p)) p in
  if bool_decide (r = Accepted) then p
  else p <| stale_after_load_ ::= fun l => l ++ [txidOf (Entry.tx e)] |>.

Definition load (view : StateView.t) (nowMs : N -> N) (p : Mempool) : Mempool :=
  match db_ p with
  | None => p
  | Some table =>
    let persisted := omap (fun kv => deserializeEntry (snd kv)) (rowsInOrder table) in
    let p := p <| loading_ := true |> <| stale_after_load_ := [] |> in
    (foldl (reload view nowMs) p persisted) <| loading_ := false |>
  end.

Definition takeStaleAfterLoad (p : Mempool) : list Hash * Mempool :=
  (stale_after_load_ p, p <| stale_after_load_ := [] |>).

(** ** Introspection *)

Record Stats := mkStats {
  st_total_txs : N; st_priority_txs : N; st_standard_txs : N; st_total_bytes : N;
  st_min_fee_rate : N; st_max_fee_rate : N; st_avg_fee_rate : N;
}.

Definition stats (p : Mempool) : Stats :=
  if bool_decide (entries_ p = ∅) then mkStats (poolSize p) 0 0 (total_bytes_ p) 0 0 0
  else
    let es := snd <$> entries (entries_ p) in
    let priority := priorityCount p in
    let standard := foldl (fun n e => if bool_decide (Entry.tier e = FeeTier.Priority) then n else n +64 1) 0 es in
    let sum_rate := foldl (fun n e => n +64 Entry.fee_rate e) 0 es in
    let min_rate := foldl (fun n e => if Entry.fee_rate e <? n then Entry.fee_rate e else n) (w64 - 1) es in
    let max_rate := foldl (fun n e => if n <? Entry.fee_rate e then Entry.fee_rate e else n) 0 es in
    mkStats (poolSize p) priority standard (total_bytes_ p) min_rate max_rate (sum_rate / poolSize p).

Definition addResultCounts (p : Mempool) : list N := add_result_counts_ p.

(** Copies of the entries with their keys. *)
Definition snapshot (p : Mempool) : list (Hash * Entry.t) := entries (entries_ p).

(** ** The node's calls (Node/Node.cpp) *)

(** [initMempool]: load, then delete the stale rows. *)
Definition initMempool (view : StateView.t) (nowMs : N -> N) (p : Mempool) : Mempool :=
  let '(stale, p) := takeStaleAfterLoad (load view nowMs p) in
  unpersistBatch stale p.

(** The outcome of [handleIncomingTx]: whether the transaction is broadcast. *)
Definition handleIncomingTx (payload : bytes) (view : StateView.t) (nowMs : N) (p : Mempool) : bool * Mempool :=
  match TransactionCodec.deserialize payload with
  | None => (false, p)
  | Some tx =>
    if contains (txidOf tx) p then (false, p)
    else
      let '(r, p) := add tx view FeeTier.Standard nowMs p in
      (bool_decide (r = Accepted), p)
  end.

(** The result, the error text, and whether the transaction is broadcast. *)
Definition submitTransaction (tx : Transaction.t) (view : StateView.t) (nowMs : N) (p : Mempool)
    : MempoolAddResult.t * string * bool * Mempool :=
  let '(r, p) := add tx view FeeTier.Standard nowMs p in
  if negb (bool_decide (r = Accepted)) then (r, mempoolAddResultName r, false, p) else (r, EmptyString, true, p).

(** [applyCommittedBlock], once the block is stored. *)
Definition blockCommitted (txs : list Transaction.t) (height : N) (p : Mempool) : Mempool :=
  purgeExpired height (removeIncluded (txidOf <$> txs) p).
End mempool.
