(* ===== verification/MempoolInvariant.v ===== *)
(** * What holds of the pool

    The consistency of the pool of Mempool.v: entries, index, heap, byte count,
    limits and rows.  Every operation keeps it, whatever is offered, and so does a
    restart; the rows of the table decode to what was admitted. *)

From S2P Require Import Prelude Types StateAccess Wire Codec ExecBase ExecOrders Block Mempool.
Import MempoolAddResult.

#[global] Arguments serializeEntry : simpl never.
#[global] Arguments nonceKeyOf : simpl never.
#[global] Arguments computeFeeRate : simpl never.
#[global] Arguments serializedSize : simpl never.
#[global] Arguments txidOf : simpl never.
#[global] Arguments unpersistBatch : simpl never.

(** ** The heap *)

Lemma HeapCompare_trans a b c :
  HeapCompare a b = false -> HeapCompare b c = false -> HeapCompare a c = false.
Proof.
  unfold HeapCompare.
  destruct (HeapItem.tier a), (HeapItem.tier b), (HeapItem.tier c); repeat case_bool_decide; cbn; try done;
    destruct (N.eqb_spec (HeapItem.fee_rate a) (HeapItem.fee_rate b)),
      (N.eqb_spec (HeapItem.fee_rate b) (HeapItem.fee_rate c)),
      (N.eqb_spec (HeapItem.fee_rate a) (HeapItem.fee_rate c)); cbn; rewrite ?N.ltb_ge; lia.
Qed.

Lemma HeapCompare_asym a b : HeapCompare a b = true -> HeapCompare b a = false.
Proof.
  unfold HeapCompare.
  destruct (HeapItem.tier a), (HeapItem.tier b); repeat case_bool_decide; cbn; try done;
    destruct (N.eqb_spec (HeapItem.fee_rate a) (HeapItem.fee_rate b)),
      (N.eqb_spec (HeapItem.fee_rate b) (HeapItem.fee_rate a)); cbn; rewrite ?N.ltb_lt, ?N.ltb_ge; lia.
Qed.

(** Best first. *)
Definition heapSorted : MaxHeap -> Prop := StronglySorted (fun a b => HeapCompare a b = false).

Lemma push_perm item h : push item h ≡ₚ item :: h.
Proof.
  induction h as [|x h IH]; [done|]. cbn. destruct (HeapCompare x item); [done|].
  rewrite IH. constructor.
Qed.

Lemma elem_of_push x item h : x ∈ push item h <-> x = item \/ x ∈ h.
Proof. by rewrite (push_perm item h), elem_of_cons. Qed.

Lemma push_sorted item h : heapSorted h -> heapSorted (push item h).
Proof.
  induction 1 as [|x h Hs IH Hx]; cbn; [repeat constructor|].
  destruct (HeapCompare x item) eqn:E.
  - constructor; [by constructor|]. constructor; [by apply HeapCompare_asym|].
    eapply Forall_impl; [exact Hx|]. cbn. intros y Hy. eapply HeapCompare_trans; [|exact Hy].
    by apply HeapCompare_asym.
  - constructor; [done|]. apply Forall_forall. intros y [->|Hy]%elem_of_push; [done|].
    by eapply Forall_forall in Hx.
Qed.

Lemma pushAll_perm l : forall h, foldl (fun h item => push item h) h l ≡ₚ l ++ h.
Proof.
  induction l as [|x l IH]; intros h; cbn; [done|]. rewrite IH, (push_perm x h).
  by rewrite Permutation_middle.
Qed.

(** ** Sizes and rates *)

Lemma serializedSize_bound tx : Transaction.isWellFormed tx = true ->
  179 <= serializedSize tx <= 65715.
Proof.
  intros Hw%isWellFormed_payload. unfold serializedSize, TX_MAX_PAYLOAD_SIZE in *. lia.
Qed.

Lemma u32_size tx : Transaction.isWellFormed tx = true -> u32 (serializedSize tx) = serializedSize tx.
Proof. intros Hw%serializedSize_bound. unfold u32. apply N.mod_small. lia. Qed.

Lemma serialize_length tx : length (Transaction.signature tx) = 64%nat ->
  N.of_nat (length (TransactionCodec.serialize tx)) = serializedSize tx.
Proof.
  intros Hs. unfold TransactionCodec.serialize, TransactionCodec.serializeForSigning, serializedSize.
  autorewrite with wire. lia.
Qed.

(** ** Reading a row *)

Lemma slice_at (a b c : bytes) off n : length a = off -> length b = n -> slice (a ++ b ++ c) off n = b.
Proof. intros <- <-. unfold slice. by rewrite drop_app_length, take_app_length. Qed.

Lemma readU32At_at a v c off : length a = off -> v < w32 -> readU32At (a ++ putU32 v ++ c) off = v.
Proof.
  intros Ha Hv. unfold readU32At. rewrite slice_at by (try done; apply length_putU32). unfold putU32.
  rewrite le_combine_split. unfold u32. change (w8 ^ N.of_nat 4) with w32. by rewrite !(N.mod_small v).
Qed.

Lemma readU64At_at a v c off : length a = off -> v < w64 -> readU64At (a ++ putU64 v ++ c) off = v.
Proof.
  intros Ha Hv. unfold readU64At. rewrite slice_at by (try done; apply length_putU64). unfold putU64.
  rewrite le_combine_split. unfold u64. change (w8 ^ N.of_nat 8) with w64. by rewrite !(N.mod_small v).
Qed.

Lemma byteAt_at a v c off : length a = off -> v < w8 -> byteAt (a ++ putU8 v ++ c) off = v.
Proof.
  intros <- Hv. unfold byteAt, putU8, u8. rewrite app_nth2, Nat.sub_diag by lia. cbn. by rewrite !(N.mod_small v).
Qed.

Lemma tier_byte t : FeeTier.to_byte t <= 1 /\ FeeTier.of_byte (FeeTier.to_byte t) = t.
Proof. by destruct t. Qed.

(** A row of TBL_MEMPOOL decodes to the entry it was made of. *)
Lemma serializeEntry_roundtrip e :
  TransactionCodec.wf (Entry.tx e) -> Transaction.isWellFormed (Entry.tx e) = true ->
  Entry.fee_rate e < w64 -> Entry.sequence e < w64 -> Entry.added_at_ms e < w64 -> Entry.tx_size e < w32 ->
  deserializeEntry (serializeEntry e) = Some e.
Proof.
  intros Hw Hwell Hr Hs Ha Hz. destruct e as [tx tier rate seq added sz]. cbn in *.
  pose proof (serializedSize_bound tx Hwell) as Hb. destruct (tier_byte tier) as [Ht1 Ht2].
  pose proof (Transaction_roundtrip tx Hw Hwell) as Hrt.
  pose proof (serialize_length tx (TransactionCodec.wf_signature tx Hw)) as Hl.
  unfold serializeEntry. cbn [Entry.tx Entry.tier Entry.fee_rate Entry.sequence Entry.added_at_ms Entry.tx_size].
  set (b := TransactionCodec.serialize tx) in *. set (t := FeeTier.to_byte tier) in *.
  set (tl := putU8 t ++ _). set (data := putU32 _ ++ _).
  assert (Hlen : length data = (4 + length b + 29)%nat). { unfold data, tl. autorewrite with wire. lia. }
  assert (E0 : readU32At data 0 = N.of_nat (length b)) by (apply (readU32At_at [] _ (b ++ tl)); [done|lia]).
  assert (E1 : slice data 4 (length b) = b) by (by apply slice_at).
  assert (Epre : length (putU32 (N.of_nat (length b)) ++ b) = (4 + length b)%nat) by (by autorewrite with wire).
  unfold deserializeEntry. rewrite E0, Nat2N.id, Hlen, E1, Hrt.
  destruct (Nat.ltb_spec (4 + length b + 29) 4); [lia|]. destruct (Nat.eqb_spec (length b) 0); [lia|].
  destruct (Nat.ltb_spec (4 + length b + 29) (4 + length b + 1 + 8 + 8 + 8 + 4)); [lia|]. cbn [orb].
  unfold data, tl. rewrite app_assoc, byteAt_at by (try done; lia).
  destruct (N.ltb_spec 1 t); [lia|]. rewrite Ht2.
  rewrite app_assoc, (readU64At_at _ rate) by (try done; autorewrite with wire; lia).
  rewrite app_assoc, (readU64At_at _ seq) by (try done; autorewrite with wire; lia).
  rewrite app_assoc, (readU64At_at _ added) by (try done; autorewrite with wire; lia).
  rewrite app_assoc. rewrite <-(app_nil_r (putU32 sz)), readU32At_at by (try done; autorewrite with wire; lia).
  done.
Qed.

Section pool.
Context {Cr : Crypto}.

(** What an admitted transaction passed. *)
Lemma validate_inv tx view tier rate size : validate tx view tier = inr (rate, size) ->
  Transaction.isWellFormed tx = true /\ Transaction.chain_id tx = StateView.chainId view /\
  verifySignature tx = true /\
  (Transaction.valid_until_height tx = 0 \/ StateView.currentHeight view <= Transaction.valid_until_height tx) /\
  rate = computeFeeRate tx tier /\ size = serializedSize tx /\ MIN_FEE_PER_BYTE <= rate <= MAX_FEE_RATE /\
  validateOrderPayload tx = Accepted /\ checkState tx view = None.
Proof.
  unfold validate. destruct (Transaction.isWellFormed tx) eqn:Hw; [|done]. cbn [negb].
  destruct (N.eqb_spec (Transaction.chain_id tx) (StateView.chainId view)); [|done]. cbn [negb].
  destruct (MAX_TX_SIZE <? _); [done|]. destruct (ed25519_verify _ _ _) eqn:Hs; [|done]. cbn [negb].
  destruct (negb _ && _) eqn:He; [done|].
  destruct (N.ltb_spec (computeFeeRate tx tier) MIN_FEE_PER_BYTE); [done|].
  destruct (N.ltb_spec MAX_FEE_RATE (computeFeeRate tx tier)); [done|].
  case_bool_decide as Hp; cbn [negb]; [|done]. destruct (checkState tx view); [done|]. intros [= <- <-].
  split_and!; try done.
  - apply andb_false_iff in He as [He%negb_false_iff%N.eqb_eq|He%N.ltb_ge]; [by left|by right].
  - by apply u32_size.
  - unfold validateOrderPayload in *. by destruct (Transaction.tx_type tx).
Qed.

Lemma checkState_refuses tx view : checkState tx view <> Some Accepted.
Proof.
  unfold checkState, checkFunds, checkPoolFunds, checkToken. intros E. repeat (case_match; simplify_eq).
Qed.

Lemma validate_refuses tx view tier r : validate tx view tier = inl r -> r <> Accepted.
Proof.
  unfold validate. intros E ->. repeat (case_match; try done).
  all: match goal with H : checkState _ _ = Some _ |- _ => injection E as ->; by apply checkState_refuses in H | _ => idtac end.
  all: injection E as E; match goal with H : negb (bool_decide _) = true |- _ =>
    apply negb_true_iff in H; by apply (bool_decide_eq_false_1 _ H) end.
Qed.

(** ** The invariant *)

Definition signingInput (tx : Transaction.t) : bytes :=
  ascii_bytes TransactionCodec.TX_DOMAIN ++ TransactionCodec.serializeForSigning tx.

Section offered.
(** The transactions offered to the pool; no two of them collide. *)
Context (T : list Transaction.t).

(** An entry as admission builds it. *)
Record EntryOk (id : Hash) (e : Entry.t) : Prop := {
  eo_offered : Entry.tx e ∈ T;
  eo_wf : TransactionCodec.wf (Entry.tx e);
  eo_well : Transaction.isWellFormed (Entry.tx e) = true;
  eo_id : id = txidOf (Entry.tx e);
  eo_size : Entry.tx_size e = serializedSize (Entry.tx e);
  eo_rate : Entry.fee_rate e = computeFeeRate (Entry.tx e) (Entry.tier e);
  eo_fee : MIN_FEE_PER_BYTE <= Entry.fee_rate e <= MAX_FEE_RATE;
  eo_sequence : Entry.sequence e < w64;
  eo_added : Entry.added_at_ms e < w64;
}.

Definition itemOf (id : Hash) (e : Entry.t) : HeapItem.t :=
  HeapItem.mk (Entry.tier e) (Entry.fee_rate e) (Entry.sequence e) id.

(** Index and heap follow the entries, the byte count is their sum, the limits
    hold, every entry has its row and every row was admitted. *)
Record PoolOk (p : Mempool) : Prop := {
  po_entry id e : entries_ p !! id = Some e -> EntryOk id e;
  po_indexed id e : entries_ p !! id = Some e -> nonce_index_ p !! nonceKeyOf (Entry.tx e) = Some id;
  po_index k id : nonce_index_ p !! k = Some id ->
    exists e, entries_ p !! id = Some e /\ nonceKeyOf (Entry.tx e) = k;
  po_bytes : total_bytes_ p = msum (fun _ e => Entry.tx_size e) (entries_ p);
  po_count : poolSize p <= MAX_MEMPOOL_TXS;
  po_max : total_bytes_ p <= MAX_MEMPOOL_BYTES * 2;
  po_heap id e : entries_ p !! id = Some e -> itemOf id e ∈ heap_ p;
  po_sorted : heapSorted (heap_ p);
  po_next : next_sequence_ p < w64;
  po_rows table id b : db_ p = Some table -> table !! id = Some b ->
    exists e, b = serializeEntry e /\ EntryOk id e;
  po_persisted table id e : db_ p = Some table -> entries_ p !! id = Some e ->
    exists e0, table !! id = Some (serializeEntry e0) /\ EntryOk id e0 /\
      Entry.tx e0 = Entry.tx e /\ Entry.tier e0 = Entry.tier e;
}.

Lemma PoolOk_empty table : (forall id b, table !! id = Some b -> exists e, b = serializeEntry e /\ EntryOk id e) ->
  PoolOk (attach table emptyPool).
Proof.
  intros Ht. split; cbn; try done.
  - constructor.
  - intros ? ? ? [= <-]. apply Ht.
Qed.

(** ** Removal *)

Lemma nonceKey_unique p id id' e e' : PoolOk p -> entries_ p !! id = Some e -> entries_ p !! id' = Some e' ->
  nonceKeyOf (Entry.tx e) = nonceKeyOf (Entry.tx e') -> id = id'.
Proof.
  intros Hp H1%(po_indexed p Hp) H2%(po_indexed p Hp) E. rewrite E in H1. congruence.
Qed.

Lemma total_lt p : PoolOk p -> total_bytes_ p < w64.
Proof. intros Hp%po_max. unfold MAX_MEMPOOL_BYTES in *. lia. Qed.

Lemma dropEntry_ok p id e : PoolOk p -> entries_ p !! id = Some e -> PoolOk (dropEntry id e p).
Proof.
  intros Hp He.
  pose proof (msum_delete_Some (fun _ e => Entry.tx_size e) _ _ _ He) as Hs.
  pose proof (po_bytes p Hp) as Hb. cbn beta in Hs.
  assert (Htot : total_bytes_ p -64 Entry.tx_size e = total_bytes_ p - Entry.tx_size e)
    by (apply sub64_id; [lia|by apply total_lt]).
  assert (Hkeep : forall id' e', delete id (entries_ p) !! id' = Some e' ->
    id' <> id /\ entries_ p !! id' = Some e').
  { by intros id' e' [? ?]%lookup_delete_Some. }
  split; cbn; try apply Hp.
  - intros id' e' [_ H']%Hkeep. by apply Hp.
  - intros id' e' [Hne H']%Hkeep. rewrite lookup_delete_ne; [by apply Hp|].
    intros E. apply Hne. by eapply nonceKey_unique.
  - intros k id' [Hk H']%lookup_delete_Some. apply Hp in H' as (e' & H' & <-). exists e'.
    rewrite lookup_delete_ne; [done|]. intros <-. congruence.
  - rewrite Htot. lia.
  - unfold poolSize. cbn. rewrite map_size_delete_Some by eauto. pose proof (po_count p Hp).
    unfold poolSize in *. lia.
  - rewrite Htot. pose proof (po_max p Hp). lia.
  - intros id' e' [_ H']%Hkeep. by apply Hp.
  - intros table id' e' Hdb [_ H']%Hkeep. by eapply po_persisted.
Qed.

Lemma unpersistEntry_ok p id : PoolOk p -> entries_ p !! id = None -> PoolOk (unpersistEntry id p).
Proof.
  intros Hp Hn. split; cbn; try apply Hp.
  - intros table id' b. destruct (db_ p) as [t|] eqn:E; [|done]. cbn. intros [= <-] [_ H']%lookup_delete_Some.
    by eapply po_rows.
  - intros table id' e'. destruct (db_ p) as [t|] eqn:E; [|done]. cbn. intros [= <-] He'.
    destruct (po_persisted p Hp _ _ _ E He') as (e0 & H0 & ?). exists e0. rewrite lookup_delete_ne; [done|congruence].
Qed.

Lemma unpersistUnlessLoading_ok p id : PoolOk p -> entries_ p !! id = None ->
  PoolOk (unpersistUnlessLoading id p).
Proof. intros. unfold unpersistUnlessLoading. destruct (loading_ p); [done|by apply unpersistEntry_ok]. Qed.

Lemma dropEntry_gone p id e : entries_ (dropEntry id e p) !! id = None.
Proof. apply lookup_delete_eq. Qed.

Lemma remove_ok p id : PoolOk p -> PoolOk (snd (remove id p)).
Proof.
  intros Hp. unfold remove. destruct (entries_ p !! id) as [e|] eqn:E; [|done].
  by apply unpersistEntry_ok; [apply dropEntry_ok|apply dropEntry_gone].
Qed.

Lemma reject_ok p id : PoolOk p -> PoolOk (snd (reject id p)).
Proof.
  intros Hp. unfold reject. destruct (entries_ p !! id) as [e|] eqn:E; [|done].
  by apply unpersistUnlessLoading_ok; [apply dropEntry_ok|apply dropEntry_gone].
Qed.

Lemma removeIncluded_ok ids : forall p, PoolOk p -> PoolOk (removeIncluded ids p).
Proof.
  unfold removeIncluded. induction ids as [|id ids IH]; intros p Hp; cbn; [done|]. by apply IH, remove_ok.
Qed.

Lemma unpersistBatch_db ids : forall p table, db_ p = Some table ->
  unpersistBatch ids p = p <| db_ := Some (foldl (fun t id => delete id t) table ids) |>.
Proof.
  unfold unpersistBatch. induction ids as [|id ids IH]; intros p table Hdb; cbn.
  { destruct p; cbn in *. by subst. }
  rewrite (IH _ (delete id table)); [done|]. cbn. by rewrite Hdb.
Qed.

Lemma foldl_delete_lookup ids : forall (t : gmap Hash bytes) id,
  foldl (fun t id => delete id t) t ids !! id = if bool_decide (id ∈ ids) then None else t !! id.
Proof.
  induction ids as [|x ids IH]; intros t id; cbn; [done|]. rewrite IH.
  destruct (decide (x = id)) as [->|Hne].
  - rewrite (bool_decide_eq_true_2 (id ∈ id :: ids)) by set_solver. rewrite lookup_delete_eq. by case_bool_decide.
  - rewrite lookup_delete_ne by done. by rewrite (bool_decide_ext (id ∈ x :: ids) (id ∈ ids)) by set_solver.
Qed.

Lemma rowsInOrder_perm table : rowsInOrder table ≡ₚ map_to_list table.
Proof. apply merge_sort_Permutation. Qed.

Lemma elem_of_rowKeys table id : id ∈ fst <$> rowsInOrder table <-> is_Some (table !! id).
Proof.
  rewrite rowsInOrder_perm. rewrite list_elem_of_fmap. split.
  - intros ([k b] & -> & H'%elem_of_map_to_list). by exists b.
  - intros [b Hb]. exists (id, b). by rewrite elem_of_map_to_list.
Qed.

(** Clearing empties the table too. *)
Lemma clear_db p table : db_ p = Some table -> db_ (clear p) = Some ∅.
Proof.
  intros Hdb. unfold clear. rewrite Hdb, (unpersistBatch_db _ _ table) by done. cbn. f_equal.
  apply map_eq. intros id. rewrite foldl_delete_lookup, lookup_empty. case_bool_decide as H; [done|].
  rewrite elem_of_rowKeys in H. by apply eq_None_not_Some.
Qed.

Lemma clear_ok p : PoolOk p -> PoolOk (clear p).
Proof.
  intros Hp. destruct (db_ p) as [table|] eqn:E.
  - pose proof (clear_db p table E) as Hdb. unfold clear in *. rewrite E in *.
    rewrite (unpersistBatch_db _ _ table) in * by done. cbn in *. split; cbn; try done; [constructor|].
    intros t id b. rewrite Hdb. by intros [= <-].
  - unfold clear. rewrite E. split; cbn; try done; [constructor|]. intros t id b. by rewrite E.
Qed.

(** ** Adding *)

Hypothesis no_collision : collisionFreeOn (signingInput <$> T).

Lemma same_txid tx tx' : tx ∈ T -> tx' ∈ T -> txidOf tx = txidOf tx' -> nonceKeyOf tx = nonceKeyOf tx'.
Proof.
  intros H1 H2 E. assert (Ei : signingInput tx = signingInput tx').
  { apply no_collision; [by apply list_elem_of_fmap_2..|exact E]. }
  unfold signingInput, TransactionCodec.serializeForSigning in Ei. apply app_inv_head in Ei.
  do 3 (apply app_inj_1 in Ei as [_ Ei]; [|by autorewrite with wire]).
  apply app_inj_1 in Ei as [En Ei]; [|by autorewrite with wire].
  apply app_inj_1 in Ei as [_ Ei]; [|by autorewrite with wire].
  apply app_inj_1 in Ei as [Ef _]; [|by autorewrite with wire].
  unfold nonceKeyOf, nonceKey. unfold putU64, putHash in En, Ef. by rewrite En, Ef.
Qed.

(** A sender and nonce the index does not have is in no entry. *)
Lemma unindexed_absent p tx : PoolOk p -> tx ∈ T -> nonce_index_ p !! nonceKeyOf tx = None ->
  entries_ p !! txidOf tx = None.
Proof.
  intros Hp HT Hn. destruct (entries_ p !! txidOf tx) as [e|] eqn:E; [|done].
  destruct (po_entry p Hp _ _ E). pose proof (po_indexed p Hp _ _ E) as Hi.
  rewrite (same_txid (Entry.tx e) tx) in Hi by done. congruence.
Qed.

(** What [resolveNonce] leaves alone. *)
Definition sameSettings (p p' : Mempool) : Prop :=
  next_sequence_ p' = next_sequence_ p /\ loading_ p' = loading_ p /\
  stale_after_load_ p' = stale_after_load_ p /\ entries_ p' ⊆ entries_ p /\
  (loading_ p = true -> db_ p' = db_ p) /\ (is_Some (db_ p') <-> is_Some (db_ p)).

Lemma sameSettings_refl p : sameSettings p p.
Proof. by split_and!. Qed.

(** An entry that goes, for a better one or for lack of room. *)
Definition dropped (id : Hash) (e : Entry.t) (p : Mempool) : Mempool :=
  unpersistUnlessLoading id (dropEntry id e p).

Lemma dropped_ok p id e : PoolOk p -> entries_ p !! id = Some e -> PoolOk (dropped id e p).
Proof. intros. apply unpersistUnlessLoading_ok; [by apply dropEntry_ok|apply dropEntry_gone]. Qed.

Lemma dropped_fields p id e :
  entries_ (dropped id e p) = delete id (entries_ p) /\
  nonce_index_ (dropped id e p) = delete (nonceKeyOf (Entry.tx e)) (nonce_index_ p) /\
  total_bytes_ (dropped id e p) = total_bytes_ p -64 Entry.tx_size e.
Proof. unfold dropped, unpersistUnlessLoading. by destruct (loading_ _). Qed.

Lemma dropped_settings p id e : sameSettings p (dropped id e p).
Proof.
  unfold sameSettings, dropped, unpersistUnlessLoading. cbn.
  destruct (loading_ p) eqn:E; cbn; split_and!; try done; try apply delete_subseteq. by rewrite fmap_is_Some.
Qed.

Lemma resolveNonce_ok p tx tier rate p' : PoolOk p -> tx ∈ T -> resolveNonce tx tier rate p = inr p' ->
  PoolOk p' /\ nonce_index_ p' !! nonceKeyOf tx = None /\ sameSettings p p'.
Proof.
  intros Hp HT. unfold resolveNonce. destruct (nonce_index_ p !! _) as [id|] eqn:Ei.
  2:{ intros [= <-]. by split_and!; [|done|apply sameSettings_refl]. }
  destruct (po_index p Hp _ _ Ei) as (e & He & Hk). rewrite He.
  destruct (id =? txidOf tx); [done|]. destruct (_ || _); [|done]. intros [= <-].
  rewrite <-Hk. change (unpersistUnlessLoading id _) with (dropped id e p).
  split_and!; [by apply dropped_ok| |apply dropped_settings].
  destruct (dropped_fields p id e) as (_ & -> & _). apply lookup_delete_eq.
Qed.

(** The pool an entry has joined, with its table still to be written. *)
Definition joined (id : Hash) (e : Entry.t) (p : Mempool) : Mempool :=
  p <| entries_ ::= insert id e |> <| nonce_index_ ::= insert (nonceKeyOf (Entry.tx e)) id |>
    <| total_bytes_ := total_bytes_ p +64 Entry.tx_size e |> <| heap_ ::= push (itemOf id e) |>.

Lemma insertEntry_joined p id e : entries_ p !! id = None -> nonce_index_ p !! nonceKeyOf (Entry.tx e) = None ->
  insertEntry id e p = if loading_ p then joined id e p else persistEntry id e (joined id e p).
Proof.
  intros Hid Hn. unfold insertEntry, joined, persistEntry. cbn. unfold emplace. rewrite Hid, Hn.
  destruct (loading_ p); [done|]. by rewrite lookup_insert_eq.
Qed.

(** Its nonce is free and the limits leave it room. *)
Lemma joined_ok p e db : let id := txidOf (Entry.tx e) in
  PoolOk p -> EntryOk id e -> nonce_index_ p !! nonceKeyOf (Entry.tx e) = None ->
  poolSize p < MAX_MEMPOOL_TXS -> total_bytes_ p + Entry.tx_size e <= MAX_MEMPOOL_BYTES * 2 ->
  (forall table id' b, db = Some table -> table !! id' = Some b -> exists e, b = serializeEntry e /\ EntryOk id' e) ->
  (forall table id' e', db = Some table -> <[id := e]> (entries_ p) !! id' = Some e' -> exists e0,
     table !! id' = Some (serializeEntry e0) /\ EntryOk id' e0 /\
     Entry.tx e0 = Entry.tx e' /\ Entry.tier e0 = Entry.tier e') ->
  PoolOk (joined id e p <| db_ := db |>).
Proof.
  intros id Hp He Hn Hc Hb Hrows Hper.
  assert (Hid : entries_ p !! id = None) by (apply unindexed_absent; [done|apply He|done]).
  assert (Htot : total_bytes_ p +64 Entry.tx_size e = total_bytes_ p + Entry.tx_size e).
  { apply add64_id. unfold MAX_MEMPOOL_BYTES in Hb. lia. }
  split; cbn; try done; try apply Hp.
  - intros id' e' [[<- <-]|[_ H']]%lookup_insert_Some; [done|by apply Hp].
  - intros id' e' [[<- <-]|[Hne H']]%lookup_insert_Some; [apply lookup_insert_eq|].
    rewrite lookup_insert_ne; [by apply Hp|]. intros E. apply (po_indexed p Hp) in H'. congruence.
  - intros k id' [[<- <-]|[Hne H']]%lookup_insert_Some; [exists e; by rewrite lookup_insert_eq|].
    apply Hp in H' as (e' & H' & Hk). exists e'. rewrite lookup_insert_ne; [done|congruence].
  - rewrite msum_insert_new, Htot, (po_bytes p Hp) by done. lia.
  - unfold poolSize in *. cbn. rewrite map_size_insert_None by done. lia.
  - by rewrite Htot.
  - intros id' e' [[<- <-]|[_ H']]%lookup_insert_Some; apply elem_of_push; [by left|right; by apply Hp].
  - by apply push_sorted, Hp.
Qed.

(** While loading, the entry's row is already there. *)
Definition hasRow (e : Entry.t) (p : Mempool) : Prop := forall table, db_ p = Some table -> exists e0,
  table !! txidOf (Entry.tx e) = Some (serializeEntry e0) /\ EntryOk (txidOf (Entry.tx e)) e0 /\
  Entry.tx e0 = Entry.tx e /\ Entry.tier e0 = Entry.tier e.

Lemma insertEntry_ok p e : PoolOk p -> EntryOk (txidOf (Entry.tx e)) e ->
  nonce_index_ p !! nonceKeyOf (Entry.tx e) = None -> poolSize p < MAX_MEMPOOL_TXS ->
  total_bytes_ p + Entry.tx_size e <= MAX_MEMPOOL_BYTES * 2 -> (loading_ p = true -> hasRow e p) ->
  PoolOk (insertEntry (txidOf (Entry.tx e)) e p).
Proof.
  intros Hp He Hn Hc Hb Hl.
  rewrite insertEntry_joined; [|apply unindexed_absent; [done|apply He|done]|done].
  destruct (loading_ p).
  - change (joined _ e p) with (joined (txidOf (Entry.tx e)) e p <| db_ := db_ p |>).
    apply joined_ok; try done; [apply (po_rows p Hp)|].
    intros table id' e' Hdb [[<- <-]|[_ H']]%lookup_insert_Some; [by apply Hl|by eapply po_persisted].
  - change (persistEntry _ e _) with
      (joined (txidOf (Entry.tx e)) e p <| db_ := insert (txidOf (Entry.tx e)) (serializeEntry e) <$> db_ p |>).
    apply joined_ok; try done; destruct (db_ p) as [t|] eqn:Edb; try done; cbn.
    + intros table id' b [= <-] [[<- <-]|[_ H']]%lookup_insert_Some; [by exists e|by eapply po_rows].
    + intros table id' e' [= <-] [[<- <-]|[Hne H']]%lookup_insert_Some.
      * exists e. by rewrite lookup_insert_eq.
      * destruct (po_persisted p Hp _ _ _ Edb H') as (e0 & H0 & ?). exists e0. by rewrite lookup_insert_ne.
Qed.

Lemma insertEntry_loading p id e : loading_ (insertEntry id e p) = loading_ p.
Proof. unfold insertEntry. cbn. by destruct (loading_ p). Qed.

(** ** Eviction *)

Context {Mo : MapOrder}.

Lemma elem_of_entries {V} (m : gmap N V) id e : (id, e) ∈ entries m <-> m !! id = Some e.
Proof. by rewrite entries_perm, elem_of_map_to_list. Qed.

Lemma lowerEntry_compare y x :
  lowerEntry (Some y) x =
  Some (if HeapCompare (itemOf (fst x) (snd x)) (itemOf (fst y) (snd y)) then x else y).
Proof.
  unfold lowerEntry, HeapCompare. cbn.
  destruct (Entry.tier (snd x)), (Entry.tier (snd y)); repeat case_bool_decide; cbn; try done;
    destruct (N.ltb_spec (Entry.fee_rate (snd x)) (Entry.fee_rate (snd y))),
      (N.eqb_spec (Entry.fee_rate (snd x)) (Entry.fee_rate (snd y))); cbn; try done; try lia;
    by destruct (_ <? _).
Qed.

(** The search ends at a member that no other has less priority than. *)
Lemma lowest_of l : forall y, exists x, foldl lowerEntry (Some y) l = Some x /\ x ∈ y :: l /\
  forall z, z ∈ y :: l -> HeapCompare (itemOf (fst z) (snd z)) (itemOf (fst x) (snd x)) = false.
Proof.
  induction l as [|a l IH]; intros y; cbn [foldl].
  { exists y. split_and!; [done|set_solver|]. intros z ->%list_elem_of_singleton.
    destruct (HeapCompare _ _) eqn:E; [|done]. by rewrite (HeapCompare_asym _ _ E) in E. }
  rewrite lowerEntry_compare. destruct (HeapCompare _ (itemOf (fst y) _)) eqn:E.
  - destruct (IH a) as (x & -> & Hx & Hmin). exists x. split_and!; [done|set_solver|].
    intros z [->|Hz]%elem_of_cons; [|by apply Hmin]. eapply HeapCompare_trans; [by apply HeapCompare_asym|].
    apply Hmin. set_solver.
  - destruct (IH y) as (x & -> & Hx & Hmin). exists x. split_and!; [done|set_solver|].
    intros z [->|[->|Hz]%elem_of_cons]%elem_of_cons; [apply Hmin; set_solver| |apply Hmin; set_solver].
    eapply HeapCompare_trans; [exact E|]. apply Hmin. set_solver.
Qed.

Lemma findLowest_spec p id e : findLowestPriorityEntry p = Some (id, e) ->
  entries_ p !! id = Some e /\
  forall id' e', entries_ p !! id' = Some e' -> HeapCompare (itemOf id' e') (itemOf id e) = false.
Proof.
  unfold findLowestPriorityEntry. destruct (entries (entries_ p)) as [|y l] eqn:El; [done|].
  assert (Hin : forall id' e', entries_ p !! id' = Some e' <-> (id', e') ∈ y :: l).
  { intros id' e'. by rewrite <-El, elem_of_entries. }
  cbn [foldl lowerEntry]. destruct (lowest_of l y) as (x & -> & Hx & Hmin). intros [= ->].
  split; [by apply Hin|]. intros id' e' He'. by apply (Hmin (id', e')), Hin.
Qed.

Lemma findLowest_None p : findLowestPriorityEntry p = None -> entries_ p = ∅.
Proof.
  unfold findLowestPriorityEntry. destruct (entries (entries_ p)) as [|y l] eqn:El.
  - intros _. apply map_eq. intros id. rewrite lookup_empty. destruct (entries_ p !! id) as [e|] eqn:E; [|done].
    apply elem_of_entries in E. rewrite El in E. by apply elem_of_nil in E.
  - cbn [foldl lowerEntry]. by destruct (lowest_of l y) as (x & -> & _).
Qed.

(** A pool that an entry has left, and that has room. *)
Lemma dropped_room p id e : PoolOk p -> entries_ p !! id = Some e ->
  total_bytes_ (dropped id e p) <= total_bytes_ p /\ poolSize (dropped id e p) < MAX_MEMPOOL_TXS.
Proof.
  intros Hp He. pose proof (dropped_ok p id e Hp He) as Hd. destruct (dropped_fields p id e) as (E & _).
  rewrite (po_bytes _ Hd), (po_bytes p Hp). unfold poolSize. rewrite E. split.
  - rewrite (msum_delete_Some _ (entries_ p) id e He). lia.
  - rewrite map_size_delete_Some by eauto. pose proof (po_count p Hp) as Hc. unfold poolSize in Hc.
    assert (size (entries_ p) <> 0)%nat; [|unfold MAX_MEMPOOL_TXS in *; lia].
    intros Hz%map_size_empty_inv. by rewrite Hz in He.
Qed.

Lemma makeRoomFor_ok p new b p' : PoolOk p -> Entry.tx_size new < w32 -> makeRoomFor new p = (b, p') ->
  PoolOk p' /\ sameSettings p p' /\ nonce_index_ p' ⊆ nonce_index_ p /\
  (b = true -> total_bytes_ p' + Entry.tx_size new <= MAX_MEMPOOL_BYTES * 2 /\ poolSize p' < MAX_MEMPOOL_TXS).
Proof.
  intros Hp Hs. pose proof (po_max p Hp) as Hmax. unfold makeRoomFor.
  rewrite add64_id by (unfold MAX_MEMPOOL_BYTES in Hmax; lia).
  destruct (N.ltb_spec (MAX_MEMPOOL_BYTES * 2) (total_bytes_ p + Entry.tx_size new)).
  { intros [= <- <-]. by split_and!; [|apply sameSettings_refl|..]. }
  destruct (findLowestPriorityEntry p) as [[id v]|] eqn:Ef.
  2:{ intros [= <- <-]. split_and!; [done|apply sameSettings_refl|done|]. intros _. split; [done|].
      unfold poolSize. by rewrite (findLowest_None p Ef), map_size_empty. }
  apply findLowest_spec in Ef as [Hv _]. destruct (beats new v); cbn [negb].
  2:{ intros [= <- <-]. by split_and!; [|apply sameSettings_refl|..]. }
  intros [= <- <-]. change (unpersistUnlessLoading id _) with (dropped id v p).
  destruct (dropped_room p id v Hp Hv). split_and!; [by apply dropped_ok|apply dropped_settings| |intros _; lia].
  destruct (dropped_fields p id v) as (_ & -> & _). apply delete_subseteq.
Qed.

Lemma roomFor_ok p e b p' : PoolOk p -> Entry.tx_size e < w32 -> roomFor e p = (b, p') ->
  PoolOk p' /\ sameSettings p p' /\ nonce_index_ p' ⊆ nonce_index_ p /\
  (b = true -> total_bytes_ p' + Entry.tx_size e <= MAX_MEMPOOL_BYTES * 2 /\ poolSize p' < MAX_MEMPOOL_TXS).
Proof.
  intros Hp Hs. unfold roomFor. destruct (_ || _) eqn:Efull; [by apply makeRoomFor_ok|]. intros [= <- <-].
  apply orb_false_iff in Efull as [Hc%N.leb_gt Hb%N.ltb_ge]. pose proof (po_max p Hp).
  rewrite add64_id in Hb by (unfold MAX_MEMPOOL_BYTES in *; lia).
  split_and!; [done|apply sameSettings_refl|done|]. intros _. split; [lia|done].
Qed.

(** ** [add] *)

Lemma nextSequence_ok p : PoolOk p -> PoolOk (p <| next_sequence_ := next_sequence_ p +64 1 |>).
Proof. intros Hp. split; cbn; try apply Hp. apply add64_lt. Qed.

Lemma counts_ok p f : PoolOk p -> PoolOk (p <| add_result_counts_ ::= f |>).
Proof. intros Hp. split; cbn; apply Hp. Qed.

Lemma sameSettings_row p p' e : sameSettings p p' -> (loading_ p = true -> hasRow e p) ->
  loading_ p' = true -> hasRow e p'.
Proof. intros (_ & El & _ & _ & Hdb & _) Hr Hl table. rewrite El in Hl. rewrite Hdb by done. by apply Hr. Qed.

(** A transaction of the offered ones, at a time the clock can show. *)
Definition rowFor (tx : Transaction.t) (tier : FeeTier.t) (p : Mempool) : Prop :=
  forall rate seq now size, hasRow (Entry.mk tx tier rate seq now size) p.

Lemma addImpl_ok p tx view tier now : PoolOk p -> tx ∈ T -> TransactionCodec.wf tx -> now < w64 ->
  (loading_ p = true -> rowFor tx tier p) -> PoolOk (snd (addImpl tx view tier now p)).
Proof.
  intros Hp HT Hw Hnow Hl. unfold addImpl. destruct (validate tx view tier) as [r|[rate sz]] eqn:Ev; [done|].
  apply validate_inv in Ev as (Hwell & _ & _ & _ & Erate & Esz & Hrate & _).
  destruct (resolveNonce tx tier rate p) as [r|p1] eqn:Er; [done|].
  destruct (resolveNonce_ok p tx tier rate p1 Hp HT Er) as (Hp1 & Hn1 & Hset1).
  set (e := Entry.mk tx tier rate (next_sequence_ p1) now sz).
  set (p2 := p1 <| next_sequence_ := next_sequence_ p1 +64 1 |>).
  pose proof (nextSequence_ok p1 Hp1) as Hp2. change (PoolOk p2) in Hp2.
  assert (He : EntryOk (txidOf tx) e). { split; cbn; try done; apply Hp1. }
  pose proof (serializedSize_bound tx Hwell) as Hsz.
  destruct (roomFor e p2) as [b p3] eqn:Em.
  destruct (roomFor_ok p2 e b p3 Hp2) as (Hp3 & Hset3 & Hsub & Hb); [cbn; lia|done|].
  destruct b; cbn [negb snd]; [|done]. destruct (Hb eq_refl).
  apply (insertEntry_ok p3 e); try done; [by eapply lookup_weaken_None|].
  apply (sameSettings_row p2 p3 e Hset3), (sameSettings_row p p1 e Hset1). intros Hlo. by apply Hl.
Qed.

Lemma add_ok p tx view tier now : PoolOk p -> tx ∈ T -> TransactionCodec.wf tx -> now < w64 ->
  (loading_ p = true -> rowFor tx tier p) -> PoolOk (snd (add tx view tier now p)).
Proof.
  intros Hp HT Hw Hnow Hl. pose proof (addImpl_ok p tx view tier now Hp HT Hw Hnow Hl) as Ha.
  unfold add. destruct (addImpl tx view tier now p) as [r p']. by apply counts_ok.
Qed.

Lemma purgeExpired_ok p h : PoolOk p -> PoolOk (purgeExpired h p).
Proof. apply removeIncluded_ok. Qed.
End offered.
End pool.
