(* ===== verification/MempoolRuns.v ===== *)
(** * Runs of the pool

    The calls a node makes on its pool as a transition system, with restarts: the
    invariant of MempoolInvariant.v holds throughout; without a restart the table
    has a row for exactly the pending transactions; a restart rebuilds from the
    table exactly those that are still valid. *)

From S2P Require Import Prelude Types StateAccess Wire Codec ExecBase ExecOrders Block Mempool.
From S2P Require Import MempoolInvariant.
Import MempoolAddResult.

Section runs.
Context {Cr : Crypto} {Mo : MapOrder} (T : list Transaction.t).
Hypothesis no_collision : collisionFreeOn (signingInput <$> T).

Abbreviation PoolOk := (PoolOk T).
Abbreviation EntryOk := (EntryOk T).

(** ** What one [add] can change *)

Lemma addImpl_effect p tx view tier now r p' : PoolOk p -> tx ∈ T -> addImpl tx view tier now p = (r, p') ->
  loading_ p' = loading_ p /\ stale_after_load_ p' = stale_after_load_ p /\
  (loading_ p = true -> db_ p' = db_ p) /\
  forall id e, entries_ p' !! id = Some e -> entries_ p !! id = Some e \/ r = Accepted /\ id = txidOf tx.
Proof.
  intros Hp HT. unfold addImpl. destruct (validate tx view tier) as [r0|[rate sz]] eqn:Ev.
  { intros [= <- <-]. split_and!; try done. by left. }
  apply validate_inv in Ev as (Hwell & _ & _ & _ & _ & Esz & _).
  destruct (resolveNonce tx tier rate p) as [r0|p1] eqn:Er.
  { intros [= <- <-]. split_and!; try done. by left. }
  destruct (resolveNonce_ok T p tx tier rate p1 Hp HT Er) as (Hp1 & Hn1 & (_ & El1 & Es1 & Hsub1 & Hdb1 & _)).
  set (e := Entry.mk _ _ _ _ _ _). set (p2 := p1 <| next_sequence_ := _ |>).
  destruct (roomFor e p2) as [b p3] eqn:Em. pose proof (serializedSize_bound tx Hwell).
  destruct (roomFor_ok T no_collision p2 e b p3) as (_ & (_ & El3 & Es3 & Hsub3 & Hdb3 & _) & _);
    [by apply nextSequence_ok|cbn; lia|done|].
  assert (Hold : forall id e', entries_ p3 !! id = Some e' -> entries_ p !! id = Some e').
  { intros id e' He'. eapply lookup_weaken; [|exact Hsub1]. by eapply lookup_weaken; [|exact Hsub3]. }
  cbn in El3, Es3, Hdb3. destruct b; cbn [negb].
  - intros [= <- <-]. rewrite insertEntry_loading. unfold insertEntry. cbn. split_and!.
    + congruence.
    + destruct (loading_ p3); cbn; congruence.
    + intros Hl. assert (El : loading_ p3 = true) by congruence. rewrite El. cbn. rewrite Hdb3, Hdb1 by congruence. done.
    + intros id e'. destruct (loading_ p3); cbn; unfold emplace; destruct (entries_ p3 !! txidOf tx); eauto;
        intros [[<- <-]|[_ H']]%lookup_insert_Some; eauto.
  - intros [= <- <-]. split_and!; [congruence|congruence|intros Hl; rewrite Hdb3, Hdb1 by congruence; done|]. by left; eauto.
Qed.

Lemma add_effect p tx view tier now r p' : PoolOk p -> tx ∈ T -> add tx view tier now p = (r, p') ->
  loading_ p' = loading_ p /\ stale_after_load_ p' = stale_after_load_ p /\
  (loading_ p = true -> db_ p' = db_ p) /\
  forall id e, entries_ p' !! id = Some e -> entries_ p !! id = Some e \/ r = Accepted /\ id = txidOf tx.
Proof.
  intros Hp HT. unfold add. destruct (addImpl tx view tier now p) as [r1 p1] eqn:E. intros [= <- <-].
  by apply addImpl_effect in E.
Qed.

(** ** Loading keeps the invariant *)

Lemma row_roundtrip id e : EntryOk id e -> deserializeEntry (serializeEntry e) = Some e.
Proof.
  intros He. pose proof (eo_fee _ _ _ He) as Hf. pose proof (serializedSize_bound _ (eo_well _ _ _ He)) as Hs.
  rewrite <-(eo_size _ _ _ He) in Hs. unfold MAX_FEE_RATE in Hf. destruct He. apply serializeEntry_roundtrip; try done; lia.
Qed.

(** The table's rows as the entries they encode. *)
Definition rowsAre (table : gmap Hash bytes) (l : list Entry.t) : Prop :=
  Forall (fun e => table !! txidOf (Entry.tx e) = Some (serializeEntry e) /\ EntryOk (txidOf (Entry.tx e)) e) l /\
  NoDup (txidOf ∘ Entry.tx <$> l) /\
  (forall id, is_Some (table !! id) -> id ∈ txidOf ∘ Entry.tx <$> l).

Definition persistedOf (table : gmap Hash bytes) : list Entry.t :=
  omap (fun kv => deserializeEntry (snd kv)) (rowsInOrder table).

Lemma persisted_rows table :
  (forall id b, table !! id = Some b -> exists e, b = serializeEntry e /\ EntryOk id e) ->
  rowsAre table (persistedOf table).
Proof.
  intros Ht. unfold persistedOf. pose proof (rowsInOrder_perm table) as Hperm.
  set (rows := rowsInOrder table) in *.
  assert (Hrows : Forall (fun kv => table !! fst kv = Some (snd kv) /\
      exists e, snd kv = serializeEntry e /\ EntryOk (fst kv) e) rows).
  { apply Forall_forall. intros [k b]. rewrite Hperm, elem_of_map_to_list. intros Hkb. split; [done|]. by apply Ht. }
  assert (Hids : txidOf ∘ Entry.tx <$> omap (fun kv => deserializeEntry (snd kv)) rows = fst <$> rows).
  { clear -Hrows. induction Hrows as [|[k b] rows (_ & e & Eb & He) _ IH]; [done|]. cbn in Eb |- *.
    rewrite Eb, (row_roundtrip k e He). cbn. by rewrite IH, <-(eo_id _ _ _ He). }
  unfold rowsAre. rewrite Hids. split_and!.
  - apply Forall_forall. intros e ([k b] & Hin & Hd)%list_elem_of_omap. cbn in Hd.
    rewrite Forall_forall in Hrows. destruct (Hrows _ Hin) as (Hk & e0 & Eb & He0). cbn in *. subst b.
    rewrite (row_roundtrip k e0 He0) in Hd. injection Hd as <-. by rewrite <-(eo_id _ _ _ He0).
  - rewrite Hperm. apply NoDup_fst_map_to_list.
  - intros id Hid. by apply elem_of_rowKeys.
Qed.

Lemma PoolOk_stale p l : PoolOk p -> PoolOk (p <| stale_after_load_ := l |>).
Proof. intros Hp. split; cbn; apply Hp. Qed.

Lemma PoolOk_loading p b : PoolOk p -> PoolOk (p <| loading_ := b |>).
Proof. intros Hp. split; cbn; apply Hp. Qed.

(** While loading: every entry comes from a row already read, and no rejected row
    is in the pool. *)
Record Loading (table : gmap Hash bytes) (l : list Entry.t) (p : Mempool) : Prop := {
  lo_ok : PoolOk p;
  lo_loading : loading_ p = true;
  lo_db : db_ p = Some table;
  lo_read id e : entries_ p !! id = Some e -> id ∈ txidOf ∘ Entry.tx <$> l;
  lo_stale id : id ∈ stale_after_load_ p -> entries_ p !! id = None /\ id ∈ txidOf ∘ Entry.tx <$> l;
}.

Lemma reload_Loading table l p e view nowMs : (forall n, nowMs n < w64) ->
  Loading table l p -> table !! txidOf (Entry.tx e) = Some (serializeEntry e) ->
  EntryOk (txidOf (Entry.tx e)) e -> txidOf (Entry.tx e) ∉ (txidOf ∘ Entry.tx <$> l) ->
  Loading table (l ++ [e]) (reload view nowMs p e).
Proof.
  intros Hnow [Hp Hlo Hdb Hread Hstale] Hrow He Hnew. unfold reload.
  assert (Hok : PoolOk (snd (add (Entry.tx e) view (Entry.tier e) (nowMs (next_sequence_ p)) p))).
  { apply (add_ok T no_collision); try done; [apply He|apply He|]. intros _ rate seq now size t Ht. exists e. cbn.
    rewrite Hdb in Ht. by injection Ht as <-. }
  destruct (add _ _ _ _ p) as [r p'] eqn:E. cbn in Hok.
  apply add_effect in E as (El & Es & Ed & Hent); [|done|apply He].
  assert (Hread' : forall id e', entries_ p' !! id = Some e' -> id ∈ txidOf ∘ Entry.tx <$> l ++ [e]).
  { intros id e' [H'|[_ ->]]%Hent; rewrite fmap_app, elem_of_app; [left; by eapply Hread|right; cbn; set_solver]. }
  assert (Hold : forall id, id ∈ stale_after_load_ p -> entries_ p' !! id = None /\ id ∈ txidOf ∘ Entry.tx <$> l ++ [e]).
  { intros id Hid. destruct (Hstale id Hid) as [Hn Hin]. rewrite fmap_app, elem_of_app. split; [|by left].
    destruct (entries_ p' !! id) as [e'|] eqn:E'; [|done]. apply Hent in E' as [?|[_ ->]]; [congruence|done]. }
  assert (Hdb' : db_ p' = Some table) by (by rewrite Ed).
  case_bool_decide as Hr; split; cbn; try done; try congruence; [by rewrite Es|by apply PoolOk_stale|].
  intros id. rewrite Es, elem_of_app. intros [Hid| ->%list_elem_of_singleton]; [by apply Hold|].
  rewrite fmap_app, elem_of_app. split; [|right; cbn; set_solver].
  destruct (entries_ p' !! _) as [e'|] eqn:E'; [|done]. apply Hent in E' as [E'|[? _]]; [|done].
  by apply Hread in E'.
Qed.

Lemma reloads_Loading table view nowMs : (forall n, nowMs n < w64) -> forall l2 l1 p,
  rowsAre table (l1 ++ l2) -> Loading table l1 p -> Loading table (l1 ++ l2) (foldl (reload view nowMs) p l2).
Proof.
  intros Hnow. induction l2 as [|e l2 IH]; intros l1 p Hr Hl; cbn; [by rewrite app_nil_r|].
  rewrite (cons_middle e l1 l2), (app_assoc l1 [e] l2). apply IH; [by rewrite <-(app_assoc l1 [e] l2)|].
  destruct Hr as (Hall & Hnd & _). apply Forall_app in Hall as [_ [[? ?] _]%Forall_cons].
  apply reload_Loading; try done. rewrite fmap_app in Hnd. apply NoDup_app in Hnd as (_ & Hd & _).
  intros Hin. apply (Hd _ Hin). cbn. set_solver.
Qed.

Lemma load_Loading table view nowMs : (forall n, nowMs n < w64) ->
  (forall id b, table !! id = Some b -> exists e, b = serializeEntry e /\ EntryOk id e) ->
  exists p, load view nowMs (attach table emptyPool) = p <| loading_ := false |> /\ Loading table (persistedOf table) p.
Proof.
  intros Hnow Ht. eexists. split; [reflexivity|]. apply (reloads_Loading table view nowMs Hnow _ []).
  - by apply persisted_rows.
  - split; try done. by apply PoolOk_stale, PoolOk_loading, PoolOk_empty.
Qed.

Lemma unpersistBatch_ok ids p : PoolOk p -> (forall id, id ∈ ids -> entries_ p !! id = None) -> PoolOk (unpersistBatch ids p).
Proof.
  unfold unpersistBatch. revert p. induction ids as [|id ids IH]; intros p Hp Hn; cbn; [done|].
  apply IH; [apply unpersistEntry_ok; [done|apply Hn; set_solver]|]. intros id' Hid'. cbn. apply Hn. set_solver.
Qed.

(** ** Runs *)

(** A call on a running pool. *)
Inductive act : Mempool -> Mempool -> Prop :=
| act_add p tx view tier now : tx ∈ T -> TransactionCodec.wf tx -> now < w64 -> act p (snd (add tx view tier now p))
| act_reject p id : act p (snd (reject id p))
| act_remove p id : act p (snd (remove id p))
| act_committed p txs h : act p (blockCommitted txs h p)
| act_clear p : act p (clear p).

(** A call, or a restart of the node on the table the pool has left. *)
Inductive step : Mempool -> Mempool -> Prop :=
| step_act p p' : act p p' -> step p p'
| step_restart p table view nowMs : db_ p = Some table -> (forall n, nowMs n < w64) ->
    step p (initMempool view nowMs (attach table emptyPool)).

Lemma act_ok p p' : act p p' -> PoolOk p /\ loading_ p = false -> PoolOk p' /\ loading_ p' = false.
Proof.
  intros Ha [Hp Hl]. destruct Ha.
  - pose proof (add_ok T no_collision p tx view tier now Hp) as Hok.
    destruct (add tx view tier now p) as [r p'] eqn:E. apply add_effect in E as (El & _); [|done..]. cbn in *.
    split; [apply Hok; [done..|]|]; congruence.
  - split; [by apply reject_ok|]. unfold reject. destruct (_ !! _); [|done]. cbn. unfold unpersistUnlessLoading. cbn.
    by rewrite Hl.
  - split; [by apply remove_ok|]. unfold remove. by destruct (_ !! _).
  - unfold blockCommitted, purgeExpired. split; [by apply removeIncluded_ok, removeIncluded_ok|].
    assert (Hr : forall ids q, loading_ (removeIncluded ids q) = loading_ q).
    { unfold removeIncluded. induction ids as [|id ids IH]; intros q; cbn; [done|]. rewrite IH. unfold remove.
      by destruct (_ !! _). }
    by rewrite !Hr.
  - split; [by apply clear_ok|]. unfold clear. destruct (db_ p) as [t|] eqn:E; [|done].
    by rewrite (unpersistBatch_db _ _ t).
Qed.

Lemma restart_ok p table view nowMs : PoolOk p -> db_ p = Some table -> (forall n, nowMs n < w64) ->
  PoolOk (initMempool view nowMs (attach table emptyPool)) /\
  loading_ (initMempool view nowMs (attach table emptyPool)) = false.
Proof.
  intros Hp Hdb Hnow. destruct (load_Loading table view nowMs Hnow) as (q & E & Hq).
  { intros id b. by apply (po_rows T p Hp). }
  unfold initMempool, takeStaleAfterLoad. rewrite E. cbn. destruct Hq as [Hok _ Hdb' _ Hst].
  rewrite (unpersistBatch_db _ _ table) by done. split; [|done].
  rewrite <-(unpersistBatch_db _ _ table) by done.
  apply unpersistBatch_ok; [exact (PoolOk_stale _ [] (PoolOk_loading q false Hok))|].
  intros id Hid. by apply Hst.
Qed.

(** C15: the pool stays consistent.  Whatever transactions are offered, rejected,
    removed, committed or cleared, in whatever order, and however often the node
    restarts on the pool's table: the nonce index and the heap follow the entries,
    the byte count is the sum of their sizes, at most 50,000 transactions and twice
    the byte limit are held, every entry has its row and every row was admitted. *)
Theorem pool_consistent p : rtc step (attach ∅ emptyPool) p -> PoolOk p /\ loading_ p = false.
Proof.
  intros Hr. cut (PoolOk (attach ∅ emptyPool) /\ loading_ (attach ∅ emptyPool) = false).
  - induction Hr as [p|p q p' Hs _ IH]; [done|]. intros Hp. apply IH. destruct Hs as [p q Ha|p table view nowMs Hdb Hnow].
    + by eapply act_ok.
    + eapply restart_ok; [apply Hp|done|done].
  - split; [|done]. apply PoolOk_empty. intros id b. by rewrite lookup_empty.
Qed.

(** ** The table without restarts *)

(** A row for every entry, and no other. *)
Definition Mirrored (p : Mempool) : Prop :=
  forall table, db_ p = Some table -> forall id, is_Some (table !! id) <-> is_Some (entries_ p !! id).

Lemma Mirrored_unpersist p id e : Mirrored p -> Mirrored (unpersistEntry id (dropEntry id e p)).
Proof.
  intros Hm table. cbn. destruct (db_ p) as [t|] eqn:E; [|done]. intros [= <-] id'.
  destruct (decide (id' = id)) as [->|Hne].
  - rewrite !lookup_delete_eq. by split; intros [? ?].
  - rewrite !lookup_delete_ne by done. by apply Hm.
Qed.

Lemma Mirrored_dropped p id e : Mirrored p -> loading_ p = false -> Mirrored (dropped id e p).
Proof.
  intros Hm Hl. unfold dropped, unpersistUnlessLoading. cbn [dropEntry]. cbn. rewrite Hl. by apply Mirrored_unpersist.
Qed.

Lemma Mirrored_insert p id e : Mirrored p -> loading_ p = false -> Mirrored (insertEntry id e p).
Proof.
  intros Hm Hl table. unfold insertEntry. cbn. rewrite Hl. cbn. destruct (db_ p) as [t|] eqn:E; [|done].
  intros [= <-] id'. specialize (Hm t E). unfold emplace.
  destruct (entries_ p !! id) as [e'|] eqn:Ee; (destruct (decide (id' = id)) as [->|Hne];
    [rewrite ?lookup_insert_eq; by rewrite ?Ee|rewrite ?lookup_insert_ne by done; apply Hm]).
Qed.

Lemma Mirrored_remove p id : Mirrored p -> Mirrored (snd (remove id p)).
Proof. intros Hm. unfold remove. destruct (_ !! _); [by apply Mirrored_unpersist|done]. Qed.

Lemma Mirrored_removeIncluded ids : forall p, Mirrored p -> Mirrored (removeIncluded ids p).
Proof.
  unfold removeIncluded. induction ids as [|id ids IH]; intros p Hp; cbn; [done|]. by apply IH, Mirrored_remove.
Qed.

Lemma Mirrored_add p tx view tier now : PoolOk p -> tx ∈ T -> Mirrored p -> loading_ p = false ->
  Mirrored (snd (add tx view tier now p)).
Proof.
  intros Hp HT Hm Hl.
  enough (Mirrored (snd (addImpl tx view tier now p))) by (unfold add; by destruct (addImpl _ _ _ _ _)).
  unfold addImpl. destruct (validate tx view tier) as [r|[rate sz]]; [done|].
  destruct (resolveNonce tx tier rate p) as [r|p1] eqn:Er; [done|].
  assert (H1 : Mirrored p1 /\ loading_ p1 = false).
  { split; [|by destruct (resolveNonce_ok T p tx tier rate p1 Hp HT Er) as (_ & _ & (_ & -> & _))].
    unfold resolveNonce in Er. destruct (nonce_index_ p !! _) as [id|] eqn:Ei; [|by injection Er as <-].
    destruct (po_index T p Hp _ _ Ei) as (e & He & Hk). rewrite He in Er. rewrite <-Hk in Er.
    destruct (_ =? _); [done|]. destruct (_ || _); [|done]. injection Er as <-. by apply (Mirrored_dropped p id e). }
  destruct H1 as [Hm1 Hl1]. set (e := Entry.mk _ _ _ _ _ _). set (p2 := p1 <| next_sequence_ := _ |>).
  assert (Hm2 : Mirrored p2) by exact Hm1.
  destruct (roomFor e p2) as [b p3] eqn:Em.
  assert (H3 : Mirrored p3 /\ loading_ p3 = false).
  { revert Em. unfold roomFor, makeRoomFor. destruct (_ || _); [|by intros [= _ <-]].
    destruct (_ <? _); [by intros [= _ <-]|]. destruct (findLowestPriorityEntry p2) as [[id v]|]; [|by intros [= _ <-]].
    destruct (negb _); [by intros [= _ <-]|]. intros [= _ <-]. split; [by apply (Mirrored_dropped p2 id v)|].
    unfold unpersistUnlessLoading. cbn. by rewrite Hl1. }
  destruct H3. destruct b; [by apply Mirrored_insert|done].
Qed.

Lemma act_Mirrored p p' : act p p' -> PoolOk p /\ loading_ p = false -> Mirrored p -> Mirrored p'.
Proof.
  intros Ha [Hp Hl] Hm. destruct Ha.
  - by apply Mirrored_add.
  - unfold reject. destruct (_ !! _) as [e|] eqn:E; [|done]. by apply (Mirrored_dropped p id e).
  - by apply Mirrored_remove.
  - by apply Mirrored_removeIncluded, Mirrored_removeIncluded.
  - intros table. destruct (db_ p) as [t|] eqn:E.
    + rewrite (clear_db p t E). intros [= <-] id. change (entries_ (clear p)) with (∅ : gmap Hash Entry.t).
      rewrite !lookup_empty. by split; intros [? ?].
    + unfold clear. rewrite E. cbn. by rewrite E.
Qed.

(** ** What a restart keeps *)

Definition pending (p : Mempool) : gmap Hash (Transaction.t * FeeTier.t) :=
  (fun e => (Entry.tx e, Entry.tier e)) <$> entries_ p.

Definition admissible (view : StateView.t) (x : Transaction.t * FeeTier.t) : bool :=
  match validate (fst x) view (snd x) with inr _ => true | inl _ => false end.

Lemma msum_mono {A} (f : A -> N) (m1 : gmap Hash A) : forall m2 : gmap Hash A,
  (forall k x, m1 !! k = Some x -> exists y, m2 !! k = Some y /\ f x <= f y) ->
  msum (fun _ x => f x) m1 <= msum (fun _ x => f x) m2.
Proof.
  induction m1 as [|k x m1 Hk IH] using map_ind; intros m2 Hf; [rewrite msum_empty; lia|].
  destruct (Hf k x) as (y & Hy & Hxy); [by rewrite lookup_insert_eq|].
  rewrite msum_insert_new, (msum_delete_Some _ m2 k y) by done.
  enough (msum (fun _ x => f x) m1 <= msum (fun _ x => f x) (delete k m2)) by lia.
  apply IH. intros k' x' H'. assert (k <> k') by congruence.
  destruct (Hf k' x') as (y' & ? & ?); [by rewrite lookup_insert_ne|]. exists y'. by rewrite lookup_delete_ne.
Qed.

(** A pool of transactions of another pool has room for one more of it. *)
Lemma room_left p q id e : PoolOk p -> PoolOk q -> pending q ⊆ pending p -> entries_ q !! id = None ->
  EntryOk id e -> pending p !! id = Some (Entry.tx e, Entry.tier e) ->
  total_bytes_ q + Entry.tx_size e <= total_bytes_ p /\ poolSize q < poolSize p.
Proof.
  intros Hp Hq Hsub Hid He Hpe.
  assert (Hin : forall k x, <[id := e]> (entries_ q) !! k = Some x ->
    exists y, entries_ p !! k = Some y /\ Entry.tx_size x <= Entry.tx_size y).
  { intros k x Hk.
    assert (Hx : EntryOk k x /\ pending p !! k = Some (Entry.tx x, Entry.tier x)).
    { apply lookup_insert_Some in Hk as [[<- <-]|[_ Hk]]; [done|]. split; [by apply Hq|].
      eapply lookup_weaken; [|exact Hsub]. unfold pending. by rewrite lookup_fmap, Hk. }
    destruct Hx as [Hx Hpk]. unfold pending in Hpk. rewrite lookup_fmap in Hpk.
    destruct (entries_ p !! k) as [y|] eqn:Ey; [|done]. exists y. split; [done|]. injection Hpk as Et _.
    rewrite (eo_size _ _ _ Hx), (eo_size _ _ _ (po_entry _ _ Hp _ _ Ey)), Et. lia. }
  split.
  - apply msum_mono in Hin. rewrite msum_insert_new in Hin by done.
    rewrite (po_bytes _ _ Hp), (po_bytes _ _ Hq). lia.
  - assert (Hdom : dom (<[id := e]> (entries_ q)) ⊆ dom (entries_ p)).
    { intros k (x & Hk)%elem_of_dom. apply elem_of_dom. destruct (Hin k x Hk) as (y & ? & _). by exists y. }
    apply subseteq_size in Hdom. rewrite !size_dom, map_size_insert_None in Hdom by done. unfold poolSize. lia.
Qed.

Lemma roomFor_free p e : poolSize p < MAX_MEMPOOL_TXS -> total_bytes_ p + Entry.tx_size e <= MAX_MEMPOOL_BYTES ->
  roomFor e p = (true, p).
Proof.
  intros Hc Hb. unfold roomFor. pose proof (add64_le (total_bytes_ p) (Entry.tx_size e)).
  destruct (N.leb_spec MAX_MEMPOOL_TXS (poolSize p)); [lia|].
  by destruct (N.ltb_spec MAX_MEMPOOL_BYTES (total_bytes_ p +64 Entry.tx_size e)); [lia|].
Qed.

(** Adding to a pool with room whose index does not have the nonce. *)
Lemma add_fresh p tx view tier now rate sz : PoolOk p -> tx ∈ T -> validate tx view tier = inr (rate, sz) ->
  nonce_index_ p !! nonceKeyOf tx = None -> poolSize p < MAX_MEMPOOL_TXS -> total_bytes_ p + sz <= MAX_MEMPOOL_BYTES ->
  exists p', add tx view tier now p = (Accepted, p') /\
    entries_ p' = <[txidOf tx := Entry.mk tx tier rate (next_sequence_ p) now sz]> (entries_ p) /\
    stale_after_load_ p' = stale_after_load_ p.
Proof.
  intros Hp HT Hv Hn Hc Hb. unfold add, addImpl, resolveNonce. rewrite Hv. cbv beta iota zeta. rewrite Hn.
  rewrite roomFor_free by done. cbn [negb].
  eexists. split; [reflexivity|]. rewrite insertEntry_joined; [|exact (unindexed_absent T no_collision p tx Hp HT Hn)|done].
  cbn. by destruct (loading_ p).
Qed.

(** The pool while its table is read: the valid rows read so far are pending, the
    others are stale. *)
Record Kept (view : StateView.t) (table : gmap Hash bytes) (l : list Entry.t) (q : Mempool) : Prop := {
  ke_loading : Loading table l q;
  ke_pending id x : pending q !! id = Some x <->
    exists e, e ∈ l /\ id = txidOf (Entry.tx e) /\ x = (Entry.tx e, Entry.tier e) /\ admissible view x = true;
  ke_stale id : id ∈ stale_after_load_ q <->
    exists e, e ∈ l /\ id = txidOf (Entry.tx e) /\ admissible view (Entry.tx e, Entry.tier e) = false;
}.

Lemma pending_lookup p id e : entries_ p !! id = Some e -> pending p !! id = Some (Entry.tx e, Entry.tier e).
Proof. intros E. unfold pending. by rewrite lookup_fmap, E. Qed.

Lemma pending_inv p id tx tier : pending p !! id = Some (tx, tier) ->
  exists e, entries_ p !! id = Some e /\ Entry.tx e = tx /\ Entry.tier e = tier.
Proof. unfold pending. rewrite lookup_fmap. destruct (entries_ p !! id); [|done]. intros [= <- <-]. eauto. Qed.

(** The row of a pending transaction is added again if it is still valid. *)
Lemma reload_effect p view nowMs table l q e : PoolOk p -> total_bytes_ p <= MAX_MEMPOOL_BYTES -> Loading table l q ->
  pending q ⊆ pending p -> pending p !! txidOf (Entry.tx e) = Some (Entry.tx e, Entry.tier e) ->
  EntryOk (txidOf (Entry.tx e)) e -> txidOf (Entry.tx e) ∉ (txidOf ∘ Entry.tx <$> l) ->
  let id := txidOf (Entry.tx e) in
  let q' := reload view nowMs q e in
  if admissible view (Entry.tx e, Entry.tier e)
  then pending q' = <[id := (Entry.tx e, Entry.tier e)]> (pending q) /\ stale_after_load_ q' = stale_after_load_ q
  else pending q' = pending q /\ stale_after_load_ q' = stale_after_load_ q ++ [id].
Proof.
  intros Hp Hmax Hlo Hsub Hpe He Hnew id q'. pose proof (lo_ok _ _ _ Hlo) as Hq.
  assert (Hid : entries_ q !! id = None).
  { destruct (entries_ q !! id) as [e'|] eqn:E; [|done]. by apply (lo_read _ _ _ Hlo) in E. }
  destruct (room_left p q id e Hp Hq Hsub Hid He Hpe) as [Hb Hc].
  unfold q', reload, admissible. cbn [fst snd].
  destruct (validate (Entry.tx e) view (Entry.tier e)) as [r|[rate sz]] eqn:Ev.
  - unfold add, addImpl. rewrite Ev, bool_decide_eq_false_2 by (by eapply validate_refuses). done.
  - assert (Esz : sz = Entry.tx_size e).
    { apply validate_inv in Ev as (_ & _ & _ & _ & _ & -> & _). by rewrite (eo_size _ _ _ He). }
    destruct (add_fresh q (Entry.tx e) view (Entry.tier e) (nowMs (next_sequence_ q)) rate sz) as (q1 & -> & Ee & Es);
      [done|apply He|done| |pose proof (po_count T p Hp); lia|rewrite Esz; lia|].
    + destruct (nonce_index_ q !! _) as [id'|] eqn:Ei; [|done].
      destruct (po_index T q Hq _ _ Ei) as (e' & He' & Hk).
      pose proof (lookup_weaken _ _ _ _ (pending_lookup _ _ _ He') Hsub) as H1.
      apply pending_inv in H1 as (e1 & H1 & Et1 & _). apply pending_inv in Hpe as (e2 & H2 & Et2 & _).
      assert (id' = id) by (eapply nonceKey_unique; [exact Hp|done|done|by rewrite Et1, Et2]). subst id'. congruence.
    + rewrite bool_decide_eq_true_2 by done. split; [|done]. unfold pending. by rewrite Ee, fmap_insert.
Qed.

Lemma reload_Kept p view nowMs table l q e : (forall n, nowMs n < w64) -> PoolOk p ->
  total_bytes_ p <= MAX_MEMPOOL_BYTES -> Kept view table l q ->
  (forall e0, e0 ∈ l ++ [e] -> pending p !! txidOf (Entry.tx e0) = Some (Entry.tx e0, Entry.tier e0)) ->
  table !! txidOf (Entry.tx e) = Some (serializeEntry e) -> EntryOk (txidOf (Entry.tx e)) e ->
  txidOf (Entry.tx e) ∉ (txidOf ∘ Entry.tx <$> l) ->
  Kept view table (l ++ [e]) (reload view nowMs q e).
Proof.
  intros Hnow Hp Hmax [Hlo Hpend Hst] Hall Hrow He Hnew.
  assert (Hsub : pending q ⊆ pending p).
  { apply map_subseteq_spec. intros id x (e0 & Hin & -> & -> & _)%Hpend. apply Hall. set_solver. }
  pose proof (reload_effect p view nowMs table l q e Hp Hmax Hlo Hsub) as Heff. cbv zeta in Heff.
  specialize (Heff (Hall e ltac:(set_solver)) He Hnew).
  split; [by apply reload_Loading|..].
  - intros id x. setoid_rewrite elem_of_app. setoid_rewrite list_elem_of_singleton.
    destruct (admissible view _) eqn:Ea; destruct Heff as [-> _].
    + rewrite lookup_insert_Some, Hpend. split.
      * intros [[<- <-]|[Hne (e0 & ? & ? & ?)]]; [exists e; by split_and!; [right|..]|exists e0; by split; [left|]].
      * intros (e0 & [Hin| ->] & -> & -> & Ha); [right|by left]. split; [|by exists e0].
        intros E. apply Hnew. rewrite E. by apply (list_elem_of_fmap_2 (txidOf ∘ Entry.tx)).
    + rewrite Hpend. split; [intros (e0 & ? & ?); exists e0; by split; [left|]|].
      intros (e0 & [Hin| ->] & -> & -> & Ha); [by exists e0|congruence].
  - intros id. setoid_rewrite elem_of_app. setoid_rewrite list_elem_of_singleton.
    destruct (admissible view _) eqn:Ea; destruct Heff as [_ ->].
    + rewrite Hst. split; [intros (e0 & ? & ?); exists e0; by split; [left|]|].
      intros (e0 & [Hin| ->] & -> & Ha); [by exists e0|congruence].
    + rewrite elem_of_app, list_elem_of_singleton, Hst. split.
      * intros [(e0 & ? & ?)| ->]; [exists e0; by split; [left|]|exists e; by split_and!; [right|..]].
      * intros (e0 & [Hin| ->] & -> & Ha); [left; by exists e0|by right].
Qed.

Lemma reloads_Kept p view nowMs table : (forall n, nowMs n < w64) -> PoolOk p -> total_bytes_ p <= MAX_MEMPOOL_BYTES ->
  forall l2 l1 q, rowsAre table (l1 ++ l2) ->
  (forall e, e ∈ l1 ++ l2 -> pending p !! txidOf (Entry.tx e) = Some (Entry.tx e, Entry.tier e)) ->
  Kept view table l1 q -> Kept view table (l1 ++ l2) (foldl (reload view nowMs) q l2).
Proof.
  intros Hnow Hp Hmax. induction l2 as [|e l2 IH]; intros l1 q Hr Hall Hk; cbn; [by rewrite app_nil_r|].
  rewrite (cons_middle e l1 l2), (app_assoc l1 [e] l2) in *. apply IH; [done|done|].
  destruct Hr as (Hrows & Hnd & _). rewrite <-(app_assoc l1 [e] l2) in Hrows, Hnd.
  apply Forall_app in Hrows as [_ [[? ?] _]%Forall_cons].
  apply (reload_Kept p); try done; [intros e0 Hin0; apply Hall; rewrite elem_of_app; by left|].
  rewrite fmap_app in Hnd. apply NoDup_app in Hnd as (_ & Hd & _). intros Hin. apply (Hd _ Hin). cbn. set_solver.
Qed.

(** The rows of a mirrored pool are its pending transactions. *)
Lemma rows_pending p table e : PoolOk p -> Mirrored p -> db_ p = Some table -> e ∈ persistedOf table ->
  pending p !! txidOf (Entry.tx e) = Some (Entry.tx e, Entry.tier e).
Proof.
  intros Hp Hm Hdb Hin. destruct (persisted_rows table) as (Hall & _). { intros id b. by apply (po_rows T p Hp). }
  rewrite Forall_forall in Hall. destruct (Hall e Hin) as [Hrow He].
  destruct (Hm table Hdb (txidOf (Entry.tx e))) as [[e' He'] _]; [by exists (serializeEntry e)|].
  rewrite (pending_lookup _ _ _ He'). destruct (po_persisted T p Hp _ _ _ Hdb He') as (e0 & H0 & He0 & <- & <-).
  assert (Es : serializeEntry e0 = serializeEntry e) by congruence.
  apply (f_equal deserializeEntry) in Es. rewrite (row_roundtrip _ _ He0), (row_roundtrip _ _ He) in Es.
  by injection Es as ->.
Qed.

Lemma acts_ok p : rtc act (attach ∅ emptyPool) p -> (PoolOk p /\ loading_ p = false) /\ Mirrored p.
Proof.
  intros Hr. cut ((PoolOk (attach ∅ emptyPool) /\ loading_ (attach ∅ emptyPool) = false) /\ Mirrored (attach ∅ emptyPool)).
  - induction Hr as [p|p q p' Ha _ IH]; [done|]. intros [Hp Hm]. apply IH. split; [by eapply act_ok|by eapply act_Mirrored].
  - split; [split; [|done]; apply PoolOk_empty; intros id b; by rewrite lookup_empty|].
    intros table [= <-] id. cbn. rewrite !lookup_empty. by split; intros [? ?].
Qed.

(** The pool as [load] starts to read the table. *)
Definition reading (table : gmap Hash bytes) : Mempool :=
  attach table emptyPool <| loading_ := true |> <| stale_after_load_ := [] |>.

Lemma reading_Kept view table :
  (forall id b, table !! id = Some b -> exists e, b = serializeEntry e /\ EntryOk id e) ->
  Kept view table [] (reading table).
Proof.
  intros Ht. split.
  - split; try done. exact (PoolOk_stale _ [] (PoolOk_loading _ true (PoolOk_empty T table Ht))).
  - intros id x. change (pending (reading table)) with (∅ : gmap Hash (Transaction.t * FeeTier.t)). rewrite lookup_empty.
    split; [done|]. by intros (e & ?%elem_of_nil & _).
  - intros id. split; [by intros ?%elem_of_nil|by intros (e & ?%elem_of_nil & _)].
Qed.

(** The rebuilt pool: the entries as read, the table without the stale rows. *)
Lemma initMempool_reading view nowMs table :
  let q := foldl (reload view nowMs) (reading table) (persistedOf table) in
  let p' := initMempool view nowMs (attach table emptyPool) in
  db_ q = Some table -> entries_ p' = entries_ q /\
  db_ p' = Some (foldl (fun t id => delete id t) table (stale_after_load_ q)).
Proof.
  intros q p' Hdb.
  assert (E : p' = unpersistBatch (stale_after_load_ q) (q <| loading_ := false |> <| stale_after_load_ := [] |>)) by done.
  by rewrite E, (unpersistBatch_db _ _ table).
Qed.

Lemma row_of table id : rowsAre table (persistedOf table) -> is_Some (table !! id) ->
  exists e, e ∈ persistedOf table /\ id = txidOf (Entry.tx e).
Proof. intros (_ & _ & Hcov) Hid%Hcov. apply list_elem_of_fmap in Hid as (e & -> & He). by exists e. Qed.

Lemma Kept_pending p view table q : PoolOk p -> Mirrored p -> db_ p = Some table -> rowsAre table (persistedOf table) ->
  Kept view table (persistedOf table) q ->
  pending q = filter (fun kv => admissible view (snd kv) = true) (pending p).
Proof.
  intros Hp Hm Hdb Hrows [_ Hpend _]. apply map_eq. intros id. apply option_eq. intros x.
  rewrite Hpend, map_lookup_filter_Some. split.
  - intros (e & He & -> & -> & Ha). split; [by apply (rows_pending p table)|done].
  - intros [Hx Ha]. destruct x as [tx tier]. pose proof Hx as (e & He & _)%pending_inv.
    destruct (row_of table id Hrows) as (e1 & He1 & ->).
    { apply (Hm table Hdb). by exists e. }
    rewrite (rows_pending p table e1) in Hx by done. injection Hx as <- <-. by exists e1.
Qed.

Lemma Kept_mirrors p view table q id : PoolOk p -> Mirrored p -> db_ p = Some table ->
  rowsAre table (persistedOf table) -> Kept view table (persistedOf table) q ->
  is_Some (foldl (fun t id => delete id t) table (stale_after_load_ q) !! id) <-> is_Some (entries_ q !! id).
Proof.
  intros Hp Hm Hdb Hrows [_ Hpend Hst].
  assert (Hsome : is_Some (entries_ q !! id) <-> is_Some (pending q !! id)).
  { unfold pending. by rewrite lookup_fmap, fmap_is_Some. }
  rewrite foldl_delete_lookup, Hsome. case_bool_decide as Hs.
  - split; [by intros [? ?]|]. intros [x (e & He & -> & -> & Ha)%Hpend].
    apply Hst in Hs as (e' & He' & Eid & Ha'). pose proof (rows_pending p table e Hp Hm Hdb He) as H1.
    rewrite Eid, (rows_pending p table e') in H1 by done. congruence.
  - split.
    + intros Hid. destruct (row_of table id Hrows Hid) as (e & He & ->).
      destruct (admissible view (Entry.tx e, Entry.tier e)) eqn:Ha; [|destruct Hs; apply Hst; by exists e].
      exists (Entry.tx e, Entry.tier e). apply Hpend. by exists e.
    + intros [x (e & He & -> & _)%Hpend]. exists (serializeEntry e). destruct Hrows as (Hall & _).
      rewrite Forall_forall in Hall. by apply Hall.
Qed.

(** C19: a restart keeps exactly the transactions that are still valid.  After any
    run of calls on a fresh pool that stays within its byte limit, a node that
    rebuilds its pool from the table holds, under the same ids and in the same
    tier, the pending transactions that the checks of [add] accept on the new
    state, and no others; and its table has a row for each of them and no more. *)
Theorem restart_keeps_valid p table view nowMs :
  rtc act (attach ∅ emptyPool) p -> db_ p = Some table -> total_bytes_ p <= MAX_MEMPOOL_BYTES ->
  (forall n, nowMs n < w64) ->
  let p' := initMempool view nowMs (attach table emptyPool) in
  pending p' = filter (fun kv => admissible view (snd kv) = true) (pending p) /\ Mirrored p'.
Proof.
  intros Hr Hdb Hmax Hnow p'. destruct (acts_ok p Hr) as [[Hp _] Hm].
  assert (Ht : forall id b, table !! id = Some b -> exists e, b = serializeEntry e /\ EntryOk id e).
  { intros id b. by apply (po_rows T p Hp). }
  pose proof (persisted_rows table Ht) as Hrows.
  pose proof (reloads_Kept p view nowMs table Hnow Hp Hmax (persistedOf table) [] (reading table) Hrows
    (fun e Hin => rows_pending p table e Hp Hm Hdb Hin) (reading_Kept view table Ht)) as Hk. cbn [app] in Hk.
  destruct (initMempool_reading view nowMs table (lo_db _ _ _ (ke_loading _ _ _ _ Hk))) as [Ee Ed].
  set (q := foldl _ (reading table) _) in *. split.
  - rewrite <-(Kept_pending p view table q Hp Hm Hdb Hrows Hk). unfold pending, p'. by rewrite Ee.
  - intros table'. unfold p'. rewrite Ed, Ee. intros [= <-] id. by apply (Kept_mirrors p view).
Qed.
End runs.
