(* ===== verification/MempoolSelection.v ===== *)
(** * Block selection

    [selectForBlock] of Mempool.v always returns; what it returns fits the block,
    is pending, and carries every sender's nonces without a gap; and it passes over
    no standard transaction that was next for its sender and would have fitted. *)

From S2P Require Import Prelude Types StateAccess Wire Codec ExecBase ExecOrders Block Mempool.
From S2P Require Import MempoolInvariant.
Import MempoolAddResult.

Definition fromOf (a : Address) (txs : list Transaction.t) : list Transaction.t :=
  filter (fun tx => Transaction.from tx = a) txs.

Definition totalSize (txs : list Transaction.t) : N := foldr (fun tx n => serializedSize tx + n) 0 txs.

Lemma totalSize_app l1 l2 : totalSize (l1 ++ l2) = totalSize l1 + totalSize l2.
Proof. unfold totalSize. induction l1 as [|x l1 IH]; cbn; [done|]. rewrite IH. lia. Qed.

Section selection.
Context {Cr : Crypto} (T : list Transaction.t) (p : Mempool) (view : StateView.t).
Hypothesis Hpool : PoolOk T p.
(** The nonce after an entry's is a nonce. *)
Hypothesis Hnonce : forall id e, entries_ p !! id = Some e -> Transaction.nonce (Entry.tx e) + 1 < w64.

Definition nonceOf (a : Address) : N := Account.nonce (StateView.getAccount a view).

(** A selection of pending transactions: bytes counted, nonces without a gap from
    the state's, the next one expected. *)
Record SelOk (s : Selection) : Prop := {
  so_member tx : tx ∈ result s -> exists e, entries_ p !! txidOf tx = Some e /\ Entry.tx e = tx;
  so_bytes : bytes_used s = totalSize (result s);
  so_nonces a : Transaction.nonce <$> fromOf a (result s) =
    (fun i => nonceOf a + N.of_nat i) <$> seq 0 (length (fromOf a (result s)));
  so_next a : expectedNonce view s a = nonceOf a + N.of_nat (length (fromOf a (result s)));
}.

Lemma SelOk_start : SelOk (mkSelection [] ∅ 0).
Proof.
  split; cbn; try done; [by intros tx ?%elem_of_nil|]. intros a. unfold expectedNonce. cbn.
  rewrite lookup_empty. cbn. unfold nonceOf. lia.
Qed.

Lemma expectedNonce_insert s r b a x c :
  expectedNonce view (mkSelection r (<[a := x]> (next_nonce s)) b) c =
  if decide (c = a) then (if x =? 0 then nonceOf a else x) else expectedNonce view s c.
Proof.
  unfold expectedNonce, nonceOf. cbn [next_nonce]. case_decide as E.
  - subst. by rewrite lookup_insert_eq.
  - by rewrite lookup_insert_ne.
Qed.

Lemma expectedNonce_defer s a :
  (if expectedNonce view s a =? 0 then nonceOf a else expectedNonce view s a) = expectedNonce view s a.
Proof.
  unfold expectedNonce, nonceOf. destruct (N.eqb_spec (default 0 (next_nonce s !! a)) 0) as [E|E].
  - by destruct (_ =? 0).
  - by destruct (N.eqb_spec (default 0 (next_nonce s !! a)) 0).
Qed.

(** Reading a sender's nonce changes no expectation. *)
Lemma deferred_next s a c :
  expectedNonce view (mkSelection (result s) (<[a := expectedNonce view s a]> (next_nonce s)) (bytes_used s)) c =
  expectedNonce view s c.
Proof. rewrite expectedNonce_insert. case_decide; [subst; apply expectedNonce_defer|done]. Qed.

Lemma SelOk_defer s a : SelOk s ->
  SelOk (mkSelection (result s) (<[a := expectedNonce view s a]> (next_nonce s)) (bytes_used s)).
Proof. intros [H1 H2 H3 H4]. split; try done. intros c. by rewrite deferred_next. Qed.

Lemma fromOf_snoc a txs tx :
  fromOf a (txs ++ [tx]) = if decide (Transaction.from tx = a) then fromOf a txs ++ [tx] else fromOf a txs.
Proof. unfold fromOf. rewrite filter_app. cbn. case_decide; [done|by rewrite app_nil_r]. Qed.

(** What an item is turned into when it is selected. *)
Definition selected (s : Selection) (e : Entry.t) : Selection :=
  let tx := Entry.tx e in
  mkSelection (result s ++ [tx]) (<[Transaction.from tx := Transaction.nonce tx +64 1]> (next_nonce s))
    (bytes_used s +64 Entry.tx_size e).

Lemma SelOk_select s id e : SelOk s -> entries_ p !! id = Some e ->
  Transaction.nonce (Entry.tx e) = expectedNonce view s (Transaction.from (Entry.tx e)) ->
  bytes_used s + Entry.tx_size e < w64 -> SelOk (selected s e).
Proof.
  intros Hs He Hn Hb. pose proof (po_entry _ _ Hpool _ _ He) as Heo. pose proof (Hnonce _ _ He) as Hlt.
  set (tx := Entry.tx e) in *. split; cbn [selected result bytes_used].
  - intros tx'. rewrite elem_of_app, list_elem_of_singleton. intros [Hin| ->]; [by apply Hs|].
    exists e. by rewrite <-(eo_id _ _ _ Heo).
  - rewrite add64_id, totalSize_app, (so_bytes _ Hs) by done. cbn. rewrite (eo_size _ _ _ Heo). fold tx. lia.
  - intros a. rewrite fromOf_snoc. case_decide as E; [|apply Hs]. subst a.
    rewrite fmap_app, length_app, seq_app, fmap_app, (so_nonces _ Hs). f_equal.
    change ([Transaction.nonce tx] = [nonceOf (Transaction.from tx) + N.of_nat (length (fromOf (Transaction.from tx) (result s)))]).
    by rewrite Hn, (so_next _ Hs).
  - intros a. unfold selected. fold tx. rewrite expectedNonce_insert, fromOf_snoc. rewrite add64_id by lia.
    case_decide as E; [|rewrite decide_False by done; apply Hs]. subst a. rewrite decide_True by done.
    destruct (N.eqb_spec (Transaction.nonce tx + 1) 0); [lia|]. rewrite length_app, Hn, (so_next _ Hs). cbn. lia.
Qed.

(** ** One pass *)

Lemma size_small id e : entries_ p !! id = Some e -> 0 < Entry.tx_size e <= 65715.
Proof.
  intros He%(po_entry _ _ Hpool). rewrite (eo_size _ _ _ He). pose proof (serializedSize_bound _ (eo_well _ _ _ He)). lia.
Qed.

Section pass.
Context (stop : HeapItem.t -> bool) (cap max_txs : N).
Hypothesis Hcap : cap + w32 <= w64.

Record Fits (s : Selection) : Prop := {
  fi_ok : SelOk s;
  fi_bytes : bytes_used s <= cap;
  fi_count : N.of_nat (length (result s)) <= max_txs;
}.

(** An item that needs no further look: stale, selected, or too large. *)
Definition settled (s : Selection) (item : HeapItem.t) : Prop :=
  forall e, entries_ p !! HeapItem.txid item = Some e ->
    Entry.tx e ∈ result s \/ cap < bytes_used s + Entry.tx_size e.

(** An item whose transaction is not the next of its sender. *)
Definition waits (s : Selection) (item : HeapItem.t) : Prop :=
  exists e, entries_ p !! HeapItem.txid item = Some e /\
    Transaction.nonce (Entry.tx e) <> expectedNonce view s (Transaction.from (Entry.tx e)).

(** The same transactions, and the same nonces expected. *)
Definition sameSelection (s s' : Selection) : Prop :=
  result s' = result s /\ bytes_used s' = bytes_used s /\ forall a, expectedNonce view s' a = expectedNonce view s a.

(** More transactions. *)
Definition extends (s s' : Selection) : Prop := result s ⊆ result s' /\ bytes_used s <= bytes_used s'.

Lemma settled_extends s s' item : extends s s' -> settled s item -> settled s' item.
Proof. intros [Hr Hb] Hs e He. destruct (Hs e He) as [?|?]; [left; set_solver|right; lia]. Qed.

Lemma waits_same s s' item : sameSelection s s' -> waits s item -> waits s' item.
Proof. intros (_ & _ & Hn) (e & He & Hne). exists e. by rewrite Hn. Qed.

Lemma sameSelection_trans s1 s2 s3 : sameSelection s1 s2 -> sameSelection s2 s3 -> sameSelection s1 s3.
Proof. intros (A1 & B1 & C1) (A2 & B2 & C2). split_and!; [congruence|congruence|]. intros a. by rewrite C2, C1. Qed.

(** The three things that happen to a popped item. *)
Lemma visitItem_cases item deferred progress s : Fits s -> hasRoom cap max_txs s = true ->
  (visitItem p view cap item deferred progress s = (deferred, progress, s) /\ settled s item) \/
  (exists s', visitItem p view cap item deferred progress s = (push item deferred, progress, s') /\
     Fits s' /\ sameSelection s s' /\ waits s' item) \/
  (exists s', visitItem p view cap item deferred progress s = (deferred, true, s') /\
     Fits s' /\ extends s s' /\ settled s' item).
Proof.
  intros [Hok Hb Hc] Hroom. unfold visitItem, settled, waits. destruct (entries_ p !! _) as [e|] eqn:Ee; [|by left].
  pose proof (size_small _ _ Ee) as Hsz.
  assert (Hadd : bytes_used s +64 Entry.tx_size e = bytes_used s + Entry.tx_size e) by (apply add64_id; lia).
  rewrite Hadd. destruct (N.ltb_spec cap (bytes_used s + Entry.tx_size e)).
  { left. split; [done|]. intros e' [= <-]. by right. }
  destruct (N.eqb_spec (Transaction.nonce (Entry.tx e)) (expectedNonce view s (Transaction.from (Entry.tx e)))) as [En|En];
    cbn [negb]; right.
  - right. eexists. split; [done|]. split_and!.
    + pose proof (SelOk_select s _ e Hok Ee En) as Hsel. unfold selected in Hsel. rewrite Hadd in Hsel.
      split; [apply Hsel; lia|done|]. cbn. rewrite length_app. cbn.
      unfold hasRoom in Hroom. apply andb_true_iff in Hroom as [Hl%N.ltb_lt _]. lia.
    + split; cbn; [set_solver|lia].
    + intros e' [= <-]. left. cbn. set_solver.
  - left. eexists. split; [done|]. split_and!.
    + by split; [apply SelOk_defer|..].
    + split_and!; try done. intros a. apply deferred_next.
    + exists e. by rewrite deferred_next.
Qed.

(** From one state of the inner loop to another: nothing is lost, an item costs a
    step, and without progress the selection is as it was and what was deferred
    waits. *)
Record Drained (heap deferred : MaxHeap) (progress : bool) (s : Selection)
    (heap' deferred' : MaxHeap) (progress' : bool) (s' : Selection) : Prop := {
  dr_fits : Fits s';
  dr_extends : extends s s';
  dr_length : (length heap' + length deferred' + (if progress' then 1 else 0) <=
               length heap + length deferred + (if progress then 1 else 0))%nat;
  dr_items item : item ∈ heap \/ item ∈ deferred -> item ∈ heap' \/ item ∈ deferred' \/ settled s' item;
  dr_stop item : item ∈ heap -> stop item = true -> item ∈ heap';
  dr_same : progress' = false -> progress = false /\ sameSelection s s';
  dr_waits item : progress' = false -> item ∈ deferred' -> item ∈ deferred \/ waits s' item;
}.

Lemma sameSelection_extends s s' : sameSelection s s' -> extends s s'.
Proof. intros (E1 & E2 & _). unfold extends. by rewrite E1, E2. Qed.

Lemma Drained_visit item heap deferred progress s d1 progress1 s1 heap' deferred' progress' s' :
  (d1 = deferred /\ progress1 = progress /\ s1 = s /\ settled s item) \/
  (d1 = push item deferred /\ progress1 = progress /\ sameSelection s s1 /\ waits s1 item) \/
  (d1 = deferred /\ progress1 = true /\ extends s s1 /\ settled s1 item) ->
  stop item = false -> Drained heap d1 progress1 s1 heap' deferred' progress' s' ->
  Drained (item :: heap) deferred progress s heap' deferred' progress' s'.
Proof.
  intros Hcase Hstop [Hfit Hext Hlen Hit Hst Hsame Hw].
  assert (Hstop' : forall x, x ∈ item :: heap -> stop x = true -> x ∈ heap').
  { intros x [->|Hx]%elem_of_cons Ex; [congruence|by apply Hst]. }
  assert (Htr : extends s s1 -> extends s s') by (intros [? ?]; destruct Hext; split; [by etrans|lia]).
  destruct Hcase as [(-> & -> & -> & Hs)|[(-> & -> & Hs & Hi)|(-> & -> & He & Hs)]].
  - split; try done; [cbn; lia|]. intros x [[->|Hx]%elem_of_cons|Hx]; [|by apply Hit; left|by apply Hit; right].
    right; right. by eapply settled_extends.
  - pose proof (Permutation_length (push_perm item deferred)) as Hpl. cbn in Hpl. split; try done.
    + by apply Htr, sameSelection_extends.
    + cbn. lia.
    + intros x [[->|Hx]%elem_of_cons|Hx]; apply Hit; [right; apply elem_of_push; by left|by left|].
      right. apply elem_of_push. by right.
    + intros E. destruct (Hsame E) as [? ?]. split; [done|]. by eapply sameSelection_trans.
    + intros x E Hx. destruct (Hw x E Hx) as [[->|?]%elem_of_push|?]; [|by left|by right].
      right. destruct (Hsame E) as [_ ?]. by eapply waits_same.
  - split; try done.
    + by apply Htr.
    + cbn. destruct progress; lia.
    + intros x [[->|Hx]%elem_of_cons|Hx]; [|by apply Hit; left|by apply Hit; right].
      right; right. by eapply settled_extends.
    + intros E. by destruct (Hsame E).
Qed.

Lemma drain_spec heap : forall deferred progress s heap' deferred' progress' s', Fits s ->
  drain p view stop cap max_txs heap deferred progress s = (heap', deferred', progress', s') ->
  Drained heap deferred progress s heap' deferred' progress' s' /\
  (forall item rest, heap' = item :: rest -> hasRoom cap max_txs s' = false \/ stop item = true).
Proof.
  assert (Hrefl : forall h d b s, Fits s -> Drained h d b s h d b s).
  { intros h d b s Hf. split; [done|split; [done|lia]|lia| |done|done|by left]. intros item [?|?]; [by left|by right; left]. }
  induction heap as [|item heap IH]; intros deferred progress s heap' deferred' progress' s' Hf; cbn [drain].
  { intros [= <- <- <- <-]. split; [by apply Hrefl|done]. }
  destruct (hasRoom cap max_txs s) eqn:Hroom; cbn [negb orb].
  2:{ intros [= <- <- <- <-]. split; [by apply Hrefl|]. by left. }
  destruct (stop item) eqn:Hstop.
  { intros [= <- <- <- <-]. split; [by apply Hrefl|]. intros ? ? [= <- <-]. by right. }
  destruct (visitItem_cases item deferred progress s Hf Hroom) as
    [(-> & Hs)|[(s1 & -> & Hf1 & Hs & Hi)|(s1 & -> & Hf1 & He & Hs)]]; intros E;
    (apply IH in E as [Hd Hh]; [|done]); (split; [|exact Hh]);
    refine (Drained_visit item heap deferred progress s _ _ _ _ _ _ _ _ Hstop Hd).
  - left. by split_and!.
  - right; left. by split_and!.
  - right; right. by split_and!.
Qed.

(** A whole pass: it ends with what is left settled, waiting or out of room, or
    in front of an item that stops it. *)
Record Passed (heap : MaxHeap) (s : Selection) (heap' : MaxHeap) (s' : Selection) : Prop := {
  pa_fits : Fits s';
  pa_extends : extends s s';
  pa_length : (length heap' <= length heap)%nat;
  pa_items item : item ∈ heap -> item ∈ heap' \/ settled s' item;
  pa_stop item : item ∈ heap -> stop item = true -> item ∈ heap';
  pa_end : (exists item, stop item = true) \/
    forall item, item ∈ heap' -> hasRoom cap max_txs s' = false \/ waits s' item;
}.

Lemma Passed_drain heap s h1 d1 progress s1 heap' s' :
  Drained heap [] false s h1 d1 progress s1 ->
  Passed (foldl (fun h item => push item h) h1 d1) s1 heap' s' -> Passed heap s heap' s'.
Proof.
  intros [_ [? ?] Hlen Hit Hst _ _] [Hf [? ?] Hl Hi Hs He].
  assert (Hin : forall x, x ∈ foldl (fun h item => push item h) h1 d1 <-> x ∈ d1 \/ x ∈ h1).
  { intros x. by rewrite (pushAll_perm d1 h1), elem_of_app. }
  assert (Hext : extends s1 s') by (by split).
  split; [done|split; [by etrans|lia]| | | |done].
  - pose proof (Permutation_length (pushAll_perm d1 h1)) as Hp. rewrite length_app in Hp. cbn in Hlen.
    destruct progress; lia.
  - intros item Hitem. destruct (Hit item (or_introl Hitem)) as [?|[?|?]].
    + apply Hi, Hin. by right.
    + apply Hi, Hin. by left.
    + right. by eapply settled_extends.
  - intros item Hitem Es. apply Hs; [|done]. apply Hin. right. by apply Hst.
Qed.

Lemma Passed_refl heap s : Fits s ->
  (exists item, stop item = true) \/ (forall item, item ∈ heap -> hasRoom cap max_txs s = false \/ waits s item) ->
  Passed heap s heap s.
Proof. intros Hf He. split; [done|split; [done|lia]|lia|by left|done|done]. Qed.

Lemma selectPass_spec fuel : forall heap s, Fits s -> (length heap < fuel)%nat ->
  exists heap' s', selectPass p view stop cap max_txs fuel heap s = Some (heap', s') /\ Passed heap s heap' s'.
Proof.
  induction fuel as [|fuel IH]; intros heap s Hf Hfuel; [lia|]. cbn [selectPass].
  case_bool_decide as Hnil; cbn [orb].
  { exists heap, s. split; [done|]. apply Passed_refl; [done|]. right. subst. by intros item ?%elem_of_nil. }
  destruct (hasRoom cap max_txs s) eqn:Hroom; cbn [negb].
  2:{ exists heap, s. split; [done|]. apply Passed_refl; [done|]. right. by left. }
  destruct (drain p view stop cap max_txs heap [] false s) as [[[h1 d1] progress] s1] eqn:Ed.
  apply drain_spec in Ed as [Hd Hhead]; [|done]. pose proof (dr_fits _ _ _ _ _ _ _ _ Hd) as Hf1.
  set (h2 := foldl _ h1 d1).
  assert (Hin : forall x, x ∈ h2 <-> x ∈ d1 \/ x ∈ h1).
  { intros x. unfold h2. by rewrite (pushAll_perm d1 h1), elem_of_app. }
  destruct (match h2 with item :: _ => stop item | [] => false end) eqn:Etop.
  { exists h2, s1. split; [done|]. eapply Passed_drain; [exact Hd|]. apply Passed_refl; [done|]. left.
    destruct h2 as [|x h2]; [done|]. by exists x. }
  destruct progress; cbn [negb].
  - destruct (IH h2 s1 Hf1) as (heap' & s' & E & Hp).
    { pose proof (dr_length _ _ _ _ _ _ _ _ Hd) as Hl. pose proof (Permutation_length (pushAll_perm d1 h1)) as Hpl.
      rewrite length_app in Hpl. cbn in Hl. fold h2 in Hpl. lia. }
    exists heap', s'. split; [done|]. by eapply Passed_drain.
  - exists h2, s1. split; [done|]. eapply Passed_drain; [exact Hd|]. apply Passed_refl; [done|].
    destruct h1 as [|x rest] eqn:Eh.
    + right. intros item [Hi|Hi]%Hin; [|by apply elem_of_nil in Hi].
      destruct (dr_waits _ _ _ _ _ _ _ _ Hd item eq_refl Hi) as [?%elem_of_nil|?]; [done|by right].
    + destruct (Hhead x rest eq_refl) as [?|?]; [right; by left|left; by exists x].
Qed.
End pass.

(** ** Both passes *)

Lemma priorityCap_le mb : priorityCap mb <= mb.
Proof.
  unfold priorityCap, PRIORITY_BLOCK_SHARE, mul64. pose proof (u64_le (mb * 50)).
  apply N.Div0.div_le_upper_bound. lia.
Qed.

Lemma foldl_sizes l : forall n, n + totalSize l < w64 ->
  foldl (fun n tx => n +64 serializedSize tx) n l = n + totalSize l.
Proof.
  induction l as [|tx l IH]; intros n Hn; cbn [foldl]; [cbn; lia|].
  change (totalSize (tx :: l)) with (serializedSize tx + totalSize l) in *. rewrite add64_id, IH by lia. lia.
Qed.

Lemma Fits_weaken cap cap' mt s : cap <= cap' -> Fits cap mt s -> Fits cap' mt s.
Proof. intros ? [? ? ?]. split; [done|lia|done]. Qed.

Lemma selectForBlock_spec mb mt : mb + w32 <= w64 ->
  exists s, selectForBlock p view mb mt = Some (result s) /\ Fits mb mt s /\
    forall id e, entries_ p !! id = Some e -> Entry.tier e = FeeTier.Standard ->
      settled mb s (itemOf id e) \/ hasRoom mb mt s = false \/ waits s (itemOf id e).
Proof.
  intros Hmb. pose proof (priorityCap_le mb) as Hcap. unfold selectForBlock.
  destruct (selectPass_spec notPriority (priorityCap mb) mt ltac:(lia) (S (length (heap_ p))) (heap_ p) (mkSelection [] ∅ 0))
    as (h1 & s1 & -> & P1).
  { split; [apply SelOk_start|cbn; lia|cbn; lia]. }
  { lia. }
  cbn [mbind option_bind]. pose proof (Fits_weaken _ mb mt s1 Hcap (pa_fits _ _ _ _ _ _ _ P1)) as Hf1.
  assert (Hu : foldl (fun n tx => n +64 serializedSize tx) 0 (result s1) = bytes_used s1).
  { rewrite (so_bytes _ (fi_ok _ _ _ Hf1)). apply foldl_sizes. rewrite <-(so_bytes _ (fi_ok _ _ _ Hf1)).
    pose proof (fi_bytes _ _ _ Hf1). lia. }
  rewrite Hu. replace (mkSelection (result s1) (next_nonce s1) (bytes_used s1)) with s1 by (by destruct s1).
  destruct (selectPass_spec (fun _ => false) mb mt Hmb (S (length (heap_ p))) h1 s1 Hf1) as (h2 & s2 & -> & P2).
  { pose proof (pa_length _ _ _ _ _ _ _ P1). lia. }
  exists s2. split; [done|]. split; [apply P2|]. intros id e He Ht.
  assert (Hi : itemOf id e ∈ h1).
  { apply (pa_stop _ _ _ _ _ _ _ P1); [by apply (po_heap _ _ Hpool)|]. unfold notPriority. cbn. rewrite Ht.
    by rewrite bool_decide_eq_false_2. }
  destruct (pa_items _ _ _ _ _ _ _ P2 _ Hi) as [Hi2|?]; [right|by left].
  destruct (pa_end _ _ _ _ _ _ _ P2) as [[? ?]|He2]; [done|by apply He2].
Qed.

Lemma NoDup_fromOf l : (forall a, NoDup (fromOf a l)) -> NoDup l.
Proof.
  unfold fromOf. induction l as [|x l IH]; intros H; constructor.
  - intros Hx. specialize (H (Transaction.from x)). rewrite filter_cons_True in H by done.
    apply NoDup_cons in H as [H _]. apply H. by apply list_elem_of_filter.
  - apply IH. intros a. specialize (H a). rewrite filter_cons in H. case_decide; [by apply NoDup_cons in H as [_ ?]|done].
Qed.

(** C16: a proposal can be built from the pool.  Selection always ends; what it
    returns fits the block's bytes and count, consists of distinct pending
    transactions, and for every sender carries in order exactly the nonces that
    follow the account's, without a gap. *)
Theorem selection_sound mb mt : mb + w32 <= w64 ->
  exists txs, selectForBlock p view mb mt = Some txs /\
    totalSize txs <= mb /\ N.of_nat (length txs) <= mt /\ NoDup txs /\
    (forall tx, tx ∈ txs -> get (txidOf tx) p = Some tx) /\
    (forall a, Transaction.nonce <$> fromOf a txs =
       (fun i => Account.nonce (StateView.getAccount a view) + N.of_nat i) <$> seq 0 (length (fromOf a txs))).
Proof.
  intros Hmb. destruct (selectForBlock_spec mb mt Hmb) as (s & -> & [Hok Hb Hc] & _). exists (result s).
  split_and!; try done.
  - by rewrite <-(so_bytes _ Hok).
  - apply NoDup_fromOf. intros a. apply (NoDup_fmap_1 Transaction.nonce). rewrite (so_nonces _ Hok).
    apply NoDup_fmap_2; [|apply NoDup_seq]. intros i j E. lia.
  - intros tx Htx. destruct (so_member _ Hok tx Htx) as (e & He & <-). unfold get. by rewrite He.
  - apply (so_nonces _ Hok).
Qed.

(** C17: no ready transaction is passed over.  When selection ends, no standard
    transaction of the pool is at once the next of its sender, small enough for
    the bytes left and within the count. *)
Theorem selection_complete mb mt txs id e : mb + w32 <= w64 -> selectForBlock p view mb mt = Some txs ->
  entries_ p !! id = Some e -> Entry.tier e = FeeTier.Standard ->
  let tx := Entry.tx e in
  let next := Account.nonce (StateView.getAccount (Transaction.from tx) view) +
              N.of_nat (length (fromOf (Transaction.from tx) txs)) in
  ~ (Transaction.nonce tx = next /\ totalSize txs + serializedSize tx <= mb /\ N.of_nat (length txs) < mt).
Proof.
  intros Hmb Hsel He Ht tx next (Hn & Hsz & Hc).
  destruct (selectForBlock_spec mb mt Hmb) as (s & E & [Hok Hb _] & Hend).
  rewrite E in Hsel. injection Hsel as <-. rewrite <-(so_bytes _ Hok) in Hsz.
  pose proof (eo_size _ _ _ (po_entry _ _ Hpool _ _ He)) as Es. pose proof (size_small _ _ He) as Hs0. fold tx in Es.
  assert (Hx : expectedNonce view s (Transaction.from tx) = next) by apply (so_next _ Hok).
  destruct (Hend id e He Ht) as [Hset|[Hroom|(e' & He' & Hne)]].
  - destruct (Hset e He) as [Hin|?]; [|lia]. fold tx in Hin.
    assert (Hf : Transaction.nonce tx ∈ Transaction.nonce <$> fromOf (Transaction.from tx) (result s)).
    { apply list_elem_of_fmap_2. unfold fromOf. by apply list_elem_of_filter. }
    rewrite (so_nonces _ Hok) in Hf. apply list_elem_of_fmap in Hf as (i & Ei & Hi%elem_of_seq).
    unfold nonceOf in Ei. unfold next in Hn. lia.
  - unfold hasRoom in Hroom. apply andb_false_iff in Hroom as [?%N.ltb_ge|?%N.ltb_ge]; lia.
  - cbn in He'. rewrite He in He'. injection He' as <-. fold tx in Hne. congruence.
Qed.
End selection.
