(* ===== verification/MempoolTheorems.v ===== *)
(** * The pool and the executor

    What admission to the pool means for execution: the payload check of orders is
    the executor's; an admitted transaction whose turn it is passes the prechecks,
    and for the value types its handler succeeds.  A sum that wraps is let in.
    Samples of the pool, with the theorems of MempoolRuns.v and MempoolSelection.v
    applied to them. *)

From S2P Require Import Prelude Types OrderBook StateAccess Ledger Wire Codec ExecBase ExecAccounts ExecOrders.
From S2P Require Import Executor Block Invariants ExecValue Conservation Samples Mempool.
From S2P Require Import MempoolInvariant MempoolRuns MempoolSelection.
Import MempoolAddResult.

Lemma orderMode_byte m x : x = OrderExecutionMode.Passive \/ x = OrderExecutionMode.Active ->
  bool_decide (OrderExecutionMode.of_byte m = x) = (m =? OrderExecutionMode.to_byte x).
Proof.
  intros Hx. case_bool_decide as E.
  - by rewrite <-E, OrderExecutionMode.OrderExecutionMode_to_of_byte, N.eqb_refl.
  - symmetry. apply N.eqb_neq. intros ->. apply E. by destruct Hx as [->| ->].
Qed.

(** C20: the pool's check of an order is the executor's.  A [CreateOrder] passes
    [validateOrderPayload] exactly when [validateCreateOrderStructure] accepts it. *)
Theorem order_check_agrees tx : Transaction.tx_type tx = TxType.CreateOrder ->
  bool_decide (validateOrderPayload tx = Accepted) = validateCreateOrderStructure tx.
Proof.
  intros Ht. unfold validateOrderPayload, validateCreateOrderStructure, CONDITIONS_OFFSET. rewrite Ht. cbn zeta.
  set (p := Transaction.payload tx). unfold parseOrderPayload.
  cbn [op_buy_token op_min_buy_amount op_mode op_pool_id op_condition_count].
  destruct (length p <? 26)%nat; [by rewrite bool_decide_eq_false_2|].
  destruct (ORDER_MAX_CONDITIONS <? _)%nat; [by rewrite bool_decide_eq_false_2|].
  rewrite !orderMode_byte by (by constructor).
  destruct (_ && _); [by rewrite bool_decide_eq_false_2|].
  destruct (if _ =? OrderExecutionMode.to_byte OrderExecutionMode.Active then _ else _); [by rewrite bool_decide_eq_false_2|].
  destruct (OrderCodec.conditionsFrom _ _ _); [|by rewrite bool_decide_eq_false_2].
  do 3 (destruct (_ =? _); [by rewrite bool_decide_eq_false_2|]).
  destruct (_ =? _); [|done]. by destruct (OrderBook.canonicalPrice _).
Qed.

(** ** Admission and execution *)

Section executes.
Context {Cr : Crypto}.

(** What the checks of the state say. *)
Lemma checkState_inv tx view : checkState tx view = None ->
  Account.nonce (StateView.getAccount (Transaction.from tx) view) <= Transaction.nonce tx /\
  checkFunds tx view = None /\
  (Transaction.tx_type tx = TxType.MintToken \/ Transaction.tx_type tx = TxType.BurnToken -> checkToken tx view = None).
Proof.
  unfold checkState. destruct (N.ltb_spec (Transaction.nonce tx) (Account.nonce (StateView.getAccount (Transaction.from tx) view)));
    [done|].
  destruct (checkFunds tx view); [done|]. destruct (if bool_decide _ then checkPoolFunds tx view else None); [done|].
  intros Hc. split_and!; [done|done|]. intros [E|E]; by rewrite E in Hc.
Qed.

Lemma checkFunds_inv tx view : checkFunds tx view = None ->
  let balance := Account.balance (StateView.getAccount (Transaction.from tx) view) in
  Transaction.fee tx <= balance /\
  (Transaction.token_id tx = NATIVE_TOKEN_ID -> txMovesNativeFromSender (Transaction.tx_type tx) = true ->
   Transaction.amount tx +64 Transaction.fee tx <= balance) /\
  (Transaction.token_id tx <> NATIVE_TOKEN_ID -> txMovesTokenFromSender (Transaction.tx_type tx) = true ->
   Transaction.amount tx <= StateView.getTokenBalance (Transaction.from tx) (Transaction.token_id tx) view).
Proof.
  unfold checkFunds. cbn zeta. set (balance := Account.balance _).
  destruct ((0 <? Transaction.fee tx) && (balance <? Transaction.fee tx)) eqn:Ef; [done|]. intros Hc. split_and!.
  - apply andb_false_iff in Ef as [?%N.ltb_ge|?%N.ltb_ge]; lia.
  - intros Et Em. rewrite Et, N.eqb_refl, Em in Hc. cbn in Hc. by destruct (N.ltb_spec balance (Transaction.amount tx +64 Transaction.fee tx)).
  - intros Et%N.eqb_neq Em. rewrite Et, Em in Hc. cbn [andb] in Hc.
    by destruct (N.ltb_spec (StateView.getTokenBalance (Transaction.from tx) (Transaction.token_id tx) view) (Transaction.amount tx)).
Qed.

(** An admitted transaction passes the executor's prechecks when its turn comes. *)
Lemma admitted_passes tx view tier ctx x : validate tx view tier = inr x ->
  Transaction.nonce tx = Account.nonce (StateView.getAccount (Transaction.from tx) view) ->
  Ctx.chain_id ctx = StateView.chainId view -> checkExpiry tx ctx = true ->
  admitted tx ctx (StateView.access view) = true.
Proof.
  destruct x as [rate sz]. intros (Hw & Hch & Hsig & _ & _ & _ & _ & _ & Hst)%validate_inv Hn Hctx He.
  apply checkState_inv in Hst as (_ & (Hf & _)%checkFunds_inv & _).
  unfold admitted. rewrite Hw, Hctx, Hch, He, Hsig, N.eqb_refl. unfold verifyNonce. cbn.
  change (getAccount _ (StateView.access view)) with (StateView.getAccount (Transaction.from tx) view).
  rewrite Hn, N.eqb_refl. by apply N.leb_le.
Qed.

(** What admission leaves to the executor, for the types whose handlers it mirrors. *)
Definition leftToExecutor (tx : Transaction.t) : bool :=
  match Transaction.tx_type tx with
  | TxType.Transfer => negb (Transaction.amount tx =? 0) && negb (isNull (Transaction.to tx)) &&
                       (Transaction.amount tx + Transaction.fee tx <? w64)
  | TxType.MintToken | TxType.BurnToken => negb (Transaction.amount tx =? 0)
  | TxType.OptInStaking | TxType.OptOutStaking | TxType.ClaimRewards => true
  | _ => false
  end.

(** Taking the fee leaves tokens and token balances alone. *)
Lemma charged_tokens tx st a k :
  getToken k (charged tx st) = getToken k st /\ getTokenSupply k (charged tx st) = getTokenSupply k st /\
  getTokenBalance a k (charged tx st) = getTokenBalance a k st.
Proof.
  unfold charged. split_and!; [..|apply getTokenBalance_putAccount];
    unfold getToken, getTokenSupply, putAccount, maintainStakerCount, maintainTotalStaked, indexNativeBalance;
    by repeat case_match.
Qed.

Lemma charged_balance tx st : Transaction.fee tx <= Account.balance (getAccount (Transaction.from tx) st) ->
  Account.balance (getAccount (Transaction.from tx) st) < w64 ->
  Account.balance (getAccount (Transaction.from tx) (charged tx st)) =
  Account.balance (getAccount (Transaction.from tx) st) - Transaction.fee tx.
Proof.
  intros Hf Hb. unfold charged. rewrite getAccount_putAccount, N.eqb_refl.
  rewrite (proj2 (staked_accountToStore _ _ _)). cbn. by apply sub64_id.
Qed.

(** A handler that ends normally. *)
Definition succeeds (h : Handler) (st : State) : Prop := exists fills st', h st = (Ok fills, st').

Lemma transfer_succeeds tx ctx st : Transaction.amount tx <> 0 -> isNull (Transaction.to tx) = false ->
  hasTokens (Transaction.from tx) (Transaction.token_id tx) (Transaction.amount tx) st = true ->
  succeeds (executeTransfer tx ctx) st.
Proof.
  intros Ha%N.eqb_neq Ht Hh. unfold succeeds, executeTransfer, require, gets, modify, success, mbind, Exec_bind, mret, Exec_ret.
  unfold hasTokens in Hh. rewrite Ha, Ht. cbn [negb]. destruct (_ =? NATIVE_TOKEN_ID); rewrite Hh; eauto.
Qed.

Lemma burn_succeeds tx ctx st : Transaction.amount tx <> 0 -> Transaction.token_id tx <> NATIVE_TOKEN_ID ->
  Transaction.amount tx <= getTokenBalance (Transaction.from tx) (Transaction.token_id tx) st ->
  succeeds (executeBurnToken tx ctx) st.
Proof.
  intros Ha%N.eqb_neq Ht%N.eqb_neq Hh%N.leb_le.
  unfold succeeds, executeBurnToken, require, gets, modify, success, mbind, Exec_bind, mret, Exec_ret.
  rewrite Ha, Ht, Hh. cbn [negb]. eauto.
Qed.

Lemma mint_succeeds tx ctx st token : Transaction.amount tx <> 0 -> Transaction.token_id tx <> NATIVE_TOKEN_ID ->
  getToken (Transaction.token_id tx) st = Some token -> TokenInfo.creator token = Transaction.from tx ->
  (0 < TokenInfo.maxSupply token ->
   getTokenSupply (Transaction.token_id tx) st + Transaction.amount tx <= TokenInfo.maxSupply token) ->
  succeeds (executeMintToken tx ctx) st.
Proof.
  intros Ha%N.eqb_neq Ht%N.eqb_neq Htok Hc%N.eqb_eq Hcap.
  unfold succeeds, executeMintToken, fetch, require, gets, modify, success, mbind, Exec_bind, mret, Exec_ret.
  rewrite Ha, Ht, Htok, Hc. cbn [negb].
  destruct (N.ltb_spec 0 (TokenInfo.maxSupply token)) as [H0|_]; cbn [andb negb]; [|eauto].
  destruct (N.ltb_spec (TokenInfo.maxSupply token) (getTokenSupply (Transaction.token_id tx) st +64 Transaction.amount tx)).
  - pose proof (add64_le (getTokenSupply (Transaction.token_id tx) st) (Transaction.amount tx)). specialize (Hcap H0). lia.
  - cbn [negb]. eauto.
Qed.

Lemma staking_succeeds tx ctx st : succeeds (executeOptInStaking tx ctx) st /\
  succeeds (executeOptOutStaking tx ctx) st /\ succeeds (executeClaimRewards tx ctx) st.
Proof.
  unfold succeeds, executeOptInStaking, executeOptOutStaking, executeClaimRewards, gets, modify, success,
    mbind, Exec_bind, mret, Exec_ret. split_and!; eauto.
Qed.

Lemma checkToken_inv tx view : checkToken tx view = None ->
  Transaction.token_id tx <> NATIVE_TOKEN_ID /\ exists token,
    StateView.getToken (Transaction.token_id tx) view = Some token /\
    (Transaction.tx_type tx = TxType.MintToken -> TokenInfo.creator token = Transaction.from tx /\
      (0 < TokenInfo.maxSupply token ->
       StateView.getTokenSupply (Transaction.token_id tx) view + Transaction.amount tx <= TokenInfo.maxSupply token)).
Proof.
  unfold checkToken. destruct (N.eqb_spec (Transaction.token_id tx) NATIVE_TOKEN_ID); [done|].
  destruct (StateView.getToken _ view) as [token|]; [|done]. intros Hc. split; [done|]. exists token. split; [done|].
  intros E. rewrite E in Hc. rewrite bool_decide_eq_true_2 in Hc by done. cbn [orb andb] in Hc.
  destruct (N.eqb_spec (TokenInfo.creator token) (Transaction.from tx)); [|done]. cbn [negb] in Hc. split; [done|].
  intros H0%N.ltb_lt. rewrite H0 in Hc.
  destruct (N.ltb_spec (TokenInfo.maxSupply token) (Transaction.amount tx)); [done|]. cbn [orb] in Hc.
  destruct (N.ltb_spec (TokenInfo.maxSupply token -64 Transaction.amount tx) (StateView.getTokenSupply (Transaction.token_id tx) view)); [done|].
  pose proof (sub64_le (TokenInfo.maxSupply token) (Transaction.amount tx)). lia.
Qed.

(** C18: an admitted transaction executes.  When a transaction that [validate] accepts
    has its sender's current nonce, is not expired in the block's context, and is
    one of those whose handler admission mirrors (a transfer of a positive amount
    to an address with a sum that fits 64 bits, a mint or a burn of a positive
    amount, staking opt-in, opt-out, a claim), then [execute] on the state it was
    checked against ends with a success receipt. *)
Theorem admitted_executes tx view tier ctx x :
  validate tx view tier = inr x ->
  Transaction.nonce tx = Account.nonce (StateView.getAccount (Transaction.from tx) view) ->
  Account.balance (StateView.getAccount (Transaction.from tx) view) < w64 ->
  Ctx.chain_id ctx = StateView.chainId view -> checkExpiry tx ctx = true -> leftToExecutor tx = true ->
  exists r st', execute tx ctx (StateView.access view) = (Ok r, st') /\ Receipt.status r = ReceiptStatus.Success.
Proof.
  intros Hv Hn Hb Hctx He Hleft. pose proof (admitted_passes tx view tier ctx x Hv Hn Hctx He) as Hadm.
  destruct x as [rate sz]. apply validate_inv in Hv as (_ & _ & _ & _ & _ & _ & _ & _ & Hst).
  apply checkState_inv in Hst as (_ & Hfunds & Htok). apply checkFunds_inv in Hfunds as (Hfee & Hnat & Hmov).
  set (st := StateView.access view) in *.
  change (StateView.getAccount (Transaction.from tx) view) with (getAccount (Transaction.from tx) st) in *.
  destruct (charged_tokens tx st (Transaction.from tx) (Transaction.token_id tx)) as (Et & Es & Eb).
  pose proof (charged_balance tx st Hfee Hb) as Ebal.
  enough (exists h, dispatch (Transaction.tx_type tx) = Some h /\ succeeds (h tx ctx) (charged tx st)) as (h & Hd & fs & st' & Eh).
  { unfold execute. rewrite executeBody_run, Hadm, Hd, Eh. eauto. }
  unfold leftToExecutor in Hleft. destruct (Transaction.tx_type tx) eqn:Ety; try done; (eexists; split; [reflexivity|]).
  - apply andb_true_iff in Hleft as [[Ha%negb_true_iff%N.eqb_neq Ht%negb_true_iff]%andb_true_iff Hsum%N.ltb_lt].
    apply transfer_succeeds; [done|done|]. unfold hasTokens. destruct (N.eqb_spec (Transaction.token_id tx) NATIVE_TOKEN_ID) as [E|E].
    + specialize (Hnat E eq_refl). rewrite add64_id in Hnat by done. rewrite Ebal. apply N.leb_le. lia.
    + rewrite Eb. apply N.leb_le. by apply Hmov.
  - exact (proj1 (staking_succeeds tx ctx (charged tx st))).
  - exact (proj1 (proj2 (staking_succeeds tx ctx (charged tx st)))).
  - exact (proj2 (proj2 (staking_succeeds tx ctx (charged tx st)))).
  - apply negb_true_iff, N.eqb_neq in Hleft. destruct (checkToken_inv tx view (Htok (or_introl eq_refl))) as (Hne & token & Hg & Hm).
    destruct (Hm Ety) as [Hc Hcap]. apply (mint_succeeds tx ctx _ token); try done; [by rewrite Et|by rewrite Es].
  - apply negb_true_iff, N.eqb_neq in Hleft. destruct (checkToken_inv tx view (Htok (or_intror eq_refl))) as (Hne & token & Hg & _).
    apply burn_succeeds; [done|done|]. rewrite Eb. by apply Hmov.
Qed.
(** ** Sums that wrap *)

(** A native transfer whose amount and fee together do not fit 64 bits. *)
Record wraps (tx : Transaction.t) : Prop := {
  wr_type : Transaction.tx_type tx = TxType.Transfer;
  wr_native : Transaction.token_id tx = NATIVE_TOKEN_ID;
  wr_amount : Transaction.amount tx < w64;
  wr_fee : Transaction.fee tx < w64;
  wr_sum : w64 <= Transaction.amount tx + Transaction.fee tx;
}.

(** The wrapped sum is less than the fee: the check of the funds is a check of
    the fee. *)
Lemma wraps_checkFunds tx view : wraps tx ->
  checkFunds tx view =
  if Transaction.fee tx <=? Account.balance (StateView.getAccount (Transaction.from tx) view) then None
  else Some Rejected_InsufficientFunds.
Proof.
  intros [Ht Hn Ha Hf Hs]. unfold checkFunds. rewrite Ht, Hn, N.eqb_refl. cbn [txMovesNativeFromSender andb].
  assert (Hw : Transaction.amount tx +64 Transaction.fee tx < Transaction.fee tx).
  { unfold add64, u64. rewrite <- (N.Div0.mod_add _ 1), N.mul_1_l.
    replace (Transaction.amount tx + Transaction.fee tx + w64) with
      (Transaction.amount tx + Transaction.fee tx - w64 + 2 * w64) by lia.
    rewrite N.Div0.mod_add, N.mod_small by lia. lia. }
  set (balance := Account.balance _). destruct (N.leb_spec (Transaction.fee tx) balance).
  - rewrite (proj2 (N.ltb_ge balance (Transaction.fee tx))) by done. rewrite andb_false_r.
    by rewrite (proj2 (N.ltb_ge balance _)) by lia.
  - rewrite (proj2 (N.ltb_lt 0 (Transaction.fee tx))) by lia. by rewrite (proj2 (N.ltb_lt balance _)).
Qed.

(** The checks of [validate] on a transfer, but for the funds. *)
Record passable (tx : Transaction.t) (view : StateView.t) (tier : FeeTier.t) : Prop := {
  pa_wellFormed : Transaction.isWellFormed tx = true;
  pa_chain : Transaction.chain_id tx = StateView.chainId view;
  pa_size : u32 (serializedSize tx) <= MAX_TX_SIZE;
  pa_signature : verifySignature tx = true;
  pa_expiry : Transaction.valid_until_height tx = 0 \/
    StateView.currentHeight view <= Transaction.valid_until_height tx;
  pa_rate : MIN_FEE_PER_BYTE <= computeFeeRate tx tier <= MAX_FEE_RATE;
  pa_nonce : Account.nonce (StateView.getAccount (Transaction.from tx) view) <= Transaction.nonce tx;
}.

Lemma wraps_validate tx view tier : wraps tx -> passable tx view tier ->
  validate tx view tier =
  if Transaction.fee tx <=? Account.balance (StateView.getAccount (Transaction.from tx) view)
  then inr (computeFeeRate tx tier, u32 (serializedSize tx)) else inl Rejected_InsufficientFunds.
Proof.
  intros Hw [Hwf Hc Hsz Hsig He [Hlo Hhi] Hn]. unfold validate. rewrite Hwf, Hc, N.eqb_refl. cbn [negb].
  rewrite (proj2 (N.ltb_ge _ _) Hsz). unfold verifySignature in Hsig. rewrite Hsig. cbn [negb].
  replace (negb _ && _) with false; cycle 1.
  { symmetry. apply andb_false_iff. destruct He as [->|He%N.ltb_ge]; [by left|by right]. }
  rewrite (proj2 (N.ltb_ge _ _) Hlo), (proj2 (N.ltb_ge _ _) Hhi). unfold checkState.
  rewrite (wr_type tx Hw), (proj2 (N.ltb_ge _ _) Hn), wraps_checkFunds by done. cbn. by destruct (_ <=? _).
Qed.

Lemma roomFor_room `{MapOrder} e p : Entry.tx_size e <= MAX_TX_SIZE ->
  poolSize p < MAX_MEMPOOL_TXS -> total_bytes_ p + MAX_TX_SIZE <= MAX_MEMPOOL_BYTES -> roomFor e p = (true, p).
Proof.
  intros He Hps Hb. assert (MAX_MEMPOOL_BYTES < w64) by reflexivity. unfold roomFor.
  rewrite (proj2 (N.leb_gt _ _) Hps), add64_id by lia. by rewrite (proj2 (N.ltb_ge _ _)) by lia.
Qed.

(** A transaction that [validate] accepts enters a pool with room for it. *)
Lemma add_accepts `{MapOrder} tx view tier nowMs p rate size :
  validate tx view tier = inr (rate, size) -> size <= MAX_TX_SIZE ->
  nonce_index_ p !! nonceKeyOf tx = None -> entries_ p !! txidOf tx = None ->
  poolSize p < MAX_MEMPOOL_TXS -> total_bytes_ p + MAX_TX_SIZE <= MAX_MEMPOOL_BYTES ->
  fst (add tx view tier nowMs p) = Accepted /\ get (txidOf tx) (snd (add tx view tier nowMs p)) = Some tx.
Proof.
  intros Hv Hsz Hni He Hps Hb. unfold add, addImpl, resolveNonce. rewrite Hv, Hni.
  rewrite roomFor_room by done. cbn [negb fst snd]. split; [done|].
  unfold get, insertEntry, emplace. cbn. rewrite He. destruct (loading_ p); cbn.
  - by rewrite lookup_insert_eq.
  - unfold persistEntry. cbn. repeat case_match; cbn; by rewrite lookup_insert_eq.
Qed.

(** The executor refuses a transfer that wraps, whatever its context. *)
Lemma wraps_refused tx ctx st : wraps tx -> Account.balance (getAccount (Transaction.from tx) st) < w64 ->
  exists st', execute tx ctx st = (Ok (Receipt.mk ReceiptStatus.Failure (Transaction.fee tx) []), st').
Proof.
  intros [Ht Hn Ha Hf Hs] Hb. unfold execute. rewrite executeBody_run.
  destruct (admitted tx ctx st) eqn:Hadm; [|by eexists]. unfold admitted in Hadm.
  apply andb_true_iff in Hadm as [_ Hfee%N.leb_le]. rewrite Ht. cbn [dispatch].
  unfold executeTransfer, require, gets, mbind, Exec_bind, mret, Exec_ret, fail.
  destruct (negb _); [|by eexists]. destruct (negb _); [|by eexists]. rewrite Hn, N.eqb_refl.
  rewrite charged_balance by done. rewrite (proj2 (N.leb_gt _ _)) by lia. by eexists.
Qed.

(** C21: a transfer the sender cannot pay is admitted when amount and fee wrap.
    The pool compares the balance with the 64-bit sum of amount and fee.  Take any
    native transfer whose sum is 2^64 or more, so that no balance covers it, that
    passes the pool's other checks, and a pool with room for it and no entry of
    its nonce: it is admitted, and is in the pool afterwards, exactly when the
    sender can pay the fee alone, however large the amount; and the executor
    refuses it in every context, with a failure receipt. *)
Theorem wrapping_transfer_admitted `{MapOrder} tx view tier nowMs p :
  wraps tx -> passable tx view tier ->
  Account.balance (StateView.getAccount (Transaction.from tx) view) < w64 ->
  nonce_index_ p !! nonceKeyOf tx = None -> entries_ p !! txidOf tx = None ->
  poolSize p < MAX_MEMPOOL_TXS -> total_bytes_ p + MAX_TX_SIZE <= MAX_MEMPOOL_BYTES ->
  let '(result, p') := add tx view tier nowMs p in
  let balance := Account.balance (StateView.getAccount (Transaction.from tx) view) in
  (result = Accepted <-> Transaction.fee tx <= balance) /\
  (Transaction.fee tx <= balance -> get (txidOf tx) p' = Some tx) /\
  (balance < Transaction.fee tx -> result = Rejected_InsufficientFunds) /\
  forall ctx, exists st', execute tx ctx (StateView.access view) =
    (Ok (Receipt.mk ReceiptStatus.Failure (Transaction.fee tx) []), st').
Proof.
  intros Hw Hp Hb Hni He Hps Hroom. pose proof (wraps_validate tx view tier Hw Hp) as Hv.
  pose proof (fun ctx => wraps_refused tx ctx (StateView.access view) Hw Hb) as Hx.
  destruct (N.leb_spec (Transaction.fee tx) (Account.balance (StateView.getAccount (Transaction.from tx) view))).
  - destruct (add_accepts tx view tier nowMs p _ _ Hv (pa_size _ _ _ Hp) Hni He Hps Hroom) as [Ea Eg].
    destruct (add tx view tier nowMs p) as [r p']. cbn [fst snd] in *. split_and!; [done|done|lia|done].
  - unfold add, addImpl. rewrite Hv. split_and!; [|lia|done|done]. split; [done|lia].
Qed.
End executes.

(** ** A pool *)

#[local] Instance poolOrder : MapOrder := { entries V m := map_to_list m; entries_perm V m := Permutation_refl _ }.

Definition tip : StateView.t := StateView.mk genesis 100 1.

Definition payment (nonce from fee : N) : Transaction.t :=
  Transaction.mk CURRENT_TRANSACTION_VERSION 1 TxType.Transfer nonce 0 from bob NATIVE_TOKEN_ID 500 fee [] (replicate 64 0).

(** Alice pays twice, the second time at a better rate; Bob pays himself. *)
Definition offeredTxs : list Transaction.t := [payment 0 alice 200; payment 1 alice 900; payment 0 bob 400].

Definition samplePool : Mempool :=
  foldl (fun p tx => snd (add tx tip FeeTier.Standard 7 p)) (attach ∅ emptyPool) offeredTxs.

Lemma offered_distinct : collisionFreeOn (signingInput <$> offeredTxs).
Proof. apply distinctDigests_ok. vm_compute. reflexivity. Qed.

Lemma offered_wf tx : tx ∈ offeredTxs -> TransactionCodec.wf tx.
Proof.
  intros Htx. assert (Hw : Forall TransactionCodec.wf offeredTxs).
  { repeat constructor. }
  by rewrite Forall_forall in Hw; apply Hw.
Qed.

Lemma samplePool_run : rtc (act offeredTxs) (attach ∅ emptyPool) samplePool.
Proof.
  assert (Hrun : forall l p, (forall tx, tx ∈ l -> tx ∈ offeredTxs) ->
    rtc (act offeredTxs) p (foldl (fun p tx => snd (add tx tip FeeTier.Standard 7 p)) p l)).
  { induction l as [|tx l IH]; intros p Hl; cbn [foldl]; [apply rtc_refl|].
    eapply rtc_l; [|apply IH; intros tx' H'; apply Hl, elem_of_cons; by right].
    assert (tx ∈ offeredTxs) by (apply Hl, elem_of_cons; by left). apply act_add; [done|by apply offered_wf|done]. }
  by apply Hrun.
Qed.

Definition sampleRows : gmap Hash bytes := default ∅ (db_ samplePool).

Lemma samplePool_db : db_ samplePool = Some sampleRows.
Proof.
  unfold sampleRows. destruct (db_ samplePool) as [t|] eqn:E; [done|].
  assert (Hs : bool_decide (is_Some (db_ samplePool)) = true) by (vm_compute; reflexivity). by rewrite E in Hs.
Qed.

(** The chain after Alice's first payment. *)
Definition nextTip : StateView.t := StateView.mk (snd (execute (payment 0 alice 200) ctx0 genesis)) 101 1.

Lemma pool_consistent_witness :
  let p := initMempool nextTip (fun _ => 9) (attach sampleRows emptyPool) in
  PoolOk offeredTxs p /\ loading_ p = false.
Proof.
  intros p. apply (pool_consistent offeredTxs offered_distinct p).
  eapply rtc_r.
  - eapply (rtc_congruence id); [|exact samplePool_run]. intros x y. apply step_act.
  - apply step_restart; [exact samplePool_db|done].
Defined.

Lemma restart_keeps_valid_witness :
  let p := initMempool nextTip (fun _ => 9) (attach sampleRows emptyPool) in
  pending p = filter (fun kv => admissible nextTip (snd kv) = true) (pending samplePool) /\ Mirrored p.
Proof.
  apply (restart_keeps_valid offeredTxs offered_distinct samplePool sampleRows nextTip (fun _ => 9)).
  - exact samplePool_run.
  - exact samplePool_db.
  - vm_compute. discriminate.
  - reflexivity.
Defined.

Lemma samplePool_ok : PoolOk offeredTxs samplePool.
Proof. apply (acts_ok offeredTxs offered_distinct). exact samplePool_run. Qed.

Lemma samplePool_nonces id e : entries_ samplePool !! id = Some e -> Transaction.nonce (Entry.tx e) + 1 < w64.
Proof.
  assert (Hall : map_Forall (fun _ e => Transaction.nonce (Entry.tx e) + 1 < w64) (entries_ samplePool)).
  { apply (bool_decide_unpack _). vm_compute. exact I. }
  apply Hall.
Qed.

Lemma selection_sound_witness :
  exists txs, selectForBlock samplePool tip 400 10 = Some txs /\
    totalSize txs <= 400 /\ N.of_nat (length txs) <= 10 /\ NoDup txs /\
    (forall tx, tx ∈ txs -> get (txidOf tx) samplePool = Some tx) /\
    (forall a, Transaction.nonce <$> fromOf a txs =
       (fun i => Account.nonce (StateView.getAccount a tip) + N.of_nat i) <$> seq 0 (length (fromOf a txs))).
Proof. apply (selection_sound offeredTxs samplePool tip samplePool_ok samplePool_nonces 400 10). discriminate. Defined.

Definition selectedTxs : list Transaction.t := default [] (selectForBlock samplePool tip 400 10).

(** Alice's second payment has the best rate, waits for the first, and then does
    not fit. *)
Example selectedTxs_are :
  (fun tx => (Transaction.from tx, Transaction.nonce tx)) <$> selectedTxs = [(bob, 0); (alice, 0)].
Proof. vm_compute. reflexivity. Qed.

Definition secondPayment : Entry.t := Entry.mk (payment 1 alice 900) FeeTier.Standard 5 2 7 179.

Lemma selection_complete_witness :
  ~ (Transaction.nonce (payment 1 alice 900) =
       Account.nonce (StateView.getAccount alice tip) + N.of_nat (length (fromOf alice selectedTxs)) /\
     totalSize selectedTxs + serializedSize (payment 1 alice 900) <= 400 /\ N.of_nat (length selectedTxs) < 10).
Proof.
  apply (selection_complete offeredTxs samplePool tip samplePool_ok samplePool_nonces 400 10 selectedTxs
    (txidOf (payment 1 alice 900)) secondPayment).
  - discriminate.
  - vm_compute. reflexivity.
  - vm_compute. reflexivity.
  - reflexivity.
Defined.

Lemma admitted_executes_witness :
  exists r st', execute (payment 0 alice 200) ctx0 genesis = (Ok r, st') /\ Receipt.status r = ReceiptStatus.Success.
Proof.
  apply (admitted_executes (payment 0 alice 200) tip FeeTier.Standard ctx0 (1, 179)); try reflexivity; vm_compute; reflexivity.
Defined.

Lemma order_check_agrees_witness : bool_decide (validateOrderPayload offer = Accepted) = validateCreateOrderStructure offer.
Proof. apply order_check_agrees. reflexivity. Defined.

(** Amount and fee add up to 100. *)
Definition wrapping : Transaction.t :=
  Transaction.mk CURRENT_TRANSACTION_VERSION 1 TxType.Transfer 0 0 alice bob NATIVE_TOKEN_ID (w64 - 100) 200 []
    (replicate 64 0).

Lemma wrapping_transfer_admitted_witness :
  fst (add wrapping tip FeeTier.Standard 7 emptyPool) = Accepted /\
  exists st', execute wrapping ctx0 genesis = (Ok (Receipt.mk ReceiptStatus.Failure 200 []), st').
Proof.
  pose proof (wrapping_transfer_admitted wrapping tip FeeTier.Standard 7 emptyPool) as H.
  destruct (add wrapping tip FeeTier.Standard 7 emptyPool) as [result p'].
  destruct H as (Hr & _ & _ & Hx).
  - split; vm_compute; try reflexivity; discriminate.
  - split; try (vm_compute; reflexivity); try (vm_compute; discriminate).
    + left. reflexivity.
    + split; vm_compute; discriminate.
  - vm_compute. reflexivity.
  - reflexivity.
  - reflexivity.
  - vm_compute. reflexivity.
  - vm_compute. discriminate.
  - split; [apply Hr; vm_compute; discriminate|exact (Hx ctx0)].
Defined.

(** It is then selected for a block. *)
Example wrapping_selected :
  selectForBlock (snd (add wrapping tip FeeTier.Standard 7 emptyPool)) tip 1000 10 = Some [wrapping].
Proof. vm_compute. reflexivity. Qed.

(** A priority transaction larger than half the block is not selected, though the
    block is empty; the same transaction in the standard tier is. *)
Example priority_left_out :
  let tx := payment 0 alice 200 in
  let p tier := snd (add tx tip tier 7 emptyPool) in
  selectForBlock (p FeeTier.Priority) tip 300 10 = Some [] /\
  selectForBlock (p FeeTier.Standard) tip 300 10 = Some [tx].
Proof. vm_compute. split; reflexivity. Qed.
