(* ===== verification/Bech32.v ===== *)
(** * Bech32m addresses

    src/src/Crypto/Bech32.cpp and src/src/Wallet/AddressCodec.cpp: the checksum, the
    conversion between bytes and 5-bit groups, encoding and decoding of strings, and
    the address format over them.  A string is the list of its character codes.

    The facts about them are in Bech32Theorems. *)

From S2P Require Import Prelude Types.

Definition BECH32_CHECKSUM_LENGTH : nat := 6.
Definition BECH32_MAX_LENGTH : nat := 90.
Definition BECH32_MAX_HRP_LENGTH : nat := 83.

Module Bech32Encoding.
Inductive t : Set := Bech32 | Bech32m.

#[global] Instance eq_dec : EqDecision t.
Proof. solve_decision. Defined.
End Bech32Encoding.

(** [Ok] is the right side of the decoder's result. *)
Module Bech32Error.
Inductive t : Set :=
| Empty | TooLong | InvalidHrpLength | InvalidHrpCharacter | MixedCase | NoSeparator
| InvalidDataCharacter | ChecksumMismatch | InvalidPadding.
End Bech32Error.

Definition CHARSET : bytes := ascii_bytes "qpzry9x8gf2tvdw0s3jn54khce6mua7l".

(** [CHARSET_REV]: the value of a character, if it has one. *)
Definition charsetRev (c : N) : option N := N.of_nat ∘ fst <$> list_find (fun x => x = c) CHARSET.

Definition charOf (v : N) : N := nth (N.to_nat v) CHARSET 0.

Definition BECH32_CONST : N := 1.
Definition BECH32M_CONST : N := 0x2bc830a3.

Definition GEN : list N := [0x3b6a57b2; 0x26508e6d; 0x1ea119fa; 0x3d4233dd; 0x2a1462b3].

(** [for (i...) if ((top >> i) & 1) chk ^= GEN[i];] *)
Definition mixTop (top chk : N) : N :=
  snd (foldl (fun '(i, chk) g => (i + 1, if N.testbit top i then N.lxor chk g else chk)) (0, chk) GEN).

Definition polymodStep (chk v : N) : N :=
  let top := u8 (N.shiftr chk 25) in
  mixTop top (N.lxor (u32 (N.shiftl (N.land chk 0x1ffffff) 5)) v).

Definition polymod (values : bytes) : N := foldl polymodStep 1 values.

Definition hrpExpand (hrp : bytes) : bytes :=
  map (fun c => N.shiftr c 5) hrp ++ [0] ++ map (fun c => N.land c 0x1f) hrp.

Definition checksumConst (encoding : Bech32Encoding.t) : N :=
  match encoding with Bech32Encoding.Bech32m => BECH32M_CONST | Bech32Encoding.Bech32 => BECH32_CONST end.

Definition validHrpChar (c : N) : bool := (33 <=? c) && (c <=? 126).
Definition isLower (c : N) : bool := (97 <=? c) && (c <=? 122).
Definition isUpper (c : N) : bool := (65 <=? c) && (c <=? 90).
Definition hasLower (s : bytes) : bool := existsb isLower s.
Definition hasUpper (s : bytes) : bool := existsb isUpper s.
Definition toLower (c : N) : N := if isUpper c then c - 65 + 97 else c.

(** ** Groups of bits *)

(** [while (bits >= width) { bits -= width; out.push_back((acc >> bits) & mask); }]:
    what is pushed, and the bits left. *)
Fixpoint emit (fuel width : nat) (acc : N) (bits : nat) : bytes * nat :=
  match fuel with
  | O => ([], bits)
  | S fuel =>
    if (bits <? width)%nat then ([], bits)
    else
      let bits := (bits - width)%nat in
      let '(out, rest) := emit fuel width acc bits in
      (N.land (N.shiftr acc (N.of_nat bits)) (N.ones (N.of_nat width)) :: out, rest)
  end.

(** The loop over the input: groups of [from] bits become groups of [width].  As
    many steps as bits are pending suffice for the inner loop. *)
Fixpoint regroup (from width : nat) (input : bytes) (acc : N) (bits : nat) : bytes * N * nat :=
  match input with
  | [] => ([], acc, bits)
  | v :: input =>
    let acc := N.lor (u32 (N.shiftl acc (N.of_nat from))) v in
    let bits := (bits + from)%nat in
    let '(out, bits) := emit bits width acc bits in
    let '(out', acc, bits) := regroup from width input acc bits in
    (out ++ out', acc, bits)
  end.

Definition leftover (acc : N) (bits : nat) : N := N.land acc (N.ones (N.of_nat bits)).

Definition convertBitsTo5 (input : bytes) (pad : bool) : option bytes :=
  let '(out, acc, bits) := regroup 8 5 input 0 0 in
  if (0 <? bits)%nat then
    if pad then Some (out ++ [N.land (u32 (N.shiftl acc (N.of_nat (5 - bits)))) 0x1f])
    else if negb (leftover acc bits =? 0) then None else Some out
  else Some out.

Definition convertBitsFrom5 (input : bytes) (pad : bool) : option bytes :=
  if existsb (fun v => 31 <? v) input then None
  else
    let '(out, acc, bits) := regroup 5 8 input 0 0 in
    if (0 <? bits)%nat then
      if pad then Some (out ++ [N.land (u32 (N.shiftl acc (N.of_nat (8 - bits)))) 0xff])
      else if negb (leftover acc bits =? 0) then None
      else if (5 <=? bits)%nat then None else Some out
    else Some out.

(** ** Strings *)

Definition checksumOf (value : N) : bytes :=
  map (fun i => N.land (N.shiftr value (5 * (5 - i))) 0x1f) [0; 1; 2; 3; 4; 5].

(** [[]] is failure. *)
Definition bech32Encode (hrp data : bytes) (encoding : Bech32Encoding.t) : bytes :=
  if bool_decide (hrp = []) || (BECH32_MAX_HRP_LENGTH <? length hrp)%nat then []
  else if negb (forallb validHrpChar hrp) then []
  else match convertBitsTo5 data true with
  | None => []
  | Some data5 =>
    if (BECH32_MAX_LENGTH <? length hrp + 1 + length data5 + BECH32_CHECKSUM_LENGTH)%nat then []
    else
      let values := hrpExpand hrp ++ data5 ++ replicate BECH32_CHECKSUM_LENGTH 0 in
      let polymod_val := N.lxor (polymod values) (checksumConst encoding) in
      hrp ++ [49] ++ map charOf data5 ++ map charOf (checksumOf polymod_val)
  end.

(** [rfind('1')]: the characters before the last ['1'] and those after it. *)
Fixpoint splitLast (s : bytes) : option (bytes * bytes) :=
  match s with
  | [] => None
  | c :: s =>
    match splitLast s with
    | Some (a, b) => Some (c :: a, b)
    | None => if c =? 49 then Some ([], s) else None
    end
  end.

Definition verifyWith (hrp data5 : bytes) (enc : Bech32Encoding.t) : bool :=
  polymod (hrpExpand hrp ++ data5) =? checksumConst enc.

Definition bech32Decode (input : bytes) : Bech32Error.t + (bytes * bytes * Bech32Encoding.t) :=
  if bool_decide (input = []) then inl Bech32Error.Empty
  else if (BECH32_MAX_LENGTH <? length input)%nat then inl Bech32Error.TooLong
  else if hasLower input && hasUpper input then inl Bech32Error.MixedCase
  else match splitLast (map toLower input) with
  | None => inl Bech32Error.NoSeparator
  | Some (hrp, data) =>
    if bool_decide (hrp = []) || (BECH32_MAX_HRP_LENGTH <? length hrp)%nat then inl Bech32Error.InvalidHrpLength
    else if (length data <? BECH32_CHECKSUM_LENGTH)%nat then inl Bech32Error.InvalidHrpLength
    else if negb (forallb validHrpChar hrp) then inl Bech32Error.InvalidHrpCharacter
    else match mapM charsetRev data with
    | None => inl Bech32Error.InvalidDataCharacter
    | Some data5 =>
      let matched :=
        if verifyWith hrp data5 Bech32Encoding.Bech32m then Some Bech32Encoding.Bech32m
        else if verifyWith hrp data5 Bech32Encoding.Bech32 then Some Bech32Encoding.Bech32 else None in
      match matched with
      | None => inl Bech32Error.ChecksumMismatch
      | Some enc =>
        match convertBitsFrom5 (take (length data5 - BECH32_CHECKSUM_LENGTH) data5) false with
        | None => inl Bech32Error.InvalidPadding
        | Some out => inr (out, hrp, enc)
        end
      end
    end
  end.

(** ** Addresses *)

Module Network.
Inductive t : Set := Mainnet | Testnet | Regtest.

#[global] Instance eq_dec : EqDecision t.
Proof. solve_decision. Defined.
End Network.

Definition ADDRESS_WITNESS_VERSION : N := 0.
Definition ADDRESS_PUBKEY_LENGTH : nat := 32.

Definition hrpForNetwork (n : Network.t) : bytes :=
  ascii_bytes match n with
  | Network.Mainnet => "clrty"
  | Network.Testnet => "tclrty"
  | Network.Regtest => "rclrty"
  end.

Definition networkForHrp (hrp : bytes) : option Network.t :=
  if bool_decide (hrp = hrpForNetwork Network.Mainnet) then Some Network.Mainnet
  else if bool_decide (hrp = hrpForNetwork Network.Testnet) then Some Network.Testnet
  else if bool_decide (hrp = hrpForNetwork Network.Regtest) then Some Network.Regtest
  else None.

Definition buildPayload (addr : Address) : bytes :=
  ADDRESS_WITNESS_VERSION :: be_split ADDRESS_PUBKEY_LENGTH addr.

Definition addressFromPayload (payload : bytes) : option Address :=
  match payload with
  | version :: key =>
    if negb (length key =? ADDRESS_PUBKEY_LENGTH)%nat then None
    else if negb (version =? ADDRESS_WITNESS_VERSION) then None
    else
      let addr := be_combine key in
      if isNull addr then None else Some addr
  | [] => None
  end.

(** [encodeAddress] with a prefix of the caller's; [[]] is failure. *)
Definition encodeAddressHrp (addr : Address) (hrp : bytes) : bytes :=
  if isNull addr then []
  else if bool_decide (hrp = []) then []
  else bech32Encode hrp (buildPayload addr) Bech32Encoding.Bech32m.

Definition encodeAddress (addr : Address) (network : Network.t) : bytes :=
  encodeAddressHrp addr (hrpForNetwork network).

Definition decodeAddress (s : bytes) (expected_network : Network.t) : option Address :=
  if bool_decide (s = []) then None
  else match bech32Decode s with
  | inl _ => None
  | inr (payload, hrp, encoding) =>
    if negb (bool_decide (encoding = Bech32Encoding.Bech32m)) then None
    else if negb (bool_decide (hrp = hrpForNetwork expected_network)) then None
    else addressFromPayload payload
  end.

Definition decodeAddressAnyNetwork (s : bytes) : option (Address * Network.t) :=
  if bool_decide (s = []) then None
  else match bech32Decode s with
  | inl _ => None
  | inr (payload, hrp, encoding) =>
    if negb (bool_decide (encoding = Bech32Encoding.Bech32m)) then None
    else match networkForHrp hrp with
    | None => None
    | Some net =>
      match addressFromPayload payload with
      | None => None
      | Some addr => Some (addr, net)
      end
    end
  end.

Definition isPlausibleAddress (s : bytes) : bool :=
  if decodeAddressAnyNetwork s then true else false.
