(* ===== verification/Bech32Theorems.v ===== *)
(** * Bech32m: what is written is what is read

    Facts about Bech32: regrouping bits loses nothing (the pending bits and the
    groups written are the bits read), the six checksum characters are the only ones
    that complete a text, and hence encoding and decoding are inverse to each
    other: every payload survives its text, and every text that decodes is, up to
    case, the text of its payload. *)

From S2P Require Import Prelude Types Bech32.

(** ** Bits of numbers *)

(** The [n] low bits of [v], the highest first. *)
Fixpoint lowBits (n : nat) (v : N) : list bool :=
  match n with
  | O => []
  | S n => N.testbit v (N.of_nat n) :: lowBits n v
  end.

Definition bitsOf (w : nat) (vs : bytes) : list bool := flat_map (lowBits w) vs.

Lemma length_lowBits n v : length (lowBits n v) = n.
Proof. induction n; cbn; congruence. Qed.

Lemma length_bitsOf w vs : length (bitsOf w vs) = (w * length vs)%nat.
Proof.
  unfold bitsOf. induction vs as [|v vs IH]; cbn; [lia|].
  rewrite length_app, length_lowBits, IH. lia.
Qed.

Lemma lowBits_ext n v v' :
  (forall i, i < N.of_nat n -> N.testbit v i = N.testbit v' i) -> lowBits n v = lowBits n v'.
Proof.
  induction n as [|n IH]; intros H; cbn; [done|]. f_equal; [apply H; lia|apply IH; intros; apply H; lia].
Qed.

Lemma lowBits_testbit n v v' i :
  lowBits n v = lowBits n v' -> i < N.of_nat n -> N.testbit v i = N.testbit v' i.
Proof.
  induction n as [|n IH]; intros H Hi; [lia|]. cbn in H. injection H as H1 H2.
  destruct (decide (i = N.of_nat n)) as [->|]; [done|]. apply IH; [done|lia].
Qed.

Lemma lowBits_app a b v : lowBits (a + b) v = lowBits a (N.shiftr v (N.of_nat b)) ++ lowBits b v.
Proof.
  induction a as [|a IH]; cbn; [done|]. rewrite IH, N.shiftr_spec'. do 2 f_equal. lia.
Qed.

Lemma bits_above v n i : v < 2 ^ n -> n <= i -> N.testbit v i = false.
Proof.
  intros Hv Hi. rewrite <-(N.mod_small v (2 ^ n)) by done. by apply N.mod_pow2_bits_high.
Qed.

Lemma below_pow2 v n : (forall i, n <= i -> N.testbit v i = false) -> v < 2 ^ n.
Proof.
  intros H. assert (v mod 2 ^ n = v) as <-; [|apply N.mod_lt; by apply N.pow_nonzero].
  apply N.bits_inj. intros i. destruct (decide (i < n)).
  - by apply N.mod_pow2_bits_low.
  - rewrite N.mod_pow2_bits_high by lia. symmetry. apply H. lia.
Qed.

Lemma lxor_below a b n : a < 2 ^ n -> b < 2 ^ n -> N.lxor a b < 2 ^ n.
Proof.
  intros Ha Hb. apply below_pow2. intros i Hi. by rewrite N.lxor_spec, !(bits_above _ n).
Qed.

Lemma lowBits_inj n v v' :
  v < 2 ^ N.of_nat n -> v' < 2 ^ N.of_nat n -> lowBits n v = lowBits n v' -> v = v'.
Proof.
  intros Hv Hv' H. apply N.bits_inj. intros i. destruct (decide (i < N.of_nat n)).
  - by eapply lowBits_testbit.
  - rewrite !(bits_above _ (N.of_nat n)); [done|done|lia|done|lia].
Qed.

Lemma lowBits_0 n : lowBits n 0 = replicate n false.
Proof. induction n as [|n IH]; cbn; [done|]. by rewrite IH. Qed.

Lemma lowBits_ones n v : lowBits n (N.land v (N.ones (N.of_nat n))) = lowBits n v.
Proof.
  apply lowBits_ext. intros i Hi. by rewrite N.land_spec, N.ones_spec_low, andb_true_r.
Qed.

Lemma land_ones_below v n : N.land v (N.ones n) < 2 ^ n.
Proof. rewrite N.land_ones. apply N.mod_lt. by apply N.pow_nonzero. Qed.

Lemma u32_pow2 v : u32 v = v mod 2 ^ 32.
Proof. done. Qed.

Lemma bitsOf_app w a b : bitsOf w (a ++ b) = bitsOf w a ++ bitsOf w b.
Proof. apply flat_map_app. Qed.

Lemma bitsOf_inj w a b :
  Forall (fun v => v < 2 ^ N.of_nat w) a -> Forall (fun v => v < 2 ^ N.of_nat w) b ->
  length a = length b -> bitsOf w a = bitsOf w b -> a = b.
Proof.
  intros Ha. revert b. induction Ha as [|v a Hv Ha IH]; intros [|v' b] Hb Hl E; try done.
  apply Forall_cons in Hb as [Hv' Hb]. unfold bitsOf in E. cbn in E.
  apply app_inj_1 in E as [E1 E2]; [|by rewrite !length_lowBits].
  f_equal; [by eapply lowBits_inj|]. apply IH; [done|by injection Hl|done].
Qed.

(** ** Regrouping *)

(** One round of the inner loop: the groups pushed and the pending bits are the bits
    that were pending. *)
Lemma emit_spec fuel width acc bits out rest :
  (0 < width)%nat -> (bits <= fuel)%nat -> emit fuel width acc bits = (out, rest) ->
  bitsOf width out ++ lowBits rest acc = lowBits bits acc /\ (rest < width)%nat /\
  Forall (fun v => v < 2 ^ N.of_nat width) out.
Proof.
  intros Hw. revert bits out rest.
  induction fuel as [|fuel IH]; intros bits out rest Hb E; cbn [emit] in E.
  - simplify_eq. cbn. split_and!; [done|lia|constructor].
  - destruct (Nat.ltb_spec bits width); [simplify_eq; split_and!; [done|lia|constructor]|].
    destruct (emit fuel width acc (bits - width)) as [out' rest'] eqn:E'. simplify_eq.
    apply IH in E' as (E1 & E2 & E3); [|lia]. split_and!; [|done|].
    + unfold bitsOf in *. cbn [flat_map]. rewrite lowBits_ones, <-app_assoc, E1, <-lowBits_app. f_equal. lia.
    + constructor; [apply land_ones_below|done].
Qed.

Lemma push_bits from acc v bits :
  (bits + from <= 32)%nat -> v < 2 ^ N.of_nat from ->
  lowBits (bits + from) (N.lor (u32 (N.shiftl acc (N.of_nat from))) v) =
  lowBits bits acc ++ lowBits from v.
Proof.
  intros Hb Hv. rewrite lowBits_app. f_equal; apply lowBits_ext; intros i Hi.
  - rewrite N.shiftr_spec', N.lor_spec, (bits_above v (N.of_nat from)) by (done || lia).
    rewrite orb_false_r, u32_pow2, N.mod_pow2_bits_low, N.shiftl_spec_high' by lia. f_equal. lia.
  - rewrite N.lor_spec, u32_pow2, N.mod_pow2_bits_low, N.shiftl_spec_low by lia. done.
Qed.

Lemma regroup_spec from width input acc bits out acc' rest :
  (0 < width)%nat -> (width + from <= 32)%nat -> (bits < width)%nat ->
  Forall (fun v => v < 2 ^ N.of_nat from) input ->
  regroup from width input acc bits = (out, acc', rest) ->
  bitsOf width out ++ lowBits rest acc' = lowBits bits acc ++ bitsOf from input /\
  (rest < width)%nat /\ Forall (fun v => v < 2 ^ N.of_nat width) out.
Proof.
  intros Hw Hs Hb Hin. revert acc bits out Hb.
  induction Hin as [|v input Hv Hin IH]; intros acc bits out Hb E; cbn [regroup] in E.
  - simplify_eq. rewrite app_nil_r. split_and!; [done|lia|constructor].
  - cbv zeta in E. destruct (emit _ _ _ _) as [o b] eqn:Ee.
    destruct (regroup _ _ _ _ b) as [[o' a] b'] eqn:Er. simplify_eq.
    apply emit_spec in Ee as (E1 & E2 & E3); [|lia..]. rewrite push_bits in E1 by (done || lia).
    apply IH in Er as (R1 & R2 & R3); [|done]. split_and!; [|done|by apply Forall_app].
    by rewrite bitsOf_app, <-app_assoc, R1, app_assoc, E1, <-app_assoc.
Qed.

(** [groups] of five bits hold the bytes [data] followed by fewer than five zeros. *)
Definition padded (data groups : bytes) : Prop :=
  exists k, (k < 5)%nat /\ bitsOf 5 groups = bitsOf 8 data ++ replicate k false.

Definition isGroup (v : N) : Prop := v < 2 ^ 5.

Lemma to5_padded data :
  Forall wf_byte data ->
  exists groups, convertBitsTo5 data true = Some groups /\ Forall isGroup groups /\ padded data groups.
Proof.
  intros Hd. unfold convertBitsTo5. destruct (regroup 8 5 data 0 0) as [[out acc] bits] eqn:E.
  apply regroup_spec in E as (E1 & E2 & E3); [|lia..|done]. cbn [lowBits app] in E1.
  destruct (Nat.ltb_spec 0 bits) as [Hb|Hb].
  - eexists. split; [done|]. change 31 with (N.ones (N.of_nat 5)). split.
    + apply Forall_app. split; [done|]. constructor; [apply land_ones_below|done].
    + exists (5 - bits)%nat. split; [lia|]. rewrite bitsOf_app, <-E1, <-app_assoc. f_equal.
      unfold bitsOf. cbn [flat_map]. rewrite app_nil_r, lowBits_ones.
      replace 5%nat with (bits + (5 - bits))%nat at 1 by lia. rewrite lowBits_app.
      f_equal; [|rewrite <-lowBits_0]; apply lowBits_ext; intros i Hi.
      * rewrite N.shiftr_spec', u32_pow2, N.mod_pow2_bits_low, N.shiftl_spec_high' by lia. f_equal. lia.
      * by rewrite u32_pow2, N.mod_pow2_bits_low, N.shiftl_spec_low, N.bits_0 by lia.
  - exists out. split; [done|]. split; [done|]. exists 0%nat. split; [lia|].
    replace bits with 0%nat in E1 by lia. cbn [lowBits replicate] in *. by rewrite app_nil_r in *.
Qed.

Lemma padded_unique data g g' :
  Forall isGroup g -> Forall isGroup g' -> padded data g -> padded data g' -> g = g'.
Proof.
  intros Hg Hg' (k & Hk & E) (k' & Hk' & E').
  pose proof (f_equal length E) as L. pose proof (f_equal length E') as L'.
  rewrite !length_app, !length_bitsOf, length_replicate in L, L'.
  assert (k = k') as <- by lia.
  apply (bitsOf_inj 5); [done|done|lia|congruence].
Qed.

Lemma leftover_zero acc n : leftover acc n = 0 <-> lowBits n acc = replicate n false.
Proof.
  unfold leftover. rewrite <-(lowBits_ones n acc), <-lowBits_0. split; [by intros ->|].
  apply lowBits_inj; [apply land_ones_below|]. apply N.neq_0_lt_0. by apply N.pow_nonzero.
Qed.

(** Strict conversion back: it returns [data] exactly on its padded groups. *)
Lemma from5_padded data groups :
  convertBitsFrom5 groups false = Some data <->
  Forall isGroup groups /\ Forall wf_byte data /\ padded data groups.
Proof.
  unfold convertBitsFrom5.
  destruct (existsb (fun v => 31 <? v) groups) eqn:Ex.
  { split; [done|]. intros (Hg & _). exfalso.
    apply existsb_exists in Ex as (v & Hv & Hl). apply N.ltb_lt in Hl.
    rewrite Forall_forall in Hg. apply list_elem_of_In, Hg in Hv. unfold isGroup in Hv. lia. }
  assert (Forall isGroup groups) as Hg.
  { apply Forall_forall. intros v Hv. apply list_elem_of_In in Hv.
    destruct (decide (v < 32)) as [|Hn]; [done|]. exfalso.
    assert (existsb (fun v => 31 <? v) groups = true) as Ht; [|congruence].
    apply existsb_exists. exists v. split; [done|]. apply N.ltb_lt. lia. }
  destruct (regroup 5 8 groups 0 0) as [[out acc] bits] eqn:E.
  apply regroup_spec in E as (E1 & E2 & E3); [|lia..|done]. cbn [lowBits app] in E1.
  transitivity (lowBits bits acc = replicate bits false /\ (bits < 5)%nat /\ out = data).
  { rewrite <-leftover_zero. destruct (Nat.ltb_spec 0 bits) as [Hb|Hb].
    - destruct (N.eqb_spec (leftover acc bits) 0) as [Hz|Hz]; cbn [negb]; [|naive_solver].
      destruct (Nat.leb_spec 5 bits); [naive_solver lia|]. naive_solver.
    - replace bits with 0%nat by lia. unfold leftover. rewrite N.land_0_r. naive_solver lia. }
  split.
  - intros (Hz & Hb & ->). split_and!; [done|done|]. exists bits. split; [done|]. by rewrite <-E1, Hz.
  - intros (_ & Hd & k & Hk & Ek). rewrite Ek in E1. pose proof (f_equal length E1) as L.
    rewrite !length_app, !length_bitsOf, length_replicate, length_lowBits in L.
    assert (bits = k /\ length out = length data) as [-> Hl] by lia.
    apply app_inj_1 in E1 as [E4 E5]; [|rewrite !length_bitsOf; lia].
    split_and!; [done|done|]. by apply (bitsOf_inj 8).
Qed.

(** ** The checksum *)

Lemma mixTop_lxor top a b : mixTop top (N.lxor a b) = N.lxor (mixTop top a) b.
Proof.
  unfold mixTop. assert (forall gs i a,
    snd (foldl (fun '(i, chk) g => (i + 1, if N.testbit top i then N.lxor chk g else chk)) (i, N.lxor a b) gs) =
    N.lxor (snd (foldl (fun '(i, chk) g => (i + 1, if N.testbit top i then N.lxor chk g else chk)) (i, a) gs)) b) as H.
  { induction gs as [|g gs IH]; intros i a'; cbn; [done|].
    destruct (N.testbit top i); rewrite <-IH; [|done]. do 3 f_equal.
    rewrite !N.lxor_assoc. f_equal. apply N.lxor_comm. }
  apply H.
Qed.

(** A difference below 25 bits passes through a step unmixed. *)
Lemma polymodStep_lxor chk d v w :
  d < 2 ^ 25 ->
  polymodStep (N.lxor chk d) (N.lxor v w) = N.lxor (polymodStep chk v) (N.lxor (N.shiftl d 5) w).
Proof.
  intros Hd. unfold polymodStep.
  assert (N.shiftr (N.lxor chk d) 25 = N.shiftr chk 25) as ->.
  { rewrite N.shiftr_lxor, (N.shiftr_eq_0 d), N.lxor_0_r; [done|].
    destruct (decide (d = 0)) as [->|]; [done|]. apply N.log2_lt_pow2; [lia|done]. }
  rewrite <-mixTop_lxor. f_equal.
  change 0x1ffffff with (N.ones 25). rewrite !u32_pow2. rewrite <-!N.lxor_assoc.
  apply N.bits_inj. intros i. rewrite !N.lxor_spec.
  assert (forall c, N.testbit (N.shiftl (N.land c (N.ones 25)) 5 mod 2 ^ 32) i =
                    N.testbit (N.shiftl (N.land c (N.ones 25)) 5) i) as Hm.
  { intros c. rewrite N.mod_small; [done|]. rewrite N.shiftl_mul_pow2.
    pose proof (land_ones_below c 25). lia. }
  rewrite !Hm. destruct (decide (i < 5)).
  - rewrite !N.shiftl_spec_low by done. by destruct (N.testbit v i), (N.testbit w i).
  - rewrite !N.shiftl_spec_high' by lia. rewrite !N.land_spec, N.lxor_spec.
    destruct (decide (i - 5 < 25)).
    + rewrite !N.ones_spec_low by done. rewrite !andb_true_r.
      by destruct (N.testbit chk _), (N.testbit d _), (N.testbit v i), (N.testbit w i).
    + rewrite !N.ones_spec_high by lia. rewrite !andb_false_r, (bits_above d 25) by (done || lia).
      by destruct (N.testbit v i), (N.testbit w i).
Qed.

(** Groups of five bits as one number, the first the highest. *)
Definition pack (d : N) (cs : bytes) : N := foldl (fun d c => N.lxor (N.shiftl d 5) c) d cs.

Lemma shift_group_below d c n : d < 2 ^ n -> isGroup c -> N.lxor (N.shiftl d 5) c < 2 ^ (n + 5).
Proof.
  unfold isGroup. intros Hd Hc. apply lxor_below.
  - rewrite N.shiftl_mul_pow2, N.pow_add_r. nia.
  - eapply N.lt_le_trans; [done|]. apply N.pow_le_mono_r; lia.
Qed.

Lemma fold_lxor cs k chk d :
  Forall isGroup cs -> (k + length cs <= 6)%nat -> d < 2 ^ N.of_nat (5 * k) ->
  foldl polymodStep (N.lxor chk d) cs =
  N.lxor (foldl polymodStep chk (replicate (length cs) 0)) (pack d cs).
Proof.
  intros Hcs. revert k chk d. induction Hcs as [|c cs Hc Hcs IH]; intros k chk d Hk Hd;
    unfold pack; cbn [foldl length replicate] in *; [done|].
  rewrite <-(N.lxor_0_l c) at 1. rewrite polymodStep_lxor.
  - apply (IH (S k)); [lia|]. replace (N.of_nat (5 * S k)) with (N.of_nat (5 * k) + 5) by lia.
    by apply shift_group_below.
  - eapply N.lt_le_trans; [done|]. apply N.pow_le_mono_r; lia.
Qed.

Lemma polymod_checksum values cs :
  Forall isGroup cs -> (length cs <= 6)%nat ->
  polymod (values ++ cs) = N.lxor (polymod (values ++ replicate (length cs) 0)) (pack 0 cs).
Proof.
  intros Hcs Hl. unfold polymod. rewrite !foldl_app. rewrite <-(N.lxor_0_r (foldl _ 1 values)) at 1.
  by apply (fold_lxor cs 0); [done|lia|].
Qed.

Lemma mixTop_below top a : a < 2 ^ 30 -> mixTop top a < 2 ^ 30.
Proof.
  intros Ha. unfold mixTop. assert (forall gs i a, a < 2 ^ 30 -> Forall (fun g => g < 2 ^ 30) gs ->
    snd (foldl (fun '(i, chk) g => (i + 1, if N.testbit top i then N.lxor chk g else chk)) (i, a) gs) < 2 ^ 30) as H.
  { induction gs as [|g gs IH]; intros i a' Ha' Hgs; cbn; [done|].
    apply Forall_cons in Hgs as [Hg Hgs]. destruct (N.testbit top i); apply IH; try done. by apply lxor_below. }
  apply H; [done|]. by repeat constructor.
Qed.

Lemma polymodStep_below chk v : v < 2 ^ 5 -> polymodStep chk v < 2 ^ 30.
Proof.
  intros Hv. unfold polymodStep. apply mixTop_below, lxor_below; [|lia].
  change 0x1ffffff with (N.ones 25). pose proof (land_ones_below chk 25).
  rewrite u32_pow2, N.mod_small; rewrite N.shiftl_mul_pow2; lia.
Qed.

Lemma polymod_below values : Forall isGroup values -> polymod values < 2 ^ 30.
Proof.
  unfold polymod. cut (forall chk, chk < 2 ^ 30 -> Forall isGroup values -> foldl polymodStep chk values < 2 ^ 30).
  { intros H. by apply H. }
  induction values as [|v values IH]; intros chk Hchk Hv; cbn [foldl]; [done|].
  apply Forall_cons in Hv as [Hv Hvs]. apply IH; [|done]. by apply polymodStep_below.
Qed.

Lemma length_checksumOf v : length (checksumOf v) = 6%nat.
Proof. done. Qed.

Lemma checksumOf_groups v : Forall isGroup (checksumOf v).
Proof. unfold checksumOf. apply Forall_fmap, Forall_forall. intros i _. apply (land_ones_below _ 5). Qed.

Lemma lowBits_pack n d cs :
  Forall isGroup cs -> lowBits (n + 5 * length cs) (pack d cs) = lowBits n d ++ bitsOf 5 cs.
Proof.
  intros Hcs. revert n d. induction Hcs as [|c cs Hc Hcs IH]; intros n d; cbn [length pack foldl].
  - unfold bitsOf. cbn. by rewrite app_nil_r, Nat.add_0_r.
  - replace (n + 5 * S (length cs))%nat with (n + 5 + 5 * length cs)%nat by lia.
    fold (pack (N.lxor (N.shiftl d 5) c) cs). rewrite IH. unfold bitsOf. cbn [flat_map].
    rewrite app_assoc. f_equal. rewrite lowBits_app. f_equal; apply lowBits_ext; intros i Hi.
    + rewrite N.shiftr_spec', N.lxor_spec, (bits_above c 5), xorb_false_r, N.shiftl_spec_high' by (done || lia).
      f_equal. lia.
    + by rewrite N.lxor_spec, N.shiftl_spec_low, xorb_false_l by lia.
Qed.

Lemma bitsOf_checksumOf v : bitsOf 5 (checksumOf v) = lowBits 30 v.
Proof.
  unfold checksumOf, bitsOf. cbn [map flat_map]. rewrite !(lowBits_ones 5), app_nil_r.
  cbn [lowBits app]. by rewrite !N.shiftr_spec'.
Qed.

Lemma pack_below cs : Forall isGroup cs -> (length cs <= 6)%nat -> pack 0 cs < 2 ^ 30.
Proof.
  intros Hcs Hl. apply N.lt_le_trans with (2 ^ N.of_nat (5 * length cs)); [|apply N.pow_le_mono_r; lia].
  clear Hl. cut (forall n d, d < 2 ^ n -> pack d cs < 2 ^ (n + N.of_nat (5 * length cs))).
  { intros H. by apply (H 0). }
  induction Hcs as [|c cs Hc Hcs IH]; intros n d Hd.
  - by rewrite N.add_0_r.
  - unfold pack. cbn [foldl length].
    replace (n + N.of_nat (5 * S (length cs))) with (n + 5 + N.of_nat (5 * length cs)) by lia.
    by apply IH, shift_group_below.
Qed.

(** The six characters written are the only ones that complete the text. *)
Lemma checksum_unique values cs const :
  Forall isGroup values -> Forall isGroup cs -> length cs = 6%nat -> const < 2 ^ 30 ->
  polymod (values ++ cs) = const <->
  cs = checksumOf (N.lxor (polymod (values ++ replicate 6 0)) const).
Proof.
  intros Hv Hcs Hl Hc. rewrite polymod_checksum, Hl by (done || lia).
  set (P := polymod (values ++ replicate 6 0)).
  assert (P < 2 ^ 30) as HP.
  { apply polymod_below, Forall_app. split; [done|]. by repeat constructor. }
  pose proof (lxor_below _ _ _ HP Hc) as Hx.
  pose proof (lowBits_pack 0 0 cs Hcs) as E. rewrite Hl in E. cbn [lowBits app] in E.
  change (0 + 5 * 6)%nat with 30%nat in E. split.
  - intros <-. rewrite <-N.lxor_assoc, N.lxor_nilpotent, N.lxor_0_l.
    apply (bitsOf_inj 5); [done|apply checksumOf_groups|done|]. by rewrite bitsOf_checksumOf.
  - intros Ecs. assert (pack 0 cs = N.lxor P const) as ->.
    { apply (lowBits_inj 30); [apply pack_below; [done|lia]|done|]. by rewrite E, Ecs, bitsOf_checksumOf. }
    by rewrite <-N.lxor_assoc, N.lxor_nilpotent, N.lxor_0_l.
Qed.

Lemma checksumConst_below enc : checksumConst enc < 2 ^ 30.
Proof. by destruct enc. Qed.

Lemma checksumConst_inj enc enc' : checksumConst enc = checksumConst enc' -> enc = enc'.
Proof. by destruct enc, enc'. Qed.

(** ** Characters *)

Lemma validHrpChar_spec c : validHrpChar c = true <-> 33 <= c <= 126.
Proof. unfold validHrpChar. rewrite andb_true_iff, !N.leb_le. done. Qed.

Lemma hrpExpand_groups hrp : forallb validHrpChar hrp = true -> Forall isGroup (hrpExpand hrp).
Proof.
  intros Hv. unfold hrpExpand. rewrite !Forall_app, !Forall_fmap. split_and!.
  - apply Forall_forall. intros c Hc. apply list_elem_of_In in Hc.
    rewrite forallb_forall in Hv. apply Hv, validHrpChar_spec in Hc.
    unfold compose, isGroup. rewrite N.shiftr_div_pow2. apply N.Div0.div_lt_upper_bound. lia.
  - by repeat constructor.
  - apply Forall_forall. intros c _. apply (land_ones_below _ 5).
Qed.

(** What the alphabet has to be: invertible, lower case and without the separator. *)
Lemma charset_ok v : isGroup v ->
  charsetRev (charOf v) = Some v /\ toLower (charOf v) = charOf v /\ charOf v <> 49 /\ isUpper (charOf v) = false.
Proof.
  unfold isGroup. intros Hv. rewrite <-(N2Nat.id v). set (n := N.to_nat v).
  assert (n < 32)%nat as Hn by (subst n; lia). clearbody n. clear Hv v.
  do 32 (destruct n as [|n]; [by vm_compute; split_and!|]). lia.
Qed.

Lemma charsetRev_spec c v : charsetRev c = Some v -> isGroup v /\ charOf v = c.
Proof.
  unfold charsetRev. intros H. apply fmap_Some in H as ([i x] & Hf & ->).
  apply list_find_Some in Hf as (Hi & -> & _). unfold compose, charOf. cbn [fst]. split.
  - apply lookup_lt_Some in Hi. change (length CHARSET) with 32%nat in Hi. unfold isGroup. lia.
  - rewrite Nat2N.id. by apply nth_lookup_Some.
Qed.

Lemma mapM_charOf vs : Forall isGroup vs -> mapM charsetRev (map charOf vs) = Some vs.
Proof.
  intros Hvs. apply mapM_Some. induction Hvs as [|v vs Hv Hvs IH]; constructor; [|done].
  by apply charset_ok.
Qed.

Lemma mapM_charsetRev s vs : mapM charsetRev s = Some vs -> Forall isGroup vs /\ map charOf vs = s.
Proof.
  intros H. apply mapM_Some in H. induction H as [|c v s vs Hc _ [IH1 IH2]]; [done|].
  apply charsetRev_spec in Hc as [Hv <-]. cbn. rewrite IH2. auto.
Qed.

Lemma splitLast_app hrp data : 49 ∉ data -> splitLast (hrp ++ 49 :: data) = Some (hrp, data).
Proof.
  intros Hd. induction hrp as [|c hrp IH]; cbn; [|by rewrite IH].
  assert (splitLast data = None) as ->; [|done].
  induction data as [|c data IH]; cbn; [done|]. apply not_elem_of_cons in Hd as [Hc Hd].
  rewrite IH by done. destruct (N.eqb_spec c 49); [congruence|done].
Qed.

Lemma splitLast_Some s a b : splitLast s = Some (a, b) -> s = a ++ 49 :: b.
Proof.
  revert a b. induction s as [|c s IH]; intros a b H; cbn in H; [done|].
  destruct (splitLast s) as [[a' b']|].
  - simplify_eq. cbn. by rewrite (IH a' b).
  - destruct (N.eqb_spec c 49); [|done]. by simplify_eq.
Qed.

Lemma toLower_id c : isUpper c = false -> toLower c = c.
Proof. unfold toLower. by intros ->. Qed.

Lemma toLower_lower c : isUpper (toLower c) = false.
Proof.
  unfold toLower, isUpper. destruct (N.leb_spec 65 c), (N.leb_spec c 90); cbn; try done;
    apply andb_false_iff; rewrite !N.leb_gt; lia.
Qed.

Lemma hasUpper_false s : hasUpper s = false <-> Forall (fun c => isUpper c = false) s.
Proof.
  unfold hasUpper. induction s as [|c s IH]; cbn; [done|].
  rewrite orb_false_iff, IH, Forall_cons. done.
Qed.

Lemma map_toLower_id s : hasUpper s = false -> map toLower s = s.
Proof.
  rewrite hasUpper_false. induction 1 as [|c s Hc _ IH]; cbn; [done|]. by rewrite IH, toLower_id.
Qed.

(** The characters of groups are lower case, and none is the separator. *)
Lemma charOf_text vs : Forall isGroup vs -> hasUpper (map charOf vs) = false /\ 49 ∉ map charOf vs.
Proof.
  intros Hvs. rewrite hasUpper_false. induction Hvs as [|v vs Hv _ [IH1 IH2]]; cbn [map].
  - split; [constructor|apply not_elem_of_nil].
  - apply charset_ok in Hv as (_ & _ & H1 & H2). split; [by constructor|].
    apply not_elem_of_cons. split; [congruence|done].
Qed.

(** ** Encoding and decoding *)

Section Texts.
Context (hrp data : bytes) (enc : Bech32Encoding.t).

(** The encoder's checks on its prefix and on the length. *)
Definition fits (groups : bytes) : Prop :=
  hrp <> [] /\ (length hrp <= BECH32_MAX_HRP_LENGTH)%nat /\ forallb validHrpChar hrp = true /\
  (length hrp + 1 + length groups + BECH32_CHECKSUM_LENGTH <= BECH32_MAX_LENGTH)%nat.

(** A text: prefix, separator, groups and checksum. *)
Definition textOf (groups : bytes) : bytes :=
  hrp ++ 49 :: map charOf groups ++
    map charOf (checksumOf (N.lxor (polymod (hrpExpand hrp ++ groups ++ replicate 6 0)) (checksumConst enc))).

Lemma encode_spec groups :
  Forall wf_byte data -> Forall isGroup groups -> padded data groups -> fits groups ->
  bech32Encode hrp data enc = textOf groups.
Proof.
  intros Hd Hg Hp (H1 & H2 & H3 & H4). unfold bech32Encode.
  rewrite bool_decide_eq_false_2 by done. destruct (Nat.ltb_spec BECH32_MAX_HRP_LENGTH (length hrp)); [lia|].
  rewrite H3. cbn [orb negb]. destruct (to5_padded data Hd) as (g & -> & Hg' & Hp').
  rewrite (padded_unique data g groups) by done.
  by destruct (Nat.ltb_spec BECH32_MAX_LENGTH (length hrp + 1 + length groups + BECH32_CHECKSUM_LENGTH)); [lia|].
Qed.

Lemma encode_nonempty :
  Forall wf_byte data -> bech32Encode hrp data enc <> [] ->
  exists groups, Forall isGroup groups /\ padded data groups /\ fits groups.
Proof.
  intros Hd He. unfold bech32Encode in He.
  destruct (bool_decide (hrp = [])) eqn:E1; [done|]. apply bool_decide_eq_false in E1. cbn [orb] in He.
  destruct (Nat.ltb_spec BECH32_MAX_HRP_LENGTH (length hrp)); [done|].
  destruct (forallb validHrpChar hrp) eqn:E3; [|done]. cbn [negb] in He.
  destruct (to5_padded data Hd) as (g & Eg & Hg & Hp). rewrite Eg in He. exists g.
  destruct (Nat.ltb_spec BECH32_MAX_LENGTH (length hrp + 1 + length g + BECH32_CHECKSUM_LENGTH)); [done|].
  unfold fits. by split_and!.
Qed.

Lemma verify_groups groups cs enc' :
  forallb validHrpChar hrp = true -> Forall isGroup groups -> Forall isGroup cs -> length cs = 6%nat ->
  verifyWith hrp (groups ++ cs) enc' = true <->
  cs = checksumOf (N.lxor (polymod (hrpExpand hrp ++ groups ++ replicate 6 0)) (checksumConst enc')).
Proof.
  intros Hh Hg Hcs Hl. unfold verifyWith. rewrite N.eqb_eq, !app_assoc.
  apply checksum_unique; [|done|done|apply checksumConst_below].
  apply Forall_app. split; [by apply hrpExpand_groups|done].
Qed.

Lemma decode_text groups :
  hasUpper hrp = false -> Forall wf_byte data -> Forall isGroup groups -> padded data groups -> fits groups ->
  bech32Decode (textOf groups) = inr (data, hrp, enc).
Proof.
  intros Hlow Hd Hg Hp (H1 & H2 & H3 & H4). unfold textOf.
  pose proof (checksumOf_groups (N.lxor (polymod (hrpExpand hrp ++ groups ++ replicate 6 0)) (checksumConst enc))) as Hcs.
  set (cs := checksumOf _) in *. assert (length cs = 6%nat) as Hl by done.
  assert (polymod (hrpExpand hrp ++ groups ++ cs) = checksumConst enc) as Hpoly.
  { apply N.eqb_eq. by apply verify_groups. }
  rewrite <-map_app. destruct (charOf_text (groups ++ cs)) as [Hu Hsep]; [by apply Forall_app|].
  assert (hasUpper (hrp ++ 49 :: map charOf (groups ++ cs)) = false) as Hup.
  { rewrite hasUpper_false, Forall_app, Forall_cons, <-!hasUpper_false. done. }
  clearbody cs. unfold bech32Decode. rewrite bool_decide_eq_false_2 by (by destruct hrp).
  destruct (Nat.ltb_spec BECH32_MAX_LENGTH (length (hrp ++ 49 :: map charOf (groups ++ cs)))) as [Hx|_].
  { rewrite length_app in Hx. cbn [length] in Hx. rewrite length_map, length_app, Hl in Hx.
    unfold BECH32_CHECKSUM_LENGTH in H4. lia. }
  rewrite Hup, andb_false_r, map_toLower_id, splitLast_app by done.
  rewrite bool_decide_eq_false_2 by done. destruct (Nat.ltb_spec BECH32_MAX_HRP_LENGTH (length hrp)); [lia|].
  destruct (Nat.ltb_spec (length (map charOf (groups ++ cs))) BECH32_CHECKSUM_LENGTH) as [Hx|_].
  { rewrite length_map, length_app, Hl in Hx. unfold BECH32_CHECKSUM_LENGTH in Hx. lia. }
  rewrite H3. cbn [orb negb]. rewrite mapM_charOf by (by apply Forall_app).
  unfold verifyWith. rewrite Hpoly.
  rewrite length_app, Hl, Nat.add_sub, take_app_length.
  assert (convertBitsFrom5 groups false = Some data) as -> by (by apply from5_padded).
  by destruct enc.
Qed.

Lemma decode_inv s :
  bech32Decode s = inr (data, hrp, enc) ->
  exists groups, Forall isGroup groups /\ Forall wf_byte data /\ padded data groups /\ fits groups /\
    map toLower s = textOf groups.
Proof.
  unfold bech32Decode. intros H. destruct (bool_decide (s = [])); [done|].
  destruct (Nat.ltb_spec BECH32_MAX_LENGTH (length s)) as [|Hlen]; [done|].
  destruct (hasLower s && hasUpper s); [done|].
  destruct (splitLast (map toLower s)) as [[h d]|] eqn:Es; [|done].
  destruct (bool_decide (h = [])) eqn:E1; [done|]. apply bool_decide_eq_false in E1. cbn [orb] in H.
  destruct (Nat.ltb_spec BECH32_MAX_HRP_LENGTH (length h)) as [|E2]; [done|].
  destruct (Nat.ltb_spec (length d) BECH32_CHECKSUM_LENGTH) as [|E3]; [done|].
  destruct (forallb validHrpChar h) eqn:E4; [|done]. cbn [negb] in H.
  destruct (mapM charsetRev d) as [data5|] eqn:E5; [|done].
  apply mapM_charsetRev in E5 as [Hg5 <-]. rewrite length_map in E3.
  destruct (if verifyWith h data5 _ then _ else _) as [e|] eqn:E6; [|done].
  assert (verifyWith h data5 e = true) as Hver.
  { destruct (verifyWith h data5 Bech32Encoding.Bech32m) eqn:?; [by simplify_eq|].
    destruct (verifyWith h data5 Bech32Encoding.Bech32) eqn:?; by simplify_eq. }
  destruct (convertBitsFrom5 _ false) as [out|] eqn:E7; [|done]. simplify_eq.
  apply from5_padded in E7 as (Hg & Hd & Hp). exists (take (length data5 - BECH32_CHECKSUM_LENGTH) data5).
  rewrite <-(take_drop (length data5 - BECH32_CHECKSUM_LENGTH) data5) in Hver, Hg5.
  apply Forall_app in Hg5 as [_ Hcs]. apply verify_groups in Hver; [|done..|].
  2: { rewrite length_drop. unfold BECH32_CHECKSUM_LENGTH in *. lia. }
  apply splitLast_Some in Es. pose proof (f_equal length Es) as L.
  rewrite length_map, length_app in L. cbn [length] in L. rewrite length_map in L.
  split_and!; [done..| |].
  - unfold fits. split_and!; [done..|]. rewrite length_take. lia.
  - unfold textOf. by rewrite Es, <-Hver, <-map_app, take_drop.
Qed.
End Texts.

(** Decoding looks at the lower-case form only, once the case is not mixed. *)
Lemma decode_mixed s : hasLower s && hasUpper s = true -> forall r, bech32Decode s <> inr r.
Proof.
  intros H r. unfold bech32Decode. destruct (bool_decide _); [done|]. destruct (_ <? _)%nat; [done|].
  by rewrite H.
Qed.

Lemma hasUpper_toLower s : hasUpper (map toLower s) = false.
Proof. rewrite hasUpper_false. apply Forall_fmap, Forall_forall. intros c _. apply toLower_lower. Qed.

Lemma decode_toLower s :
  hasLower s && hasUpper s = false -> bech32Decode s = bech32Decode (map toLower s).
Proof.
  intros H. unfold bech32Decode. rewrite length_map, H, hasUpper_toLower, andb_false_r.
  rewrite (map_toLower_id (map toLower s)) by apply hasUpper_toLower. by destruct s.
Qed.

(** Encoding and decoding are inverse to each other: a lower-case text decodes to
    a payload, prefix and variant exactly when it is what the encoder writes for
    them; payload bytes, padding and checksum are determined by the text. *)
Theorem text_exact (hrp data s : bytes) (enc : Bech32Encoding.t) :
  s <> [] -> hasUpper s = false -> hasUpper hrp = false -> Forall wf_byte data ->
  bech32Encode hrp data enc = s <-> bech32Decode s = inr (data, hrp, enc).
Proof.
  intros Hs Hu Hh Hd. split.
  - intros <-. destruct (encode_nonempty hrp data enc Hd Hs) as (g & Hg & Hp & Hf).
    rewrite (encode_spec _ _ _ g) by done. by apply decode_text.
  - intros H. apply decode_inv in H as (g & Hg & _ & Hp & Hf & E).
    rewrite map_toLower_id in E by done. by rewrite (encode_spec _ _ _ g).
Qed.

Lemma text_exact_witness :
  bech32Decode (bech32Encode (ascii_bytes "clrty") [1; 2; 255] Bech32Encoding.Bech32) =
  inr ([1; 2; 255], ascii_bytes "clrty", Bech32Encoding.Bech32).
Proof.
  apply text_exact; [by vm_compute|by vm_compute|by vm_compute|by repeat constructor|reflexivity].
Defined.

(** ** Addresses *)

Lemma hrpForNetwork_ok m : hasUpper (hrpForNetwork m) = false /\ hrpForNetwork m <> [].
Proof. by destruct m. Qed.

Lemma buildPayload_bytes a : Forall wf_byte (buildPayload a).
Proof. constructor; [done|apply Forall_reverse, le_split_wf]. Qed.

Lemma encode_address_fits a m :
  exists groups, Forall isGroup groups /\ padded (buildPayload a) groups /\ fits (hrpForNetwork m) groups.
Proof.
  destruct (to5_padded (buildPayload a) (buildPayload_bytes a)) as (g & _ & Hg & Hp).
  exists g. split_and!; [done|done|]. destruct Hp as (k & Hk & E). apply (f_equal length) in E.
  rewrite length_app, !length_bitsOf, length_replicate in E. unfold buildPayload in E.
  cbn [length] in E. rewrite length_be_split in E.
  unfold fits, BECH32_MAX_LENGTH, BECH32_CHECKSUM_LENGTH, ADDRESS_PUBKEY_LENGTH in *.
  assert (length (hrpForNetwork m) <= 6)%nat by (destruct m; vm_compute; lia).
  split_and!; [apply hrpForNetwork_ok|unfold BECH32_MAX_HRP_LENGTH; lia|by destruct m|lia].
Qed.

Lemma be_split_combine l : Forall wf_byte l -> be_split (length l) (be_combine l) = l.
Proof.
  intros Hl. unfold be_split, be_combine. rewrite <-(length_reverse l).
  rewrite le_split_combine, reverse_involutive; [done|by apply Forall_reverse].
Qed.

(** The payloads of addresses are those that [buildPayload] makes. *)
Lemma addressFromPayload_spec payload a :
  Forall wf_byte payload ->
  addressFromPayload payload = Some a <-> a <> 0 /\ a < 2 ^ 256 /\ payload = buildPayload a.
Proof.
  intros Hp. unfold addressFromPayload, buildPayload, isNull. split.
  - destruct payload as [|v key]; [done|]. apply Forall_cons in Hp as [_ Hk].
    destruct (Nat.eqb_spec (length key) ADDRESS_PUBKEY_LENGTH) as [Hl|]; [|done].
    destruct (N.eqb_spec v ADDRESS_WITNESS_VERSION) as [->|]; [|done]. cbn [negb].
    destruct (N.eqb_spec (be_combine key) 0); [done|]. intros [= <-].
    rewrite <-Hl, be_split_combine by done. split_and!; [done| |done].
    pose proof (le_combine_lt (reverse key)) as H. rewrite length_reverse, Hl in H.
    apply H. by apply Forall_reverse.
  - intros (Hn & Hlt & ->). rewrite length_be_split. cbn [negb Nat.eqb ADDRESS_PUBKEY_LENGTH].
    rewrite N.eqb_refl. cbn [negb]. rewrite be_combine_split, N.mod_small by done.
    by destruct (N.eqb_spec a 0).
Qed.

Lemma encodeAddress_text a m :
  a <> 0 -> encodeAddress a m = bech32Encode (hrpForNetwork m) (buildPayload a) Bech32Encoding.Bech32m.
Proof.
  intros Hn. unfold encodeAddress, encodeAddressHrp, isNull.
  destruct (N.eqb_spec a 0); [done|]. by rewrite bool_decide_eq_false_2 by apply hrpForNetwork_ok.
Qed.

Lemma decodeAddress_spec s m a :
  decodeAddress s m = Some a <->
  exists payload, bech32Decode s = inr (payload, hrpForNetwork m, Bech32Encoding.Bech32m) /\
    addressFromPayload payload = Some a.
Proof.
  unfold decodeAddress. split.
  - destruct (bool_decide (s = [])); [done|].
    destruct (bech32Decode s) as [|[[payload hrp] enc]]; [done|].
    destruct (bool_decide_reflect (enc = Bech32Encoding.Bech32m)) as [->|]; [|done]. cbn [negb].
    destruct (bool_decide_reflect (hrp = hrpForNetwork m)) as [->|]; [|done]. cbn [negb]. eauto.
  - intros (payload & E & Ha). rewrite bool_decide_eq_false_2 by (by intros ->).
    by rewrite E, !bool_decide_eq_true_2.
Qed.

Lemma address_mixed s m a : decodeAddress s m = Some a -> hasLower s && hasUpper s = false.
Proof.
  rewrite decodeAddress_spec. intros (payload & E & _).
  destruct (hasLower s && hasUpper s) eqn:Hc; [|done]. exfalso. by eapply decode_mixed.
Qed.

(** C26: a text is read as the address [a] of network [m] exactly when [a] is an
    address other than the null one and the text, of one case, is [a]'s text for
    [m].  So every address survives its text, no text belongs to two addresses or
    networks, and an address has one text up to case. *)
Theorem address_text (s : bytes) (m : Network.t) (a : Address) :
  decodeAddress s m = Some a <->
  a <> 0 /\ a < 2 ^ 256 /\ map toLower s = encodeAddress a m /\ hasLower s && hasUpper s = false.
Proof.
  destruct (encode_address_fits a m) as (g & Hg & Hp & Hf). split.
  - intros H. pose proof (address_mixed _ _ _ H) as Hc. apply decodeAddress_spec in H as (payload & E & Ha).
    apply decode_inv in E as (g' & Hg' & Hb & Hp' & Hf' & E).
    apply addressFromPayload_spec in Ha as (Hn & Hlt & ->); [|done]. split_and!; [done|done| |done].
    by rewrite E, encodeAddress_text, (encode_spec _ _ _ g').
  - intros (Hn & Hlt & E & Hc). apply decodeAddress_spec. exists (buildPayload a). split.
    + rewrite decode_toLower, E, encodeAddress_text, (encode_spec _ _ _ g) by (done || apply buildPayload_bytes).
      apply decode_text; [apply hrpForNetwork_ok|apply buildPayload_bytes|done..].
    + by apply addressFromPayload_spec; [apply buildPayload_bytes|].
Qed.

(** ** One wrong character *)

Lemma lxor_cancel a b c : N.lxor a c = N.lxor b c -> a = b.
Proof.
  intros H. apply (f_equal (fun x => N.lxor x c)) in H.
  by rewrite !N.lxor_assoc, N.lxor_nilpotent, !N.lxor_0_r in H.
Qed.

Lemma land_lxor a b c : N.land (N.lxor a b) c = N.lxor (N.land a c) (N.land b c).
Proof.
  apply N.bits_inj. intros i. rewrite N.lxor_spec, !N.land_spec, N.lxor_spec.
  by destruct (N.testbit a i), (N.testbit b i), (N.testbit c i).
Qed.

(** The low bits of what is mixed in tell the bits that were shifted out. *)
Lemma mixTop_inj t t' :
  t < 2 ^ 5 -> t' < 2 ^ 5 -> N.land (mixTop t 0) (N.ones 5) = N.land (mixTop t' 0) (N.ones 5) -> t = t'.
Proof.
  assert (forallb (fun a => forallb (fun b =>
    negb (N.land (mixTop a 0) (N.ones 5) =? N.land (mixTop b 0) (N.ones 5)) || (a =? b))
    (N.of_nat <$> seq 0 32)) (N.of_nat <$> seq 0 32) = true) as H by (by vm_compute).
  assert (forall v, v < 2 ^ 5 -> In v (N.of_nat <$> seq 0 32)) as Hin.
  { intros v Hv. apply list_elem_of_In, list_elem_of_fmap. exists (N.to_nat v).
    split; [lia|]. apply elem_of_seq. lia. }
  intros Ht Ht' E. rewrite forallb_forall in H. specialize (H t (Hin t Ht)). cbn beta in H.
  rewrite forallb_forall in H. specialize (H t' (Hin t' Ht')). cbn beta in H.
  rewrite E, N.eqb_refl in H. by apply N.eqb_eq in H.
Qed.

Lemma polymodStep_form chk v :
  chk < 2 ^ 30 ->
  polymodStep chk v =
  N.lxor (N.lxor (mixTop (N.shiftr chk 25) 0) (N.shiftl (N.land chk (N.ones 25)) 5)) v.
Proof.
  intros Hc. unfold polymodStep. rewrite <-(N.lxor_0_l (N.lxor (u32 _) v)), mixTop_lxor, <-N.lxor_assoc.
  assert (N.shiftr chk 25 < 2 ^ 5) as Ht.
  { rewrite N.shiftr_div_pow2. apply N.Div0.div_lt_upper_bound. lia. }
  unfold u8. rewrite N.mod_small by lia.
  rewrite u32_pow2, N.mod_small; [done|]. change 0x1ffffff with (N.ones 25).
  rewrite N.shiftl_mul_pow2. pose proof (land_ones_below chk 25). lia.
Qed.

Lemma polymodStep_inj_chk chk chk' v :
  chk < 2 ^ 30 -> chk' < 2 ^ 30 -> polymodStep chk v = polymodStep chk' v -> chk = chk'.
Proof.
  intros Hc Hc' E. rewrite !polymodStep_form in E by done. apply lxor_cancel in E.
  assert (forall c, N.land (N.shiftl c 5) (N.ones 5) = 0) as Hz.
  { intros c. rewrite N.land_ones, N.shiftl_mul_pow2. apply N.Div0.mod_mul. }
  assert (N.shiftr chk 25 = N.shiftr chk' 25) as Et.
  { assert (forall c, c < 2 ^ 30 -> N.shiftr c 25 < 2 ^ 5) as Hs.
    { intros c ?. rewrite N.shiftr_div_pow2. apply N.Div0.div_lt_upper_bound. lia. }
    apply mixTop_inj; [by apply Hs..|]. apply (f_equal (fun x => N.land x (N.ones 5))) in E.
    by rewrite !land_lxor, !Hz, !N.lxor_0_r in E. }
  rewrite Et, !(N.lxor_comm (mixTop _ _)) in E. apply lxor_cancel in E.
  apply (f_equal (fun x => N.shiftr x 5)) in E. rewrite !N.shiftr_shiftl_l, !N.shiftl_0_r, !N.land_ones in E by done.
  rewrite !N.shiftr_div_pow2 in Et. rewrite (N.div_mod chk (2 ^ 25)), (N.div_mod chk' (2 ^ 25)) by done. congruence.
Qed.

Lemma foldl_polymod_inj values chk chk' :
  Forall isGroup values -> chk < 2 ^ 30 -> chk' < 2 ^ 30 ->
  foldl polymodStep chk values = foldl polymodStep chk' values -> chk = chk'.
Proof.
  intros Hv. revert chk chk'. induction Hv as [|v values Hv _ IH]; intros chk chk' Hc Hc' E; [done|].
  apply IH in E; [|by apply polymodStep_below..]. by apply polymodStep_inj_chk in E.
Qed.

(** Two lists of groups that differ in one place have different remainders. *)
Lemma polymod_one_group pre v v' post :
  Forall isGroup pre -> isGroup v -> isGroup v' -> Forall isGroup post ->
  polymod (pre ++ v :: post) = polymod (pre ++ v' :: post) -> v = v'.
Proof.
  intros Hpre Hv Hv' Hpost E. unfold polymod in E. rewrite !foldl_app in E. cbn [foldl] in E.
  apply foldl_polymod_inj in E; [|done|by apply polymodStep_below..].
  rewrite !polymodStep_form in E by (by apply polymod_below).
  rewrite !(N.lxor_comm _ v), !(N.lxor_comm _ v') in E. by apply lxor_cancel in E.
Qed.

Lemma existsb_lookup (f : N -> bool) (s : list N) i c : s !! i = Some c -> f c = true -> existsb f s = true.
Proof.
  intros Hi Hc. apply existsb_exists. exists c. split; [|done].
  apply list_elem_of_In. by eapply list_elem_of_lookup_2.
Qed.

Lemma toLower_flip c c' :
  toLower c = toLower c' -> c <> c' ->
  isUpper c = true /\ isLower c' = true \/ isLower c = true /\ isUpper c' = true.
Proof.
  unfold toLower, isUpper, isLower. rewrite !andb_true_iff, !N.leb_le.
  destruct (N.leb_spec 65 c), (N.leb_spec c 90), (N.leb_spec 65 c'), (N.leb_spec c' 90); cbn; lia.
Qed.

Lemma toLower_letter d : isLower (toLower d) = true -> isLower d = true \/ isUpper d = true.
Proof. unfold toLower. destruct (isUpper d); auto. Qed.

(** Changing the case of one letter of a text that has another mixes the case. *)
Lemma case_change_mixed (s : list N) i c c' p d :
  s !! i = Some c -> c <> c' -> toLower c = toLower c' ->
  s !! p = Some d -> p <> i -> isLower (toLower d) = true ->
  hasLower s && hasUpper s = false ->
  hasLower (<[i:=c']> s) && hasUpper (<[i:=c']> s) = true.
Proof.
  intros Hi Hc Hl Hp Hpi Hd Hs. apply andb_false_iff in Hs.
  assert ((<[i:=c']> s) !! i = Some c') as Hi' by (eapply list_lookup_insert_eq, lookup_lt_Some; eauto).
  assert ((<[i:=c']> s) !! p = Some d) as Hp' by (by rewrite list_lookup_insert_ne by done).
  unfold hasLower, hasUpper in *. apply andb_true_iff.
  destruct (toLower_flip _ _ Hl Hc) as [[H1 H2]|[H1 H2]], (toLower_letter _ Hd) as [H3|H3];
    pose proof (existsb_lookup _ _ _ _ Hi H1); pose proof (existsb_lookup _ _ _ _ Hp H3);
    pose proof (existsb_lookup _ _ _ _ Hi' H2); pose proof (existsb_lookup _ _ _ _ Hp' H3);
    destruct Hs; try congruence; done.
Qed.

Lemma map_charOf_inj g g' : Forall isGroup g -> Forall isGroup g' -> map charOf g = map charOf g' -> g = g'.
Proof. intros H H' E. apply mapM_charOf in H, H'. congruence. Qed.

(** What reading an address establishes. *)
Lemma read_groups s m a :
  decodeAddress s m = Some a ->
  exists g, Forall isGroup g /\ map toLower s = (hrpForNetwork m ++ [49]) ++ map charOf g /\
    polymod (hrpExpand (hrpForNetwork m) ++ g) = BECH32M_CONST /\ hasLower s && hasUpper s = false.
Proof.
  intros H. pose proof H as Ha. apply address_mixed in H.
  apply decodeAddress_spec in Ha as (payload & E & _). apply decode_inv in E as (g & Hg & _ & _ & Hf & E).
  destruct Hf as (_ & _ & Hv & _). unfold textOf in E. rewrite <-map_app in E.
  pose proof (checksumOf_groups (N.lxor (polymod (hrpExpand (hrpForNetwork m) ++ g ++ replicate 6 0))
    (checksumConst Bech32Encoding.Bech32m))) as Hcs.
  eexists. split; [by apply Forall_app; split; [apply Hg|apply Hcs]|]. split; [by rewrite <-app_assoc|].
  split; [|done]. apply N.eqb_eq. by apply (verify_groups _ _ _ Bech32Encoding.Bech32m).
Qed.

Lemma one_group_changed pre (g g' : list N) j x :
  Forall isGroup pre -> Forall isGroup g -> Forall isGroup g' ->
  polymod (pre ++ g) = polymod (pre ++ g') ->
  charOf <$> g' = <[j:=x]> (charOf <$> g) -> (charOf <$> g) !! j = (charOf <$> g') !! j.
Proof.
  intros Hpre Hg Hg' Hpoly E. destruct (decide (j < length g)%nat) as [Hj|Hj].
  2: { rewrite E, list_insert_ge; [done|]. rewrite length_fmap. lia. }
  destruct (lookup_lt_is_Some_2 g j Hj) as [v Hv].
  assert (length g' = length g) as Hl by (apply (f_equal length) in E; by rewrite length_insert, !length_fmap in E).
  destruct (lookup_lt_is_Some_2 g' j) as [v' Hv']; [lia|].
  assert (isGroup v /\ isGroup v') as [Gv Gv'].
  { split; [exact (Forall_lookup_1 _ _ _ _ Hg Hv)|exact (Forall_lookup_1 _ _ _ _ Hg' Hv')]. }
  assert (x = charOf v') as ->.
  { assert ((charOf <$> g') !! j = Some x) as Hx by (rewrite E; apply list_lookup_insert_eq; by rewrite length_fmap).
    rewrite list_lookup_fmap, Hv' in Hx. by injection Hx. }
  assert (g' = <[j:=v']> g) as ->.
  { apply map_charOf_inj; [done|by apply Forall_insert|]. change (map charOf ?l) with (charOf <$> l).
    by rewrite E, list_fmap_insert. }
  rewrite insert_take_drop in Hpoly by done. rewrite <-(take_drop_middle g j v Hv) in Hpoly at 1.
  rewrite !app_assoc in Hpoly. apply polymod_one_group in Hpoly as ->; [|..].
  - by rewrite !list_lookup_fmap, Hv', Hv.
  - apply Forall_app. split; [done|by apply Forall_take].
  - done.
  - done.
  - by apply Forall_drop.
Qed.

(** C27: one wrong character is always noticed: whatever text is read as an address,
    replacing any one of its characters by another gives a text that is not read as
    any address of that network. *)
Theorem substitution_detected (s : list N) (m : Network.t) (a : Address) (i : nat) (c c' : N) :
  decodeAddress s m = Some a -> s !! i = Some c -> c' <> c ->
  decodeAddress (<[i:=c']> s) m = None.
Proof.
  intros Ha Hi Hc. destruct (decodeAddress (<[i:=c']> s) m) as [a'|] eqn:Ha'; [exfalso|done].
  destruct (read_groups _ _ _ Ha) as (g & Hg & Et & Hpoly & Hcase).
  destruct (read_groups _ _ _ Ha') as (g' & Hg' & Et' & Hpoly' & Hcase').
  change (map ?f ?l) with (f <$> l) in *. rewrite list_fmap_insert in Et'.
  set (pre := hrpForNetwork m ++ [49]) in *.
  assert (toLower c = toLower c') as Hl.
  { assert (Some (toLower c) = (pre ++ (charOf <$> g)) !! i) as H1 by (by rewrite <-Et, list_lookup_fmap, Hi).
    assert (Some (toLower c') = (pre ++ (charOf <$> g')) !! i) as H2.
    { rewrite <-Et', list_lookup_insert_eq; [done|]. rewrite length_fmap. by eapply lookup_lt_Some. }
    apply (inj Some). rewrite H1, H2. destruct (decide (i < length pre)%nat).
    - by rewrite !lookup_app_l by done.
    - rewrite !lookup_app_r by lia. apply (one_group_changed (hrpExpand (hrpForNetwork m)) _ _ _ (toLower c'));
        [apply hrpExpand_groups; by destruct m|done|done|congruence|].
      rewrite Et, insert_app_r_alt in Et' by lia. by apply app_inv_head in Et'. }
  assert (exists p d, p <> i /\ s !! p = Some d /\ isLower (toLower d) = true) as (p & d & Hp & Hd & Hlow).
  { exists (if decide (i = 0%nat) then 1%nat else 0%nat).
    assert (forall p, (p < 2)%nat -> exists x, (pre ++ (charOf <$> g)) !! p = Some x /\ isLower x = true) as Hx.
    { intros [|[|p]] ?; [destruct m; by eexists..|lia]. }
    destruct (Hx (if decide (i = 0%nat) then 1%nat else 0%nat)) as (x & Hx1 & Hx2); [destruct (decide _); lia|].
    rewrite <-Et, list_lookup_fmap in Hx1. apply fmap_Some in Hx1 as (d & Hd & ->).
    exists d. split_and!; [destruct (decide _); lia|done|done]. }
  rewrite (case_change_mixed s i c c' p d) in Hcase'; done.
Qed.

Lemma substitution_detected_witness :
  decodeAddress (<[10%nat:=112]> (encodeAddress 12345 Network.Mainnet)) Network.Mainnet = None.
Proof.
  apply (substitution_detected _ _ 12345 _ (nth 10 (encodeAddress 12345 Network.Mainnet) 0));
    [by vm_compute|by vm_compute|by vm_compute].
Defined.
