(* ===== verification/Genesis.v ===== *)
(** * Genesis

    src/src/Core/Genesis.cpp: the configurations of the three networks, the state
    they describe, the block of height 0 and its pinned hash.  A C++ throw is
    [None]; the state root is the parameter [stateRoot], as in BlockProcessor. *)

From S2P Require Import Prelude Types StateAccess Rotation Block Bech32.

(** ** Configuration (GlobalConfig.h, Genesis.h) *)

Definition CHAIN_ID : N := 0x434C5254.
Definition TESTNET_CHAIN_ID : N := 0x434C5454.
Definition REGNET_CHAIN_ID : N := 0x434C5247.
Definition INITIAL_SET_SIZE : N := 2.
Definition GENESIS_TIMESTAMP_MS : N := 1767225600000.
Definition GENESIS_SUPPLY : N := ATOMIC_UNITS_PER_COIN * 250000.
Definition TREASURY_FUND_ADDRESS : bytes :=
  ascii_bytes "0000000000000000000000000000000000000000000000000000000000000001".
Definition TREASURY_FUND_AMOUNT : N := ATOMIC_UNITS_PER_COIN * 249980.
Definition MAINNET_GENESIS_HASH : bytes :=
  ascii_bytes "eb03ccc1fd7ee6fc85f141183c19d4eabe4876afbc09b8faedb5b8b86264b683".
Definition TESTNET_GENESIS_HASH : bytes :=
  ascii_bytes "2c6f71f6440e64bd1e80514d2239f88ed62b6a2af6f3e0988dd6afd132438692".
Definition REGTEST_GENESIS_HASH : bytes :=
  ascii_bytes "571dd8db044a01b6e6c0634f468c50693586cb4f58e956f7f05cf118c0a5a01e".
Definition SEED_ADDRESS_MAINNET : bytes :=
  ascii_bytes "clrty1qrtzfefxvh8s22gxuyap5aju6zza09rktgea8vrqvstnde7e8x7lv0887e7".
Definition SEED_ADDRESS_TESTNET : bytes :=
  ascii_bytes "tclrty1qrtzfefxvh8s22gxuyap5aju6zza09rktgea8vrqvstnde7e8x7lvvuuhtc".
Definition SEED_ADDRESS_REGTEST : bytes :=
  ascii_bytes "rclrty1qrtzfefxvh8s22gxuyap5aju6zza09rktgea8vrqvstnde7e8x7lval6j42".
Definition SEED_FUND_AMOUNT : N := VALIDATOR_MIN_STAKE.
Definition SEED_ADDRESS_TWO_MAINNET : bytes :=
  ascii_bytes "clrty1qp8ngvgn8p6snhq3tsvxurtn3vxadrclh3rcrc9atwmpqnus6nm5up7h6d0".
Definition SEED_ADDRESS_TWO_TESTNET : bytes :=
  ascii_bytes "tclrty1qp8ngvgn8p6snhq3tsvxurtn3vxadrclh3rcrc9atwmpqnus6nm5uz9vnlf".
Definition SEED_ADDRESS_TWO_REGTEST : bytes :=
  ascii_bytes "rclrty1qp8ngvgn8p6snhq3tsvxurtn3vxadrclh3rcrc9atwmpqnus6nm5unx2kpm".
Definition SEED_FUND_AMOUNT_TWO : N := VALIDATOR_MIN_STAKE.
Definition SEED_NODE : bytes :=
  ascii_bytes "5a46e6c209758cc54cc1d77f316ae2caa3458d50a2edb1319c4cdf5b958e4f63".
Definition SEED_NODE_TWO : bytes :=
  ascii_bytes "d0c96f3a5b8511a100ea7bc1a0521e09c6258f717d36b1a5e5b4322e32704c15".

(** The label of an account is informational and left out. *)
Module GenesisAccount.
Record t := mk {
  address : Address;
  balance_atomic : N;
}.
End GenesisAccount.

Module GenesisValidator.
Record t := mk {
  id : N;
  reward_address : Address;
  node_key : PublicKey;
  is_seed : bool;
  consensus_key : PublicKey;
}.
End GenesisValidator.

Module GenesisConfig.
Record t := mk {
  chain_id : N;
  timestamp_ms : N;
  accounts : list GenesisAccount.t;
  validators : list GenesisValidator.t;
  initial_total_supply : N;
  initial_active_set_size : N;
}.
End GenesisConfig.

(** ** Hexadecimal text (Crypto/Types.h, Common/StringTools.cpp) *)

(** [Common::fromHex] of a character. *)
Definition hexValue (c : N) : option N :=
  if (48 <=? c) && (c <=? 57) then Some (c - 48)
  else if (97 <=? c) && (c <=? 102) then Some (c - 97 + 10)
  else if (65 <=? c) && (c <=? 70) then Some (c - 65 + 10)
  else None.

(** The [nib] of [addrFromHex]: 0 for anything else. *)
Definition nib (c : N) : N := default 0 (hexValue c).

Definition byteOf (high low : N) : N := u8 (N.lor (N.shiftl high 4) low).

(** [Common::fromHex] of a text, which throws on anything malformed. *)
Fixpoint fromHex (text : bytes) : option bytes :=
  match text with
  | [] => Some []
  | h :: l :: text =>
    high ← hexValue h;
    low ← hexValue l;
    rest ← fromHex text;
    Some (byteOf high low :: rest)
  | [_] => None
  end.

(** Reads 64 characters, as its callers pass. *)
Definition addrFromHex (hex : bytes) : Address :=
  be_combine (map (fun i => byteOf (nib (nth (i * 2) hex 0)) (nib (nth (i * 2 + 1) hex 0))) (seq 0 32)).

Definition pubkeyFromHex (hex : bytes) : PublicKey := addrFromHex hex.

Definition hashFromHex (hex : bytes) : option Hash :=
  b ← fromHex hex;
  if negb (length b =? 32)%nat then None else Some (be_combine b).

Definition isHex64 (s : bytes) : bool :=
  (length s =? 64)%nat && forallb (fun c => bool_decide (is_Some (hexValue c))) s.

Definition addressFromConfig (value : bytes) (expected_network : Network.t) : option Address :=
  if isHex64 value then Some (addrFromHex value)
  else decodeAddress value expected_network.

(** ** Network configurations *)

(** The body the three builders share. *)
Definition seededGenesis (chain_id : N) (net : Network.t) (seed seed_two : bytes) : option GenesisConfig.t :=
  treasury ← addressFromConfig TREASURY_FUND_ADDRESS net;
  one ← addressFromConfig seed net;
  two ← addressFromConfig seed_two net;
  Some (GenesisConfig.mk chain_id GENESIS_TIMESTAMP_MS
    [GenesisAccount.mk treasury TREASURY_FUND_AMOUNT;
     GenesisAccount.mk one SEED_FUND_AMOUNT;
     GenesisAccount.mk two SEED_FUND_AMOUNT_TWO]
    [GenesisValidator.mk 1 one (pubkeyFromHex SEED_NODE) true (pubkeyFromHex SEED_NODE);
     GenesisValidator.mk 2 two (pubkeyFromHex SEED_NODE_TWO) true (pubkeyFromHex SEED_NODE_TWO)]
    GENESIS_SUPPLY INITIAL_SET_SIZE).

Definition mainnetGenesis : option GenesisConfig.t :=
  seededGenesis CHAIN_ID Network.Mainnet SEED_ADDRESS_MAINNET SEED_ADDRESS_TWO_MAINNET.

Definition testnetGenesis : option GenesisConfig.t :=
  seededGenesis TESTNET_CHAIN_ID Network.Testnet SEED_ADDRESS_TESTNET SEED_ADDRESS_TWO_TESTNET.

Definition regtestGenesis : option GenesisConfig.t :=
  seededGenesis REGNET_CHAIN_ID Network.Regtest SEED_ADDRESS_REGTEST SEED_ADDRESS_TWO_REGTEST.

(** [Node::genesisConfig] without its test override. *)
Definition genesisConfig (network : Network.t) : option GenesisConfig.t :=
  match network with
  | Network.Mainnet => mainnetGenesis
  | Network.Testnet => testnetGenesis
  | Network.Regtest => regtestGenesis
  end.

(** ** Application *)

Definition u64Bytes (v : N) : bytes := le_split 8 v.

Definition seedIds (validators : list GenesisValidator.t) : list N :=
  map GenesisValidator.id (List.filter GenesisValidator.is_seed validators).

Definition maxSeedId (validators : list GenesisValidator.t) : N :=
  foldl (fun m v => if GenesisValidator.is_seed v && (m <? GenesisValidator.id v)
                    then GenesisValidator.id v else m) 0 validators.

(** The globals, written first. *)
Definition putGenesisGlobals (config : GenesisConfig.t) (st : State) : State :=
  let max_seed_id := maxSeedId (GenesisConfig.validators config) in
  foldl (fun st '(name, v) => putGlobal name (u64Bytes v) st) st
    [("chain_id", GenesisConfig.chain_id config);
     ("total_supply", GenesisConfig.initial_total_supply config);
     ("total_staked", 0);
     ("pot", 0);
     ("epoch_number", 0);
     ("staker_count", 0);
     ("next_validator_id", max_seed_id +64 1);
     ("next_token_id", 1);
     ("next_order_id", 1);
     ("next_pool_id", 1);
     ("next_position_id", 1);
     ("next_collection_id", 1);
     ("last_rotation_height", 0);
     ("apy_activity_bps", 0);
     ("apy_pot_bps", 0);
     ("active_set_size", GenesisConfig.initial_active_set_size config)]%string.

Definition nativeToken : TokenInfo.t :=
  TokenInfo.mk INVALID_ID (ascii_bytes "Clarity") (ascii_bytes "CLRTY") 5 0 BackingModel.Unbacked 0 0 None.

Definition putGenesisAccount (st : State) (acc : GenesisAccount.t) : State :=
  let a := Account.recalculateStaked AUTO_STAKE_THRESHOLD
    (Account.empty <| Account.balance := GenesisAccount.balance_atomic acc |>) in
  putAccount (GenesisAccount.address acc) a st.

Definition genesisValidator (v : GenesisValidator.t) : ValidatorInfo.t :=
  ValidatorInfo.fresh
    <| ValidatorInfo.id := GenesisValidator.id v |>
    <| ValidatorInfo.reward_address := GenesisValidator.reward_address v |>
    <| ValidatorInfo.consensus_key :=
         if isNull (GenesisValidator.consensus_key v) then GenesisValidator.reward_address v
         else GenesisValidator.consensus_key v |>
    <| ValidatorInfo.node_key := GenesisValidator.node_key v |>
    <| ValidatorInfo.owner := GenesisValidator.reward_address v |>
    <| ValidatorInfo.stake := VALIDATOR_MIN_STAKE |>
    <| ValidatorInfo.uptime_score := 10000 |>
    <| ValidatorInfo.is_seed := GenesisValidator.is_seed v |>
    <| ValidatorInfo.is_active := true |>
    <| ValidatorInfo.reward_multiplier := REWARD_MULTIPLIER_START |>.

Definition putGenesisValidator (st : State) (v : GenesisValidator.t) : State :=
  let vi := genesisValidator v in
  let st := putValidator vi st in
  let st := putValidatorByAddress (GenesisValidator.reward_address v) (GenesisValidator.id v) st in
  putValidatorKeyHistory (GenesisValidator.id v)
    [KeyRotation.mk (ValidatorInfo.effectiveConsensusKey vi) 0 0] st.

Definition applyGenesis (config : GenesisConfig.t) (st : State) : State :=
  let st := putGenesisGlobals config st in
  let st := putToken nativeToken st in
  let st := foldl putGenesisAccount st (GenesisConfig.accounts config) in
  let st := foldl putGenesisValidator st (GenesisConfig.validators config) in
  putGlobal "active_set" (concat (map u64Bytes (seedIds (GenesisConfig.validators config)))) st.

(** ** The block of height 0 *)

Section block.
Context `{Crypto} `{StdSort} (stateRoot : State -> Hash).

Definition makeGenesisHeader (config : GenesisConfig.t) : BlockHeader.t :=
  BlockHeader.mk 1 (GenesisConfig.chain_id config) 0 0 (GenesisConfig.timestamp_ms config) 0 0 0
    0 0 [] 0 0 0 0 0 0 0 0 (u32 (N.of_nat (length (GenesisConfig.validators config)))).

Definition makeGenesisBlock (st : State) (config : GenesisConfig.t) : Block.t :=
  let h := makeGenesisHeader config in
  let active_ids := seedIds (GenesisConfig.validators config) in
  Block.mk
    (BlockHeader.mk (BlockHeader.version h) (BlockHeader.chain_id h) (BlockHeader.height h)
       (BlockHeader.parent_hash h) (BlockHeader.timestamp_ms h) (BlockHeader.proposer h)
       (BlockHeader.epoch h) (BlockHeader.rotation_index h) (BlockHeader.commit_round h)
       (BlockHeader.emergency_rotation h) (BlockHeader.timeout_certificate h)
       (BlockHeader.timeout_certificate_hash h) (stateRoot st) (BlockHeader.tx_root h)
       (BlockHeader.receipts_root h) (BlockHeader.epoch_fills_root h)
       (computeValidatorSetRoot active_ids) (BlockHeader.total_fees h) (BlockHeader.tx_count h)
       (BlockHeader.active_validator_count h))
    [] [] [].

(** The temporary database is a fresh store at version 0. *)
Definition computeGenesisStateRoot (config : GenesisConfig.t) : Hash :=
  stateRoot (applyGenesis config (emptyState 0)).

Definition verifyGenesis (st : State) (config : GenesisConfig.t) : bool :=
  stateRoot st =? computeGenesisStateRoot config.
End block.

(** 0, the null hash, where none is pinned. *)
Definition expectedGenesisHash (config : GenesisConfig.t) : Hash :=
  let id := GenesisConfig.chain_id config in
  default 0
    (if id =? CHAIN_ID then hashFromHex MAINNET_GENESIS_HASH
     else if id =? TESTNET_CHAIN_ID then hashFromHex TESTNET_GENESIS_HASH
     else if id =? REGNET_CHAIN_ID then hashFromHex REGTEST_GENESIS_HASH
     else None).
