(* ===== verification/GenesisTheorems.v ===== *)
(** * The chain from genesis on

    Facts about Genesis.  On a fresh store the described state satisfies the
    invariants the other theorems start from, its native total is the sum of the
    configured balances, and the active set and consensus keys are the configured
    ones; the three shipped configurations are well formed and split exactly the
    genesis supply; every chain of accepted blocks on top of it keeps the staking
    totals, and its nonces start at 0.  Applying genesis a second time breaks the
    staking totals. *)

From S2P Require Import Prelude Types OrderBook StateAccess Ledger Amm Codec Matching.
From S2P Require Import ExecBase ExecAccounts ExecOrders Executor Rotation Consensus Block Meta BlockProcessor.
From S2P Require Import Invariants ExecValue Market Conservation Liquidity Chain Samples BlockTheorems.
From S2P Require Import Bech32 Genesis.

(** What [applyGenesis] relies on in its configuration. *)
Record wellFormed (config : GenesisConfig.t) : Prop := {
  wf_addresses : NoDup (map GenesisAccount.address (GenesisConfig.accounts config));
  wf_balances : Forall (fun a => GenesisAccount.balance_atomic a < w64) (GenesisConfig.accounts config);
  wf_ids : NoDup (map GenesisValidator.id (GenesisConfig.validators config));
  wf_rewards : NoDup (map GenesisValidator.reward_address (GenesisConfig.validators config));
  wf_width : Forall (fun v => GenesisValidator.id v + 1 < w64) (GenesisConfig.validators config);
}.

Definition balances (config : GenesisConfig.t) : N :=
  sumN (map GenesisAccount.balance_atomic (GenesisConfig.accounts config)).

(** ** Frames *)

(** The tables no part of genesis writes. *)
Definition untouched (st : State) :=
  (pools st, orders st, positions st, order_sequences st, idx_book st, position_index st, token_balances st).

Lemma untouched_putAccount a acct st : untouched (putAccount a acct st) = untouched st.
Proof.
  unfold putAccount, maintainStakerCount, maintainTotalStaked, indexNativeBalance.
  repeat case_match; done.
Qed.

Lemma untouched_globals config st : untouched (putGenesisGlobals config st) = untouched st.
Proof. done. Qed.

Lemma untouched_accounts l st : untouched (foldl putGenesisAccount st l) = untouched st.
Proof. revert st. induction l as [|a l IH]; intros st; cbn [foldl]; [done|]. rewrite IH. apply untouched_putAccount. Qed.

Lemma untouched_validators l st : untouched (foldl putGenesisValidator st l) = untouched st.
Proof. revert st. induction l as [|v l IH]; intros st; cbn [foldl]; [done|]. by rewrite IH. Qed.

Lemma untouched_genesis config st : untouched (applyGenesis config st) = untouched st.
Proof.
  unfold applyGenesis. change (untouched (putGlobal _ _ ?s)) with (untouched s).
  by rewrite untouched_validators, untouched_accounts.
Qed.

(** ** Staking, value and nonces *)

Lemma globals_total config st : getGlobalU64 "total_staked" (putGenesisGlobals config st) = 0.
Proof. unfold getGlobalU64, putGenesisGlobals. cbn [foldl]. by rewrite !getGlobal_put. Qed.

Lemma Staking_fresh st :
  accounts st = ∅ -> idx_stakers st = ∅ -> getGlobalU64 "total_staked" st = 0 -> Staking st.
Proof.
  intros Ha Hi Ht. split.
  - by rewrite Ha.
  - by rewrite Ha, msum_empty.
  - intros a. unfold getAccount. rewrite Ha, Hi. change (a ∈ (∅ : gset Address) <-> 0 < 0). set_solver by lia.
Qed.

Lemma getGlobal_putToken name t st : getGlobal name (putToken t st) = getGlobal name st.
Proof. done. Qed.

Lemma Staking_globals config v : Staking (putToken nativeToken (putGenesisGlobals config (emptyState v))).
Proof. apply Staking_fresh; [done|done|]. unfold getGlobalU64. rewrite getGlobal_putToken. apply globals_total. Qed.

Lemma Staking_validators l st : Staking st -> Staking (foldl putGenesisValidator st l).
Proof.
  revert st. induction l as [|v l IH]; intros st HS; cbn [foldl]; [done|]. apply IH.
  unfold putGenesisValidator. cbn zeta. solve_stable.
Qed.

Lemma Staking_accounts l st :
  Forall (fun a => GenesisAccount.balance_atomic a < w64) l -> Staking st ->
  Staking (foldl putGenesisAccount st l).
Proof.
  intros Hl. revert st. induction Hl as [|a l Ha _ IH]; intros st HS; cbn [foldl]; [done|]. apply IH.
  unfold putGenesisAccount. cbn zeta. apply Staking_putAccount; [|done].
  rewrite balance_recalculate. by left.
Qed.

Lemma value_putGenesisAccount t st a :
  accounts st !! GenesisAccount.address a = None ->
  value t (putGenesisAccount st a) = value t st + at_token t NATIVE_TOKEN_ID (GenesisAccount.balance_atomic a).
Proof.
  intros Hn. unfold putGenesisAccount. cbn zeta.
  match goal with |- value t (putAccount ?x ?y st) = _ => pose proof (value_putAccount t x y st) as Hv end.
  rewrite worth_getAccount, Hn, worth_recalculate in Hv. cbn [from_option] in Hv.
  change (worth (Account.empty <| Account.balance := ?b |>)) with (b + 0) in Hv.
  change NATIVE_TOKEN_ID with 0. unfold at_token in *. destruct (0 =? t); lia.
Qed.

Lemma lookup_putGenesisAccount st a x :
  x <> GenesisAccount.address a -> accounts (putGenesisAccount st a) !! x = accounts st !! x.
Proof.
  intros Hx. unfold putGenesisAccount. cbn zeta.
  match goal with |- accounts (putAccount ?x ?y st) !! _ = _ => destruct (putAccount_tables x y st) as [-> _] end.
  by rewrite lookup_insert_ne.
Qed.

Lemma value_accounts t l st :
  NoDup (map GenesisAccount.address l) ->
  (forall a, a ∈ map GenesisAccount.address l -> accounts st !! a = None) ->
  value t (foldl putGenesisAccount st l) =
  value t st + at_token t NATIVE_TOKEN_ID (sumN (map GenesisAccount.balance_atomic l)).
Proof.
  revert st. induction l as [|a l IH]; intros st Hn Hfree; cbn [foldl map sumN foldr].
  { unfold at_token. case_match; lia. }
  apply NoDup_cons in Hn as [Ha Hn]. rewrite IH; [|done|].
  - rewrite value_putGenesisAccount by (apply Hfree; left). fold (sumN (map GenesisAccount.balance_atomic l)).
    rewrite at_token_add. lia.
  - intros x Hx. rewrite lookup_putGenesisAccount by (by intros ->). apply Hfree. by right.
Qed.

Lemma nonce_accounts l st :
  (forall a, nonceOf a st = 0) -> forall a, nonceOf a (foldl putGenesisAccount st l) = 0.
Proof.
  revert st. induction l as [|x l IH]; intros st Hz a; cbn [foldl]; [done|]. apply IH. clear a. intros a.
  unfold putGenesisAccount. cbn zeta. rewrite nonceOf_putAccount, nonce_recalculate. by case_match.
Qed.

Lemma accounts_validators l st : accounts (foldl putGenesisValidator st l) = accounts st.
Proof. revert st. induction l as [|v l IH]; intros st; cbn [foldl]; [done|]. by rewrite IH. Qed.

(** ** Validators *)

(** What genesis stores for a validator. *)
Definition seated (st : State) (v : GenesisValidator.t) : Prop :=
  getValidator (GenesisValidator.id v) st = Some (genesisValidator v) /\
  getValidatorByAddress (GenesisValidator.reward_address v) st = Some (GenesisValidator.id v) /\
  getValidatorKeyHistory (GenesisValidator.id v) st =
    Some [KeyRotation.mk (ValidatorInfo.effectiveConsensusKey (genesisValidator v)) 0 0].

Lemma seated_put st v : seated (putGenesisValidator st v) v.
Proof.
  unfold seated, getValidator, getValidatorByAddress, getValidatorKeyHistory.
  cbn. rewrite !lookup_insert_eq. done.
Qed.

Lemma seated_other st v w :
  GenesisValidator.id v <> GenesisValidator.id w ->
  GenesisValidator.reward_address v <> GenesisValidator.reward_address w ->
  seated st v -> seated (putGenesisValidator st w) v.
Proof.
  unfold seated, getValidator, getValidatorByAddress, getValidatorKeyHistory.
  intros Hi Hr (H1 & H2 & H3). cbn. rewrite !lookup_insert_ne by done. done.
Qed.

Lemma seated_validators l st v :
  NoDup (map GenesisValidator.id l) -> NoDup (map GenesisValidator.reward_address l) -> v ∈ l ->
  seated (foldl putGenesisValidator st l) v.
Proof.
  assert (Hkeep : forall l st, seated st v -> GenesisValidator.id v ∉ map GenesisValidator.id l ->
    GenesisValidator.reward_address v ∉ map GenesisValidator.reward_address l ->
    seated (foldl putGenesisValidator st l) v).
  { clear. induction l as [|w l IH]; intros st Hs Hi Hr; cbn [foldl]; [done|].
    apply not_elem_of_cons in Hi as [Hi1 Hi2], Hr as [Hr1 Hr2].
    apply IH; [by apply seated_other|done|done]. }
  revert st. induction l as [|w l IH]; intros st Hi Hr Hv; [by apply not_elem_of_nil in Hv|].
  apply NoDup_cons in Hi as [Hi1 Hi2], Hr as [Hr1 Hr2]. cbn [foldl].
  apply elem_of_cons in Hv as [->|Hv]; [apply Hkeep; [apply seated_put|done|done]|by apply IH].
Qed.

(** Until it rotates, a seated validator signs every height with its first key. *)
Lemma seated_key st v h :
  seated st v -> validatorKeyAtHeight (GenesisValidator.id v) h st =
    Some (ValidatorInfo.effectiveConsensusKey (genesisValidator v)).
Proof.
  intros (_ & _ & Hk). unfold validatorKeyAtHeight. rewrite Hk. cbn [KeyRotation.valid_until_height KeyRotation.valid_from_height].
  rewrite N.eqb_refl. destruct (N.leb_spec 0 h); [done|lia].
Qed.

Lemma getGlobal_account name a acct st :
  name <> "total_staked"%string -> name <> "staker_count"%string ->
  getGlobal name (putAccount a acct st) = getGlobal name st.
Proof.
  intros H1 H2. unfold putAccount, maintainStakerCount, maintainTotalStaked, indexNativeBalance, putGlobalU64.
  repeat case_match; rewrite ?getGlobal_put; rewrite ?bool_decide_eq_false_2 by done; try done;
    unfold indexStaker, unindexStaker; change (getGlobal name (?s <| idx_stakers ::= ?f |>)) with (getGlobal name s);
    rewrite ?getGlobal_put; rewrite ?bool_decide_eq_false_2 by done; done.
Qed.

Lemma getGlobal_accounts name l st :
  name <> "total_staked"%string -> name <> "staker_count"%string ->
  getGlobal name (foldl putGenesisAccount st l) = getGlobal name st.
Proof.
  intros H1 H2. revert st. induction l as [|a l IH]; intros st; cbn [foldl]; [done|].
  rewrite IH. by apply getGlobal_account.
Qed.

Lemma getGlobal_validators name l st :
  getGlobal name (foldl putGenesisValidator st l) = getGlobal name st.
Proof. revert st. induction l as [|v l IH]; intros st; cbn [foldl]; [done|]. by rewrite IH. Qed.

(** The globals that stay as written first. *)
Lemma getGlobal_genesis name config st :
  name <> "total_staked"%string -> name <> "staker_count"%string -> name <> "active_set"%string ->
  getGlobal name (applyGenesis config st) = getGlobal name (putGenesisGlobals config st).
Proof.
  intros H1 H2 H3. unfold applyGenesis. cbv zeta. rewrite getGlobal_put, bool_decide_eq_false_2 by done.
  rewrite getGlobal_validators, getGlobal_accounts by done. apply getGlobal_putToken.
Qed.

Lemma maxSeedId_ge l v : v ∈ l -> GenesisValidator.is_seed v = true -> GenesisValidator.id v <= maxSeedId l.
Proof.
  intros Hv Hs. unfold maxSeedId.
  assert (forall l m, m <= foldl (fun m v => if GenesisValidator.is_seed v && (m <? GenesisValidator.id v)
    then GenesisValidator.id v else m) m l) as Hm.
  { clear. induction l as [|w l IH]; intros m; cbn [foldl]; [done|]. etransitivity; [|apply IH].
    destruct (GenesisValidator.is_seed w); cbn [andb]; [|done]. destruct (N.ltb_spec m (GenesisValidator.id w)); lia. }
  generalize 0 as m. induction l as [|w l IH]; intros m; [by apply not_elem_of_nil in Hv|].
  apply elem_of_cons in Hv as [->|Hv]; cbn [foldl]; [|by apply IH].
  etransitivity; [|apply Hm]. rewrite Hs. cbn [andb]. destruct (N.ltb_spec m (GenesisValidator.id w)); lia.
Qed.

Lemma maxSeedId_lt l : Forall (fun v => GenesisValidator.id v + 1 < w64) l -> maxSeedId l + 1 < w64.
Proof.
  intros Hl. unfold maxSeedId. assert (0 + 1 < w64) as H0 by done. revert H0. generalize 0 as m.
  induction Hl as [|v l Hv _ IH]; intros m Hm; cbn [foldl]; [done|]. apply IH. by destruct (_ && _).
Qed.

Lemma next_validator_id config st :
  wellFormed config -> nextValidatorId (applyGenesis config st) = maxSeedId (GenesisConfig.validators config) + 1.
Proof.
  intros Hw. unfold nextValidatorId. rewrite getGlobal_genesis by done. unfold putGenesisGlobals. cbn [foldl].
  rewrite !getGlobal_put. cbn [bool_decide default].
  pose proof (maxSeedId_lt _ (wf_width _ Hw)) as Hm. rewrite add64_id by done.
  change (le_combine (take 8 (le_split 8 (maxSeedId (GenesisConfig.validators config) + 1))) =
    maxSeedId (GenesisConfig.validators config) + 1).
  rewrite take_ge by (by rewrite length_le_split). rewrite le_combine_split. by apply N.mod_small.
Qed.

(** ** The state of height 0 *)

Lemma Market_bare `{Crypto} st : untouched st = (∅, ∅, ∅, ∅, ∅, ∅, ∅) -> Market st.
Proof.
  intros E. injection E as Hp Ho Hq Hs Hb _ _. split; split; rewrite ?Hp, ?Ho, ?Hq, ?Hs, ?Hb; done.
Qed.

Lemma LpState_bare st : untouched st = (∅, ∅, ∅, ∅, ∅, ∅, ∅) -> LpState st.
Proof.
  intros E. injection E as Hp _ Hq _ _ Hi _.
  assert (liq st = ∅) as Hl by (unfold liq; by rewrite Hp, fmap_empty).
  split; rewrite ?Hl, ?Hq, ?Hi; done.
Qed.

Section genesis.
Context `{Crypto} (config : GenesisConfig.t) (Hw : wellFormed config).

Let st : State := applyGenesis config (emptyState 0).

Lemma start_Staking : Staking st.
Proof.
  unfold st, applyGenesis. cbv zeta. apply stable_global; [done|done|].
  apply Staking_validators, Staking_accounts; [apply Hw|]. apply Staking_globals.
Qed.

Lemma start_untouched : untouched st = (∅, ∅, ∅, ∅, ∅, ∅, ∅).
Proof. apply untouched_genesis. Qed.

Lemma start_Market : Market st.
Proof. apply Market_bare, start_untouched. Qed.

Lemma start_LpState : LpState st.
Proof. apply LpState_bare, start_untouched. Qed.

Lemma start_value t : value t st = at_token t NATIVE_TOKEN_ID (balances config).
Proof.
  unfold st, applyGenesis. cbv zeta. set (st0 := putToken nativeToken _).
  assert (value t (foldl putGenesisAccount st0 (GenesisConfig.accounts config)) =
    at_token t NATIVE_TOKEN_ID (balances config)) as <-.
  { rewrite value_accounts; [|apply Hw|done].
    assert (value t st0 = 0) as ->; [|done].
    unfold value, account_value, token_value, pool_value, order_value.
    change (accounts st0) with (∅ : gmap Address Account.t). change (token_balances st0) with (∅ : gmap (Address * N) N).
    change (pools st0) with (∅ : gmap N AmmPool.t). change (orders st0) with (∅ : gmap N Order.t).
    rewrite !msum_empty. unfold at_token. by case_match. }
  set (st1 := foldl putGenesisAccount _ _).
  pose proof (untouched_validators (GenesisConfig.validators config) st1) as E. injection E as Hp Ho _ _ _ _ Hb.
  apply value_frame; [apply accounts_validators|done..].
Qed.

Lemma start_nonce a : nonceOf a st = 0.
Proof.
  unfold st, applyGenesis. cbv zeta. unfold nonceOf, getAccount.
  change (accounts (putGlobal ?n ?v ?s)) with (accounts s). rewrite accounts_validators. by apply nonce_accounts.
Qed.

Lemma start_active : loadActiveSet st = seedIds (GenesisConfig.validators config).
Proof.
  unfold st, applyGenesis. cbv zeta. apply loadActiveSet_save. unfold seedIds.
  apply Forall_forall. intros i Hi. apply list_elem_of_In, in_map_iff in Hi as (v & <- & Hv).
  apply filter_In in Hv as [Hv _]. pose proof (wf_width _ Hw) as Hf. rewrite Forall_forall in Hf.
  apply list_elem_of_In, Hf in Hv. lia.
Qed.

Lemma start_seated v : v ∈ GenesisConfig.validators config -> seated st v.
Proof.
  intros Hv. unfold st, applyGenesis. cbv zeta.
  exact (seated_validators _ _ _ (wf_ids _ Hw) (wf_rewards _ Hw) Hv).
Qed.
End genesis.

(** C23: on a fresh store a well-formed configuration gives a state in which the
    staking totals, the market tables and the pools are consistent, the native total is
    the sum of the configured balances and no other token exists, every nonce is 0,
    the active set is the seeds in order, every validator has its record, its index
    entry and one key for all heights, and the next validator id is above every
    seed's. *)
Theorem genesis_sound `{Crypto} (config : GenesisConfig.t) (st : State) :
  wellFormed config -> st = applyGenesis config (emptyState 0) ->
  Staking st /\ Market st /\ LpState st /\
  (forall t, value t st = at_token t NATIVE_TOKEN_ID (balances config)) /\
  (forall a, nonceOf a st = 0) /\
  loadActiveSet st = seedIds (GenesisConfig.validators config) /\
  (forall v, v ∈ GenesisConfig.validators config -> seated st v /\
     (forall h, validatorKeyAtHeight (GenesisValidator.id v) h st =
        Some (ValidatorInfo.effectiveConsensusKey (genesisValidator v))) /\
     (GenesisValidator.is_seed v = true -> GenesisValidator.id v < nextValidatorId st)).
Proof.
  intros Hw ->. split_and!.
  - by apply start_Staking.
  - by apply start_Market.
  - by apply start_LpState.
  - by apply start_value.
  - by apply start_nonce.
  - by apply start_active.
  - intros v Hv. pose proof (start_seated config Hw v Hv) as Hs. split_and!; [done| |].
    + intros h. by apply seated_key.
    + intros Hseed. rewrite next_validator_id by done. pose proof (maxSeedId_ge _ _ Hv Hseed). lia.
Qed.

(** ** The three networks *)

Lemma network_wellFormed n config : genesisConfig n = Some config -> wellFormed config.
Proof.
  intros E. destruct n; vm_compute in E; injection E as <-; split;
    match goal with |- ?P => apply (bool_decide_eq_true_1 P) end; vm_compute; reflexivity.
Qed.

(** C24: each network has a configuration: its address texts decode for that network.
    It is well formed, its balances add up to exactly the genesis supply it declares,
    its seeds are as many as the initial active set and can pay the minimum stake, the
    seeds and their keys are the same on every network, and a block hash is pinned. *)
Theorem networks_configured (n : Network.t) :
  exists config, genesisConfig n = Some config /\ wellFormed config /\
    balances config = GENESIS_SUPPLY /\ GenesisConfig.initial_total_supply config = GENESIS_SUPPLY /\
    N.of_nat (length (seedIds (GenesisConfig.validators config))) = GenesisConfig.initial_active_set_size config /\
    (forall v, v ∈ GenesisConfig.validators config -> exists a, a ∈ GenesisConfig.accounts config /\
       GenesisAccount.address a = GenesisValidator.reward_address v /\
       VALIDATOR_MIN_STAKE <= GenesisAccount.balance_atomic a) /\
    (forall config', genesisConfig Network.Mainnet = Some config' ->
       GenesisConfig.validators config' = GenesisConfig.validators config) /\
    expectedGenesisHash config <> 0.
Proof.
  destruct (genesisConfig n) as [config|] eqn:E; [|by destruct n; vm_compute in E]. exists config.
  pose proof (network_wellFormed n config E) as Hw. pose proof E as E0.
  assert (forall config', genesisConfig Network.Mainnet = Some config' ->
    GenesisConfig.validators config' = GenesisConfig.validators config) as Hm.
  { intros config' E'. destruct n; vm_compute in E, E'; injection E as <-; by injection E' as <-. }
  assert (forall v, v ∈ GenesisConfig.validators config -> exists a, a ∈ GenesisConfig.accounts config /\
    GenesisAccount.address a = GenesisValidator.reward_address v /\
    VALIDATOR_MIN_STAKE <= GenesisAccount.balance_atomic a) as Hf.
  { intros v Hv. apply Exists_exists. revert v Hv. apply Forall_forall.
    destruct n; vm_compute in E; injection E as <-; apply (bool_decide_unpack _); vm_compute; exact I. }
  destruct n; vm_compute in E; injection E as <-;
    (split_and!; [exact E0|exact Hw|vm_compute; reflexivity|vm_compute; reflexivity|vm_compute; reflexivity|exact Hf|exact Hm|vm_compute; discriminate]).
Qed.

(** The regression network's start, and its first block: the treasury pays. *)
Definition regtest : GenesisConfig.t :=
  default (GenesisConfig.mk 0 0 [] [] 0 0) (genesisConfig Network.Regtest).

Lemma regtest_ok : genesisConfig Network.Regtest = Some regtest.
Proof. by vm_compute. Qed.

Lemma genesis_sound_witness :
  Staking (applyGenesis regtest (emptyState 0)) /\
  value NATIVE_TOKEN_ID (applyGenesis regtest (emptyState 0)) = at_token NATIVE_TOKEN_ID NATIVE_TOKEN_ID (balances regtest).
Proof.
  destruct (genesis_sound regtest (applyGenesis regtest (emptyState 0))
    (network_wellFormed Network.Regtest regtest regtest_ok) eq_refl) as (H1 & _ & _ & H2 & _).
  split; [exact H1|exact (H2 NATIVE_TOKEN_ID)].
Defined.

(** ** Blocks on top of it *)

(** C22: the chain of a network.  Whatever blocks are accepted one after the other from
    the genesis state on, the staking totals are right after the last one, and the
    blocks' transactions of any account carry the nonces 0, 1, 2, ... without a gap
    or a repetition, which is what the account's stored nonce counts. *)
Theorem chain_from_genesis `{Crypto} `{StdSort} (stateRoot : State -> Hash) (n : Network.t)
    (config : GenesisConfig.t) (blocks : list Block.t) (bs bs' : BlockStore) (a : Address) :
  genesisConfig n = Some config -> store bs = applyGenesis config (emptyState 0) ->
  accepted stateRoot blocks bs bs' ->
  let txs := concat (map userTransactions blocks) in
  Staking (store bs') /\
  (N.of_nat (length txs) + 1 < w64 ->
   map Transaction.nonce (ofSender a txs) = noncesFrom 0 (length (ofSender a txs)) /\
   nonceOf a (store bs') = N.of_nat (length (ofSender a txs))).
Proof.
  intros Hn Hs Ha. cbn zeta. apply network_wellFormed in Hn.
  pose proof (accepted_run stateRoot _ _ _ Ha) as Hr. rewrite Hs in Hr. split.
  - exact (run_stable Staking Staking_bumpNonce _ _ _ Hr (start_Staking config Hn)).
  - intros Hb. pose proof (start_nonce config a) as Hz.
    destruct (run_nonces _ _ _ a Hr) as [H1 H2]; [rewrite Hz; lia|]. rewrite Hz in H1, H2. split; [done|lia].
Qed.

Definition treasuryPays : Transaction.t :=
  Transaction.mk CURRENT_TRANSACTION_VERSION REGNET_CHAIN_ID TxType.Transfer 0 0 1 bob NATIVE_TOKEN_ID 500000 10 []
    (replicate 64 0).

Definition firstBlock : Block.t :=
  Block.mk
    (BlockHeader.mk CURRENT_BLOCK_VERSION REGNET_CHAIN_ID 1 11 1767225700000 (GenesisValidator.reward_address
        (nth 0 (GenesisConfig.validators regtest) (GenesisValidator.mk 0 0 0 false 0))) 0 0 0 0 [] 0 99
      (computeTxRoot [treasuryPays]) 0 0 (computeValidatorSetRoot [1; 2]) 10 1 2)
    [treasuryPays] (map (fun i => ValidatorSignature.mk i (replicate 64 4)) [0; 1]) [1; 2].

Definition started : BlockStore := mkBlockStore (applyGenesis regtest (emptyState 0)) ∅ ∅ ∅ ∅ ∅.

Definition afterFirst : BlockStore :=
  snd (applyBlock (fun _ => 99) firstBlock (BlockContext.mk REGNET_CHAIN_ID 1 false) 1767225700000 started).

Lemma firstBlock_ok :
  exists r, applyBlock (fun _ => 99) firstBlock (BlockContext.mk REGNET_CHAIN_ID 1 false) 1767225700000 started =
    (inr r, afterFirst).
Proof.
  assert (outcomeTag (fst (applyBlock (fun _ => 99) firstBlock (BlockContext.mk REGNET_CHAIN_ID 1 false)
    1767225700000 started)) = true) as E by (vm_compute; reflexivity).
  unfold afterFirst. destruct (applyBlock _ _ _ _ _) as [[e|r] bs']; [discriminate|]. by exists r.
Qed.

Lemma chain_from_genesis_witness : Staking (store afterFirst) /\ nonceOf 1 (store afterFirst) = 1.
Proof.
  destruct firstBlock_ok as [r E].
  assert (accepted (fun _ => 99) [firstBlock] started afterFirst) as Ha by (econstructor; [exact E|constructor]).
  destruct (chain_from_genesis (fun _ => 99) Network.Regtest regtest [firstBlock] started afterFirst 1
    regtest_ok eq_refl Ha) as [H1 H2].
  split; [exact H1|]. destruct H2 as [_ H2]; [by vm_compute|]. exact H2.
Defined.

(** ** Twice *)

(** The record genesis hands to [putAccount], and the stake it ends up with. *)
Definition genesisAccount (a : GenesisAccount.t) : Account.t :=
  Account.recalculateStaked AUTO_STAKE_THRESHOLD
    (Account.empty <| Account.balance := GenesisAccount.balance_atomic a |>).

Definition genesisStake (a : GenesisAccount.t) : N := Account.staked (genesisAccount a).

(** The account is stored as genesis stores it first. *)
Definition endowed (st : State) (a : GenesisAccount.t) : Prop :=
  exists v, accounts st !! GenesisAccount.address a = Some (accountToStore v Account.empty (genesisAccount a)).

Lemma accounts_put st a :
  accounts (putGenesisAccount st a) =
  <[GenesisAccount.address a :=
      accountToStore (version st) (getAccount (GenesisAccount.address a) st) (genesisAccount a)]> (accounts st).
Proof. apply putAccount_tables. Qed.

Lemma staked_store v old a : Account.staked (accountToStore v old (genesisAccount a)) = genesisStake a.
Proof.
  unfold genesisStake, genesisAccount, accountToStore, Account.recalculateStaked. cbn.
  destruct (_ <? _) eqn:E; cbn; by rewrite E.
Qed.

(** Storing it again changes nothing, whatever the version is by then. *)
Lemma endowed_again st a : endowed st a -> putGenesisAccount st a = st.
Proof.
  intros [v Hv]. set (old := accountToStore v Account.empty (genesisAccount a)) in Hv.
  assert (Hg : getAccount (GenesisAccount.address a) st = old) by (unfold getAccount; by rewrite Hv).
  assert (Hs : accountToStore (version st) old (genesisAccount a) = old).
  { unfold old, accountToStore, genesisAccount, Account.recalculateStaked, Account.empty. cbn.
    destruct (_ <? AUTO_STAKE_THRESHOLD) eqn:E; cbn; rewrite E; cbn; [done|].
    by destruct (0 <? GenesisAccount.balance_atomic a). }
  change (putGenesisAccount st a) with (putAccount (GenesisAccount.address a) (genesisAccount a) st).
  unfold putAccount. rewrite Hg, Hs. unfold indexNativeBalance, maintainTotalStaked, maintainStakerCount.
  rewrite !N.eqb_refl. destruct (0 <? Account.staked old); cbn [andb negb];
    (destruct st; cbn in *; by rewrite (insert_id _ _ _ Hv)).
Qed.

Lemma endowed_all_again l st : Forall (endowed st) l -> foldl putGenesisAccount st l = st.
Proof. induction 1 as [|a l Ha _ IH]; cbn [foldl]; [done|]. by rewrite endowed_again. Qed.

(** The accounts of a run over distinct addresses, and the accumulators. *)
Lemma endowed_put st a : accounts st !! GenesisAccount.address a = None -> endowed (putGenesisAccount st a) a.
Proof.
  intros Hn. exists (version st). rewrite accounts_put, lookup_insert_eq. unfold getAccount. by rewrite Hn.
Qed.

Lemma endowed_other st a b :
  GenesisAccount.address a <> GenesisAccount.address b -> endowed st a -> endowed (putGenesisAccount st b) a.
Proof. intros Hne [v Hv]. exists v. by rewrite lookup_putGenesisAccount. Qed.

Lemma endowed_accounts l st :
  NoDup (map GenesisAccount.address l) ->
  (forall a, a ∈ map GenesisAccount.address l -> accounts st !! a = None) ->
  Forall (endowed (foldl putGenesisAccount st l)) l.
Proof.
  assert (Hkeep : forall l st a, endowed st a -> GenesisAccount.address a ∉ map GenesisAccount.address l ->
    endowed (foldl putGenesisAccount st l) a).
  { clear. induction l as [|b l IH]; intros st a Ha Hn; cbn [foldl]; [done|].
    apply not_elem_of_cons in Hn as [Hb Hn]. apply IH; [by apply endowed_other|done]. }
  revert st. induction l as [|a l IH]; intros st Hn Hfree; cbn [foldl]; [constructor|].
  apply NoDup_cons in Hn as [Ha Hn]. constructor.
  - apply Hkeep; [apply endowed_put, Hfree; left|done].
  - apply IH; [done|]. intros x Hx. rewrite lookup_putGenesisAccount by (by intros ->). apply Hfree. by right.
Qed.

Lemma staked_put st a :
  accounts st !! GenesisAccount.address a = None ->
  msum (fun _ x => Account.staked x) (accounts (putGenesisAccount st a)) =
  msum (fun _ x => Account.staked x) (accounts st) + genesisStake a.
Proof.
  intros Hn. rewrite accounts_put, msum_insert_new, staked_store by done. lia.
Qed.

Lemma staker_count_put st a :
  accounts st !! GenesisAccount.address a = None -> getGlobalU64 "staker_count" st < w64 ->
  getGlobalU64 "staker_count" (putGenesisAccount st a) =
  getGlobalU64 "staker_count" st +64 (if 0 <? genesisStake a then 1 else 0).
Proof.
  intros Hn Hlt. change (putGenesisAccount st a) with (putAccount (GenesisAccount.address a) (genesisAccount a) st).
  unfold putAccount, maintainStakerCount. unfold getAccount. rewrite Hn, staked_store. cbn [default Account.staked Account.empty].
  set (copy := accountToStore _ _ _). set (st1 := maintainTotalStaked _ _ _).
  assert (Hc : getGlobalU64 "staker_count" st1 = getGlobalU64 "staker_count" st).
  { unfold st1, maintainTotalStaked, indexNativeBalance.
    repeat case_match; rewrite ?getGlobalU64_put by (repeat case_match; auto with words); done. }
  change (0 <? 0) with false. destruct (0 <? genesisStake a); cbn [andb negb].
  - etransitivity; [apply getGlobalU64_put; auto with words|]. rewrite bool_decide_true by done.
    transitivity (getGlobalU64 "staker_count" st1 +64 1); [done|by rewrite Hc].
  - rewrite Hc, add64_id; lia.
Qed.

Lemma accumulators l st :
  getGlobalU64 "staker_count" st < w64 ->
  NoDup (map GenesisAccount.address l) ->
  (forall a, a ∈ map GenesisAccount.address l -> accounts st !! a = None) ->
  let st' := foldl putGenesisAccount st l in
  msum (fun _ x => Account.staked x) (accounts st') =
    msum (fun _ x => Account.staked x) (accounts st) + sumN (map genesisStake l) /\
  getGlobalU64 "staker_count" st' =
    u64 (getGlobalU64 "staker_count" st + N.of_nat (length (List.filter (fun a => 0 <? genesisStake a) l))).
Proof.
  cbn zeta. revert st. induction l as [|a l IH]; intros st Hlt Hn Hfree; cbn [foldl map sumN foldr List.filter].
  { rewrite !N.add_0_r. split; [done|]. symmetry. by apply u64_id. }
  apply NoDup_cons in Hn as [Ha Hn]. specialize (Hfree (GenesisAccount.address a) ltac:(left)) as Hfa.
  destruct (IH (putGenesisAccount st a)) as [-> ->]; [|done| |].
  { rewrite staker_count_put by done. apply add64_lt. }
  { intros x Hx. rewrite lookup_putGenesisAccount by (by intros ->). apply Hfree. by right. }
  rewrite staked_put, staker_count_put by done. split; [unfold sumN; lia|].
  unfold add64, u64. rewrite N.Div0.add_mod_idemp_l. f_equal. destruct (0 <? genesisStake a); cbn [length]; lia.
Qed.

(** What follows the accounts writes none of the accumulators. *)
Definition seatValidators (config : GenesisConfig.t) (st : State) : State :=
  putGlobal "active_set" (concat (map u64Bytes (seedIds (GenesisConfig.validators config))))
    (foldl putGenesisValidator st (GenesisConfig.validators config)).

Lemma seatValidators_frame config st :
  accounts (seatValidators config st) = accounts st /\ idx_stakers (seatValidators config st) = idx_stakers st /\
  forall name, name <> "active_set"%string -> getGlobalU64 name (seatValidators config st) = getGlobalU64 name st.
Proof.
  unfold seatValidators. split_and!.
  - apply (accounts_validators (GenesisConfig.validators config)).
  - change (idx_stakers (putGlobal _ _ ?s)) with (idx_stakers s). generalize (GenesisConfig.validators config).
    intros l. revert st. induction l as [|v l IH]; intros st; cbn [foldl]; [done|]. by rewrite IH.
  - intros name Hne. unfold getGlobalU64. by rewrite getGlobal_put, bool_decide_false, getGlobal_validators.
Qed.

(** The globals and the native token, written before the accounts. *)
Definition zeroed (config : GenesisConfig.t) (st : State) : State :=
  putToken nativeToken (putGenesisGlobals config st).

Lemma zeroed_frame config st :
  getGlobalU64 "total_staked" (zeroed config st) = 0 /\ getGlobalU64 "staker_count" (zeroed config st) = 0.
Proof.
  unfold zeroed, getGlobalU64. rewrite !getGlobal_putToken. unfold putGenesisGlobals. cbn [foldl].
  by rewrite !getGlobal_put.
Qed.

(** On a fresh store genesis stores every account; a second time it skips them. *)
Lemma genesis_once_twice config (once := applyGenesis config (emptyState 0)) :
  wellFormed config ->
  msum (fun _ x => Account.staked x) (accounts once) = sumN (map genesisStake (GenesisConfig.accounts config)) /\
  getGlobalU64 "staker_count" once =
    u64 (N.of_nat (length (List.filter (fun a => 0 <? genesisStake a) (GenesisConfig.accounts config)))) /\
  applyGenesis config once = seatValidators config (zeroed config once).
Proof.
  intros Hw. set (st0 := zeroed config (emptyState 0)). destruct (zeroed_frame config (emptyState 0)) as [_ Hz].
  destruct (accumulators (GenesisConfig.accounts config) st0) as [Hm Hc]; [by unfold st0; rewrite Hz|apply Hw|done|].
  pose proof (endowed_accounts (GenesisConfig.accounts config) st0 (wf_addresses _ Hw) ltac:(done)) as He.
  set (st1 := foldl putGenesisAccount st0 (GenesisConfig.accounts config)) in *.
  destruct (seatValidators_frame config st1) as (Ha & _ & Hg).
  change once with (seatValidators config st1). split_and!.
  - rewrite Ha, Hm. change (accounts st0) with (∅ : gmap Address Account.t). by rewrite msum_empty.
  - rewrite Hg, Hc by done. unfold st0. by rewrite Hz.
  - unfold applyGenesis at 1. cbv zeta. rewrite (endowed_all_again (GenesisConfig.accounts config)); [done|].
    eapply Forall_impl; [exact He|]. intros a [v Hv]. exists v. rewrite <- Hv, <- Ha. done.
Qed.

(** C25: applying genesis a second time is not the same as applying it once.
    Take any well-formed configuration.  After the first application to a fresh
    store the total stake is the sum of the configured stakes, and the staker
    count the number of accounts with one (both in 64 bits).  The second
    application zeroes the two accumulators again, but the accounts are already
    stored with their stakes, so [putAccount] finds no difference to add: both
    end at 0 while every account is as it was.  The staking invariant survives
    the second application exactly when the configured stakes add up to 0 in 64
    bits. *)
Theorem genesis_not_idempotent (config : GenesisConfig.t) :
  wellFormed config ->
  let once := applyGenesis config (emptyState 0) in
  let twice := applyGenesis config once in
  let stakes := sumN (map genesisStake (GenesisConfig.accounts config)) in
  let stakers := N.of_nat (length (List.filter (fun a => 0 <? genesisStake a) (GenesisConfig.accounts config))) in
  (getGlobalU64 "total_staked" once = u64 stakes /\ getGlobalU64 "staker_count" once = u64 stakers) /\
  accounts twice = accounts once /\
  msum (fun _ x => Account.staked x) (accounts twice) = stakes /\
  (getGlobalU64 "total_staked" twice = 0 /\ getGlobalU64 "staker_count" twice = 0) /\
  (Staking twice <-> u64 stakes = 0).
Proof.
  intros Hw. cbn zeta. set (once := applyGenesis config (emptyState 0)).
  pose proof (start_Staking config Hw) as HS. fold once in HS.
  destruct (genesis_once_twice config Hw) as (Hs & Hc & Htwice). fold once in Hs, Hc, Htwice. rewrite Htwice.
  destruct (seatValidators_frame config (zeroed config once)) as (Ha & Hi & Hg).
  destruct (zeroed_frame config once) as [Ht0 Hc0].
  change (accounts (zeroed config once)) with (accounts once) in Ha.
  change (idx_stakers (zeroed config once)) with (idx_stakers once) in Hi.
  split_and!; [by rewrite (staking_total _ HS), Hs|done|done|by rewrite Ha|by rewrite Hg|by rewrite Hg|]. split.
  - intros HS2%staking_total. by rewrite Ha, Hs, Hg, Ht0 in HS2.
  - intros Hu. split; [rewrite Ha; apply HS|by rewrite Hg, Ht0, Ha, Hs, Hu|].
    intros a. rewrite Hi. unfold getAccount. rewrite Ha. apply HS.
Qed.

Lemma genesis_not_idempotent_witness :
  let twice := applyGenesis regtest (applyGenesis regtest (emptyState 0)) in
  sumN (map genesisStake (GenesisConfig.accounts regtest)) = GENESIS_SUPPLY /\
  getGlobalU64 "total_staked" twice = 0 /\ ~ Staking twice.
Proof.
  destruct (genesis_not_idempotent regtest (network_wellFormed Network.Regtest regtest regtest_ok))
    as (_ & _ & _ & [Ht _] & [Hs _]).
  split; [vm_compute; reflexivity|]. split; [exact Ht|]. intros Hx. apply Hs in Hx. vm_compute in Hx. discriminate.
Defined.
